(* ===== verification/_CoqProject ===== *)
-Q . S2P
Prelude.v
Bits.v
BitStream.v
Bytes.v
Gorilla.v
Chimp.v
Float64.v
Float32.v
SzSmawk.v
SzKmeans.v
ElfXor.v
Elf.v
Ovlq.v
Stl.v
Huffman.v
Hybrid.v
Lorenzo.v
Machete.v
Lfzip.v
SzBytes.v
Quantizer.v
SzHeap.v
SzHuffman.v
SzEncoder.v
SzConfig.v
SzPipeline.v
SzDecomp.v
SzMeta.v
SzLorenzo3.v
SzQuantOpt.v
SzIterator.v
SzLevels.v
SzGrid.v
SzSample.v
SzBox.v
SzInterp.v
SzBlock.v
SzPredictor.v
SzPoly.v
SzComposed.v
SzIterate.v
SzTime.v
SzExaalt.v
SzTypetwo.v
SzAlgo.v
SzOmp.v
SzApi.v
