(* ===== verification/Prelude.v ===== *)
(** * A verification of the chunk codecs of TopcDB

    TopcDB is a time series database.  The chunks of its samples are stored by codecs in C and
    C++ under [tsdb/chunkenc/algorithm], which the Go code calls through C: the directory
    [Machete] with the lossy codec Machete and four codecs it is measured against, and the
    directory [SZ3] with the error-bounded compressor SZ3.  This library models these codecs as
    executable functions and proves what a user relies on: what is decoded is what was encoded,
    or lies within the error bound.  Where the code falls short of that, the exact behaviour is
    proved instead.

    ** The parts, and the files that model them

    Shared: this file (tactics, hint databases, lemmas on lists, options and machine integers);
    [Bits] (bit strings and the bit-counting builtins); [Bytes] (little-endian buffers);
    [Float64] and [Float32] (the operations of [double] and [float] on their bit patterns); [Stl] (the interfaces of
    [std::priority_queue] and of the order of a [std::unordered_map]).

    Machete and its baselines, [Machete/inc] and [Machete/src]:
    - [BitStream]: [BitStream/BitWriter.h] and [BitReader.h].  All the codecs below write and
      read through them, and use only the refinement of bit strings proved there.
    - [Gorilla]: [gorilla/gorilla.cpp]; [Chimp]: [chimp/ChimpEncode.cpp] and
      [ChimpDecode.cpp]; [ElfXor] and [Elf]: [elf/ElfCompressor.cpp],
      [elf/ElfDecompressor.cpp] and [elf/utils.cpp]; [Lfzip]: [lfzip/lfzip.cpp] and
      [lfzip_predictor.cpp].
    - [Lorenzo]: the predictor [machete/predict.cpp], from doubles to integers; [Ovlq],
      [Huffman], [Hybrid]: the coders of integers [machete/ovlq.cpp], [huffman.cpp] and
      [hybrid.cpp]; [Machete]: [machete/machete.cpp], which predicts, encodes with a coder
      behind the interface [IntCodec] and stores a container, and its C wrapper.

    SZ3, [SZ3/include/SZ3] and [SZ3/tools/sz3c].  Its compressors are templates over modules;
    each interface of a module is a class here, with the laws that the compressors use:
    - [SzBytes]: [utils/ByteUtil.hpp], [MemoryUtil.hpp]; [SzConfig]: [utils/Config.hpp] and the
      error bounds of [Statistic.hpp].
    - [Quantizer]: [QuantizerInterface] and [quantizer/IntegerQuantizer.hpp].
    - [SzHeap], [SzHuffman], [SzEncoder]: [encoder/HuffmanEncoder.hpp], [RunlengthEncoder.hpp],
      [BypassEncoder.hpp] behind [EncoderInterface].
    - [SzPipeline]: [LosslessInterface] with [lossless/], [DecompositionInterface] and
      [compressor/SZGenericCompressor.hpp], which is verified against the interfaces.
    - [SzDecomp]: [NoPredictionDecomposition.hpp], and [LorenzoRegressionDecomposition.hpp] for
      one dimension; [SzMeta], [SzLorenzo3]: its blocks of Lorenzo prediction or regression in three
      dimensions, with [utils/MetaDef.hpp], [predictor/MetaLorenzoPredictor.hpp] and
      [MetaRegressionPredictor.hpp]; [SzQuantOpt]: the number of bins that
      [utils/QuantOptimizatioin.hpp] estimates.  [SzLevels], [SzGrid], [SzInterp]: [InterpolationDecomposition.hpp] for any
      number of dimensions, along lines, in the levels of a grid, and as a decomposition.
      [SzBox], [SzBlock]: [specialized/SZBlockInterpolationCompressor.hpp] for one to four
      dimensions, the interpolation of a block and the compressor.  [SzSample]:
      [utils/Extraction.hpp].
    - [SzIterator]: [utils/Iterator.hpp]; [SzPredictor], [SzPoly], [SzComposed]:
      [PredictorInterface] and the predictors of [predictor/]; [SzIterate]:
      [compressor/SZIterateCompressor.hpp] against the interfaces; [SzTypetwo]: the compressor
      that [SZAlgoLorenzoReg.hpp] makes of them.  These are for any number of dimensions.
      [SzTime]: [TimeSeriesDecomposition.hpp], which uses the same predictors for its first row.
    - [SzSmawk], [SzKmeans]: [utils/KmeansUtil.hpp], the levels of molecular dynamics data by
      clustering, with the algorithm SMAWK for the minima of the rows of a matrix; [SzExaalt]:
      [specialized/SZExaaltCompressor.hpp], which predicts by these levels.
    - [SzAlgo]: the algorithms of [api/impl/] with the tuning by samples and the dispatcher;
      [SzOmp]: [SZImplOMP.hpp]; [SzApi]: [api/sz.hpp], the entry points, and the C interface
      [tools/sz3c/src/sz3c.cpp].  The parameter [N] of the templates is a parameter [dim] here.
      What the code runs on, the C library, zstd, the OpenMP runtime and memory before it is
      written, is the class [Environment].

    ** How the code is modelled

    A [double] is its 64-bit pattern, and computed with by the IEEE 754 specification of the
    Standard Library; other integers are [Z], wrapped by [u32], [i32], [u64], [i64] wherever the
    code may overflow; where the overflow of an [int] is undefined, as in the sizes that the codecs of
    Machete return, [int_of] gives [None].  Memory is a list of bytes; [None] stands for an exception, a failed
    assertion or an access outside a buffer, or undefined behaviour otherwise, and the comments
    say which.  Objects that are changed are passed along.  Memory that is read before it is
    written has unknown content: [junk], [garbage], [uninit].

    Parameters, each with what is assumed of it in the sections that use it: zstd (a frame is
    decompressed to what was compressed, when there is room; and, for the theorems that call the
    decompressor of SZ3 with the size of the whole, before the bytes after it are looked at),
    libbsc, [log2], [log10], [pow] and
    [sqrt] of the C library, the INI reader, [std::sort], the order of hash maps, [__builtin_ctz(0)], the
    table of coefficients of the regression with squares, and the number of threads of the
    OpenMP runtime and the order in which they write.  Every theorem with a hypothesis has a
    witness that computes a run of the code where it holds.

    ** The theorems

    - Round trips of every codec: Gorilla, Chimp, Elf, the coders of integers, Machete (with the
      exact conditions of its size errors) and its C wrapper, LFZip, the Huffman encoder of SZ3
      and its stored trees, the configuration.  The sizes of Gorilla, Chimp, Elf and LFZip are
      [int]s, and their theorems are for the lengths for which these do not overflow.  Elf erases
      bits: what is lossless is its format, and the values whose bits are not erased.
    - Error bounds: the quantizer, the decompositions and the compressors of SZ3 reconstruct
      within the bound, up to the entry points [sz_roundtrip] and [sz3c_roundtrip] that the
      database uses, for one to four dimensions and every algorithm that may be chosen or tuned.
      The conditions, which the code does not check, are explicit hypotheses: the frame is no
      longer than the data ([frame_fits]), no block is refused by its predictor ([none_refused]),
      the coefficients of regressions in three dimensions can be decoded ([coefficients_kept]),
      and, for the size that [SZ_compress] returns, that the bytes read past the end are
      readable.  Below the entry points:
      [interp_roundtrip] and [typetwo_roundtrip] for any number of dimensions,
      [lorenzo_3d_roundtrip] for three, [timeseries_roundtrip] and [exaalt_roundtrip].
    - The orders of visits behind them: every value is visited once, and predicted from values
      visited before ([interp_visits_once], [block_visits_once], [blocks_divide]); the loops end
      ([range_loop_ends], [optimize_bins]); a sample has the values of the data at the places it stands for
      ([sampling_exact]); the threads divide the data, whatever their order ([omp_result]);
      the tests keep what the decompressor needs ([sz_tuned]).
    - Bounds: depths of Huffman trees and lengths of codes, levels of the interpolation, sizes of
      buffers; [heap_sorts] and [ovlq_search_exact] compare with a reference;
      [smawk_minima] gives the leftmost minimum of every row of a totally monotone matrix, and
      [get_cluster_runs] shows that the clustering over it is safe for rounded costs.
    - Where the code fails: reading past the end ([sz_decompress_overread]), buffers that are too
      small ([sz_compress_small], [sz_unpredictable_lost]), an assertion that always fails
      ([sz_nopred_assert]), a choice that is not stored ([typetwo_refused_block]),
      coefficients that are not read back ([lorenzo_3d_few_regressions]), threads with a single
      row ([omp_single_rows]).

    ** Fuel

    Most loops are structural.  The others take fuel, and the theorems show that it is enough:
    the length of the queue for the merges and the sifting of the heap, the number of nodes for
    a stored tree, the length in bits for decoding, the number of runs, the number of
    rows for SMAWK, and the product of the dimensions for the loops over ranges.

    ** Not modelled

    The database itself (Go); zstd and the other vendored code; files, timers, printing and the
    command line tools; the codecs for [float] data.
    The preprocessors are not reached from the entry points: [Wavelet.hpp] calls GSL, [PreFilter.hpp]
    does not compile, and [Transpose.hpp] permutes axes.
    [SZTruncateCompressor.hpp] and [ArithmeticEncoder.hpp] call functions that are declared
    nowhere, and cannot be instantiated. *)

(** * Prelude: shared notations, tactics and lemmas *)

From Stdlib Require Import ZArith Lia.
From stdpp Require Export base tactics numbers list list_numbers option.

#[global] Open Scope Z_scope.

(** ** Automation *)

Create HintDb topc.
Create HintDb zbits.

(** Boolean comparisons in hypotheses become propositions. *)
Ltac to_prop :=
  repeat match goal with
  | H : (_ && _)%bool = true |- _ => apply andb_prop in H; destruct H
  | H : (_ <=? _) = true |- _ => apply Z.leb_le in H
  | H : (_ <=? _) = false |- _ => apply Z.leb_gt in H
  | H : (_ <? _) = true |- _ => apply Z.ltb_lt in H
  | H : (_ <? _) = false |- _ => apply Z.ltb_ge in H
  | H : (_ =? _) = true |- _ => apply Z.eqb_eq in H
  | H : (_ =? _) = false |- _ => apply Z.eqb_neq in H
  | H : negb _ = true |- _ => apply negb_true_iff in H
  | H : negb _ = false |- _ => apply negb_false_iff in H
  end.

(** Case analysis on the first boolean comparison of the goal. *)
Ltac zcase :=
  match goal with
  | |- context [?a <=? ?b] => destruct (Z.leb_spec a b)
  | |- context [?a <? ?b] => destruct (Z.ltb_spec a b)
  | |- context [?a =? ?b] => destruct (Z.eqb_spec a b)
  end.

Ltac zcases := repeat (zcase; try (exfalso; lia)).

(** Inversion of a chain of successful option computations. *)
Ltac inv_opt :=
  repeat match goal with
  | H : Some _ = Some _ |- _ => injection H as H; try subst
  | H : None = Some _ |- _ => discriminate H
  | H : Some _ = None |- _ => discriminate H
  | H : mbind _ ?o = Some _ |- _ =>
      let E := fresh "E" in destruct o eqn:E; simpl in H; [| discriminate H]
  end.

(** ** Assertions and undefined behaviour

    A C++ function that may fail an assertion or run into undefined behaviour
    (an out of range shift or array access) returns an option; [assert b] is the
    check.  A theorem that the result is [Some _] says that it does not happen. *)

Definition assert (b : bool) : option unit := if b then Some tt else None.
Arguments assert : simpl never.

Lemma assert_true b : b = true -> assert b = Some tt.
Proof. by intros ->. Qed.

Lemma assert_false b : b = false -> assert b = None.
Proof. by intros ->. Qed.

Lemma assert_Some b u : assert b = Some u -> b = true.
Proof. by destruct b. Qed.

(** ** Machine integers: a w-bit integer is a Z with explicit wrap-around *)

Definition u8 (x : Z) : Z := x mod 2 ^ 8.
Definition u16 (x : Z) : Z := x mod 2 ^ 16.
Definition u32 (x : Z) : Z := x mod 2 ^ 32.
Definition u64 (x : Z) : Z := x mod 2 ^ 64.
Definition swrap (w x : Z) : Z := (x + 2 ^ (w - 1)) mod 2 ^ w - 2 ^ (w - 1).
Definition i16 (x : Z) : Z := swrap 16 x.
Definition i32 (x : Z) : Z := swrap 32 x.
Definition i64 (x : Z) : Z := swrap 64 x.
Definition INT32_MIN : Z := - 2 ^ 31.
Definition INT32_MAX : Z := 2 ^ 31 - 1.

Definition is_u32 (x : Z) : Prop := 0 <= x < 2 ^ 32.
Definition is_u64 (x : Z) : Prop := 0 <= x < 2 ^ 64.
Definition is_i32 (x : Z) : Prop := - 2 ^ 31 <= x < 2 ^ 31.

(** The result of signed [int] arithmetic: overflow is undefined. *)
Definition int_of (x : Z) : option Z :=
  _ ← assert ((INT32_MIN <=? x) && (x <=? INT32_MAX));
  Some x.

(** [x << n] on uint64_t; the callers guard [n < 64]. *)
Definition shl64 (x n : Z) : Z := u64 (Z.shiftl x n).

Arguments u8 : simpl never.
Arguments u16 : simpl never.
Arguments u32 : simpl never.
Arguments u64 : simpl never.
Arguments swrap : simpl never.
Arguments i16 : simpl never.
Arguments i32 : simpl never.
Arguments i64 : simpl never.
Arguments shl64 : simpl never.

Lemma int_of_ok x : is_i32 x -> int_of x = Some x.
Proof.
  unfold is_i32, int_of, INT32_MIN, INT32_MAX. intros H. rewrite assert_true; [done |].
  apply andb_true_iff. split; apply Z.leb_le; lia.
Qed.

Lemma u32_range x : is_u32 (u32 x).
Proof. unfold is_u32, u32. apply Z.mod_pos_bound. lia. Qed.

Lemma u64_range x : is_u64 (u64 x).
Proof. unfold is_u64, u64. apply Z.mod_pos_bound. lia. Qed.

Lemma u64_id x : is_u64 x -> u64 x = x.
Proof. intros. by apply Z.mod_small. Qed.

Lemma u32_id x : is_u32 x -> u32 x = x.
Proof. intros. by apply Z.mod_small. Qed.

Lemma swrap_range w x : 0 < w -> - 2 ^ (w - 1) <= swrap w x < 2 ^ (w - 1).
Proof.
  intros Hw. unfold swrap.
  assert (2 ^ w = 2 * 2 ^ (w - 1)) as E.
  { rewrite <- Z.pow_succ_r by lia. f_equal. lia. }
  pose proof (Z.mod_pos_bound (x + 2 ^ (w - 1)) (2 ^ w) ltac:(lia)). lia.
Qed.

Lemma swrap_id w x : 0 < w -> - 2 ^ (w - 1) <= x < 2 ^ (w - 1) -> swrap w x = x.
Proof.
  intros Hw Hx. unfold swrap.
  assert (2 ^ w = 2 * 2 ^ (w - 1)) as E.
  { rewrite <- Z.pow_succ_r by lia. f_equal. lia. }
  rewrite Z.mod_small by lia. lia.
Qed.

Lemma swrap_mod w x : 0 < w -> swrap w (x mod 2 ^ w) = swrap w x.
Proof. intros Hw. unfold swrap. by rewrite Z.add_mod_idemp_l by lia. Qed.

Lemma i32_u32 x : is_i32 x -> i32 (u32 x) = x.
Proof. intros Hx. unfold i32, u32. rewrite swrap_mod by lia. by apply swrap_id. Qed.

Lemma i32_id x : is_i32 x -> i32 x = x.
Proof. intros Hx. unfold i32. by apply swrap_id. Qed.

(** ** Bits of integers *)

Lemma testbit_small x n i : 0 <= x < 2 ^ n -> n <= i -> Z.testbit x i = false.
Proof.
  intros Hx Hi. destruct (Z.eq_dec x 0) as [-> | Hne]; [apply Z.testbit_0_l |].
  apply Z.bits_above_log2; [lia |].
  apply Z.lt_le_trans with n; [| lia]. apply Z.log2_lt_pow2; lia.
Qed.

Lemma testbit_neg_small x n : n < 0 -> Z.testbit x n = false.
Proof. apply Z.testbit_neg_r. Qed.

Lemma testbit_mod x n i : 0 <= n -> Z.testbit (x mod 2 ^ n) i = (i <? n) && Z.testbit x i.
Proof.
  intros Hn. destruct (Z.ltb_spec i n); simpl.
  - destruct (Z.ltb_spec i 0); [by rewrite !Z.testbit_neg_r |].
    by rewrite Z.mod_pow2_bits_low.
  - by apply Z.mod_pow2_bits_high.
Qed.

Lemma testbit_swrap w x i : 0 <= i < w -> Z.testbit (swrap w x) i = Z.testbit x i.
Proof.
  intros Hi. unfold swrap.
  rewrite <- (Z.mod_pow2_bits_low x w), <- (Z.mod_pow2_bits_low (_ - _) w) by lia.
  rewrite Zminus_mod_idemp_l. do 2 f_equal. lia.
Qed.

Lemma testbit_i64 x i : 0 <= i < 64 -> Z.testbit (i64 x) i = Z.testbit x i.
Proof.
  intros Hi. unfold i64, swrap.
  rewrite <- (Z.mod_pow2_bits_low x 64), <- (Z.mod_pow2_bits_low (_ - _) 64) by lia.
  rewrite Zminus_mod_idemp_l. do 2 f_equal. lia.
Qed.

Lemma testbit_shl64 x n i :
  0 <= i -> Z.testbit (shl64 x n) i = (i <? 64) && Z.testbit x (i - n).
Proof. intros. unfold shl64, u64. by rewrite testbit_mod, Z.shiftl_spec by lia. Qed.

Lemma testbit_bound x n :
  0 <= n -> 0 <= x -> (forall i, n <= i -> Z.testbit x i = false) -> x < 2 ^ n.
Proof.
  intros Hn Hx Hb. destruct (Z.eq_dec x 0) as [-> | Hne]; [lia |].
  apply Z.log2_lt_pow2; [lia |]. apply Z.nle_gt. intros Hle.
  specialize (Hb (Z.log2 x) Hle). rewrite Z.bit_log2 in Hb by lia. done.
Qed.

Lemma shiftr_range x n m :
  0 <= n -> 0 <= m -> 0 <= x < 2 ^ (n + m) -> 0 <= Z.shiftr x n < 2 ^ m.
Proof.
  intros Hn Hm Hx. rewrite Z.shiftr_div_pow2 by lia. split.
  - apply Z.div_pos; lia.
  - apply Z.div_lt_upper_bound; [lia |]. rewrite <- Z.pow_add_r by lia. lia.
Qed.

Lemma shl64_range x n : is_u64 (shl64 x n).
Proof. apply u64_range. Qed.

(** Disjoint [lor] is addition. *)
Lemma lor_add_disjoint a b n :
  0 <= n -> 0 <= b < 2 ^ n -> Z.lor (a * 2 ^ n) b = a * 2 ^ n + b.
Proof.
  intros Hn Hb.
  assert (Z.land (a * 2 ^ n) b = 0) as E.
  { apply Z.bits_inj'. intros i Hi. rewrite Z.land_spec, Z.testbit_0_l.
    destruct (Z.ltb_spec i n).
    - by rewrite Z.mul_pow2_bits_low by lia.
    - rewrite (testbit_small b n) by lia. apply andb_false_r. }
  rewrite <- Z.lxor_lor by done. symmetry. by apply Z.add_nocarry_lxor.
Qed.

Lemma lor_range a b n :
  0 <= n -> 0 <= a < 2 ^ n -> 0 <= b < 2 ^ n -> 0 <= Z.lor a b < 2 ^ n.
Proof.
  intros Hn Ha Hb. split; [apply Z.lor_nonneg; lia |].
  apply testbit_bound; [lia | apply Z.lor_nonneg; lia |].
  intros i Hi. by rewrite Z.lor_spec, !(testbit_small _ n) by lia.
Qed.

Lemma land_range a b n :
  0 <= n -> 0 <= b < 2 ^ n -> 0 <= Z.land a b < 2 ^ n.
Proof.
  intros Hn Hb. assert (0 <= Z.land a b) by (apply Z.land_nonneg; lia).
  split; [done |]. apply testbit_bound; [lia | done |].
  intros i Hi. by rewrite Z.land_spec, (testbit_small b n), andb_false_r by lia.
Qed.

Lemma lxor_range a b n :
  0 <= n -> 0 <= a < 2 ^ n -> 0 <= b < 2 ^ n -> 0 <= Z.lxor a b < 2 ^ n.
Proof.
  intros Hn Ha Hb. assert (0 <= Z.lxor a b) by (apply Z.lxor_nonneg; lia).
  split; [done |]. apply testbit_bound; [lia | done |].
  intros i Hi. by rewrite Z.lxor_spec, !(testbit_small _ n) by lia.
Qed.

Lemma lxor_cancel a b : Z.lxor a (Z.lxor a b) = b.
Proof. by rewrite <- Z.lxor_assoc, Z.lxor_nilpotent, Z.lxor_0_l. Qed.

#[export] Hint Resolve u32_range u64_range shl64_range : topc.
