(* ===== verification/Bits.v ===== *)
(** * Bits: bit strings, and the bit-counting builtins of the compiler

    A bit string is a [list bool], most significant bit first.  [bits n v] is the
    string of the [n] low bits of [v]; [bits_val] is its inverse.  Strings are
    compared up to trailing zeros by [zeq], because a reader that runs off the end
    of its words sees zeros.  The second half models [__builtin_clz],
    [__builtin_ctz] and [__builtin_popcount]. *)

From Stdlib Require Import ZArith Lia.
From S2P Require Import Prelude.

Fixpoint nbits (n : nat) (v : Z) : list bool :=
  match n with
  | O => []
  | S n' => Z.testbit v (Z.of_nat n') :: nbits n' v
  end.

Definition bits (n v : Z) : list bool := nbits (Z.to_nat n) v.

Fixpoint bits_val (l : list bool) : Z :=
  match l with
  | [] => 0
  | b :: l => Z.b2z b * 2 ^ Z.of_nat (length l) + bits_val l
  end.

(** The [k]-th bit of a string, zero past its end. *)
Definition bit_at (l : list bool) (k : nat) : bool := default false (l !! k).

(** Equality up to trailing zeros. *)
Definition zeq (a b : list bool) : Prop := forall k, bit_at a k = bit_at b k.

(** The first [n] bits, padded with zeros. *)
Definition take_pad (n : nat) (l : list bool) : list bool := bit_at l <$> seq 0 n.

(** The bits of a sequence of 32-bit words. *)
Definition word_bits (ws : list Z) : list bool := ws ≫= bits 32.

Section bits_lemmas.

Lemma length_nbits n v : length (nbits n v) = n.
Proof. induction n; simpl; congruence. Qed.

Lemma length_bits n v : length (bits n v) = Z.to_nat n.
Proof. apply length_nbits. Qed.

Lemma lookup_nbits n v k :
  (k < n)%nat -> nbits n v !! k = Some (Z.testbit v (Z.of_nat n - 1 - Z.of_nat k)).
Proof.
  revert k. induction n as [| n IH]; intros k Hk; [lia |].
  destruct k as [| k]; simpl.
  - do 2 f_equal. lia.
  - rewrite IH by lia. do 2 f_equal. lia.
Qed.

Lemma lookup_bits n v k :
  (k < Z.to_nat n)%nat -> bits n v !! k = Some (Z.testbit v (n - 1 - Z.of_nat k)).
Proof. intros. unfold bits. rewrite lookup_nbits by lia. do 2 f_equal. lia. Qed.

Lemma nbits_app m n v :
  nbits (m + n) v = nbits m (Z.shiftr v (Z.of_nat n)) ++ nbits n v.
Proof.
  induction m as [| m IH]; simpl; [done |].
  rewrite IH, Z.shiftr_spec by lia. do 2 f_equal. lia.
Qed.

Lemma bits_app m n v :
  0 <= m -> 0 <= n -> bits (m + n) v = bits m (Z.shiftr v n) ++ bits n v.
Proof.
  intros Hm Hn. unfold bits. rewrite Z2Nat.inj_add, nbits_app by lia.
  by rewrite Z2Nat.id by lia.
Qed.

Lemma nbits_ext n v w :
  (forall i, 0 <= i < Z.of_nat n -> Z.testbit v i = Z.testbit w i) -> nbits n v = nbits n w.
Proof.
  induction n as [| n IH]; intros H; simpl; [done |].
  rewrite H by lia. f_equal. apply IH. intros; apply H; lia.
Qed.

Lemma bits_ext n v w :
  (forall i, 0 <= i < n -> Z.testbit v i = Z.testbit w i) -> bits n v = bits n w.
Proof. intros H. apply nbits_ext. intros i Hi. apply H. lia. Qed.

Lemma bits_mod n m v : n <= m -> bits n (v mod 2 ^ m) = bits n v.
Proof.
  intros. apply bits_ext. intros i Hi. rewrite testbit_mod by lia.
  by replace (i <? m) with true by (symmetry; apply Z.ltb_lt; lia).
Qed.

Lemma bits_u64 n v : n <= 64 -> bits n (u64 v) = bits n v.
Proof. apply bits_mod. Qed.

Lemma bits_u32 n v : n <= 32 -> bits n (u32 v) = bits n v.
Proof. apply bits_mod. Qed.

Lemma bits_0 v : bits 0 v = [].
Proof. done. Qed.

(** A string of [n] bits whose top part is zero. *)
Lemma bits_small_app m n v :
  0 <= m -> 0 <= n -> 0 <= v < 2 ^ n -> bits (m + n) v = bits m 0 ++ bits n v.
Proof.
  intros Hm Hn Hv. rewrite bits_app by done. f_equal.
  rewrite Z.shiftr_div_pow2, Z.div_small by lia. done.
Qed.

Lemma bits_val_range l : 0 <= bits_val l < 2 ^ Z.of_nat (length l).
Proof.
  induction l as [| b l IH]; simpl bits_val; simpl length; [lia |].
  rewrite Nat2Z.inj_succ, Z.pow_succ_r by lia. destruct b; simpl; lia.
Qed.

Lemma bits_val_nbits n v : bits_val (nbits n v) = v mod 2 ^ Z.of_nat n.
Proof.
  induction n as [| n IH]; simpl nbits; simpl bits_val.
  { by rewrite Z.mod_1_r. }
  rewrite IH, length_nbits.
  rewrite Nat2Z.inj_succ, Z.pow_succ_r, (Z.mul_comm 2), Z.rem_mul_r by lia.
  rewrite Z.testbit_spec', (Z.mul_comm (_ mod 2)) by lia. lia.
Qed.

Lemma bits_val_bits n v : 0 <= n -> bits_val (bits n v) = v mod 2 ^ n.
Proof. intros. unfold bits. by rewrite bits_val_nbits, Z2Nat.id by lia. Qed.

Lemma bits_val_bits_small n v : 0 <= n -> 0 <= v < 2 ^ n -> bits_val (bits n v) = v.
Proof. intros. by rewrite bits_val_bits, Z.mod_small by lia. Qed.

Lemma bits_val_app a b :
  bits_val (a ++ b) = bits_val a * 2 ^ Z.of_nat (length b) + bits_val b.
Proof.
  induction a as [| x a IH]; simpl; [done |].
  rewrite IH, length_app, Nat2Z.inj_add, Z.pow_add_r by lia. lia.
Qed.

(** Splitting a word after its top [m] bits. *)
Lemma bits_val_app_bits m n a b :
  0 <= m -> 0 <= n -> 0 <= a < 2 ^ m -> 0 <= b < 2 ^ n ->
  bits (m + n) (a * 2 ^ n + b) = bits m a ++ bits n b.
Proof.
  intros Hm Hn Ha Hb. rewrite bits_app by done. f_equal.
  - f_equal. rewrite Z.shiftr_div_pow2, Z.div_add_l, Z.div_small by lia. lia.
  - rewrite <- (bits_mod n n) by lia.
    by rewrite Z.add_comm, Z.mod_add, Z.mod_small by lia.
Qed.

Lemma length_word_bits ws : length (word_bits ws) = (32 * length ws)%nat.
Proof.
  unfold word_bits. induction ws as [| w ws IH]; [done |]. cbn [mbind list_bind].
  rewrite length_app, length_bits. simpl in *. lia.
Qed.

Lemma word_bits_app a b : word_bits (a ++ b) = word_bits a ++ word_bits b.
Proof. apply bind_app. Qed.

Lemma word_bits_one w : word_bits [w] = bits 32 w.
Proof. unfold word_bits. cbn [mbind list_bind]. apply app_nil_r. Qed.

(** ** Zero-extended strings *)

Lemma bit_at_app_l a b k : (k < length a)%nat -> bit_at (a ++ b) k = bit_at a k.
Proof. intros. unfold bit_at. by rewrite lookup_app_l by lia. Qed.

Lemma bit_at_app_r a b k : bit_at (a ++ b) (length a + k) = bit_at b k.
Proof. unfold bit_at. rewrite lookup_app_r by lia. do 2 f_equal. lia. Qed.

Lemma bit_at_app_ge a b k :
  (length a <= k)%nat -> bit_at (a ++ b) k = bit_at b (k - length a).
Proof. intros. unfold bit_at. by rewrite lookup_app_r by lia. Qed.

Lemma bit_at_ge a k : (length a <= k)%nat -> bit_at a k = false.
Proof. intros. unfold bit_at. by rewrite lookup_ge_None_2 by lia. Qed.

Lemma bit_at_bits n v k :
  (k < Z.to_nat n)%nat -> bit_at (bits n v) k = Z.testbit v (n - 1 - Z.of_nat k).
Proof.
  intros. unfold bit_at, bits. rewrite lookup_nbits by lia. simpl. f_equal. lia.
Qed.

Lemma bit_at_zeros n k : bit_at (bits n 0) k = false.
Proof.
  destruct (decide (k < Z.to_nat n)%nat).
  - by rewrite bit_at_bits, Z.testbit_0_l by lia.
  - apply bit_at_ge. rewrite length_bits. lia.
Qed.

Lemma length_take_pad n l : length (take_pad n l) = n.
Proof. unfold take_pad. by rewrite length_fmap, length_seq. Qed.

Lemma take_pad_S n b l : take_pad (S n) (b :: l) = b :: take_pad n l.
Proof.
  unfold take_pad. cbn [seq fmap list_fmap]. f_equal. rewrite <- fmap_S_seq, <- list_fmap_compose.
  by apply list_fmap_ext.
Qed.

Lemma take_pad_split a n b : take_pad (length a + n) (a ++ b) = a ++ take_pad n b.
Proof. induction a as [| x a IH]; [done |]. simpl. by rewrite take_pad_S, IH. Qed.

Lemma take_pad_app a b : take_pad (length a) (a ++ b) = a.
Proof.
  apply list_eq. intros k. unfold take_pad. rewrite list_lookup_fmap.
  destruct (decide (k < length a)%nat).
  - rewrite lookup_seq_lt by done. simpl. rewrite bit_at_app_l by done.
    unfold bit_at. by destruct (lookup_lt_is_Some_2 a k) as [x ->].
  - rewrite lookup_seq_ge by lia. by rewrite lookup_ge_None_2 by lia.
Qed.

Lemma word_bits_bit_at ws k :
  bit_at (word_bits ws) k =
  Z.testbit (default 0 (ws !! (k / 32)%nat)) (31 - Z.of_nat (k mod 32)).
Proof.
  revert k. induction ws as [| w ws IH]; intros k.
  { rewrite bit_at_ge by (simpl; lia). simpl. by rewrite Z.testbit_0_l. }
  change (word_bits (w :: ws)) with (bits 32 w ++ word_bits ws).
  destruct (decide (k < 32)%nat).
  - rewrite bit_at_app_l by (rewrite length_bits; lia).
    rewrite bit_at_bits by lia. rewrite Nat.div_small, Nat.mod_small by lia. simpl.
    reflexivity.
  - replace k with (length (bits 32 w) + (k - 32))%nat at 1 by (rewrite length_bits; lia).
    rewrite bit_at_app_r, IH.
    replace k with (k - 32 + 1 * 32)%nat at 3 4 by lia.
    rewrite Nat.div_add, Nat.Div0.mod_add by lia. rewrite Nat.add_1_r. done.
Qed.

End bits_lemmas.

#[export] Instance zeq_equiv : Equivalence zeq.
Proof.
  split; unfold zeq.
  - intros a k. done.
  - intros a b H k. by rewrite H.
  - intros a b c H1 H2 k. by rewrite H1.
Qed.

#[export] Instance bit_at_proper : Proper (zeq ==> eq ==> eq) bit_at.
Proof. intros a b H k ? <-. apply H. Qed.

#[export] Instance take_pad_proper : Proper (eq ==> zeq ==> eq) take_pad.
Proof.
  intros n ? <- a b H. unfold take_pad. apply list_fmap_ext. intros. apply H.
Qed.

#[export] Instance app_zeq_proper : Proper (eq ==> zeq ==> zeq) (@app bool).
Proof.
  intros a ? <- b c H k. destruct (decide (k < length a)%nat).
  - by rewrite !bit_at_app_l.
  - rewrite !bit_at_app_ge by lia. apply H.
Qed.

Lemma zeq_zeros l n : zeq (l ++ bits n 0) l.
Proof.
  intros k. destruct (decide (k < length l)%nat).
  - by rewrite bit_at_app_l.
  - rewrite bit_at_app_ge, bit_at_zeros, bit_at_ge by lia. done.
Qed.

Lemma zeq_drop a b c : zeq (a ++ b) (a ++ c) -> zeq b c.
Proof. intros H k. specialize (H (length a + k)%nat). by rewrite !bit_at_app_r in H. Qed.

(** ** Counting bits

    [clz] and [ctz] model [__builtin_clz*] and [__builtin_ctz*] on a nonzero
    argument of width [w]; the builtins are undefined at zero, and [ctz] takes the
    value [z] they happen to give there as an argument. *)

Definition clz (w x : Z) : Z := w - 1 - Z.log2 x.

Fixpoint pos_ctz (p : positive) : Z :=
  match p with
  | xO q => 1 + pos_ctz q
  | _ => 0
  end.

Definition ctz (z x : Z) : Z :=
  match x with
  | Zpos p => pos_ctz p
  | _ => z
  end.

Fixpoint pos_popcount (p : positive) : Z :=
  match p with
  | xH => 1
  | xO q => pos_popcount q
  | xI q => 1 + pos_popcount q
  end.

Definition popcount (x : Z) : Z :=
  match x with
  | Zpos p => pos_popcount p
  | _ => 0
  end.

Section counting.

Lemma pos_ctz_nonneg p : 0 <= pos_ctz p.
Proof. induction p; simpl; lia. Qed.

Lemma ctz_spec z x : 0 < x -> exists k, 0 <= k /\ x = (2 * k + 1) * 2 ^ ctz z x.
Proof.
  intros Hx. destruct x as [| p | p]; [lia | | lia]. simpl.
  induction p as [p IH | p IH |].
  - exists (Zpos p). simpl pos_ctz. lia.
  - destruct IH as (k & Hk & IH); [lia |]. exists k. split; [done |]. simpl pos_ctz.
    pose proof (pos_ctz_nonneg p).
    rewrite Z.pow_add_r by lia. rewrite Pos2Z.inj_xO, IH at 1. lia.
  - exists 0. simpl. lia.
Qed.

Lemma ctz_nonneg z x : 0 < x -> 0 <= ctz z x.
Proof. intros. destruct x; [lia | apply pos_ctz_nonneg | lia]. Qed.

Lemma ctz_indep z z' x : 0 < x -> ctz z x = ctz z' x.
Proof. by destruct x. Qed.

(** Shifting the trailing zeros out and back in loses nothing. *)
Lemma ctz_shift z x n :
  0 < x -> 0 <= n <= ctz z x -> Z.shiftr x n * 2 ^ n = x.
Proof.
  intros Hx Hn. destruct (ctz_spec z x Hx) as (k & Hk & E).
  rewrite Z.shiftr_div_pow2 by lia.
  replace (ctz z x) with (ctz z x - n + n) in E by lia.
  rewrite Z.pow_add_r in E by lia. rewrite E at 1.
  rewrite Z.mul_assoc, Z.div_mul by lia. lia.
Qed.

Lemma ctz_odd z x : 0 < x -> Z.shiftr x (ctz z x) mod 2 = 1.
Proof.
  intros Hx. destruct (ctz_spec z x Hx) as (k & Hk & E).
  pose proof (ctz_nonneg z x Hx).
  rewrite Z.shiftr_div_pow2 by lia. rewrite E at 1. rewrite Z.div_mul by lia.
  rewrite Z.add_comm, Z.mul_comm, Z.mod_add by lia. done.
Qed.

Lemma ctz_lt z x n : 0 <= n -> 0 < x < 2 ^ n -> ctz z x < n.
Proof.
  intros Hn Hx. destruct (ctz_spec z x) as (k & Hk & E); [lia |].
  pose proof (ctz_nonneg z x ltac:(lia)).
  apply (Z.pow_lt_mono_r_iff 2); [lia | lia |]. nia.
Qed.

Lemma ctz_unique z k e : 0 <= k -> 0 <= e -> ctz z ((2 * k + 1) * 2 ^ e) = e.
Proof.
  intros Hk He. pose proof (Z.pow_pos_nonneg 2 e ltac:(lia) He).
  destruct (ctz_spec z ((2 * k + 1) * 2 ^ e)) as (j & Hj & E); [nia |].
  pose proof (ctz_nonneg z ((2 * k + 1) * 2 ^ e) ltac:(nia)) as Hc.
  set (c := ctz z _) in *. clearbody c.
  assert (forall a b c e, 0 <= a -> 0 <= b -> 0 <= e < c ->
    (2 * a + 1) * 2 ^ e <> (2 * b + 1) * 2 ^ c) as Hno.
  { intros a b c' e' Ha Hb Hec EE. replace c' with (e' + (1 + (c' - e' - 1))) in EE by lia.
    rewrite !Z.pow_add_r in EE by lia. pose proof (Z.pow_pos_nonneg 2 e' ltac:(lia) ltac:(lia)).
    assert (2 * a + 1 = 2 * ((2 * b + 1) * 2 ^ (c' - e' - 1))) by nia. lia. }
  destruct (Z.lt_trichotomy c e) as [Hlt | [Heq | Hgt]]; [| done |].
  - by destruct (Hno j k e c); [lia.. |].
  - by destruct (Hno k j c e); [lia.. |].
Qed.

Lemma ctz_mod z z' n x :
  0 < x -> ctz z x < n -> ctz z' (x mod 2 ^ n) = ctz z x.
Proof.
  intros Hx Hn. destruct (ctz_spec z x Hx) as (k & Hk & E).
  pose proof (ctz_nonneg z x Hx). set (e := ctz z x) in *. clearbody e. subst x.
  replace (2 ^ n) with (2 * 2 ^ (n - e - 1) * 2 ^ e)
    by (rewrite <- Z.mul_assoc, <- Z.pow_add_r, <- (Z.pow_succ_r 2) by lia; f_equal; lia).
  rewrite Z.mul_mod_distr_r by lia.
  assert ((2 * k + 1) mod (2 * 2 ^ (n - e - 1)) = 2 * (k mod 2 ^ (n - e - 1)) + 1) as ->.
  { symmetry. apply Z.mod_unique with (k / 2 ^ (n - e - 1)).
    - left. pose proof (Z.mod_pos_bound k (2 ^ (n - e - 1)) ltac:(lia)). lia.
    - pose proof (Z.div_mod k (2 ^ (n - e - 1)) ltac:(lia)). lia. }
  apply ctz_unique; [apply Z.mod_pos_bound; lia | done].
Qed.

Lemma popcount_double_1 x : 0 <= x -> popcount (2 * x + 1) = 1 + popcount x.
Proof. intros. by destruct x. Qed.

Lemma popcount_shift x e : 0 <= e -> popcount (x * 2 ^ e) = popcount x.
Proof.
  intros He. revert x. pattern e. apply natlike_ind; [| | done].
  - intros x. by rewrite Z.mul_1_r.
  - intros k Hk IH x. rewrite Z.pow_succ_r, Z.mul_assoc, IH by lia.
    rewrite Z.mul_comm. by destruct x.
Qed.

Lemma clz_range w x : 0 < w -> 0 < x < 2 ^ w -> 0 <= clz w x < w.
Proof.
  intros Hw Hx. unfold clz. pose proof (Z.log2_nonneg x).
  assert (Z.log2 x < w) by (apply Z.log2_lt_pow2; lia). lia.
Qed.

Lemma clz_lt w x : 0 < x -> x < 2 ^ (w - clz w x).
Proof.
  intros Hx. unfold clz. replace (w - (w - 1 - Z.log2 x)) with (Z.succ (Z.log2 x)) by lia.
  by apply Z.log2_spec.
Qed.

Lemma clz_ctz w z x : 0 < x < 2 ^ w -> 0 < w -> clz w x + ctz z x < w.
Proof.
  intros Hx Hw. unfold clz. destruct (ctz_spec z x) as (k & Hk & E); [lia |].
  pose proof (ctz_nonneg z x ltac:(lia)).
  assert (ctz z x <= Z.log2 x); [| lia].
  apply Z.log2_le_pow2; [lia |]. nia.
Qed.

End counting.

#[global] Opaque bits.
