(* ===== verification/BitStream.v ===== *)
(** * BitStream: the bit writer and the bit reader of the Machete codecs

    Models [inc/BitStream/BitWriter.h] and [inc/BitStream/BitReader.h].  Both keep
    a 64-bit window over an array of 32-bit words, most significant bit first.

    Abstract specification: a writer holds the bit string written so far
    ([writes]); a reader stands in front of the bit string still to be read
    ([reads], up to trailing zeros).  The lemmas [write_writes], [flush_reads],
    [peek_reads] and [forward_reads] are the refinement of that specification, and
    the only facts the codecs use. *)

From Stdlib Require Import ZArith Lia.
From S2P Require Import Prelude Bits.

(** ** The writer *)

(** [bw_output] is the part of [output] written so far; [bw_len] its capacity in
    words. *)
Record BitWriter := {
  bw_output : list Z;
  bw_len : Z;
  bw_buffer : Z;
  bw_cursor : Z;
  bw_bitcnt : Z;
  bw_ptr : Z
}.

Definition initBitWriter (outlen : Z) : option BitWriter :=
  _ ← assert (1 <=? outlen);
  Some {| bw_output := []; bw_len := outlen; bw_buffer := 0; bw_cursor := 0;
          bw_bitcnt := 0; bw_ptr := 0 |}.

(** A length of zero would shift a 64-bit value by 64, which is undefined. *)
Definition write (w : BitWriter) (data length : Z) : option BitWriter :=
  _ ← assert (length <=? 32);
  _ ← assert (0 <? length);
  let data := shl64 data (64 - length) in
  let buffer := Z.lor (bw_buffer w) (Z.shiftr data (bw_bitcnt w)) in
  let bitcnt := bw_bitcnt w + length in
  let ptr := i32 (bw_ptr w + length) in
  if 32 <=? bitcnt then
    _ ← assert (bw_cursor w <? bw_len w);
    Some {| bw_output := bw_output w ++ [u32 (Z.shiftr buffer 32)];
            bw_len := bw_len w; bw_buffer := shl64 buffer 32;
            bw_cursor := bw_cursor w + 1; bw_bitcnt := bitcnt - 32; bw_ptr := ptr |}
  else
    Some {| bw_output := bw_output w; bw_len := bw_len w; bw_buffer := buffer;
            bw_cursor := bw_cursor w; bw_bitcnt := bitcnt; bw_ptr := ptr |}.

Definition writeLong (w : BitWriter) (data length : Z) : option BitWriter :=
  _ ← assert (length <=? 64);
  if length =? 0 then Some w
  else if 32 <? length then
    w ← write w (Z.shiftr (u64 data) (length - 32)) 32;
    write w data (length - 32)
  else write w data length.

(** The pending bits are stored as a last word.  The result of the C function, the
    second component, is the 64-bit cursor converted to [int]. *)
Definition flush (w : BitWriter) : option (BitWriter * Z) :=
  if bw_bitcnt w =? 0 then Some (w, i32 (bw_cursor w))
  else
    _ ← assert (bw_cursor w <? bw_len w);
    let cursor := bw_cursor w + 1 in
    Some ({| bw_output := bw_output w ++ [u32 (Z.shiftr (bw_buffer w) 32)];
             bw_len := bw_len w; bw_buffer := 0; bw_cursor := cursor;
             bw_bitcnt := 0; bw_ptr := bw_ptr w |}, i32 cursor).

(** ** The reader *)

Record BitReader := {
  br_data : list Z;
  br_len : Z;
  br_buffer : Z;
  br_cursor : Z;
  br_bitcnt : Z;
  br_ptr : Z
}.

(** [input] is the array of words that can be read, [len] the length passed. *)
Definition initBitReader (input : list Z) (len : Z) : option BitReader :=
  _ ← assert (1 <=? len);
  w ← input !! 0%nat;
  Some {| br_data := input; br_len := len; br_buffer := shl64 w 32;
          br_cursor := 1; br_bitcnt := 32; br_ptr := 0 |}.

Definition peek (r : BitReader) (len : Z) : option Z :=
  _ ← assert (len <=? 32);
  _ ← assert (0 <? len);
  Some (Z.shiftr (br_buffer r) (64 - len)).

Definition forward (r : BitReader) (len : Z) : option BitReader :=
  _ ← assert (len <=? 32);
  let bitcnt := br_bitcnt r - len in
  let buffer := shl64 (br_buffer r) len in
  let ptr := br_ptr r + len in
  if bitcnt <? 32 then
    if br_cursor r <? br_len r then
      data ← br_data r !! Z.to_nat (br_cursor r);
      Some {| br_data := br_data r; br_len := br_len r;
              br_buffer := Z.lor buffer (shl64 data (32 - bitcnt));
              br_cursor := br_cursor r + 1; br_bitcnt := bitcnt + 32; br_ptr := ptr |}
    else
      Some {| br_data := br_data r; br_len := br_len r; br_buffer := buffer;
              br_cursor := br_cursor r; br_bitcnt := 64; br_ptr := ptr |}
  else
    Some {| br_data := br_data r; br_len := br_len r; br_buffer := buffer;
            br_cursor := br_cursor r; br_bitcnt := bitcnt; br_ptr := ptr |}.

Definition readLong (r : BitReader) (len : Z) : option (Z * BitReader) :=
  if len =? 0 then Some (0, r)
  else if 32 <? len then
    result ← peek r 32;
    r ← forward r 32;
    let result := shl64 result (len - 32) in
    low ← peek r (len - 32);
    r ← forward r (len - 32);
    Some (Z.lor result low, r)
  else
    low ← peek r len;
    r ← forward r len;
    Some (Z.lor 0 low, r).

(** ** The writer holds the bits written so far *)

Definition writes (w : BitWriter) (bs : list bool) : Prop :=
  exists v,
    0 <= bw_bitcnt w < 32 /\ 0 <= v < 2 ^ bw_bitcnt w /\
    bw_buffer w = v * 2 ^ (64 - bw_bitcnt w) /\
    bw_cursor w = Z.of_nat (length (bw_output w)) /\
    bw_cursor w <= bw_len w /\
    Forall is_u32 (bw_output w) /\
    bs = word_bits (bw_output w) ++ bits (bw_bitcnt w) v.

Lemma writes_length w bs :
  writes w bs -> Z.of_nat (length bs) = 32 * bw_cursor w + bw_bitcnt w.
Proof.
  intros (v & ? & ? & ? & -> & ? & ? & ->).
  rewrite length_app, length_word_bits, length_bits. lia.
Qed.

Lemma init_writes n w : initBitWriter n = Some w -> writes w [] /\ bw_len w = n.
Proof.
  unfold initBitWriter. intros H. inv_opt. split; [| done].
  exists 0. apply assert_Some in E. to_prop. simpl. repeat split; try lia. constructor.
Qed.

Lemma init_ok n : 1 <= n -> exists w, initBitWriter n = Some w /\ writes w [] /\ bw_len w = n.
Proof.
  intros Hn. unfold initBitWriter. rewrite assert_true by (apply Z.leb_le; lia). simpl.
  eexists. split; [done |]. apply init_writes. unfold initBitWriter.
  by rewrite assert_true by (apply Z.leb_le; lia).
Qed.

(** The window after the new field is or-ed in, as a number. *)
Lemma write_window v bc d n :
  0 <= bc < 32 -> 0 < n <= 32 -> 0 <= v < 2 ^ bc ->
  Z.lor (v * 2 ^ (64 - bc)) (Z.shiftr (shl64 d (64 - n)) bc)
  = (v * 2 ^ n + d mod 2 ^ n) * 2 ^ (64 - (bc + n)).
Proof.
  intros Hbc Hn Hv.
  assert (shl64 d (64 - n) = d mod 2 ^ n * 2 ^ (64 - n)) as E1.
  { unfold shl64, u64. rewrite Z.shiftl_mul_pow2 by lia.
    replace (2 ^ 64) with (2 ^ n * 2 ^ (64 - n)) by (rewrite <- Z.pow_add_r by lia; f_equal; lia).
    rewrite Z.mul_mod_distr_r by lia. done. }
  assert (Z.shiftr (shl64 d (64 - n)) bc = d mod 2 ^ n * 2 ^ (64 - (bc + n))) as E2.
  { rewrite E1, Z.shiftr_div_pow2 by lia.
    replace (64 - n) with (64 - (bc + n) + bc) by lia.
    rewrite Z.pow_add_r, Z.mul_assoc, Z.div_mul by lia. done. }
  rewrite E2. pose proof (Z.mod_pos_bound d (2 ^ n) ltac:(lia)).
  assert (2 ^ (64 - bc) = 2 ^ n * 2 ^ (64 - (bc + n))) as E3
    by (rewrite <- Z.pow_add_r by lia; f_equal; lia).
  rewrite lor_add_disjoint; [rewrite E3; ring | lia |].
  rewrite E3. split; [apply Z.mul_nonneg_nonneg; lia |].
  apply Zmult_lt_compat_r; lia.
Qed.

(** [write] appends the [n] low bits of the data. *)
Lemma write_writes w bs d n :
  writes w bs -> 0 < n <= 32 ->
  Z.of_nat (length bs) + n <= 32 * bw_len w ->
  exists w', write w d n = Some w' /\ writes w' (bs ++ bits n d) /\ bw_len w' = bw_len w.
Proof.
  intros Hw Hn Hcap. pose proof (writes_length w bs Hw) as Hlen.
  destruct Hw as (v & Hbc & Hv & Hbuf & Hcur & Hle & Hout & ->).
  unfold write. rewrite !assert_true by (first [apply Z.leb_le | apply Z.ltb_lt]; lia).
  simpl. rewrite Hbuf, write_window by lia.
  set (V := v * 2 ^ n + d mod 2 ^ n).
  pose proof (Z.mod_pos_bound d (2 ^ n) ltac:(lia)) as Hd.
  assert (0 <= V < 2 ^ (bw_bitcnt w + n)) as HV.
  { unfold V. rewrite Z.pow_add_r by lia. nia. }
  assert (bits (bw_bitcnt w + n) V = bits (bw_bitcnt w) v ++ bits n d) as HB.
  { unfold V. rewrite bits_val_app_bits by lia. f_equal. apply bits_mod. lia. }
  destruct (Z.leb_spec 32 (bw_bitcnt w + n)) as [Hge | Hlt].
  - eexists. split; [done |]. split; [| done].
    set (m := bw_bitcnt w + n - 32).
    exists (V mod 2 ^ m). simpl.
    assert (Z.shiftr (V * 2 ^ (64 - (bw_bitcnt w + n))) 32 = V / 2 ^ m) as EW.
    { rewrite Z.shiftr_div_pow2 by lia.
      replace (2 ^ 32) with (2 ^ m * 2 ^ (64 - (bw_bitcnt w + n)))
        by (rewrite <- Z.pow_add_r by lia; f_equal; lia).
      by rewrite Z.div_mul_cancel_r by lia. }
    assert (0 <= V / 2 ^ m < 2 ^ 32) as HW.
    { split; [apply Z.div_pos; lia |]. apply Z.div_lt_upper_bound; [lia |].
      rewrite <- Z.pow_add_r by lia. replace (m + 32) with (bw_bitcnt w + n) by lia. lia. }
    repeat split; try lia.
    + apply Z.mod_pos_bound. lia.
    + apply Z.mod_pos_bound. lia.
    + unfold shl64, u64. rewrite Z.shiftl_mul_pow2, <- Z.mul_assoc, <- Z.pow_add_r by lia.
      replace (64 - (bw_bitcnt w + n) + 32) with (64 - m) by lia.
      replace (2 ^ 64) with (2 ^ m * 2 ^ (64 - m)) by (rewrite <- Z.pow_add_r by lia; f_equal; lia).
      by rewrite Z.mul_mod_distr_r by lia.
    + rewrite length_app. simpl. lia.
    + apply Forall_app. split; [done |]. repeat constructor; apply u32_range.
    + rewrite word_bits_app, <- !app_assoc, <- HB. f_equal.
      rewrite EW, u32_id by done. rewrite word_bits_one.
      rewrite bits_mod by lia.
      replace (bw_bitcnt w + n) with (32 + m) by lia.
      rewrite bits_app by lia. by rewrite Z.shiftr_div_pow2 by lia.
  - eexists. split; [done |]. split; [| done].
    exists V. simpl. repeat split; try lia; [done |].
    by rewrite <- app_assoc, <- HB.
Qed.

Lemma writeLong_writes w bs d n :
  writes w bs -> 0 <= n <= 64 ->
  Z.of_nat (length bs) + n <= 32 * bw_len w ->
  exists w', writeLong w d n = Some w' /\ writes w' (bs ++ bits n d) /\ bw_len w' = bw_len w.
Proof.
  intros Hw Hn Hcap. unfold writeLong.
  rewrite assert_true by (apply Z.leb_le; lia). simpl.
  destruct (Z.eqb_spec n 0) as [-> | Hn0].
  { exists w. rewrite app_nil_r. done. }
  destruct (Z.ltb_spec 32 n) as [Hgt | Hle].
  - destruct (write_writes w bs (Z.shiftr (u64 d) (n - 32)) 32) as (w1 & -> & Hw1 & Hl1);
      [done | lia | lia |]. simpl.
    destruct (write_writes w1 _ d (n - 32) Hw1) as (w2 & -> & Hw2 & Hl2); [lia | |].
    { rewrite length_app, length_bits, Hl1. lia. }
    exists w2. split; [done |]. split; [| congruence].
    replace n with (32 + (n - 32)) at 1 by lia.
    rewrite bits_app, app_assoc by lia.
    erewrite (bits_ext 32 (Z.shiftr d (n - 32))); [exact Hw2 |].
    intros i Hi. rewrite !Z.shiftr_spec by lia. unfold u64. rewrite testbit_mod by lia.
    by replace (i + (n - 32) <? 64) with true by (symmetry; apply Z.ltb_lt; lia).
  - apply write_writes; auto; lia.
Qed.

(** [flush] completes the last word with zeros. *)
Lemma flush_writes w bs :
  writes w bs -> Z.of_nat (length bs) <= 32 * bw_len w ->
  exists w', flush w = Some (w', i32 (bw_cursor w')) /\
    zeq (word_bits (bw_output w')) bs /\ Forall is_u32 (bw_output w') /\
    bw_cursor w' = Z.of_nat (length (bw_output w')) /\
    bw_cursor w' = (Z.of_nat (length bs) + 31) / 32.
Proof.
  intros Hw Hcap. pose proof (writes_length w bs Hw) as Hlen.
  destruct Hw as (v & Hbc & Hv & Hbuf & Hcur & Hle & Hout & E).
  unfold flush. destruct (Z.eqb_spec (bw_bitcnt w) 0) as [H0 | H0].
  - exists w. split; [done |]. rewrite H0, bits_0, app_nil_r in E. rewrite E.
    repeat split; auto. rewrite <- E, Hlen, H0.
    replace (32 * bw_cursor w + 0 + 31) with (31 + bw_cursor w * 32) by lia.
    rewrite Z.div_add, Z.div_small by lia. lia.
  - rewrite assert_true by (apply Z.ltb_lt; lia). cbn [mbind option_bind].
    eexists (Build_BitWriter _ _ _ (bw_cursor w + 1) _ _). split; [reflexivity |]. cbn [bw_output bw_cursor].
    assert (Z.shiftr (bw_buffer w) 32 = v * 2 ^ (32 - bw_bitcnt w)) as EW.
    { rewrite Hbuf, Z.shiftr_div_pow2 by lia.
      replace (64 - bw_bitcnt w) with (32 - bw_bitcnt w + 32) by lia.
      rewrite Z.pow_add_r, Z.mul_assoc, Z.div_mul by lia. done. }
    assert (is_u32 (v * 2 ^ (32 - bw_bitcnt w))) as HW.
    { unfold is_u32. split; [apply Z.mul_nonneg_nonneg; lia |].
      replace (2 ^ 32) with (2 ^ bw_bitcnt w * 2 ^ (32 - bw_bitcnt w))
        by (rewrite <- Z.pow_add_r by lia; f_equal; lia).
      apply Zmult_lt_compat_r; lia. }
    repeat split.
    + rewrite word_bits_app, word_bits_one, EW, u32_id by done. rewrite E.
      apply app_zeq_proper; [done |].
      pose proof (bits_val_app_bits (bw_bitcnt w) (32 - bw_bitcnt w) v 0) as EB.
      rewrite Z.add_0_r in EB. replace (bw_bitcnt w + (32 - bw_bitcnt w)) with 32 in EB by lia.
      rewrite EB by lia. apply zeq_zeros.
    + apply Forall_app. split; [done |]. repeat constructor; apply u32_range.
    + rewrite length_app. cbn [length]. lia.
    + rewrite Hlen.
      replace (32 * bw_cursor w + bw_bitcnt w + 31)
        with (bw_bitcnt w - 1 + (bw_cursor w + 1) * 32) by lia.
      rewrite Z.div_add, Z.div_small by lia. lia.
Qed.

(** ** The reader stands in front of the bits to come *)

(** Window invariant of a reader that has consumed [p] bits. *)
Record rinv (r : BitReader) (p : Z) : Prop := {
  ri_len : br_len r = Z.of_nat (length (br_data r));
  ri_pos : 0 <= p;
  ri_cur : 1 <= br_cursor r <= br_len r;
  ri_cnt : 32 <= br_bitcnt r <= 64;
  ri_sync : br_bitcnt r = 32 * br_cursor r - p \/ br_cursor r = br_len r;
  ri_win : 32 * br_cursor r <= p + 64;
  ri_u64 : is_u64 (br_buffer r);
  ri_words : Forall is_u32 (br_data r);
  ri_buf : forall j, 0 <= j < 64 ->
    Z.testbit (br_buffer r) (63 - j) =
    (p + j <? 32 * br_cursor r) && bit_at (word_bits (br_data r)) (Z.to_nat (p + j))
}.

Definition reads (r : BitReader) (bs : list bool) : Prop :=
  exists p, rinv r p /\
    forall k, bit_at (word_bits (br_data r)) (Z.to_nat p + k) = bit_at bs k.

#[export] Instance reads_proper : Proper (eq ==> zeq ==> iff) reads.
Proof.
  intros r ? <- a b H. split; intros (p & Hp & Hb); exists p; split; auto; intros k.
  - by rewrite Hb, H.
  - by rewrite Hb, H.
Qed.

(** A bit of the stream by word and offset, with integer indices. *)
Lemma stream_bit ws c i :
  0 <= c -> 0 <= i < 32 ->
  bit_at (word_bits ws) (Z.to_nat (32 * c + i))
  = Z.testbit (default 0 (ws !! Z.to_nat c)) (31 - i).
Proof.
  intros Hc Hi. rewrite word_bits_bit_at.
  replace (Z.to_nat (32 * c + i)) with (Z.to_nat i + Z.to_nat c * 32)%nat by lia.
  rewrite Nat.div_add, Nat.Div0.mod_add, Nat.div_small, Nat.mod_small by lia.
  rewrite Nat.add_0_l, Z2Nat.id by lia. done.
Qed.

Lemma init_rinv ws r :
  Forall is_u32 ws -> initBitReader ws (Z.of_nat (length ws)) = Some r -> rinv r 0.
Proof.
  intros Hws H. unfold initBitReader in H. inv_opt. apply assert_Some in E. to_prop.
  split; simpl; try done; try lia; [apply shl64_range |].
  intros j Hj. rewrite testbit_shl64 by lia.
  replace (63 - j <? 64) with true by (symmetry; apply Z.ltb_lt; lia).
  rewrite !andb_true_l, Z.add_0_l. change (32 * 1) with 32.
  destruct (Z.ltb_spec j 32).
  - pose proof (stream_bit ws 0 j) as S. simpl Z.mul in S. rewrite Z.add_0_l in S.
    rewrite S by lia. rewrite andb_true_l. change (Z.to_nat 0) with 0%nat. rewrite E0. simpl default.
    f_equal. lia.
  - by rewrite Z.testbit_neg_r by lia.
Qed.

(** Reading the words of a flushed writer. *)
Lemma init_reads ws bs :
  Forall is_u32 ws -> zeq (word_bits ws) bs -> ws <> [] ->
  exists r, initBitReader ws (Z.of_nat (length ws)) = Some r /\ reads r bs.
Proof.
  intros Hws Hb Hne. destruct ws as [| w ws]; [done |].
  destruct (initBitReader (w :: ws) (Z.of_nat (length (w :: ws)))) as [r |] eqn:E.
  - exists r. split; [done |]. exists 0. split; [by eapply init_rinv |].
    intros k. unfold initBitReader in E. inv_opt. simpl. apply Hb.
  - unfold initBitReader in E. rewrite assert_true in E by (apply Z.leb_le; simpl; lia). done.
Qed.

(** The words that hold the first bits are enough to read them. *)
Lemma init_reads_prefix ws bs extra :
  Forall is_u32 ws -> zeq (word_bits ws) (bs ++ extra) -> bs <> [] ->
  let k := ((length bs + 31) / 32)%nat in
  (k <= length ws)%nat ->
  exists r tl, initBitReader (take k ws) (Z.of_nat k) = Some r /\ reads r (bs ++ tl).
Proof.
  intros Hu Hz Hne k Hk.
  assert (length bs <= 32 * k)%nat as Hb.
  { pose proof (Nat.div_mod_eq (length bs + 31) 32).
    pose proof (Nat.mod_upper_bound (length bs + 31) 32). lia. }
  assert (length (take k ws) = k) as Hlk by (rewrite length_take; lia).
  destruct bs as [| b bs]; [done |].
  assert (take k ws <> []) as Hne' by (intros E; rewrite E in Hlk; simpl in *; lia).
  destruct (init_reads (take k ws) (word_bits (take k ws)) (Forall_take _ k _ Hu))
    as (r & E & Hr); [done | done |].
  rewrite Hlk in E. exists r, (drop (length (b :: bs)) (word_bits (take k ws))).
  split; [done |]. enough (b :: bs = take (length (b :: bs)) (word_bits (take k ws))) as ->.
  { rewrite length_take, Nat.min_l; [by rewrite take_drop |].
    rewrite length_word_bits. lia. }
  rewrite <- (take_drop k ws), word_bits_app in Hz. apply list_eq. intros i.
  destruct (decide (i < length (b :: bs))%nat) as [Hi | Hi].
  - rewrite lookup_take_lt by done. specialize (Hz i). unfold bit_at in Hz.
    rewrite !lookup_app_l in Hz by (rewrite ?length_word_bits; lia).
    destruct (lookup_lt_is_Some_2 (b :: bs) i Hi) as [x Ex].
    destruct (lookup_lt_is_Some_2 (word_bits (take k ws)) i) as [y Ey];
      [rewrite length_word_bits; lia |].
    rewrite Ex, Ey in *. simpl in Hz. by rewrite Hz.
  - rewrite lookup_take_ge by lia. apply lookup_ge_None_2. lia.
Qed.

Lemma forward_rinv r p n :
  rinv r p -> 0 <= n <= 32 -> exists r', forward r n = Some r' /\ rinv r' (p + n) /\
    br_data r' = br_data r.
Proof.
  intros [Hlen Hp Hcur Hcnt Hsync Hwin Hu Hws Hbuf] Hn. unfold forward.
  rewrite assert_true by (apply Z.leb_le; lia). simpl.
  assert (forall j, 0 <= j < 64 ->
    Z.testbit (shl64 (br_buffer r) n) (63 - j) =
    (p + n + j <? 32 * br_cursor r) && bit_at (word_bits (br_data r)) (Z.to_nat (p + n + j)))
    as Hsh.
  { intros j Hj. rewrite testbit_shl64 by lia.
    replace (63 - j <? 64) with true by (symmetry; apply Z.ltb_lt; lia). simpl.
    destruct (Z.ltb_spec (j + n) 64).
    - replace (63 - j - n) with (63 - (j + n)) by lia. rewrite Hbuf by lia.
      by replace (p + (j + n)) with (p + n + j) by lia.
    - rewrite Z.testbit_neg_r by lia.
      by replace (p + n + j <? 32 * br_cursor r) with false by (symmetry; apply Z.ltb_ge; lia). }
  destruct (Z.ltb_spec (br_bitcnt r - n) 32) as [Hlow | Hhigh].
  2: { eexists. split; [done |]. split; [| done]. split; simpl; auto; try lia.
       apply shl64_range. }
  destruct (Z.ltb_spec (br_cursor r) (br_len r)) as [Hmore | Hend].
  2: { eexists. split; [done |]. split; [| done]. split; simpl; auto; try lia.
       apply shl64_range. }
  destruct (lookup_lt_is_Some_2 (br_data r) (Z.to_nat (br_cursor r))) as [x Hx]; [lia |].
  rewrite Hx. simpl. eexists. split; [done |]. split; [| done].
  assert (is_u32 x) as Hxr by (eapply Forall_lookup_1; eauto).
  split; simpl; auto; try lia.
  - apply lor_range; [lia | apply shl64_range | apply shl64_range].
  - intros j Hj. rewrite Z.lor_spec, Hsh, testbit_shl64 by lia.
    replace (63 - j <? 64) with true by (symmetry; apply Z.ltb_lt; lia). simpl.
    replace (63 - j - (32 - (br_bitcnt r - n))) with (31 - (j - (br_bitcnt r - n))) by lia.
    destruct (Z.ltb_spec (p + n + j) (32 * br_cursor r)) as [H1 | H1]; simpl.
    + rewrite (testbit_small x 32) by (unfold is_u32 in *; lia). rewrite orb_false_r.
      by replace (p + n + j <? 32 * (br_cursor r + 1)) with true by (symmetry; apply Z.ltb_lt; lia).
    + destruct (Z.ltb_spec (p + n + j) (32 * (br_cursor r + 1))) as [H2 | H2]; simpl.
      * replace (p + n + j) with (32 * br_cursor r + (j - (br_bitcnt r - n))) by lia.
        rewrite stream_bit by lia. by rewrite Hx.
      * by rewrite Z.testbit_neg_r by lia.
Qed.

Lemma peek_rinv r p n :
  rinv r p -> 0 < n <= 32 ->
  peek r n = Some (bits_val (take_pad (Z.to_nat n)
                               (drop (Z.to_nat p) (word_bits (br_data r))))).
Proof.
  intros [Hlen Hp Hcur Hcnt Hsync Hwin Hu Hws Hbuf] Hn. unfold peek.
  rewrite !assert_true by (first [apply Z.leb_le | apply Z.ltb_lt]; lia). simpl. f_equal.
  set (x := Z.shiftr (br_buffer r) (64 - n)).
  assert (0 <= x < 2 ^ n) as Hx.
  { apply shiftr_range; try lia. by replace (64 - n + n) with 64 by lia. }
  rewrite <- (bits_val_bits_small n x) by lia. f_equal.
  apply list_eq. intros k. unfold take_pad. rewrite list_lookup_fmap.
  destruct (decide (k < Z.to_nat n)%nat) as [Hk | Hk].
  2: { rewrite lookup_seq_ge by lia.
       by rewrite lookup_ge_None_2 by (rewrite length_bits; lia). }
  rewrite lookup_seq_lt by done. rewrite lookup_bits by lia. simpl. f_equal.
  unfold x. rewrite Z.shiftr_spec by lia.
  replace (n - 1 - Z.of_nat k + (64 - n)) with (63 - Z.of_nat k) by lia.
  rewrite Hbuf by lia. unfold bit_at. rewrite lookup_drop.
  replace (Z.to_nat (p + Z.of_nat k)) with (Z.to_nat p + k)%nat by lia.
  destruct (Z.ltb_spec (p + Z.of_nat k) (32 * br_cursor r)) as [H1 | H1]; [done |]. simpl.
  rewrite lookup_ge_None_2; [done |]. rewrite length_word_bits. lia.
Qed.

(** ** The reader's interface *)

Lemma peek_reads_pad r n bs :
  reads r bs -> 0 < n <= 32 -> peek r n = Some (bits_val (take_pad (Z.to_nat n) bs)).
Proof.
  intros (p & Hr & Hb) Hn. rewrite (peek_rinv r p n) by done. do 2 f_equal.
  unfold take_pad. apply list_fmap_ext. intros i k _.
  unfold bit_at at 1. rewrite lookup_drop. apply Hb.
Qed.

Lemma peek_reads r n v bs :
  reads r (bits n v ++ bs) -> 0 < n <= 32 -> peek r n = Some (v mod 2 ^ n).
Proof.
  intros Hr Hn. rewrite (peek_reads_pad r n _ Hr) by done.
  rewrite <- (length_bits n v), take_pad_app, bits_val_bits by lia. done.
Qed.

Lemma forward_reads_app r n l bs :
  reads r (l ++ bs) -> length l = Z.to_nat n -> 0 <= n <= 32 ->
  exists r', forward r n = Some r' /\ reads r' bs.
Proof.
  intros (p & Hr & Hb) Hl Hn. destruct (forward_rinv r p n Hr Hn) as (r' & E & Hr' & Hd).
  exists r'. split; [done |]. exists (p + n). split; [done |]. intros k. rewrite Hd.
  specialize (Hb (length l + k)%nat). rewrite bit_at_app_r in Hb. rewrite <- Hb.
  f_equal. pose proof (ri_pos _ _ Hr). lia.
Qed.

Lemma forward_reads r n v bs :
  reads r (bits n v ++ bs) -> 0 <= n <= 32 ->
  exists r', forward r n = Some r' /\ reads r' bs.
Proof. intros Hr Hn. apply (forward_reads_app r n _ bs Hr); [apply length_bits | done]. Qed.

Lemma readLong_reads r n v bs :
  reads r (bits n v ++ bs) -> 0 <= n <= 64 ->
  exists r', readLong r n = Some (v mod 2 ^ n, r') /\ reads r' bs.
Proof.
  intros Hr Hn. unfold readLong. destruct (Z.eqb_spec n 0) as [-> | Hn0].
  { exists r. rewrite Z.mod_1_r. done. }
  destruct (Z.ltb_spec 32 n) as [Hgt | Hle].
  - replace n with (32 + (n - 32)) in Hr by lia. rewrite bits_app, <- app_assoc in Hr by lia.
    rewrite (peek_reads _ _ _ _ Hr) by lia. simpl.
    destruct (forward_reads _ _ _ _ Hr) as (r1 & -> & Hr1); [lia |]. simpl.
    rewrite (peek_reads _ _ _ _ Hr1) by lia. simpl.
    destruct (forward_reads _ _ _ _ Hr1) as (r2 & -> & Hr2); [lia |]. simpl.
    exists r2. split; [| done]. do 2 f_equal. apply Z.bits_inj'. intros i Hi.
    rewrite Z.lor_spec, testbit_shl64, !testbit_mod by lia.
    destruct (Z.ltb_spec i (n - 32)).
    + rewrite (Z.testbit_neg_r _ (i - (n - 32))) by lia. rewrite !andb_false_r. simpl.
      by replace (i <? n) with true by (symmetry; apply Z.ltb_lt; lia).
    + rewrite Z.shiftr_spec by lia. simpl. rewrite orb_false_r.
      replace (i - (n - 32) + (n - 32)) with i by lia.
      replace (i - (n - 32) <? 32) with (i <? n) by (zcases; done).
      destruct (Z.ltb_spec i n); simpl; [| by rewrite andb_false_r].
      by replace (i <? 64) with true by (symmetry; apply Z.ltb_lt; lia).
  - rewrite (peek_reads _ _ _ _ Hr) by lia. simpl.
    destruct (forward_reads _ _ _ _ Hr) as (r1 & -> & Hr1); [lia |]. simpl.
    exists r1. done.
Qed.

(** ** Tactics for the codecs *)

(** Runs the next [write] (or [writeLong]) on a writer known to hold some bits. *)
Ltac write_step :=
  match goal with
  | H : writes ?w ?bs |- context [write ?w ?d ?n] =>
      let w' := fresh "w" in let E := fresh "E" in let H' := fresh "Hw" in
      let L := fresh "Hlen" in
      destruct (write_writes w bs d n H) as (w' & E & H' & L);
      [lia | rewrite ?length_app, ?length_bits; lia |]; rewrite E; cbn [mbind option_bind fst snd]; clear E H; rename H' into H
  | H : writes ?w ?bs |- context [writeLong ?w ?d ?n] =>
      let w' := fresh "w" in let E := fresh "E" in let H' := fresh "Hw" in
      let L := fresh "Hlen" in
      destruct (writeLong_writes w bs d n H) as (w' & E & H' & L);
      [lia | rewrite ?length_app, ?length_bits; lia |]; rewrite E; cbn [mbind option_bind fst snd]; clear E H; rename H' into H
  end.

(** Runs the next [peek], [forward] or [readLong] on a reader in front of known bits. *)
Ltac read_step :=
  match goal with
  | H : reads ?r (bits ?n ?v ++ _) |- context [peek ?r ?n] =>
      rewrite (peek_reads r n v _ H) by lia; cbn [mbind option_bind fst snd]
  | H : reads ?r (bits ?n ?v ++ ?bs) |- context [forward ?r ?n] =>
      let r' := fresh "r" in let E := fresh "E" in let H' := fresh "Hr" in
      destruct (forward_reads r n v bs H) as (r' & E & H'); [lia |];
      rewrite E; cbn [mbind option_bind fst snd]; clear E H; rename H' into H
  | H : reads ?r (bits ?n ?v ++ ?bs) |- context [readLong ?r ?n] =>
      let r' := fresh "r" in let E := fresh "E" in let H' := fresh "Hr" in
      destruct (readLong_reads r n v bs H) as (r' & E & H'); [lia |];
      rewrite E; cbn [mbind option_bind fst snd]; clear E H; rename H' into H
  end.

#[global] Opaque initBitWriter write flush initBitReader peek forward.
Arguments writeLong : simpl never.
Arguments readLong : simpl never.
