(* ===== verification/Bytes.v ===== *)
(** * Bytes: little-endian memory

    Buffers of [uint8_t] are lists of integers in [0, 256).  The codecs reinterpret
    such buffers as arrays of integers or doubles; on the x86-64 build target this is
    the little-endian encoding modelled here.  Accesses outside the buffer are
    undefined: [load] and [slice] return [None]. *)

From Stdlib Require Import ZArith Lia.
From S2P Require Import Prelude.

Definition is_byte (b : Z) : Prop := 0 <= b < 2 ^ 8.

(** The [n] bytes of [v]. *)
Fixpoint le_bytes (n : nat) (v : Z) : list Z :=
  match n with
  | O => []
  | S n' => v mod 256 :: le_bytes n' (v / 256)
  end.

Fixpoint le_val (l : list Z) : Z :=
  match l with
  | [] => 0
  | b :: l => b + 256 * le_val l
  end.

(** An array of [n]-byte integers in memory, and back. *)
Definition store_array (n : nat) (xs : list Z) : list Z := xs ≫= le_bytes n.

Fixpoint load_array (n count : nat) (l : list Z) : list Z :=
  match count with
  | O => []
  | S c => le_val (take n l) :: load_array n c (drop n l)
  end.

(** [len] bytes at offset [off], if they exist. *)
Definition slice (l : list Z) (off len : Z) : option (list Z) :=
  if (0 <=? off) && (0 <=? len) && (off + len <=? Z.of_nat (length l))
  then Some (take (Z.to_nat len) (drop (Z.to_nat off) l)) else None.

(** The [n]-byte unsigned integer at offset [off]. *)
Definition load (n : Z) (l : list Z) (off : Z) : option Z :=
  le_val <$> slice l off n.

(** [count] integers of [n] bytes at offset [off]. *)
Definition load_n (n : nat) (l : list Z) (off count : Z) : option (list Z) :=
  load_array n (Z.to_nat count) <$> slice l off (Z.of_nat n * count).

Section bytes_lemmas.

Lemma length_le_bytes n v : length (le_bytes n v) = n.
Proof. revert v; induction n; intros; simpl; auto. Qed.

Lemma le_bytes_range n v : Forall is_byte (le_bytes n v).
Proof.
  revert v; induction n; intros v; simpl; constructor; auto.
  apply Z.mod_pos_bound. lia.
Qed.

Lemma le_val_bytes n v : le_val (le_bytes n v) = v mod 2 ^ (8 * Z.of_nat n).
Proof.
  revert v; induction n as [| n IH]; intros v; cbn [le_bytes le_val].
  { by rewrite Z.mod_1_r. }
  rewrite IH. replace (8 * Z.of_nat (S n)) with (8 + 8 * Z.of_nat n) by lia.
  rewrite Z.pow_add_r by lia. change (2 ^ 8) with 256. rewrite Z.rem_mul_r by lia. lia.
Qed.

Lemma le_val_bytes_small n v :
  0 <= v < 2 ^ (8 * Z.of_nat n) -> le_val (le_bytes n v) = v.
Proof. intros. by rewrite le_val_bytes, Z.mod_small. Qed.

Lemma le_bytes_val l : Forall is_byte l -> le_bytes (length l) (le_val l) = l.
Proof.
  induction 1 as [| b l Hb Hl IH]; [done |]. cbn [length le_bytes le_val].
  unfold is_byte in Hb.
  rewrite (Z.mul_comm 256), Z.mod_add, Z.mod_small by lia. f_equal.
  rewrite Z.div_add, Z.div_small by lia. done.
Qed.

Lemma length_store_array n xs : length (store_array n xs) = (n * length xs)%nat.
Proof.
  unfold store_array. induction xs as [| x xs IH]; [simpl; lia |].
  cbn [mbind list_bind]. rewrite length_app, length_le_bytes. simpl in *. lia.
Qed.

Lemma store_array_app n xs ys : store_array n (xs ++ ys) = store_array n xs ++ store_array n ys.
Proof. apply bind_app. Qed.

Lemma store_array_range n xs : Forall is_byte (store_array n xs).
Proof.
  unfold store_array. induction xs as [| x xs IH]; [constructor |].
  cbn [mbind list_bind]. apply Forall_app. split; [apply le_bytes_range | done].
Qed.

Lemma load_store_array n xs tl :
  Forall (fun x => 0 <= x < 2 ^ (8 * Z.of_nat n)) xs ->
  load_array n (length xs) (store_array n xs ++ tl) = xs.
Proof.
  induction 1 as [| x xs Hx Hxs IH]; [done |].
  unfold store_array in *. cbn [length load_array mbind list_bind].
  rewrite <- app_assoc, take_app_length', drop_app_length' by (by rewrite length_le_bytes).
  rewrite le_val_bytes_small by done. f_equal. apply IH.
Qed.

(** Bytes seen as an array of [n]-byte integers. *)
Lemma bytes_as_array n k l :
  Forall is_byte l -> length l = (n * k)%nat ->
  exists xs, l = store_array n xs /\ length xs = k /\
    Forall (fun x => 0 <= x < 2 ^ (8 * Z.of_nat n)) xs.
Proof.
  revert l. induction k as [| k IH]; intros l Hl Hlen.
  { exists []. destruct l; [done | simpl in Hlen; lia]. }
  destruct (IH (drop n l)) as (xs & E & Hxs & Hr); [by apply Forall_drop | rewrite length_drop; lia |].
  assert (length (take n l) = n) as Hn by (rewrite length_take; lia).
  exists (le_val (take n l) :: xs). split_and!.
  - change (store_array n (le_val (take n l) :: xs))
      with (le_bytes n (le_val (take n l)) ++ store_array n xs). rewrite <- E.
    rewrite <- Hn at 1. rewrite le_bytes_val by (by apply Forall_take). by rewrite take_drop.
  - simpl. by rewrite Hxs.
  - constructor; [| done]. rewrite <- (le_bytes_val (take n l)) by (by apply Forall_take).
    rewrite Hn, le_val_bytes. apply Z.mod_pos_bound. apply Z.pow_pos_nonneg; lia.
Qed.

Lemma length_load_array n c l : length (load_array n c l) = c.
Proof. revert l; induction c; intros; simpl; auto. Qed.

Lemma slice_app a b c off len :
  off = Z.of_nat (length a) -> len = Z.of_nat (length b) ->
  slice (a ++ b ++ c) off len = Some b.
Proof.
  intros -> ->. unfold slice.
  replace (_ && _) with true.
  - rewrite !Nat2Z.id, drop_app_length, take_app_length. done.
  - symmetry. rewrite !andb_true_iff, !Z.leb_le, !length_app. lia.
Qed.

Lemma load_at k n l a v c off :
  l = a ++ le_bytes k v ++ c -> n = Z.of_nat k -> off = Z.of_nat (length a) ->
  0 <= v < 2 ^ (8 * n) -> load n l off = Some v.
Proof.
  intros -> -> Ho Hv. unfold load.
  rewrite slice_app by (rewrite ?length_le_bytes; done). simpl.
  by rewrite le_val_bytes_small.
Qed.

Lemma load_n_at n l a xs c off count :
  l = a ++ store_array n xs ++ c ->
  off = Z.of_nat (length a) -> count = Z.of_nat (length xs) ->
  Forall (fun x => 0 <= x < 2 ^ (8 * Z.of_nat n)) xs ->
  load_n n l off count = Some xs.
Proof.
  intros -> Ho -> Hx. unfold load_n.
  rewrite slice_app by (rewrite ?length_store_array; lia). simpl. f_equal.
  rewrite Nat2Z.id, <- (app_nil_r (store_array n xs)). by apply load_store_array.
Qed.

(** A container with 77 bits for a value that is below 2 GiB has less than 2^28 values. *)
Lemma xor_container_len len :
  0 <= len -> 4 + (77 * len + 31) / 32 * 4 < 2 ^ 31 -> len < 2 ^ 28.
Proof.
  intros H0 H. pose proof (Z.div_mod (77 * len + 31) 32 ltac:(lia)).
  pose proof (Z.mod_pos_bound (77 * len + 31) 32 ltac:(lia)). lia.
Qed.

(** The container of the XOR codecs: a 32-bit length, a 64-bit first value and a
    sequence of 32-bit words, with the loads their decoders do. *)
Lemma xor_container_loads len first ws :
  0 <= len < 2 ^ 32 -> is_u64 first -> Forall is_u32 ws ->
  let out := le_bytes 4 len ++ le_bytes 8 first ++ store_array 4 ws in
  load 4 out 0 = Some len /\ load 8 out 4 = Some first /\
  Z.of_nat (length out) - 12 = Z.of_nat (length ws) * 4 /\
  load_n 4 out 12 (Z.of_nat (length ws)) = Some ws.
Proof.
  intros Hl Hf Hw out. split_and!.
  - by rewrite (load_at 4 4 _ [] len (le_bytes 8 first ++ store_array 4 ws)) by (done || lia).
  - by rewrite (load_at 8 8 _ (le_bytes 4 len) first (store_array 4 ws)) by (done || exact Hf).
  - unfold out. rewrite !length_app, !length_le_bytes, length_store_array. lia.
  - by rewrite (load_n_at 4 _ (le_bytes 4 len ++ le_bytes 8 first) ws [])
      by (unfold out; rewrite <- ?app_assoc, ?app_nil_r; done || exact Hw).
Qed.

End bytes_lemmas.

Arguments le_bytes : simpl never.
Arguments le_val : simpl never.
Arguments store_array : simpl never.
Arguments load_array : simpl never.
Arguments slice : simpl never.
Arguments load : simpl never.
Arguments load_n : simpl never.
