(* ===== verification/Gorilla.v ===== *)
(** * Gorilla: the lossless XOR codec

    Models [gorilla/gorilla.cpp].  A value is stored as the exclusive or with its
    predecessor: one zero bit if it is equal, otherwise the meaningful bits, either
    inside the window of the previous value or after a new window (5 bits of leading
    zeros, 6 bits of length).  [gorilla_code] is that format as a bit string; the
    encoder is shown to write it and the decoder to read it. *)

From Stdlib Require Import ZArith Lia.
From S2P Require Import Prelude Bits Bytes BitStream.

Module Gorilla.

(** ** The code *)

(** [SIZE_IN_BIT(x)]: the words that hold [x] bits. *)
Definition SIZE_IN_BIT (x : Z) : Z := (x + 31) / 32.

(** The window of the previous value; [prevLeading] starts at [-1L]. *)
Record enc := { e_w : BitWriter; prevLeading : Z; prevTrailing : Z }.

Definition no_window : Z := 2 ^ 64 - 1.

(** One iteration of the loop of [gorilla_encode]. *)
Definition encode_step (s : enc) (prev cur : Z) : option enc :=
  let vDelta := Z.lxor cur prev in
  if vDelta =? 0 then
    w ← write (e_w s) 0 1;
    Some {| e_w := w; prevLeading := prevLeading s; prevTrailing := prevTrailing s |}
  else
    let leading := clz 64 vDelta in
    let trailing := ctz 64 vDelta in
    let leading := if 32 <=? leading then 31 else leading in
    sl ← (if negb (prevLeading s =? no_window) && (prevLeading s <=? leading)
             && (prevTrailing s <=? trailing)
          then
            w ← write (e_w s) 2 2;
            Some ({| e_w := w; prevLeading := prevLeading s; prevTrailing := prevTrailing s |},
                  u64 (64 - prevLeading s - prevTrailing s))
          else
            let l := u64 (64 - leading - trailing) in
            w ← write (e_w s) 3 2;
            w ← write w leading 5;
            w ← write w (l - 1) 6;
            Some ({| e_w := w; prevLeading := leading; prevTrailing := trailing |}, l));
    let '(s, l) := (sl : enc * Z) in
    w ← (if l <=? 32 then write (e_w s) (Z.shiftr vDelta (prevTrailing s)) l
         else
           w ← write (e_w s) (Z.shiftr vDelta 32) (u64 (32 - prevLeading s));
           write w (Z.shiftr vDelta (prevTrailing s)) (u64 (32 - prevTrailing s)));
    Some {| e_w := w; prevLeading := prevLeading s; prevTrailing := prevTrailing s |}.

Fixpoint encode_loop (s : enc) (prev : Z) (l : list Z) : option enc :=
  match l with
  | [] => Some s
  | cur :: l => s ← encode_step s prev cur; encode_loop s cur l
  end.

(** [input] holds the bit patterns of the doubles.  The result is the size returned,
    which is computed in [int], and what was written to the output buffer.  The [int]
    counter of the loop has to reach [len]. *)
Definition gorilla_encode (input : list Z) : option (Z * list Z) :=
  let len := Z.of_nat (length input) in
  _ ← assert (0 <? len);
  first ← input !! 0%nat;
  let buffer_size := SIZE_IN_BIT ((1 + 1 + 5 + 6 + 64) * len) * 4 in
  w ← initBitWriter (buffer_size / 4 - 2);
  _ ← assert (len <=? INT32_MAX);
  s ← encode_loop {| e_w := w; prevLeading := no_window; prevTrailing := 0 |} first (tail input);
  wr ← flush (e_w s);
  osize ← int_of (wr.2 * 4 + 4 + 8);
  Some (osize, le_bytes 4 len ++ le_bytes 8 first ++ store_array 4 (bw_output wr.1)).

Definition read_delta (r : BitReader) (leading meaningful : Z) : option (Z * BitReader) :=
  let trailing := u64 (64 - leading - meaningful) in
  _ ← assert (trailing <? 64);
  if 32 <? meaningful then
    delta ← peek r 32;
    r ← forward r 32;
    let delta := shl64 delta (meaningful - 32) in
    low ← peek r (meaningful - 32);
    r ← forward r (meaningful - 32);
    Some (shl64 (Z.lor delta low) trailing, r)
  else
    delta ← peek r meaningful;
    r ← forward r meaningful;
    Some (shl64 delta trailing, r).

Record dec := { d_r : BitReader; d_leading : Z; d_meaningful : Z }.

(** One iteration of the loop of [gorilla_decode]: the next value. *)
Definition decode_step (s : dec) (prev : Z) : option (Z * dec) :=
  c ← peek (d_r s) 2;
  if c <=? 1 then
    r ← forward (d_r s) 1;
    Some (prev, {| d_r := r; d_leading := d_leading s; d_meaningful := d_meaningful s |})
  else if c =? 2 then
    r ← forward (d_r s) 2;
    dr ← read_delta r (d_leading s) (d_meaningful s);
    Some (Z.lxor prev dr.1,
          {| d_r := dr.2; d_leading := d_leading s; d_meaningful := d_meaningful s |})
  else
    r ← forward (d_r s) 2;
    leading ← peek r 5;
    r ← forward r 5;
    m ← peek r 6;
    let meaningful := m + 1 in
    r ← forward r 6;
    dr ← read_delta r leading meaningful;
    Some (Z.lxor prev dr.1, {| d_r := dr.2; d_leading := leading; d_meaningful := meaningful |}).

Fixpoint decode_loop (n : nat) (s : dec) (prev : Z) : option (list Z) :=
  match n with
  | O => Some []
  | S n => vs ← decode_step s prev; l ← decode_loop n vs.2 vs.1; Some (vs.1 :: l)
  end.

(** [leading] and [meaningful] are not initialised by the code: the values found in
    them are arguments of the model. *)
Definition gorilla_decode (leading meaningful : Z) (input : list Z) (len : Z)
  : option (list Z) :=
  data_len ← load 4 input 0;
  first ← load 8 input 4;
  _ ← assert ((len - 4 - 8) mod 4 =? 0);
  words ← load_n 4 input 12 ((len - 4 - 8) / 4);
  r ← initBitReader words ((len - 4 - 8) / 4);
  _ ← assert (data_len <=? INT32_MAX);
  l ← decode_loop (Z.to_nat (data_len - 1))
        {| d_r := r; d_leading := leading; d_meaningful := meaningful |} first;
  Some (first :: l).

(** ** The format *)

(** A window: leading and trailing zeros of the stored part. *)
Definition window := option (Z * Z).

Definition window_ok (o : window) : Prop :=
  match o with
  | None => True
  | Some (a, b) => 0 <= a <= 31 /\ 0 <= b /\ a + b < 64
  end.

(** The code of [cur] after [prev] in window [o], and the window left. *)
Definition gorilla_code (o : window) (prev cur : Z) : list bool * window :=
  let x := Z.lxor cur prev in
  if x =? 0 then ([false], o)
  else
    let lead := Z.min 31 (clz 64 x) in
    let trail := ctz 64 x in
    let fresh := (bits 2 3 ++ bits 5 lead ++ bits 6 (64 - lead - trail - 1)
                    ++ bits (64 - lead - trail) (Z.shiftr x trail), Some (lead, trail)) in
    match o with
    | Some (a, b) =>
        if (a <=? lead) && (b <=? trail)
        then (bits 2 2 ++ bits (64 - a - b) (Z.shiftr x b), Some (a, b))
        else fresh
    | None => fresh
    end.

Fixpoint gorilla_codes (o : window) (prev : Z) (l : list Z) : list bool :=
  match l with
  | [] => []
  | cur :: l => (gorilla_code o prev cur).1 ++ gorilla_codes (gorilla_code o prev cur).2 cur l
  end.

(** The window as the encoder and the decoder hold it. *)
Definition enc_window (o : window) (s : enc) : Prop :=
  match o with
  | None => prevLeading s = no_window /\ prevTrailing s = 0
  | Some (a, b) => prevLeading s = a /\ prevTrailing s = b
  end.

Definition dec_window (o : window) (s : dec) : Prop :=
  match o with
  | None => True
  | Some (a, b) => d_leading s = a /\ d_meaningful s = 64 - a - b
  end.

(** Facts about the difference of two distinct values. *)
Lemma delta_facts prev cur :
  is_u64 prev -> is_u64 cur -> Z.lxor cur prev <> 0 ->
  let x := Z.lxor cur prev in
  0 < x < 2 ^ 64 /\ 0 <= clz 64 x < 64 /\ 0 <= ctz 64 x /\ clz 64 x + ctz 64 x < 64.
Proof.
  intros Hp Hc Hx. pose proof (lxor_range cur prev 64 ltac:(lia) Hc Hp).
  simpl. split; [lia |]. split; [apply clz_range; lia |].
  split; [apply ctz_nonneg; lia | apply clz_ctz; lia].
Qed.

Lemma window_ok_code o prev cur :
  is_u64 prev -> is_u64 cur -> window_ok o -> window_ok (gorilla_code o prev cur).2.
Proof.
  intros Hp Hc Ho. unfold gorilla_code.
  destruct (Z.eqb_spec (Z.lxor cur prev) 0) as [| Hx]; [done |].
  destruct (delta_facts prev cur Hp Hc Hx) as (H1 & H2 & H3 & H4).
  destruct o as [[a b] |]; [destruct (_ && _); [done |] |]; simpl in *; lia.
Qed.

(** The stored bits, whatever the window: 77 bits at most per value. *)
Lemma gorilla_code_length o prev cur :
  is_u64 prev -> is_u64 cur -> window_ok o ->
  (length (gorilla_code o prev cur).1 <= 77)%nat.
Proof.
  intros Hp Hc Ho. unfold gorilla_code.
  destruct (Z.eqb_spec (Z.lxor cur prev) 0) as [| Hx]; [simpl; lia |].
  destruct (delta_facts prev cur Hp Hc Hx) as (H1 & H2 & H3 & H4).
  destruct o as [[a b] |]; [destruct (_ && _) |]; simpl in *;
    rewrite ?length_app, ?length_bits; simpl; lia.
Qed.

Lemma gorilla_code_nonempty o prev cur : (1 <= length (gorilla_code o prev cur).1)%nat.
Proof.
  unfold gorilla_code. destruct (_ =? 0); [done |].
  destruct o as [[a b] |]; [destruct (_ && _) |]; simpl; rewrite length_app, length_bits; simpl; lia.
Qed.

Lemma gorilla_codes_length o prev l :
  is_u64 prev -> Forall is_u64 l -> window_ok o ->
  (length (gorilla_codes o prev l) <= 77 * length l)%nat.
Proof.
  intros Hp Hl. revert o prev Hp.
  induction Hl as [| cur l Hc Hl IH]; intros o prev Hp Ho; simpl; [lia |].
  rewrite length_app.
  pose proof (gorilla_code_length o prev cur Hp Hc Ho).
  pose proof (IH (gorilla_code o prev cur).2 cur Hc (window_ok_code _ _ _ Hp Hc Ho)). lia.
Qed.

(** ** The encoder writes the format *)

(** The two branches that store the meaningful bits write the same string. *)
Lemma write_payload w bs x a b :
  writes w bs -> 0 < x < 2 ^ 64 -> 0 <= a <= 31 -> 0 <= b -> a + b < 64 ->
  Z.of_nat (length bs) + (64 - a - b) <= 32 * bw_len w ->
  exists w',
    (if u64 (64 - a - b) <=? 32 then write w (Z.shiftr x b) (u64 (64 - a - b))
     else w ← write w (Z.shiftr x 32) (u64 (32 - a)); write w (Z.shiftr x b) (u64 (32 - b)))
    = Some w' /\ writes w' (bs ++ bits (64 - a - b) (Z.shiftr x b)) /\ bw_len w' = bw_len w.
Proof.
  intros Hw Hx Ha Hb Hab Hcap.
  rewrite (u64_id (64 - a - b)) by (unfold is_u64; lia).
  destruct (Z.leb_spec (64 - a - b) 32) as [Hl | Hl]; [apply write_writes; auto; lia |].
  rewrite !u64_id by (unfold is_u64; lia).
  write_step. write_step. eexists. split; [done |]. split; [| lia].
  replace (64 - a - b) with ((32 - a) + (32 - b)) by lia.
  rewrite bits_app, Z.shiftr_shiftr, app_assoc by lia.
  by replace (b + (32 - b)) with 32 by lia.
Qed.

Lemma encode_step_writes s o bs prev cur :
  writes (e_w s) bs -> enc_window o s -> window_ok o -> is_u64 prev -> is_u64 cur ->
  Z.of_nat (length bs) + 77 <= 32 * bw_len (e_w s) ->
  exists s', encode_step s prev cur = Some s' /\
    writes (e_w s') (bs ++ (gorilla_code o prev cur).1) /\
    enc_window (gorilla_code o prev cur).2 s' /\ bw_len (e_w s') = bw_len (e_w s).
Proof.
  intros Hw He Ho Hp Hc Hcap. unfold encode_step, gorilla_code.
  destruct (Z.eqb_spec (Z.lxor cur prev) 0) as [E0 | Hx].
  { write_step. eexists. split; [done |]. simpl. split; [done |]. by destruct o as [[??] |]. }
  destruct (delta_facts prev cur Hp Hc Hx) as (Hr & Hlz & Htz & Hsum).
  set (x := Z.lxor cur prev) in *.
  replace (if 32 <=? clz 64 x then 31 else clz 64 x) with (Z.min 31 (clz 64 x)) by (zcases; lia).
  set (lead := Z.min 31 (clz 64 x)). set (trail := ctz 64 x).
  destruct s as [w pl pt]; simpl in *.
  assert (exists s', (sl ← (w0 ← write w 3 2; w0 ← write w0 lead 5;
              w0 ← write w0 (u64 (64 - lead - trail) - 1) 6;
              Some ({| e_w := w0; prevLeading := lead; prevTrailing := trail |},
                    u64 (64 - lead - trail)));
      let '(s, l) := (sl : enc * Z) in
      w ← (if l <=? 32 then write (e_w s) (Z.shiftr x (prevTrailing s)) l
           else w ← write (e_w s) (Z.shiftr x 32) (u64 (32 - prevLeading s));
                write w (Z.shiftr x (prevTrailing s)) (u64 (32 - prevTrailing s)));
      Some {| e_w := w; prevLeading := prevLeading s; prevTrailing := prevTrailing s |}) = Some s' /\
      writes (e_w s') (bs ++ bits 2 3 ++ bits 5 lead ++ bits 6 (64 - lead - trail - 1)
                    ++ bits (64 - lead - trail) (Z.shiftr x trail)) /\
      (prevLeading s' = lead /\ prevTrailing s' = trail) /\ bw_len (e_w s') = bw_len w) as Hfresh.
  { rewrite (u64_id (64 - lead - trail)) by (unfold is_u64; lia).
    write_step. write_step. write_step. simpl.
    destruct (write_payload _ _ x lead trail Hw) as (w' & E & Hw' & L);
      [lia | lia | lia | lia | rewrite !length_app, !length_bits; lia |].
    rewrite (u64_id (64 - lead - trail)) in E by (unfold is_u64; lia). rewrite E. simpl.
    eexists. split; [done |]. simpl. rewrite !app_assoc. split; [done |]. split; [done | lia]. }
  destruct o as [[a b] |]; simpl in He; destruct He as [-> ->].
  - assert (negb (a =? no_window) = true) as -> by (apply negb_true_iff, Z.eqb_neq; unfold no_window; simpl in Ho; lia).
    simpl in Ho. rewrite andb_true_l.
    destruct ((a <=? lead) && (b <=? trail)) eqn:Ewin; [| exact Hfresh].
    write_step. simpl.
    destruct (write_payload _ _ x a b Hw) as (w' & -> & Hw' & L);
      [lia | lia | lia | lia | rewrite !length_app, !length_bits; lia |]. simpl.
    eexists. split; [done |]. simpl. rewrite app_assoc. split; [done |]. split; [done | lia].
  - rewrite Z.eqb_refl. simpl. exact Hfresh.
Qed.

Lemma encode_loop_writes l : forall s o bs prev,
  writes (e_w s) bs -> enc_window o s -> window_ok o -> is_u64 prev -> Forall is_u64 l ->
  Z.of_nat (length bs) + 77 * Z.of_nat (length l) <= 32 * bw_len (e_w s) ->
  exists s', encode_loop s prev l = Some s' /\
    writes (e_w s') (bs ++ gorilla_codes o prev l) /\ bw_len (e_w s') = bw_len (e_w s).
Proof.
  induction l as [| cur l IH]; intros s o bs prev Hw He Ho Hp Hl Hcap.
  { exists s. rewrite app_nil_r. done. }
  apply Forall_cons_iff in Hl as [Hc Hl]. cbn [length] in Hcap.
  destruct (encode_step_writes s o bs prev cur) as (s1 & E1 & Hw1 & He1 & L1); auto; [lia |].
  cbn [encode_loop gorilla_codes]. rewrite E1. cbn [mbind option_bind].
  pose proof (gorilla_code_length o prev cur Hp Hc Ho).
  destruct (IH s1 _ _ cur Hw1 He1) as (s2 & E2 & Hw2 & L2); auto.
  { by apply window_ok_code. }
  { rewrite length_app, L1. lia. }
  exists s2. rewrite app_assoc. split; [done |]. split; [done | lia].
Qed.

(** ** The decoder reads the format *)

(** [read_delta] is [readLong] and a shift. *)
Lemma read_delta_readLong r a m :
  m <> 0 ->
  read_delta r a m =
  (_ ← assert (u64 (64 - a - m) <? 64);
   dr ← readLong r m; Some (shl64 dr.1 (u64 (64 - a - m)), dr.2)).
Proof.
  intros Hm. unfold read_delta, readLong. apply Z.eqb_neq in Hm as ->.
  destruct (assert _); [simpl | reflexivity].
  destruct (32 <? m).
  - destruct (peek r 32); [simpl | reflexivity].
    destruct (forward r 32) as [r1 |]; [simpl | reflexivity].
    destruct (peek r1 _); [simpl | reflexivity]. by destruct (forward r1 _).
  - destruct (peek r m); [simpl | reflexivity].
    destruct (forward r m); simpl; [by rewrite Z.lor_0_l | done].
Qed.

Lemma read_delta_reads r x a b bs :
  reads r (bits (64 - a - b) (Z.shiftr x b) ++ bs) ->
  0 < x < 2 ^ (64 - a) -> 0 <= a <= 31 -> 0 <= b <= ctz 64 x -> a + b < 64 ->
  exists r', read_delta r a (64 - a - b) = Some (x, r') /\ reads r' bs.
Proof.
  intros Hr Hx Ha Hb Hab. set (m := 64 - a - b) in *.
  assert (2 ^ (64 - a) <= 2 ^ 64) by (apply Z.pow_le_mono_r; lia).
  assert (0 <= Z.shiftr x b < 2 ^ m) as Hs 
    by (apply shiftr_range; [lia | lia |]; replace (b + m) with (64 - a) by lia; lia).
  assert (shl64 (Z.shiftr x b) b = x) as Hshl.
  { unfold shl64. rewrite Z.shiftl_mul_pow2 by lia.
    rewrite (ctz_shift 64 x b) by lia. apply u64_id. unfold is_u64. lia. }
  rewrite read_delta_readLong by lia.
  replace (u64 (64 - a - m)) with b by (rewrite u64_id by (unfold is_u64; lia); lia).
  rewrite assert_true by (apply Z.ltb_lt; lia). simpl.
  destruct (readLong_reads r m _ bs Hr) as (r' & -> & Hr'); [lia |].
  rewrite (Z.mod_small (Z.shiftr x b)) by lia. simpl. rewrite Hshl. by exists r'.
Qed.

Lemma delta_lt a prev cur :
  is_u64 prev -> is_u64 cur -> Z.lxor cur prev <> 0 -> 0 <= a <= clz 64 (Z.lxor cur prev) ->
  0 < Z.lxor cur prev < 2 ^ (64 - a).
Proof.
  intros Hp Hc Hx Ha. destruct (delta_facts prev cur Hp Hc Hx) as (Hr & Hlz & _).
  split; [lia |]. apply Z.lt_le_trans with (2 ^ (64 - clz 64 (Z.lxor cur prev))).
  - apply clz_lt. lia.
  - apply Z.pow_le_mono_r; lia.
Qed.

(** A value stored after a new window. *)
Lemma decode_fresh_reads s bs prev cur lead trail :
  let x := Z.lxor cur prev in
  reads (d_r s) (bits 2 3 ++ bits 5 lead ++ bits 6 (64 - lead - trail - 1)
                 ++ bits (64 - lead - trail) (Z.shiftr x trail) ++ bs) ->
  is_u64 prev -> is_u64 cur -> x <> 0 -> lead = Z.min 31 (clz 64 x) -> trail = ctz 64 x ->
  exists s', decode_step s prev = Some (cur, s') /\ reads (d_r s') bs /\
    d_leading s' = lead /\ d_meaningful s' = 64 - lead - trail.
Proof.
  intros x Hr Hp Hc Hx -> ->.
  destruct (delta_facts prev cur Hp Hc Hx) as (Hx64 & Hlz & Htz & Hsum). fold x in Hx64, Hlz, Htz, Hsum.
  pose proof (delta_lt (Z.min 31 (clz 64 x)) prev cur Hp Hc Hx) as Hlt. fold x in Hlt.
  set (lead := Z.min 31 (clz 64 x)) in *. set (trail := ctz 64 x) in *.
  unfold decode_step. do 6 read_step. simpl. rewrite !Z.mod_small by lia.
  replace (64 - lead - trail - 1 + 1) with (64 - lead - trail) by lia.
  destruct (read_delta_reads _ x lead trail bs Hr) as (r' & -> & Hr');
    [apply Hlt; lia | lia | subst trail; lia | lia |].
  simpl. unfold x. rewrite (Z.lxor_comm cur), lxor_cancel. by eexists.
Qed.

Lemma decode_step_reads s o bs prev cur :
  reads (d_r s) ((gorilla_code o prev cur).1 ++ bs) -> dec_window o s -> window_ok o ->
  is_u64 prev -> is_u64 cur ->
  exists s', decode_step s prev = Some (cur, s') /\ reads (d_r s') bs /\
    dec_window (gorilla_code o prev cur).2 s'.
Proof.
  intros Hr Hd Ho Hp Hc. unfold gorilla_code in *.
  destruct (Z.eqb_spec (Z.lxor cur prev) 0) as [E0 | Hx].
  { apply Z.lxor_eq in E0 as ->. simpl fst in Hr. unfold decode_step.
    rewrite (peek_reads_pad _ 2 _ Hr) by lia. cbn [mbind option_bind].
    replace (bits_val _ <=? 1) with true
      by (symmetry; apply Z.leb_le; simpl; destruct (bit_at _ 1); simpl; lia).
    destruct (forward_reads_app _ 1 [false] bs Hr) as (r' & -> & Hr'); [done | lia |].
    simpl. eexists. split; [done |]. split; [done |]. by destruct o as [[??] |]. }
  destruct (delta_facts prev cur Hp Hc Hx) as (Hx64 & Hlz & Htz & Hsum).
  destruct o as [[a b] |]; simpl in Hd, Ho;
    [destruct (_ && _) eqn:Ewin |]; simpl in Hr; rewrite <- !app_assoc in Hr.
  2, 3: eapply decode_fresh_reads; eauto.
  destruct Hd as [E1 E2]. to_prop. unfold decode_step. do 2 read_step. simpl. rewrite E1, E2.
  destruct (read_delta_reads _ (Z.lxor cur prev) a b bs Hr) as (r' & -> & Hr');
    [apply delta_lt; auto; lia | lia | lia | lia |].
  simpl. rewrite (Z.lxor_comm cur), lxor_cancel. by eexists.
Qed.

Lemma decode_loop_reads l : forall s o bs prev,
  reads (d_r s) (gorilla_codes o prev l ++ bs) -> dec_window o s -> window_ok o ->
  is_u64 prev -> Forall is_u64 l -> decode_loop (length l) s prev = Some l.
Proof.
  induction l as [| cur l IH]; intros s o bs prev Hr Hd Ho Hp Hl; [done |].
  apply Forall_cons_iff in Hl as [Hc Hl]. cbn [gorilla_codes] in Hr. rewrite <- app_assoc in Hr.
  destruct (decode_step_reads s o _ prev cur Hr Hd Ho Hp Hc) as (s1 & E1 & Hr1 & Hd1).
  cbn [length decode_loop]. rewrite E1. simpl.
  rewrite (IH s1 _ bs cur Hr1 Hd1); auto. by apply window_ok_code.
Qed.

(** ** The codec *)

(** The bytes that the encoder allocates for [len] values. *)
Definition allocated (len : Z) : Z := 4 + SIZE_IN_BIT ((1 + 1 + 5 + 6 + 64) * len) * 4.

(** What the encoder leaves in memory: the header and the words of the format.  The size
    is exact as long as the allocation is below 2 GiB. *)
Lemma gorilla_encode_format input first rest :
  input = first :: rest -> Forall is_u64 input -> allocated (Z.of_nat (length input)) < 2 ^ 31 ->
  exists ws, gorilla_encode input =
      Some (4 * Z.of_nat (length ws) + 12,
            le_bytes 4 (Z.of_nat (length input)) ++ le_bytes 8 first ++ store_array 4 ws) /\
    zeq (word_bits ws) (gorilla_codes None first rest) /\ Forall is_u32 ws /\
    Z.of_nat (length ws) = (Z.of_nat (length (gorilla_codes None first rest)) + 31) / 32 /\
    Z.of_nat (length ws) <= SIZE_IN_BIT (77 * Z.of_nat (length input)) - 2.
Proof.
  intros -> Hin. apply Forall_cons_iff in Hin as [Hf Hr]. unfold gorilla_encode, allocated.
  intros Hall. rewrite (assert_true (0 <? _)) by (apply Z.ltb_lt; simpl; lia). cbn [mbind option_bind lookup list_lookup tail].
  set (len := Z.of_nat (length (first :: rest))).
  assert (1 <= len) by (subst len; simpl; lia).
  change (1 + 1 + 5 + 6 + 64) with 77 in *. rewrite Z.div_mul by lia. fold len in Hall.
  unfold SIZE_IN_BIT in *.
  pose proof (Z.div_mod (77 * len + 31) 32 ltac:(lia)) as Hdm.
  pose proof (Z.mod_pos_bound (77 * len + 31) 32 ltac:(lia)) as Hm.
  set (n := (77 * len + 31) / 32) in *.
  destruct (init_ok (n - 2)) as (w & -> & Hw & Hn); [lia |]. cbn [mbind option_bind].
  rewrite assert_true by (apply Z.leb_le; unfold INT32_MAX; lia). cbn [mbind option_bind].
  destruct (encode_loop_writes rest {| e_w := w; prevLeading := no_window; prevTrailing := 0 |}
              None [] first) as (s & -> & Hs & L); auto; [done | done | |].
  { simpl. rewrite Hn. subst len. simpl in *. lia. }
  cbn [mbind option_bind]. simpl in Hs, L.
  pose proof (gorilla_codes_length None first rest Hf Hr I).
  destruct (flush_writes _ _ Hs) as (w' & -> & Hz & Hu & Hc & Hc').
  { rewrite L, Hn. subst len. simpl in *. lia. }
  assert (bw_cursor w' <= n - 2) as Hcap.
  { rewrite Hc'. apply Z.lt_succ_r, Z.div_lt_upper_bound; [lia |]. subst len. simpl in *. lia. }
  cbn [mbind option_bind fst snd].
  rewrite i32_id, int_of_ok by (unfold is_i32; lia). cbn [mbind option_bind].
  exists (bw_output w'). rewrite <- Hc. split; [do 2 f_equal; lia |]. auto.
Qed.

(** C13: every sequence of at least two doubles whose output buffer is smaller than 2 GiB
    (up to 223 million values: the size is computed in [int]) is encoded without overrunning
    the buffer, the size returned is that of the bytes written, and they are decoded to the
    sequence, bit for bit, whatever the uninitialised decoder variables held. *)
Theorem gorilla_roundtrip leading meaningful input :
  (2 <= length input)%nat -> allocated (Z.of_nat (length input)) < 2 ^ 31 ->
  Forall is_u64 input ->
  exists osize out, gorilla_encode input = Some (osize, out) /\
    osize = Z.of_nat (length out) /\
    gorilla_decode leading meaningful out osize = Some input.
Proof.
  intros Hlen Hall Hin. destruct input as [| first rest]; [simpl in Hlen; lia |].
  destruct (gorilla_encode_format _ first rest eq_refl Hin Hall) as (ws & E & Hz & Hu & Hws & Hcap).
  do 2 eexists. split; [exact E |].
  split; [rewrite !length_app, !length_le_bytes, length_store_array; lia |]. apply Forall_cons_iff in Hin as [Hf Hr].
  unfold gorilla_decode. set (len := Z.of_nat (length (first :: rest))) in *.
  pose proof (xor_container_len len ltac:(lia) Hall).
  destruct (xor_container_loads len first ws) as (-> & -> & EL & Ews); [lia | done | done |].
  cbn [mbind option_bind].
  replace (4 * Z.of_nat (length ws) + 12 - 4 - 8) with (Z.of_nat (length ws) * 4) by lia.
  rewrite Z.mod_mul, Z.div_mul, (assert_true (0 =? 0)) by (done || lia). cbn [mbind option_bind].
  rewrite Ews. cbn [mbind option_bind].
  assert (ws <> []) as Hne.
  { intros ->. destruct rest as [| c rest]; [simpl in Hlen; lia |].
    pose proof (gorilla_code_nonempty None first c).
    cbn [gorilla_codes length] in Hws. rewrite length_app in Hws. simpl Z.of_nat in Hws at 1.
    symmetry in Hws. apply Z.div_small_iff in Hws; [| lia]. lia. }
  destruct (init_reads ws _ Hu Hz Hne) as (r & -> & Hrd). cbn [mbind option_bind].
  rewrite assert_true by (apply Z.leb_le; unfold INT32_MAX; lia). cbn [mbind option_bind].
  replace (Z.to_nat (len - 1)) with (length rest) by (subst len; simpl; lia).
  rewrite (decode_loop_reads rest _ None [] first); auto; [| done | done].
  by rewrite app_nil_r.
Qed.

(** Three doubles: 12.0, 12.0 again, then 24.0 and 15.5. *)
Lemma gorilla_roundtrip_witness :
  exists osize out, gorilla_encode [0x4028000000000000; 0x4028000000000000;
                                    0x4038000000000000; 0x402f000000000000] = Some (osize, out) /\
    osize = Z.of_nat (length out) /\
    gorilla_decode 7 7 out osize
    = Some [0x4028000000000000; 0x4028000000000000; 0x4038000000000000; 0x402f000000000000].
Proof.
  apply (gorilla_roundtrip 7 7); [simpl; lia | vm_compute; reflexivity |].
  repeat constructor; unfold is_u64; lia.
Defined.

(** The encoder never writes past its allocation, 77 bits being enough for every value. *)
Theorem gorilla_buffer input osize out :
  Forall is_u64 input -> allocated (Z.of_nat (length input)) < 2 ^ 31 ->
  gorilla_encode input = Some (osize, out) ->
  Z.of_nat (length out) <= allocated (Z.of_nat (length input)).
Proof.
  intros Hin Hall E. destruct input as [| first rest]; [done |].
  destruct (gorilla_encode_format _ first rest eq_refl Hin Hall) as (ws & E' & _ & _ & _ & Hcap).
  rewrite E' in E. apply (inj Some), pair_equal_spec in E as [_ <-].
  rewrite !length_app, !length_le_bytes, length_store_array. unfold allocated.
  change (1 + 1 + 5 + 6 + 64) with 77. lia.
Qed.

Lemma gorilla_buffer_witness :
  Z.of_nat (length (default (0, []) (gorilla_encode [0x4028000000000000; 0x4038000000000000])).2)
  <= allocated 2.
Proof.
  eapply (gorilla_buffer [0x4028000000000000; 0x4038000000000000]).
  - repeat constructor; unfold is_u64; lia.
  - vm_compute. reflexivity.
  - vm_compute. reflexivity.
Defined.

(** A chunk with a single value is encoded into the 12 header bytes alone, and the
    decoder then fails the reader's assertion that there is at least one word. *)
Theorem gorilla_single_value leading meaningful v :
  is_u64 v ->
  exists out, gorilla_encode [v] = Some (12, out) /\ length out = 12%nat /\
    gorilla_decode leading meaningful out 12 = None.
Proof.
  intros Hv.
  destruct (gorilla_encode_format [v] v [] eq_refl) as (ws & E & _ & _ & Hws & _);
    [by constructor | done |].
  change (_ / 32) with 0 in Hws.
  destruct ws as [| w ws]; [| cbn [length] in Hws; lia]. eexists. split; [exact E |].
  destruct (xor_container_loads 1 v []) as (E1 & E2 & EL & Ews); [lia | done | constructor |].
  split; [rewrite !length_app, !length_le_bytes; done |]. unfold gorilla_decode.
  change (Z.of_nat (length [v])) with 1. rewrite E1, E2. cbn [mbind option_bind].
  change (12 - 4 - 8) with 0. change (0 / 4) with (Z.of_nat (length (@nil Z))). by rewrite Ews.
Qed.

Lemma gorilla_single_value_witness :
  exists out, gorilla_encode [0x4028000000000000] = Some (12, out) /\ length out = 12%nat /\
    gorilla_decode 0 0 out 12 = None.
Proof. apply gorilla_single_value. unfold is_u64. lia. Defined.

End Gorilla.
