(* ===== verification/Chimp.v ===== *)
(** * Chimp: the lossless codec with 128 previous values

    Models [chimp/ChimpEncode.cpp] and [chimp/ChimpDecode.cpp].  Each value is
    stored as the exclusive or with one of the last 128 values: a value with the same
    14 low bits if that leaves many trailing zeros, otherwise the previous one.  The
    proofs are a simulation: one step of the encoder appends a code from which one step
    of the decoder, in a matching state, recovers the value. *)

From Stdlib Require Import ZArith Lia.
From stdpp Require Import gmap.
From S2P Require Import Prelude Bits Bytes BitStream.

(** The two tables of an encoder (by leading zeros) against the table of its decoder:
    rounding down the number of leading zeros and naming it with three bits. *)
Definition tables_agree (rnd rep dec : list Z) : bool :=
  forallb (fun k =>
    match rnd !! k with
    | Some lz =>
        match rep !! Z.to_nat lz with
        | Some j =>
            match dec !! Z.to_nat j with
            | Some lz' => (lz =? lz') && (0 <=? lz) && (lz <=? Z.of_nat k) && (lz <=? 24)
                          && (0 <=? j) && (j <? 8)
            | None => false
            end
        | None => false
        end
    | None => false
    end) (seq 0 64).

Lemma tables_agree_spec rnd rep dec k :
  tables_agree rnd rep dec = true -> 0 <= k < 64 ->
  exists lz j, rnd !! Z.to_nat k = Some lz /\ rep !! Z.to_nat lz = Some j /\
    dec !! Z.to_nat j = Some lz /\ 0 <= lz <= k /\ lz <= 24 /\ 0 <= j < 8.
Proof.
  intros H Hk. unfold tables_agree in H. rewrite forallb_forall in H.
  specialize (H (Z.to_nat k)). rewrite in_seq in H. specialize (H ltac:(lia)).
  destruct (rnd !! Z.to_nat k) as [lz |]; [| done].
  destruct (rep !! Z.to_nat lz) as [j |] eqn:Ej; [| done].
  destruct (dec !! Z.to_nat j) as [lz' |] eqn:El; [| done]. to_prop. subst lz'.
  exists lz, j. repeat split; auto; lia.
Qed.

Module Chimp.

(** ** The encoder *)

Definition PREVIOUS_VALUES : Z := 128.

Definition leadingRep : list Z :=
  [0; 0; 0; 0; 0; 0; 0; 0;
   1; 1; 1; 1; 2; 2; 2; 2;
   3; 3; 4; 4; 5; 5; 6; 6;
   7; 7; 7; 7; 7; 7; 7; 7;
   7; 7; 7; 7; 7; 7; 7; 7;
   7; 7; 7; 7; 7; 7; 7; 7;
   7; 7; 7; 7; 7; 7; 7; 7;
   7; 7; 7; 7; 7; 7; 7; 7].

Definition leadingRnd : list Z :=
  [0; 0; 0; 0; 0; 0; 0; 0;
   8; 8; 8; 8; 12; 12; 12; 12;
   16; 16; 18; 18; 20; 20; 22; 22;
   24; 24; 24; 24; 24; 24; 24; 24;
   24; 24; 24; 24; 24; 24; 24; 24;
   24; 24; 24; 24; 24; 24; 24; 24;
   24; 24; 24; 24; 24; 24; 24; 24;
   24; 24; 24; 24; 24; 24; 24; 24].

(** [data] is an int64_t: the shift keeps its sign. *)
Definition write_long (w : BitWriter) (data len : Z) : option BitWriter :=
  if len <=? 32 then write w data len
  else w ← write w (Z.shiftr (i64 data) 32) (len - 32); write w data 32.

Definition previousValuesLog2 : Z := 31 - clz 32 PREVIOUS_VALUES.
Definition threshold : Z := 6 + previousValuesLog2.
Definition setLsb : Z := Z.shiftl 1 (threshold + 1) - 1.
Definition flagZeroSize : Z := previousValuesLog2 + 2.
Definition flagOneSize : Z := previousValuesLog2 + 11.

(** The local variables of the loop; [indices] is a zeroed array. *)
Record enc := {
  e_w : BitWriter;
  storedLeadingZeros : Z;
  storedValues : list Z;
  indices : gmap Z Z;
  index : Z;
  current : Z
}.

Definition get_index (m : gmap Z Z) (k : Z) : Z := default 0 (m !! k).

Section encode.

(** The value [__builtin_ctzl] gives at zero, where it is undefined. *)
Variable ctz0 : Z.

(** The previous value a new value is compared with: its slot, the difference and the
    number of trailing zeros if it was found through [indices]. *)
Definition choose (s : enc) (cur : Z) : option (Z * Z * Z) :=
  let key := Z.land cur setLsb in
  let currIndex := get_index (indices s) key in
  let last := Z.rem (index s) PREVIOUS_VALUES in
  let compare_last trailingZeros :=
    v ← storedValues s !! Z.to_nat last; Some (last, Z.lxor v cur, trailingZeros) in
  if index s - currIndex <? PREVIOUS_VALUES then
    let slot := Z.rem currIndex PREVIOUS_VALUES in
    v ← storedValues s !! Z.to_nat slot;
    let delta := Z.lxor cur v in
    let trailingZeros := ctz ctz0 delta in
    if threshold <? trailingZeros then Some (slot, delta, trailingZeros)
    else compare_last trailingZeros
  else compare_last 0.

(** The part of the loop that writes the difference; with the new
    [storedLeadingZeros]. *)
Definition encode_delta (w : BitWriter) (stored previousIndex delta trailingZeros : Z)
  : option (BitWriter * Z) :=
  if delta =? 0 then
    w ← write w previousIndex flagZeroSize;
    Some (w, 65)
  else
    leadingZeros ← leadingRnd !! Z.to_nat (clz 64 delta);
    rep ← leadingRep !! Z.to_nat leadingZeros;
    if threshold <? trailingZeros then
      let significantBits := 64 - leadingZeros - trailingZeros in
      w ← write w
            (Z.lor (Z.lor (Z.shiftl (PREVIOUS_VALUES + previousIndex) 9)
                          (Z.shiftl rep 6)) significantBits) flagOneSize;
      w ← write_long w (Z.shiftr (i64 delta) trailingZeros) significantBits;
      Some (w, 65)
    else if leadingZeros =? stored then
      w ← write w 2 2;
      w ← write_long w delta (64 - leadingZeros);
      Some (w, stored)
    else
      w ← write w (Z.lor (Z.shiftl 3 3) rep) 5;
      w ← write_long w delta (64 - leadingZeros);
      Some (w, leadingZeros).

(** One iteration of the loop of [chimp_encode]. *)
Definition encode_step (s : enc) (cur : Z) : option enc :=
  let key := Z.land cur setLsb in
  c ← choose s cur;
  let '(previousIndex, delta, trailingZeros) := (c : Z * Z * Z) in
  wl ← encode_delta (e_w s) (storedLeadingZeros s) previousIndex delta trailingZeros;
  let current := Z.rem (current s + 1) PREVIOUS_VALUES in
  Some {| e_w := wl.1; storedLeadingZeros := wl.2;
          storedValues := <[Z.to_nat current := cur]> (storedValues s);
          indices := <[key := index s + 1]> (indices s);
          index := index s + 1; current := current |}.

Fixpoint encode_loop (s : enc) (l : list Z) : option enc :=
  match l with
  | [] => Some s
  | cur :: l => s ← encode_step s cur; encode_loop s l
  end.

Definition SIZE_IN_BIT (x : Z) : Z := (x + 31) / 32.

(** [key0] is [((int) in[0]) & setLsb], undefined for most doubles.  The result is the
    size returned, which is computed in [int], and what was written to the output buffer.
    The [int] counter of the loop has to reach [len]. *)
Definition chimp_encode (key0 : Z) (input : list Z) : option (Z * list Z) :=
  let len := Z.of_nat (length input) in
  _ ← assert (0 <? len);
  first ← input !! 0%nat;
  let buffer_size := SIZE_IN_BIT ((1 + 1 + 5 + 6 + 64) * len) * 4 in
  w ← initBitWriter (buffer_size / 4 - 2);
  _ ← assert (len <=? INT32_MAX);
  s ← encode_loop
        {| e_w := w; storedLeadingZeros := INT32_MAX;
           storedValues := <[0%nat := first]> (replicate (Z.to_nat PREVIOUS_VALUES) 0);
           indices := <[key0 := 0]> ∅; index := 0; current := 0 |} (tail input);
  wr ← flush (e_w s);
  osize ← int_of (wr.2 * 4 + 4 + 8);
  Some (osize, le_bytes 4 len ++ le_bytes 8 first ++ store_array 4 (bw_output wr.1)).

End encode.

(** ** The decoder *)

Definition leadingRepD : list Z := [0; 8; 12; 16; 18; 20; 22; 24].

Definition read_long (r : BitReader) (len : Z) : option (Z * BitReader) :=
  if 32 <? len then
    res ← peek r 32;
    r ← forward r 32;
    let res := shl64 res (len - 32) in
    low ← peek r (len - 32);
    r ← forward r (len - 32);
    Some (Z.lor res low, r)
  else
    res ← peek r len;
    r ← forward r len;
    Some (res, r).

Definition initialFill : Z := previousValuesLog2 + 9.

Record dec := {
  d_r : BitReader;
  d_leading : Z;
  d_stored : list Z
}.

(** One iteration of the loop of [chimp_decode], for value number [i]. *)
Definition decode_step (s : dec) (i prev : Z) : option (Z * dec) :=
  let put v r lz :=
    Some (v, {| d_r := r; d_leading := lz;
                d_stored := <[Z.to_nat (Z.rem i PREVIOUS_VALUES) := v]> (d_stored s) |}) in
  flag ← peek (d_r s) 2;
  r ← forward (d_r s) 2;
  if flag =? 3 then
    tmp ← peek r 3;
    r ← forward r 3;
    lz ← leadingRepD !! Z.to_nat tmp;
    dr ← read_long r (u64 (64 - lz));
    put (Z.lxor prev dr.1) dr.2 lz
  else if flag =? 2 then
    dr ← read_long r (u64 (64 - d_leading s));
    put (Z.lxor prev dr.1) dr.2 (d_leading s)
  else if flag =? 1 then
    tmp ← peek r initialFill;
    r ← forward r initialFill;
    let fill := initialFill - previousValuesLog2 in
    let idx := Z.land (Z.shiftr tmp fill) (Z.shiftl 1 previousValuesLog2 - 1) in
    let fill := fill - 3 in
    lz ← leadingRepD !! Z.to_nat (Z.land (Z.shiftr tmp fill) 0x7);
    let fill := fill - 6 in
    let sig := Z.land (Z.shiftr tmp fill) 0x3f in
    let sig := if sig =? 0 then 64 else sig in
    let trailing := 64 - sig - lz in
    _ ← assert ((0 <=? trailing) && (trailing <? 64));
    dr ← read_long r sig;
    v ← d_stored s !! Z.to_nat idx;
    put (Z.lxor v (shl64 dr.1 trailing)) dr.2 lz
  else
    dr ← read_long r previousValuesLog2;
    v ← d_stored s !! Z.to_nat dr.1;
    put v dr.2 (d_leading s).

Fixpoint decode_loop (n : nat) (s : dec) (i prev : Z) : option (list Z) :=
  match n with
  | O => Some []
  | S n => vs ← decode_step s i prev; l ← decode_loop n vs.2 (i + 1) vs.1; Some (vs.1 :: l)
  end.

Definition chimp_decode (input : list Z) (len : Z) : option (list Z) :=
  _ ← assert ((len - 12) mod 4 =? 0);
  data_len ← load 4 input 0;
  first ← load 8 input 4;
  words ← load_n 4 input 12 ((len - 12) / 4);
  r ← initBitReader words ((len - 12) / 4);
  _ ← assert (data_len <=? INT32_MAX);
  l ← decode_loop (Z.to_nat (data_len - 1))
        {| d_r := r; d_leading := INT32_MAX;
           d_stored := <[0%nat := first]> (replicate (Z.to_nat PREVIOUS_VALUES) 0) |} 1 first;
  Some (first :: l).

Lemma previousValuesLog2_eq : previousValuesLog2 = 7.
Proof. done. Qed.

Lemma threshold_eq : threshold = 13.
Proof. done. Qed.

Lemma tables_ok k :
  0 <= k < 64 ->
  exists lz j, leadingRnd !! Z.to_nat k = Some lz /\ leadingRep !! Z.to_nat lz = Some j /\
    leadingRepD !! Z.to_nat j = Some lz /\ 0 <= lz <= k /\ lz <= 24 /\ 0 <= j < 8.
Proof. by apply tables_agree_spec. Qed.

#[local] Opaque leadingRnd leadingRep leadingRepD.

(** ** Reading and writing up to 64 bits *)

Lemma write_long_writes w bs d n :
  writes w bs -> 0 < n <= 64 -> Z.of_nat (length bs) + n <= 32 * bw_len w ->
  exists w', write_long w d n = Some w' /\ writes w' (bs ++ bits n d) /\ bw_len w' = bw_len w.
Proof.
  intros Hw Hn Hcap. unfold write_long. destruct (Z.leb_spec n 32).
  - apply write_writes; auto; lia.
  - write_step. write_step. eexists. split; [done |]. split; [| lia].
    replace n with (n - 32 + 32) at 1 by lia. rewrite bits_app, app_assoc by lia.
    erewrite (bits_ext (n - 32) (Z.shiftr d 32)); [exact Hw |].
    intros i Hi. rewrite !Z.shiftr_spec by lia. symmetry. apply testbit_i64. lia.
Qed.

Lemma read_long_reads r n v bs :
  reads r (bits n v ++ bs) -> 0 < n <= 64 ->
  exists r', read_long r n = Some (v mod 2 ^ n, r') /\ reads r' bs.
Proof.
  intros Hr Hn. destruct (readLong_reads r n v bs Hr) as (r' & E & Hr'); [lia |].
  exists r'. split; [| done]. rewrite <- E. unfold read_long, readLong.
  replace (n =? 0) with false by (symmetry; apply Z.eqb_neq; lia).
  destruct (32 <? n); reflexivity.
Qed.

(** ** The simulation *)

(** The encoder before value [i], whose predecessor is [prev]. *)
Record enc_ok (s : enc) (i prev : Z) : Prop := {
  eo_len : length (storedValues s) = 128%nat;
  eo_u64 : Forall is_u64 (storedValues s);
  eo_pos : 1 <= i;
  eo_index : index s = i - 1;
  eo_current : current s = (i - 1) mod 128;
  eo_prev : storedValues s !! Z.to_nat ((i - 1) mod 128) = Some prev;
  eo_indices : forall k, 0 <= get_index (indices s) k
}.

(** The states of the two sides match. *)
Definition sim (s : enc) (d : dec) : Prop :=
  storedValues s = d_stored d /\
  (storedLeadingZeros s = d_leading d \/ 24 < storedLeadingZeros s).

(** The slot chosen holds the value the difference is taken with. *)
Lemma choose_spec ctz0 s i prev cur :
  enc_ok s i prev ->
  exists p delta tz v, choose ctz0 s cur = Some (p, delta, tz) /\
    0 <= p < 128 /\ storedValues s !! Z.to_nat p = Some v /\ is_u64 v /\
    delta = Z.lxor v cur /\
    (threshold < tz -> tz = ctz ctz0 delta) /\ (tz <= threshold -> v = prev).
Proof.
  intros [Hl Hu Hi Hix Hc Hp Hk]. unfold choose, PREVIOUS_VALUES. rewrite Hix.
  rewrite (Z.rem_mod_nonneg (i - 1)) by lia.
  pose proof (Z.mod_pos_bound (i - 1) 128 ltac:(lia)) as Hlast.
  assert (is_u64 prev) as Hprev by (eapply Forall_lookup_1; eauto).
  specialize (Hk (Z.land cur setLsb)).
  set (ci := get_index _ _) in *. rewrite (Z.rem_mod_nonneg ci) by lia.
  pose proof (Z.mod_pos_bound ci 128 ltac:(lia)) as Hci.
  destruct (Z.ltb_spec (i - 1 - ci) 128).
  2: { rewrite Hp. simpl. eexists _, _, _, prev. split; [done |].
       rewrite threshold_eq. split_and!; auto; lia. }
  destruct (lookup_lt_is_Some_2 (storedValues s) (Z.to_nat (ci mod 128))) as [v Hv]; [lia |].
  rewrite Hv. simpl.
  destruct (Z.ltb_spec threshold (ctz ctz0 (Z.lxor cur v))).
  - eexists _, _, _, v. split; [done |]. rewrite (Z.lxor_comm v).
    split_and!; auto; try lia. eapply Forall_lookup_1; eauto.
  - rewrite Hp. simpl. eexists _, _, _, prev. split; [done |]. split_and!; auto; lia.
Qed.

(** The decoder after it has read value [cur]. *)
Definition dec_next (d : dec) (i cur : Z) (r : BitReader) (lz : Z) : dec :=
  {| d_r := r; d_leading := lz;
     d_stored := <[Z.to_nat (Z.rem i PREVIOUS_VALUES) := cur]> (d_stored d) |}.

(** A code [c] that makes the decoder produce [cur] and leaves it with a number of
    leading zeros that the encoder's [lz'] may rely on. *)
Definition codes (d : dec) (i prev cur lz' : Z) (c : list bool) : Prop :=
  forall tl, reads (d_r d) (c ++ tl) ->
  exists r lz, decode_step d i prev = Some (cur, dec_next d i cur r lz) /\
    reads r tl /\ (lz' = lz \/ 24 < lz').

Section delta_codes.

Variables (ctz0 i prev cur v p : Z) (w : BitWriter) (bs : list bool).
Hypothesis Hw : writes w bs.
Hypothesis Hcap : Z.of_nat (length bs) + 69 <= 32 * bw_len w.
Hypothesis Hp : 0 <= p < 128.
Hypothesis Hcur : is_u64 cur.
Hypothesis Hv : is_u64 v.

(** A repeated value: its slot. *)
Lemma delta_zero stored tz :
  v = cur ->
  exists w' c, encode_delta w stored p (Z.lxor v cur) tz = Some (w', 65) /\
    writes w' (bs ++ c) /\ bw_len w' = bw_len w /\ (1 <= length c <= 69)%nat /\
    forall d, d_stored d !! Z.to_nat p = Some v -> codes d i prev cur 65 c.
Proof.
  intros ->. unfold encode_delta, flagZeroSize. rewrite Z.lxor_nilpotent, previousValuesLog2_eq. simpl.
  write_step. eexists _, (bits 9 p). split; [done |]. split; [done |]. split; [lia |].
  split; [rewrite length_bits; lia |]. intros d Hd tl Hr.
  unfold decode_step. rewrite previousValuesLog2_eq. change 9 with (2 + 7) in Hr.
  rewrite bits_small_app, <- app_assoc in Hr by lia.
  do 2 read_step. change (0 mod 2 ^ 2) with 0. simpl.
  destruct (read_long_reads _ _ _ _ Hr) as (r' & -> & Hr'); [lia |].
  rewrite Z.mod_small by lia. simpl. rewrite Hd. simpl.
  eexists _, _. split; [reflexivity |]. split; [done | right; lia].
Qed.

Hypothesis Hne : Z.lxor v cur <> 0.

Lemma delta_props :
  0 < Z.lxor v cur < 2 ^ 64 /\ 0 <= clz 64 (Z.lxor v cur) < 64 /\ 0 <= ctz ctz0 (Z.lxor v cur) /\
  clz 64 (Z.lxor v cur) + ctz ctz0 (Z.lxor v cur) < 64 /\
  forall lz, lz <= clz 64 (Z.lxor v cur) -> Z.lxor v cur < 2 ^ (64 - lz).
Proof.
  clear Hw Hcap. pose proof (lxor_range v cur 64 ltac:(lia) Hv Hcur).
  split; [lia |]. split; [apply clz_range; lia |]. split; [apply ctz_nonneg; lia |].
  split; [apply clz_ctz; lia |]. intros lz Hlz.
  apply Z.lt_le_trans with (2 ^ (64 - clz 64 (Z.lxor v cur))).
  - apply clz_lt. lia.
  - apply Z.pow_le_mono_r; lia.
Qed.

(** The header of a value found through [indices], as a number. *)
Lemma header_bits rep sig :
  0 <= rep < 8 -> 0 <= sig < 64 ->
  bits 18 (Z.lor (Z.lor (Z.shiftl (128 + p) 9) (Z.shiftl rep 6)) sig)
  = bits 2 1 ++ bits 16 (p * 512 + rep * 64 + sig).
Proof.
  intros Hrep Hsig. rewrite !Z.shiftl_mul_pow2 by lia.
  rewrite (lor_add_disjoint (128 + p) (rep * 2 ^ 6) 9) by lia.
  replace ((128 + p) * 2 ^ 9 + rep * 2 ^ 6) with (((128 + p) * 8 + rep) * 2 ^ 6) by lia.
  rewrite lor_add_disjoint by lia.
  rewrite <- (bits_val_app_bits 2 16) by lia. f_equal. lia.
Qed.

(** The fields the decoder takes out of it. *)
Lemma header_fields rep sig :
  0 <= rep < 8 -> 0 <= sig < 64 ->
  let t := p * 512 + rep * 64 + sig in
  Z.land (Z.shiftr t 9) (Z.shiftl 1 7 - 1) = p /\ Z.land (Z.shiftr t 6) 0x7 = rep /\
  Z.land (Z.shiftr t 0) 0x3f = sig.
Proof.
  intros Hrep Hsig t. change (Z.shiftl 1 7 - 1) with (Z.ones 7).
  change 0x7 with (Z.ones 3) at 2. change 0x3f with (Z.ones 6).
  rewrite !Z.land_ones, !Z.shiftr_div_pow2 by lia. split_and!.
  - replace t with (rep * 64 + sig + p * 2 ^ 9) by lia.
    rewrite Z.div_add, Z.div_small, Z.mod_small by lia. lia.
  - replace t with (sig + (rep + p * 8) * 2 ^ 6) by lia.
    rewrite Z.div_add, Z.div_small by lia.
    rewrite Z.add_0_l, (Z.mod_add _ _ 8), Z.mod_small by lia. done.
  - rewrite Z.div_1_r. replace t with (sig + (rep + p * 8) * 2 ^ 6) by lia.
    rewrite Z.mod_add, Z.mod_small by lia. done.
Qed.

(** A value with a similar value in the table. *)
Lemma delta_indexed stored tz :
  tz = ctz ctz0 (Z.lxor v cur) -> threshold < tz ->
  exists w' c, encode_delta w stored p (Z.lxor v cur) tz = Some (w', 65) /\
    writes w' (bs ++ c) /\ bw_len w' = bw_len w /\ (1 <= length c <= 69)%nat /\
    forall d, d_stored d !! Z.to_nat p = Some v -> codes d i prev cur 65 c.
Proof.
  intros Etz Htz. destruct delta_props as (Hx & Hlz & Hct & Hsum & Hlt).
  set (x := Z.lxor v cur) in *. rewrite threshold_eq in Htz.
  unfold encode_delta. rewrite (proj2 (Z.eqb_neq _ _) Hne).
  destruct (tables_ok (clz 64 x) Hlz) as (lz & j & E1 & E2 & E3 & Hl & Hl24 & Hj).
  rewrite E1. simpl. rewrite E2. simpl.
  rewrite threshold_eq. replace (13 <? tz) with true by (symmetry; apply Z.ltb_lt; lia).
  unfold flagOneSize. rewrite previousValuesLog2_eq. change (7 + 11) with 18.
  set (sig := 64 - lz - tz). unfold PREVIOUS_VALUES. write_step.
  destruct (write_long_writes _ _ (Z.shiftr (i64 x) tz) sig Hw) as (w2 & -> & Hw2 & L2);
    [lia | rewrite length_app, length_bits; lia |]. simpl.
  rewrite header_bits, <- app_assoc in Hw2 by lia.
  eexists _, _. split; [done |]. split; [exact Hw2 |]. split; [lia |].
  split; [rewrite !length_app, !length_bits; lia |]. intros d Hd tl Hr.
  rewrite <- !app_assoc in Hr. unfold decode_step. do 2 read_step. simpl.
  unfold initialFill. rewrite previousValuesLog2_eq. change (7 + 9) with 16.
  set (t := p * 512 + j * 64 + sig) in *. do 2 read_step. rewrite (Z.mod_small t) by lia.
  change (16 - 7) with 9. change (9 - 3) with 6. change (6 - 6) with 0.
  destruct (header_fields j sig) as (F1 & F2 & F3); [lia | lia |].
  fold t in F1, F2, F3. rewrite F1, F2, F3.
  rewrite E3. simpl. replace (sig =? 0) with false by (symmetry; apply Z.eqb_neq; lia).
  replace (64 - sig - lz) with tz by lia.
  rewrite assert_true by (apply andb_true_iff; split; [apply Z.leb_le | apply Z.ltb_lt]; lia). simpl.
  destruct (read_long_reads _ _ _ _ Hr) as (r' & -> & Hr'); [lia |]. simpl. rewrite Hd. simpl.
  eexists r', lz. split; [| split; [done | right; lia]].
  assert (shl64 (Z.shiftr (i64 x) tz mod 2 ^ sig) tz = x) as ->.
  { apply Z.bits_inj'. intros k Hk. rewrite testbit_shl64, testbit_mod by lia.
    destruct (Z.ltb_spec k tz).
    - rewrite (Z.testbit_neg_r _ (k - tz)), !andb_false_r by lia. symmetry.
      rewrite <- (ctz_shift ctz0 x tz) by lia. apply Z.mul_pow2_bits_low. lia.
    - rewrite Z.shiftr_spec by lia. replace (k - tz + tz) with k by lia.
      destruct (Z.ltb_spec k 64); simpl.
      + rewrite testbit_i64 by lia. destruct (Z.ltb_spec (k - tz) sig); simpl; [done |].
        symmetry. apply (testbit_small x (64 - lz)); [split; [lia |]; apply Hlt; lia | lia].
      + symmetry. apply (testbit_small x 64); lia. }
  unfold x. rewrite lxor_cancel. done.
Qed.

(** Reading back the difference with the previous value. *)
Lemma read_difference r lz tl :
  v = prev -> lz <= clz 64 (Z.lxor v cur) -> 0 <= lz <= 24 ->
  reads r (bits (64 - lz) (Z.lxor v cur) ++ tl) ->
  exists r', read_long r (u64 (64 - lz)) = Some (Z.lxor v cur, r') /\ reads r' tl /\
    Z.lxor prev (Z.lxor v cur) = cur.
Proof.
  intros <- Hlz Hl Hr. destruct delta_props as (Hx & _ & _ & _ & Hlt).
  rewrite u64_id by (unfold is_u64; lia).
  destruct (read_long_reads _ _ _ _ Hr) as (r' & -> & Hr'); [lia |].
  rewrite Z.mod_small by (split; [lia | by apply Hlt]).
  exists r'. split; [done |]. split; [done |]. apply lxor_cancel.
Qed.

(** A value stored against the previous one. *)
Lemma delta_last stored tz :
  v = prev -> tz <= threshold ->
  exists w' lz' c, encode_delta w stored p (Z.lxor v cur) tz = Some (w', lz') /\
    writes w' (bs ++ c) /\ bw_len w' = bw_len w /\ (1 <= length c <= 69)%nat /\
    forall d, (stored = d_leading d \/ 24 < stored) -> codes d i prev cur lz' c.
Proof.
  intros Hprev Htz. destruct delta_props as (Hx & Hlz & _ & _ & _).
  unfold encode_delta. rewrite (proj2 (Z.eqb_neq _ _) Hne).
  destruct (tables_ok _ Hlz) as (lz & j & E1 & E2 & E3 & Hl & Hl24 & Hj).
  rewrite E1. simpl. rewrite E2. simpl.
  replace (threshold <? tz) with false by (symmetry; apply Z.ltb_ge; lia).
  destruct (Z.eqb_spec lz stored) as [<- | Hneq].
  - write_step.
    destruct (write_long_writes _ _ (Z.lxor v cur) (64 - lz) Hw) as (w2 & -> & Hw2 & L2);
      [lia | rewrite length_app, length_bits; lia |]. simpl. rewrite <- app_assoc in Hw2.
    eexists _, _, _. split; [done |]. split; [exact Hw2 |]. split; [lia |].
    split; [rewrite !length_app, !length_bits; lia |]. intros d [Hd | Hd] tl Hr; [| lia].
    rewrite <- app_assoc in Hr. unfold decode_step. do 2 read_step. simpl. rewrite <- Hd.
    edestruct read_difference as (r' & -> & Hr' & Hxor); [exact Hprev | | | exact Hr |]; [lia | lia |].
    simpl. rewrite Hxor. eexists _, _. split; [done |]. auto.
  - change (Z.lor (Z.shiftl 3 3) j) with (Z.lor (3 * 2 ^ 3) j).
    rewrite lor_add_disjoint by lia. write_step.
    destruct (write_long_writes _ _ (Z.lxor v cur) (64 - lz) Hw) as (w2 & -> & Hw2 & L2);
      [lia | rewrite length_app, length_bits; lia |]. simpl.
    change 5 with (2 + 3) in Hw2. rewrite bits_val_app_bits, <- !app_assoc in Hw2 by lia.
    eexists _, _, _. split; [done |]. split; [exact Hw2 |]. split; [lia |].
    split; [rewrite !length_app, !length_bits; lia |]. intros d _ tl Hr.
    rewrite <- !app_assoc in Hr. unfold decode_step. do 2 read_step. simpl. do 2 read_step.
    rewrite Z.mod_small by lia. rewrite E3. simpl.
    edestruct read_difference as (r' & -> & Hr' & Hxor); [exact Hprev | | | exact Hr |]; [lia | lia |].
    simpl. rewrite Hxor. eexists _, _. split; [done |]. auto.
Qed.

End delta_codes.

(** Whatever the branch. *)
Lemma encode_delta_codes ctz0 s i prev cur bs p delta tz v :
  writes (e_w s) bs -> Z.of_nat (length bs) + 69 <= 32 * bw_len (e_w s) ->
  is_u64 cur -> is_u64 v -> 0 <= p < 128 -> delta = Z.lxor v cur ->
  storedValues s !! Z.to_nat p = Some v ->
  (threshold < tz -> tz = ctz ctz0 delta) -> (tz <= threshold -> v = prev) ->
  exists w' lz' c, encode_delta (e_w s) (storedLeadingZeros s) p delta tz = Some (w', lz') /\
    writes w' (bs ++ c) /\ bw_len w' = bw_len (e_w s) /\ (1 <= length c <= 69)%nat /\
    forall d, sim s d -> codes d i prev cur lz' c.
Proof.
  intros Hw Hcap Hc Hv Hp -> Hlook Hbig Hsmall.
  destruct (Z.eq_dec (Z.lxor v cur) 0) as [E0 | Hne].
  { apply Z.lxor_eq in E0.
    destruct (delta_zero i prev cur v p _ _ Hw Hcap Hp Hv (storedLeadingZeros s) tz E0)
      as (w' & c & E & H1 & H2 & H3 & H4).
    exists w', 65, c. split; [exact E |]. split; [done |]. split; [done |]. split; [done |].
    intros d [Hd _]. apply H4. by rewrite <- Hd. }
  destruct (Z.lt_ge_cases threshold tz) as [Ht | Ht].
  - destruct (delta_indexed ctz0 i prev cur v p _ _ Hw Hcap Hp Hc Hv Hne (storedLeadingZeros s) tz
                (Hbig Ht) Ht) as (w' & c & E & H1 & H2 & H3 & H4).
    exists w', 65, c. split; [exact E |]. split; [done |]. split; [done |]. split; [done |].
    intros d [Hd _]. apply H4. by rewrite <- Hd.
  - destruct (delta_last ctz0 i prev cur v p _ _ Hw Hcap Hc Hv Hne (storedLeadingZeros s) tz
                (Hsmall Ht) Ht) as (w' & lz' & c & E & H1 & H2 & H3 & H4).
    exists w', lz', c. split; [exact E |]. split; [done |]. split; [done |]. split; [done |].
    intros d [_ Hd]. by apply H4.
Qed.

Lemma encode_step_sim ctz0 s i prev cur bs :
  enc_ok s i prev -> writes (e_w s) bs -> is_u64 cur ->
  Z.of_nat (length bs) + 69 <= 32 * bw_len (e_w s) ->
  exists s' c, encode_step ctz0 s cur = Some s' /\ writes (e_w s') (bs ++ c) /\
    bw_len (e_w s') = bw_len (e_w s) /\ (1 <= length c <= 69)%nat /\ enc_ok s' (i + 1) cur /\
    forall d tl, sim s d -> reads (d_r d) (c ++ tl) ->
      exists d', decode_step d i prev = Some (cur, d') /\ sim s' d' /\ reads (d_r d') tl.
Proof.
  intros Hok Hw Hcur Hcap.
  destruct (choose_spec ctz0 s i prev cur Hok) as (p & delta & tz & v & E & Hp & Hlk & Hv & Hd & Hb & Hs).
  destruct (encode_delta_codes ctz0 s i prev cur bs p delta tz v) as (w' & lz' & c & E2 & Hw' & L & Hlc & Hdec);
    auto.
  unfold encode_step. rewrite E. simpl. rewrite E2. simpl.
  destruct Hok as [H1 H2 H3 H4 H5 H6 H7]. unfold PREVIOUS_VALUES.
  assert (Z.rem (current s + 1) 128 = i mod 128) as Ec.
  { pose proof (Z.mod_pos_bound (i - 1) 128 ltac:(lia)).
    rewrite Z.rem_mod_nonneg, H5, Z.add_mod_idemp_l by lia. f_equal. lia. }
  pose proof (Z.mod_pos_bound i 128 ltac:(lia)) as Hi. rewrite Ec.
  eexists _, c. split; [done |]. simpl. split; [done |]. split; [done |]. split; [done |]. split.
  - split; simpl; rewrite ?length_insert, ?Z.add_simpl_r; auto; try lia.
    + by apply Forall_insert.
    + apply list_lookup_insert_eq. lia.
    + intros k. unfold get_index. rewrite lookup_insert. case_decide; simpl; [lia | apply H7].
  - intros d tl Hsim Hr. destruct (Hdec d Hsim tl Hr) as (r & lz & Ed & Hr' & Hlz).
    eexists. split; [exact Ed |]. split; [| done]. destruct Hsim as [Hst _].
    split; simpl; [| done]. unfold PREVIOUS_VALUES. rewrite Hst, (Z.rem_mod_nonneg i) by lia. done.
Qed.

Lemma encode_loop_sim ctz0 l : forall s i prev bs,
  enc_ok s i prev -> writes (e_w s) bs -> Forall is_u64 l ->
  Z.of_nat (length bs) + 69 * Z.of_nat (length l) <= 32 * bw_len (e_w s) ->
  exists s' c, encode_loop ctz0 s l = Some s' /\ writes (e_w s') (bs ++ c) /\
    bw_len (e_w s') = bw_len (e_w s) /\ (length l <= length c <= 69 * length l)%nat /\
    forall d tl, sim s d -> reads (d_r d) (c ++ tl) -> decode_loop (length l) d i prev = Some l.
Proof.
  induction l as [| cur l IH]; intros s i prev bs Hok Hw Hl Hcap.
  { exists s, []. rewrite app_nil_r. split_and!; auto; simpl; lia. }
  apply Forall_cons_iff in Hl as [Hc Hl]. cbn [length] in Hcap.
  destruct (encode_step_sim ctz0 s i prev cur bs) as (s1 & c1 & E1 & Hw1 & L1 & Hlc & Hok1 & Hd1);
    auto; [lia |].
  destruct (IH s1 (i + 1) cur _ Hok1 Hw1 Hl) as (s2 & c2 & E2 & Hw2 & L2 & Hlc2 & Hd2).
  { rewrite length_app, L1. lia. }
  exists s2, (c1 ++ c2). simpl. rewrite E1. simpl. rewrite app_assoc, length_app.
  split_and!; auto; try lia. intros d tl Hs Hr. rewrite <- app_assoc in Hr.
  destruct (Hd1 d _ Hs Hr) as (d' & -> & Hs' & Hr'). simpl. by rewrite (Hd2 d' tl Hs' Hr').
Qed.

(** ** The codec *)

(** The bytes that the encoder allocates for [len] values. *)
Definition allocated (len : Z) : Z := 4 + SIZE_IN_BIT ((1 + 1 + 5 + 6 + 64) * len) * 4.

(** What the encoder leaves in memory, and that the decoder's loop reads it.  The size is
    exact as long as the allocation is below 2 GiB. *)
Lemma chimp_encode_format ctz0 key0 first rest :
  Forall is_u64 (first :: rest) ->
  let len := Z.of_nat (length (first :: rest)) in
  allocated len < 2 ^ 31 ->
  exists ws c, chimp_encode ctz0 key0 (first :: rest) =
      Some (4 * Z.of_nat (length ws) + 12,
            le_bytes 4 len ++ le_bytes 8 first ++ store_array 4 ws) /\
    zeq (word_bits ws) c /\ Forall is_u32 ws /\
    Z.of_nat (length ws) = (Z.of_nat (length c) + 31) / 32 /\
    (length rest <= length c)%nat /\ Z.of_nat (length ws) <= SIZE_IN_BIT (77 * len) - 2 /\
    forall d, reads (d_r d) c -> d_leading d = INT32_MAX ->
      d_stored d = <[0%nat := first]> (replicate 128 0) ->
      decode_loop (length rest) d 1 first = Some rest.
Proof.
  intros Hin len. apply Forall_cons_iff in Hin as [Hf Hr]. unfold chimp_encode, allocated.
  intros Hall. fold len. assert (1 <= len) by (subst len; simpl; lia).
  rewrite (assert_true (0 <? _)) by (apply Z.ltb_lt; lia). cbn [mbind option_bind lookup list_lookup tail].
  change (1 + 1 + 5 + 6 + 64) with 77 in *. rewrite Z.div_mul by lia. unfold SIZE_IN_BIT in *.
  pose proof (Z.div_mod (77 * len + 31) 32 ltac:(lia)) as Hdm.
  pose proof (Z.mod_pos_bound (77 * len + 31) 32 ltac:(lia)) as Hm.
  set (n := (77 * len + 31) / 32) in *.
  destruct (init_ok (n - 2)) as (w & -> & Hw & Hn); [lia |]. cbn [mbind option_bind].
  rewrite assert_true by (apply Z.leb_le; unfold INT32_MAX; lia). cbn [mbind option_bind].
  set (s0 := {| e_w := w |}).
  assert (enc_ok s0 1 first) as Hok.
  { unfold s0. split; cbn [storedValues index current indices]; try done.
    - apply Forall_insert; [apply Forall_replicate; done | done].
    - intros k. unfold get_index. rewrite lookup_insert. by case_decide. }
  destruct (encode_loop_sim ctz0 rest s0 1 first [] Hok Hw Hr)
    as (s & c & -> & Hs & L & Hlc & Hdec).
  { simpl. subst len. simpl in *. lia. }
  cbn [mbind option_bind]. simpl in Hs, L.
  destruct (flush_writes _ _ Hs) as (w' & -> & Hz & Hu & Hc & Hc').
  { subst len. simpl in *. lia. }
  assert (bw_cursor w' <= n - 2) as Hcap.
  { rewrite Hc'. apply Z.lt_succ_r, Z.div_lt_upper_bound; [lia |]. subst len. simpl in *. lia. }
  cbn [mbind option_bind fst snd].
  rewrite i32_id, int_of_ok by (unfold is_i32; lia). cbn [mbind option_bind].
  exists (bw_output w'), c. rewrite <- Hc. split; [do 2 f_equal; lia |]. split; [done |].
  split; [done |]. split; [done |]. split; [lia |]. split; [done |].
  - intros d Hd1 Hd2 Hd3. apply (Hdec d []).
    + split; simpl; [by rewrite Hd3 | left; by rewrite Hd2].
    + by rewrite app_nil_r.
Qed.

(** C14: every sequence of at least two doubles whose output buffer is smaller than 2 GiB
    (up to 223 million values: the size is computed in [int]) is encoded without overrunning
    the buffer, the size returned is that of the bytes written, and they are decoded to the
    sequence, bit for bit, whatever [__builtin_ctzl] gives at zero and wherever the undefined
    conversion of the first value points. *)
Theorem chimp_roundtrip ctz0 key0 input :
  (2 <= length input)%nat -> allocated (Z.of_nat (length input)) < 2 ^ 31 ->
  Forall is_u64 input ->
  exists osize out, chimp_encode ctz0 key0 input = Some (osize, out) /\
    osize = Z.of_nat (length out) /\ chimp_decode out osize = Some input.
Proof.
  intros Hlen Hall Hin. destruct input as [| first rest]; [simpl in Hlen; lia |].
  destruct (chimp_encode_format ctz0 key0 first rest Hin Hall)
    as (ws & c & E & Hz & Hu & Hws & Hlc & _ & Hdec).
  do 2 eexists. split; [exact E |].
  split; [rewrite !length_app, !length_le_bytes, length_store_array; lia |].
  apply Forall_cons_iff in Hin as [Hf Hr].
  unfold chimp_decode. set (len := Z.of_nat (length (first :: rest))) in *.
  pose proof (xor_container_len len ltac:(lia) Hall).
  destruct (xor_container_loads len first ws) as (E1 & E2 & EL & Ews); [lia | done | done |].
  set (out := _ ++ _) in *.
  replace (4 * Z.of_nat (length ws) + 12 - 12) with (Z.of_nat (length ws) * 4) by lia.
  rewrite Z.mod_mul, Z.div_mul, (assert_true (0 =? 0)) by (done || lia).
  cbn [mbind option_bind]. rewrite E1, E2. cbn [mbind option_bind]. rewrite Ews.
  cbn [mbind option_bind].
  assert (ws <> []) as Hne.
  { intros ->. simpl in Hws, Hlen. symmetry in Hws. apply Z.div_small_iff in Hws; lia. }
  destruct (init_reads ws _ Hu Hz Hne) as (r & -> & Hrd). cbn [mbind option_bind].
  rewrite assert_true by (apply Z.leb_le; unfold INT32_MAX; lia). cbn [mbind option_bind].
  replace (Z.to_nat (len - 1)) with (length rest) by (subst len; simpl; lia).
  by rewrite Hdec.
Qed.

Lemma chimp_roundtrip_witness :
  exists osize out, chimp_encode 64 0 [0x4028000000000000; 0x4028000000000000;
                                       0x4038000000000000; 0x402f000000000000] = Some (osize, out) /\
    osize = Z.of_nat (length out) /\
    chimp_decode out osize
    = Some [0x4028000000000000; 0x4028000000000000; 0x4038000000000000; 0x402f000000000000].
Proof.
  apply (chimp_roundtrip 64 0); [simpl; lia | vm_compute; reflexivity |].
  repeat constructor; unfold is_u64; lia.
Defined.

End Chimp.
