(* ===== verification/Float64.v ===== *)
(** * Float64: the double of C++

    A [double] is its 64-bit pattern, because the codecs copy, compare and store the
    patterns.  Arithmetic decodes the patterns to the IEEE-754 binary64 specification of
    the Standard Library ([SpecFloat], precision 53, exponent bound 1024, rounding to
    nearest even) and encodes the result.  [SpecFloat] has a single NaN, encoded as the
    default quiet NaN: a NaN produced by an operation has no modelled payload, a NaN that
    is only copied keeps its pattern. *)

From Stdlib Require Import ZArith Lia.
From Stdlib Require Import SpecFloat.
From S2P Require Import Prelude Bits.

Definition prec : Z := 53.
Definition emax : Z := 1024.

(** The value a pattern denotes. *)
Definition f64_of_bits (b : Z) : spec_float :=
  let s := Z.testbit b 63 in
  let e := (b / 2 ^ 52) mod 2 ^ 11 in
  let m := b mod 2 ^ 52 in
  if e =? 0 then
    match m with
    | Zpos p => S754_finite s p (-1074)
    | _ => S754_zero s
    end
  else if e =? 2047 then
    (if m =? 0 then S754_infinity s else S754_nan)
  else
    match m + 2 ^ 52 with
    | Zpos p => S754_finite s p (e - 1075)
    | _ => S754_nan
    end.

Definition sign_bit (s : bool) : Z := if s then 2 ^ 63 else 0.

Definition f64_nan : Z := 0x7ff8000000000000.

Definition f64_to_bits (f : spec_float) : Z :=
  match f with
  | S754_zero s => sign_bit s
  | S754_infinity s => sign_bit s + 0x7ff0000000000000
  | S754_nan => f64_nan
  | S754_finite s m e =>
      if Zpos m <? 2 ^ 52 then sign_bit s + Zpos m
      else sign_bit s + (e + 1075) * 2 ^ 52 + (Zpos m - 2 ^ 52)
  end.

Definition f64_is_nan (b : Z) : bool :=
  match f64_of_bits b with S754_nan => true | _ => false end.

Definition f64_lift1 (f : spec_float -> spec_float) (a : Z) : Z :=
  f64_to_bits (f (f64_of_bits a)).
Definition f64_lift2 (f : spec_float -> spec_float -> spec_float) (a b : Z) : Z :=
  f64_to_bits (f (f64_of_bits a) (f64_of_bits b)).

Definition f64_add : Z -> Z -> Z := f64_lift2 (SFadd prec emax).
Definition f64_sub : Z -> Z -> Z := f64_lift2 (SFsub prec emax).
Definition f64_mul : Z -> Z -> Z := f64_lift2 (SFmul prec emax).
Definition f64_div : Z -> Z -> Z := f64_lift2 (SFdiv prec emax).

(** [fabs] clears the sign bit of the pattern. *)
Definition f64_abs (a : Z) : Z := Z.land a (2 ^ 63 - 1).
(** Unary minus flips it. *)
Definition f64_neg (a : Z) : Z := Z.lxor a (2 ^ 63).

Definition f64_ltb (a b : Z) : bool := SFltb (f64_of_bits a) (f64_of_bits b).
Definition f64_leb (a b : Z) : bool := SFleb (f64_of_bits a) (f64_of_bits b).
Definition f64_eqb (a b : Z) : bool := SFeqb (f64_of_bits a) (f64_of_bits b).

(** Conversion of an integer to [double]. *)
Definition f64_of_Z (z : Z) : Z := f64_to_bits (binary_normalize prec emax z 0 false).

(** Truncation towards zero, [None] for an infinity or a NaN. *)
Definition f64_trunc (a : Z) : option Z :=
  match f64_of_bits a with
  | S754_zero _ => Some 0
  | S754_finite s m e =>
      let t := if 0 <=? e then Zpos m * 2 ^ e else Zpos m / 2 ^ (- e) in
      Some (if s then - t else t)
  | _ => None
  end.

(** [static_cast<intw_t>] of a double.  Out of range the conversion is undefined in
    C++; the x86-64 instruction the build emits gives the least integer. *)
Definition f64_to_int (w : Z) (a : Z) : Z :=
  match f64_trunc a with
  | Some z => if (- 2 ^ (w - 1) <=? z) && (z <? 2 ^ (w - 1)) then z else - 2 ^ (w - 1)
  | None => - 2 ^ (w - 1)
  end.

Definition f64_to_i32 : Z -> Z := f64_to_int 32.
Definition f64_to_i64 : Z -> Z := f64_to_int 64.

(** The integral value of a finite double rounded by [rnd] of its fraction: [floor],
    [ceil] and [round] of the C library. *)
Definition f64_integral (rnd : bool -> positive -> Z -> Z) (a : Z) : Z :=
  match f64_of_bits a with
  | S754_finite s m e =>
      if 0 <=? e then a
      else
        let r := rnd s m (- e) in
        if r =? 0 then sign_bit s else f64_of_Z (if s then - r else r)
  | _ => a
  end.

(** Each works on the magnitude [m / 2^k] of a number of sign [s]. *)
Definition f64_floor : Z -> Z :=
  f64_integral (fun s m k => if s then - (- Zpos m / 2 ^ k) else Zpos m / 2 ^ k).
Definition f64_ceil : Z -> Z :=
  f64_integral (fun s m k => if s then Zpos m / 2 ^ k else - (- Zpos m / 2 ^ k)).
Definition f64_round : Z -> Z :=
  f64_integral (fun s m k => (2 * Zpos m + 2 ^ k) / (2 * 2 ^ k)).

(** ** Laws *)

Lemma SFmul_comm p e x y : SFmul p e x y = SFmul p e y x.
Proof.
  destruct x as [s | s | | s m k], y as [t | t | | t n l]; simpl; auto;
    rewrite (xorb_comm s t); auto.
  by rewrite Pos.mul_comm, (Z.add_comm k l).
Qed.

Lemma f64_mul_comm a b : f64_mul a b = f64_mul b a.
Proof. unfold f64_mul, f64_lift2. by rewrite SFmul_comm. Qed.

Lemma f64_to_int_range w a : 0 < w -> - 2 ^ (w - 1) <= f64_to_int w a < 2 ^ (w - 1).
Proof.
  intros Hw. unfold f64_to_int. destruct (f64_trunc a) as [z |]; [| lia].
  destruct (_ && _) eqn:E; to_prop; lia.
Qed.

Lemma f64_to_i32_range a : is_i32 (f64_to_i32 a).
Proof. apply (f64_to_int_range 32). lia. Qed.

(** The pattern of a number that is not a NaN is determined by its value. *)
Lemma f64_bits_roundtrip b :
  is_u64 b -> f64_is_nan b = false -> f64_to_bits (f64_of_bits b) = b.
Proof.
  intros Hb. unfold is_u64 in Hb.
  pose proof (Z.mod_pos_bound b (2 ^ 52) ltac:(lia)) as Hm.
  pose proof (Z.mod_pos_bound (b / 2 ^ 52) (2 ^ 11) ltac:(lia)) as He.
  assert (b = sign_bit (Z.testbit b 63) + (b / 2 ^ 52) mod 2 ^ 11 * 2 ^ 52 + b mod 2 ^ 52) as E.
  { pose proof (Z.div_mod b (2 ^ 52) ltac:(lia)).
    pose proof (Z.div_mod (b / 2 ^ 52) (2 ^ 11) ltac:(lia)) as H2.
    rewrite Z.div_div in H2 by lia. change (2 ^ 52 * 2 ^ 11) with (2 ^ 63) in H2.
    pose proof (Z.testbit_spec' b 63 ltac:(lia)) as T.
    rewrite (Z.mod_small (b / 2 ^ 63)) in T
      by (split; [apply Z.div_pos; lia | apply Z.div_lt_upper_bound; lia]).
    unfold sign_bit. destruct (Z.testbit b 63); simpl Z.b2z in T; lia. }
  unfold f64_is_nan, f64_of_bits.
  set (s := Z.testbit b 63) in *. set (e := (b / 2 ^ 52) mod 2 ^ 11) in *. set (m := b mod 2 ^ 52) in *.
  clearbody s e m. destruct (Z.eqb_spec e 0) as [E0 | E0].
  - destruct m as [| p | p] eqn:Em; [| | lia]; cbn [f64_to_bits]; intros _; [lia |].
    replace (Zpos p <? 2 ^ 52) with true by (symmetry; apply Z.ltb_lt; lia). lia.
  - destruct (Z.eqb_spec e 2047) as [E1 | E1].
    + destruct (Z.eqb_spec m 0); [| done]. intros _. cbn [f64_to_bits]. lia.
    + destruct (m + 2 ^ 52) as [| p | p] eqn:Em; [lia | | lia]. intros _. cbn [f64_to_bits].
      replace (Zpos p <? 2 ^ 52) with false by (symmetry; apply Z.ltb_ge; lia). lia.
Qed.

(** The strict order is asymmetric, hence irreflexive. *)
Lemma SFltb_asym x y : SFltb x y = true -> SFltb y x = false.
Proof.
  assert (forall m n, Pos.compare_cont Eq n m = CompOpp (Pos.compare_cont Eq m n)) as H.
  { intros m n. exact (Pos.compare_antisym m n). }
  unfold SFltb, SFcompare.
  destruct x as [s | s | | s m e], y as [t | t | | t n k]; try destruct s; try destruct t; try done;
    rewrite (Z.compare_antisym e k); destruct (e ?= k); simpl; try done;
    rewrite (H m n); by destruct (Pos.compare_cont Eq m n).
Qed.

Lemma f64_ltb_asym a b : f64_ltb a b = true -> f64_ltb b a = false.
Proof. apply SFltb_asym. Qed.

Lemma f64_ltb_irrefl a : f64_ltb a a = false.
Proof. destruct (f64_ltb a a) eqn:E; [| done]. by rewrite (f64_ltb_asym a a E) in E. Qed.

(** The order of numbers as the lexicographic order of triples: the class, then the
    exponent, then the mantissa. *)
Definition f64_rank (x : spec_float) : Z * Z * Z :=
  match x with
  | S754_zero _ => (0, 0, 0)
  | S754_infinity s => (if s then -2 else 2, 0, 0)
  | S754_nan => (0, 0, 0)
  | S754_finite s m e => if s then (-1, - e, - Zpos m) else (1, e, Zpos m)
  end.

Definition lex_lt (a b : Z * Z * Z) : Prop :=
  a.1.1 < b.1.1 \/ (a.1.1 = b.1.1 /\ (a.1.2 < b.1.2 \/ (a.1.2 = b.1.2 /\ a.2 < b.2))).

Lemma SFcompare_rank x y :
  match SFcompare x y with
  | None => x = S754_nan \/ y = S754_nan
  | Some Lt => lex_lt (f64_rank x) (f64_rank y)
  | Some Eq => f64_rank x = f64_rank y
  | Some Gt => lex_lt (f64_rank y) (f64_rank x)
  end.
Proof.
  unfold lex_lt. destruct x as [s | s | | s m e], y as [t | t | | t n k]; try destruct s; try destruct t; simpl;
    try (by auto); try lia.
  - destruct (Z.compare_spec e k); simpl; try lia. change (Pos.compare_cont Eq m n) with (Pos.compare m n).
    destruct (Pos.compare_spec m n); simpl; subst; try lia; auto.
  - destruct (Z.compare_spec e k); simpl; try lia. change (Pos.compare_cont Eq m n) with (Pos.compare m n).
    destruct (Pos.compare_spec m n); simpl; subst; try lia; auto.
Qed.

(** A bound that holds for the lesser of two numbers holds for the greater. *)
Lemma f64_ltb_weaken a b x : f64_leb a b = true -> f64_ltb a x = false -> f64_ltb b x = false.
Proof.
  unfold f64_leb, f64_ltb, SFleb, SFltb. intros Hab Hax.
  pose proof (SFcompare_rank (f64_of_bits a) (f64_of_bits b)) as H1.
  pose proof (SFcompare_rank (f64_of_bits a) (f64_of_bits x)) as H2.
  pose proof (SFcompare_rank (f64_of_bits b) (f64_of_bits x)) as H3.
  destruct (SFcompare (f64_of_bits b) (f64_of_bits x)) as [[] |] eqn:Ebx; try done.
  destruct (SFcompare (f64_of_bits a) (f64_of_bits b)) as [[] |] eqn:Eab; try done;
    destruct (SFcompare (f64_of_bits a) (f64_of_bits x)) as [[] |] eqn:Eax; try done; unfold lex_lt in *.
  all: try (rewrite ?H1, ?H2 in *; lia).
  all: destruct H2 as [E | E]; rewrite E in *; [done | by destruct (f64_of_bits b)].
Qed.
