(* ===== verification/Float32.v ===== *)
(** * Float32: the float of C++

    A [float] is its 32-bit pattern, as a [double] is its 64-bit pattern in [Float64]: precision
    24, exponent bound 128.  The regression of SZ3 keeps its coefficients as [float]s, next to
    data that are [double]s, so that the conversions between the two are modelled as well. *)

From Stdlib Require Import ZArith Lia.
From Stdlib Require Import SpecFloat.
From S2P Require Import Prelude Float64.

Definition f32_of_bits (b : Z) : spec_float :=
  let s := Z.testbit b 31 in
  let e := (b / 2 ^ 23) mod 2 ^ 8 in
  let m := b mod 2 ^ 23 in
  if e =? 0 then
    match m with
    | Zpos p => S754_finite s p (-149)
    | _ => S754_zero s
    end
  else if e =? 255 then
    (if m =? 0 then S754_infinity s else S754_nan)
  else
    match m + 2 ^ 23 with
    | Zpos p => S754_finite s p (e - 150)
    | _ => S754_nan
    end.

Definition f32_sign (s : bool) : Z := if s then 2 ^ 31 else 0.

Definition f32_to_bits (f : spec_float) : Z :=
  u32 match f with
      | S754_zero s => f32_sign s
      | S754_infinity s => f32_sign s + 0x7f800000
      | S754_nan => 0x7fc00000
      | S754_finite s m e =>
          if Zpos m <? 2 ^ 23 then f32_sign s + Zpos m
          else f32_sign s + (e + 150) * 2 ^ 23 + (Zpos m - 2 ^ 23)
      end.

Lemma f32_range f : is_u32 (f32_to_bits f).
Proof. apply u32_range. Qed.
#[export] Hint Resolve f32_range : core.

Definition f32_lift2 (f : spec_float -> spec_float -> spec_float) (a b : Z) : Z :=
  f32_to_bits (f (f32_of_bits a) (f32_of_bits b)).

Definition f32_add : Z -> Z -> Z := f32_lift2 (SFadd 24 128).
Definition f32_sub : Z -> Z -> Z := f32_lift2 (SFsub 24 128).
Definition f32_mul : Z -> Z -> Z := f32_lift2 (SFmul 24 128).
Definition f32_div : Z -> Z -> Z := f32_lift2 (SFdiv 24 128).

(** Comparisons, which no NaN satisfies. *)
Definition f32_ltb (a b : Z) : bool := SFltb (f32_of_bits a) (f32_of_bits b).
Definition f32_leb (a b : Z) : bool := SFleb (f32_of_bits a) (f32_of_bits b).

Definition f32_is_nan (a : Z) : bool :=
  match f32_of_bits a with S754_nan => true | _ => false end.

(** Conversion of an integer. *)
Definition f32_of_Z (z : Z) : Z := f32_to_bits (binary_normalize 24 128 z 0 false).

(** Conversions from and to [double]. *)
Definition f32_of_f64 (a : Z) : Z :=
  f32_to_bits
    match f64_of_bits a with
    | S754_finite s m e => binary_normalize 24 128 (if s then Zneg m else Zpos m) e s
    | x => x
    end.

Definition f64_of_f32 (a : Z) : Z :=
  f64_to_bits
    match f32_of_bits a with
    | S754_finite s m e => binary_normalize prec emax (if s then Zneg m else Zpos m) e s
    | x => x
    end.

(** 0.1 as [double] and as [float]; 2.0f times 1.5f; the greatest [double] is no [float]. *)
Example f32_conversions :
  f32_of_f64 0x3fb999999999999a = 0x3dcccccd /\ f64_of_f32 0x3dcccccd = 0x3fb99999a0000000 /\
  f32_mul (f32_of_Z 2) 0x3fc00000 = f32_of_Z 3 /\ f32_of_f64 0x7fefffffffffffff = 0x7f800000 /\
  f64_of_f32 1 = 0x36a0000000000000 /\ f32_of_f64 0x36a0000000000000 = 1.
Proof. by vm_compute. Qed.
