(* ===== verification/SzSmawk.v ===== *)
(** * SzSmawk: the minima of the rows of a totally monotone matrix

    [_smawk] and [smawk] of [utils/KmeansUtil.hpp], for any type of entries, any comparisons and
    any matrix.  The matrix is a function that is asked for entries and may fail; a vector that
    is indexed out of range gives [None].  Whatever the entries and the comparisons are, the
    algorithm ends and stays inside its vectors; on a totally monotone matrix it finds the
    leftmost minimum of every row. *)

From Stdlib Require Import ZArith Lia.
From stdpp Require Import gmap sorting.
From S2P Require Import Prelude.

#[local] Open Scope nat_scope.

Module Smawk.

(** ** Rows and columns *)

Fixpoint odd_rows (rows : list nat) : list nat :=
  match rows with
  | _ :: row :: rows => row :: odd_rows rows
  | _ => []
  end.

(** [col_idx_lookup], from the index [idx] on. *)
Fixpoint index_cols (idx : nat) (_cols : list nat) (m : gmap nat nat) : gmap nat nat :=
  match _cols with
  | [] => m
  | col :: _cols => index_cols (S idx) _cols (<[col := idx]> m)
  end.

Lemma sublist_reverse {A} (l k : list A) : l `sublist_of` k -> reverse l `sublist_of` reverse k.
Proof.
  induction 1 as [| x l k _ IH | x l k _ IH]; [done | |]; rewrite ?reverse_cons.
  - by apply sublist_app.
  - by apply sublist_inserts_r.
Qed.

(** Induction two by two, as the rows are gone through. *)
Lemma pairs_ind {A} (P : list A -> Prop) :
  P [] -> (forall x, P [x]) -> (forall x y l, P l -> P (x :: y :: l)) -> forall l, P l.
Proof.
  intros H0 H1 H2 l. enough (P l /\ forall x, P (x :: l)) by tauto.
  induction l as [| y l [IH1 IH2]]; split; auto.
Qed.

Lemma odd_rows_sublist rows : odd_rows rows `sublist_of` rows.
Proof. induction rows using pairs_ind; simpl; [done | constructor; constructor | by do 2 constructor]. Qed.

Lemma odd_rows_length rows : rows <> [] -> length (odd_rows rows) < length rows.
Proof.
  induction rows as [| x | x y l IH] using pairs_ind; simpl; [done | lia |].
  destruct l; simpl in *; [lia |]. specialize (IH ltac:(done)). lia.
Qed.

Lemma index_cols_other _cols col : col ∉ _cols -> forall idx m, index_cols idx _cols m !! col = m !! col.
Proof.
  induction _cols as [| c _cols IH]; intros Hn idx m; simpl; [done |].
  rewrite IH by set_solver. apply lookup_insert_ne. set_solver.
Qed.

Lemma index_cols_lookup _cols i col : NoDup _cols -> _cols !! i = Some col ->
  forall idx m, index_cols idx _cols m !! col = Some (idx + i).
Proof.
  intros Hnd. revert i. induction Hnd as [| c _cols Hn Hnd IH]; intros i Hi idx m; [done |].
  destruct i as [| i]; simpl in *.
  - injection Hi as ->. rewrite index_cols_other by done. rewrite lookup_insert_eq. f_equal. lia.
  - rewrite (IH i Hi). f_equal. lia.
Qed.

Section algorithm.

#[local] Set Default Proof Using "All".

Context {T : Type}.
(** [operator>=] and [operator<] of the entries, which need not be complementary. *)
Context (ge lt : T -> T -> bool).
Context (lookup : nat -> nat -> option T).

(** ** Reduce *)

(** The loop that drops columns from the stack [_cols], which is kept with its back first. *)
Fixpoint pop_cols (rows : list nat) (col : nat) (_cols : list nat) : option (list nat) :=
  match _cols with
  | [] => Some []
  | back :: below =>
      row ← rows !! length below;
      value ← lookup row col;
      kept ← lookup row back;
      if ge value kept then Some _cols else pop_cols rows col below
  end.

Definition reduce_col (rows : list nat) (col : nat) (_cols : list nat) : option (list nat) :=
  _cols ← pop_cols rows col _cols;
  Some (if length _cols <? length rows then col :: _cols else _cols).

Fixpoint reduce_loop (rows cols _cols : list nat) : option (list nat) :=
  match cols with
  | [] => Some _cols
  | col :: cols => _cols ← reduce_col rows col _cols; reduce_loop rows cols _cols
  end.

Definition reduce (rows cols : list nat) : option (list nat) := reverse <$> reduce_loop rows cols [].

(** ** Interpolate *)

(** The loop over the columns with the indices [cs]. *)
Fixpoint scan_row (_cols : list nat) (row start : nat) (cs : list nat) (argmin : nat) (min : T) : option nat :=
  match cs with
  | [] => Some argmin
  | c :: cs =>
      col ← _cols !! c;
      value ← lookup row col;
      if (c =? start) || lt value min then scan_row _cols row start cs col value
      else scan_row _cols row start cs argmin min
  end.

(** The least entry of a row between two columns. *)
Definition fill_row (_cols : list nat) (row start stop : nat) : option nat :=
  argmin ← _cols !! start;
  min ← lookup row argmin;
  scan_row _cols row start (seq (start + 1) (stop - start)) argmin min.

Definition set_result (result : list nat) (row argmin : nat) : option (list nat) :=
  _ ← assert (row <? length result);
  Some (<[row := argmin]> result).

(** The loop over the rows with an even index; the index of a column that is not in the map is 0. *)
Fixpoint interpolate (_cols : list nat) (col_idx_lookup : gmap nat nat) (rows : list nat) (start : nat)
    (result : list nat) : option (list nat) :=
  match rows with
  | [] => Some result
  | [row] =>
      argmin ← fill_row _cols row start (length _cols - 1);
      set_result result row argmin
  | row :: next :: rows =>
      col ← result !! next;
      let stop := default 0 (col_idx_lookup !! col) in
      argmin ← fill_row _cols row start stop;
      result ← set_result result row argmin;
      interpolate _cols col_idx_lookup rows stop result
  end.

(** ** The recursion *)

Fixpoint _smawk (fuel : nat) (rows cols result : list nat) : option (list nat) :=
  match fuel, rows with
  | O, _ => None
  | S _, [] => Some result
  | S fuel, _ =>
      _cols ← reduce rows cols;
      result ← _smawk fuel (odd_rows rows) _cols result;
      interpolate _cols (index_cols 0 _cols ∅) rows 0 result
  end.

Definition smawk (num_rows num_cols : nat) : option (list nat) :=
  _smawk (S num_rows) (seq 0 num_rows) (seq 0 num_cols) (replicate num_rows 0).

(** ** Safety: for any entries and comparisons *)

(** The entries that may be asked for are there. *)
Definition cells (rows cols : list nat) : Prop := forall r c, r ∈ rows -> c ∈ cols -> is_Some (lookup r c).

Lemma pop_cols_safe rows col : (forall r, r ∈ rows -> is_Some (lookup r col)) -> forall _cols,
  length _cols <= length rows -> cells rows _cols ->
  exists k, pop_cols rows col _cols = Some (drop k _cols).
Proof.
  intros Hcol. induction _cols as [| back below IH]; intros Hl Hc; simpl in *; [by exists 0 |].
  destruct (lookup_lt_is_Some_2 rows (length below)) as [row Hrow]; [lia |].
  pose proof (list_elem_of_lookup_2 _ _ _ Hrow) as Hin.
  destruct (Hcol row Hin) as [v Hv], (Hc row back Hin) as [w Hw]; [set_solver |].
  rewrite Hrow. simpl. rewrite Hv. simpl. rewrite Hw. simpl. destruct (ge v w); [by exists 0 |].
  destruct IH as [k Hk]; [lia | by intros r c ??; apply Hc; set_solver |]. by exists (S k).
Qed.

Lemma reduce_col_safe rows col _cols : rows <> [] -> length _cols <= length rows -> cells rows (col :: _cols) ->
  exists kept, reduce_col rows col _cols = Some kept /\ kept <> [] /\ length kept <= length rows /\
    kept `sublist_of` col :: _cols.
Proof.
  intros Hrows Hl Hc. destruct (pop_cols_safe rows col) with _cols as [k Hk]; [| done | |].
  - intros r Hr. apply Hc; set_solver.
  - intros r c Hr Hin. apply Hc; set_solver.
  - unfold reduce_col. rewrite Hk. simpl. eexists. split; [done |].
    pose proof (sublist_drop _cols k) as Hs. pose proof (sublist_length _ _ Hs).
    destruct (Nat.ltb_spec (length (drop k _cols)) (length rows)); simpl.
    + split_and!; [done | lia | by apply sublist_skip].
    + split_and!; [| lia | by apply sublist_cons]. intros E. rewrite E in *. destruct rows; simpl in *; [done | lia].
Qed.

(** What is kept on the stack: columns, in the reverse of their order. *)
Lemma reduce_loop_safe rows : rows <> [] -> forall cols _cols,
  length _cols <= length rows -> cells rows (_cols ++ cols) -> _cols <> [] \/ cols <> [] ->
  exists kept, reduce_loop rows cols _cols = Some kept /\ kept <> [] /\ kept `sublist_of` reverse cols ++ _cols.
Proof.
  intros Hrows. induction cols as [| col cols IH]; intros _cols Hl Hc Hne; simpl.
  { exists _cols. split_and!; [done | tauto | done]. }
  destruct (reduce_col_safe rows col _cols) as (now & -> & H1 & H2 & H3); [done | done | |].
  { intros r c Hr Hin. apply Hc; set_solver. }
  simpl. destruct (IH now) as (kept & E & K1 & K2); [lia | | tauto |].
  - intros r c Hr Hin. apply Hc; [done |]. apply elem_of_app in Hin as [Hin | Hin]; [| set_solver].
    eapply elem_of_sublist in Hin; [| exact H3]. set_solver.
  - exists kept. split_and!; [done.. |]. etransitivity; [exact K2 |].
    rewrite reverse_cons, <- app_assoc. by apply sublist_app.
Qed.

Lemma reduce_safe rows cols : rows <> [] -> cols <> [] -> cells rows cols ->
  exists _cols, reduce rows cols = Some _cols /\ _cols <> [] /\ _cols `sublist_of` cols.
Proof.
  intros Hr Hne Hc. destruct (reduce_loop_safe rows Hr cols []) as (kept & E & K1 & K2);
    [simpl; lia | done | by right |].
  unfold reduce. rewrite E. eexists. split; [done |]. split.
  - intros E'. apply K1. by rewrite <- (reverse_involutive kept), E'.
  - apply sublist_reverse in K2. by rewrite app_nil_r, reverse_involutive in K2.
Qed.

Lemma scan_row_safe _cols row start : (forall c, c ∈ _cols -> is_Some (lookup row c)) -> forall cs argmin min,
  (forall c, c ∈ cs -> c < length _cols) ->
  exists a, scan_row _cols row start cs argmin min = Some a /\ (a = argmin \/ a ∈ _cols).
Proof.
  intros Hc. induction cs as [| c cs IH]; intros argmin min Hcs; simpl; [eauto |].
  destruct (lookup_lt_is_Some_2 _cols c) as [col Hcol]; [apply Hcs; set_solver |].
  pose proof (list_elem_of_lookup_2 _ _ _ Hcol). destruct (Hc col) as [v Hv]; [done |].
  rewrite Hcol. simpl. rewrite Hv. simpl.
  destruct (_ || _); edestruct IH as (a & E & Ha); try (intros; apply Hcs; set_solver);
    exists a; (split; [exact E | naive_solver]).
Qed.

Lemma fill_row_safe _cols row start stop : (forall c, c ∈ _cols -> is_Some (lookup row c)) ->
  start < length _cols -> stop < length _cols ->
  exists a, fill_row _cols row start stop = Some a /\ a ∈ _cols.
Proof.
  intros Hc H1 H2. unfold fill_row.
  destruct (lookup_lt_is_Some_2 _cols start) as [col Hcol]; [done |].
  pose proof (list_elem_of_lookup_2 _ _ _ Hcol). destruct (Hc col) as [v Hv]; [done |].
  rewrite Hcol. simpl. rewrite Hv. simpl.
  destruct (scan_row_safe _cols row start Hc (seq (start + 1) (stop - start)) col v) as (a & E & Ha).
  - intros c Hin. apply elem_of_seq in Hin. lia.
  - exists a. split; [done |]. naive_solver.
Qed.

Lemma set_result_safe result row a : row < length result -> set_result result row a = Some (<[row := a]> result).
Proof. intros. unfold set_result. by rewrite assert_true by by apply Nat.ltb_lt. Qed.

(** [found] of a row in the results. *)
Definition found (P : nat -> nat -> Prop) (result : list nat) (row : nat) : Prop :=
  exists c, result !! row = Some c /\ P row c.

Lemma interpolate_safe _cols : NoDup _cols -> forall rows start result,
  NoDup rows -> (forall r, r ∈ rows -> r < length result) -> cells rows _cols -> start < length _cols ->
  (forall r, r ∈ odd_rows rows -> found (fun _ c => c ∈ _cols) result r) ->
  exists res, interpolate _cols (index_cols 0 _cols ∅) rows start result = Some res /\
    length res = length result /\ (forall r, r ∉ rows -> res !! r = result !! r) /\
    (forall r, r ∈ rows -> found (fun _ c => c ∈ _cols) res r).
Proof.
  intros Hnd rows. induction rows as [| row | row next rows IH] using pairs_ind;
    intros start result Hnr Hlt Hc Hs Hodd; simpl.
  - exists result. split_and!; [done.. | set_solver].
  - destruct (fill_row_safe _cols row start (length _cols - 1)) as (a & -> & Ha);
      [intros c ?; apply Hc; set_solver | lia | lia |].
    simpl. rewrite set_result_safe by (apply Hlt; set_solver). eexists. split; [done |].
    rewrite length_insert. split_and!; [done | intros r Hr; apply list_lookup_insert_ne; set_solver |].
    intros r Hr. assert (r = row) as -> by set_solver. exists a. split; [| done].
    apply list_lookup_insert_eq. apply Hlt. set_solver.
  - destruct (Hodd next) as (col & E & Hcol); [simpl; set_solver |]. rewrite E. simpl.
    destruct (list_elem_of_lookup_1 _ _ Hcol) as [i Hi]. pose proof (lookup_lt_Some _ _ _ Hi).
    rewrite (index_cols_lookup _cols i col Hnd Hi). simpl.
    destruct (fill_row_safe _cols row start i) as (a & -> & Ha); [intros c ?; apply Hc; set_solver | done | done |].
    simpl. rewrite set_result_safe by (apply Hlt; set_solver). simpl.
    apply list.NoDup_cons in Hnr as [Hn1 Hnr]. apply list.NoDup_cons in Hnr as [Hn2 Hnr].
    destruct (IH i (<[row := a]> result)) as (res & -> & L & Hout & Hin); [done | | | done | |].
    + intros r Hr. rewrite length_insert. apply Hlt. set_solver.
    + intros r c ??. apply Hc; set_solver.
    + intros r Hr. assert (r ∈ rows) by (eapply elem_of_sublist; [exact Hr | apply odd_rows_sublist]).
      destruct (Hodd r) as (c & ? & ?); [simpl; set_solver |]. exists c.
      by rewrite list_lookup_insert_ne by set_solver.
    + exists res. rewrite length_insert in L. split_and!; [done | done | |].
      * intros r Hr. rewrite Hout by set_solver. apply list_lookup_insert_ne. set_solver.
      * intros r Hr. apply elem_of_cons in Hr as [-> | Hr]; [| apply elem_of_cons in Hr as [-> | Hr]; [| by apply Hin]].
        -- exists a. rewrite Hout by set_solver. rewrite list_lookup_insert_eq; [done | apply Hlt; set_solver].
        -- exists col. rewrite Hout by set_solver. by rewrite list_lookup_insert_ne by set_solver.
Qed.

Lemma _smawk_safe fuel : forall rows cols result,
  length rows < fuel -> NoDup rows -> NoDup cols -> cols <> [] -> (forall r, r ∈ rows -> r < length result) ->
  cells rows cols ->
  exists res, _smawk fuel rows cols result = Some res /\ length res = length result /\
    (forall r, r ∉ rows -> res !! r = result !! r) /\ (forall r, r ∈ rows -> found (fun _ c => c ∈ cols) res r).
Proof.
  induction fuel as [| fuel IH]; intros rows cols result Hf Hnr Hnc Hne Hlt Hc; [lia |].
  destruct rows as [| row rows']; [exists result; split_and!; [done.. | set_solver] |].
  set (rows := row :: rows') in *. assert (rows <> []) as Hr by done.
  change (_smawk (S fuel) rows cols result) with
    (_cols ← reduce rows cols; result ← _smawk fuel (odd_rows rows) _cols result;
     interpolate _cols (index_cols 0 _cols ∅) rows 0 result).
  clearbody rows. destruct (reduce_safe rows cols) as (_cols & -> & Hk & Hs); [done.. |]. simpl.
  assert (NoDup _cols) as Hnk by by eapply sublist_NoDup.
  assert (forall r, r ∈ odd_rows rows -> r ∈ rows) as Hodd
    by (intros r H; eapply elem_of_sublist; [exact H | apply odd_rows_sublist]).
  assert (forall c, c ∈ _cols -> c ∈ cols) as Hsub by (intros c H; by eapply elem_of_sublist).
  pose proof (odd_rows_length rows Hr).
  destruct (IH (odd_rows rows) _cols result) as (res & -> & L & Hout & Hin);
    [lia | eapply sublist_NoDup; [| apply odd_rows_sublist]; done | done | done | auto | |].
  { intros r c ??. auto. }
  simpl. destruct (interpolate_safe _cols Hnk rows 0 res) as (res' & -> & L' & Hout' & Hin');
    [done | by rewrite L | by intros r c ??; auto | destruct _cols; [done | simpl; lia] | done |].
  exists res'. split_and!; [done | by rewrite L' | |].
  - intros r H'. rewrite Hout' by done. apply Hout. auto.
  - intros r H'. destruct (Hin' r H') as (c & ? & ?). exists c. auto.
Qed.

Lemma smawk_total n m : 0 < m -> (forall r c, r < n -> c < m -> is_Some (lookup r c)) ->
  exists res, smawk n m = Some res /\ length res = n /\ Forall (fun c => c < m) res.
Proof.
  intros Hm Hc. destruct (_smawk_safe (S n) (seq 0 n) (seq 0 m) (replicate n 0)) as (res & E & L & _ & Hin).
  - rewrite length_seq. lia.
  - apply NoDup_seq.
  - apply NoDup_seq.
  - by destruct m; [lia |].
  - intros r Hr. apply elem_of_seq in Hr. rewrite length_replicate. lia.
  - intros r c Hr Hc'. apply elem_of_seq in Hr, Hc'. apply Hc; lia.
  - rewrite length_replicate in L. exists res. split_and!; [done | done |].
    apply Forall_lookup. intros i c Hi. pose proof (lookup_lt_Some _ _ _ Hi).
    destruct (Hin i) as (c' & Hi' & Hc'); [apply elem_of_seq; lia |].
    rewrite Hi in Hi'. injection Hi' as <-. apply elem_of_seq in Hc'. lia.
Qed.

End algorithm.

(** ** Minima of a totally monotone matrix *)

Section sorted.

Notation sorted := (StronglySorted Nat.lt).

Lemma sorted_sublist l k : l `sublist_of` k -> sorted k -> sorted l.
Proof.
  induction 1 as [| x l k Hs IH | x l k _ IH]; intros Hk; [done | |]; inversion_clear Hk as [| ?? H1 H2]; [| auto].
  constructor; [auto |]. apply list.Forall_forall. intros y Hy. rewrite list.Forall_forall in H2.
  apply H2. by eapply elem_of_sublist.
Qed.

Lemma sorted_lookup l : sorted l -> forall i j x y, l !! i = Some x -> l !! j = Some y -> i < j -> x < y.
Proof.
  induction 1 as [| z l Hl IH Hz]; intros i j x y Hi Hj Hij; [done |].
  destruct j as [| j]; [lia |]. destruct i as [| i]; simpl in *.
  - injection Hi as <-. rewrite list.Forall_forall in Hz. apply Hz. by eapply list_elem_of_lookup_2.
  - eapply IH; [exact Hi | exact Hj | lia].
Qed.

Lemma sorted_position l i j x y : sorted l -> l !! i = Some x -> l !! j = Some y -> x < y -> i < j.
Proof.
  intros Hl Hi Hj Hxy. destruct (Nat.lt_trichotomy i j) as [H | [-> | H]]; [done | |].
  - rewrite Hi in Hj. injection Hj as <-. lia.
  - pose proof (sorted_lookup l Hl j i y x Hj Hi H). lia.
Qed.

Lemma sorted_NoDup l : sorted l -> NoDup l.
Proof.
  induction 1 as [| z l Hl IH Hz]; constructor; [| done]. intros Hin. rewrite list.Forall_forall in Hz.
  specialize (Hz z Hin). lia.
Qed.

Lemma sorted_seq n : forall s, sorted (seq s n).
Proof.
  induction n as [| n IH]; intros s; constructor; [auto |]. apply list.Forall_forall.
  intros y Hy. apply elem_of_seq in Hy. lia.
Qed.

End sorted.

Section minima.

Context {T : Type} (ge lt : T -> T -> bool) (lookup : nat -> nat -> option T).
Context (n m : nat) (M : nat -> nat -> T).

(** The matrix, with an order on the entries of a row in which [lt] and [ge] are complementary. *)
Record Entries : Prop := {
  lookup_M r c : r < n -> c < m -> lookup r c = Some (M r c);
  ge_lt r a b : r < n -> a < m -> b < m -> ge (M r a) (M r b) = negb (lt (M r a) (M r b));
  lt_asym r a b : r < n -> a < m -> b < m -> lt (M r a) (M r b) = true -> lt (M r b) (M r a) = false;
  lt_negtrans r a b c : r < n -> a < m -> b < m -> c < m ->
    lt (M r a) (M r b) = false -> lt (M r b) (M r c) = false -> lt (M r a) (M r c) = false
}.

(** Once a column on the right has a lesser entry, it has in all rows below. *)
Definition totally_monotone : Prop := forall r r' c c', r < r' < n -> c < c' < m ->
  lt (M r c') (M r c) = true -> lt (M r' c') (M r' c) = true.

(** Column [a] goes before column [b] in row [r]: a lesser entry, or as little and further left. *)
Definition beats (r a b : nat) : Prop :=
  lt (M r a) (M r b) = true \/ (lt (M r b) (M r a) = false /\ a < b).

Definition leftmost (cols : list nat) (r a : nat) : Prop := a ∈ cols /\ forall c, c ∈ cols -> c = a \/ beats r a c.

Context (HM : Entries) (Hmono : totally_monotone).
Implicit Types (r a b c : nat) (rows cols _cols : list nat).

Definition inside rows cols : Prop := (forall r, r ∈ rows -> r < n) /\ (forall c, c ∈ cols -> c < m).

Lemma beats_trans r a b c : r < n -> a < m -> b < m -> c < m -> beats r a b -> beats r b c -> beats r a c.
Proof.
  intros Hr Ha Hb Hc. pose proof (lt_asym HM r b c Hr Hb Hc).
  pose proof (lt_negtrans HM r a c b Hr Ha Hc Hb). pose proof (lt_negtrans HM r b a c Hr Hb Ha Hc).
  pose proof (lt_negtrans HM r c b a Hr Hc Hb Ha).
  intros [B1 | [B1 L1]] [B2 | [B2 L2]]; unfold beats.
  1-3: left; destruct (lt (M r a) (M r c)); [done | intuition congruence].
  right. split; [auto | lia].
Qed.

(** Not greater in a row, so not greater in the rows above. *)
Lemma mono_up r r' c c' : r <= r' < n -> c < c' < m -> lt (M r' c') (M r' c) = false -> lt (M r c') (M r c) = false.
Proof.
  intros Hr Hc E. destruct (decide (r = r')) as [-> | Hne]; [done |].
  destruct (lt (M r c') (M r c)) eqn:E'; [| done]. by rewrite (Hmono r r' c c') in E by (lia || done).
Qed.

Lemma mono_down r r' c c' : r <= r' < n -> c < c' < m -> lt (M r c') (M r c) = true -> lt (M r' c') (M r' c) = true.
Proof. intros Hr Hc E. destruct (decide (r = r')) as [<- | Hne]; [done |]. apply (Hmono r r' c c'); [lia.. | done]. Qed.

(** *** Reduce *)

(** Each column of the stack is no better than the one under it, in the row of that. *)
Fixpoint chain rows _cols : Prop :=
  match _cols with
  | back :: below =>
      match below with
      | under :: low => (exists row, rows !! length low = Some row /\ under < back /\ lt (M row back) (M row under) = false)
      | [] => True
      end /\ chain rows below
  | [] => True
  end.

(** In every row each of the columns [done] is in the list or beaten by one of it. *)
Definition covers rows (done _cols : list nat) : Prop :=
  forall r c, r ∈ rows -> c ∈ done -> c ∈ _cols \/ exists c', c' ∈ _cols /\ beats r c' c.

(** What is behind the loop: the column is no better than the back, in the row of that. *)
Definition stopped rows col _cols : Prop :=
  match _cols with
  | back :: below => exists row, rows !! length below = Some row /\ lt (M row col) (M row back) = false
  | [] => True
  end.

(** A column that is dropped is beaten in every row, by the new one or by the one under it. *)
Lemma popped rows col back below row : StronglySorted Nat.lt rows -> inside rows (col :: back :: below) ->
  chain rows (back :: below) -> back < col -> rows !! length below = Some row ->
  lt (M row col) (M row back) = true ->
  forall r, r ∈ rows -> exists c', c' ∈ col :: below /\ beats r c' back.
Proof.
  intros Hs [Hr Hc] Hch Hlt Hrow E r Hin. pose proof (Hr row (list_elem_of_lookup_2 _ _ _ Hrow)).
  assert (col < m) by (apply Hc; set_solver). assert (back < m) by (apply Hc; set_solver).
  destruct (le_lt_dec row r) as [Hle | Hle].
  { exists col. split; [set_solver |]. left. apply (mono_down row r); [auto with lia | lia | done]. }
  destruct (list_elem_of_lookup_1 _ _ Hin) as [i Hi].
  pose proof (sorted_position rows i (length below) r row Hs Hi Hrow Hle).
  destruct below as [| under low]; simpl in *; [lia |]. destruct Hch as [(row' & Hrow' & Hu & E') _].
  exists under. split; [set_solver |]. right. split; [| lia].
  pose proof (Hr row' (list_elem_of_lookup_2 _ _ _ Hrow')). apply (mono_up r row'); [| lia | done].
  destruct (decide (i = length low)) as [-> | Hne]; [rewrite Hi in Hrow'; injection Hrow' as <-; lia |].
  pose proof (sorted_lookup rows Hs i (length low) r row' Hi Hrow'). lia.
Qed.

Lemma covers_drop rows done col back below : inside rows (done ++ col :: back :: below) ->
  (forall r, r ∈ rows -> exists c', c' ∈ col :: below /\ beats r c' back) ->
  covers rows done (col :: back :: below) -> covers rows done (col :: below).
Proof.
  intros [Hr Hc] Hb H r c Hrin Hcin. destruct (Hb r Hrin) as (c' & Hin' & Hbeat).
  destruct (H r c Hrin Hcin) as [Hin | (c'' & Hin & Hbeat')].
  - destruct (decide (c = back)) as [-> | Hne]; [right; eauto | left; set_solver].
  - right. destruct (decide (c'' = back)) as [-> | Hne]; [| exists c''; set_solver].
    exists c'. split; [done |]. apply (beats_trans r c' back c); [by auto | apply Hc; set_solver | apply Hc; set_solver | apply Hc; set_solver | done | done].
Qed.

Lemma pop_cols_inv rows done col : StronglySorted Nat.lt rows -> forall _cols kept,
  inside rows (done ++ col :: _cols) -> chain rows _cols -> (forall c, c ∈ _cols -> c < col) ->
  covers rows done (col :: _cols) -> pop_cols ge lookup rows col _cols = Some kept ->
  chain rows kept /\ (forall c, c ∈ kept -> c < col) /\ covers rows done (col :: kept) /\ stopped rows col kept.
Proof.
  intros Hs. induction _cols as [| back below IH]; intros kept Hin Hch Hlt Hcov E; simpl in E.
  { injection E as <-. done. }
  destruct (rows !! length below) as [row |] eqn:Hrow; [| done]. simpl in E.
  pose proof (proj1 Hin row (list_elem_of_lookup_2 _ _ _ Hrow)).
  assert (col < m) by (apply Hin; set_solver). assert (back < m) by (apply Hin; set_solver).
  rewrite !(lookup_M HM) in E by done. simpl in E. rewrite (ge_lt HM) in E by done.
  destruct (lt (M row col) (M row back)) eqn:Elt; simpl in E.
  - destruct Hin as [Hin1 Hin2].
    apply IH; [split; [done |]; intros c Hc; apply Hin2; set_solver | by destruct Hch | intros; apply Hlt; set_solver | | done].
    eapply covers_drop; [by split | | done]. apply (popped rows col back below row); [done | | done | apply Hlt; set_solver | done..].
    split; [done |]. intros c Hc; apply Hin2; set_solver.
  - injection E as <-. split_and!; [done.. |]. exists row. done.
Qed.

Lemma pop_cols_sublist rows col : forall _cols kept,
  pop_cols ge lookup rows col _cols = Some kept -> kept `sublist_of` _cols.
Proof.
  induction _cols as [| back below IH]; intros kept E; simpl in E; [by injection E as <- |].
  inv_opt. destruct (ge _ _); [by injection E as <- |]. apply IH in E. by apply sublist_cons.
Qed.

Lemma reduce_col_sublist rows col _cols kept :
  reduce_col ge lookup rows col _cols = Some kept -> kept `sublist_of` col :: _cols.
Proof.
  unfold reduce_col. intros E. destruct (pop_cols _ _ _ _ _) as [now |] eqn:Ep; [| done]. simpl in E.
  apply pop_cols_sublist in Ep. destruct (_ <? _); injection E as <-; by constructor.
Qed.

Lemma reduce_col_inv rows done col _cols kept : StronglySorted Nat.lt rows -> rows <> [] ->
  inside rows (done ++ col :: _cols) -> chain rows _cols -> (forall c, c ∈ _cols -> c < col) ->
  length _cols <= length rows ->
  covers rows done _cols -> reduce_col ge lookup rows col _cols = Some kept ->
  chain rows kept /\ (forall c, c ∈ kept -> c <= col) /\ covers rows (col :: done) kept /\ length kept <= length rows.
Proof.
  intros Hs Hne Hin Hch Hlt Hl Hcov E. unfold reduce_col in E.
  destruct (pop_cols ge lookup rows col _cols) as [now |] eqn:Ep; [| done]. simpl in E.
  pose proof (sublist_length _ _ (pop_cols_sublist rows col _cols now Ep)) as Hl'.
  edestruct pop_cols_inv as (H1 & H2 & H3 & H4); [done | exact Hin | done.. | | exact Ep |].
  { intros r c Hr Hc. destruct (Hcov r c Hr Hc) as [? | (c' & ? & ?)]; set_solver. }
  destruct (Nat.ltb_spec (length now) (length rows)) as [L | L]; injection E as <-; split_and!.
  - destruct now as [| back below]; [done |]. destruct H4 as (row & Hrow & E). split; [| done].
    exists row. split_and!; [done | apply H2; set_solver | done].
  - intros c Hc. apply elem_of_cons in Hc as [-> | Hc]; [done |]. specialize (H2 c Hc). lia.
  - intros r c Hr Hc. apply elem_of_cons in Hc as [-> | Hc]; [set_solver | by apply H3].
  - simpl. lia.
  - done.
  - intros c Hc. specialize (H2 c Hc). lia.
  - assert (forall r, r ∈ rows -> exists back, back ∈ now /\ beats r back col) as Hback.
    { intros r Hr. destruct now as [| back below]; [destruct rows; [done | simpl in *; lia] |].
      destruct H4 as (row & Hrow & E). exists back. split; [set_solver |]. right. split; [| apply H2; set_solver].
      destruct (list_elem_of_lookup_1 _ _ Hr) as [i Hi]. pose proof (lookup_lt_Some _ _ _ Hi).
      apply (mono_up r row); [| split; [apply H2; set_solver | apply Hin; set_solver] | done].
      split; [| apply Hin; by eapply list_elem_of_lookup_2]. simpl in *.
      destruct (decide (i = length below)) as [-> | Hd]; [rewrite Hi in Hrow; injection Hrow as <-; lia |].
      pose proof (sorted_lookup rows Hs i (length below) r row Hi Hrow). lia. }
    intros r c Hr Hc. destruct (Hback r Hr) as (back & Hb & Hbeat).
    apply elem_of_cons in Hc as [-> | Hc]; [right; eauto |].
    destruct (H3 r c Hr Hc) as [Hc' | (c' & Hc' & Hbeat')].
    + apply elem_of_cons in Hc' as [-> | Hc']; [right; eauto | by left].
    + apply elem_of_cons in Hc' as [-> | Hc']; [| by right; eauto].
      right. exists back. split; [done |]. specialize (H2 back Hb).
      assert (col < m) by (apply Hin; set_solver).
      apply (beats_trans r back col c); [by apply Hin | lia | done | apply Hin; set_solver | done..].
  - lia.
Qed.

Lemma reduce_loop_inv rows : StronglySorted Nat.lt rows -> rows <> [] -> forall cols done _cols kept,
  StronglySorted Nat.lt cols -> inside rows (done ++ _cols ++ cols) -> chain rows _cols ->
  (forall c c', c ∈ _cols -> c' ∈ cols -> c < c') -> length _cols <= length rows ->
  covers rows done _cols -> reduce_loop ge lookup rows cols _cols = Some kept -> covers rows (cols ++ done) kept.
Proof.
  intros Hs Hne. induction cols as [| col cols IH]; intros done _cols kept Hsc [Hin1 Hin2] Hch Hlt Hl Hcov E; simpl in E.
  { injection E as <-. done. }
  destruct (reduce_col ge lookup rows col _cols) as [now |] eqn:Ec; [| done]. simpl in E.
  destruct (reduce_col_inv rows done col _cols now) as (H1 & H2 & H3 & H4); try done.
  { split; [done |]. intros c Hc. apply Hin2. set_solver. }
  { intros c Hc. apply Hlt; set_solver. }
  inversion_clear Hsc as [| ?? Hsc' Hfirst]. rewrite list.Forall_forall in Hfirst.
  pose proof (reduce_col_sublist _ _ _ _ Ec) as Hsub.
  intros r c Hr Hc. refine (IH (col :: done) now kept Hsc' _ H1 _ H4 H3 E r c Hr _); [| | set_solver].
  - split; [done |]. intros c0 Hc0. apply Hin2. rewrite !elem_of_app in Hc0.
    destruct Hc0 as [Hc0 | [Hc0 | Hc0]]; [set_solver | | set_solver].
    eapply elem_of_sublist in Hc0; [| exact Hsub]. set_solver.
  - intros c0 c' Hc0 Hc'. specialize (H2 c0 Hc0). specialize (Hfirst c' Hc'). lia.
Qed.

(** A leftmost minimum among the columns that are kept is one among all columns. *)
Lemma reduce_minima rows cols _cols r a : StronglySorted Nat.lt rows -> StronglySorted Nat.lt cols ->
  inside rows cols -> _cols `sublist_of` cols -> reduce ge lookup rows cols = Some _cols ->
  r ∈ rows -> leftmost _cols r a -> leftmost cols r a.
Proof.
  intros Hs Hsc Hin Hsub E Hr [Ha Hmin].
  assert (forall c, c ∈ _cols -> c ∈ cols) as Hsub' by (intros c H; by eapply elem_of_sublist).
  split; [by auto |]. intros c Hc. unfold reduce in E.
  destruct (reduce_loop ge lookup rows cols []) as [kept |] eqn:El; [| done]. injection E as E.
  assert (covers rows (cols ++ []) kept) as Hcov.
  { apply (reduce_loop_inv rows Hs ltac:(by intros ->; set_solver) cols [] []);
      [done | done | done | set_solver | simpl; lia | intros r0 c0 _ H0; set_solver | done]. }
  assert (forall c, c ∈ kept <-> c ∈ _cols) as Hk by (intros c'; rewrite <- E; by rewrite elem_of_reverse).
  rewrite app_nil_r in Hcov. destruct (Hcov r c Hr Hc) as [Hin' | (c' & Hin' & Hbeat)].
  - apply Hmin. by apply Hk.
  - right. apply Hk in Hin'. destruct (Hmin c' Hin') as [-> | Hbeat']; [done |].
    destruct Hin as [Hin1 Hin2]. apply (beats_trans r a c' c); auto.
Qed.

(** *** Interpolate *)

Lemma scan_row_minimum _cols row start : row < n -> (forall c, c ∈ _cols -> c < m) -> StronglySorted Nat.lt _cols ->
  forall cs argmin a, argmin < m -> StronglySorted Nat.lt cs -> (forall c, c ∈ cs -> start < c) ->
  (forall i c, i ∈ cs -> _cols !! i = Some c -> argmin < c) ->
  scan_row lt lookup _cols row start cs argmin (M row argmin) = Some a ->
  a < m /\ (a = argmin \/ beats row a argmin) /\
  (forall i c, i ∈ cs -> _cols !! i = Some c -> c = a \/ beats row a c).
Proof.
  intros Hrow Hm Hsc. induction cs as [| i cs IH]; intros argmin a Ha Hs Hst Hlt E; simpl in E.
  { injection E as <-. split_and!; [done | by left | set_solver]. }
  destruct (_cols !! i) as [col |] eqn:Ei; [| done]. simpl in E.
  assert (col < m) by (apply Hm; by eapply list_elem_of_lookup_2).
  rewrite (lookup_M HM) in E by done. simpl in E. inversion_clear Hs as [| ?? Hs' Hfirst].
  rewrite list.Forall_forall in Hfirst. pose proof (Hlt i col ltac:(set_solver) Ei).
  destruct (Nat.eqb_spec i start) as [Ee | _]; [specialize (Hst i ltac:(set_solver)); lia |]. simpl in E.
  destruct (lt (M row col) (M row argmin)) eqn:El.
  - destruct (IH col a) as (Ha' & H1 & H2); try done; [set_solver | |].
    { intros j c Hj Ej. apply (sorted_lookup _cols Hsc i j col c Ei Ej). by apply Hfirst. }
    assert (beats row col argmin) by by left.
    split_and!; [done | right; destruct H1 as [-> |]; [done | by apply (beats_trans row a col argmin)] |].
    intros j c Hj Ej. apply elem_of_cons in Hj as [-> | Hj]; [| by eapply H2].
    rewrite Ei in Ej. injection Ej as <-. destruct H1 as [-> |]; auto.
  - destruct (IH argmin a) as (Ha' & H1 & H2); try done; [set_solver | set_solver |].
    assert (beats row argmin col) by by right.
    split_and!; [done.. |]. intros j c Hj Ej. apply elem_of_cons in Hj as [-> | Hj]; [| by eapply H2].
    rewrite Ei in Ej. injection Ej as <-. right. destruct H1 as [-> |]; [done |].
    by apply (beats_trans row a argmin col).
Qed.

(** The columns outside the range are beaten by its ends. *)
Lemma fill_row_minimum _cols row start stop s e a : row < n -> (forall c, c ∈ _cols -> c < m) ->
  StronglySorted Nat.lt _cols -> _cols !! start = Some s -> _cols !! stop = Some e -> start <= stop ->
  (forall c, c ∈ _cols -> c < s -> beats row s c) -> (forall c, c ∈ _cols -> e < c -> beats row e c) ->
  fill_row lt lookup _cols row start stop = Some a -> a ∈ _cols -> leftmost _cols row a.
Proof.
  intros Hrow Hm Hsc Es Ee Hle Hleft Hright E Hin. split; [done |]. unfold fill_row in E. rewrite Es in E. simpl in E.
  pose proof (Hm s (list_elem_of_lookup_2 _ _ _ Es)). pose proof (Hm e (list_elem_of_lookup_2 _ _ _ Ee)).
  rewrite (lookup_M HM) in E by done. simpl in E.
  destruct (scan_row_minimum _cols row start Hrow Hm Hsc (seq (start + 1) (stop - start)) s a) as (Ha & H1 & H2); try done.
  - apply sorted_seq.
  - intros c Hc. apply elem_of_seq in Hc. lia.
  - intros i c Hi Ei. apply elem_of_seq in Hi. apply (sorted_lookup _cols Hsc start i s c Es Ei). lia.
  - assert (forall i c, start <= i <= stop -> _cols !! i = Some c -> c = a \/ beats row a c) as Hmid.
    { intros i c Hi Ei. destruct (decide (i = start)) as [-> | Hd]; [rewrite Es in Ei; injection Ei as <-; naive_solver |].
      apply (H2 i); [apply elem_of_seq; lia | done]. }
    assert (forall b c, b < m -> c < m -> b = a \/ beats row a b -> beats row b c -> beats row a c) as Htr.
    { intros b c Hb Hc [-> | Hab] Hbc; [done | by apply (beats_trans row a b c)]. }
    intros c Hc. destruct (list_elem_of_lookup_1 _ _ Hc) as [i Ei].
    destruct (lt_dec i start) as [Hi | Hi]; [| destruct (lt_dec stop i) as [Hi' | Hi']].
    + right. apply (Htr s c); [done | auto | by apply (Hmid start) |].
      apply Hleft; [done |]. apply (sorted_lookup _cols Hsc i start c s Ei Es Hi).
    + right. apply (Htr e c); [done | auto | by apply (Hmid stop) |].
      apply Hright; [done |]. apply (sorted_lookup _cols Hsc stop i e c Ee Ei Hi').
    + apply (Hmid i); [lia | done].
Qed.

Lemma beats_asym r a b : r < n -> a < m -> b < m -> beats r a b -> ~ beats r b a.
Proof.
  intros Hr Ha Hb. pose proof (lt_asym HM r a b Hr Ha Hb). pose proof (lt_asym HM r b a Hr Hb Ha).
  intros [B1 | [B1 L1]] [B2 | [B2 L2]]; [intuition congruence.. | lia].
Qed.

Lemma set_result_Some result row a res :
  set_result result row a = Some res -> row < length result /\ res = <[row := a]> result.
Proof. unfold set_result. intros E. inv_opt. apply assert_Some, Nat.ltb_lt in E0. done. Qed.

Lemma interpolate_frame _cols idx : forall rows start result res,
  interpolate lt lookup _cols idx rows start result = Some res ->
  forall r, r ∉ rows -> res !! r = result !! r.
Proof.
  intros rows. induction rows as [| row | row next rows IH] using pairs_ind; intros start result res E r Hr; simpl in E.
  - by injection E as <-.
  - unfold set_result in E. inv_opt. apply list_lookup_insert_ne. set_solver.
  - unfold set_result in E. inv_opt. rewrite (IH _ _ _ E r) by set_solver. apply list_lookup_insert_ne. set_solver.
Qed.

(** What a leftmost minimum of a row says of the rows above and below. *)
Lemma leftmost_above _cols row next e : row <= next < n -> (forall c, c ∈ _cols -> c < m) -> leftmost _cols next e ->
  forall c, c ∈ _cols -> e < c -> beats row e c.
Proof.
  intros Hr Hm [He Hmin] c Hc Hlt. right. split; [| done]. apply (mono_up row next); [done | auto |].
  destruct (Hmin c Hc) as [-> | [B | [B _]]]; [lia | | done]. apply (lt_asym HM); auto; lia.
Qed.

Lemma leftmost_below _cols row next e : next <= row < n -> (forall c, c ∈ _cols -> c < m) -> leftmost _cols next e ->
  forall c, c ∈ _cols -> c < e -> beats row e c.
Proof.
  intros Hr Hm [He Hmin] c Hc Hlt. left. apply (mono_down next row); [done | auto |].
  destruct (Hmin c Hc) as [-> | [B | [_ B]]]; [lia | done | lia].
Qed.

Lemma fill_row_in _cols row start stop a : row < n -> (forall c, c ∈ _cols -> c < m) ->
  start < length _cols -> stop < length _cols -> fill_row lt lookup _cols row start stop = Some a -> a ∈ _cols.
Proof.
  intros Hr Hm H1 H2 E. destruct (fill_row_safe ge lt lookup _cols row start stop) as (a' & E' & Ha); [| done | done |].
  - intros c Hc. rewrite (lookup_M HM); eauto.
  - rewrite E in E'. by injection E' as <-.
Qed.

Lemma interpolate_minima _cols : StronglySorted Nat.lt _cols -> (forall c, c ∈ _cols -> c < m) ->
  forall rows start s result res, StronglySorted Nat.lt rows -> (forall r, r ∈ rows -> r < n) ->
  _cols !! start = Some s -> (forall r c, r ∈ rows -> c ∈ _cols -> c < s -> beats r s c) ->
  (forall r, r ∈ odd_rows rows -> found (leftmost _cols) result r) ->
  interpolate lt lookup _cols (index_cols 0 _cols ∅) rows start result = Some res ->
  forall r, r ∈ rows -> found (leftmost _cols) res r.
Proof.
  intros Hsc Hm rows. pose proof (sorted_NoDup _cols Hsc) as Hnd.
  induction rows as [| row | row next rows IH] using pairs_ind;
    intros start s result res Hs Hn Es Hleft Hodd E r Hr; simpl in E; [set_solver | |].
  - assert (r = row) as -> by set_solver. pose proof (lookup_lt_Some _ _ _ Es).
    destruct (lookup_lt_is_Some_2 _cols (length _cols - 1)) as [e Ee]; [lia |].
    destruct (fill_row _ _ _ _ _ _) as [a |] eqn:E0; [| done]. apply set_result_Some in E as [Hlen ->].
    exists a. rewrite list_lookup_insert_eq by done. split; [done |].
    eapply (fill_row_minimum _cols row start (length _cols - 1) s e); try done; [auto | lia | auto | | ].
    + intros c Hc He. destruct (list_elem_of_lookup_1 _ _ Hc) as [i Ei].
      pose proof (sorted_position _cols (length _cols - 1) i e c Hsc Ee Ei He). pose proof (lookup_lt_Some _ _ _ Ei). lia.
    + eapply fill_row_in; [| done | | | exact E0]; [auto | lia | lia].
  - destruct (Hodd next) as (e & Enext & He); [simpl; set_solver |]. rewrite Enext in E. simpl in E.
    destruct (list_elem_of_lookup_1 _ _ (proj1 He)) as [stop Ee].
    rewrite (index_cols_lookup _cols stop e Hnd Ee) in E. simpl in E.
    pose proof (lookup_lt_Some _ _ _ Es). pose proof (lookup_lt_Some _ _ _ Ee).
    inversion_clear Hs as [| ?? Hs' Hrow]. inversion_clear Hs' as [| ?? Hs'' Hnext].
    rewrite list.Forall_forall in Hrow, Hnext. pose proof (Hrow next ltac:(set_solver)) as Hrn.
    assert (row < n) by (apply Hn; set_solver). assert (next < n) by (apply Hn; set_solver).
    destruct (fill_row _ _ _ _ _ _) as [a |] eqn:E0; [| done]. simpl in E.
    destruct (set_result _ _ _) as [res' |] eqn:E1; [| done]. apply set_result_Some in E1 as [Hlen ->]. simpl in E.
    assert (row ∉ rows /\ next ∉ rows) as [Hnr Hnn].
    { split; intros Hin; [specialize (Hrow row ltac:(set_solver)) | specialize (Hnext next Hin)]; lia. }
    pose proof (interpolate_frame _ _ _ _ _ _ E) as Hframe.
    apply elem_of_cons in Hr as [-> | Hr]; [| apply elem_of_cons in Hr as [-> | Hr]].
    + exists a. rewrite Hframe, list_lookup_insert_eq by done. split; [done |].
      apply (fill_row_minimum _cols row start stop s e); try done; [| set_solver | |].
      * destruct (le_lt_dec start stop) as [| Hlt]; [done |].
        pose proof (sorted_lookup _cols Hsc stop start e s Ee Es Hlt) as Hes.
        pose proof (Hleft next e ltac:(set_solver) (proj1 He) Hes) as B.
        destruct (proj2 He s) as [-> | B']; [by eapply list_elem_of_lookup_2 | lia |].
        exfalso. refine (beats_asym next s e _ _ _ B B'); [done | apply Hm; by eapply list_elem_of_lookup_2 | apply Hm, He].
      * apply (leftmost_above _cols row next e); [lia | done..].
      * by eapply fill_row_in; [| | | | exact E0].
    + exists e. rewrite Hframe by done. by rewrite list_lookup_insert_ne by lia.
    + refine (IH stop e _ res Hs'' _ Ee _ _ E r Hr); [set_solver | |].
      * intros r' c Hr' Hc Hlt. specialize (Hnext r' Hr').
        apply (leftmost_below _cols r' next e); [split; [lia |]; apply Hn; set_solver | done..].
      * intros r' Hr'. assert (r' ∈ rows) by (eapply elem_of_sublist; [exact Hr' | apply odd_rows_sublist]).
        destruct (Hodd r') as (c & ? & ?); [simpl; set_solver |]. exists c.
        by rewrite list_lookup_insert_ne by (intros ->; done).
Qed.

Lemma _smawk_minima fuel : forall rows cols result res,
  StronglySorted Nat.lt rows -> StronglySorted Nat.lt cols -> cols <> [] -> inside rows cols ->
  _smawk ge lt lookup fuel rows cols result = Some res -> forall r, r ∈ rows -> found (leftmost cols) res r.
Proof.
  induction fuel as [| fuel IH]; intros rows cols result res Hs Hsc Hne Hin E r Hr; [done |].
  destruct rows as [| row rows']; [set_solver |].
  set (rows := row :: rows') in *. assert (rows <> []) as Hrows by done.
  change (_smawk ge lt lookup (S fuel) rows cols result) with
    (_cols ← reduce ge lookup rows cols; result ← _smawk ge lt lookup fuel (odd_rows rows) _cols result;
     interpolate lt lookup _cols (index_cols 0 _cols ∅) rows 0 result) in E.
  clearbody rows. destruct (reduce_safe ge lt lookup rows cols) as (_cols & Ered & Hk & Hsub); [done.. | |].
  { intros r' c' ??. rewrite (lookup_M HM); [by eauto | by apply Hin..]. }
  rewrite Ered in E. simpl in E. destruct (_smawk _ _ _ _ _ _ _) as [res' |] eqn:E'; [| done]. simpl in E.
  pose proof (sorted_sublist _ _ Hsub Hsc) as Hsk.
  assert (forall c, c ∈ _cols -> c < m) as Hm by (intros c H; apply Hin; by eapply elem_of_sublist).
  assert (forall r, r ∈ odd_rows rows -> r < n) as Hn'
    by (intros r' H; apply Hin; eapply elem_of_sublist; [exact H | apply odd_rows_sublist]).
  pose proof (IH (odd_rows rows) _cols result res'
    (sorted_sublist _ _ (odd_rows_sublist rows) Hs) Hsk Hk (conj Hn' Hm) E') as Hodd.
  destruct _cols as [| s below] eqn:Ek; [done |]. rewrite <- Ek in *.
  assert (_cols !! 0 = Some s) as Es by by rewrite Ek.
  destruct (interpolate_minima _cols Hsk Hm rows 0 s res' res) with r as (c & Ec & Hc); try done.
  - apply Hin.
  - intros r' c Hr' Hc Hlt. destruct (list_elem_of_lookup_1 _ _ Hc) as [i Ei].
    pose proof (sorted_position _cols i 0 c s Hsk Ei Es Hlt). lia.
  - exists c. split; [done |]. by apply (reduce_minima rows cols _cols).
Qed.

End minima.

(** C39: SMAWK, for any type of entries and comparisons: on a totally monotone matrix with at least
    one column, the algorithm ends without leaving its vectors and gives for every row the column of its
    leftmost minimum: no entry of the row is less, and every entry further left is greater. *)
Theorem smawk_minima {T} (ge lt : T -> T -> bool) lookup n m M :
  0 < m -> Entries ge lt lookup n m M -> totally_monotone lt n m M ->
  exists result, smawk ge lt lookup n m = Some result /\ length result = n /\
    forall r, r < n -> exists c, result !! r = Some c /\ c < m /\
      forall c', c' < m -> lt (M r c') (M r c) = false /\ (c' < c -> lt (M r c) (M r c') = true).
Proof.
  intros Hm HM Hmono. destruct (smawk_total ge lt lookup n m Hm) as (res & E & L & _).
  { intros r c Hr Hc. rewrite (lookup_M _ _ _ _ _ _ HM); eauto. }
  exists res. split_and!; [done | done |]. intros r Hr.
  destruct (_smawk_minima ge lt lookup n m M HM Hmono (S n) (seq 0 n) (seq 0 m) (replicate n 0) res)
    with r as (c & Ec & Hc & Hmin); [apply sorted_seq | apply sorted_seq | by destruct m; [lia |] | | done | |].
  { split; intros x Hx; apply elem_of_seq in Hx; lia. }
  { apply elem_of_seq. lia. }
  apply elem_of_seq in Hc. exists c. split_and!; [done | lia |]. intros c' Hc'.
  destruct (Hmin c') as [-> | B]; [apply elem_of_seq; lia | |].
  - split; [| lia]. destruct (lt (M r c) (M r c)) eqn:El; [| done].
    by rewrite (lt_asym _ _ _ _ _ _ HM r c c) in El by (lia || done).
  - destruct B as [B | [B Hlt]]; (split; [| intros; try done; lia]); [| done].
    apply (lt_asym _ _ _ _ _ _ HM); [lia.. | done].
Qed.

(** Squared distances of points on a line: 4 rows and 6 columns. *)
Definition distances (r c : nat) : Z := (3 * Z.of_nat c - 4 * Z.of_nat r) * (3 * Z.of_nat c - 4 * Z.of_nat r).

Lemma smawk_minima_witness :
  exists result, smawk Z.geb Z.ltb (fun r c => Some (distances r c)) 4 6 = Some result /\ length result = 4 /\
    forall r, r < 4 -> exists c, result !! r = Some c /\ c < 6 /\
      forall c', c' < 6 -> Z.ltb (distances r c') (distances r c) = false /\
        (c' < c -> Z.ltb (distances r c) (distances r c') = true).
Proof.
  apply (smawk_minima Z.geb Z.ltb (fun r c => Some (distances r c)) 4 6 distances); [lia | |].
  - split; [done | |..]; intros; [rewrite Z.geb_leb; apply Z.leb_antisym | |];
      rewrite ?Z.ltb_lt, ?Z.ltb_ge in *; lia.
  - intros r r' c c' Hr Hc. unfold distances. rewrite !Z.ltb_lt. nia.
Defined.

Example smawk_distances : smawk Z.geb Z.ltb (fun r c => Some (distances r c)) 4 6 = Some [0; 1; 3; 4].
Proof. done. Qed.

End Smawk.
