(* ===== verification/SzKmeans.v ===== *)
(** * SzKmeans: the levels of molecular dynamics data

    [utils/KmeansUtil.hpp] with the entries of type [float], as the tool for molecular dynamics
    uses it: the costs of clusters from prefix sums, the clustering of sorted values by dynamic
    programming over [smawk], and the estimate [get_cluster] of a start, a distance and a number of levels.
    The computed costs are rounded, so that their matrix need not be totally monotone; the
    clustering stays inside its vectors and ends nevertheless. *)

From Stdlib Require Import ZArith Lia.
From stdpp Require Import gmap sorting.
From S2P Require Import Prelude Float64 Float32 SzSmawk.

(** [std::sort] of indices by a comparison.  All that is used is that it permutes them. *)
Class StdSort := {
  sort : (nat -> nat -> bool) -> list nat -> list nat;
  sort_perm comp l : sort comp l ≡ₚ l
}.

Definition not_after (comp : nat -> nat -> bool) (a b : nat) : Prop := comp b a = false.

#[export] Instance not_after_dec comp : RelDecision (not_after comp).
Proof. intros a b. unfold not_after. apply _. Defined.

#[export] Program Instance merge_StdSort : StdSort := { sort comp := merge_sort (not_after comp) }.
Next Obligation. intros. apply merge_sort_Permutation. Qed.

Module CostCalculator.

Record CostCalculator := { cumsum : list Z; cumsum2 : list Z }.

(** The sums from [x], the last one so far. *)
Fixpoint sums (f : Z -> Z) (x : Z) (vec : list Z) : list Z :=
  match vec with
  | [] => [x]
  | v :: vec => x :: sums f (f64_add (f (f64_of_f32 v)) x) vec
  end.

Definition make (vec : list Z) (n : nat) : option CostCalculator :=
  _ ← assert (n <=? length vec)%nat;
  Some {| cumsum := sums id 0 (take n vec); cumsum2 := sums (fun x => f64_mul x x) 0 (take n vec) |}.

(** The squared deviations of the values from [i] to [j]. *)
Definition calc (cc : CostCalculator) (i j : nat) : option Z :=
  if (j <? i)%nat then Some 0
  else
    sj ← cumsum cc !! (j + 1)%nat; si ← cumsum cc !! i;
    qj ← cumsum2 cc !! (j + 1)%nat; qi ← cumsum2 cc !! i;
    let len := f64_of_Z (Z.of_nat (j - i + 1)) in
    let mu := f64_div (f64_sub sj si) len in
    let result := f64_sub qj qi in
    let result := f64_add result (f64_mul len (f64_mul mu mu)) in
    Some (f64_sub result (f64_mul (f64_mul (f64_of_Z 2) mu) (f64_sub sj si))).

Lemma sums_length f vec : forall x, length (sums f x vec) = S (length vec).
Proof. induction vec as [| v vec IH]; intros x; simpl; [done |]. by rewrite IH. Qed.

Definition ok (n : nat) (cc : CostCalculator) : Prop := length (cumsum cc) = S n /\ length (cumsum2 cc) = S n.

Lemma calculator_ok vec n : (n <= length vec)%nat -> exists cc, make vec n = Some cc /\ ok n cc.
Proof.
  intros Hn. unfold make. rewrite assert_true by by apply Nat.leb_le. simpl. eexists. split; [done |].
  split; simpl; rewrite sums_length, length_take; lia.
Qed.

Lemma calc_ok n cc i j : ok n cc -> (i < n)%nat -> (j < n)%nat -> is_Some (calc cc i j).
Proof.
  intros [H1 H2] Hi Hj. unfold calc. destruct (j <? i)%nat; [eauto |].
  destruct (lookup_lt_is_Some_2 (cumsum cc) (j + 1)) as [a ->]; [lia |].
  destruct (lookup_lt_is_Some_2 (cumsum cc) i) as [b ->]; [lia |].
  destruct (lookup_lt_is_Some_2 (cumsum2 cc) (j + 1)) as [c ->]; [lia |].
  destruct (lookup_lt_is_Some_2 (cumsum2 cc) i) as [d ->]; [lia |]. simpl. eauto.
Qed.

End CostCalculator.

Module Matrix.

Record Matrix (A : Type) := { data : list A; num_rows : nat; num_cols : nat }.
Arguments data {A}.
Arguments num_rows {A}.
Arguments num_cols {A}.

Definition make {A} (zero : A) (rows cols : nat) : Matrix A :=
  {| data := replicate (rows * cols) zero; num_rows := rows; num_cols := cols |}.

Definition get {A} (m : Matrix A) (i j : nat) : option A := data m !! (i * num_cols m + j)%nat.

Definition set {A} (m : Matrix A) (i j : nat) (value : A) : option (Matrix A) :=
  _ ← assert (i * num_cols m + j <? length (data m))%nat;
  Some {| data := <[(i * num_cols m + j)%nat := value]> (data m); num_rows := num_rows m; num_cols := num_cols m |}.

(** A matrix of [rows] and [cols] whose entries satisfy [P]. *)
Definition ok {A} (rows cols : nat) (P : nat -> nat -> A -> Prop) (m : Matrix A) : Prop :=
  num_cols m = cols /\ length (data m) = (rows * cols)%nat /\
  forall i j, (i < rows)%nat -> (j < cols)%nat -> exists x, get m i j = Some x /\ P i j x.

Lemma place_bound rows cols i j : (i < rows)%nat -> (j < cols)%nat -> (i * cols + j < rows * cols)%nat.
Proof. nia. Qed.

Lemma place_inj cols i j i' j' : (j < cols)%nat -> (j' < cols)%nat ->
  (i * cols + j = i' * cols + j')%nat -> i = i' /\ j = j'.
Proof. intros. assert (i = i') by nia. subst. lia. Qed.

Lemma matrix_ok {A} (zero : A) rows cols P : (forall i j, P i j zero) -> ok rows cols P (make zero rows cols).
Proof.
  intros HP. split_and!; [done | by simpl; rewrite length_replicate |]. intros i j Hi Hj. exists zero.
  split; [| done]. unfold get. simpl. apply lookup_replicate_2. by apply place_bound.
Qed.

Lemma set_ok {A} rows cols (P : nat -> nat -> A -> Prop) m i j x :
  ok rows cols P m -> (i < rows)%nat -> (j < cols)%nat -> P i j x ->
  exists m', set m i j x = Some m' /\ ok rows cols P m'.
Proof.
  intros (Hc & Hl & Hg) Hi Hj HP. unfold set. pose proof (place_bound rows cols i j Hi Hj).
  rewrite assert_true by (apply Nat.ltb_lt; rewrite Hc; lia). simpl. eexists. split; [done |].
  split_and!; [done | simpl; by rewrite length_insert |]. intros i' j' Hi' Hj'. unfold get. simpl. rewrite Hc.
  destruct (decide (i * cols + j = i' * cols + j')%nat) as [E | E].
  - destruct (place_inj cols i j i' j' Hj Hj' E) as [<- <-]. exists x.
    rewrite list_lookup_insert_eq by lia. done.
  - destruct (Hg i' j' Hi' Hj') as (y & Hy & HPy). exists y. unfold get in Hy. rewrite Hc in Hy.
    by rewrite list_lookup_insert_ne.
Qed.

End Matrix.

Module Kmeans.

Import CostCalculator Matrix.

Section kmeans.

Context `{StdSort}.

(** ** cluster *)

(** The values in their order.  With a NaN the comparison is no strict weak order, and sorting by it undefined. *)
Definition sorted_array (array : list Z) (n : nat) : option (list Z) :=
  _ ← assert (n <=? length array)%nat;
  _ ← assert (negb (existsb f32_is_nan (take n array)));
  mapM (fun i => array !! i) (sort (fun a b => f32_ltb (nth a array 0) (nth b array 0)) (seq 0 n)).

(** The first rows of [D] and [T]. *)
Fixpoint first_layer (cc : CostCalculator) (idxs : list nat) (D : Matrix Z) (T : Matrix nat)
    : option (Matrix Z * Matrix nat) :=
  match idxs with
  | [] => Some (D, T)
  | i :: idxs =>
      cost ← calc cc 0 i;
      D ← set D 0 i (f32_of_f64 cost);
      T ← set T 0 i 0%nat;
      first_layer cc idxs D T
  end.

(** The lambda [C]: the cost of the values up to [i], with the last cluster from [j] on. *)
Definition C (cc : CostCalculator) (D : Matrix Z) (k_ i j : nat) : option Z :=
  let j1 := u64 (Z.of_nat j - 1) in
  let col := if Z.of_nat i <? j1 then i else Z.to_nat j1 in
  d ← get D (k_ - 1) col;
  cost ← calc cc j i;
  Some (f32_of_f64 (f64_add (f64_of_f32 d) cost)).

(** The loop that stores the minima of the rows from [i] on. *)
Fixpoint set_layer (cc : CostCalculator) (k_ i : nat) (row_argmins : list nat) (D : Matrix Z) (T : Matrix nat)
    : option (Matrix Z * Matrix nat) :=
  match row_argmins with
  | [] => Some (D, T)
  | argmin :: row_argmins =>
      min ← C cc D k_ i argmin;
      D ← set D k_ i min;
      T ← set T k_ i argmin;
      set_layer cc k_ (S i) row_argmins D T
  end.

Record search := { D : Matrix Z; T : Matrix nat; ratio_avg : Z; findk : bool; bestk : nat }.

(** A round of the loop over the numbers of clusters, and whether it goes on. *)
Definition round (cc : CostCalculator) (n k_ : nat) (s : search) : option (search * bool) :=
  row_argmins ← Smawk.smawk (fun a b => f32_leb b a) f32_ltb (C cc (D s) k_) n n;
  '(D', T') ← set_layer cc k_ 0 row_argmins (D s) (T s);
  d0 ← get D' (k_ - 1) (n - 1);
  d1 ← get D' k_ (n - 1);
  let ratio := f32_div d0 d1 in
  let ratio_avg := f64_div (f64_add (f64_mul (ratio_avg s) (f64_of_Z (Z.of_nat (k_ - 1)))) (f64_of_f32 ratio))
                     (f64_of_Z (Z.of_nat k_)) in
  if f64_ltb 0x3ff8000000000000 (f64_div (f64_of_f32 ratio) ratio_avg) then
    Some ({| D := D'; T := T'; ratio_avg := ratio_avg; findk := true; bestk := k_ + 1 |}, true)
  else
    Some ({| D := D'; T := T'; ratio_avg := ratio_avg; findk := findk s; bestk := bestk s |}, negb (findk s)).

Fixpoint rounds (cc : CostCalculator) (n : nat) (ks : list nat) (s : search) : option search :=
  match ks with
  | [] => Some s
  | k_ :: ks =>
      '(s, go) ← round cc n k_ s;
      if (go : bool) then rounds cc n ks s else Some s
  end.

(** The mean of the values with the indices [idxs], from [t] on. *)
Fixpoint running_mean (sorted : list Z) (t : nat) (idxs : list nat) (centroid : Z) : option Z :=
  match idxs with
  | [] => Some centroid
  | i :: idxs =>
      x ← sorted !! i;
      running_mean sorted t idxs
        (f32_add centroid (f32_div (f32_sub x centroid) (f32_of_Z (Z.of_nat (i - t + 1)))))
  end.

(** The loop that goes back over the clusters.  Were [k_] 0 and [t] not, it would go on with
    [k_] wrapped around, far outside of [T]. *)
Fixpoint backtrack (T : Matrix nat) (sorted : list Z) (k_ n_ t : nat) (centroids : list Z) : option (list Z) :=
  t' ← get T k_ n_;
  centroid ← running_mean sorted t' (seq t' (t - t')) 0;
  _ ← assert (k_ <? length centroids)%nat;
  let centroids := <[k_ := centroid]> centroids in
  if (t' =? 0)%nat then Some centroids
  else match k_ with
       | O => None
       | S k_ => backtrack T sorted k_ (t' - 1) t' centroids
       end.

(** The number of clusters and the centroids; without a distinguished number both stay as they are. *)
Definition cluster (array : list Z) (n k : nat) (centroids : list Z) : option (nat * list Z) :=
  sorted ← sorted_array array n;
  cc ← CostCalculator.make sorted n;
  '(D0, T0) ← first_layer cc (seq 0 n) (Matrix.make 0 k n) (Matrix.make 0%nat k n);
  s ← rounds cc n (seq 1 (k - 1)) {| D := D0; T := T0; ratio_avg := 0; findk := false; bestk := 0 |};
  if negb (findk s) then Some (k, centroids)
  else
    centroids ← backtrack (T s) sorted (bestk s - 1) (n - 1) n centroids;
    Some (bestk s, centroids).

(** ** get_cluster *)

(** [round((data - start_position) / offset)], of a [float] and two [double]s, as an [int]. *)
Definition f (data start_position offset : Z) : Z :=
  f64_to_i32 (f64_round (f64_div (f64_sub (f64_of_f32 data) start_position) offset)).

Definition f1 (data : Z) (boundary : list Z) (n start_position offset : Z) : Z := f data start_position offset.

(** The binary search of [f2] for the first boundary above [data]. *)
Fixpoint f2_loop (fuel : nat) (data : Z) (boundary : list Z) (low high : Z) : option Z :=
  if low =? high then Some high
  else
    match fuel with
    | O => None
    | S fuel =>
        let mid := i32 (low + high) ÷ 2 in
        _ ← assert (0 <=? mid);
        b ← boundary !! Z.to_nat mid;
        if f32_leb b data then f2_loop fuel data boundary (i32 (mid + 1)) high
        else f2_loop fuel data boundary low mid
    end.

Definition f2 (data : Z) (boundary : list Z) (n : Z) : option Z := f2_loop (Z.to_nat n) data boundary 0 n.

(** The loop of [f3] over the indices [idxs]. *)
Fixpoint f3_loop (data : Z) (boundary : list Z) (n : Z) (idxs : list nat) : option Z :=
  match idxs with
  | [] => Some (n - 1)
  | i :: idxs =>
      b ← boundary !! i;
      if f32_ltb data b then Some (Z.of_nat i - 1) else f3_loop data boundary n idxs
  end.

Definition f3 (data : Z) (boundary : list Z) (n : Z) : option Z :=
  f3_loop data boundary n (seq 1 (Z.to_nat n - 1)).

Definition max_element (data : list Z) : option Z :=
  match data with
  | [] => None
  | x :: data => Some (fold_left (fun max y => if f32_ltb max y then y else max) data x)
  end.

(** The values drawn for the places [idxs] of the vector [sample], [dis2 i] the place drawn for [i].
    The set of the places drawn is never added to, so that no draw is repeated. *)
Fixpoint draw (data : list Z) (dis2 : nat -> nat) (idxs : list nat) (sample : list Z) : option (list Z) :=
  match idxs with
  | [] => Some sample
  | i :: idxs =>
      x ← data !! dis2 i;
      _ ← assert (i <? length sample)%nat;
      draw data dis2 idxs (<[i := x]> sample)
  end.

(** [reserve] leaves the vector without elements. *)
Definition sample_of (data : list Z) (num sample_num : nat) (dis2 : nat -> nat) : option (list Z) :=
  if (num =? sample_num)%nat then Some (take num data)
  else draw data dis2 (seq 0 sample_num) [].

(** The sum of the starts that the centroids stand for, those with the indices [idxs] added to [start]. *)
Fixpoint sum_starts (cents : list Z) (offset : Z) (idxs : list nat) (start : Z) : option Z :=
  match idxs with
  | [] => Some start
  | i :: idxs =>
      c ← cents !! i;
      sum_starts cents offset idxs (f32_add start (f32_sub c (f32_mul (f32_of_Z (Z.of_nat i)) offset)))
  end.

(** The levels [(level_start, level_offset, level_num)] that are left in the references. *)
Definition get_cluster (data : list Z) (num : nat) (level_start level_offset : Z) (sample_num : nat)
    (dis2 : nat -> nat) : option (Z * Z * Z) :=
  _ ← assert (num <=? length data)%nat;
  max ← max_element (take num data);
  sample ← sample_of data num sample_num dis2;
  '(k, cents) ← cluster sample sample_num 150 (replicate 150 0);
  if (k =? 150)%nat then Some (level_start, level_offset, 0)
  else
    last ← cents !! (k - 1)%nat; first ← cents !! 0%nat;
    let level_offset := f32_div (f32_sub last first) (f32_of_Z (Z.of_nat (k - 1))) in
    start ← sum_starts cents level_offset (seq 1 (k - 1)) first;
    let level_start := f32_div start (f32_of_Z (Z.of_nat k)) in
    Some (level_start, level_offset, i32 (f max (f64_of_f32 level_start) (f64_of_f32 level_offset) + 1)).

(** ** Safety *)

#[local] Open Scope nat_scope.

Definition costs (k n : nat) : Matrix Z -> Prop := Matrix.ok k n (fun _ _ _ => True).

(** The starts of clusters are places, and the only cluster of the first row starts at 0. *)
Definition starts (k n : nat) : Matrix nat -> Prop :=
  Matrix.ok k n (fun i _ t => t < n /\ (i = 0 -> t = 0)).

Lemma sorted_array_ok array n : n <= length array -> existsb f32_is_nan (take n array) = false ->
  exists s, sorted_array array n = Some s /\ length s = n.
Proof.
  intros Hn Hnan. unfold sorted_array.
  rewrite (assert_true (n <=? length array)) by by apply Nat.leb_le. simpl.
  rewrite Hnan. simpl. set (idxs := sort _ _). assert (idxs ≡ₚ seq 0 n) as HP by apply sort_perm.
  destruct (mapM_is_Some_2 (fun i => array !! i) idxs) as [s Hs].
  - rewrite HP. apply list.Forall_forall. intros i Hi. apply elem_of_seq in Hi. simpl. apply lookup_lt_is_Some_2. lia.
  - exists s. split; [done |]. apply mapM_Some_1, Forall2_length in Hs. by rewrite <- Hs, HP, length_seq.
Qed.

Section layers.

Context (k n : nat) (cc : CostCalculator).
Hypothesis (Hcc : CostCalculator.ok n cc) (Hk : 0 < k) (Hn : 0 < n) (Hbig : (Z.of_nat n < 2 ^ 64)%Z).

Lemma C_ok M k_ i j : costs k n M -> k_ <= k -> i < n -> j < n -> is_Some (C cc M k_ i j).
Proof.
  intros (_ & _ & HM) Hk_ Hi Hj. unfold C.
  match goal with |- context [get M (k_ - 1) ?c] => set (col := c) end.
  assert (col < n) as Hcol.
  { unfold col, u64. destruct j as [| j]; [change ((Z.of_nat 0 - 1) mod 2 ^ 64)%Z with (2 ^ 64 - 1)%Z |
      rewrite Z.mod_small by lia]; zcase; lia. }
  destruct (HM (k_ - 1) col) as (d & -> & _); [lia | done |]. simpl.
  destruct (calc_ok n cc j i Hcc) as [c ->]; [done.. |]. simpl. eauto.
Qed.

Lemma first_layer_ok idxs : forall D0 T0, (forall i, i ∈ idxs -> i < n) -> costs k n D0 -> starts k n T0 ->
  exists D1 T1, first_layer cc idxs D0 T0 = Some (D1, T1) /\ costs k n D1 /\ starts k n T1.
Proof.
  induction idxs as [| i idxs IH]; intros D0 T0 Hi HD HT; simpl; [eauto |].
  destruct (calc_ok n cc 0 i Hcc) as [c ->]; [lia | apply Hi; set_solver |]. simpl.
  destruct (set_ok k n _ D0 0 i (f32_of_f64 c) HD) as (D1 & -> & HD1); [done | apply Hi; set_solver | done |]. simpl.
  destruct (set_ok k n _ T0 0 i 0 HT) as (T1 & -> & HT1); [done | apply Hi; set_solver | done |]. simpl.
  apply IH; [set_solver | done..].
Qed.

Lemma set_layer_ok k_ : 1 <= k_ < k -> forall argmins i D0 T0,
  Forall (fun c => c < n) argmins -> i + length argmins <= n -> costs k n D0 -> starts k n T0 ->
  exists D1 T1, set_layer cc k_ i argmins D0 T0 = Some (D1, T1) /\ costs k n D1 /\ starts k n T1.
Proof.
  intros Hk_. induction argmins as [| a argmins IH]; intros i D0 T0 Ha Hi HD HT; simpl in *; [eauto |].
  apply Forall_cons_iff in Ha as [Ha Has].
  destruct (C_ok D0 k_ i a HD) as [c ->]; [lia | lia | done |]. simpl.
  destruct (set_ok k n _ D0 k_ i c HD) as (D1 & -> & HD1); [lia | lia | done |]. simpl.
  destruct (set_ok k n _ T0 k_ i a HT) as (T1 & -> & HT1); [lia | lia | split; [done | lia] |]. simpl.
  apply IH; [done | lia | done | done].
Qed.

Definition search_ok (s : search) : Prop :=
  costs k n (D s) /\ starts k n (T s) /\ (findk s = true -> 2 <= bestk s <= k).

Lemma round_ok k_ s : 1 <= k_ < k -> search_ok s -> exists s' go, round cc n k_ s = Some (s', go) /\ search_ok s'.
Proof.
  intros Hk_ (HD & HT & Hb). unfold round.
  destruct (Smawk.smawk_total (fun a b => f32_leb b a) f32_ltb (C cc (D s) k_) n n Hn) as (argmins & -> & Hl & Ha).
  { intros r c Hr Hc. apply C_ok; [done | lia | done | done]. }
  simpl. destruct (set_layer_ok k_ Hk_ argmins 0 (D s) (T s)) as (D' & T' & -> & HD' & HT'); [done | lia | done.. |].
  simpl. destruct (proj2 (proj2 HD') (k_ - 1) (n - 1)) as (d0 & -> & _); [lia | lia |]. simpl.
  destruct (proj2 (proj2 HD') k_ (n - 1)) as (d1 & -> & _); [lia | lia |]. simpl.
  destruct (f64_ltb _ _); do 2 eexists; (split; [done |]); split_and!; simpl; try done; lia.
Qed.

Lemma rounds_ok ks : forall s, (forall k_, k_ ∈ ks -> 1 <= k_ < k) -> search_ok s ->
  exists s', rounds cc n ks s = Some s' /\ search_ok s'.
Proof.
  induction ks as [| k_ ks IH]; intros s Hks Hs; simpl; [eauto |].
  destruct (round_ok k_ s) as (s' & go & -> & Hs'); [apply Hks; set_solver | done |]. simpl.
  destruct go; [apply IH; [set_solver | done] | eauto].
Qed.

Lemma running_mean_ok sorted t idxs : (forall i, i ∈ idxs -> i < length sorted) -> forall c,
  is_Some (running_mean sorted t idxs c).
Proof.
  induction idxs as [| i idxs IH]; intros Hi c; simpl; [eauto |].
  destruct (lookup_lt_is_Some_2 sorted i) as [x ->]; [apply Hi; set_solver |]. apply IH. set_solver.
Qed.

Lemma backtrack_ok sorted T0 : length sorted = n -> starts k n T0 -> forall k_ n_ t cents,
  k_ < k -> n_ < n -> t <= n -> k <= length cents ->
  exists cents', backtrack T0 sorted k_ n_ t cents = Some cents' /\ length cents' = length cents.
Proof.
  intros Hs HT. induction k_ as [| k_ IH]; intros n_ t cents Hk_ Hn_ Ht Hc; simpl;
    destruct (proj2 (proj2 HT) _ n_ Hk_ Hn_) as (t' & -> & Ht' & H0); simpl.
  all: destruct (running_mean_ok sorted t' (seq t' (t - t'))) with 0%Z as [c ->];
    [intros i Hi; apply elem_of_seq in Hi; lia |]; simpl;
    rewrite assert_true by (apply Nat.ltb_lt; lia); simpl.
  - rewrite H0 by done. simpl. eexists. split; [done |]. apply length_insert.
  - destruct (Nat.eqb_spec t' 0); [eexists; split; [done |]; apply length_insert |].
    destruct (IH (t' - 1) t' (<[S k_ := c]> cents)) as (cents' & E & L); [lia.. | rewrite length_insert; lia |].
    exists cents'. split; [done |]. by rewrite L, length_insert.
Qed.

End layers.

(** Clustering ends inside its vectors, with the number of clusters it was given or a lesser one. *)
Lemma cluster_ok array n k cents : 0 < n <= length array -> (Z.of_nat n < 2 ^ 64)%Z ->
  existsb f32_is_nan (take n array) = false -> 0 < k <= length cents ->
  exists k' cents', cluster array n k cents = Some (k', cents') /\ length cents' = length cents /\
    (k' = k \/ 2 <= k' <= k).
Proof.
  intros Hn Hbig Hnan Hk. unfold cluster.
  destruct (sorted_array_ok array n) as (s & -> & Hs); [lia | done |]. simpl.
  destruct (calculator_ok s n) as (cc & -> & Hcc); [lia |]. simpl.
  destruct (first_layer_ok k n cc Hcc ltac:(lia) ltac:(lia) Hbig (seq 0 n) (Matrix.make 0%Z k n) (Matrix.make 0 k n))
    as (D0 & T0 & -> & HD & HT).
  { intros i Hi. apply elem_of_seq in Hi. lia. }
  { by apply matrix_ok. }
  { apply matrix_ok. split; [lia | done]. }
  simpl. destruct (rounds_ok k n cc Hcc ltac:(lia) ltac:(lia) Hbig (seq 1 (k - 1))
    {| D := D0; T := T0; ratio_avg := 0; findk := false; bestk := 0 |}) as (s' & -> & HD' & HT' & Hb).
  { intros k_ Hk_. apply elem_of_seq in Hk_. lia. }
  { done. }
  simpl. destruct (findk s') eqn:Ef; simpl; [| eauto 6].
  specialize (Hb eq_refl).
  destruct (backtrack_ok k n cc Hcc ltac:(lia) ltac:(lia) Hbig s (T s') Hs HT' (bestk s' - 1) (n - 1) n cents) as (cents' & -> & L); [lia.. |].
  simpl. do 2 eexists. split; [done |]. auto.
Qed.

Lemma sum_starts_ok cents offset idxs : (forall i, i ∈ idxs -> i < length cents) -> forall start,
  is_Some (sum_starts cents offset idxs start).
Proof.
  induction idxs as [| i idxs IH]; intros Hi start; simpl; [eauto |].
  destruct (lookup_lt_is_Some_2 cents i) as [x ->]; [apply Hi; set_solver |]. apply IH. set_solver.
Qed.

(** The boundaries up to [p] are not above [data], and the others are. *)
Definition splits (data : Z) (boundary : list Z) (n p : Z) : Prop :=
  (0 <= p <= n)%Z /\ forall i b, boundary !! i = Some b ->
    f32_leb b data = (Z.of_nat i <? p)%Z /\ f32_ltb data b = (p <=? Z.of_nat i)%Z.

Lemma f2_loop_finds data boundary n p : (n < 2 ^ 30)%Z -> (n <= Z.of_nat (length boundary))%Z ->
  splits data boundary n p -> forall fuel low high,
  (0 <= low <= p)%Z -> (p <= high <= n)%Z -> (high - low <= Z.of_nat fuel)%Z ->
  f2_loop fuel data boundary low high = Some p.
Proof.
  intros Hn Hlen [Hp Hb]. induction fuel as [| fuel IH]; intros low high Hlow Hhigh Hf; simpl.
  - replace (low =? high)%Z with true by (symmetry; apply Z.eqb_eq; lia). f_equal. lia.
  - destruct (Z.eqb_spec low high) as [-> | Hne]; [f_equal; lia |].
    rewrite (i32_id (low + high)) by (unfold is_i32; lia). rewrite Z.quot_div_nonneg by lia.
    pose proof (Z.div_mod (low + high) 2 ltac:(lia)). pose proof (Z.mod_pos_bound (low + high) 2 ltac:(lia)).
    set (mid := ((low + high) / 2)%Z) in *. rewrite assert_true by (apply Z.leb_le; lia). simpl.
    destruct (lookup_lt_is_Some_2 boundary (Z.to_nat mid)) as [b Eb]; [lia |]. rewrite Eb. simpl.
    destruct (Hb _ _ Eb) as [-> _]. rewrite Z2Nat.id by lia.
    destruct (Z.ltb_spec mid p).
    + rewrite i32_id by (unfold is_i32; lia). apply IH; lia.
    + apply IH; lia.
Qed.

Lemma f3_loop_finds data boundary n p : (n <= Z.of_nat (length boundary))%Z -> splits data boundary n p ->
  forall len i, (Z.of_nat (i + len) = n)%Z -> (Z.of_nat i <= Z.max 1 p)%Z -> 1 <= i ->
  f3_loop data boundary n (seq i len) = Some (Z.max 1 p - 1)%Z.
Proof.
  intros Hlen [Hp Hb]. induction len as [| len IH]; intros i Hi Hip H1; simpl; [f_equal; lia |].
  destruct (lookup_lt_is_Some_2 boundary i) as [b Eb]; [lia |]. rewrite Eb. simpl.
  destruct (Hb _ _ Eb) as [_ ->]. destruct (Z.leb_spec p (Z.of_nat i)); [f_equal; lia |].
  apply IH; lia.
Qed.

Lemma max_element_ok data : data <> [] -> is_Some (max_element data).
Proof. by destruct data; [| simpl; eauto]. Qed.

(** A sample that is not the whole is never built. *)
Lemma draw_none data dis2 sample_num : 0 < sample_num -> draw data dis2 (seq 0 sample_num) [] = None.
Proof. destruct sample_num; [lia |]. intros _. simpl. by destruct (data !! dis2 0). Qed.

End kmeans.

#[local] Open Scope nat_scope.

(** C40: [get_cluster] on the whole of its data, of any number of values none of which is a NaN, and for any
    implementation of sorting: the costs, the dynamic programming with SMAWK, the way back over
    the clusters and the averages stay inside their vectors and end, although the rounded costs need
    not be totally monotone; the start and the distance of the levels are kept where there is no
    distinguished number of clusters.  With any other number of samples the vector that is only reserved is
    written past its end. *)
Theorem get_cluster_runs `{StdSort} data num level_start level_offset sample_num dis2 :
  0 < num <= length data -> (Z.of_nat num < 2 ^ 64)%Z -> existsb f32_is_nan (take num data) = false ->
  0 < sample_num ->
  if sample_num =? num then
    exists k cents, cluster (take num data) num 150 (replicate 150 0%Z) = Some (k, cents) /\ 2 <= k <= 150 /\
      exists levels, get_cluster data num level_start level_offset sample_num dis2 = Some levels /\
        (k = 150 -> levels = (level_start, level_offset, 0%Z))
  else get_cluster data num level_start level_offset sample_num dis2 = None.
Proof.
  intros Hn Hbig Hnan Hs. unfold get_cluster, sample_of.
  rewrite (assert_true (num <=? length data)) by (apply Nat.leb_le; lia). cbn [mbind option_bind].
  destruct (max_element_ok (take num data)) as [max ->].
  { intros E. apply (f_equal length) in E. rewrite length_take in E. simpl in E. lia. }
  cbn [mbind option_bind]. rewrite Nat.eqb_sym. destruct (Nat.eqb_spec num sample_num) as [<- | Hne]; [| by rewrite draw_none].
  cbn [mbind option_bind]. destruct (cluster_ok (take num data) num 150 (replicate 150 0%Z)) as (k & cents & E & L & Hk).
  - rewrite length_take. lia.
  - done.
  - by rewrite take_take, Nat.min_id.
  - rewrite length_replicate. lia.
  - rewrite length_replicate in L. exists k, cents. split; [done |]. assert (2 <= k <= 150) by lia. split; [done |].
    rewrite E. cbn [mbind option_bind]. destruct (Nat.eqb_spec k 150) as [-> | Hne]; [eauto |].
    destruct (lookup_lt_is_Some_2 cents (k - 1)) as [last ->]; [lia |]. simpl.
    destruct (lookup_lt_is_Some_2 cents 0) as [first ->]; [lia |]. simpl.
    edestruct sum_starts_ok as [start ->]; [| simpl; eexists; split; [done | lia]].
    intros i Hi. apply elem_of_seq in Hi. lia.
Qed.

(** The binary search finds where the boundaries pass the value, and the linear search the interval
    before it. *)
Theorem boundary_searches data boundary n p :
  (0 < n < 2 ^ 30)%Z -> (n <= Z.of_nat (length boundary))%Z -> splits data boundary n p ->
  f2 data boundary n = Some p /\ f3 data boundary n = Some (Z.max 1 p - 1)%Z.
Proof.
  intros Hn Hlen Hs. pose proof (proj1 Hs). split.
  - apply (f2_loop_finds data boundary n p); try done; lia.
  - apply (f3_loop_finds data boundary n p); try done; lia.
Qed.

(** Six values around 1.5, 100.5 and 201.5: three levels from 1.1666666 on at a distance of 100. *)
Definition sample_values : list Z :=
  [f32_of_Z 1; f32_of_Z 101; f32_of_Z 2; f32_of_Z 100; f32_of_Z 203; f32_of_Z 200].

Lemma get_cluster_runs_witness :
  exists k cents, cluster (take 6 sample_values) 6 150 (replicate 150 0%Z) = Some (k, cents) /\ 2 <= k <= 150 /\
    exists levels, get_cluster sample_values 6 0%Z 0%Z 6 id = Some levels /\ (k = 150 -> levels = (0, 0, 0)%Z).
Proof. by apply (get_cluster_runs sample_values 6 0 0 6 id); [simpl; lia | | vm_compute | lia]. Defined.

Example get_cluster_levels :
  get_cluster sample_values 6 0%Z 0%Z 6 id = Some (0x3f955555, 0x42c80000, 3)%Z.
Proof. by vm_compute. Qed.

End Kmeans.
