(* ===== verification/ElfXor.v ===== *)
(** * ElfXor: the XOR layer of the Elf codec

    Models the classes [ElfXORCompressor] of [elf/ElfCompressor.cpp] and
    [ElfXORDecompressor] of [elf/ElfDecompressor.cpp]: a sequence of 64-bit patterns,
    each stored as the exclusive or with its predecessor.  The last bit of a new centre
    is not stored, because it is one. *)

From Stdlib Require Import ZArith Lia.
From S2P Require Import Prelude Bits Bytes BitStream Chimp.

Module ElfXor.

Definition leadingRepresentation : list Z :=
  [0; 0; 0; 0; 0; 0; 0; 0;
   1; 1; 1; 1; 2; 2; 2; 2;
   3; 3; 4; 4; 5; 5; 6; 6;
   7; 7; 7; 7; 7; 7; 7; 7;
   7; 7; 7; 7; 7; 7; 7; 7;
   7; 7; 7; 7; 7; 7; 7; 7;
   7; 7; 7; 7; 7; 7; 7; 7;
   7; 7; 7; 7; 7; 7; 7; 7].

Definition leadingRound : list Z :=
  [0; 0; 0; 0; 0; 0; 0; 0;
   8; 8; 8; 8; 12; 12; 12; 12;
   16; 16; 18; 18; 20; 20; 22; 22;
   24; 24; 24; 24; 24; 24; 24; 24;
   24; 24; 24; 24; 24; 24; 24; 24;
   24; 24; 24; 24; 24; 24; 24; 24;
   24; 24; 24; 24; 24; 24; 24; 24;
   24; 24; 24; 24; 24; 24; 24; 24].

(** ** The compressor *)

Record ElfXORCompressor := {
  c_leading : Z;
  c_trailing : Z;
  c_storedVal : Z;
  c_first : bool;
  c_size : Z;
  c_length : Z;
  c_writer : BitWriter
}.

Section compressor.

(** The value of [__builtin_ctzl] at zero. *)
Variable ctz0 : Z.

(** When [trailingZeros] is 63 the shift by 64 is undefined, but no bit of its result is
    written. *)
Definition writeFirst (s : ElfXORCompressor) (value : Z) : option (Z * ElfXORCompressor) :=
  let trailingZeros := ctz ctz0 value in
  w ← write (c_writer s) trailingZeros 7;
  if value =? 0 then
    Some (7, {| c_leading := c_leading s; c_trailing := c_trailing s; c_storedVal := value;
                c_first := false; c_size := c_size s + 7; c_length := 1; c_writer := w |})
  else
    w ← writeLong w (Z.shiftr value (trailingZeros + 1)) (63 - trailingZeros);
    Some (70 - trailingZeros,
          {| c_leading := c_leading s; c_trailing := c_trailing s; c_storedVal := value;
             c_first := false; c_size := c_size s + (70 - trailingZeros); c_length := 1;
             c_writer := w |}).

Definition compressValue (s : ElfXORCompressor) (value : Z) : option (Z * ElfXORCompressor) :=
  let _xor := Z.lxor (c_storedVal s) value in
  if _xor =? 0 then
    w ← write (c_writer s) 1 2;
    Some (2, {| c_leading := c_leading s; c_trailing := c_trailing s;
                c_storedVal := c_storedVal s; c_first := c_first s; c_size := c_size s + 2;
                c_length := c_length s + 1; c_writer := w |})
  else
    leadingZeros ← leadingRound !! Z.to_nat (clz 64 _xor);
    let trailingZeros := ctz ctz0 _xor in
    if (leadingZeros =? c_leading s) && (c_trailing s <=? trailingZeros) then
      let centerBits := 64 - c_leading s - c_trailing s in
      let len := 2 + centerBits in
      w ← (if 64 <? len then
             w ← write (c_writer s) 0 2;
             writeLong w (Z.shiftr _xor (c_trailing s)) centerBits
           else writeLong (c_writer s) (Z.shiftr _xor (c_trailing s)) len);
      Some (len, {| c_leading := c_leading s; c_trailing := c_trailing s; c_storedVal := value;
                    c_first := c_first s; c_size := c_size s + len;
                    c_length := c_length s + 1; c_writer := w |})
    else
      let centerBits := 64 - leadingZeros - trailingZeros in
      rep ← leadingRepresentation !! Z.to_nat leadingZeros;
      wn ← (if centerBits <=? 16 then
              w ← write (c_writer s)
                    (Z.lor (Z.shiftl (Z.lor (Z.shiftl 2 3) rep) 4) (Z.land centerBits 0xf)) 9;
              w ← writeLong w (Z.shiftr _xor (trailingZeros + 1)) (centerBits - 1);
              Some (w, 8 + centerBits)
            else
              w ← write (c_writer s)
                    (Z.lor (Z.shiftl (Z.lor (Z.shiftl 3 3) rep) 6) (Z.land centerBits 0x3f)) 11;
              w ← writeLong w (Z.shiftr _xor (trailingZeros + 1)) (centerBits - 1);
              Some (w, 10 + centerBits));
      Some (wn.2, {| c_leading := leadingZeros; c_trailing := trailingZeros;
                     c_storedVal := value; c_first := c_first s; c_size := c_size s + wn.2;
                     c_length := c_length s + 1; c_writer := wn.1 |}).

Definition addValue (s : ElfXORCompressor) (value : Z) : option (Z * ElfXORCompressor) :=
  if c_first s then writeFirst s value else compressValue s value.

End compressor.

(** [init]: the capacity is 12 bytes per value. *)
Definition c_init (length : Z) : option ElfXORCompressor :=
  w ← initBitWriter (u64 (length * 12) / 4);
  Some {| c_leading := INT32_MAX; c_trailing := INT32_MAX; c_storedVal := 0; c_first := true;
          c_size := 32; c_length := 0; c_writer := w |}.

(** [close]: the words of the output, the length first. *)
Definition c_close (s : ElfXORCompressor) : option (list Z) :=
  wr ← flush (c_writer s);
  Some (u32 (c_length s) :: bw_output wr.1).

(** ** The decompressor *)

Definition leadingRepresentationD : list Z := [0; 8; 12; 16; 18; 20; 22; 24].

Record ElfXORDecompressor := {
  d_storedVal : Z;
  d_leading : Z;
  d_trailing : Z;
  d_first : bool;
  d_reader : BitReader;
  d_length : Z
}.

(** [nextValue]; the shift [<< storedTrailingZeros] is checked. *)
Definition nextValue (s : ElfXORDecompressor) : option ElfXORDecompressor :=
  let set_val v lz tz r :=
    Some {| d_storedVal := v; d_leading := lz; d_trailing := tz; d_first := d_first s;
            d_reader := r; d_length := d_length s |} in
  flag ← peek (d_reader s) 2;
  r ← forward (d_reader s) 2;
  if flag =? 3 then
    leadAndCenter ← peek r 9;
    r ← forward r 9;
    lz ← leadingRepresentationD !! Z.to_nat (Z.shiftr leadAndCenter 6);
    let centerBits := Z.land leadAndCenter 0x3f in
    let centerBits := if centerBits =? 0 then 64 else centerBits in
    let tz := 64 - lz - centerBits in
    _ ← assert ((0 <=? tz) && (tz <? 64));
    vr ← readLong r (centerBits - 1);
    let value := shl64 (u64 (shl64 vr.1 1 + 1)) tz in
    set_val (Z.lxor (d_storedVal s) value) lz tz vr.2
  else if flag =? 2 then
    leadAndCenter ← peek r 7;
    r ← forward r 7;
    lz ← leadingRepresentationD !! Z.to_nat (Z.shiftr leadAndCenter 4);
    let centerBits := Z.land leadAndCenter 0xf in
    let centerBits := if centerBits =? 0 then 16 else centerBits in
    let tz := 64 - lz - centerBits in
    _ ← assert ((0 <=? tz) && (tz <? 64));
    vr ← readLong r (centerBits - 1);
    let value := shl64 (u64 (shl64 vr.1 1 + 1)) tz in
    set_val (Z.lxor (d_storedVal s) value) lz tz vr.2
  else if flag =? 1 then
    set_val (d_storedVal s) (d_leading s) (d_trailing s) r
  else
    let centerBits := 64 - d_leading s - d_trailing s in
    _ ← assert ((0 <=? d_trailing s) && (d_trailing s <? 64) && (0 <=? centerBits));
    vr ← readLong r centerBits;
    let value := shl64 vr.1 (d_trailing s) in
    set_val (Z.lxor (d_storedVal s) value) (d_leading s) (d_trailing s) vr.2.

Definition next (s : ElfXORDecompressor) : option ElfXORDecompressor :=
  if d_first s then
    trailingZeros ← peek (d_reader s) 7;
    r ← forward (d_reader s) 7;
    if trailingZeros <? 64 then
      vr ← readLong r (63 - trailingZeros);
      Some {| d_storedVal := shl64 (u64 (shl64 vr.1 1 + 1)) trailingZeros;
              d_leading := d_leading s; d_trailing := d_trailing s; d_first := false;
              d_reader := vr.2; d_length := d_length s |}
    else
      Some {| d_storedVal := 0; d_leading := d_leading s; d_trailing := d_trailing s;
              d_first := false; d_reader := r; d_length := d_length s |}
  else nextValue s.

(** [readValue]. *)
Definition readValue (s : ElfXORDecompressor) : option (Z * ElfXORDecompressor) :=
  s ← next s; Some (d_storedVal s, s).

(** [init(in, len)], on the words of the input. *)
Definition d_init (input : list Z) (len : Z) : option ElfXORDecompressor :=
  length ← input !! 0%nat;
  r ← initBitReader (tail input) (len - 1);
  Some {| d_storedVal := 0; d_leading := INT32_MAX; d_trailing := INT32_MAX;
          d_first := true; d_reader := r; d_length := length |}.

(** ** The simulation *)

Lemma elf_tables_ok k :
  0 <= k < 64 ->
  exists lz j, leadingRound !! Z.to_nat k = Some lz /\
    leadingRepresentation !! Z.to_nat lz = Some j /\
    leadingRepresentationD !! Z.to_nat j = Some lz /\ 0 <= lz <= k /\ lz <= 24 /\ 0 <= j < 8.
Proof. by apply tables_agree_spec. Qed.

#[local] Opaque leadingRound leadingRepresentation leadingRepresentationD.

(** A centre without its last bit, and back. *)
Lemma center_recover z x tz cb :
  tz = ctz z x -> 0 < x < 2 ^ (tz + cb) -> 1 <= cb -> tz + cb <= 64 ->
  shl64 (u64 (shl64 (Z.shiftr x (tz + 1) mod 2 ^ (cb - 1)) 1 + 1)) tz = x.
Proof.
  intros Htz Hx Hcb Hle. pose proof (ctz_nonneg z x ltac:(lia)) as H0. rewrite <- Htz in H0.
  assert (0 <= Z.shiftr x tz < 2 ^ cb) as Hs by (apply shiftr_range; lia).
  assert (Z.shiftr x tz = 2 * Z.shiftr x (tz + 1) + 1) as Hodd.
  { pose proof (ctz_odd z x ltac:(lia)) as Ho. rewrite <- Htz in Ho.
    rewrite <- Z.shiftr_shiftr, (Z.shiftr_div_pow2 _ 1) by lia. change (2 ^ 1) with 2.
    pose proof (Z.div_mod (Z.shiftr x tz) 2 ltac:(lia)). lia. }
  assert (2 ^ cb = 2 * 2 ^ (cb - 1)) as Hp by (rewrite <- Z.pow_succ_r by lia; f_equal; lia).
  assert (2 ^ cb <= 2 ^ 64) by (apply Z.pow_le_mono_r; lia).
  assert (2 ^ (tz + cb) <= 2 ^ 64) by (apply Z.pow_le_mono_r; lia).
  rewrite Z.mod_small by lia. unfold shl64 at 2. rewrite Z.shiftl_mul_pow2 by lia.
  rewrite (u64_id (Z.shiftr x (tz + 1) * 2 ^ 1)) by (unfold is_u64; lia).
  rewrite u64_id by (unfold is_u64; lia).
  replace (Z.shiftr x (tz + 1) * 2 ^ 1 + 1) with (Z.shiftr x tz) by lia.
  unfold shl64. rewrite Z.shiftl_mul_pow2 by lia.
  rewrite (ctz_shift z x tz) by lia. apply u64_id. unfold is_u64. lia.
Qed.

Definition comp_ok (s : ElfXORCompressor) : Prop :=
  is_u64 (c_storedVal s) /\
  (24 < c_leading s \/
   0 <= c_leading s <= 24 /\ 0 <= c_trailing s /\ c_leading s + c_trailing s < 64).

Definition sim (s : ElfXORCompressor) (d : ElfXORDecompressor) : Prop :=
  c_storedVal s = d_storedVal d /\ c_leading s = d_leading d /\
  c_trailing s = d_trailing d /\ c_first s = d_first d.

(** What adding [v] in state [s] does, and that the decompressor undoes it. *)
Definition add_correct (s : ElfXORCompressor) (bs : list bool) (v : Z)
    (res : option (Z * ElfXORCompressor)) : Prop :=
  exists n s' c, res = Some (n, s') /\ writes (c_writer s') (bs ++ c) /\
    bw_len (c_writer s') = bw_len (c_writer s) /\ Z.of_nat (length c) = n /\ 2 <= n <= 74 /\
    comp_ok s' /\ c_first s' = false /\ c_size s' = c_size s + n /\
    c_length s' = (if c_first s then 1 else c_length s + 1) /\
    forall d tl, sim s d -> reads (d_reader d) (c ++ tl) ->
      exists d', readValue d = Some (v, d') /\ sim s' d' /\ reads (d_reader d') tl /\
        d_length d' = d_length d.

Lemma writeFirst_correct ctz0 s bs v :
  writes (c_writer s) bs -> Z.of_nat (length bs) + 74 <= 32 * bw_len (c_writer s) ->
  comp_ok s -> c_first s = true -> is_u64 v -> (v = 0 -> 64 <= ctz0 < 128) ->
  add_correct s bs v (writeFirst ctz0 s v).
Proof.
  intros Hw Hcap [_ Hok] Hfirst Hv Hctz. unfold writeFirst, add_correct. rewrite Hfirst.
  write_step. destruct (Z.eqb_spec v 0) as [-> | Hne].
  - specialize (Hctz eq_refl). eexists _, _, (bits 7 ctz0). split; [done |]. simpl. split; [done |]. split; [lia |].
    rewrite length_bits. split_and!; try done. intros d tl (E1 & E2 & E3 & E4) Hr.
    unfold readValue, next. rewrite <- E4, Hfirst. do 2 read_step. rewrite Z.mod_small by lia.
    replace (ctz0 <? 64) with false by (symmetry; apply Z.ltb_ge; lia). simpl.
    eexists. split; [done |]. split; [split; [done |]; auto |]. auto.
  - unfold is_u64 in Hv. pose proof (ctz_nonneg ctz0 v ltac:(lia)) as H0.
    pose proof (ctz_lt ctz0 v 64 ltac:(lia) ltac:(lia)) as H1. set (tz := ctz ctz0 v) in *.
    write_step. eexists _, _, (bits 7 tz ++ bits (63 - tz) (Z.shiftr v (tz + 1))).
    split; [done |]. simpl. rewrite app_assoc. split; [done |]. split; [lia |].
    rewrite length_app, !length_bits. split_and!; try done; try lia.
    intros d tl (E1 & E2 & E3 & E4) Hr. rewrite <- app_assoc in Hr.
    unfold readValue, next. rewrite <- E4, Hfirst. do 2 read_step. rewrite Z.mod_small by lia.
    replace (tz <? 64) with true by (symmetry; apply Z.ltb_lt; lia). read_step. simpl.
    replace (63 - tz) with (64 - tz - 1) by lia.
    rewrite (center_recover ctz0) by (try done; replace (tz + (64 - tz)) with 64 by lia; lia).
    eexists. split; [done |]. split; [split; [done |]; auto |]. auto.
Qed.

Lemma xor_facts z a b :
  is_u64 a -> is_u64 b -> Z.lxor a b <> 0 ->
  0 < Z.lxor a b < 2 ^ 64 /\ 0 <= clz 64 (Z.lxor a b) < 64 /\ 0 <= ctz z (Z.lxor a b) /\
  clz 64 (Z.lxor a b) + ctz z (Z.lxor a b) < 64 /\
  forall lz, lz <= clz 64 (Z.lxor a b) -> Z.lxor a b < 2 ^ (64 - lz).
Proof.
  intros Ha Hb Hne. pose proof (lxor_range a b 64 ltac:(lia) Ha Hb).
  split; [lia |]. split; [apply clz_range; lia |]. split; [apply ctz_nonneg; lia |].
  split; [apply clz_ctz; lia |]. intros lz Hlz.
  apply Z.lt_le_trans with (2 ^ (64 - clz 64 (Z.lxor a b))).
  - apply clz_lt. lia.
  - apply Z.pow_le_mono_r; lia.
Qed.

(** The header of a new centre: flag, three bits for the leading zeros, [k] bits for its
    length. *)
Lemma center_header f rep cb k :
  (f = 2 \/ f = 3) -> 0 <= k -> 0 <= rep < 8 ->
  bits (2 + (3 + k)) (Z.lor (Z.shiftl (Z.lor (Z.shiftl f 3) rep) k) (Z.land cb (Z.ones k)))
  = bits 2 f ++ bits (3 + k) (rep * 2 ^ k + cb mod 2 ^ k).
Proof.
  intros Hf Hk Hrep. rewrite Z.land_ones, !Z.shiftl_mul_pow2 by lia.
  pose proof (Z.mod_pos_bound cb (2 ^ k) ltac:(lia)) as Hm.
  rewrite (lor_add_disjoint f rep 3), lor_add_disjoint by lia.
  rewrite <- bits_val_app_bits; try lia.
  - f_equal. rewrite Z.pow_add_r by lia. lia.
  - rewrite Z.pow_add_r by lia. change (2 ^ 3) with 8. nia.
Qed.

Lemma center_fields rep cb k :
  0 <= k -> 0 <= rep < 8 ->
  let t := rep * 2 ^ k + cb mod 2 ^ k in
  t mod 2 ^ (3 + k) = t /\ Z.shiftr t k = rep /\ Z.land t (Z.ones k) = cb mod 2 ^ k.
Proof.
  intros Hk Hrep t. pose proof (Z.mod_pos_bound cb (2 ^ k) ltac:(lia)) as Hm. split_and!.
  - apply Z.mod_small. rewrite Z.pow_add_r by lia. change (2 ^ 3) with 8. subst t. nia.
  - rewrite Z.shiftr_div_pow2 by lia. subst t. rewrite Z.div_add_l, Z.div_small by lia. lia.
  - rewrite Z.land_ones by lia. subst t. rewrite Z.add_comm, Z.mod_add, Z.mod_mod by lia. done.
Qed.

(** The three ways [compressValue] stores a difference, read back by [nextValue]. *)
Lemma read_repeat d tl :
  reads (d_reader d) (bits 2 1 ++ tl) ->
  exists r, reads r tl /\
    nextValue d = Some {| d_storedVal := d_storedVal d; d_leading := d_leading d;
      d_trailing := d_trailing d; d_first := d_first d; d_reader := r;
      d_length := d_length d |}.
Proof. intros Hr. unfold nextValue. do 2 read_step. change (1 mod 2 ^ 2) with 1. by eexists. Qed.

Lemma read_window z d x tl :
  0 < x < 2 ^ (64 - d_leading d) -> 0 <= d_leading d -> 0 <= d_trailing d <= ctz z x ->
  d_leading d + d_trailing d < 64 ->
  reads (d_reader d)
    (bits 2 0 ++ bits (64 - d_leading d - d_trailing d) (Z.shiftr x (d_trailing d)) ++ tl) ->
  exists r, reads r tl /\
    nextValue d = Some {| d_storedVal := Z.lxor (d_storedVal d) x; d_leading := d_leading d;
      d_trailing := d_trailing d; d_first := d_first d; d_reader := r;
      d_length := d_length d |}.
Proof.
  intros Hx Hl Ht Hlt Hr. unfold nextValue. do 2 read_step. change (0 mod 2 ^ 2) with 0.
  cbn [Z.eqb]. rewrite assert_true by (rewrite !andb_true_iff, !Z.leb_le, Z.ltb_lt; lia).
  cbn [mbind option_bind]. read_step. eexists. split; [done |]. do 3 f_equal.
  rewrite Z.mod_small
    by (apply shiftr_range; [lia | lia |]; replace (d_trailing d + _) with (64 - d_leading d) by lia; lia).
  unfold shl64. rewrite Z.shiftl_mul_pow2 by lia. rewrite (ctz_shift z x) by lia.
  apply u64_id. unfold is_u64. split; [lia |].
  apply Z.lt_le_trans with (2 ^ (64 - d_leading d)); [lia | apply Z.pow_le_mono_r; lia].
Qed.

(** A new centre: [f] is 2 with a 4-bit length or 3 with a 6-bit length. *)
Lemma read_center z d x f k lz rep cb tl :
  f = 2 /\ k = 4 /\ cb <= 16 \/ f = 3 /\ k = 6 /\ 16 < cb <= 64 ->
  leadingRepresentationD !! Z.to_nat rep = Some lz -> 0 <= rep < 8 -> 0 <= lz ->
  1 <= cb -> cb = 64 - lz - ctz z x -> 0 <= ctz z x -> 0 < x < 2 ^ (64 - lz) ->
  reads (d_reader d)
    (bits 2 f ++ bits (3 + k) (rep * 2 ^ k + cb mod 2 ^ k)
       ++ bits (cb - 1) (Z.shiftr x (ctz z x + 1)) ++ tl) ->
  exists r, reads r tl /\
    nextValue d = Some {| d_storedVal := Z.lxor (d_storedVal d) x; d_leading := lz;
      d_trailing := ctz z x; d_first := d_first d; d_reader := r; d_length := d_length d |}.
Proof.
  intros Hf Hrep Hr8 Hlz Hcb1 Hcb Htz Hx Hr.
  destruct (center_fields rep cb k) as (F1 & F2 & F3); [lia.. |].
  assert ((if cb mod 2 ^ k =? 0 then 2 ^ k else cb mod 2 ^ k) = cb) as Hlen.
  { pose proof (Z.div_mod cb (2 ^ k)). pose proof (Z.mod_pos_bound cb (2 ^ k)).
    destruct Hf as [(-> & -> & Hc) | (-> & -> & Hc)];
      [change (2 ^ 4) with 16 in * | change (2 ^ 6) with 64 in *];
      case Z.eqb_spec; lia. }
  unfold nextValue. do 2 read_step.
  replace (f mod 2 ^ 2) with f by (destruct Hf as [(-> & _) | (-> & _)]; done).
  assert (64 - lz - cb = ctz z x) as Et by lia.
  destruct Hf as [(-> & -> & Hc) | (-> & -> & Hc)]; cbn [Z.eqb Pos.eqb];
    change (3 + 4) with 7 in *; change (3 + 6) with 9 in *;
    do 2 read_step; rewrite F1, F2, Hrep; cbn [mbind option_bind];
    change 0xf with (Z.ones 4); change 0x3f with (Z.ones 6);
    rewrite F3; [change (2 ^ 4) with 16 in * | change (2 ^ 6) with 64 in *];
    rewrite Hlen, Et, assert_true by (rewrite !andb_true_iff, !Z.leb_le, Z.ltb_lt; lia);
    cbn [mbind option_bind]; read_step; (eexists; split; [done |]);
    rewrite (center_recover z x) by (try done; rewrite ?Hcb; lia || (replace (ctz z x + _) with (64 - lz) by lia; lia));
    done.
Qed.

(** What [compressValue] writes: the old window, or a new centre. *)
Lemma elf_write_window w bs y cb :
  writes w bs -> Z.of_nat (length bs) + 74 <= 32 * bw_len w ->
  0 <= cb <= 64 -> 0 <= y < 2 ^ cb ->
  exists w', (if 64 <? 2 + cb then w ← write w 0 2; writeLong w y cb
              else writeLong w y (2 + cb)) = Some w' /\
    writes w' (bs ++ bits 2 0 ++ bits cb y) /\ bw_len w' = bw_len w.
Proof.
  intros Hw Hcap Hcb Hy. destruct (Z.ltb_spec 64 (2 + cb)).
  - write_step. write_step. eexists. split; [done |]. rewrite <- app_assoc in Hw.
    split; [done | lia].
  - rewrite <- bits_small_app by lia. write_step. by eexists.
Qed.

Lemma write_center w bs f k rep cb y :
  writes w bs -> Z.of_nat (length bs) + 74 <= 32 * bw_len w ->
  f = 2 /\ k = 4 \/ f = 3 /\ k = 6 -> 0 <= rep < 8 -> 1 <= cb <= 64 ->
  exists w1 w2,
    write w (Z.lor (Z.shiftl (Z.lor (Z.shiftl f 3) rep) k) (Z.land cb (Z.ones k))) (5 + k)
      = Some w1 /\
    writeLong w1 y (cb - 1) = Some w2 /\
    writes w2 (bs ++ bits 2 f ++ bits (3 + k) (rep * 2 ^ k + cb mod 2 ^ k) ++ bits (cb - 1) y) /\
    bw_len w2 = bw_len w.
Proof.
  intros Hw Hcap Hf Hrep Hcb. 
  destruct (write_writes _ _ (Z.lor (Z.shiftl (Z.lor (Z.shiftl f 3) rep) k)
    (Z.land cb (Z.ones k))) (5 + k) Hw) as (w1 & E & Hw1 & L1); [lia.. |].
  replace (5 + k) with (2 + (3 + k)) in Hw1 by lia. rewrite center_header in Hw1 by lia.
  destruct (writeLong_writes _ _ y (cb - 1) Hw1) as (w2 & E' & Hw2 & L2);
    [lia | rewrite !length_app, !length_bits; lia |].
  exists w1, w2. rewrite <- !app_assoc in Hw2. split_and!; try done. lia.
Qed.

Lemma write_centers w bs rep cb y :
  writes w bs -> Z.of_nat (length bs) + 74 <= 32 * bw_len w ->
  0 <= rep < 8 -> 1 <= cb <= 64 ->
  exists w' f k,
    (if cb <=? 16 then
       w ← write w (Z.lor (Z.shiftl (Z.lor (Z.shiftl 2 3) rep) 4) (Z.land cb 0xf)) 9;
       w ← writeLong w y (cb - 1);
       Some (w, 8 + cb)
     else
       w ← write w (Z.lor (Z.shiftl (Z.lor (Z.shiftl 3 3) rep) 6) (Z.land cb 0x3f)) 11;
       w ← writeLong w y (cb - 1);
       Some (w, 10 + cb)) = Some (w', 4 + k + cb) /\
    (f = 2 /\ k = 4 /\ cb <= 16 \/ f = 3 /\ k = 6 /\ 16 < cb <= 64) /\
    writes w' (bs ++ bits 2 f ++ bits (3 + k) (rep * 2 ^ k + cb mod 2 ^ k) ++ bits (cb - 1) y) /\
    bw_len w' = bw_len w.
Proof.
  intros Hw Hcap Hrep Hcb. change 0xf with (Z.ones 4). change 0x3f with (Z.ones 6).
  change 9 with (5 + 4). change 11 with (5 + 6). destruct (Z.leb_spec cb 16).
  - destruct (write_center w bs 2 4 rep cb y Hw Hcap) as (w1 & w2 & -> & E & R); [lia.. |].
    cbn [mbind option_bind]. rewrite E. exists w2, 2, 4. split; [done |]. split; [lia | done].
  - destruct (write_center w bs 3 6 rep cb y Hw Hcap) as (w1 & w2 & -> & E & R); [lia.. |].
    cbn [mbind option_bind]. rewrite E. exists w2, 3, 6. split; [done |]. split; [lia | done].
Qed.

(** Closes the reading half of [add_correct] once [nextValue] is known. *)
Ltac next_done E4 Hfirst E E1 Hback :=
  unfold readValue, next; rewrite <- E4, Hfirst, E; cbn [mbind option_bind d_storedVal];
  rewrite <- E1, ?Hback; eexists; split; [done |];
  unfold sim; simpl; split_and!; first [done | congruence].

(** [compressValue] stores every value so that [nextValue] reads it back. *)
Lemma compressValue_correct ctz0 s bs v :
  writes (c_writer s) bs -> Z.of_nat (length bs) + 74 <= 32 * bw_len (c_writer s) ->
  comp_ok s -> c_first s = false -> is_u64 v ->
  add_correct s bs v (compressValue ctz0 s v).
Proof.
  intros Hw Hcap [Hst Hok] Hfirst Hv. unfold compressValue, add_correct. rewrite Hfirst.
  destruct (Z.eqb_spec (Z.lxor (c_storedVal s) v) 0) as [Hx0 | Hne].
  { write_step. eexists _, _, (bits 2 1). split; [done |]. simpl. rewrite length_bits.
    apply Z.lxor_eq in Hx0. split_and!; try done.
    intros d tl (E1 & E2 & E3 & E4) Hr. destruct (read_repeat d tl Hr) as (r & Hr' & E).
    next_done E4 Hfirst E E1 Hx0. }
  destruct (xor_facts ctz0 _ _ Hst Hv Hne) as (Hx & Hclz & Hctz & Hsum & Hlt).
  set (x := Z.lxor (c_storedVal s) v) in *.
  assert (Z.lxor (c_storedVal s) x = v) as Hback by (subst x; apply lxor_cancel).
  destruct (elf_tables_ok (clz 64 x) Hclz) as (lz & rep & -> & T2 & T3 & Hlz & Hlz24 & Hrep8).
  cbn [mbind option_bind]. specialize (Hlt lz ltac:(lia)).
  destruct ((lz =? c_leading s) && (c_trailing s <=? ctz ctz0 x)) eqn:Ewin.
  - apply andb_true_iff in Ewin as [->%Z.eqb_eq Htz%Z.leb_le].
    destruct Hok as [Hok | Hok]; [lia |].
    destruct (elf_write_window (c_writer s) bs (Z.shiftr x (c_trailing s))
      (64 - c_leading s - c_trailing s)) as (w & -> & Hw' & Hlen); try done; try lia.
    { apply shiftr_range; [lia.. |].
      replace (c_trailing s + _) with (64 - c_leading s) by lia. lia. }
    cbn [mbind option_bind]. eexists _, _, _. split; [done |]. simpl. split; [exact Hw' |].
    split; [done |]. rewrite length_app, !length_bits. split_and!; try done; try lia.
    { split; [done |]. simpl. lia. }
    intros d tl (E1 & E2 & E3 & E4) Hr. rewrite <- app_assoc, E2, E3 in *.
    destruct (read_window ctz0 d x tl) as (r & Hr' & E); [lia.. | done |].
    next_done E4 Hfirst E E1 Hback.
  - rewrite T2. cbn [mbind option_bind].
    destruct (write_centers (c_writer s) bs rep (64 - lz - ctz ctz0 x)
      (Z.shiftr x (ctz ctz0 x + 1))) as (w & f & k & -> & Hfk & Hw' & Hlen); try done; try lia.
    cbn [mbind option_bind fst snd]. eexists _, _, _. split; [done |]. simpl. split; [exact Hw' |].
    split; [done |]. rewrite !length_app, !length_bits. split_and!; try done; try lia.
    { split; [done |]. simpl. lia. }
    intros d tl (E1 & E2 & E3 & E4) Hr. rewrite <- !app_assoc in Hr.
    destruct (read_center ctz0 d x f k lz rep (64 - lz - ctz ctz0 x) tl) as (r & Hr' & E);
      try done; try lia.
    next_done E4 Hfirst E E1 Hback.
Qed.

Lemma addValue_correct ctz0 s bs v :
  writes (c_writer s) bs -> Z.of_nat (length bs) + 74 <= 32 * bw_len (c_writer s) ->
  comp_ok s -> is_u64 v -> (c_first s = true -> v = 0 -> 64 <= ctz0 < 128) ->
  add_correct s bs v (addValue ctz0 s v).
Proof.
  intros Hw Hcap Hok Hv Hctz. unfold addValue. destruct (c_first s) eqn:E;
    [apply writeFirst_correct; auto | by apply compressValue_correct].
Qed.

End ElfXor.
