(* ===== verification/Elf.v ===== *)
(** * Elf: the erasing floating-point codec

    Models [elf/utils.cpp], the classes [AbstractElfCompressor] and [ElfCompressor] of
    [elf/ElfCompressor.cpp], [AbstractElfDecompressor] and [ElfDecompressor] of
    [elf/ElfDecompressor.cpp], and the entry points [elf_encode] and [elf_decode].  The
    compressor erases the low bits of a double that its decimal digits determine, and
    hands the rest to the XOR layer; the decompressor rounds the erased value up to the
    number of decimals it was told.

    Doubles are 64-bit patterns.  [log10] and [powf64(10, _)] of the C library are
    parameters, as is [junk]: the cell of [spAnd10iNFlag] that is read without having
    been written when the value is at least one (its content at each call). *)

From Stdlib Require Import ZArith Lia.
From S2P Require Import Prelude Bits Bytes BitStream Float64 ElfXor.

Module Elf.
Import ElfXor.

Definition f : list Z :=
  [0; 4; 7; 10; 14; 17; 20; 24; 27; 30; 34; 37; 40;
   44; 47; 50; 54; 57; 60; 64; 67].

(** 1.0, 1.0E1, ..., 1.0E20 *)
Definition map10iP : list Z :=
  [0x3ff0000000000000; 0x4024000000000000; 0x4059000000000000; 0x408f400000000000;
   0x40c3880000000000; 0x40f86a0000000000; 0x412e848000000000; 0x416312d000000000;
   0x4197d78400000000; 0x41cdcd6500000000; 0x4202a05f20000000; 0x42374876e8000000;
   0x426d1a94a2000000; 0x42a2309ce5400000; 0x42d6bcc41e900000; 0x430c6bf526340000;
   0x4341c37937e08000; 0x4376345785d8a000; 0x43abc16d674ec800; 0x43e158e460913d00;
   0x4415af1d78b58c40].

(** 1.0, 1.0E-1, ..., 1.0E-20 *)
Definition map10iN : list Z :=
  [0x3ff0000000000000; 0x3fb999999999999a; 0x3f847ae147ae147b; 0x3f50624dd2f1a9fc;
   0x3f1a36e2eb1c432d; 0x3ee4f8b588e368f1; 0x3eb0c6f7a0b5ed8d; 0x3e7ad7f29abcaf48;
   0x3e45798ee2308c3a; 0x3e112e0be826d695; 0x3ddb7cdfd9d7bdbb; 0x3da5fd7fe1796495;
   0x3d719799812dea11; 0x3d3c25c268497682; 0x3d06849b86a12b9b; 0x3cd203af9ee75616;
   0x3c9cd2b297d889bc; 0x3c670ef54646d497; 0x3c32725dd1d243ac; 0x3bfd83c94fb6d2ac;
   0x3bc79ca10c924223].

Definition mapSPGreater1 : list Z :=
  [1; 10; 100; 1000; 10000; 100000; 1000000; 10000000; 100000000; 1000000000].

Definition mapSPLess1 : list Z := take 11 map10iN.

(** 3.321928095 *)
Definition LOG_2_10 : Z := 0x400a934f097d8237.

Section utils.

Variables (log10 : Z -> Z) (pow10 : Z -> Z) (fuel : nat).

Definition getFAlpha (alpha : Z) : option Z :=
  _ ← assert (0 <=? alpha);
  if Z.of_nat (length f) <=? alpha
  then Some (f64_to_i32 (f64_ceil (f64_mul (f64_of_Z alpha) LOG_2_10)))
  else f !! Z.to_nat alpha.

Definition get10iP (i : Z) : option Z :=
  _ ← assert (0 <=? i);
  if Z.of_nat (length map10iP) <=? i then Some (pow10 i) else map10iP !! Z.to_nat i.

Definition get10iN (i : Z) : option Z :=
  _ ← assert (0 <=? i);
  if Z.of_nat (length map10iN) <=? i then Some (pow10 (- i)) else map10iN !! Z.to_nat i.

Definition roundUp (v alpha : Z) : option Z :=
  scale ← get10iP alpha;
  if f64_ltb v 0 then Some (f64_div (f64_floor (f64_mul v scale)) scale)
  else Some (f64_div (f64_ceil (f64_mul v scale)) scale).

(** The scans of the tables of powers shared by [getSP] and [getSPAnd10iNFlag]: the
    first [i] with [v < mapSPGreater1[i+1]], and the first with [v >= mapSPLess1[i]]. *)
Fixpoint scan_greater (v : Z) (i : Z) (tbl : list Z) : option Z :=
  match tbl with
  | [] => None
  | b :: tbl => if f64_ltb v (f64_of_Z b) then Some i else scan_greater v (i + 1) tbl
  end.

Fixpoint scan_less (v : Z) (i : Z) (tbl : list Z) : option (Z * Z) :=
  match tbl with
  | [] => None
  | b :: tbl => if f64_leb b v then Some (i, b) else scan_less v (i + 1) tbl
  end.

Definition getSP (v : Z) : Z :=
  let otherwise := f64_to_i32 (f64_floor (log10 v)) in
  if f64_leb (f64_of_Z 1) v then
    match scan_greater v 0 (tail mapSPGreater1) with Some i => i | None => otherwise end
  else
    match scan_less v 1 (tail mapSPLess1) with Some (i, _) => - i | None => otherwise end.

(** The flag is [junk] when the source leaves it uninitialised. *)
Definition getSPAnd10iNFlag (junk v : Z) : Z * Z :=
  let otherwise :=
    let log10v := log10 v in
    (f64_to_i32 (f64_floor log10v),
     if f64_eqb log10v (f64_of_Z (f64_to_i64 log10v)) then 1 else 0) in
  if f64_leb (f64_of_Z 1) v then
    match scan_greater v 0 (tail mapSPGreater1) with
    | Some i => (i, junk)
    | None => otherwise
    end
  else
    match scan_less v 1 (tail mapSPLess1) with
    | Some (i, b) => (- i, if f64_eqb v b then 1 else 0)
    | None => otherwise
    end.

(** [while (tempLong != temp)]: the result is [i], [temp] and [tempLong]. *)
Fixpoint scale_loop (n : nat) (v i : Z) : option (Z * Z * Z) :=
  match n with
  | O => None
  | S n =>
      p ← get10iP i;
      let temp := f64_mul v p in
      let tempLong := f64_to_i64 temp in
      if f64_eqb (f64_of_Z tempLong) temp then Some (i, temp, tempLong)
      else i' ← int_of (i + 1); scale_loop n v i'
  end.

(** [while (i > 0 && tempLong % 10 == 0)], with [i] iterations at most. *)
Fixpoint strip_loop (i : nat) (tempLong : Z) : nat :=
  match i with
  | O => O
  | S n => if Z.rem tempLong 10 =? 0 then strip_loop n (Z.quot tempLong 10) else i
  end.

Definition getSignificantCount (v sp lastBetaStar : Z) : option Z :=
  i ← (if negb (lastBetaStar =? INT32_MAX) && negb (lastBetaStar =? 0) then
         i ← int_of (lastBetaStar - sp - 1); Some (if 1 <? i then i else 1)
       else if lastBetaStar =? INT32_MAX then int_of (17 - sp - 1)
       else if 0 <=? sp then Some 1
       else int_of (- sp));
  r ← scale_loop fuel v i;
  p ← get10iP r.1.1;
  if negb (f64_eqb (f64_div r.1.2 p) v) then Some 17
  else Some (sp + Z.of_nat (strip_loop (Z.to_nat r.1.1) r.2) + 1).

Definition getAlphaAndBetaStar (junk v lastBetaStar : Z) : option (Z * Z) :=
  let v := if f64_ltb v 0 then f64_neg v else v in
  let '(sp, flag) := getSPAnd10iNFlag junk v in
  beta ← getSignificantCount v sp lastBetaStar;
  Some (beta - sp - 1, if flag =? 1 then 0 else beta).

(** ** The compressor *)

Record ElfCompressor := {
  e_size : Z;
  e_lastBetaStar : Z;
  e_xor : ElfXORCompressor
}.

Definition set_writer (s : ElfXORCompressor) (w : BitWriter) : ElfXORCompressor :=
  {| c_leading := c_leading s; c_trailing := c_trailing s; c_storedVal := c_storedVal s;
     c_first := c_first s; c_size := c_size s; c_length := c_length s; c_writer := w |}.

(** [writeInt], and [writeBit] as its case of length one. *)
Definition writeInt (s : ElfXORCompressor) (n len : Z) : option ElfXORCompressor :=
  w ← write (c_writer s) n len; Some (set_writer s w).

(** The decision [addValue] takes for a value: the new [betaStar] when bits are erased,
    and the pattern left.  A shift count of 64 or more is undefined; with a negative one
    the mask is undefined too, but nothing is erased whatever it is. *)
Definition elf_choice (junk lastBetaStar v : Z) : option (option Z * Z) :=
  if f64_eqb v 0 then Some (None, v)
  else
    ab ← getAlphaAndBetaStar junk v lastBetaStar;
    let e := Z.land (Z.shiftr v 52) 0x7ff in
    fa ← getFAlpha ab.1;
    let gAlpha := fa + e - 1023 in
    let eraseBits := 52 - gAlpha in
    _ ← assert (eraseBits <? 64);
    let mask := shl64 (2 ^ 64 - 1) (eraseBits mod 64) in
    let delta := Z.land (2 ^ 64 - 1 - mask) v in
    if negb (delta =? 0) && (4 <? eraseBits) then Some (Some ab.2, Z.land mask v)
    else Some (None, v).

Variable ctz0 : Z.

Definition elf_addValue (junk : Z) (s : ElfCompressor) (v : Z) : option ElfCompressor :=
  _ ← assert (negb (f64_is_nan v));
  choice ← elf_choice junk (e_lastBetaStar s) v;
  hdr ← match choice.1 with
        | Some betaStar =>
            if betaStar =? e_lastBetaStar s then
              x ← writeInt (e_xor s) 0 1; Some (x, 1, e_lastBetaStar s)
            else
              x ← writeInt (e_xor s) (Z.lor betaStar 0x30) 6; Some (x, 6, betaStar)
        | None => x ← writeInt (e_xor s) 2 2; Some (x, 2, e_lastBetaStar s)
        end;
  nx ← addValue ctz0 hdr.1.1 choice.2;
  Some {| e_size := e_size s + hdr.1.2 + nx.1; e_lastBetaStar := hdr.2; e_xor := nx.2 |}.

Fixpoint elf_add_all (junk : nat -> Z) (i : nat) (s : ElfCompressor) (l : list Z)
    : option ElfCompressor :=
  match l with
  | [] => Some s
  | v :: l => s ← elf_addValue (junk i) s v; elf_add_all junk (S i) s l
  end.

(** [elf_encode]: the buffer handed out, and the size returned.  [init] takes the length
    as an [int], [getSize] returns the size as one, and the [int] counter of the loop has to
    reach [len]. *)
Definition elf_encode (junk : nat -> Z) (input : list Z) : option (list Z * Z) :=
  let len := Z.of_nat (length input) in
  x ← c_init (u64 (i32 len));
  _ ← assert (len <=? INT32_MAX);
  s ← elf_add_all junk 0 {| e_size := 32; e_lastBetaStar := INT32_MAX; e_xor := x |} input;
  x ← writeInt (e_xor s) 2 2;
  ws ← c_close x;
  n ← int_of (i32 (e_size s) + 31);
  Some (store_array 4 ws, Z.quot n 32 * 4).

(** ** The decompressor *)

Record ElfDecompressor := {
  x_lastBetaStar : Z;
  x_xor : ElfXORDecompressor
}.

Definition set_reader (s : ElfXORDecompressor) (r : BitReader) : ElfXORDecompressor :=
  {| d_storedVal := d_storedVal s; d_leading := d_leading s; d_trailing := d_trailing s;
     d_first := d_first s; d_reader := r; d_length := d_length s |}.

Definition readInt (s : ElfXORDecompressor) (len : Z) : option (Z * ElfXORDecompressor) :=
  res ← peek (d_reader s) len;
  r ← forward (d_reader s) len;
  Some (res, set_reader s r).

(** [recoverVByBetaStar], once the erased value has been read. *)
Definition recover (lastBetaStar vPrime : Z) : option Z :=
  let sp := getSP (f64_abs vPrime) in
  if lastBetaStar =? 0 then
    v ← get10iN (- sp - 1);
    Some (if f64_ltb vPrime 0 then f64_neg v else v)
  else roundUp vPrime (lastBetaStar - sp - 1).

Definition recoverVByBetaStar (last : Z) (x : ElfXORDecompressor)
    : option (Z * ElfDecompressor) :=
  vx ← readValue x;
  v ← recover last vx.1;
  Some (v, {| x_lastBetaStar := last; x_xor := vx.2 |}).

Definition elf_nextValue (s : ElfDecompressor) : option (Z * ElfDecompressor) :=
  b ← readInt (x_xor s) 1;
  if b.1 =? 0 then recoverVByBetaStar (x_lastBetaStar s) b.2
  else
    b ← readInt b.2 1;
    if b.1 =? 0 then
      vx ← readValue b.2;
      Some (vx.1, {| x_lastBetaStar := x_lastBetaStar s; x_xor := vx.2 |})
    else
      l ← readInt b.2 4;
      recoverVByBetaStar l.1 l.2.

(** The loop of [decompress]. *)
Fixpoint elf_next_all (n : nat) (s : ElfDecompressor) : option (list Z) :=
  match n with
  | O => Some []
  | S n => vs ← elf_nextValue s; l ← elf_next_all n vs.2; Some (vs.1 :: l)
  end.

(** [elf_decode]; the length is read through [getLength], which returns an [int]. *)
Definition elf_decode (input : list Z) (len : Z) : option (list Z) :=
  ws ← load_n 4 input 0 (len / 4);
  x ← d_init ws (len / 4);
  elf_next_all (Z.to_nat (i32 (d_length x))) {| x_lastBetaStar := INT32_MAX; x_xor := x |}.

(** ** The specification *)




(** ** The refinement *)

















End utils.

(** The C library does not matter below: the values are in the range of the tables. *)
Definition no_libm (_ : Z) : Z := 0.

(** 1.1, 2.1, 0.0, -3.14 and 0.1. *)
Definition sample : list Z :=
  [0x3ff199999999999a; 0x4000cccccccccccd; 0; 0xc0091eb851eb851f; 0x3fb999999999999a].



(** The flag that [getSPAnd10iNFlag] does not initialise for values of at least one
    decides the result: with the cell holding zero the sample decodes to itself, with the
    cell holding one the decoder is stopped by its assertion. *)
Theorem elf_uninitialised_flag :
  let run junk :=
    out ← elf_encode no_libm no_libm 40 64 (fun _ => junk) sample;
    elf_decode no_libm no_libm out.1 out.2 in
  run 0 = Some sample /\ run 1 = None.
Proof. vm_compute. done. Qed.

End Elf.
