(* ===== verification/Ovlq.v ===== *)
(** * Ovlq: the variable-length integer coder with a searched set of lengths

    Models [machete/ovlq.cpp].  Every 32-bit integer is stored in one of a few lengths
    (the levels), preceded by a unary flag that names the level.  The set of levels is a
    bit mask, [mapping], searched by dynamic programming over the lengths that occur.

    [mapping] is kept as the 32-bit pattern that the header stores.  [ctz0] is the value
    of [__builtin_ctz] at zero, which is undefined. *)

From Stdlib Require Import ZArith Lia.
From stdpp Require Import sets.
From S2P Require Import Prelude Bits Bytes BitStream.

Module Ovlq.

Definition data_bitlen (data : Z) : Z :=
  let data := if data <? 0 then Z.lnot data else data in
  if data =? 0 then 1 else 33 - clz 32 data.

(** ** The search *)

(** The histogram [range_cnt], with 33 entries. *)
Definition range_cnt (data_min_bitlen : list Z) : list Z :=
  fold_left (fun cnt b => alter Z.succ (Z.to_nat b) cnt) data_min_bitlen (replicate 33 0).

(** The lengths that occur and the number of values up to each: the arrays [range] and
    [range_sum], from length [i] on. *)
Fixpoint collect (cnt : list Z) (i sum : Z) : list (Z * Z) :=
  match cnt with
  | [] => []
  | c :: cnt =>
      if c =? 0 then collect cnt (i + 1) sum
      else (i, sum + c) :: collect cnt (i + 1) (sum + c)
  end.

(** The tables [range], [range_sum], [C], [A] and [M] at one index. *)
Record row := { r_range : Z; r_sum : Z; r_C : Z; r_A : Z; r_M : Z }.

(** The inner loop of the search: the best predecessor among [prev]. *)
Definition dp_best (len r : Z) (prev : list row) : Z * Z * Z :=
  fold_left (fun acc row =>
      let c := i32 (r_C row + r_A row + (r - r_range row) * (len - r_sum row)) in
      if c <? acc.1.1 then (c, i32 (len - r_sum row), Z.lor (Z.shiftl 1 (r - 1)) (r_M row))
      else acc)
    prev (i32 (len * r), i32 len, Z.shiftl 1 (r - 1)).

(** The outer loop, on the ranges still to do. *)
Fixpoint dp_rows (len : Z) (prev : list row) (todo : list (Z * Z)) : list row :=
  match todo with
  | [] => prev
  | (r, s) :: todo =>
      let best := dp_best len r prev in
      dp_rows len
        (prev ++ [{| r_range := r; r_sum := s; r_C := best.1.1; r_A := best.1.2; r_M := best.2 |}])
        todo
  end.

(** The mapping and [total_bitlen].  With no data the source shifts by -1. *)
Definition ovlq_search_optimal_mapping (data_min_bitlen : list Z) (len : Z) : option (Z * Z) :=
  match collect (tail (range_cnt data_min_bitlen)) 1 0 with
  | [] => None
  | [(r, _)] => Some (Z.shiftl 1 (r - 1), r * len)
  | ranges =>
      best ← list.last (dp_rows len [] ranges);
      Some (r_M best, r_C best)
  end.

(** ** Encoding *)

Record entry := { e_flen : Z; e_flag : Z; e_dlen : Z }.

Section codec.

Variable ctz0 : Z.

(** The loop over the levels, [k] of them before the last; the result is the part of the
    table from index [t] on. *)
Fixpoint encode_levels (k : nat) (level i t flag mapping : Z) : list entry :=
  let dlen := ctz ctz0 mapping + 1 in
  match k with
  | O =>
      replicate (Z.to_nat (dlen + 1 - t))
        {| e_flen := level - 1; e_flag := Z.shiftr flag 1; e_dlen := dlen |}
  | S k =>
      replicate (Z.to_nat (dlen + 1 - t)) {| e_flen := i; e_flag := flag; e_dlen := dlen |}
      ++ encode_levels k level (i + 1) (Z.max t (dlen + 1)) (Z.lor flag (Z.shiftl 1 i))
           (Z.land mapping (Z.lnot (Z.shiftl 1 (dlen - 1))))
  end.

(** The table from index 1 on; [None] in the result is the null pointer. *)
Definition ovlq_build_encode_table_with_mapping (mapping : Z) : option (option (list entry)) :=
  let level := popcount mapping in
  _ ← assert (0 <? level);
  if 1 <? level then Some (Some (encode_levels (Z.to_nat (level - 1)) level 1 1 0 mapping))
  else Some None.

Definition DIV_UP (x b : Z) : Z := Z.shiftr (x + Z.shiftl 1 b - 1) b.
Definition ALIGN_UP (x b : Z) : Z :=
  Z.land (x + Z.shiftl 1 b - 1) (Z.lnot (Z.shiftl 1 b - 1)).

Fixpoint write_plain (w : BitWriter) (bitlen : Z) (input : list Z) : option BitWriter :=
  match input with
  | [] => Some w
  | x :: input => w ← write w x bitlen; write_plain w bitlen input
  end.

Fixpoint write_coded (w : BitWriter) (table : list entry) (input : list Z) : option BitWriter :=
  match input with
  | [] => Some w
  | x :: input =>
      entry ← table !! Z.to_nat (data_bitlen x - 1);
      w ← write w (e_flag entry) (e_flen entry);
      w ← write w x (e_dlen entry);
      write_coded w table input
  end.

(** The bytes stored, and the size returned. *)
Definition ovlq_encode (input : list Z) : option (list Z * Z) :=
  let len := Z.of_nat (length input) in
  mt ← ovlq_search_optimal_mapping (data_bitlen <$> input) len;
  table ← ovlq_build_encode_table_with_mapping mt.1;
  let osize := 8 + ALIGN_UP (DIV_UP mt.2 3) 2 in
  w ← initBitWriter ((osize - 8) / 4);
  w ← match table with
      | None => write_plain w (ctz ctz0 mt.1 + 1) input
      | Some table => write_coded w table input
      end;
  wr ← flush w;
  Some (le_bytes 4 len ++ le_bytes 4 mt.1 ++ store_array 4 (bw_output wr.1), osize).

(** ** Decoding *)

(** The loop that fills the decode table, from index [i], with [n] indices to go.  The
    mask that clears a level is a 32-bit [int]; [__builtin_ctz] sees 32 bits. *)
Fixpoint decode_entries (n : nat) (i mask mapping min_len flen : Z) : list (Z * Z) :=
  match n with
  | O => []
  | S n =>
      if Z.land mask i =? 0 then
        (flen, min_len) :: decode_entries n (i + 1) mask mapping min_len flen
      else
        let mapping := Z.land mapping (Z.lnot (i32 (Z.shiftl 1 min_len))) in
        let min_len := ctz ctz0 (u32 mapping) in
        (flen + 1, min_len)
          :: decode_entries n (i + 1) (Z.shiftr mask 1) mapping min_len (flen + 1)
  end.

(** The table of [(flen, dlen)] and [index_bitlen].  More than 31 levels would overflow
    the entry count. *)
Definition ovlq_build_decode_table_with_mapping (mapping : Z) : option (list (Z * Z) * Z) :=
  let level := popcount mapping in
  _ ← assert (level <=? 31);
  let ent_cnt := Z.shiftl 1 (level - 1) in
  let table := decode_entries (Z.to_nat ent_cnt) 0 (Z.shiftl 1 (level - 2)) mapping
                 (ctz ctz0 mapping) 1 in
  let last := Z.to_nat (ent_cnt - 1) in
  e ← table !! last;
  Some (<[last := (e.1 - 1, e.2)]> table, e.1 - 1).

(** [d << (32 - n) >> (32 - n)] on a 32-bit [int]. *)
Definition sign_extend (d n : Z) : Z := Z.shiftr (i32 (Z.shiftl d (32 - n))) (32 - n).

Fixpoint read_plain (n : nat) (r : BitReader) (bitlen : Z) : option (list Z) :=
  match n with
  | O => Some []
  | S n =>
      d ← peek r bitlen;
      r ← forward r bitlen;
      l ← read_plain n r bitlen;
      Some (sign_extend d bitlen :: l)
  end.

Fixpoint read_coded (n : nat) (r : BitReader) (table : list (Z * Z)) (index_bitlen : Z)
    : option (list Z) :=
  match n with
  | O => Some []
  | S n =>
      index ← peek r index_bitlen;
      e ← table !! Z.to_nat index;
      r ← forward r e.1;
      d ← peek r e.2;
      r ← forward r e.2;
      l ← read_coded n r table index_bitlen;
      Some (sign_extend d e.2 :: l)
  end.

Definition ovlq_decode (input : list Z) (size : Z) : option (list Z) :=
  len ← load 4 input 0;
  m ← load 4 input 4;
  let mapping := shl64 m 1 in
  words ← load_n 4 input 8 ((size - 8) / 4);
  r ← initBitReader words ((size - 8) / 4);
  let level := popcount mapping in
  if level =? 1 then read_plain (Z.to_nat len) r (ctz ctz0 mapping)
  else
    ti ← ovlq_build_decode_table_with_mapping mapping;
    read_coded (Z.to_nat len) r ti.1 ti.2.

End codec.

(** ** Levels

    A mapping is a set of levels, here the increasing list of the lengths in it. *)

Fixpoint increasing (lo : Z) (ls : list Z) : Prop :=
  match ls with
  | [] => True
  | l :: ls => lo < l /\ increasing l ls
  end.

Definition mapping_of (ls : list Z) : Z := foldr (fun l m => 2 ^ (l - 1) + m) 0 ls.

Lemma increasing_weaken lo lo' ls : lo' <= lo -> increasing lo ls -> increasing lo' ls.
Proof. destruct ls; simpl; [done |]. intros ? [? ?]. split; [lia | done]. Qed.

Lemma increasing_app lo ls l ls' :
  increasing lo (ls ++ l :: ls') <-> increasing lo (ls ++ [l]) /\ increasing l ls'.
Proof.
  revert lo. induction ls as [| a ls IH]; intros lo; simpl; [tauto |].
  rewrite IH. tauto.
Qed.

Lemma increasing_Forall lo ls : increasing lo ls -> Forall (fun l => lo < l) ls.
Proof.
  revert lo. induction ls as [| l ls IH]; intros lo; simpl; [by constructor |].
  intros [Hl Hls]. constructor; [done |]. eapply Forall_impl; [| exact (IH l Hls)]. simpl. lia.
Qed.

Lemma mapping_split lo ls :
  0 <= lo -> increasing lo ls ->
  exists q, 0 <= q /\ mapping_of ls = q * 2 ^ lo /\ popcount q = Z.of_nat (length ls).
Proof.
  revert lo. induction ls as [| l ls IH]; intros lo Hlo; simpl; [by exists 0 |].
  intros [Hl Hls]. destruct (IH l) as (q & Hq & E & Hp); [lia | done |].
  exists ((2 * q + 1) * 2 ^ (l - 1 - lo)).
  pose proof (Z.pow_pos_nonneg 2 (l - 1 - lo) ltac:(lia) ltac:(lia)). split_and!.
  - lia.
  - rewrite E, <- Z.mul_assoc, <- Z.pow_add_r by lia.
    replace (l - 1 - lo + lo) with (l - 1) by lia.
    replace l with (l - 1 + 1) at 2 by lia. rewrite Z.pow_add_r by lia. lia.
  - rewrite popcount_shift, popcount_double_1 by lia. lia.
Qed.

Lemma mapping_popcount ls : increasing 0 ls -> popcount (mapping_of ls) = Z.of_nat (length ls).
Proof.
  intros H. destruct (mapping_split 0 ls) as (q & ? & -> & ?); [lia | done |].
  by rewrite Z.mul_1_r.
Qed.

(** The lowest level of a mapping shifted by [k], and the mapping without it. *)
Lemma mapping_head z k l ls :
  0 <= k -> 0 < l -> increasing l ls ->
  ctz z (mapping_of (l :: ls) * 2 ^ k) = l - 1 + k /\
  Z.land (mapping_of (l :: ls) * 2 ^ k) (Z.lnot (2 ^ (l - 1 + k))) = mapping_of ls * 2 ^ k.
Proof.
  intros Hk Hl Hls. destruct (mapping_split l ls) as (q & Hq & E & _); [lia | done |].
  simpl. rewrite E.
  assert ((2 ^ (l - 1) + q * 2 ^ l) * 2 ^ k = (2 * q + 1) * 2 ^ (l - 1 + k)) as E1.
  { replace l with (l - 1 + 1) at 2 by lia. rewrite !Z.pow_add_r by lia. lia. }
  split; [rewrite E1; apply ctz_unique; lia |].
  assert ((2 * q + 1) * 2 ^ (l - 1 + k) = q * 2 ^ (l + k) + 2 ^ (l - 1 + k)) as E2.
  { replace (l + k) with (1 + (l - 1 + k)) by lia. rewrite (Z.pow_add_r 2 1) by lia. lia. }
  rewrite E1, E2, <- lor_add_disjoint
    by (try split; try lia; apply Z.pow_lt_mono_r; lia).
  rewrite <- Z.mul_assoc, <- Z.pow_add_r by lia.
  apply Z.bits_inj'. intros i Hi.
  rewrite Z.land_spec, Z.lor_spec, Z.lnot_spec, Z.pow2_bits_eqb by lia.
  destruct (Z.eqb_spec (l - 1 + k) i) as [<- |].
  - rewrite Z.mul_pow2_bits_low by lia. done.
  - by rewrite orb_false_r, andb_true_r.
Qed.

Lemma mapping_nonneg ls : 0 <= mapping_of ls.
Proof. induction ls; simpl; lia. Qed.

Lemma mapping_bound lo hi ls :
  0 <= lo <= hi -> increasing lo ls -> Forall (fun l => l <= hi) ls ->
  mapping_of ls <= 2 ^ hi - 2 ^ lo.
Proof.
  revert lo. induction ls as [| l ls IH]; intros lo Hlo; simpl.
  { intros _ _. pose proof (Z.pow_le_mono_r 2 lo hi). lia. }
  intros [Hl Hls] [Hhi Hall]%Forall_cons_iff. specialize (IH l ltac:(lia) Hls Hall).
  pose proof (Z.pow_le_mono_r 2 lo (l - 1)).
  assert (2 ^ l = 2 * 2 ^ (l - 1)) by (rewrite <- Z.pow_succ_r by lia; f_equal; lia). lia.
Qed.

Lemma mapping_app ls ls' : mapping_of (ls ++ ls') = mapping_of ls + mapping_of ls'.
Proof. induction ls; simpl; lia. Qed.

(** ** The code of a value

    [hdr ls b] is the unary flag of a value of length [b], [dlen ls b] the level it is
    stored in, [clen ls b] the length of its code; a value longer than the last level
    counts as being of that level. *)

Fixpoint hdr (ls : list Z) (b : Z) : list bool :=
  match ls with
  | [] | [_] => []
  | l :: ls => if b <=? l then [false] else true :: hdr ls b
  end.

Fixpoint dlen (ls : list Z) (b : Z) : Z :=
  match ls with
  | [] => 0
  | [l] => l
  | l :: ls => if b <=? l then l else dlen ls b
  end.

Definition clen (ls : list Z) (b : Z) : Z := Z.of_nat (length (hdr ls b)) + dlen ls b.

Definition code (ls : list Z) (x : Z) : list bool :=
  hdr ls (data_bitlen x) ++ bits (dlen ls (data_bitlen x)) x.

(** The last level, and the one before it, of the levels that follow [p]. *)
Fixpoint lastlevel (p : Z) (ls : list Z) : Z :=
  match ls with
  | [] => p
  | l :: ls => lastlevel l ls
  end.

Fixpoint prevlevel (p : Z) (ls : list Z) : Z :=
  match ls with
  | [] | [_] => p
  | l :: ls => prevlevel l ls
  end.

Lemma lastlevel_ge p ls : increasing p ls -> p <= lastlevel p ls.
Proof.
  revert p. induction ls as [| l ls IH]; intros p; simpl; [lia |].
  intros [Hl Hls]. specialize (IH l Hls). lia.
Qed.

Lemma prevlevel_ge p ls : increasing p ls -> p <= prevlevel p ls.
Proof.
  revert p. induction ls as [| l ls IH]; intros p; [simpl; lia |].
  intros [Hl Hls]. destruct ls as [| l2 ls]; [simpl; lia |].
  specialize (IH l Hls). simpl in *. lia.
Qed.

Lemma lastlevel_snoc p ls r : lastlevel p (ls ++ [r]) = r.
Proof. revert p. induction ls; intros; simpl; auto. Qed.

Lemma prevlevel_snoc p ls r : prevlevel p (ls ++ [r]) = lastlevel p ls.
Proof.
  revert p. induction ls as [| l ls IH]; intros p; [done |].
  specialize (IH l). destruct ls; done.
Qed.

Lemma increasing_snoc p ls r :
  increasing p (ls ++ [r]) <-> increasing p ls /\ lastlevel p ls < r.
Proof.
  revert p. induction ls as [| l ls IH]; intros p; simpl; [tauto |]. rewrite IH. tauto.
Qed.

Lemma levels_le_last lo ls : increasing lo ls -> Forall (fun l => l <= lastlevel lo ls) ls.
Proof.
  revert lo. induction ls as [| l ls IH]; intros lo; simpl; [by constructor |].
  intros [Hl Hls]. constructor; [by apply lastlevel_ge | by apply IH].
Qed.

Lemma mapping_snoc ls r :
  increasing 0 ls -> lastlevel 0 ls < r ->
  Z.lor (2 ^ (r - 1)) (mapping_of ls) = mapping_of (ls ++ [r]).
Proof.
  intros Hls Hr. pose proof (lastlevel_ge 0 ls Hls). pose proof (mapping_nonneg ls).
  pose proof (mapping_bound 0 (lastlevel 0 ls) ls ltac:(lia) Hls (levels_le_last 0 ls Hls)) as B.
  change (2 ^ 0) with 1 in B. pose proof (Z.pow_le_mono_r 2 (lastlevel 0 ls) (r - 1)).
  rewrite mapping_app, <- (Z.mul_1_l (2 ^ (r - 1))), lor_add_disjoint by lia. simpl. lia.
Qed.

Definition b2z (b : bool) : Z := if b then 1 else 0.

(** A level added at the top costs one more flag bit for the values of the last level, and
    the longer code for those above it. *)
Lemma clen_snoc p ls r b :
  ls <> [] -> increasing p ls -> p < b ->
  clen (ls ++ [r]) b =
  clen ls b + b2z (prevlevel p ls <? b) + (r - lastlevel p ls) * b2z (lastlevel p ls <? b).
Proof.
  revert p. induction ls as [| l ls IH]; [done |]. intros p _ [Hl Hls] Hb.
  unfold clen in *. destruct ls as [| l2 ls].
  - simpl. destruct (Z.ltb_spec p b), (Z.leb_spec b l), (Z.ltb_spec l b); simpl; lia.
  - pose proof (lastlevel_ge l (l2 :: ls) Hls) as G1.
    pose proof (prevlevel_ge l (l2 :: ls) Hls) as G2.
    change (lastlevel p (l :: l2 :: ls)) with (lastlevel l (l2 :: ls)).
    change (prevlevel p (l :: l2 :: ls)) with (prevlevel l (l2 :: ls)).
    change (hdr (l :: l2 :: ls) b) with (if b <=? l then [false] else true :: hdr (l2 :: ls) b).
    change (dlen (l :: l2 :: ls) b) with (if b <=? l then l else dlen (l2 :: ls) b).
    change (hdr ((l :: l2 :: ls) ++ [r]) b)
      with (if b <=? l then [false] else true :: hdr ((l2 :: ls) ++ [r]) b).
    change (dlen ((l :: l2 :: ls) ++ [r]) b)
      with (if b <=? l then l else dlen ((l2 :: ls) ++ [r]) b).
    destruct (Z.leb_spec b l).
    + destruct (Z.ltb_spec (prevlevel l (l2 :: ls)) b), (Z.ltb_spec (lastlevel l (l2 :: ls)) b);
        simpl b2z; lia.
    + specialize (IH l ltac:(done) Hls ltac:(lia)). cbn [length]. rewrite !Nat2Z.inj_succ. lia.
Qed.

(** ** The search computes the cost of the mapping it returns *)

(** The total length of the codes, the number of lengths above [r], and the number of
    lengths up to [r]. *)
Definition total (ls bl : list Z) : Z := foldr (fun b t => clen ls b + t) 0 bl.
Definition above (r : Z) (bl : list Z) : Z := foldr (fun b t => b2z (r <? b) + t) 0 bl.
Definition upto (r : Z) (bl : list Z) : Z := Z.of_nat (length bl) - above r bl.

Lemma above_range r bl : 0 <= above r bl <= Z.of_nat (length bl).
Proof. induction bl as [| b bl IH]; simpl; [lia |]. destruct (r <? b); simpl; lia. Qed.

Lemma total_snoc ls r bl :
  ls <> [] -> increasing 0 ls -> Forall (fun b => 0 < b) bl ->
  total (ls ++ [r]) bl =
  total ls bl + above (prevlevel 0 ls) bl + (r - lastlevel 0 ls) * above (lastlevel 0 ls) bl.
Proof.
  intros Hne Hls. induction 1 as [| b bl Hb Hbl IH]; simpl; [lia |].
  rewrite IH, (clen_snoc 0 ls r b) by done. lia.
Qed.

Lemma total_single r bl : total [r] bl = r * Z.of_nat (length bl).
Proof.
  induction bl as [| b bl IH]; [simpl; lia |].
  change (total [r] (b :: bl)) with (clen [r] b + total [r] bl). rewrite IH.
  unfold clen. cbn [hdr dlen length]. lia.
Qed.

(** The histogram and the lists of ranges and sums. *)
Definition count (k : Z) (bl : list Z) : Z := foldr (fun b t => b2z (b =? k) + t) 0 bl.

Lemma count_nonneg k bl : 0 <= count k bl.
Proof. induction bl as [| b bl IH]; simpl; [lia |]. destruct (b =? k); simpl; lia. Qed.

Lemma above_count r bl : above (r - 1) bl = above r bl + count r bl.
Proof.
  induction bl as [| b bl IH]; simpl; [lia |]. rewrite IH.
  destruct (Z.ltb_spec (r - 1) b), (Z.ltb_spec r b), (Z.eqb_spec b r); simpl b2z; lia.
Qed.

Lemma range_cnt_lookup bl k :
  Forall (fun b => 1 <= b <= 32) bl -> (k < 33)%nat ->
  range_cnt bl !! k = Some (count (Z.of_nat k) bl).
Proof.
  intros Hbl Hk. unfold range_cnt.
  enough (forall (acc : list Z) x, acc !! k = Some x ->
    fold_left (fun cnt b => alter Z.succ (Z.to_nat b) cnt) bl acc !! k
    = Some (x + count (Z.of_nat k) bl)) as H.
  { rewrite (H _ 0); [done |]. by apply lookup_replicate_2. }
  induction Hbl as [| b bl Hb Hbl IH]; intros acc x Hx; simpl; [by rewrite Z.add_0_r |].
  destruct (Z.eqb_spec b (Z.of_nat k)) as [-> | Hne].
  - rewrite (IH _ (Z.succ x)); [simpl; f_equal; lia |].
    rewrite Nat2Z.id, list_lookup_alter, decide_True by done. by rewrite Hx.
  - rewrite (IH _ x); [done |]. rewrite list_lookup_alter_ne by lia. done.
Qed.

Lemma length_range_cnt bl : length (range_cnt bl) = 33%nat.
Proof.
  unfold range_cnt. enough (forall acc : list Z,
    length (fold_left (fun cnt b => alter Z.succ (Z.to_nat b) cnt) bl acc) = length acc) as H
    by (by rewrite H).
  induction bl; intros acc; simpl; [done |]. by rewrite IHbl, length_alter.
Qed.

(** Ranges and sums grow along the list, and the sums count the values up to the range. *)
Fixpoint ranges_ok (bl : list Z) (i sum : Z) (rs : list (Z * Z)) : Prop :=
  match rs with
  | [] => True
  | (r, s) :: rs =>
      i <= r <= 32 /\ s = upto r bl /\ 0 < count r bl /\ sum < s /\ ranges_ok bl (r + 1) s rs
  end.

Lemma ranges_ok_weaken bl i i' sum rs : i' <= i -> ranges_ok bl i sum rs -> ranges_ok bl i' sum rs.
Proof. destruct rs as [| [r s] rs]; simpl; [done |]. intros ? (? & ?). split; [lia | done]. Qed.

Lemma ranges_ok_last bl i sum rs r s :
  ranges_ok bl i sum rs -> list.last rs = Some (r, s) -> 0 < count r bl.
Proof.
  revert i sum. induction rs as [| [r1 s1] rs IH]; intros i sum; [done |].
  intros (_ & _ & Hc & _ & Hrs). rewrite last_cons.
  destruct (list.last rs) as [[]|]; intros; simplify_eq; [by eapply IH | done].
Qed.

Lemma count_elem k bl : 0 < count k bl -> k ∈ bl.
Proof.
  induction bl as [| b bl IH]; simpl; [lia |]. destruct (Z.eqb_spec b k) as [-> |]; simpl b2z.
  - set_solver.
  - intros. apply list_elem_of_further, IH. lia.
Qed.

Lemma collect_ok bl cnt i :
  (forall j, (j < length cnt)%nat -> cnt !! j = Some (count (i + Z.of_nat j) bl)) ->
  i + Z.of_nat (length cnt) = 33 ->
  let rs := collect cnt i (upto (i - 1) bl) in
  ranges_ok bl i (upto (i - 1) bl) rs /\
  default (upto (i - 1) bl) (snd <$> list.last rs) = upto 32 bl.
Proof.
  revert i. induction cnt as [| c cnt IH]; intros i Hc Hi; simpl.
  { replace (i - 1) with 32 by (simpl in Hi; lia). done. }
  assert (c = count i bl) as ->.
  { specialize (Hc 0%nat ltac:(simpl; lia)). simpl in Hc. rewrite Z.add_0_r in Hc. congruence. }
  assert (upto i bl = upto (i - 1) bl + count i bl) as Hup.
  { unfold upto. rewrite above_count. lia. }
  destruct (IH (i + 1)) as [IH1 IH2].
  { intros j Hj. specialize (Hc (S j) ltac:(simpl; lia)). simpl in Hc. rewrite Hc. do 2 f_equal. lia. }
  { simpl in Hi. lia. }
  replace (i + 1 - 1) with i in * by lia.
  pose proof (count_nonneg i bl). destruct (Z.eqb_spec (count i bl) 0) as [H0 | H0].
  - replace (upto (i - 1) bl) with (upto i bl) by lia.
    split; [| done]. by apply ranges_ok_weaken with (i + 1); [lia |].
  - cbn [ranges_ok]. rewrite <- Hup. split; [split_and!; try done; simpl in Hi; lia |].
    rewrite last_cons. by destruct (list.last (collect cnt (i + 1) (upto i bl))).
Qed.

(** The rows of the search, with the levels each stands for. *)
Section search.

Context (bl : list Z) (len : Z).
Context (Hlen : len = Z.of_nat (length bl)) (Hmax : len <= 2 ^ 24).
Context (Hpos : Forall (fun b => 0 < b) bl).

(** The cost of extending the levels of row [p] with [r]. *)
Definition candidate (r : Z) (p : row) : Z := r_C p + r_A p + (r - r_range p) * (len - r_sum p).

Definition wf_row (p : row) : Prop :=
  1 <= r_range p <= 32 /\ r_sum p = upto (r_range p) bl /\ 0 <= r_C p <= 32 * len /\
  0 <= r_A p <= len.

(** [built rows p ls]: row [p] was made with the levels [ls]. *)
Inductive built (rows : list row) : row -> list Z -> Prop :=
| built_one p :
    p ∈ rows -> r_C p = len * r_range p -> r_A p = len -> r_M p = 2 ^ (r_range p - 1) ->
    built rows p [r_range p]
| built_step p q ls :
    p ∈ rows -> built rows q ls -> r_range q < r_range p ->
    r_C p = candidate (r_range p) q -> r_A p = len - r_sum q ->
    r_M p = Z.lor (2 ^ (r_range p - 1)) (r_M q) ->
    built rows p (ls ++ [r_range p]).

Definition rows_ok (rows : list row) : Prop :=
  forall p, p ∈ rows -> wf_row p /\ (exists ls, built rows p ls) /\
    r_C p <= len * r_range p /\
    forall q, q ∈ rows -> r_range q < r_range p ->
      r_sum q < r_sum p /\ r_C p <= candidate (r_range p) q.

Lemma built_in rows p ls : built rows p ls -> p ∈ rows.
Proof. by destruct 1. Qed.

Lemma built_mono rows rows' p ls : rows ⊆ rows' -> built rows p ls -> built rows' p ls.
Proof.
  intros Hs. induction 1; [apply built_one | eapply built_step]; eauto.
Qed.

Lemma upto_range r : 0 <= upto r bl <= len.
Proof. pose proof (above_range r bl). unfold upto. lia. Qed.

Lemma candidate_range r p :
  wf_row p -> r_range p < r <= 32 -> 0 <= candidate r p < 2 ^ 31.
Proof.
  intros (Hr & Hs & HC & HA) Hlt. pose proof (upto_range (r_range p)).
  unfold candidate. rewrite Hs. change (2 ^ 31) with (128 * 2 ^ 24). nia.
Qed.

(** The inner loop takes the least candidate. *)
Lemma dp_best_spec r prev :
  1 <= r <= 32 -> (forall p, p ∈ prev -> wf_row p /\ r_range p < r) ->
  let best := dp_best len r prev in
  (best = (len * r, len, 2 ^ (r - 1)) \/
   exists p, p ∈ prev /\
     best = (candidate r p, len - r_sum p, Z.lor (2 ^ (r - 1)) (r_M p))) /\
  0 <= best.1.1 <= len * r /\ forall p, p ∈ prev -> best.1.1 <= candidate r p.
Proof.
  intros Hr Hprev. unfold dp_best.
  assert (i32 (len * r) = len * r) as -> by (apply i32_id; unfold is_i32; nia).
  assert (i32 len = len) as -> by (apply i32_id; unfold is_i32; lia).
  rewrite Z.shiftl_1_l.
  induction prev as [| p prev IH] using rev_ind; cbn zeta in *.
  { simpl. split; [by left |]. split; [nia |]. by intros p ?%elem_of_nil. }
  rewrite fold_left_app. cbn [fold_left].
  destruct IH as (I1 & I2 & I3); [intros q Hq; apply Hprev; set_solver |].
  set (b := fold_left _ _ _) in *.
  destruct (Hprev p ltac:(set_solver)) as [Hwf Hlt].
  pose proof (candidate_range r p Hwf ltac:(lia)) as Hc.
  pose proof (upto_range (r_range p)) as Hu.
  fold (candidate r p). destruct Hwf as (? & Hs & ? & ?).
  rewrite (i32_id (candidate r p)), (i32_id (len - r_sum p))
    by (unfold is_i32; rewrite ?Hs; lia).
  destruct (Z.ltb_spec (candidate r p) b.1.1).
  - cbn [fst snd]. split; [right; exists p; split; [set_solver | done] |]. split; [lia |].
    intros q [Hq | ->%list_elem_of_singleton]%elem_of_app; [specialize (I3 q Hq) |]; lia.
  - split; [destruct I1 as [I1 | (q & Hq & I1)]; [by left |] |].
    + right. exists q. split; [set_solver | done].
    + split; [lia |]. intros q [Hq | ->%list_elem_of_singleton]%elem_of_app; [by apply I3 | lia].
Qed.

(** Two neighbouring lengths are never both levels: merging them is cheaper. *)
Lemma built_gap rows p q ls :
  rows_ok rows -> built rows q ls -> p ∈ rows -> r_range q < r_range p ->
  r_C p = candidate (r_range p) q -> r_range q + 2 <= r_range p.
Proof.
  intros Hok Hq Hp Hlt HC. destruct (Hok p Hp) as ((_ & Hsp & _) & _ & Hle & Hmin).
  destruct (Hmin q (built_in _ _ _ Hq) Hlt) as [Hsum _].
  pose proof (upto_range (r_range p)).
  destruct (Z.eq_dec (r_range p) (r_range q + 1)) as [E | E]; [| lia]. exfalso.
  unfold candidate in *. destruct Hq as [q Hq C1 A1 _ | q q' ls Hq Hq' Hlt' C1 A1 _].
  - rewrite E in *. nia.
  - destruct (Hmin q' (built_in _ _ _ Hq')) as [_ Hle']; [lia |].
    unfold candidate in *. rewrite E in *. nia.
Qed.

Lemma above_0 : above 0 bl = len.
Proof.
  rewrite Hlen. clear -Hpos. induction Hpos as [| b l Hb Hl IH]; [done |].
  cbn [above foldr length]. fold (above 0 l).
  replace (0 <? b) with true by (symmetry; apply Z.ltb_lt; lia). simpl b2z. rewrite IH by done. lia.
Qed.

(** What a row says about its levels. *)
Lemma built_facts rows p ls :
  rows_ok rows -> built rows p ls ->
  ls <> [] /\ increasing 0 ls /\ lastlevel 0 ls = r_range p /\ r_M p = mapping_of ls /\
  r_C p = total ls bl /\ r_A p = above (prevlevel 0 ls) bl /\
  2 * Z.of_nat (length ls) <= r_range p + 1.
Proof.
  intros Hok. induction 1 as [p Hp HC HA HM | p q ls Hp Hq IH Hlt HC HA HM].
  - destruct (Hok p Hp) as ((Hr & _) & _). rewrite HC, HA, HM, total_single. simpl.
    rewrite above_0. split_and!; try done; lia.
  - destruct IH as (I1 & I2 & I3 & I4 & I5 & I6 & I7).
    destruct (Hok p Hp) as ((Hr & _) & _).
    destruct (Hok q (built_in _ _ _ Hq)) as ((Hrq & Hsq & _) & _).
    pose proof (built_gap rows p q ls Hok Hq Hp Hlt HC) as Hgap.
    rewrite lastlevel_snoc, prevlevel_snoc, I3, length_app. unfold upto in Hsq.
    assert (increasing 0 (ls ++ [r_range p])) as Hinc by (apply increasing_snoc; lia || by rewrite I3).
    assert (len - r_sum q = above (r_range q) bl) as Hab by lia.
    split_and!; try done; try (simpl; lia).
    + by intros []%app_eq_nil.
    + rewrite HM, I4. by apply mapping_snoc; [| lia].
    + rewrite HC, (total_snoc ls (r_range p) bl) by done. unfold candidate.
      by rewrite I3, Hab, I5, I6.
Qed.

Lemma rows_ok_snoc rows r s :
  rows_ok rows -> 1 <= r <= 32 -> s = upto r bl ->
  (forall q, q ∈ rows -> r_range q < r /\ r_sum q < s) ->
  let best := dp_best len r rows in
  rows_ok (rows ++ [{| r_range := r; r_sum := s; r_C := best.1.1; r_A := best.1.2; r_M := best.2 |}]).
Proof.
  intros Hok Hr Hs Hprev best. set (new := {| r_range := r |}).
  destruct (dp_best_spec r rows Hr) as (Hbest & HC & Hmin).
  { intros p Hp. split; [by apply Hok | by apply Hprev]. }
  fold best in Hbest, HC, Hmin.
  assert (new ∈ rows ++ [new]) as Hnew by set_solver.
  intros p [Hp | ->%list_elem_of_singleton]%elem_of_app.
  - destruct (Hok p Hp) as (Hwf & (ls & Hb) & Hle & Hq). split_and!; try done.
    + exists ls. eapply built_mono; [| done]. set_solver.
    + intros q [Hq' | ->%list_elem_of_singleton]%elem_of_app; [by apply Hq |].
      intros Hlt. destruct (Hprev p Hp). simpl in Hlt. lia.
  - split_and!; [split_and!; simpl; try done; try nia | | simpl; lia |].
    + destruct Hbest as [-> | (q & Hq & ->)]; simpl; [lia |].
      destruct (Hok q Hq) as ((_ & -> & _) & _). pose proof (upto_range (r_range q)). lia.
    + destruct Hbest as [-> | (q & Hq & ->)]; simpl; [lia |].
      destruct (Hok q Hq) as ((_ & -> & _) & _). pose proof (upto_range (r_range q)). lia.
    + destruct Hbest as [E | (q & Hq & E)].
      * exists [r]. apply (built_one _ new); simpl; by rewrite ?E.
      * destruct (Hok q Hq) as (_ & (ls & Hb) & _). exists (ls ++ [r]).
        apply (built_step _ new q); simpl; rewrite ?E; try done.
        -- eapply built_mono; [| done]. set_solver.
        -- by apply Hprev.
    + intros q [Hq | ->%list_elem_of_singleton]%elem_of_app; [| simpl; lia].
      intros _. split; [by apply Hprev | by apply Hmin].
Qed.

Lemma dp_rows_ok todo : forall rows i sum,
  rows_ok rows -> ranges_ok bl i sum todo -> 1 <= i ->
  (forall q, q ∈ rows -> r_range q < i /\ r_sum q <= sum) ->
  rows_ok (dp_rows len rows todo) /\
  forall r s, list.last todo = Some (r, s) ->
    exists p, list.last (dp_rows len rows todo) = Some p /\ r_range p = r /\ r_sum p = s.
Proof.
  induction todo as [| [r s] todo IH]; intros rows i sum Hok Hrs Hi Hprev; [done |].
  destruct Hrs as (Hr & Hs & _ & Hsum & Hrs). cbn [dp_rows].
  set (new := {| r_range := r |}).
  destruct (IH (rows ++ [new]) (r + 1) s) as [IH1 IH2]; try done; try lia.
  { apply (rows_ok_snoc rows r s); try done; [lia |].
    intros q Hq. specialize (Hprev q Hq). lia. }
  { intros q [Hq | ->%list_elem_of_singleton]%elem_of_app; [specialize (Hprev q Hq) | simpl]; lia. }
  split; [done |]. intros r' s' Hl. rewrite last_cons in Hl.
  destruct (list.last todo) as [[]|] eqn:El; [by apply IH2 |].
  apply last_None in El as ->. simplify_eq. exists new. simpl. by rewrite last_snoc.
Qed.

End search.

Lemma above_zero r bl : above r bl = 0 -> Forall (fun b => b <= r) bl.
Proof.
  induction bl as [| b bl IH]; [by constructor |]. cbn [above foldr]. fold (above r bl).
  pose proof (above_range r bl). destruct (Z.ltb_spec r b); simpl b2z; intros E; [lia |].
  constructor; [lia | apply IH; lia].
Qed.

(** The result of the search, as levels. *)
Definition search_result (bl ls : list Z) : Prop :=
  ls <> [] /\ increasing 0 ls /\ lastlevel 0 ls <= 32 /\ (length ls <= 16)%nat /\
  Forall (fun b => b <= lastlevel 0 ls) bl /\ lastlevel 0 ls ∈ bl /\
  total ls bl <= 32 * Z.of_nat (length bl).

Lemma search_spec bl :
  let len := Z.of_nat (length bl) in
  bl <> [] -> len <= 2 ^ 24 -> Forall (fun b => 1 <= b <= 32) bl ->
  exists ls, ovlq_search_optimal_mapping bl len = Some (mapping_of ls, total ls bl) /\
    search_result bl ls.
Proof.
  intros len Hne Hmax Hbl.
  assert (Forall (fun b => 0 < b) bl) as Hpos by (eapply Forall_impl; [| exact Hbl]; simpl; lia).
  assert (upto 0 bl = 0) as U0 by (unfold upto; rewrite (above_0 bl len); done || lia).
  assert (upto 32 bl = len) as U32.
  { unfold upto. enough (above 32 bl = 0) by lia. clear -Hbl. induction Hbl as [| b l Hb Hl IH]; [done |].
    cbn [above foldr]. fold (above 32 l). destruct (Z.ltb_spec 32 b); simpl b2z; lia. }
  destruct (collect_ok bl (tail (range_cnt bl)) 1) as [Hrs Hlast].
  { intros j Hj. pose proof (range_cnt_lookup bl (S j) Hbl) as R.
    pose proof (length_range_cnt bl) as L. destruct (range_cnt bl) as [| c cnt]; [done |].
    simpl in *. rewrite R by lia. do 2 f_equal. lia. }
  { pose proof (length_range_cnt bl) as L. destruct (range_cnt bl); simpl in *; lia. }
  change (1 - 1) with 0 in *. rewrite U0 in *. rewrite U32 in *.
  unfold ovlq_search_optimal_mapping. set (rs := collect _ 1 0) in *.
  assert (forall r s, list.last rs = Some (r, s) -> s = upto r bl -> Forall (fun b => b <= r) bl) as Hall.
  { intros r s E Es. rewrite E in Hlast. simpl in Hlast. apply above_zero. unfold upto in Es. lia. }
  assert (exists r s, list.last rs = Some (r, s)) as (r & s & El).
  { destruct (list.last rs) as [[r s] |]; [by exists r, s |]. simpl in Hlast.
    destruct bl; [done | simpl in len; lia]. }
  assert (r ∈ bl) as Hrin by (apply count_elem; by eapply ranges_ok_last).
  destruct (dp_rows_ok bl len eq_refl Hmax Hpos rs [] 1 0) as [Hok Hdp]; try done.
  { by intros p ?%elem_of_nil. }
  { by intros p ?%elem_of_nil. }
  destruct (Hdp r s El) as (p & Ep & Hpr & Hps).
  assert (p ∈ dp_rows len [] rs) as Hin by (apply last_Some_elem_of; done).
  destruct (Hok p Hin) as ((Hr & Hs & HC & _) & (ls & Hb) & _).
  destruct (built_facts bl len eq_refl Hmax Hpos _ p ls Hok Hb) as (I1 & I2 & I3 & I4 & I5 & _ & I7).
  assert (search_result bl ls) as Hres.
  { unfold search_result. rewrite I3, Hpr, <- I5. fold len.
    split_and!; try done; try lia. apply (Hall r s El). congruence. }
  destruct rs as [| [r1 s1] [| [r2 s2] rs]]; [done | |].
  - exists [r1]. destruct Hrs as (Hr1 & Hs1 & _).
    rewrite total_single. simpl. rewrite Z.shiftl_1_l, Z.add_0_r. split; [done |].
    split_and!; simpl; try done; try lia; [by apply (Hall r1 s1) | |].
    + by replace r1 with r by (simpl in El; congruence).
    + rewrite total_single. nia.
  - exists ls. split; [| done]. rewrite Ep. cbn [mbind option_bind]. by rewrite I4, I5.
Qed.

(** ** The encoder's table *)

Lemma data_bitlen_spec x :
  is_i32 x -> 1 <= data_bitlen x <= 32 /\ - 2 ^ (data_bitlen x - 1) <= x < 2 ^ (data_bitlen x - 1).
Proof.
  intros Hx. unfold data_bitlen, is_i32 in *. set (d := if x <? 0 then Z.lnot x else x).
  assert (0 <= d < 2 ^ 31) as Hd by (subst d; unfold Z.lnot; zcase; lia).
  assert (x = d \/ x = - d - 1) as Hxd by (subst d; unfold Z.lnot; zcase; lia).
  destruct (Z.eqb_spec d 0); [lia |]. unfold clz.
  replace (33 - (32 - 1 - Z.log2 d)) with (2 + Z.log2 d) by lia.
  pose proof (Z.log2_nonneg d). assert (Z.log2 d < 31) by (apply Z.log2_lt_pow2; lia).
  pose proof (Z.log2_spec d ltac:(lia)) as [_ Hs].
  replace (2 + Z.log2 d - 1) with (Z.succ (Z.log2 d)) by lia. lia.
Qed.

Lemma flag_ones i : 0 <= i -> bits i (2 ^ i - 1) = replicate (Z.to_nat i) true.
Proof.
  intros Hi. apply list_eq. intros k. destruct (decide (k < Z.to_nat i)%nat) as [Hk | Hk].
  - rewrite lookup_bits, lookup_replicate_2 by lia. f_equal.
    replace (2 ^ i - 1) with (Z.ones i) by (rewrite Z.ones_equiv; lia).
    apply Z.ones_spec_low. lia.
  - rewrite !lookup_ge_None_2; rewrite ?length_bits, ?length_replicate; [done | lia | lia].
Qed.

Lemma flag_level i :
  1 <= i -> bits i (2 ^ i - 2) = replicate (Z.to_nat (i - 1)) true ++ [false].
Proof.
  intros Hi. rewrite <- flag_ones by lia. change [false] with (bits 1 0).
  rewrite <- bits_val_app_bits by lia. f_equal; [lia |].
  replace i with (i - 1 + 1) at 1 by lia. rewrite Z.pow_add_r by lia. lia.
Qed.

Lemma dlen_range lo ls b :
  ls <> [] -> increasing lo ls -> b <= lastlevel lo ls ->
  lo < dlen ls b <= lastlevel lo ls /\ b <= dlen ls b.
Proof.
  revert lo. induction ls as [| l ls IH]; [done |]. intros lo _ [Hl Hls] Hb.
  pose proof (lastlevel_ge l ls Hls). destruct ls as [| l2 ls]; [simpl in *; lia |].
  change (dlen (l :: l2 :: ls) b) with (if b <=? l then l else dlen (l2 :: ls) b).
  change (lastlevel lo (l :: l2 :: ls)) with (lastlevel l (l2 :: ls)) in *.
  destruct (IH l ltac:(done) Hls Hb) as [IH1 IH2]. destruct (Z.leb_spec b l); lia.
Qed.

Lemma length_hdr ls b : (length (hdr ls b) < S (length ls))%nat.
Proof.
  induction ls as [| l ls IH]; [simpl; lia |]. destruct ls as [| l2 ls]; [simpl; lia |].
  change (hdr (l :: l2 :: ls) b) with (if b <=? l then [false] else true :: hdr (l2 :: ls) b).
  destruct (b <=? l); simpl in *; lia.
Qed.

(** The entry of every length [b], from the levels still to be processed. *)
Lemma encode_levels_spec ctz0 ls : forall p i b,
  ls <> [] -> increasing p ls -> 0 <= p -> 1 <= i -> p < b <= lastlevel p ls ->
  exists e,
    encode_levels ctz0 (length ls - 1) (i + Z.of_nat (length ls) - 1) i (p + 1) (2 ^ i - 2)
      (mapping_of ls) !! Z.to_nat (b - (p + 1)) = Some e /\
    e_dlen e = dlen ls b /\ e_flen e = i - 1 + Z.of_nat (length (hdr ls b)) /\
    bits (e_flen e) (e_flag e) = replicate (Z.to_nat (i - 1)) true ++ hdr ls b.
Proof.
  induction ls as [| l ls IH]; [done |]. intros p i b _ [Hl Hls] Hp Hi Hb.
  destruct (mapping_head ctz0 0 l ls) as [Hctz Hclr]; [lia | lia | done |].
  change (2 ^ 0) with 1 in *. rewrite !Z.mul_1_r, ?Z.add_0_r in *.
  destruct ls as [| l2 ls].
  - cbn [length Nat.sub encode_levels]. rewrite Hctz. simpl in Hb.
    eexists. split; [apply lookup_replicate_2; lia |]. cbn [e_dlen e_flen e_flag hdr dlen length].
    split; [lia |]. split; [lia |]. rewrite app_nil_r, <- flag_ones by lia.
    replace (i + Z.of_nat 1 - 1 - 1) with (i - 1) by lia. f_equal.
    rewrite Z.shiftr_div_pow2 by lia. replace (2 ^ i) with (2 ^ (i - 1) * 2 ^ 1)
      by (rewrite <- Z.pow_add_r by lia; f_equal; lia).
    replace (2 ^ (i - 1) * 2 ^ 1 - 2) with ((2 ^ (i - 1) - 1) * 2 ^ 1) by lia.
    by rewrite Z.div_mul.
  - cbn [length]. replace (S (S (length ls)) - 1)%nat with (S (length ls)) by lia.
    cbn [encode_levels]. rewrite Hctz, !Z.shiftl_1_l.
    replace (l - 1 + 1) with l by lia. rewrite Hclr.
    change (hdr (l :: l2 :: ls) b) with (if b <=? l then [false] else true :: hdr (l2 :: ls) b).
    change (dlen (l :: l2 :: ls) b) with (if b <=? l then l else dlen (l2 :: ls) b).
    destruct (Z.leb_spec b l).
    + eexists. split; [rewrite lookup_app_l by (rewrite length_replicate; lia);
        apply lookup_replicate_2; lia |].
      cbn [e_dlen e_flen e_flag length]. split; [done |]. split; [lia |]. by apply flag_level.
    + rewrite lookup_app_r by (rewrite length_replicate; lia). rewrite length_replicate.
      replace (Z.to_nat (b - (p + 1)) - Z.to_nat (l + 1 - (p + 1)))%nat
        with (Z.to_nat (b - (l + 1))) by lia.
      replace (Z.max (p + 1) (l + 1)) with (l + 1) by lia.
      assert (Z.lor (2 ^ i - 2) (2 ^ i) = 2 ^ (i + 1) - 2) as ->.
      { pose proof (Z.pow_le_mono_r 2 1 i). rewrite Z.lor_comm, <- (Z.mul_1_l (2 ^ i)) at 1.
        rewrite lor_add_disjoint by lia. rewrite Z.pow_add_r by lia. lia. }
      destruct (IH l (i + 1) b) as (e & E & E1 & E2 & E3); [done | done | lia | lia | simpl in *; lia |].
      cbn [length] in E. replace (S (length ls) - 1)%nat with (length ls) in E by lia.
      replace (i + 1 + Z.of_nat (S (length ls)) - 1) with (i + Z.of_nat (S (S (length ls))) - 1) in E by lia.
      exists e. split; [done |]. split; [done |]. split; [cbn [length]; lia |].
      rewrite E3. replace (Z.to_nat (i + 1 - 1)) with (Z.to_nat (i - 1) + 1)%nat by lia.
      by rewrite replicate_add, <- app_assoc.
Qed.

(** ** The decoder's table *)

(** The first index of [n] bits that starts with [k] ones. *)
Definition first_index (n k : Z) : Z := 2 ^ n - 2 ^ (n - k).

Lemma first_index_step n k : 0 <= k < n -> first_index n (k + 1) = first_index n k + 2 ^ (n - k - 1).
Proof.
  intros. unfold first_index. replace (n - (k + 1)) with (n - k - 1) by lia.
  assert (2 ^ (n - k) = 2 * 2 ^ (n - k - 1)) by (rewrite <- Z.pow_succ_r by lia; f_equal; lia).
  lia.
Qed.

Lemma first_index_cons n k : 0 <= k -> first_index (n + 1) (k + 1) = 2 ^ (n + 1) - 2 ^ n + first_index n k.
Proof. intros. unfold first_index. replace (n + 1 - (k + 1)) with (n - k) by lia. lia. Qed.

Lemma first_index_mono n a b : a <= b -> first_index n a <= first_index n b.
Proof. intros. unfold first_index. pose proof (Z.pow_le_mono_r 2 (n - b) (n - a)). lia. Qed.

(** The index read for a flag selects the level of the flag. *)
Lemma hdr_index ls b tl :
  ls <> [] ->
  let n := Z.of_nat (length ls) - 1 in
  let index := bits_val (take_pad (Z.to_nat n) (hdr ls b ++ tl)) in
  exists k, ls !! k = Some (dlen ls b) /\ (k < length ls)%nat /\
    first_index n (Z.of_nat k) <= index < first_index n (Z.of_nat k + 1) /\
    Z.of_nat (length (hdr ls b)) = Z.min (Z.of_nat k + 1) n.
Proof.
  induction ls as [| l ls IH]; [done |]. intros _. cbn zeta. destruct ls as [| l2 ls].
  { exists 0%nat. simpl. unfold first_index. simpl. split_and!; done || lia. }
  set (n := Z.of_nat (length (l2 :: ls)) - 1).
  replace (Z.of_nat (length (l :: l2 :: ls)) - 1) with (n + 1) by (subst n; simpl; lia).
  assert (0 <= n) by (subst n; simpl; lia).
  replace (Z.to_nat (n + 1)) with (S (Z.to_nat n)) by lia.
  change (hdr (l :: l2 :: ls) b) with (if b <=? l then [false] else true :: hdr (l2 :: ls) b).
  change (dlen (l :: l2 :: ls) b) with (if b <=? l then l else dlen (l2 :: ls) b).
  assert (2 ^ (n + 1) = 2 * 2 ^ n) as Hp by (rewrite Z.pow_add_r by lia; lia).
  destruct (b <=? l).
  - exists 0%nat. cbn [app]. rewrite take_pad_S. cbn [bits_val lookup list_lookup length].
    pose proof (bits_val_range (take_pad (Z.to_nat n) tl)) as R. rewrite length_take_pad, Z2Nat.id in R by lia.
    split; [done |]. split; [lia |]. unfold first_index. change (Z.of_nat 0) with 0.
    change (Z.b2z false) with 0. rewrite Z.sub_0_r. replace (n + 1 - (0 + 1)) with n by lia.
    change (Z.of_nat 1) with 1. lia.
  - destruct (IH ltac:(done)) as (k & Hk & Hkl & Hidx & Hh). fold n in Hidx, Hh.
    exists (S k). cbn [app]. rewrite take_pad_S. cbn [bits_val lookup list_lookup].
    rewrite length_take_pad, Z2Nat.id by lia. split; [done |]. split; [simpl in *; lia |].
    replace (Z.of_nat (S k)) with (Z.of_nat k + 1) by lia.
    rewrite !first_index_cons by lia. cbn [length]. change (Z.b2z true) with 1. lia.
Qed.

(** Removing the lowest level in the decoder's loop. *)
Lemma decode_next ctz0 mapping l l2 ls :
  (forall i, 0 <= i < 32 -> Z.testbit mapping i = Z.testbit (mapping_of (l :: l2 :: ls) * 2) i) ->
  0 < l -> increasing l (l2 :: ls) -> lastlevel l (l2 :: ls) <= 32 ->
  ctz0 = 32 \/ lastlevel l (l2 :: ls) < 32 ->
  let m := Z.land mapping (Z.lnot (i32 (Z.shiftl 1 l))) in
  (forall i, 0 <= i < 32 -> Z.testbit m i = Z.testbit (mapping_of (l2 :: ls) * 2) i) /\
  ctz ctz0 (u32 m) = l2.
Proof.
  intros Hm Hl Hls Hlast Hctz m.
  assert (forall i, 0 <= i < 32 -> Z.testbit m i = Z.testbit (mapping_of (l2 :: ls) * 2) i) as Hm'.
  { intros i Hi. destruct (mapping_head ctz0 1 l (l2 :: ls)) as [_ E]; [lia | lia | done |].
    change (2 ^ 1) with 2 in E. rewrite <- E. replace (l - 1 + 1) with l by lia. unfold m.
    rewrite !Z.land_spec, !Z.lnot_spec, Hm, Z.shiftl_1_l by lia.
    unfold i32. by rewrite testbit_swrap. }
  split; [done |].
  assert (u32 m = (mapping_of (l2 :: ls) * 2) mod 2 ^ 32) as ->.
  { unfold u32. apply Z.bits_inj'. intros i Hi. rewrite !testbit_mod by lia.
    destruct (Z.ltb_spec i 32); [| done]. simpl. apply Hm'. lia. }
  destruct Hls as [Hl2 Hls]. pose proof (lastlevel_ge l2 ls Hls).
  change (lastlevel l (l2 :: ls)) with (lastlevel l2 ls) in *.
  destruct (mapping_head ctz0 1 l2 ls) as [E _]; [lia | lia | done |]. change (2 ^ 1) with 2 in E.
  destruct (Z.eq_dec l2 32) as [-> | Hne].
  - destruct ls as [| l3 ls].
    2: { destruct Hls as [? Hls]. pose proof (lastlevel_ge l3 ls Hls).
         change (lastlevel 32 (l3 :: ls)) with (lastlevel l3 ls) in *. lia. }
    simpl lastlevel in *. destruct Hctz as [-> | ?]; [done | lia].
  - pose proof (mapping_nonneg ls). pose proof (Z.pow_pos_nonneg 2 (l2 - 1) ltac:(lia) ltac:(lia)).
    rewrite (ctz_mod ctz0) by (rewrite ?E; simpl; lia). lia.
Qed.

(** The mask of the loop meets the index exactly when one more leading bit is set. *)
Lemma mask_hit n k i :
  0 <= k < n -> first_index n k <= i <= first_index n (k + 1) ->
  (Z.land (2 ^ (n - 1 - k)) i =? 0) = (i <? first_index n (k + 1)).
Proof.
  intros Hk Hi. rewrite first_index_step in * by lia. set (p := n - k - 1) in *.
  replace (n - 1 - k) with p by lia.
  assert (Z.testbit i p = negb (i <? first_index n k + 2 ^ p)) as Hb.
  { assert (first_index n k = (2 ^ k - 1) * 2 * 2 ^ p) as Ef.
    { unfold first_index. replace n with (k + 1 + p) at 1 by lia.
      replace (n - k) with (1 + p) by lia. rewrite !Z.pow_add_r by lia. lia. }
    pose proof (Z.testbit_spec' i p ltac:(lia)) as T.
    destruct (Z.ltb_spec i (first_index n k + 2 ^ p)).
    - replace i with ((i - first_index n k) + (2 ^ k - 1) * 2 * 2 ^ p) in T at 2 by lia.
      rewrite Z.div_add, Z.div_small, Z.add_0_l, Z.mod_mul in T by lia.
      destruct (Z.testbit i p); [done |]. done.
    - replace i with (1 * 2 ^ p + (2 ^ k - 1) * 2 * 2 ^ p) in T at 2 by lia.
      rewrite Z.div_add, Z.div_mul, Z.mod_add in T by lia. by destruct (Z.testbit i p). }
  destruct (Z.ltb_spec i (first_index n k + 2 ^ p)) as [Hlt | Hge].
  - apply Z.eqb_eq. apply Z.bits_inj'. intros j Hj. rewrite Z.land_spec, Z.pow2_bits_eqb, Z.testbit_0_l by lia.
    destruct (Z.eqb_spec p j) as [<- |]; [| done]. by rewrite Hb.
  - apply Z.eqb_neq. intros E. assert (Z.testbit (Z.land (2 ^ p) i) p = false) as F by (by rewrite E, Z.testbit_0_l).
    rewrite Z.land_spec, Z.pow2_bits_true, Hb in F by lia. done.
Qed.

(** The entries of the loop from index [i] on, when [k] leading ones have been met. *)
Lemma decode_entries_spec ctz0 n m : forall i k l ls mapping,
  let len := Z.of_nat (length ls) in
  Z.of_nat m = 2 ^ n - i -> 0 <= k -> k + len = n -> 
  first_index n k <= i <= first_index n (k + 1) -> (k = n -> m = O) ->
  (forall j, 0 <= j < 32 -> Z.testbit mapping j = Z.testbit (mapping_of (l :: ls) * 2) j) ->
  0 < l -> increasing l ls -> lastlevel l ls <= 32 -> ctz0 = 32 \/ lastlevel l ls < 32 ->
  forall k' i' l', i <= i' < 2 ^ n -> k <= k' -> (l :: ls) !! Z.to_nat (k' - k) = Some l' ->
    first_index n k' <= i' < first_index n (k' + 1) ->
    decode_entries ctz0 m i (2 ^ (n - 1 - k)) mapping l (k + 1) !! Z.to_nat (i' - i)
    = Some (k' + 1, l').
Proof.
  induction m as [| m IH]; intros i k l ls mapping len Hm Hk Hkn Hi Hend Hbits Hl Hls Hlast Hctz k' i' l' Hi' Hk' Hl' Hidx.
  { lia. }
  assert (k < n) as Hkn' by (destruct (Z.eq_dec k n); [specialize (Hend e); lia | lia]).
  destruct ls as [| l2 ls]; [subst len; simpl in *; lia |].
  cbn [decode_entries]. rewrite mask_hit by lia.
  destruct (Z.ltb_spec i (first_index n (k + 1))) as [Hlt | Hge].
  - destruct (Z.eq_dec i' i) as [-> | Hne].
    + destruct (Z.eq_dec k' k) as [-> | Hk2].
      * rewrite Z.sub_diag in *. simpl in Hl'. by simplify_eq.
      * pose proof (first_index_mono n (k + 1) k' ltac:(lia)). lia.
    + replace (Z.to_nat (i' - i)) with (S (Z.to_nat (i' - (i + 1)))) by lia.
      cbn [lookup list_lookup]. apply (IH (i + 1) k l (l2 :: ls)); try done; lia.
  - assert (i = first_index n (k + 1)) as -> by lia. clear Hge.
    destruct (decode_next ctz0 mapping l l2 ls) as [Hbits' ->]; try done.
    set (m' := Z.land mapping _) in *.
    assert (k' <> k) by (intros ->; lia).
    destruct (Z.eq_dec i' (first_index n (k + 1))) as [-> | Hne].
    + destruct (Z.eq_dec k' (k + 1)) as [-> | Hk2].
      * rewrite Z.sub_diag. replace (k + 1 - k) with 1 in Hl' by lia. simpl in Hl'. by simplify_eq.
      * exfalso. enough (first_index n (k + 1) < first_index n (k + 2)).
        { pose proof (first_index_mono n (k + 2) k' ltac:(lia)). lia. }
        unfold first_index. apply Z.sub_lt_mono_l. destruct (Z.eq_dec (k + 1) n) as [<- |].
        -- rewrite Z.sub_diag, (Z.pow_neg_r 2 (k + 1 - (k + 2))) by lia. done.
        -- apply Z.pow_lt_mono_r; lia.
    + set (i := first_index n (k + 1)) in *.
      replace (Z.to_nat (i' - i)) with (S (Z.to_nat (i' - (i + 1)))) by lia.
      cbn [lookup list_lookup].
      assert (k + 1 <> n) as Hkn2.
      { intros E. unfold i, first_index in *. rewrite E, Z.sub_diag in *. lia. }
      replace (Z.shiftr (2 ^ (n - 1 - k)) 1) with (2 ^ (n - 1 - (k + 1))).
      2: { rewrite Z.shiftr_div_pow2 by lia. replace (n - 1 - k) with (n - 1 - (k + 1) + 1) by lia.
           rewrite Z.pow_add_r, Z.div_mul by lia. done. }
      apply (IH (i + 1) (k + 1) l2 ls); try done; try lia.
      * subst len. cbn [length] in Hkn. lia.
      * pose proof (first_index_step n (k + 1) ltac:(lia)). fold i in H0.
        pose proof (Z.pow_pos_nonneg 2 (n - (k + 1) - 1) ltac:(lia) ltac:(lia)). lia.
      * destruct Hls. lia.
      * by destruct Hls.
      * replace (Z.to_nat (k' - k)) with (S (Z.to_nat (k' - (k + 1)))) in Hl' by lia. done.
Qed.

(** What the two directions need of a set of levels. *)
Definition levels_ok (ctz0 : Z) (ls : list Z) : Prop :=
  ls <> [] /\ increasing 0 ls /\ lastlevel 0 ls <= 32 /\ (length ls <= 16)%nat /\
  (ctz0 = 32 \/ lastlevel 0 ls < 32).

Lemma decode_table_spec ctz0 ls :
  levels_ok ctz0 ls -> (2 <= length ls)%nat ->
  let n := Z.of_nat (length ls) - 1 in
  exists table, ovlq_build_decode_table_with_mapping ctz0 (mapping_of ls * 2) = Some (table, n) /\
    forall b tl, table !! Z.to_nat (bits_val (take_pad (Z.to_nat n) (hdr ls b ++ tl)))
      = Some (Z.of_nat (length (hdr ls b)), dlen ls b).
Proof.
  intros (Hne & Hinc & Hlast & Hlen & Hctz) H2 n. destruct ls as [| l ls]; [done |].
  assert (n = Z.of_nat (length ls)) as Hn by (subst n; simpl; lia).
  unfold ovlq_build_decode_table_with_mapping.
  assert (popcount (mapping_of (l :: ls) * 2) = Z.of_nat (length (l :: ls))) as ->.
  { change 2 with (2 ^ 1). by rewrite popcount_shift, mapping_popcount by (done || lia). }
  rewrite assert_true by (apply Z.leb_le; lia). cbn [mbind option_bind].
  fold n. replace (Z.of_nat (length (l :: ls)) - 2) with (n - 1 - 0) by lia.
  rewrite !Z.shiftl_1_l. destruct Hinc as [Hl Hls].
  destruct (mapping_head ctz0 1 l ls) as [Hc _]; [lia | lia | done |].
  change (2 ^ 1) with 2 in Hc. rewrite Hc. replace (l - 1 + 1) with l by lia.
  pose proof (Z.pow_pos_nonneg 2 n ltac:(lia) ltac:(lia)) as Hp.
  pose proof (decode_entries_spec ctz0 n (Z.to_nat (2 ^ n)) 0 0 l ls (mapping_of (l :: ls) * 2)) as Hspec.
  cbn zeta in Hspec. rewrite Z.add_0_l in Hspec. change (0 + 1) with 1 in Hspec. specialize (Hspec ltac:(lia) ltac:(lia) ltac:(lia)).
  assert (first_index n n = 2 ^ n - 1) as Fn by (unfold first_index; rewrite Z.sub_diag; lia).
  assert (first_index n (n + 1) = 2 ^ n) as Fn1.
  { unfold first_index. rewrite (Z.pow_neg_r 2 (n - (n + 1))) by lia. lia. }
  assert (first_index n 0 = 0) as F0 by (unfold first_index; rewrite Z.sub_0_r; lia).
  pose proof (first_index_mono n 0 1 ltac:(lia)) as F1.
  specialize (Hspec ltac:(lia) ltac:(lia) ltac:(done) Hl Hls Hlast Hctz).
  set (table := decode_entries _ _ _ _ _ _ _) in *.
  destruct (lookup_lt_is_Some_2 (l :: ls) (length ls)) as [ll Hll]; [simpl; lia |].
  assert (table !! Z.to_nat (2 ^ n - 1) = Some (n + 1, ll)) as El.
  { replace (2 ^ n - 1) with (2 ^ n - 1 - 0) by lia. apply Hspec; try lia.
    replace (Z.to_nat (n - 0)) with (length ls) by lia. done. }
  rewrite El. cbn [mbind option_bind fst snd]. replace (n + 1 - 1) with n by lia.
  eexists. split; [done |]. intros b tl.
  destruct (hdr_index (l :: ls) b tl) as (k & Hk & Hkl & Hidx & Hh); [done |].
  fold n in Hidx, Hh. set (index := bits_val _) in *.
  assert (0 <= index < 2 ^ n) as Hir.
  { pose proof (bits_val_range (take_pad (Z.to_nat n) (hdr (l :: ls) b ++ tl))) as R.
    rewrite length_take_pad, Z2Nat.id in R by lia. done. }
  assert (table !! Z.to_nat index = Some (Z.of_nat k + 1, dlen (l :: ls) b)) as Et.
  { replace index with (index - 0) by lia. apply Hspec; try lia.
    by replace (Z.to_nat (Z.of_nat k - 0)) with k by lia. }
  rewrite list_lookup_insert. case_decide as Hd.
  - destruct Hd as [Hd _]. rewrite <- Hd, El in Et. simplify_eq. do 2 f_equal. lia.
  - rewrite Et. f_equal. f_equal. enough (Z.of_nat k <> n) by (simpl in Hkl; lia).
    intros Ek. rewrite Ek in Hidx. apply Hd. split; [f_equal; lia |]. by apply lookup_lt_Some in El.
Qed.

Definition codes (ls input : list Z) : list bool := input ≫= code ls.

Lemma length_codes ls input :
  Forall (fun x => 0 <= dlen ls (data_bitlen x)) input ->
  Z.of_nat (length (codes ls input)) = total ls (data_bitlen <$> input).
Proof.
  induction 1 as [| x input Hx Hin IH]; [done |].
  change (codes ls (x :: input)) with (code ls x ++ codes ls input).
  change (total ls (data_bitlen <$> x :: input))
    with (clen ls (data_bitlen x) + total ls (data_bitlen <$> input)).
  rewrite length_app, <- IH. unfold code, clen. rewrite length_app, length_bits. lia.
Qed.

Lemma sign_extend_spec x n :
  1 <= n <= 32 -> - 2 ^ (n - 1) <= x < 2 ^ (n - 1) -> sign_extend (x mod 2 ^ n) n = x.
Proof.
  intros Hn Hx. unfold sign_extend. rewrite Z.shiftl_mul_pow2, Z.shiftr_div_pow2 by lia.
  assert (i32 (x mod 2 ^ n * 2 ^ (32 - n)) = x * 2 ^ (32 - n)) as ->; [| by apply Z.div_mul; lia].
  unfold i32. rewrite <- swrap_mod by lia.
  assert (2 ^ 32 = 2 ^ n * 2 ^ (32 - n)) as E32 by (rewrite <- Z.pow_add_r by lia; f_equal; lia).
  rewrite <- Z.mul_mod_distr_r, <- E32, Z.mod_mod, swrap_mod by lia.
  apply swrap_id; [lia |].
  assert (2 ^ (32 - 1) = 2 ^ (n - 1) * 2 ^ (32 - n)) as -> by (rewrite <- Z.pow_add_r by lia; f_equal; lia).
  nia.
Qed.

(** ** The round trip *)

(** A value that fits the levels. *)
Definition fits (ls : list Z) (x : Z) : Prop := is_i32 x /\ data_bitlen x <= lastlevel 0 ls.

Lemma fits_dlen ctz0 ls x :
  levels_ok ctz0 ls -> fits ls x ->
  let n := dlen ls (data_bitlen x) in 1 <= n <= 32 /\ - 2 ^ (n - 1) <= x < 2 ^ (n - 1).
Proof.
  intros (Hne & Hinc & Hlast & _) [Hx Hb]. destruct (data_bitlen_spec x Hx) as [H1 H2].
  destruct (dlen_range 0 ls (data_bitlen x) Hne Hinc Hb) as [H3 H4]. cbn zeta. split; [lia |].
  pose proof (Z.pow_le_mono_r 2 (data_bitlen x - 1) (dlen ls (data_bitlen x) - 1)). lia.
Qed.

Lemma write_coded_writes ctz0 z ls table input : forall w bs,
  levels_ok z ls -> (2 <= length ls)%nat -> Forall (fits ls) input ->
  table = encode_levels ctz0 (length ls - 1) (Z.of_nat (length ls)) 1 1 0 (mapping_of ls) ->
  writes w bs -> Z.of_nat (length (bs ++ codes ls input)) <= 32 * bw_len w ->
  exists w', write_coded w table input = Some w' /\ writes w' (bs ++ codes ls input) /\
    bw_len w' = bw_len w.
Proof.
  induction input as [| x input IH]; intros w bs Hls H2 Hin Ht Hw Hcap.
  { exists w. unfold codes. simpl. by rewrite app_nil_r. }
  apply Forall_cons_iff in Hin as [Hx Hin].
  change (codes ls (x :: input)) with (code ls x ++ codes ls input) in *.
  destruct (fits_dlen z ls x Hls Hx) as [Hd _]. destruct Hx as [Hx Hb].
  pose proof Hls as (Hne & Hinc & Hlast & H16 & _).
  destruct (data_bitlen_spec x Hx) as [Hb1 _].
  destruct (encode_levels_spec ctz0 ls 0 1 (data_bitlen x)) as (e & E & E1 & E2 & E3);
    [done | done | lia | lia | lia |].
  replace (1 + Z.of_nat (length ls) - 1) with (Z.of_nat (length ls)) in E by lia.
  change (0 + 1) with 1 in E. change (2 ^ 1 - 2) with 0 in E.
  cbn [write_coded]. rewrite Ht, E. cbn [mbind option_bind]. rewrite <- Ht.
  pose proof (length_hdr ls (data_bitlen x)) as Hhl.
  assert (0 < length (hdr ls (data_bitlen x)))%nat.
  { destruct ls as [| l [| l2 ls]]; [done | simpl in H2; lia |]. simpl. destruct (_ <=? l); simpl; lia. }
  change (replicate (Z.to_nat (1 - 1)) true ++ hdr ls (data_bitlen x)) with (hdr ls (data_bitlen x)) in E3.
  unfold code in Hcap. rewrite !length_app, length_bits in Hcap.
  write_step. rewrite E1. write_step. rewrite E3, <- app_assoc in Hw.
  change (_ ++ bits _ x) with (code ls x) in Hw.
  destruct (IH w1 (bs ++ code ls x)) as (w' & -> & Hw' & Hl'); try done.
  { unfold code. rewrite !length_app, length_bits. lia. }
  exists w'. rewrite <- app_assoc in Hw'. split; [done |]. split; [done | lia].
Qed.

Lemma read_coded_reads ctz0 ls table n input : forall r,
  levels_ok ctz0 ls -> (2 <= length ls)%nat -> Forall (fits ls) input ->
  n = Z.of_nat (length ls) - 1 ->
  (forall b tl, table !! Z.to_nat (bits_val (take_pad (Z.to_nat n) (hdr ls b ++ tl)))
      = Some (Z.of_nat (length (hdr ls b)), dlen ls b)) ->
  reads r (codes ls input) -> read_coded (length input) r table n = Some input.
Proof.
  induction input as [| x input IH]; intros r Hls H2 Hin Hn Ht Hr; [done |].
  apply Forall_cons_iff in Hin as [Hx Hin].
  change (codes ls (x :: input)) with (code ls x ++ codes ls input) in *.
  unfold code in Hr. rewrite <- app_assoc in Hr.
  pose proof Hls as (_ & _ & _ & H16 & _). pose proof (length_hdr ls (data_bitlen x)).
  destruct (fits_dlen ctz0 ls x Hls Hx) as [Hd Hxd].
  cbn [length read_coded]. rewrite (peek_reads_pad r n _ Hr) by lia. cbn [mbind option_bind].
  rewrite Ht. cbn [mbind option_bind fst snd].
  destruct (forward_reads_app r (Z.of_nat (length (hdr ls (data_bitlen x)))) _ _ Hr) as (r1 & -> & Hr1);
    [lia | lia |]. cbn [mbind option_bind]. clear Hr. rename Hr1 into Hr.
  do 2 read_step. rewrite (IH r0) by done. cbn [mbind option_bind].
  by rewrite sign_extend_spec.
Qed.

(** With a single level there are no flags. *)
Lemma write_plain_writes l input : forall w bs,
  1 <= l <= 32 -> writes w bs -> Z.of_nat (length (bs ++ codes [l] input)) <= 32 * bw_len w ->
  exists w', write_plain w l input = Some w' /\ writes w' (bs ++ codes [l] input) /\
    bw_len w' = bw_len w.
Proof.
  induction input as [| x input IH]; intros w bs Hl Hw Hcap.
  { exists w. unfold codes. simpl. by rewrite app_nil_r. }
  change (codes [l] (x :: input)) with (bits l x ++ codes [l] input) in *.
  rewrite !length_app, length_bits in Hcap. cbn [write_plain]. write_step.
  destruct (IH w0 (bs ++ bits l x)) as (w' & -> & Hw' & Hl'); try done.
  { rewrite !length_app, length_bits. lia. }
  exists w'. rewrite <- app_assoc in Hw'. split; [done |]. split; [done | lia].
Qed.

Lemma read_plain_reads ctz0 l input : forall r,
  levels_ok ctz0 [l] -> Forall (fits [l]) input ->
  reads r (codes [l] input) -> read_plain (length input) r l = Some input.
Proof.
  induction input as [| x input IH]; intros r Hls Hin Hr; [done |].
  apply Forall_cons_iff in Hin as [Hx Hin].
  change (codes [l] (x :: input)) with (bits l x ++ codes [l] input) in *.
  destruct (fits_dlen ctz0 [l] x Hls Hx) as [Hd Hxd]. cbn [dlen] in Hd, Hxd.
  cbn [length read_plain]. do 2 read_step. rewrite (IH r0) by done. cbn [mbind option_bind].
  by rewrite sign_extend_spec.
Qed.

Lemma payload_size t : 0 <= t -> ALIGN_UP (DIV_UP t 3) 2 = 4 * ((t + 31) / 32).
Proof.
  intros Ht. unfold ALIGN_UP, DIV_UP. change (Z.shiftl 1 3) with 8. change (Z.shiftl 1 2) with 4.
  change (4 - 1) with (Z.ones 2). rewrite <- Z.ldiff_land, Z.ldiff_ones_r by lia.
  rewrite Z.shiftl_mul_pow2, !Z.shiftr_div_pow2 by lia.
  change (2 ^ 2) with 4. change (2 ^ 3) with 8. rewrite Z.mul_comm. f_equal.
  replace ((t + 8 - 1) / 8 + 4 - 1) with ((t + 31) / 8).
  - by rewrite Z.div_div.
  - replace (t + 31) with (t + 8 - 1 + 3 * 8) by lia. rewrite Z.div_add by lia. lia.
Qed.

(** The writing half of the encoder. *)
Lemma write_input ctz0 ls input w :
  levels_ok 32 ls -> Forall (fits ls) input -> writes w [] ->
  Z.of_nat (length (codes ls input)) <= 32 * bw_len w ->
  exists table w', ovlq_build_encode_table_with_mapping ctz0 (mapping_of ls) = Some table /\
    match table with
    | None => write_plain w (ctz ctz0 (mapping_of ls) + 1) input
    | Some table => write_coded w table input
    end = Some w' /\ writes w' (codes ls input) /\ bw_len w' = bw_len w.
Proof.
  intros Hok Hfits Hw Hcap. pose proof Hok as (Hne & Hinc & Hlast & H16 & _).
  unfold ovlq_build_encode_table_with_mapping. rewrite mapping_popcount by done.
  destruct ls as [| l [| l2 ls]]; [done | |].
  - destruct (mapping_head ctz0 0 l []) as [Hc _]; [lia | by destruct Hinc | done |].
    rewrite Z.mul_1_r, Z.add_0_r in Hc. rewrite Hc. replace (l - 1 + 1) with l by lia.
    destruct Hinc as [Hl _]. simpl in Hlast.
    destruct (write_plain_writes l input w []) as (w' & E & Hw' & Hl'); try done; try lia.
    exists None, w'. rewrite E. done.
  - destruct (write_coded_writes ctz0 32 (l :: l2 :: ls)
      (encode_levels ctz0 (length (l :: l2 :: ls) - 1) (Z.of_nat (length (l :: l2 :: ls))) 1 1 0
        (mapping_of (l :: l2 :: ls))) input w []) as (w' & E & Hw' & Hl');
      try done; [simpl; lia |].
    eexists (Some _), w'. rewrite assert_true by (apply Z.ltb_lt; simpl; lia). cbn [mbind option_bind].
    replace (1 <? Z.of_nat (length (l :: l2 :: ls))) with true by (symmetry; apply Z.ltb_lt; simpl; lia).
    split; [done |]. split; [| done].
    replace (Z.to_nat (Z.of_nat (length (l :: l2 :: ls)) - 1)) with (length (l :: l2 :: ls) - 1)%nat by lia.
    exact E.
Qed.

Lemma search_fits input ls :
  Forall is_i32 input -> search_result (data_bitlen <$> input) ls ->
  levels_ok 32 ls /\ Forall (fits ls) input /\
  Z.of_nat (length (codes ls input)) = total ls (data_bitlen <$> input) /\
  Z.of_nat (length input) <= total ls (data_bitlen <$> input).
Proof.
  intros Hin (Hls & Hinc & Hlast & H16 & Hall & _).
  assert (levels_ok 32 ls) as Hok by (split_and!; auto).
  assert (Forall (fits ls) input) as Hfits.
  { clear -Hin Hall. induction input as [| x input IH]; [by constructor |].
    apply Forall_cons_iff in Hin as [? ?]. cbn [fmap list_fmap] in Hall.
    apply Forall_cons_iff in Hall as [? ?]. constructor; [done | by apply IH]. }
  assert (Z.of_nat (length (codes ls input)) = total ls (data_bitlen <$> input)) as Htot.
  { apply length_codes. eapply Forall_impl; [| exact Hfits]. intros x Hx.
    destruct (fits_dlen 32 ls x Hok Hx). lia. }
  split_and!; try done. rewrite <- Htot. clear -Hok Hfits.
  induction Hfits as [| x input Hx _ IH]; [simpl; lia |].
  change (codes ls (x :: input)) with (code ls x ++ codes ls input).
  destruct (fits_dlen 32 ls x Hok Hx). unfold code. rewrite !length_app, length_bits. simpl length. lia.
Qed.

(** What the encoder stores. *)
Lemma ovlq_encode_format ctz0 input :
  input <> [] -> Z.of_nat (length input) <= 2 ^ 24 -> Forall is_i32 input ->
  exists ls ws, search_result (data_bitlen <$> input) ls /\
    ovlq_encode ctz0 input
    = Some (le_bytes 4 (Z.of_nat (length input)) ++ le_bytes 4 (mapping_of ls) ++ store_array 4 ws,
            8 + 4 * Z.of_nat (length ws)) /\
    zeq (word_bits ws) (codes ls input) /\ Forall is_u32 ws /\ ws <> [] /\
    Z.of_nat (length ws) = (total ls (data_bitlen <$> input) + 31) / 32.
Proof.
  intros Hne Hmax Hin. set (bl := data_bitlen <$> input).
  assert (length bl = length input) as Hbl by apply length_fmap.
  destruct (search_spec bl) as (ls & Es & Hres).
  { by destruct input. } { by rewrite Hbl. }
  { apply Forall_fmap. eapply Forall_impl; [| exact Hin]. intros x Hx. by apply data_bitlen_spec. }
  rewrite Hbl in Es. exists ls.
  destruct (search_fits input ls Hin Hres) as (Hok & Hfits & Htot & Hge). fold bl in Htot, Hge.
  assert (0 < length input)%nat by (destruct input; [done | simpl; lia]).
  unfold ovlq_encode. fold bl. rewrite Es. cbn [mbind option_bind fst snd].
  rewrite payload_size by lia. replace (8 + 4 * ((total ls bl + 31) / 32) - 8)
    with ((total ls bl + 31) / 32 * 4) by lia. rewrite Z.div_mul by lia.
  pose proof (Z.div_mod (total ls bl + 31) 32 ltac:(lia)) as Hdm.
  pose proof (Z.mod_pos_bound (total ls bl + 31) 32 ltac:(lia)) as Hm.
  set (n := (total ls bl + 31) / 32) in *.
  destruct (init_ok n) as (w & Ew & Hw & Hwl); [lia |].
  destruct (write_input ctz0 ls input w Hok Hfits Hw) as (table & w' & -> & E & Hw' & Hwl'); [lia |].
  cbn [mbind option_bind]. rewrite Ew. cbn [mbind option_bind]. rewrite E. cbn [mbind option_bind].
  destruct (flush_writes w' _ Hw') as (w2 & -> & Hz & Hu & Hc1 & Hc2); [lia |].
  cbn [mbind option_bind]. rewrite Htot in Hc2. fold n in Hc2.
  exists (bw_output w2). rewrite <- Hc1, Hc2. split_and!; try done.
  intros E0. rewrite E0 in Hc1. simpl in Hc1. lia.
Qed.

(** The reading half of the decoder. *)
Lemma decode_input ctz0 ls input r :
  levels_ok ctz0 ls -> Forall (fits ls) input -> reads r (codes ls input) ->
  (if popcount (mapping_of ls * 2) =? 1
   then read_plain (Z.to_nat (Z.of_nat (length input))) r (ctz ctz0 (mapping_of ls * 2))
   else ti ← ovlq_build_decode_table_with_mapping ctz0 (mapping_of ls * 2);
        read_coded (Z.to_nat (Z.of_nat (length input))) r ti.1 ti.2) = Some input.
Proof.
  intros Hok Hfits Hr. rewrite Nat2Z.id. pose proof Hok as (Hne & Hinc & _).
  assert (popcount (mapping_of ls * 2) = Z.of_nat (length ls)) as ->.
  { change 2 with (2 ^ 1). by rewrite popcount_shift, mapping_popcount. }
  destruct (Z.eqb_spec (Z.of_nat (length ls)) 1) as [H1 | H1].
  - destruct ls as [| l [| l2 ls]]; simpl in H1; try lia.
    destruct (mapping_head ctz0 1 l []) as [Hc _]; [lia | by destruct Hinc | done |].
    change (2 ^ 1) with 2 in Hc. rewrite Hc. replace (l - 1 + 1) with l by lia.
    by apply (read_plain_reads ctz0).
  - assert (2 <= length ls)%nat by (destruct ls as [| ? []]; simpl in *; done || lia).
    destruct (decode_table_spec ctz0 ls Hok) as (table & -> & Ht); [done |].
    cbn [mbind option_bind fst snd]. by apply (read_coded_reads ctz0 ls).
Qed.

(** The correctness of the coder, for its clients. *)
Lemma ovlq_correct ctz0 input :
  input <> [] -> Z.of_nat (length input) <= 2 ^ 24 -> Forall is_i32 input ->
  ctz0 = 32 \/ Forall (fun x => data_bitlen x < 32) input ->
  exists out size, ovlq_encode ctz0 input = Some (out, size) /\
    size = Z.of_nat (length out) /\ load 4 out 0 = Some (Z.of_nat (length input)) /\
    Forall is_byte out /\ (exists k, length out = (4 * k)%nat) /\
    size <= 8 + 4 * Z.of_nat (length input) /\ ovlq_decode ctz0 out size = Some input.
Proof.
  intros Hne Hmax Hin Hctz.
  destruct (ovlq_encode_format ctz0 input Hne Hmax Hin) as (ls & ws & Hres & E & Hz & Hu & Hws & Hlen).
  eexists _, _. split; [exact E |].
  destruct (search_fits input ls Hin Hres) as (_ & Hfits & _ & _).
  assert (levels_ok ctz0 ls) as Hok.
  { destruct Hres as (Hls & Hinc & Hlast & H16 & _ & Hel & _). split_and!; try done.
    destruct Hctz as [? | Hsmall]; [by left | right].
    apply list_elem_of_fmap in Hel as (x & -> & Hx).
    apply list_elem_of_lookup in Hx as [i Hx]. by eapply Forall_lookup_1 in Hsmall. }
  set (len := Z.of_nat (length input)) in *.
  assert (is_u32 (mapping_of ls)) as Hmap.
  { destruct Hok as (_ & Hinc & Hlast & _). pose proof (mapping_nonneg ls).
    pose proof (lastlevel_ge 0 ls Hinc).
    pose proof (mapping_bound 0 (lastlevel 0 ls) ls ltac:(lia) Hinc (levels_le_last 0 ls Hinc)).
    pose proof (Z.pow_le_mono_r 2 (lastlevel 0 ls) 32). unfold is_u32. lia. }
  set (out := _ ++ _). assert (8 + 4 * Z.of_nat (length ws) = Z.of_nat (length out)) as Hout.
  { unfold out. rewrite !length_app, !length_le_bytes, length_store_array. lia. }
  split; [done |].
  assert (load 4 out 0 = Some len) as L0
    by (apply (load_at 4 4 out [] len (le_bytes 4 (mapping_of ls) ++ store_array 4 ws)); done || (change (2 ^ (8 * 4)) with (2 ^ 32); lia)).
  split; [done |]. split.
  { unfold out. repeat apply Forall_app_2; [apply le_bytes_range.. | apply store_array_range]. }
  split; [exists (2 + length ws)%nat; lia |]. split.
  { destruct Hres as (_ & _ & _ & _ & _ & _ & Htot). rewrite length_fmap in Htot. fold len in Htot.
    enough ((total ls (data_bitlen <$> input) + 31) / 32 <= len) by lia.
    apply Z.lt_succ_r, Z.div_lt_upper_bound; lia. }
  unfold ovlq_decode. rewrite L0.
  rewrite (load_at 4 4 out (le_bytes 4 len) (mapping_of ls) (store_array 4 ws) 4) by done.
  cbn [mbind option_bind].
  replace ((8 + 4 * Z.of_nat (length ws) - 8) / 4) with (Z.of_nat (length ws))
    by (replace (8 + _ - 8) with (Z.of_nat (length ws) * 4) by lia; by rewrite Z.div_mul).
  rewrite (load_n_at 4 out (le_bytes 4 len ++ le_bytes 4 (mapping_of ls)) ws [])
    by (unfold out; rewrite <- ?app_assoc, ?app_nil_r; done || exact Hu).
  cbn [mbind option_bind]. destruct (init_reads ws _ Hu Hz Hws) as (r & -> & Hr).
  cbn [mbind option_bind]. unfold shl64. rewrite Z.shiftl_mul_pow2, u64_id by (unfold is_u64, is_u32 in *; lia).
  change (2 ^ 1) with 2. by apply (decode_input ctz0 ls input r).
Qed.

(** C8: whatever 32-bit integers are encoded, the buffer holds exactly the code whose
    length the search announced, at most 16 lengths are used, and decoding gives the
    integers back.  A 32-bit length needs [__builtin_ctz(0)] to be 32. *)
Theorem ovlq_roundtrip ctz0 input :
  input <> [] -> Z.of_nat (length input) <= 2 ^ 24 -> Forall is_i32 input ->
  ctz0 = 32 \/ Forall (fun x => data_bitlen x < 32) input ->
  exists out size, ovlq_encode ctz0 input = Some (out, size) /\
    size = Z.of_nat (length out) /\ ovlq_decode ctz0 out size = Some input.
Proof.
  intros Hne Hmax Hin Hctz.
  destruct (ovlq_correct ctz0 input Hne Hmax Hin Hctz) as (out & size & E & L & _ & _ & _ & _ & D). eauto.
Qed.

Lemma ovlq_roundtrip_witness :
  exists out size,
    ovlq_encode 32 [1; -15; 511; 0; 100000; -2147483648; 2; -3] = Some (out, size) /\
    size = Z.of_nat (length out) /\
    ovlq_decode 32 out size = Some [1; -15; 511; 0; 100000; -2147483648; 2; -3].
Proof.
  apply (ovlq_roundtrip 32); [done | simpl; lia | | by left].
  repeat constructor; unfold is_i32; lia.
Defined.

(** C19: the cost the search announces is the exact number of bits of the code it selects,
    and it selects at most 16 lengths (so the decode table has at most 2^15 entries). *)
Theorem ovlq_search_exact input :
  input <> [] -> Z.of_nat (length input) <= 2 ^ 24 -> Forall is_i32 input ->
  exists ls bitlen,
    ovlq_search_optimal_mapping (data_bitlen <$> input) (Z.of_nat (length input))
    = Some (mapping_of ls, bitlen) /\
    bitlen = Z.of_nat (length (codes ls input)) /\ increasing 0 ls /\ (length ls <= 16)%nat.
Proof.
  intros Hne Hmax Hin. pose proof (length_fmap data_bitlen input) as Hl.
  destruct (search_spec (data_bitlen <$> input)) as (ls & Es & Hres).
  { by destruct input. } { by rewrite Hl. }
  { apply Forall_fmap. eapply Forall_impl; [| exact Hin]. intros x Hx. by apply data_bitlen_spec. }
  destruct (search_fits input ls Hin Hres) as (Hok & _ & Htot & _). rewrite Hl in Es.
  exists ls, (total ls (data_bitlen <$> input)). destruct Hres as (_ & ? & _ & ? & _).
  by split_and!.
Qed.

Lemma ovlq_search_exact_witness :
  exists ls bitlen,
    ovlq_search_optimal_mapping (data_bitlen <$> [1; 15; 511]) 3 = Some (mapping_of ls, bitlen) /\
    bitlen = Z.of_nat (length (codes ls [1; 15; 511])) /\ increasing 0 ls /\ (length ls <= 16)%nat.
Proof.
  apply (ovlq_search_exact [1; 15; 511]); [done | simpl; lia |].
  repeat constructor; unfold is_i32; lia.
Defined.

(** The mapping is not always the best one: for 1, 15 and 511 the search settles on the
    lengths 5 and 10 for 23 bits, and the lengths 2, 5 and 10 would take 22. *)
Theorem ovlq_search_suboptimal :
  let input := [1; 15; 511] in
  ovlq_search_optimal_mapping (data_bitlen <$> input) 3 = Some (mapping_of [5; 10], 23) /\
  length (codes [2; 5; 10] input) = 22%nat.
Proof. vm_compute. done. Qed.

(** When a 32-bit length is in use the decoder depends on [__builtin_ctz(0)]: with the
    value 32 of the [tzcnt] instruction the last integer is decoded, with another one it
    is not. *)
Theorem ovlq_decode_ctz_zero :
  let input := [0; 0; 0; -2147483648] in
  let run ctz0 := out ← ovlq_encode ctz0 input; ovlq_decode ctz0 out.1 out.2 in
  run 32 = Some input /\ run 5 <> Some input.
Proof. vm_compute. done. Qed.

End Ovlq.
