(* ===== verification/Stl.v ===== *)
(** * Stl: the standard containers the integer coders use

    What the C++ standard promises of [std::priority_queue] and of the iteration of a
    [std::unordered_map], as interfaces: the coders are verified for every
    implementation that keeps the promise, and one implementation of each discharges
    it.  A [std::unordered_map] itself is a [gmap]. *)

From Stdlib Require Import ZArith Lia.
From stdpp Require Import gmap sorting.
From S2P Require Import Prelude.

(** [priority_queue] over a vector, smallest [key] on top.  Which of several elements of
    the same key comes out first is left open. *)
Class PriorityQueue {A : Type} (key : A -> Z) := {
  pq_push : A -> list A -> list A;
  pq_pop : list A -> option (A * list A);
  (** the invariant of the vector: for the standard's queue, that it is a heap *)
  pq_ok : list A -> Prop;
  pq_ok_nil : pq_ok [];
  pq_push_ok x q : pq_ok q -> pq_ok (pq_push x q);
  pq_push_perm x q : pq_push x q ≡ₚ x :: q;
  pq_pop_nil : pq_pop [] = None;
  pq_pop_some q : q <> [] -> exists x q', pq_pop q = Some (x, q');
  pq_pop_ok q x q' : pq_ok q -> pq_pop q = Some (x, q') -> pq_ok q';
  pq_pop_min q x q' : pq_ok q -> pq_pop q = Some (x, q') ->
    q ≡ₚ x :: q' /\ Forall (fun y => key x <= key y) q
}.
Arguments pq_push {A} key {_}.
Arguments pq_pop {A} key {_}.
Arguments pq_ok {A} key {_}.

(** The order in which a range-based [for] visits an [unordered_map]. *)
Class MapOrder := {
  map_order : gmap Z Z -> list (Z * Z);
  map_order_perm m : map_order m ≡ₚ map_to_list m
}.

(** ** Implementations *)

(** A queue kept sorted. *)
Fixpoint insert_sorted {A} (key : A -> Z) (x : A) (q : list A) : list A :=
  match q with
  | [] => [x]
  | y :: q' => if key x <=? key y then x :: q else y :: insert_sorted key x q'
  end.

(** Takes out the first element of least key. *)
Fixpoint take_min {A} (key : A -> Z) (x : A) (q : list A) : A * list A :=
  match q with
  | [] => (x, [])
  | y :: q =>
      if key x <=? key y then let r := take_min key x q in (r.1, y :: r.2)
      else let r := take_min key y q in (r.1, x :: r.2)
  end.

Section sorted_queue.

Context {A : Type} (key : A -> Z).

Lemma insert_sorted_perm x q : insert_sorted key x q ≡ₚ x :: q.
Proof.
  induction q as [| y q IH]; simpl; [done |]. destruct (key x <=? key y); [done |].
  rewrite IH. constructor.
Qed.

Lemma take_min_spec q : forall x,
  x :: q ≡ₚ (take_min key x q).1 :: (take_min key x q).2 /\
  Forall (fun y => key (take_min key x q).1 <= key y) (x :: q).
Proof.
  induction q as [| y q IH]; intros x; simpl; [by repeat constructor |].
  destruct (Z.leb_spec (key x) (key y)).
  - destruct (IH x) as [P F]. apply Forall_cons_iff in F as [F1 F2]. simpl. split.
    + rewrite Permutation_swap, P. constructor.
    + repeat constructor; [done | lia | done].
  - destruct (IH y) as [P F]. apply Forall_cons_iff in F as [F1 F2]. simpl. split.
    + rewrite P. constructor.
    + repeat constructor; [lia | done | done].
Qed.

#[export] Program Instance sorted_queue : PriorityQueue key := {
  pq_push := insert_sorted key;
  pq_pop q := match q with [] => None | x :: q => Some (take_min key x q) end;
  pq_ok _ := True
}.
Next Obligation. done. Qed.
Next Obligation. done. Qed.
Next Obligation. apply insert_sorted_perm. Qed.
Next Obligation. done. Qed.
Next Obligation. intros [| x q]; [done |]. intros _. by eexists _, _; rewrite <- surjective_pairing. Qed.
Next Obligation. done. Qed.
Next Obligation.
  intros [| y q] x q' _; [done |]. intros [= E]. pose proof (take_min_spec q y) as H.
  rewrite E in H. exact H.
Qed.

End sorted_queue.

#[export] Program Instance list_order : MapOrder := { map_order := map_to_list }.
Next Obligation. done. Qed.

(** ** Laws used by the coders *)

Section laws.

Context `{PriorityQueue A key}.

Lemma pq_pop_length q x q' : pq_ok key q -> pq_pop key q = Some (x, q') -> length q = S (length q').
Proof. intros Hq E. destruct (pq_pop_min q x q' Hq E) as [P _]. by rewrite P. Qed.

(** Pushing a list. *)
Lemma pq_push_all {B} (f : B -> A) l : forall q, pq_ok key q ->
  pq_ok key (fold_left (fun q x => pq_push key (f x) q) l q) /\
  fold_left (fun q x => pq_push key (f x) q) l q ≡ₚ (f <$> l) ++ q.
Proof.
  induction l as [| x l IH]; intros q Hq; [done |]. cbn [fold_left]. rewrite fmap_cons.
  destruct (IH (pq_push key (f x) q)) as [H1 H2]; [by apply pq_push_ok |]. split; [done |].
  rewrite H2, pq_push_perm. cbn [app]. by rewrite Permutation_middle.
Qed.

(** Popping everything gives the elements in the order of their keys. *)
Fixpoint pq_drain (n : nat) (q : list A) : list A :=
  match n with
  | O => []
  | S n => match pq_pop key q with
           | Some (x, q) => x :: pq_drain n q
           | None => []
           end
  end.

Lemma pq_drain_perm n : forall q, pq_ok key q -> length q = n -> pq_drain n q ≡ₚ q.
Proof.
  induction n as [| n IH]; intros q Hq Hn; [by destruct q |]. simpl.
  destruct (pq_pop_some q) as (x & q' & E); [by destruct q |]. rewrite E.
  pose proof (pq_pop_length q x q' Hq E). destruct (pq_pop_min q x q' Hq E) as [P _].
  rewrite IH by (lia || by eapply pq_pop_ok). by rewrite P.
Qed.

Lemma pq_drain_sorted n : forall q, pq_ok key q ->
  length q = n -> StronglySorted (fun a b => key a <= key b) (pq_drain n q).
Proof.
  induction n as [| n IH]; intros q Hq Hn; [constructor |]. simpl.
  destruct (pq_pop_some q) as (x & q' & E); [by destruct q |]. rewrite E.
  pose proof (pq_pop_length q x q' Hq E). destruct (pq_pop_min q x q' Hq E) as [P F].
  assert (pq_ok key q') by (by eapply pq_pop_ok).
  constructor; [apply IH; done || lia |]. rewrite P in F. apply Forall_cons_iff in F as [_ F].
  by rewrite pq_drain_perm by (done || lia).
Qed.

End laws.
