(* ===== verification/Huffman.v ===== *)
(** * Huffman: the Huffman coders of Machete

    Models [machete/huffman.cpp]: the tree, the plain and the canonical codebook, their
    storage, the code, and the two decoders.

    A codebook is a list of [(value, length)] in code order: the codes are consecutive
    intervals, as in a decode table.  Integers are 32-bit; the size of the input keeps the
    code lengths below 31 (see [tree_depth]). *)

From Stdlib Require Import ZArith Lia.
From stdpp Require Import gmap sorting.
From S2P Require Import Prelude Bits Bytes BitStream Stl.

Module Huffman.

(** [struct HufTree]; the level is known where the tree is traversed. *)
Inductive HufTree :=
| Leaf (val cnt : Z)
| Node (cnt : Z) (left right : HufTree).

Definition cnt (t : HufTree) : Z := match t with Leaf _ c => c | Node c _ _ => c end.

(** A leaf met by the traversals, with its level. *)
Record leaf := { l_val : Z; l_cnt : Z; l_lvl : Z }.

(** [CodebookEntry] is the code and its length. *)
Notation CodebookEntry := (Z * Z)%type.
Notation EncodeCodebook := (gmap Z (Z * Z)).

(** [codebook[x]]: the operator inserts a zero entry when there is none. *)
Definition book_get (book : EncodeCodebook) (x : Z) : CodebookEntry := default (0, 0) (book !! x).

(** [freq[x]++] over the input. *)
Definition count_freq (input : list Z) : gmap Z Z :=
  fold_left (fun freq x => <[x := default 0 (freq !! x) + 1]> freq) input ∅.

Section coders.

Context `{Qcnt : !PriorityQueue cnt} `{Qlvl : !PriorityQueue l_lvl} `{Order : !MapOrder}.

(** ** The tree *)

(** [while (queue.size() > 1)]; every round makes the queue shorter by one. *)
Fixpoint merge_loop (n : nat) (queue : list HufTree) : option HufTree :=
  match n with
  | O => None
  | S n =>
      p ← pq_pop cnt queue;
      match pq_pop cnt p.2 with
      | None => Some p.1
      | Some (n2, queue) =>
          merge_loop n (pq_push cnt (Node (cnt p.1 + cnt n2) p.1 n2) queue)
      end
  end.

Definition huffman_build_tree (freq : gmap Z Z) : option HufTree :=
  let queue := fold_left (fun q ent => pq_push cnt (Leaf ent.1 ent.2) q) (map_order freq) [] in
  merge_loop (S (length queue)) queue.

(** The traversal with an explicit stack: the leaves, from left to right. *)
Fixpoint visit (n : nat) (stack : list (HufTree * Z)) : list leaf :=
  match n with
  | O => []
  | S n =>
      match stack with
      | [] => []
      | (Leaf v c, lvl) :: stack =>
          {| l_val := v; l_cnt := c; l_lvl := lvl |} :: visit n stack
      | (Node _ l r, lvl) :: stack => visit n ((l, lvl + 1) :: (r, lvl + 1) :: stack)
      end
  end.

Fixpoint nodes (t : HufTree) : nat :=
  match t with
  | Leaf _ _ => 1
  | Node _ l r => S (nodes l + nodes r)
  end.

(** ** The codebooks *)

(** The state of the loops that give out the codes. *)
Record assign := {
  a_code : Z;
  a_bitlen : Z;
  a_book : EncodeCodebook;
  a_vals : list Z;
  a_total : Z
}.

Definition assign_init : assign :=
  {| a_code := 0; a_bitlen := 0; a_book := ∅; a_vals := []; a_total := 0 |}.

(** One leaf of [huffman_build_encode_codebook]; the shifts are of 32-bit integers. *)
Definition assign_leaf (s : assign) (n : leaf) : assign :=
  let code := if l_lvl n <? a_bitlen s then Z.shiftr (a_code s) (a_bitlen s - l_lvl n)
              else i32 (Z.shiftl (a_code s) (l_lvl n - a_bitlen s)) in
  {| a_code := i32 (code + 1); a_bitlen := l_lvl n;
     a_book := <[l_val n := (code, l_lvl n)]> (a_book s); a_vals := a_vals s ++ [l_val n];
     a_total := a_total s + l_lvl n * l_cnt n |}.

Definition huffman_build_encode_codebook (root : HufTree) : assign :=
  fold_left assign_leaf (visit (nodes root) [(root, 0)]) assign_init.

(** One leaf of the canonical loop: the levels do not decrease. *)
Definition assign_leaf_canonical (s : assign) (n : leaf) : assign :=
  let code := i32 (Z.shiftl (a_code s) (l_lvl n - a_bitlen s)) in
  {| a_code := i32 (code + 1); a_bitlen := l_lvl n;
     a_book := <[l_val n := (code, l_lvl n)]> (a_book s); a_vals := a_vals s ++ [l_val n];
     a_total := a_total s + l_lvl n * l_cnt n |}.

Definition huffman_build_canonical_encode_codebook (root : HufTree) : assign :=
  let queue := fold_left (fun q n => pq_push l_lvl n q) (visit (nodes root) [(root, 0)]) [] in
  fold_left assign_leaf_canonical (pq_drain (key := l_lvl) (length queue) queue) assign_init.

(** ** Storage *)

(** The bytes of the values, then a 16-bit length each. *)
Definition huffman_store_codebook (book : EncodeCodebook) (vals : list Z) : list Z :=
  store_array 4 (u32 <$> vals) ++ store_array 2 (u16 ∘ snd ∘ book_get book <$> vals).

(** The counts of every length, from the shortest on: [acc] is the count of the lengths
    done, [bl] the current one and [c] its count.  The loop only ends when the lengths
    never decrease; [n] bounds its steps. *)
Fixpoint store_counts (n : nat) (bitlens : list Z) (bl c : Z) (acc : list Z) : option (list Z) :=
  match n with
  | O => None
  | S n =>
      match bitlens with
      | [] => Some (acc ++ [c])
      | b :: rest =>
          if b =? bl then store_counts n rest bl (u16 (c + 1)) acc
          else store_counts n bitlens (bl + 1) 0 (acc ++ [c])
      end
  end.

(** [bitlens[0]], [bitlens[1]] and the counts.  The loop starts below the shortest length,
    on an entry that the first step leaves. *)
Definition canonical_lengths (book : EncodeCodebook) (vals : list Z) : option (list Z) :=
  let lens := snd ∘ book_get book <$> vals in
  first ← head lens;
  last ← list.last lens;
  counts ← store_counts (length lens + Z.to_nat last + 2) lens (u16 first - 1) 0 [];
  Some (u16 first :: u16 last :: tail counts).

Definition huffman_store_canonical_codebook (book : EncodeCodebook) (vals : list Z)
    : option (list Z) :=
  lens ← canonical_lengths book vals;
  Some (store_array 4 (u32 <$> vals) ++ store_array 2 lens).

Fixpoint write_codes (w : BitWriter) (book : EncodeCodebook) (input : list Z)
    : option BitWriter :=
  match input with
  | [] => Some w
  | x :: input =>
      w ← write w (book_get book x).1 (book_get book x).2;
      write_codes w book input
  end.

(** The bytes of the code; with a single value there is none. *)
Definition huffman_store_code (book : EncodeCodebook) (input : list Z) (osize : Z)
    : option (list Z) :=
  if 1 <? Z.of_nat (size book) then
    w ← initBitWriter (osize / 4);
    w ← write_codes w book input;
    wr ← flush w;
    Some (store_array 4 (bw_output wr.1))
  else Some [].

Definition header (data_len val_cnt code_size : Z) : list Z :=
  le_bytes 4 data_len ++ le_bytes 4 val_cnt ++ le_bytes 4 code_size.

(** The bytes stored, and the size returned. *)
Definition huffman_encode (input : list Z) : option (list Z * Z) :=
  let freq := count_freq input in
  root ← huffman_build_tree freq;
  let a := huffman_build_encode_codebook root in
  let n := Z.of_nat (size freq) in
  let codebook_size := n * (4 + 2) in
  let code_size := (a_total a + 31) / 32 * 4 in
  let osize := 12 + codebook_size + code_size in
  code ← huffman_store_code (a_book a) input code_size;
  Some (header (Z.of_nat (length input)) n code_size
          ++ huffman_store_codebook (a_book a) (a_vals a) ++ code, osize).

Definition huffman_encode_canonical (input : list Z) : option (list Z * Z) :=
  let freq := count_freq input in
  root ← huffman_build_tree freq;
  let a := huffman_build_canonical_encode_codebook root in
  let n := Z.of_nat (size freq) in
  v0 ← head (a_vals a);
  v1 ← list.last (a_vals a);
  let codebook_size :=
    n * 4 + ((book_get (a_book a) v1).2 - (book_get (a_book a) v0).2 + 3) * 2 in
  let code_size := (a_total a + 31) / 32 * 4 in
  let osize := 12 + codebook_size + code_size in
  code ← huffman_store_code (a_book a) input code_size;
  book ← huffman_store_canonical_codebook (a_book a) (a_vals a);
  Some (header (Z.of_nat (length input)) n code_size ++ book ++ code, osize).

End coders.

(** ** Decoding *)

(** The table has [1 << max_bitlen] entries: a value of a length above the maximum, or one
    entry too many, is out of bounds. *)
Fixpoint fill (max_bitlen : Z) (book : list (Z * Z)) : option (list (Z * Z)) :=
  match book with
  | [] => Some []
  | (v, bl) :: book =>
      _ ← assert ((0 <=? max_bitlen - bl) && (max_bitlen - bl <? 64));
      rest ← fill max_bitlen book;
      Some (replicate (Z.to_nat (2 ^ (max_bitlen - bl))) (v, bl) ++ rest)
  end.

Definition fill_table (max_bitlen : Z) (book : list (Z * Z)) : option (list (Z * Z)) :=
  _ ← assert ((0 <=? max_bitlen) && (max_bitlen <? 31));
  t ← fill max_bitlen book;
  _ ← assert (Z.of_nat (length t) <=? 2 ^ max_bitlen);
  Some t.

Definition huffman_build_decode_codebook (vals bitlens : list Z) : option (list (Z * Z) * Z) :=
  let max_bitlen := fold_left (fun m b => if b <? m then m else b) bitlens 0 in
  t ← fill_table max_bitlen (zip vals bitlens);
  Some (t, max_bitlen).

(** [while (bitlens[bitlen_cnt] == 0)], from index [k]; the result is the index and the
    length there. *)
Fixpoint skip_zeros (bitlens : list Z) (k : nat) (bitlen : Z) : option (nat * Z) :=
  match bitlens with
  | [] => None
  | c :: rest => if c =? 0 then skip_zeros rest (S k) (bitlen + 1) else Some (k, bitlen)
  end.

(** The loop of the canonical decoder over the values.  It counts the lengths down in
    place: the array left is part of the result. *)
Fixpoint canonical_loop (vals bitlens : list Z) (k : nat) (bitlen : Z)
    : option (list (Z * Z) * list Z) :=
  match vals with
  | [] => Some ([], bitlens)
  | v :: vals =>
      kb ← skip_zeros (drop k bitlens) k bitlen;
      c ← bitlens !! kb.1;
      r ← canonical_loop vals (<[kb.1 := i16 (c - 1)]> bitlens) kb.1 kb.2;
      Some ((v, kb.2) :: r.1, r.2)
  end.

Definition huffman_build_decode_codebook_canonical (vals bitlens : list Z)
    : option (list (Z * Z) * Z * list Z) :=
  max_bitlen ← bitlens !! 1%nat;
  bitlen ← bitlens !! 0%nat;
  r ← canonical_loop vals bitlens 2 bitlen;
  t ← fill_table max_bitlen r.1;
  Some (t, max_bitlen, r.2).

Fixpoint decode_loop (n : nat) (r : BitReader) (table : list (Z * Z)) (index_bitlen : Z)
    : option (list Z) :=
  match n with
  | O => Some []
  | S n =>
      code ← peek r index_bitlen;
      e ← table !! Z.to_nat code;
      r ← forward r e.2;
      l ← decode_loop n r table index_bitlen;
      Some (e.1 :: l)
  end.

(** [input] is the memory from the code on. *)
Definition huffman_decode_data (input : list Z) (code_size : Z) (table : list (Z * Z))
    (index_bitlen olen : Z) : option (list Z) :=
  if negb (index_bitlen =? 0) then
    words ← load_n 4 input 0 (code_size / 4);
    r ← initBitReader words (code_size / 4);
    decode_loop (Z.to_nat olen) r table index_bitlen
  else
    e ← table !! 0%nat;
    Some (replicate (Z.to_nat olen) e.1).

Definition huffman_decode (input : list Z) (len : Z) : option (list Z) :=
  data_len ← load 4 input 0;
  val_cnt ← load 4 input 4;
  code_size ← load 4 input 8;
  vals ← load_n 4 input 12 val_cnt;
  bitlens ← load_n 2 input (12 + 4 * val_cnt) val_cnt;
  ti ← huffman_build_decode_codebook (i32 <$> vals) (i16 <$> bitlens);
  huffman_decode_data (drop (Z.to_nat (12 + val_cnt * (4 + 2))) input) code_size ti.1 ti.2 data_len.

(** The canonical decoder: the output, and the memory it leaves.  The array of lengths is
    followed by the code, which it is free to run into: all the 16-bit integers up to the
    end are loaded, and stored back. *)
Definition huffman_decode_canonical (input : list Z) (len : Z) : option (list Z * list Z) :=
  data_len ← load 4 input 0;
  val_cnt ← load 4 input 4;
  code_size ← load 4 input 8;
  vals ← load_n 4 input 12 val_cnt;
  let off := 12 + 4 * val_cnt in
  let rest := (Z.of_nat (length input) - off) / 2 in
  bitlens ← load_n 2 input off rest;
  tb ← huffman_build_decode_codebook_canonical (i32 <$> vals) (i16 <$> bitlens);
  let memory := take (Z.to_nat off) input ++ store_array 2 (u16 <$> tb.2) in
  b1 ← tb.2 !! 1%nat;
  b0 ← tb.2 !! 0%nat;
  let codebook_size := val_cnt * 4 + (b1 - b0 + 3) * 2 in
  out ← huffman_decode_data (drop (Z.to_nat (12 + codebook_size)) memory) code_size
          tb.1.1 tb.1.2 data_len;
  Some (out, memory).

(** ** Frequencies *)

Lemma count_freq_snoc input x :
  count_freq (input ++ [x])
  = <[x := default 0 (count_freq input !! x) + 1]> (count_freq input).
Proof. unfold count_freq. by rewrite fold_left_app. Qed.

Lemma count_freq_spec input :
  (forall x, x ∈ input <-> is_Some (count_freq input !! x)) /\
  map_Forall (fun _ c => 1 <= c) (count_freq input).
Proof.
  induction input as [| y input [IH1 IH2]] using rev_ind.
  { split; [| by apply map_Forall_empty]. intros x. unfold count_freq. simpl.
    rewrite lookup_empty, elem_of_nil. split; [done | by intros []]. }
  rewrite count_freq_snoc. split.
  - intros x. rewrite elem_of_app, list_elem_of_singleton, IH1, lookup_insert_is_Some.
    destruct (decide (y = x)); naive_solver.
  - apply map_Forall_insert_2; [| done]. destruct (count_freq input !! y) as [c |] eqn:E; simpl; [| lia].
    apply IH2 in E. lia.
Qed.

(** The sum of [c * f v] over the entries [(v, c)] of a list. *)
Definition weigh (f : Z -> Z) (l : list (Z * Z)) : Z := foldr (fun e t => e.2 * f e.1 + t) 0 l.

#[export] Instance weigh_perm f : Proper ((≡ₚ) ==> eq) (weigh f).
Proof. intros l l' P. unfold weigh. induction P; simpl; lia. Qed.

Lemma weigh_count_freq f input :
  weigh f (map_to_list (count_freq input)) = foldr (fun x t => f x + t) 0 input.
Proof.
  induction input as [| x input IH] using rev_ind.
  { unfold count_freq. simpl. by rewrite map_to_list_empty. }
  rewrite count_freq_snoc. set (m := count_freq input) in *.
  assert (foldr (fun x t => f x + t) 0 (input ++ [x]) = f x + foldr (fun x t => f x + t) 0 input) as ->.
  { clear. induction input; simpl in *; lia. }
  rewrite <- IH. destruct (m !! x) as [c |] eqn:E; simpl.
  - rewrite <- (insert_delete_id m x c) at 2 by done.
    rewrite <- insert_delete_eq, !map_to_list_insert by apply lookup_delete_eq. simpl. lia.
  - rewrite map_to_list_insert by done. simpl. lia.
Qed.

(** ** The tree *)

Fixpoint tree_leaves (t : HufTree) : list (Z * Z) :=
  match t with
  | Leaf v c => [(v, c)]
  | Node _ l r => tree_leaves l ++ tree_leaves r
  end.

Fixpoint depth (t : HufTree) : nat :=
  match t with
  | Leaf _ _ => 0
  | Node _ l r => S (Nat.max (depth l) (depth r))
  end.

(** The greatest count among the children of the root. *)
Definition childmax (t : HufTree) : Z :=
  match t with
  | Leaf _ _ => 0
  | Node _ l r => Z.max (cnt l) (cnt r)
  end.

(** Counts add up, and no child weighs more than the sibling of its parent. *)
Fixpoint balanced (t : HufTree) : Prop :=
  match t with
  | Leaf _ c => 1 <= c
  | Node c l r => c = cnt l + cnt r /\ balanced l /\ balanced r /\
                  childmax l <= cnt r /\ childmax r <= cnt l
  end.

Fixpoint fib (n : nat) : Z :=
  match n with
  | O => 0
  | S n' => match n' with O => 1 | S m => fib n' + fib m end
  end.

Lemma fib_S n : fib (S (S n)) = fib (S n) + fib n.
Proof. done. Qed.

Lemma fib_nonneg n : 0 <= fib n /\ 0 <= fib (S n).
Proof. induction n as [| n [IH1 IH2]]; [simpl; lia |]. rewrite fib_S. lia. Qed.

Lemma fib_mono n m : (n <= m)%nat -> fib n <= fib m.
Proof.
  induction 1 as [| m H IH]; [lia |]. destruct m as [| m]; [inversion H; simpl; lia |].
  rewrite fib_S. pose proof (fib_nonneg m). lia.
Qed.

Lemma balanced_cnt t : balanced t -> 1 <= cnt t /\ weigh (fun _ => 1) (tree_leaves t) = cnt t.
Proof.
  induction t as [v c | c l IHl r IHr]; simpl; [lia |].
  intros (-> & Hl & Hr & _). destruct (IHl Hl), (IHr Hr). split; [lia |].
  assert (forall a b, weigh (fun _ => 1) (a ++ b) = weigh (fun _ => 1) a + weigh (fun _ => 1) b) as ->.
  { intros a b. unfold weigh. induction a; simpl; lia. }
  lia.
Qed.

(** A deep tree is heavy. *)
Lemma balanced_fib t :
  balanced t ->
  fib (depth t + 2) <= cnt t /\ (depth t <> 0%nat -> fib (depth t + 1) <= childmax t).
Proof.
  induction t as [v c | c l IHl r IHr]; [simpl; lia |].
  intros (-> & Hl & Hr & Hcl & Hcr). specialize (IHl Hl) as [Fl Gl]. specialize (IHr Hr) as [Fr Gr].
  destruct (balanced_cnt l Hl) as [Hl1 _]. destruct (balanced_cnt r Hr) as [Hr1 _].
  cbn [depth cnt childmax].
  assert (forall n, fib (S n + 2) = fib (n + 2) + fib (n + 1)) as FS.
  { intros n. replace (S n + 2)%nat with (S (S (n + 1))) by lia. rewrite fib_S. do 2 f_equal. lia. }
  destruct (Nat.le_ge_cases (depth l) (depth r)) as [H | H];
    [rewrite Nat.max_r by done | rewrite Nat.max_l by done]; rewrite FS.
  - replace (S (depth r) + 1)%nat with (depth r + 2)%nat by lia. split; [| lia].
    destruct (decide (depth r = 0%nat)) as [E | E]; [rewrite E in *; simpl in *; lia |].
    specialize (Gr E). lia.
  - replace (S (depth l) + 1)%nat with (depth l + 2)%nat by lia. split; [| lia].
    destruct (decide (depth l = 0%nat)) as [E | E]; [rewrite E in *; simpl in *; lia |].
    specialize (Gl E). lia.
Qed.

(** The codes of a tree over at most 2^21 values have at most 30 bits. *)
Lemma tree_depth t : balanced t -> cnt t <= 2 ^ 21 -> (depth t <= 30)%nat.
Proof.
  intros Hb Hc. destruct (balanced_fib t Hb) as [F _].
  destruct (decide (depth t <= 30)%nat) as [| H]; [done |].
  pose proof (fib_mono 33 (depth t + 2) ltac:(lia)) as M.
  assert (fib 33 = 3524578) as E by (vm_compute; reflexivity). lia.
Qed.

Section tree.

Context `{Qcnt : !PriorityQueue cnt} `{Qlvl : !PriorityQueue l_lvl} `{Order : !MapOrder}.

Definition forest_ok (q : list HufTree) : Prop :=
  Forall balanced q /\ forall x y, x ∈ q -> y ∈ q -> childmax x <= cnt y.

#[export] Instance forest_ok_proper : Proper ((≡ₚ) ==> iff) forest_ok.
Proof.
  assert (forall q q', q ≡ₚ q' -> forest_ok q -> forest_ok q') as H.
  { intros q q' P [H1 H2]. split; [by rewrite <- P |]. intros x y. rewrite <- !P. apply H2. }
  intros q q' P. split; by apply H.
Qed.

Lemma forest_merge n1 n2 q :
  forest_ok (n1 :: n2 :: q) ->
  Forall (fun y => cnt n1 <= cnt y) (n1 :: n2 :: q) -> Forall (fun y => cnt n2 <= cnt y) (n2 :: q) ->
  forest_ok (Node (cnt n1 + cnt n2) n1 n2 :: q).
Proof.
  intros [Hb Hc] H1 H2. apply Forall_cons_iff in Hb as [B1 Hb]. apply Forall_cons_iff in Hb as [B2 Hb].
  apply Forall_cons_iff in H2 as [_ H2]. apply Forall_cons_iff in H1 as [_ H1]. apply Forall_cons_iff in H1 as [H12 H1].
  destruct (balanced_cnt n1 B1). destruct (balanced_cnt n2 B2).
  rewrite list.Forall_forall in H2. split.
  - constructor; [| done]. simpl. split_and!; try done; apply Hc; set_solver.
  - intros x y [-> | Hx]%elem_of_cons [-> | Hy]%elem_of_cons; simpl.
    + lia.
    + specialize (H2 y Hy). simpl in *. lia.
    + assert (childmax x <= cnt n1) by (apply Hc; set_solver). lia.
    + apply Hc; set_solver.
Qed.

(** The loop ends with one tree over all the leaves. *)
Lemma merge_loop_spec n : forall q,
  pq_ok cnt q -> (length q < n)%nat -> q <> [] -> forest_ok q ->
  exists t, merge_loop n q = Some t /\ balanced t /\ tree_leaves t ≡ₚ q ≫= tree_leaves.
Proof.
  induction n as [| n IH]; intros q Hq Hn Hne Hok; [lia |]. cbn [merge_loop].
  destruct (pq_pop_some q Hne) as (n1 & q1 & E1). rewrite E1. cbn [mbind option_bind snd fst].
  destruct (pq_pop_min q n1 q1 Hq E1) as [P1 F1]. rewrite P1 in Hok, F1.
  pose proof (pq_pop_length q n1 q1 Hq E1). pose proof (pq_pop_ok q n1 q1 Hq E1) as Hq1.
  destruct q1 as [| a q1].
  - rewrite pq_pop_nil. exists n1. destruct Hok as [Hb _]. apply Forall_cons_iff in Hb as [Hb _].
    split_and!; try done. rewrite P1. simpl. by rewrite app_nil_r.
  - destruct (pq_pop_some (a :: q1)) as (n2 & q2 & E2); [done |]. rewrite E2.
    destruct (pq_pop_min _ n2 q2 Hq1 E2) as [P2 F2]. rewrite P2 in Hok, F1, F2.
    pose proof (pq_pop_length _ n2 q2 Hq1 E2).
    destruct (IH (pq_push cnt (Node (cnt n1 + cnt n2) n1 n2) q2)) as (t & -> & Hb & Hl).
    { by apply pq_push_ok, (pq_pop_ok _ n2 q2 Hq1). }
    { rewrite pq_push_perm. simpl in *. lia. }
    { intros E. pose proof (pq_push_perm (Node (cnt n1 + cnt n2) n1 n2) q2) as P.
      rewrite E in P. by apply Permutation_nil_cons in P. }
    { rewrite pq_push_perm. by apply forest_merge. }
    exists t. split_and!; try done. rewrite Hl, pq_push_perm, P1, P2. simpl.
    by rewrite <- app_assoc.
Qed.

(** The tree of an input: every distinct value is a leaf with its number of
    occurrences. *)
Lemma build_tree_spec input :
  input <> [] ->
  exists t, huffman_build_tree (count_freq input) = Some t /\ balanced t /\
    tree_leaves t ≡ₚ map_to_list (count_freq input) /\ cnt t = Z.of_nat (length input).
Proof.
  intros Hne. unfold huffman_build_tree. destruct (count_freq_spec input) as [Hin Hpos].
  set (m := count_freq input) in *. set (q := fold_left _ _ _).
  destruct (pq_push_all (fun ent : Z * Z => Leaf ent.1 ent.2) (map_order m) [] pq_ok_nil) as [Hqok Hq].
  fold q in Hqok, Hq. rewrite app_nil_r, map_order_perm in Hq.
  destruct (merge_loop_spec (S (length q)) q) as (t & -> & Hb & Hl).
  - done.
  - lia.
  - intros E. rewrite E in Hq. destruct input as [| x input]; [done |].
    destruct (proj1 (Hin x) ltac:(set_solver)) as [c Hc].
    apply Permutation_nil_l in Hq. symmetry in Hq. apply fmap_nil_inv, map_to_list_empty_iff in Hq.
    by rewrite Hq, lookup_empty in Hc.
  - rewrite Hq. split.
    + apply Forall_fmap, list.Forall_forall. intros [v c] Hvc%elem_of_map_to_list. by apply Hpos in Hvc.
    + intros x y Hx Hy. apply list_elem_of_fmap in Hx as ([v c] & -> & _).
      apply list_elem_of_fmap in Hy as ([v' c'] & -> & Hy%elem_of_map_to_list). simpl.
      apply Hpos in Hy. lia.
  - exists t. assert (tree_leaves t ≡ₚ map_to_list m) as Ht.
    { rewrite Hl, Hq. clear. induction (map_to_list m) as [| [v c] l IH]; [done |]. simpl. by rewrite IH. }
    split_and!; try done. destruct (balanced_cnt t Hb) as [_ <-]. rewrite Ht.
    unfold m. rewrite weigh_count_freq. clear. induction input; simpl length; [done |]. cbn [foldr]. lia.
Qed.

End tree.

(** ** Traversal *)

(** The leaves of a subtree at level [lvl], from left to right. *)
Fixpoint leaves (lvl : Z) (t : HufTree) : list leaf :=
  match t with
  | Leaf v c => [{| l_val := v; l_cnt := c; l_lvl := lvl |}]
  | Node _ l r => leaves (lvl + 1) l ++ leaves (lvl + 1) r
  end.

Lemma visit_leaves n : forall stack,
  (foldr (fun e k => nodes e.1 + k) 0 stack <= n)%nat ->
  visit n stack = stack ≫= (fun e => leaves e.2 e.1).
Proof.
  induction n as [| n IH]; intros [| [t lvl] stack] Hn; try done.
  { destruct t; simpl in Hn; lia. }
  destruct t as [v c | c l r]; simpl in *.
  - by rewrite IH by lia.
  - rewrite IH by (simpl; lia). simpl. by rewrite <- app_assoc.
Qed.

Lemma visit_root t : visit (nodes t) [(t, 0)] = leaves 0 t.
Proof. rewrite visit_leaves by (simpl; lia). simpl. apply app_nil_r. Qed.

Lemma leaves_tree lvl t : (fun n => (l_val n, l_cnt n)) <$> leaves lvl t = tree_leaves t.
Proof.
  revert lvl. induction t as [| c l IHl r IHr]; intros lvl; [done |]. simpl.
  by rewrite fmap_app, IHl, IHr.
Qed.

Lemma leaves_lvl lvl t :
  Forall (fun n => lvl <= l_lvl n <= lvl + Z.of_nat (depth t)) (leaves lvl t).
Proof.
  revert lvl. induction t as [v c | c l IHl r IHr]; intros lvl; simpl.
  { repeat constructor; simpl; lia. }
  apply Forall_app. split; [eapply Forall_impl; [| exact (IHl (lvl + 1))] |
    eapply Forall_impl; [| exact (IHr (lvl + 1))]]; simpl; lia.
Qed.

(** ** Codes as intervals

    In a table of [2 ^ D] entries a code of [l] bits is an interval of [2 ^ (D - l)]
    entries.  [aligned D S ls]: leaves of these levels, put one after the other from [S] on,
    all start at a multiple of their width. *)

Fixpoint aligned (D S : Z) (ls : list Z) : Prop :=
  match ls with
  | [] => True
  | l :: ls => 0 <= l <= D /\ (2 ^ (D - l) | S) /\ aligned D (S + 2 ^ (D - l)) ls
  end.

Definition span (D : Z) (ls : list Z) : Z := foldr (fun l t => 2 ^ (D - l) + t) 0 ls.

#[export] Instance span_perm D : Proper ((≡ₚ) ==> eq) (span D).
Proof. intros l l' P. unfold span. induction P; simpl; lia. Qed.

Lemma span_app D a b : span D (a ++ b) = span D a + span D b.
Proof. unfold span. induction a; simpl; lia. Qed.

Lemma span_nonneg D ls : 0 <= span D ls.
Proof. unfold span. induction ls as [| l ls IH]; simpl; [lia |]. pose proof (Z.pow_nonneg 2 (D - l)). lia. Qed.

Lemma aligned_app D a b : forall S, aligned D S (a ++ b) <-> aligned D S a /\ aligned D (S + span D a) b.
Proof.
  induction a as [| l a IH]; intros S; simpl; [by rewrite Z.add_0_r; tauto |].
  rewrite IH. replace (S + 2 ^ (D - l) + span D a) with (S + (2 ^ (D - l) + span D a)) by lia.
  unfold span at 2. simpl. tauto.
Qed.

(** The leaves of a tree, from left to right. *)
Lemma leaves_aligned D t : forall lvl S,
  0 <= lvl -> lvl + Z.of_nat (depth t) <= D -> (2 ^ (D - lvl) | S) ->
  aligned D S (l_lvl <$> leaves lvl t) /\ span D (l_lvl <$> leaves lvl t) = 2 ^ (D - lvl).
Proof.
  induction t as [v c | c l IHl r IHr]; intros lvl S Hlvl HD HS; simpl in *.
  { unfold span. simpl. split_and!; try done; lia. }
  assert (2 ^ (D - lvl) = 2 ^ (D - (lvl + 1)) + 2 ^ (D - (lvl + 1))) as E.
  { replace (D - lvl) with (Z.succ (D - (lvl + 1))) by lia. rewrite Z.pow_succ_r by lia. lia. }
  assert ((2 ^ (D - (lvl + 1)) | S)) as HS'.
  { rewrite E in HS. destruct HS as [k ->]. exists (k * 2). lia. }
  destruct (IHl (lvl + 1) S) as [Al El]; try done; try lia.
  destruct (IHr (lvl + 1) (S + 2 ^ (D - (lvl + 1)))) as [Ar Er]; try lia.
  { apply Z.divide_add_r; [done | apply Z.divide_refl]. }
  rewrite fmap_app, aligned_app, span_app, El, Er. done.
Qed.

(** Leaves in the order of their levels. *)
Lemma sorted_aligned D ls : forall S,
  StronglySorted Z.le ls -> Forall (fun l => 0 <= l <= D /\ (2 ^ (D - l) | S)) ls -> aligned D S ls.
Proof.
  induction ls as [| l ls IH]; intros S Hs Hd; simpl; [done |].
  apply Forall_cons_iff in Hd as [[Hl Hd] Hds]. inversion_clear Hs as [| ? ? Hs' Hle].
  split_and!; try done; [lia.. |]. apply IH; [done |].
  rewrite list.Forall_forall in Hds, Hle. apply list.Forall_forall. intros k Hk.
  destruct (Hds k Hk) as [Hk1 Hk2]. specialize (Hle k Hk). split; [done |].
  apply Z.divide_add_r; [done |]. exists (2 ^ (k - l)). rewrite <- Z.pow_add_r by lia. f_equal. lia.
Qed.

(** The codes: interval starts in units of the interval. *)
Fixpoint codes (D S : Z) (ls : list leaf) : list (Z * (Z * Z)) :=
  match ls with
  | [] => []
  | n :: ls => (l_val n, (S / 2 ^ (D - l_lvl n), l_lvl n)) :: codes D (S + 2 ^ (D - l_lvl n)) ls
  end.

(** What the loops leave after the leaves [ls], having started at [S]. *)
Definition assigned (D S : Z) (ls : list leaf) (s s' : assign) : Prop :=
  a_code s' * 2 ^ (D - a_bitlen s') = S + span D (l_lvl <$> ls) /\
  a_book s' = fold_left (fun m e => <[e.1 := e.2]> m) (codes D S ls) (a_book s) /\
  a_vals s' = a_vals s ++ (l_val <$> ls) /\
  a_total s' = a_total s + weigh (fun x => x) ((fun n => (l_lvl n, l_cnt n)) <$> ls).

Section assigning.

Context (D : Z) (HD : 0 <= D <= 30).

Definition at_start (S : Z) (s : assign) : Prop :=
  a_code s * 2 ^ (D - a_bitlen s) = S /\ 0 <= a_bitlen s <= D.

Lemma assign_leaf_code S s n :
  at_start S s -> 0 <= S -> 0 <= l_lvl n <= D -> (2 ^ (D - l_lvl n) | S) ->
  S + 2 ^ (D - l_lvl n) <= 2 ^ D ->
  let code := S / 2 ^ (D - l_lvl n) in
  assign_leaf s n =
    {| a_code := code + 1; a_bitlen := l_lvl n;
       a_book := <[l_val n := (code, l_lvl n)]> (a_book s); a_vals := a_vals s ++ [l_val n];
       a_total := a_total s + l_lvl n * l_cnt n |} /\
  at_start (S + 2 ^ (D - l_lvl n)) (assign_leaf s n) /\
  (a_bitlen s <= l_lvl n -> assign_leaf_canonical s n = assign_leaf s n).
Proof.
  intros [Hc Hb] HS Hl [q Hq] Hle code. set (l := l_lvl n) in *.
  pose proof (Z.pow_pos_nonneg 2 (D - l) ltac:(lia) ltac:(lia)) as Hp.
  assert (code = q) as Ecode by (unfold code; rewrite Hq; apply Z.div_mul; lia).
  assert (0 <= code + 1 <= 2 ^ 30) as Hr.
  { assert ((q + 1) * 2 ^ (D - l) <= 2 ^ l * 2 ^ (D - l)) as H.
    { rewrite <- Z.pow_add_r by lia. replace (l + (D - l)) with D by lia. lia. }
    pose proof (Z.pow_le_mono_r 2 l 30). rewrite Ecode. nia. }
  assert (a_bitlen s <= l -> Z.shiftl (a_code s) (l - a_bitlen s) = code) as Hup.
  { intros Hge. rewrite Z.shiftl_mul_pow2 by lia. rewrite Ecode.
    assert (2 ^ (D - a_bitlen s) = 2 ^ (l - a_bitlen s) * 2 ^ (D - l)) as E
      by (rewrite <- Z.pow_add_r by lia; f_equal; lia).
    rewrite E in Hc. nia. }
  assert (i32 code = code /\ i32 (code + 1) = code + 1) as [I1 I2].
  { split; apply i32_id; unfold is_i32; lia. }
  assert (assign_leaf s n =
    {| a_code := code + 1; a_bitlen := l; a_book := <[l_val n := (code, l)]> (a_book s);
       a_vals := a_vals s ++ [l_val n]; a_total := a_total s + l * l_cnt n |}) as Ea.
  { unfold assign_leaf. fold l. destruct (Z.ltb_spec l (a_bitlen s)) as [Hlt | Hge].
    - assert (Z.shiftr (a_code s) (a_bitlen s - l) = code) as ->; [| by rewrite I2].
      rewrite Z.shiftr_div_pow2 by lia. unfold code. rewrite <- Hc.
      assert (2 ^ (D - l) = 2 ^ (a_bitlen s - l) * 2 ^ (D - a_bitlen s)) as ->
        by (rewrite <- Z.pow_add_r by lia; f_equal; lia).
      rewrite Z.div_mul_cancel_r; lia.
    - by rewrite (Hup Hge), I1, I2. }
  split; [done |]. split.
  - rewrite Ea. split; simpl; [| lia]. rewrite Ecode, Hq. lia.
  - intros Hge. unfold assign_leaf_canonical. fold l. by rewrite (Hup Hge), I1, I2, Ea.
Qed.

Lemma assign_loop ls : forall S s,
  at_start S s -> 0 <= S -> aligned D S (l_lvl <$> ls) -> S + span D (l_lvl <$> ls) <= 2 ^ D ->
  assigned D S ls s (fold_left assign_leaf ls s) /\
  (StronglySorted Z.le (a_bitlen s :: (l_lvl <$> ls)) ->
   fold_left assign_leaf_canonical ls s = fold_left assign_leaf ls s).
Proof.
  induction ls as [| n ls IH]; intros S s Hst HS Hal Hsp; cbn [fold_left fmap list_fmap].
  { split; [| done]. destruct Hst as [Hc _]. unfold assigned, span. simpl.
    rewrite app_nil_r, Z.add_0_r. split_and!; try done; lia. }
  cbn [fmap list_fmap aligned] in Hal. destruct Hal as (Hl & Hd & Hal).
  change (span D (l_lvl <$> n :: ls)) with (2 ^ (D - l_lvl n) + span D (l_lvl <$> ls)) in Hsp.
  pose proof (span_nonneg D (l_lvl <$> ls)). pose proof (Z.pow_nonneg 2 (D - l_lvl n)).
  destruct (assign_leaf_code S s n Hst HS Hl Hd) as (Ea & Hst' & Hcan); [lia |].
  destruct (IH (S + 2 ^ (D - l_lvl n)) (assign_leaf s n)) as ((I1 & I2 & I3 & I4) & I5);
    try done; try lia.
  split.
  - split_and!.
    + rewrite I1. change (span D (l_lvl <$> n :: ls)) with (2 ^ (D - l_lvl n) + span D (l_lvl <$> ls)). lia.
    + rewrite I2, Ea. done.
    + rewrite I3, Ea. cbn [a_vals fmap list_fmap]. by rewrite <- app_assoc.
    + rewrite I4, Ea. cbn [a_total fmap list_fmap weigh foldr fst snd]. unfold weigh. lia.
  - intros Hs. inversion_clear Hs as [| ? ? Hs' Hle]. inversion_clear Hle as [| ? ? Hle' _].
    rewrite Hcan by done. apply I5. rewrite Ea. exact Hs'.
Qed.

End assigning.

(** ** What a codebook is good for *)

(** Leaves [ls], in code order, that cover a table of [2 ^ D] entries and the values of
    [input]. *)
Record code_order (D : Z) (ls : list leaf) (input : list Z) : Prop := {
  co_D : 0 <= D <= 30;
  co_aligned : aligned D 0 (l_lvl <$> ls);
  co_span : span D (l_lvl <$> ls) = 2 ^ D;
  co_freq : (fun n => (l_val n, l_cnt n)) <$> ls ≡ₚ map_to_list (count_freq input);
  co_max : Forall (fun l => 0 <= l <= D) (l_lvl <$> ls);
  co_top : D ∈ l_lvl <$> ls;
  co_pos : (2 <= length ls)%nat -> Forall (fun l => 1 <= l) (l_lvl <$> ls)
}.

Lemma co_vals D ls input : code_order D ls input -> NoDup (l_val <$> ls) /\
  (l_val <$> ls) ≡ₚ (map_to_list (count_freq input)).*1.
Proof.
  intros H. assert ((l_val <$> ls) ≡ₚ (map_to_list (count_freq input)).*1) as P.
  { rewrite <- (co_freq _ _ _ H), <- list_fmap_compose. done. }
  split; [| done]. rewrite P. apply NoDup_fst_map_to_list.
Qed.

Lemma co_elem D ls input x :
  code_order D ls input -> x ∈ input -> exists i n, ls !! i = Some n /\ l_val n = x.
Proof.
  intros H Hx. destruct (proj1 (proj1 (count_freq_spec input) x) Hx) as [c Hc].
  assert (x ∈ l_val <$> ls) as Hin.
  { rewrite (proj2 (co_vals D ls input H)). apply list_elem_of_fmap. exists (x, c).
    split; [done | by apply elem_of_map_to_list]. }
  apply list_elem_of_fmap in Hin as (n & -> & Hn). apply list_elem_of_lookup in Hn as [i Hi]. eauto.
Qed.

Lemma co_size D ls input : code_order D ls input -> length ls = size (count_freq input).
Proof.
  intros H. rewrite <- length_map_to_list, <- (co_freq _ _ _ H), length_fmap. done.
Qed.

(** The start of the interval of leaf number [i]. *)
Definition start (D : Z) (ls : list leaf) (i : nat) : Z := span D (l_lvl <$> take i ls).

Lemma aligned_start D ls : forall S i n,
  aligned D S (l_lvl <$> ls) -> ls !! i = Some n -> (2 ^ (D - l_lvl n) | S + start D ls i).
Proof.
  induction ls as [| m ls IH]; intros S i n Hal Hi; [done |]. destruct Hal as (Hl & Hd & Hal).
  destruct i as [| i]; simpl in Hi.
  - simplify_eq. unfold start, span. simpl. by rewrite Z.add_0_r.
  - specialize (IH _ _ _ Hal Hi). unfold start in *. simpl.
    change (list_fmap leaf Z l_lvl (take i ls)) with (l_lvl <$> take i ls).
    unfold span at 1. simpl. fold (span D (l_lvl <$> take i ls)). by rewrite Z.add_assoc.
Qed.

Lemma codes_lookup D ls : forall S i n,
  ls !! i = Some n ->
  codes D S ls !! i
  = Some (l_val n, ((S + start D ls i) / 2 ^ (D - l_lvl n), l_lvl n)).
Proof.
  induction ls as [| m ls IH]; intros S i n Hi; [done |]. destruct i as [| i]; simpl in Hi.
  - simplify_eq. unfold start, span. simpl. by rewrite Z.add_0_r.
  - simpl. rewrite (IH _ _ _ Hi). unfold start. simpl. unfold span at 2. simpl.
    change (list_fmap leaf Z l_lvl (take i ls)) with (l_lvl <$> take i ls).
    fold (span D (l_lvl <$> take i ls)). by rewrite Z.add_assoc.
Qed.

(** Inserting entries with distinct keys. *)
Definition insert_all {A} (l : list (Z * A)) (m : gmap Z A) : gmap Z A :=
  fold_left (fun m e => <[e.1 := e.2]> m) l m.

Lemma insert_all_notin {A} (l : list (Z * A)) k : forall m : gmap Z A,
  k ∉ l.*1 -> insert_all l m !! k = m !! k.
Proof.
  induction l as [| e l IH]; intros m Hk; simpl; [done |]. unfold insert_all in *. simpl.
  rewrite IH by set_solver. rewrite lookup_insert_ne; [done |]. set_solver.
Qed.

Lemma insert_all_lookup {A} (l : list (Z * A)) k e : forall m : gmap Z A,
  NoDup l.*1 -> (k, e) ∈ l -> insert_all l m !! k = Some e.
Proof.
  induction l as [| [k' e'] l IH]; intros m Hnd Hin; [by apply elem_of_nil in Hin |].
  cbn [fmap list_fmap fst] in Hnd. apply list.NoDup_cons in Hnd as [Hni Hnd].
  apply elem_of_cons in Hin as [[= -> ->] | Hin].
  - change (insert_all ((k', e') :: l) m) with (insert_all l (<[k' := e']> m)).
    rewrite insert_all_notin by done. by rewrite lookup_insert, decide_True.
  - by apply IH.
Qed.

Lemma insert_all_size {A} (l : list (Z * A)) : forall m : gmap Z A,
  NoDup l.*1 -> Forall (fun k => m !! k = None) l.*1 -> size (insert_all l m) = (size m + length l)%nat.
Proof.
  induction l as [| [k e] l IH]; intros m Hnd Hm; [simpl; lia |].
  cbn [fmap list_fmap fst] in Hnd, Hm. apply list.NoDup_cons in Hnd as [Hni Hnd].
  apply Forall_cons_iff in Hm as [Hk Hm].
  change (insert_all ((k, e) :: l) m) with (insert_all l (<[k := e]> m)). rewrite IH; [| done |].
  - rewrite map_size_insert_None by done. simpl. lia.
  - rewrite list.Forall_forall in Hm |- *. intros x Hx. rewrite lookup_insert_ne; [by apply Hm |].
    intros <-. done.
Qed.

Lemma codes_vals D ls : forall S, (codes D S ls).*1 = l_val <$> ls.
Proof. induction ls as [| n ls IH]; intros S; [done |]. simpl. by rewrite IH. Qed.

Section book.

Context (D : Z) (ls : list leaf) (input : list Z) (Hco : code_order D ls input).

(** The codebook built from the leaves. *)
Definition book : EncodeCodebook := insert_all (codes D 0 ls) ∅.

Lemma book_lookup i n :
  ls !! i = Some n ->
  book_get book (l_val n) = (start D ls i / 2 ^ (D - l_lvl n), l_lvl n).
Proof.
  intros Hi. unfold book_get, book.
  rewrite (insert_all_lookup _ _ (start D ls i / 2 ^ (D - l_lvl n), l_lvl n)); [done | |].
  - rewrite codes_vals. apply (co_vals D ls input Hco).
  - apply list_elem_of_lookup. exists i. rewrite (codes_lookup D ls 0 i n Hi). by rewrite Z.add_0_l.
Qed.

Lemma book_size : size book = length ls.
Proof.
  unfold book. rewrite insert_all_size.
  - rewrite map_size_empty. assert (length (codes D 0 ls).*1 = length ls) as E
      by (by rewrite codes_vals, length_fmap). rewrite length_fmap in E. lia.
  - rewrite codes_vals. apply (co_vals D ls input Hco).
  - apply list.Forall_forall. intros. apply lookup_empty.
Qed.

(** The number of bits of the code is the one announced. *)
Lemma book_total :
  weigh (fun x => x) ((fun n => (l_lvl n, l_cnt n)) <$> ls)
  = foldr (fun x t => (book_get book x).2 + t) 0 input.
Proof.
  rewrite <- (weigh_count_freq (fun x => (book_get book x).2)), <- (co_freq _ _ _ Hco).
  assert (forall l, l ⊆ ls ->
    weigh (fun x => x) ((fun n => (l_lvl n, l_cnt n)) <$> l)
    = weigh (fun x => (book_get book x).2) ((fun n => (l_val n, l_cnt n)) <$> l)) as H.
  { induction l as [| n l IH]; intros Hsub; [done |].
    assert (n ∈ ls) as [i Hi]%list_elem_of_lookup by set_solver.
    cbn [fmap list_fmap weigh foldr fst snd]. rewrite (book_lookup i n Hi).
    specialize (IH ltac:(set_solver)). unfold weigh in IH. cbn [snd]. rewrite IH. lia. }
  by apply H.
Qed.

Lemma book_bounds i n :
  ls !! i = Some n ->
  0 <= l_lvl n <= D /\ ((2 <= length ls)%nat -> 1 <= l_lvl n) /\
  exists q, start D ls i = q * 2 ^ (D - l_lvl n) /\ 0 <= q < 2 ^ l_lvl n.
Proof.
  intros Hi. pose proof (co_max _ _ _ Hco) as Hmax.
  assert ((l_lvl <$> ls) !! i = Some (l_lvl n)) as Hi' by (by rewrite list_lookup_fmap, Hi).
  pose proof (Forall_lookup_1 _ _ _ _ Hmax Hi') as Hl. cbn beta in Hl. split; [done |]. split.
  { intros H2. exact (Forall_lookup_1 _ _ _ _ (co_pos _ _ _ Hco H2) Hi'). }
  destruct (aligned_start D ls 0 i n (co_aligned _ _ _ Hco) Hi) as [q Hq].
  rewrite Z.add_0_l in Hq. exists q. split; [done |].
  pose proof (Z.pow_pos_nonneg 2 (D - l_lvl n) ltac:(lia) ltac:(lia)).
  assert (start D ls i + 2 ^ (D - l_lvl n) <= 2 ^ D) as Hle.
  { rewrite <- (co_span _ _ _ Hco). rewrite <- (take_drop_middle ls i n Hi) at 2.
    rewrite fmap_app, span_app. unfold start.
    change (span D (l_lvl <$> n :: drop (S i) ls))
      with (2 ^ (D - l_lvl n) + span D (l_lvl <$> drop (S i) ls)).
    pose proof (span_nonneg D (l_lvl <$> drop (S i) ls)). lia. }
  assert (0 <= start D ls i) by apply span_nonneg.
  assert (2 ^ D = 2 ^ l_lvl n * 2 ^ (D - l_lvl n)) as E
    by (rewrite <- Z.pow_add_r by lia; f_equal; lia).
  rewrite E, Hq in *. nia.
Qed.

(** ** Writing *)

Definition word (x : Z) : list bool := bits (book_get book x).2 (book_get book x).1.

Lemma write_codes_writes l : forall w bs,
  (2 <= length ls)%nat -> l ⊆ input -> writes w bs ->
  Z.of_nat (length (bs ++ (l ≫= word))) <= 32 * bw_len w ->
  exists w', write_codes w book l = Some w' /\ writes w' (bs ++ (l ≫= word)) /\ bw_len w' = bw_len w.
Proof.
  induction l as [| x l IH]; intros w bs H2 Hin Hw Hcap.
  { exists w. simpl. by rewrite app_nil_r. }
  destruct (co_elem D ls input x Hco ltac:(set_solver)) as (i & n & Hi & <-).
  rewrite bind_cons in *. cbn [write_codes]. unfold word at 1 in Hcap. unfold word at 1.
  rewrite (book_lookup i n Hi) in *. cbn [fst snd] in *.
  destruct (book_bounds i n Hi) as (Hl & Hl1 & _). specialize (Hl1 H2).
  pose proof (co_D _ _ _ Hco). rewrite !length_app, length_bits in Hcap.
  write_step. rewrite app_assoc.
  destruct (IH w0 (bs ++ bits (l_lvl n) (start D ls i / 2 ^ (D - l_lvl n)))) as (w' & -> & Hw' & Hl');
    try done; [set_solver | rewrite !length_app, length_bits; lia |].
  exists w'. split; [done |]. split; [done | lia].
Qed.

Lemma length_words l :
  l ⊆ input ->
  Z.of_nat (length (l ≫= word)) = foldr (fun x t => (book_get book x).2 + t) 0 l.
Proof.
  induction l as [| x l IH]; intros Hin; [done |].
  destruct (co_elem D ls input x Hco ltac:(set_solver)) as (i & n & Hi & <-).
  destruct (book_bounds i n Hi) as (Hl & _). rewrite bind_cons. cbn [foldr].
  rewrite length_app, <- IH by set_solver. unfold word at 1.
  rewrite (book_lookup i n Hi), length_bits. cbn [snd]. lia.
Qed.

(** ** Reading *)

Definition table : list (Z * Z) :=
  ls ≫= (fun n => replicate (Z.to_nat (2 ^ (D - l_lvl n))) (l_val n, l_lvl n)).

Lemma fill_table_spec :
  fill_table D ((fun n => (l_val n, l_lvl n)) <$> ls) = Some table.
Proof.
  unfold fill_table. pose proof (co_D _ _ _ Hco).
  rewrite assert_true by (rewrite andb_true_iff, Z.leb_le, Z.ltb_lt; lia). cbn [mbind option_bind].
  assert (forall l, l ⊆ ls -> fill D ((fun n => (l_val n, l_lvl n)) <$> l)
    = Some (l ≫= (fun n => replicate (Z.to_nat (2 ^ (D - l_lvl n))) (l_val n, l_lvl n))) /\
    Z.of_nat (length (l ≫= (fun n => replicate (Z.to_nat (2 ^ (D - l_lvl n))) (l_val n, l_lvl n))))
    = span D (l_lvl <$> l)) as Hf.
  { induction l as [| n l IH]; intros Hsub; [done |].
    assert (n ∈ ls) as [i Hi]%list_elem_of_lookup by set_solver.
    destruct (book_bounds i n Hi) as (Hl & _). destruct IH as [IH1 IH2]; [set_solver |].
    rewrite bind_cons, !fmap_cons. cbn [fill].
    rewrite assert_true by (rewrite andb_true_iff, Z.leb_le, Z.ltb_lt; lia).
    cbn [mbind option_bind]. rewrite IH1. split; [done |].
    rewrite length_app, length_replicate, Nat2Z.inj_add, IH2, Z2Nat.id by (apply Z.pow_nonneg; lia).
    done. }
  destruct (Hf ls ltac:(done)) as [-> Hlen]. cbn [mbind option_bind]. fold table in Hlen |- *.
  rewrite (co_span _ _ _ Hco) in Hlen.
  rewrite assert_true by (apply Z.leb_le; lia). done.
Qed.

Lemma table_lookup i n k :
  ls !! i = Some n -> 0 <= k < 2 ^ (D - l_lvl n) ->
  table !! Z.to_nat (start D ls i + k) = Some (l_val n, l_lvl n).
Proof.
  intros Hi Hk. unfold table, start.
  set (f := fun n => replicate (Z.to_nat (2 ^ (D - l_lvl n))) (l_val n, l_lvl n)).
  replace (ls ≫= f) with ((take i ls ++ n :: drop (S i) ls) ≫= f) by (by rewrite take_drop_middle).
  rewrite bind_app, bind_cons.
  assert (forall l, (forall m, m ∈ l -> l_lvl m <= D) ->
    Z.of_nat (length (l ≫= f)) = span D (l_lvl <$> l)) as Hlen.
  { induction l as [| m l IH]; intros Hm; [done |]. rewrite bind_cons.
    rewrite length_app, Nat2Z.inj_add, IH by set_solver. unfold f at 1. rewrite length_replicate.
    rewrite Z2Nat.id by (apply Z.pow_nonneg; lia). done. }
  specialize (Hlen (take i ls)). rewrite <- Hlen.
  2: { intros m Hm. apply elem_of_take in Hm as (j & Hj & _). destruct (book_bounds j m Hj). lia. }
  rewrite lookup_app_r by lia.
  replace (Z.to_nat (Z.of_nat (length (take i ls ≫= f)) + k) - length (take i ls ≫= f))%nat
    with (Z.to_nat k) by lia.
  rewrite lookup_app_l by (unfold f; rewrite length_replicate; lia).
  apply lookup_replicate_2. lia.
Qed.

Lemma huffman_loop_reads l : forall r,
  0 < D -> l ⊆ input -> reads r (l ≫= word) -> decode_loop (length l) r table D = Some l.
Proof.
  induction l as [| x l IH]; intros r HD Hin Hr; [done |].
  destruct (co_elem D ls input x Hco ltac:(set_solver)) as (i & n & Hi & <-).
  destruct (book_bounds i n Hi) as (Hl & _ & q & Hq & Hq').
  assert (word (l_val n) = bits (l_lvl n) q) as Hw.
  { unfold word. rewrite (book_lookup i n Hi), Hq. cbn [fst snd]. f_equal. apply Z.div_mul. lia. }
  rewrite bind_cons, Hw in Hr. pose proof (co_D _ _ _ Hco).
  cbn [length decode_loop]. rewrite (peek_reads_pad r D _ Hr) by lia. cbn [mbind option_bind].
  set (tl := l ≫= word) in *.
  replace (Z.to_nat D) with (length (bits (l_lvl n) q) + Z.to_nat (D - l_lvl n))%nat
    by (rewrite length_bits; lia).
  rewrite take_pad_split, bits_val_app, bits_val_bits_small, length_take_pad, Z2Nat.id by lia.
  pose proof (bits_val_range (take_pad (Z.to_nat (D - l_lvl n)) tl)) as Hb.
  rewrite length_take_pad, Z2Nat.id in Hb by lia.
  rewrite <- Hq, (table_lookup i n _ Hi Hb). cbn [mbind option_bind fst snd].
  destruct (forward_reads r (l_lvl n) q tl Hr) as (r' & -> & Hr'); [lia |].
  cbn [mbind option_bind]. rewrite (IH r' HD) by (done || set_solver). done.
Qed.

(** A single value has the empty code. *)
Lemma single_leaf :
  (length ls <= 1)%nat -> input <> [] ->
  exists n, ls = [n] /\ D = 0 /\ l_lvl n = 0 /\ input = replicate (length input) (l_val n).
Proof.
  intros H1 Hne. pose proof (co_top _ _ _ Hco) as Htop. pose proof (co_span _ _ _ Hco) as Hsp.
  pose proof (co_D _ _ _ Hco). destruct ls as [| n [| ]] eqn:Els; [| | simpl in H1; lia].
  { by apply elem_of_nil in Htop. }
  apply list_elem_of_singleton in Htop. unfold span in Hsp. simpl in Hsp.
  rewrite <- Htop, Z.sub_diag, Z.add_0_r in Hsp.
  assert (D = 0) by (destruct (Z.eq_dec D 0); [done | pose proof (Z.pow_gt_1 2 D); lia]).
  exists n. split_and!; try done; [lia |].
  symmetry. apply replicate_as_Forall. split; [done |]. apply list.Forall_forall. intros x Hx.
  destruct (co_elem D [n] input x Hco Hx) as (i & m & Hi & <-).
  destruct i; simpl in Hi; [by simplify_eq | done].
Qed.

(** The code between encoder and decoder. *)
Lemma code_roundtrip total_bitlen :
  total_bitlen = weigh (fun x => x) ((fun n => (l_lvl n, l_cnt n)) <$> ls) -> input <> [] ->
  let code_size := (total_bitlen + 31) / 32 * 4 in
  exists code, huffman_store_code book input code_size = Some code /\
    Z.of_nat (length code) = code_size /\ Forall is_byte code /\
    huffman_decode_data code code_size table D (Z.of_nat (length input)) = Some input.
Proof.
  intros Ht Hne code_size. rewrite book_total in Ht.
  pose proof (length_words input ltac:(done)) as Hlen. rewrite <- Ht in Hlen.
  pose proof (Z.div_mod (total_bitlen + 31) 32 ltac:(lia)) as Hdm.
  pose proof (Z.mod_pos_bound (total_bitlen + 31) 32 ltac:(lia)) as Hm.
  unfold huffman_store_code, huffman_decode_data. rewrite book_size. rewrite Nat2Z.id.
  destruct (decide (length ls <= 1)%nat) as [H1 | H1].
  - destruct (single_leaf H1 Hne) as (n & E1 & E2 & E3 & E4).
    replace (1 <? Z.of_nat (length ls)) with false by (symmetry; apply Z.ltb_ge; lia).
    exists []. split; [done |]. assert (total_bitlen = 0) as ->.
    { rewrite <- Hlen. rewrite E4. unfold word. rewrite <- (Z2Nat.id 0) by lia. f_equal.
      clear E4. induction (length input) as [| k IH]; [done |]. cbn [replicate]. rewrite bind_cons, length_app, IH.
      rewrite (book_lookup 0 n) by (by rewrite E1). cbn [snd]. rewrite E3, length_bits. done. }
    split; [done |]. split; [constructor |]. rewrite E2. cbn [Z.eqb negb]. unfold table. rewrite E1. cbn [mbind list_bind].
    rewrite E2, E3. change (Z.to_nat (2 ^ (0 - 0))) with 1%nat. simpl. by rewrite <- E4.
  - replace (1 <? Z.of_nat (length ls)) with true by (symmetry; apply Z.ltb_lt; lia).
    assert (0 < D) as HD.
    { pose proof (co_pos _ _ _ Hco ltac:(lia)) as Hp. rewrite list.Forall_forall in Hp.
      specialize (Hp D (co_top _ _ _ Hco)). simpl in Hp. lia. }
    unfold code_size. rewrite Z.div_mul by lia. set (n := (total_bitlen + 31) / 32) in *.
    assert (1 <= total_bitlen) as Hpos.
    { rewrite <- Hlen.
      assert (exists x l, input = x :: l) as (x & l & E) by (clear -Hne; destruct input; eauto; done).
      destruct (co_elem D ls input x Hco) as (i & m & Hi & <-); [rewrite E; set_solver |].
      rewrite E, bind_cons, length_app. destruct (book_bounds i m Hi) as (_ & Hl & _).
      unfold word at 1. rewrite (book_lookup i m Hi), length_bits. cbn [snd]. specialize (Hl ltac:(lia)). lia. }
    destruct (init_ok n) as (w & -> & Hw & Hwl); [lia |]. cbn [mbind option_bind].
    destruct (write_codes_writes input w [] ltac:(lia) ltac:(done) Hw) as (w1 & -> & Hw1 & Hwl1);
      [rewrite app_nil_l; lia |]. cbn [mbind option_bind]. rewrite app_nil_l in Hw1.
    destruct (flush_writes w1 _ Hw1) as (w2 & -> & Hz & Hu & Hc1 & Hc2); [lia |]. cbn [mbind option_bind fst].
    rewrite Hlen in Hc2. fold n in Hc2. eexists. split; [done |]. rewrite length_store_array.
    split; [lia |]. split; [apply store_array_range |].
    rewrite (proj2 (Z.eqb_neq D 0)) by lia. cbn [negb].
    rewrite (load_n_at 4 _ [] (bw_output w2) []) by (rewrite ?app_nil_r; done || lia || exact Hu).
    cbn [mbind option_bind]. rewrite <- Hc2, Hc1.
    destruct (init_reads (bw_output w2) _ Hu Hz) as (r & -> & Hr).
    { intros E. rewrite E in Hc1. simpl in Hc1. lia. }
    cbn [mbind option_bind]. by apply huffman_loop_reads.
Qed.

End book.

Lemma total_bound D ls input :
  code_order D ls input ->
  0 <= weigh (fun x => x) ((fun n => (l_lvl n, l_cnt n)) <$> ls) <= 30 * Z.of_nat (length input).
Proof.
  intros Hco. rewrite (book_total D ls input Hco). pose proof (co_D _ _ _ Hco).
  assert (forall l, l ⊆ input ->
    0 <= foldr (fun x t => (book_get (book D ls) x).2 + t) 0 l <= 30 * Z.of_nat (length l)) as H'.
  { induction l as [| x l IH]; intros Hl; [simpl; lia |].
    destruct (co_elem D ls input x Hco ltac:(set_solver)) as (i & n & Hi & <-).
    destruct (book_bounds D ls input Hco i n Hi) as (Hn & _). specialize (IH ltac:(set_solver)).
    cbn [foldr length]. rewrite (book_lookup D ls input Hco i n Hi). cbn [snd]. lia. }
  by apply H'.
Qed.

Lemma size_bound input : (size (count_freq input) <= length input)%nat.
Proof.
  induction input as [| x input IH] using rev_ind; [done |].
  rewrite count_freq_snoc, length_app, map_size_insert. destruct (count_freq input !! x); unfold id; simpl; lia.
Qed.

(** The container: a header of three words, then the values, the lengths and the code. *)
Lemma container_loads a b c vals lens code :
  0 <= a < 2 ^ 32 -> 0 <= b < 2 ^ 32 -> 0 <= c < 2 ^ 32 -> b = Z.of_nat (length vals) ->
  Forall is_u32 vals -> Forall (fun x => 0 <= x < 2 ^ (8 * Z.of_nat 2)) lens ->
  let out := header a b c ++ (store_array 4 vals ++ store_array 2 lens) ++ code in
  let n := Z.of_nat (length lens) in
  Z.of_nat (length out) = 12 + 4 * b + 2 * n + Z.of_nat (length code) /\
  load 4 out 0 = Some a /\ load 4 out 4 = Some b /\ load 4 out 8 = Some c /\
  load_n 4 out 12 b = Some vals /\ load_n 2 out (12 + 4 * b) n = Some lens /\
  drop (Z.to_nat (12 + 4 * b + 2 * n)) out = code.
Proof.
  intros Ha Hb Hc Eb Hv Hl out n.
  assert (length (header a b c) = 12%nat) as H12 by (unfold header; by rewrite !length_app, !length_le_bytes).
  pose proof (length_store_array 4 vals) as Lv. pose proof (length_store_array 2 lens) as Ll.
  subst b. split_and!.
  - unfold out. rewrite !length_app. lia.
  - eapply (load_at 4 4 _ [] a); [| done | done | done].
    unfold out, header. rewrite <- !app_assoc. done.
  - eapply (load_at 4 4 _ (le_bytes 4 a)); [| done | by rewrite length_le_bytes | done].
    unfold out, header. rewrite <- !app_assoc. done.
  - eapply (load_at 4 4 _ (le_bytes 4 a ++ le_bytes 4 _));
      [| done | by rewrite length_app, !length_le_bytes | done].
    unfold out, header. rewrite <- !app_assoc. done.
  - eapply (load_n_at 4 _ (header a (Z.of_nat (length vals)) c)); [| by rewrite H12 | done | done].
    unfold out. by rewrite <- app_assoc.
  - eapply (load_n_at 2 _ (header a (Z.of_nat (length vals)) c ++ store_array 4 vals));
      [| rewrite length_app; lia | done | done].
    unfold out. by rewrite <- !app_assoc.
  - unfold out. rewrite app_assoc. apply drop_app_length'. rewrite !length_app. lia.
Qed.

(** ** The plain coder *)

Lemma leaves_top lvl t : lvl + Z.of_nat (depth t) ∈ l_lvl <$> leaves lvl t.
Proof.
  revert lvl. induction t as [v c | c l IHl r IHr]; intros lvl; simpl.
  { rewrite Z.add_0_r. set_solver. }
  rewrite fmap_app, elem_of_app. specialize (IHl (lvl + 1)). specialize (IHr (lvl + 1)).
  destruct (Nat.le_ge_cases (depth l) (depth r)).
  - right. rewrite Nat.max_r by done.
    by replace (lvl + Z.of_nat (S (depth r))) with (lvl + 1 + Z.of_nat (depth r)) by lia.
  - left. rewrite Nat.max_l by done.
    by replace (lvl + Z.of_nat (S (depth l))) with (lvl + 1 + Z.of_nat (depth l)) by lia.
Qed.

Lemma leaves_order t input :
  balanced t -> tree_leaves t ≡ₚ map_to_list (count_freq input) -> cnt t <= 2 ^ 21 ->
  code_order (Z.of_nat (depth t)) (leaves 0 t) input.
Proof.
  intros Hb Hp Hc. pose proof (tree_depth t Hb Hc).
  destruct (leaves_aligned (Z.of_nat (depth t)) t 0 0) as [Ha Hs]; [lia | lia | by apply Z.divide_0_r |].
  rewrite Z.sub_0_r in Hs. split; try done; try lia.
  - by rewrite leaves_tree.
  - apply Forall_fmap. eapply Forall_impl; [| exact (leaves_lvl 0 t)]. simpl. lia.
  - exact (leaves_top 0 t).
  - intros H2. destruct t as [v c | c l r]; [simpl in H2; lia |]. simpl. rewrite fmap_app.
    apply Forall_app. split; apply Forall_fmap; (eapply Forall_impl; [| exact (leaves_lvl (0 + 1) _)]);
      simpl; lia.
Qed.

Lemma assigned_book D ls input a :
  code_order D ls input -> a = fold_left assign_leaf ls assign_init ->
  a_book a = book D ls /\ a_vals a = l_val <$> ls /\
  a_total a = weigh (fun x => x) ((fun n => (l_lvl n, l_cnt n)) <$> ls).
Proof.
  intros Hco ->. pose proof (co_D _ _ _ Hco).
  destruct (assign_loop D ltac:(lia) ls 0 assign_init) as [(_ & H1 & H2 & H3) _].
  - split; simpl; lia.
  - lia.
  - apply (co_aligned _ _ _ Hco).
  - by rewrite (co_span _ _ _ Hco).
  - by rewrite H1, H2, H3.
Qed.

Lemma max_fold ls D : forall m,
  Forall (fun l => l <= D) ls -> m <= D -> D ∈ ls \/ m = D ->
  fold_left (fun m b => if b <? m then m else b) ls m = D.
Proof.
  induction ls as [| l ls IH]; intros m Hls Hm HD; simpl.
  { destruct HD as [HD%elem_of_nil | ->]; done. }
  apply Forall_cons_iff in Hls as [Hl Hls].
  apply IH; [done | destruct (Z.ltb_spec l m); lia |].
  destruct HD as [[-> | HD]%elem_of_cons | ->]; [| by left |].
  - right. destruct (Z.ltb_spec l m); lia.
  - right. destruct (Z.ltb_spec l D); lia.
Qed.

Lemma zip_fmap {A} (f g : A -> Z) l : zip (f <$> l) (g <$> l) = (fun x => (f x, g x)) <$> l.
Proof. induction l as [| x l IH]; [done |]. rewrite !fmap_cons. cbn [zip zip_with]. by rewrite IH. Qed.

Lemma book_lens D ls input (g : Z -> Z) :
  code_order D ls input ->
  g ∘ snd ∘ book_get (book D ls) <$> (l_val <$> ls) = g <$> (l_lvl <$> ls).
Proof.
  intros Hco. rewrite <- !list_fmap_compose. apply list_eq. intros i. rewrite !list_lookup_fmap.
  destruct (ls !! i) as [n |] eqn:Hi; [| done]. simpl.
  by rewrite (book_lookup D ls input Hco i n Hi).
Qed.

Lemma vals_i32 D ls input :
  code_order D ls input -> Forall is_i32 input ->
  i32 <$> (u32 <$> (l_val <$> ls)) = l_val <$> ls /\ Forall is_u32 (u32 <$> (l_val <$> ls)).
Proof.
  intros Hco Hin. destruct (co_vals D ls input Hco) as [_ P].
  assert (Forall is_i32 (l_val <$> ls)) as Hv.
  { rewrite P. apply list.Forall_forall. intros x ([v c] & -> & Hx%elem_of_map_to_list)%list_elem_of_fmap.
    rewrite list.Forall_forall in Hin. apply Hin. apply (proj1 (count_freq_spec input)). simpl. by rewrite Hx. }
  split.
  - rewrite <- list_fmap_compose. rewrite <- (list_fmap_id (l_val <$> ls)) at 2.
    apply list_fmap_ext. intros i v Hi. apply i32_u32. exact (Forall_lookup_1 _ _ _ _ Hv Hi).
  - apply Forall_fmap. eapply Forall_impl; [| exact Hv]. intros. apply u32_range.
Qed.

Lemma lens_i16 D ls input :
  code_order D ls input ->
  i16 <$> (u16 <$> (l_lvl <$> ls)) = l_lvl <$> ls /\
  Forall (fun x => 0 <= x < 2 ^ (8 * Z.of_nat 2)) (u16 <$> (l_lvl <$> ls)).
Proof.
  intros Hco. pose proof (co_max _ _ _ Hco) as Hm. pose proof (co_D _ _ _ Hco). split.
  - rewrite <- list_fmap_compose. rewrite <- (list_fmap_id (l_lvl <$> ls)) at 2.
    apply list_fmap_ext. intros i l Hi. pose proof (Forall_lookup_1 _ _ _ _ Hm Hi) as Hl. cbn beta in Hl.
    cbn. unfold u16, i16. rewrite Z.mod_small by lia. apply swrap_id; simpl; lia.
  - apply Forall_fmap, list.Forall_forall. intros l _. simpl. unfold u16. apply Z.mod_pos_bound. lia.
Qed.

Section plain.

Context `{Qcnt : !PriorityQueue cnt} `{Qlvl : !PriorityQueue l_lvl} `{Order : !MapOrder}.

(** The correctness of the plain coder, for its clients. *)
Lemma huffman_correct input :
  input <> [] -> Z.of_nat (length input) <= 2 ^ 21 -> Forall is_i32 input ->
  exists out size, huffman_encode input = Some (out, size) /\
    size = Z.of_nat (length out) /\ load 4 out 0 = Some (Z.of_nat (length input)) /\
    huffman_decode out size = Some input.
Proof.
  intros Hne Hmax Hin. destruct (build_tree_spec input Hne) as (t & Et & Hb & Hp & Hc).
  pose proof (leaves_order t input Hb Hp ltac:(lia)) as Hco.
  set (D := Z.of_nat (depth t)) in *. set (ls := leaves 0 t) in *.
  unfold huffman_encode. rewrite Et. cbn [mbind option_bind].
  unfold huffman_build_encode_codebook. rewrite visit_root. fold ls.
  destruct (assigned_book D ls input _ Hco eq_refl) as (Ebook & Evals & Etot).
  set (a := fold_left assign_leaf ls assign_init) in *. rewrite Ebook, Evals.
  destruct (code_roundtrip D ls input Hco (a_total a) Etot Hne) as (code & -> & Hlc & Hcb & Hdec).
  cbn [mbind option_bind]. set (code_size := (a_total a + 31) / 32 * 4) in *.
  rewrite <- (co_size D ls input Hco). eexists _, _. split; [done |].
  pose proof (size_bound input) as Hsz. rewrite <- (co_size D ls input Hco) in Hsz.
  pose proof (total_bound D ls input Hco) as Htb. rewrite <- Etot in Htb.
  destruct (vals_i32 D ls input Hco Hin) as [Ev Hv]. destruct (lens_i16 D ls input Hco) as [El Hl].
  unfold huffman_store_codebook. rewrite (book_lens D ls input u16 Hco).
  destruct (container_loads (Z.of_nat (length input)) (Z.of_nat (length ls)) code_size
    (u32 <$> (l_val <$> ls)) (u16 <$> (l_lvl <$> ls)) code)
    as (L0 & L1 & L2 & L3 & L4 & L5 & L6); try done; try lia.
  { unfold code_size. pose proof (Z.div_mod (a_total a + 31) 32 ltac:(lia)).
    pose proof (Z.mod_pos_bound (a_total a + 31) 32 ltac:(lia)). lia. }
  { by rewrite !length_fmap. }
  rewrite !length_fmap in L0, L5, L6. split; [lia |]. split; [done |].
  unfold huffman_decode. rewrite L1, L2, L3. cbn [mbind option_bind]. rewrite L4.
  cbn [mbind option_bind]. rewrite L5. cbn [mbind option_bind]. rewrite Ev, El. unfold huffman_build_decode_codebook.
  rewrite (max_fold _ D).
  - rewrite zip_fmap, (fill_table_spec D ls input Hco). cbn [mbind option_bind fst snd].
    replace (12 + Z.of_nat (length ls) * (4 + 2)) with (12 + 4 * Z.of_nat (length ls) + 2 * Z.of_nat (length ls)) by lia.
    rewrite L6. exact Hdec.
  - eapply Forall_impl; [| exact (co_max _ _ _ Hco)]. simpl. lia.
  - apply (co_D _ _ _ Hco).
  - left. apply (co_top _ _ _ Hco).
Qed.

(** C9: whatever 32-bit integers are coded with the plain codebook, the bytes stored are as
    many as announced and decode to them: for every priority queue and every order in
    which the frequency table may be visited. *)
Theorem huffman_roundtrip input :
  input <> [] -> Z.of_nat (length input) <= 2 ^ 21 -> Forall is_i32 input ->
  exists out size, huffman_encode input = Some (out, size) /\
    size = Z.of_nat (length out) /\
    huffman_decode out size = Some input.
Proof.
  intros Hne Hmax Hin.
  destruct (huffman_correct input Hne Hmax Hin) as (out & size & E & L & _ & D). eauto.
Qed.

End plain.

(** ** The canonical coder *)

(** The lengths that counts stand for, from length [b] on. *)
Fixpoint expand (b : Z) (counts : list Z) : list Z :=
  match counts with
  | [] => []
  | c :: counts => replicate (Z.to_nat c) b ++ expand (b + 1) counts
  end.

Lemma expand_ge b counts : Forall (fun l => b <= l) (expand b counts).
Proof.
  revert b. induction counts as [| c counts IH]; intros b; simpl; [constructor |].
  apply Forall_app. split; [apply Forall_replicate; lia |].
  eapply Forall_impl; [| exact (IH (b + 1))]. simpl. lia.
Qed.

(** Storing sorted lengths as counts. *)
Lemma store_counts_spec n : forall lens bl c acc,
  StronglySorted Z.le lens -> Forall (fun l => bl <= l) lens -> 0 <= c ->
  c + Z.of_nat (length lens) < 2 ^ 16 ->
  Z.of_nat (length lens) + (default bl (list.last lens) - bl) < Z.of_nat n ->
  exists c' cs, store_counts n lens bl c acc = Some (acc ++ c' :: cs) /\
    replicate (Z.to_nat c') bl ++ expand (bl + 1) cs = replicate (Z.to_nat c) bl ++ lens /\
    Forall (fun c => 0 <= c < 2 ^ 16) (c' :: cs) /\
    Z.of_nat (length cs) = default bl (list.last lens) - bl.
Proof.
  induction n as [| n IH]; intros lens bl c acc Hs Hge Hc Hmax Hn.
  { destruct lens as [| b lens]; simpl in *; [lia |].
    destruct (list.last (b :: lens)) as [x |] eqn:E; [| by apply last_None in E].
    apply last_Some_elem_of in E. rewrite list.Forall_forall in Hge. specialize (Hge x E). simpl in *. lia. }
  destruct lens as [| b lens]; cbn [store_counts].
  - exists c, []. simpl in *. split_and!; try done; try lia.
    repeat constructor; lia.
  - apply Forall_cons_iff in Hge as [Hb Hge]. inversion_clear Hs as [| ? ? Hs' Hle].
    destruct (Z.eqb_spec b bl) as [-> | Hne].
    + assert (default bl (list.last (bl :: lens)) = default bl (list.last lens)) as El.
      { rewrite last_cons. by destruct (list.last lens). }
      rewrite El in *. cbn [length] in *.
      assert (u16 (c + 1) = c + 1) as -> by (apply Z.mod_small; lia).
      destruct (IH lens bl (c + 1) acc) as (c' & cs & -> & E & F & L); try done; try lia.
      exists c', cs. split_and!; try done. rewrite E.
      replace (Z.to_nat (c + 1)) with (Z.to_nat c + 1)%nat by lia. rewrite replicate_add, <- app_assoc. done.
    + assert (default bl (list.last (b :: lens)) = default (bl + 1) (list.last (b :: lens))) as El.
      { rewrite last_cons. by destruct (list.last lens). }
      rewrite El in *.
      destruct (IH (b :: lens) (bl + 1) 0 (acc ++ [c])) as (c' & cs & -> & E & F & L); try done; try lia.
      * by constructor.
      * constructor; [lia |]. eapply Forall_impl; [| exact Hle]. simpl. lia.
      * exists c, (c' :: cs). rewrite <- app_assoc. split_and!; try done.
        -- simpl in *. by rewrite E.
        -- constructor; [lia | done].
        -- cbn [length]. lia.
Qed.

Lemma canonical_skip v vals pre arr b :
  canonical_loop (v :: vals) (pre ++ 0 :: arr) (length pre) b
  = canonical_loop (v :: vals) ((pre ++ [0]) ++ arr) (length (pre ++ [0])) (b + 1).
Proof.
  rewrite <- app_assoc. cbn [app canonical_loop]. rewrite drop_app_length.
  replace (drop (length (pre ++ [0])) (pre ++ 0 :: arr)) with arr.
  - cbn [skip_zeros Z.eqb]. by rewrite length_app, Nat.add_1_r.
  - change (pre ++ 0 :: arr) with (pre ++ [0] ++ arr). by rewrite app_assoc, drop_app_length.
Qed.

Lemma i16_zero c : 0 <= c < 2 ^ 16 -> i16 c = 0 -> c = 0.
Proof.
  intros Hc. unfold i16, swrap. change (2 ^ (16 - 1)) with (2 ^ 15).
  pose proof (Z.div_mod (c + 2 ^ 15) (2 ^ 16) ltac:(lia)).
  pose proof (Z.mod_pos_bound (c + 2 ^ 15) (2 ^ 16) ltac:(lia)). lia.
Qed.

Lemma i16_shift c k : i16 (c + k * 2 ^ 16) = i16 c.
Proof. unfold i16. by rewrite <- swrap_mod, Z.mod_add, swrap_mod by lia. Qed.

Lemma i16_pred c : i16 (i16 c - 1) = i16 (c - 1).
Proof.
  assert (i16 c = c + - ((c + 2 ^ 15) / 2 ^ 16) * 2 ^ 16) as E.
  { unfold i16, swrap. change (2 ^ (16 - 1)) with (2 ^ 15).
    pose proof (Z.div_mod (c + 2 ^ 15) (2 ^ 16) ltac:(lia)). lia. }
  rewrite E at 1. rewrite <- (i16_shift (c - 1) (- ((c + 2 ^ 15) / 2 ^ 16))). f_equal. lia.
Qed.

Lemma canonical_take v vals pre c arr b :
  1 <= c < 2 ^ 16 ->
  canonical_loop (v :: vals) (pre ++ i16 c :: arr) (length pre) b
  = r ← canonical_loop vals (pre ++ i16 (c - 1) :: arr) (length pre) b; Some ((v, b) :: r.1, r.2).
Proof.
  intros Hc. cbn [canonical_loop]. rewrite drop_app_length. cbn [skip_zeros].
  destruct (Z.eqb_spec (i16 c) 0) as [E | E]; [apply i16_zero in E; lia |].
  cbn [mbind option_bind fst snd]. rewrite list_lookup_middle by done. cbn [mbind option_bind].
  rewrite insert_app_r_alt, Nat.sub_diag by done. cbn [insert list_insert]. by rewrite i16_pred.
Qed.

(** The canonical decoder's loop reads the lengths back. *)
Lemma canonical_loop_spec vals : forall cs pre c b rest,
  Forall (fun c => 0 <= c < 2 ^ 16) (c :: cs) ->
  length vals = length (replicate (Z.to_nat c) b ++ expand (b + 1) cs) ->
  exists mid, length mid = S (length cs) /\
    canonical_loop vals (pre ++ i16 c :: (i16 <$> cs) ++ rest) (length pre) b
    = Some (zip vals (replicate (Z.to_nat c) b ++ expand (b + 1) cs), pre ++ mid ++ rest).
Proof.
  induction vals as [| v vals IH]; intros cs pre c b rest Hall Hlen.
  { exists (i16 c :: (i16 <$> cs)). split; [by rewrite length_cons, length_fmap | done]. }
  revert pre c b Hall Hlen. induction cs as [| c1 cs IHcs]; intros pre c b Hall Hlen.
  all: pose proof Hall as [Hc Hcs]%Forall_cons_iff.
  all: destruct (Z.eq_dec c 0) as [-> | Hc0].
  2, 4: rewrite canonical_take by lia;
    assert (replicate (Z.to_nat c) b = b :: replicate (Z.to_nat (c - 1)) b) as Er
      by (by replace (Z.to_nat c) with (S (Z.to_nat (c - 1))) by lia).
  - simpl in Hlen. lia.
  - destruct (IH [] pre (c - 1) b rest) as (mid & Hm & ->); 
      [repeat constructor; lia | rewrite Er in Hlen; simpl in Hlen |- *; lia |].
    exists mid. by rewrite Er.
  - destruct (IH (c1 :: cs) pre (c - 1) b rest) as (mid & Hm & ->);
      [constructor; [lia | done] | rewrite Er in Hlen; simpl in Hlen |- *; lia |].
    exists mid. by rewrite Er.
  - destruct (IHcs (pre ++ [0]) c1 (b + 1)) as (mid & Hm & E); [done | exact Hlen |].
    exists (0 :: mid). split; [simpl; lia |]. change (i16 0) with 0. rewrite canonical_skip.
    cbn [fmap list_fmap app]. change (list_fmap Z Z i16 cs) with (i16 <$> cs). rewrite E.
    cbn [Z.to_nat replicate app expand]. by rewrite <- app_assoc.
Qed.

Lemma sorted_last l D :
  StronglySorted Z.le l -> D ∈ l -> Forall (fun x => x <= D) l -> list.last l = Some D.
Proof.
  induction l as [| x l IH]; intros Hs Hin Hall; [by apply elem_of_nil in Hin |].
  inversion_clear Hs as [| ? ? Hs' Hle]. apply Forall_cons_iff in Hall as [Hx Hall]. rewrite last_cons.
  destruct l as [| y l].
  - apply list_elem_of_singleton in Hin as ->. done.
  - apply elem_of_cons in Hin as [-> | Hin]; [| by rewrite IH].
    apply Forall_cons_iff in Hle as [Hy _]. pose proof Hall as [Hy' _]%Forall_cons_iff.
    rewrite IH; [done | done | | done]. assert (y = x) as -> by lia. set_solver.
Qed.

Lemma sorted_fmap (ls : list leaf) :
  StronglySorted (fun a b => l_lvl a <= l_lvl b) ls -> StronglySorted Z.le (l_lvl <$> ls).
Proof.
  induction 1 as [| n ls Hs IH Hle]; [constructor |]. rewrite fmap_cons. constructor; [done |].
  apply Forall_fmap. done.
Qed.

Lemma zip_vals_lens (ls : list leaf) : zip (l_val <$> ls) (l_lvl <$> ls) = (fun n => (l_val n, l_lvl n)) <$> ls.
Proof. apply zip_fmap. Qed.

(** The stored lengths of a canonical codebook, read back by the decoder: [rest] is what
    follows them in memory. *)
Lemma canonical_lengths_spec D ls input :
  code_order D ls input -> StronglySorted Z.le (l_lvl <$> ls) -> (length ls < 2 ^ 16)%nat ->
  exists first lens,
    list.head (l_lvl <$> ls) = Some first /\ list.last (l_lvl <$> ls) = Some D /\
    canonical_lengths (book D ls) (l_val <$> ls) = Some lens /\
    Z.of_nat (length lens) = D - first + 3 /\ 
    Forall (fun x => 0 <= x < 2 ^ (8 * Z.of_nat 2)) lens /\
    (i16 <$> lens) !! 0%nat = Some first /\ (i16 <$> lens) !! 1%nat = Some D /\
    forall rest, exists mid, length lens = (length mid + 2)%nat /\
      huffman_build_decode_codebook_canonical (l_val <$> ls) ((i16 <$> lens) ++ rest)
      = Some (table D ls, D, first :: D :: mid ++ rest).
Proof.
  intros Hco Hs Hlen. pose proof (co_D _ _ _ Hco) as HD. pose proof (co_max _ _ _ Hco) as Hmax.
  assert (list.last (l_lvl <$> ls) = Some D) as Hlast.
  { apply sorted_last; [done | apply (co_top _ _ _ Hco) |].
    eapply Forall_impl; [| exact Hmax]. simpl. lia. }
  unfold canonical_lengths.
  assert (snd ∘ book_get (book D ls) <$> (l_val <$> ls) = l_lvl <$> ls) as ->.
  { pose proof (book_lens D ls input id Hco) as E. by rewrite list_fmap_id in E. }
  set (lens := l_lvl <$> ls) in *.
  assert (length lens = length ls) as Hll by apply length_fmap.
  destruct lens as [| first lens'] eqn:El; [done |]. rewrite <- El in *.
  assert (lens = first :: lens') as El' by done. clear El.
  assert (0 <= first <= D) as Hf.
  { rewrite El' in Hmax. by apply Forall_cons_iff in Hmax as [? _]. }
  assert (Forall (fun l => first <= l) lens) as Hfall.
  { rewrite El' in *. inversion_clear Hs as [| ? ? _ Hle]. constructor; [lia | done]. }
  exists first. rewrite Hlast.
  assert (list.head lens = Some first) as -> by (by rewrite El'). cbn [mbind option_bind].
  assert (u16 first = first /\ u16 D = D) as [-> ->] by (split; apply Z.mod_small; lia).
  destruct (store_counts_spec (length lens + Z.to_nat D + 2) lens (first - 1) 0 [])
    as (c' & cs & -> & E & F & L); try done.
  { eapply Forall_impl; [| exact Hfall]. simpl. lia. }
  { rewrite Hll. change (2 ^ 16) with (Z.of_nat (2 ^ 16)). lia. }
  { rewrite Hlast. simpl default. lia. }
  rewrite Hlast in L. simpl default in L. cbn [mbind option_bind].
  assert (c' = 0) as ->.
  { apply Forall_cons_iff in F as [Fc _]. destruct (Z.eq_dec c' 0) as [| Hne]; [done |].
    replace (Z.to_nat c') with (S (Z.to_nat (c' - 1))) in E by lia. simpl in E.
    rewrite El' in E. simplify_eq. lia. }
  cbn [app tail]. replace (first - 1 + 1) with first in E by lia.
  change (expand first cs = lens) in E. apply Forall_cons_iff in F as [_ F].
  eexists. split; [done |]. split; [done |]. split; [done |]. split; [cbn [length]; lia |]. split.
  { repeat constructor; try (change (8 * Z.of_nat 2) with 16; lia). done. }
  assert (i16 first = first /\ i16 D = D) as [I1 I2].
  { split; apply swrap_id; try lia; simpl; lia. }
  rewrite !fmap_cons, I1, I2. split; [done |]. split; [done |].
  intros rest. destruct cs as [| c cs]; [simpl in L; lia |].
  destruct (canonical_loop_spec (l_val <$> ls) cs [first; D] c first rest) as (mid & Hm & Ec); [done | |].
  { cbn [expand] in E. by rewrite E, Hll, length_fmap. }
  exists mid. split; [simpl; lia |]. unfold huffman_build_decode_codebook_canonical.
  rewrite fmap_cons. cbn [app lookup list_lookup mbind option_bind].
  change (length [first; D]) with 2%nat in Ec. change ([first; D] ++ ?x) with (first :: D :: x) in Ec.
  cbn [app] in Ec. rewrite Ec. cbn [mbind option_bind fst snd].
  cbn [expand] in E. rewrite E. unfold lens. rewrite zip_vals_lens, (fill_table_spec D ls input Hco). done.
Qed.

Lemma u16_i16 w : 0 <= w < 2 ^ 16 -> u16 (i16 w) = w.
Proof.
  intros Hw. unfold u16, i16, swrap. change (2 ^ (16 - 1)) with (2 ^ 15).
  rewrite Zminus_mod_idemp_l, Z.add_simpl_r. by apply Z.mod_small.
Qed.

(** The part of the memory left by the decoder that holds the code. *)
Lemma memory_code out n first D mid ws off size :
  off = 12 + 4 * n -> 0 <= n -> off <= Z.of_nat (length out) ->
  Forall (fun x => 0 <= x < 2 ^ (8 * Z.of_nat 2)) ws ->
  size = 12 + (n * 4 + (Z.of_nat (length mid) + 2) * 2) ->
  drop (Z.to_nat size)
    (take (Z.to_nat off) out ++ store_array 2 (u16 <$> first :: D :: mid ++ (i16 <$> ws)))
  = store_array 2 ws.
Proof.
  intros -> Hn Hout Hws ->.
  assert (u16 <$> (i16 <$> ws) = ws) as Eu.
  { rewrite <- list_fmap_compose. rewrite <- (list_fmap_id ws) at 2. apply list_fmap_ext.
    intros i w Hi. apply u16_i16. exact (Forall_lookup_1 _ _ _ _ Hws Hi). }
  replace (u16 <$> first :: D :: mid ++ (i16 <$> ws)) with ((u16 <$> first :: D :: mid) ++ ws)
    by (by rewrite <- Eu at 1; rewrite <- fmap_app).
  rewrite store_array_app, app_assoc. apply drop_app_length'.
  rewrite length_app, length_take, length_store_array, length_fmap. cbn [length]. lia.
Qed.

Section canonical.

Context `{Qcnt : !PriorityQueue cnt} `{Qlvl : !PriorityQueue l_lvl} `{Order : !MapOrder}.

Lemma canonical_order t input :
  balanced t -> tree_leaves t ≡ₚ map_to_list (count_freq input) -> cnt t <= 2 ^ 21 ->
  exists ls, code_order (Z.of_nat (depth t)) ls input /\ StronglySorted Z.le (l_lvl <$> ls) /\
    huffman_build_canonical_encode_codebook t = fold_left assign_leaf ls assign_init.
Proof.
  intros Hb Hp Hc. pose proof (leaves_order t input Hb Hp Hc) as Hco.
  unfold huffman_build_canonical_encode_codebook. rewrite visit_root.
  set (q := fold_left _ _ []). set (ls := pq_drain (length q) q). exists ls.
  destruct (pq_push_all (fun n : leaf => n) (leaves 0 t) [] pq_ok_nil) as [Hq Pq]. fold q in Hq, Pq.
  assert (ls ≡ₚ leaves 0 t) as P.
  { unfold ls. rewrite pq_drain_perm, Pq by done. by rewrite list_fmap_id, app_nil_r. }
  assert (StronglySorted Z.le (l_lvl <$> ls)) as Hs by (by apply sorted_fmap, pq_drain_sorted).
  assert (Forall (fun l => 0 <= l <= Z.of_nat (depth t)) (l_lvl <$> ls)) as Hmax.
  { rewrite P. apply (co_max _ _ _ Hco). }
  assert (code_order (Z.of_nat (depth t)) ls input) as Hco'.
  { split; rewrite ?P; try apply Hco.
    - apply sorted_aligned; [done |]. eapply Forall_impl; [| exact Hmax]. simpl.
      intros l Hl. split; [done | apply Z.divide_0_r]. }
  split_and!; try done.
  destruct (assign_loop (Z.of_nat (depth t)) (co_D _ _ _ Hco) ls 0 assign_init) as [_ Hcan].
  - split; simpl; lia.
  - lia.
  - apply (co_aligned _ _ _ Hco').
  - by rewrite (co_span _ _ _ Hco').
  - apply Hcan. constructor; [done |]. eapply Forall_impl; [| exact Hmax]. simpl. lia.
Qed.

Lemma head_last_lens D ls input first :
  code_order D ls input -> list.head (l_lvl <$> ls) = Some first -> list.last (l_lvl <$> ls) = Some D ->
  exists v0 v1, list.head (l_val <$> ls) = Some v0 /\ list.last (l_val <$> ls) = Some v1 /\
    (book_get (book D ls) v0).2 = first /\ (book_get (book D ls) v1).2 = D.
Proof.
  intros Hco H0 H1. rewrite head_lookup, list_lookup_fmap in H0.
  rewrite last_lookup, list_lookup_fmap, length_fmap in H1.
  destruct (ls !! 0%nat) as [n0 |] eqn:E0; [| done].
  destruct (ls !! Init.Nat.pred (length ls)) as [n1 |] eqn:E1; [| done]. simplify_eq/=.
  exists (l_val n0), (l_val n1). rewrite head_lookup, last_lookup, !list_lookup_fmap, length_fmap, E0, E1.
  by rewrite (book_lookup _ ls input Hco _ _ E0), (book_lookup _ ls input Hco _ _ E1).
Qed.

(** C10: the canonical coder round-trips too; its decoder counts the stored lengths down, so
    it also returns a memory that is not the one it was given. *)
Theorem huffman_canonical_roundtrip input :
  input <> [] -> Z.of_nat (length input) <= 2 ^ 21 -> Forall is_i32 input ->
  (size (count_freq input) < 2 ^ 16)%nat ->
  exists out size memory, huffman_encode_canonical input = Some (out, size) /\
    size = Z.of_nat (length out) /\ huffman_decode_canonical out size = Some (input, memory).
Proof.
  intros Hne Hmax Hin Hdist. destruct (build_tree_spec input Hne) as (t & Et & Hb & Hp & Hc).
  destruct (canonical_order t input Hb Hp ltac:(lia)) as (ls & Hco & Hs & Ea).
  set (D := Z.of_nat (depth t)) in *. rewrite <- (co_size D ls input Hco) in Hdist.
  destruct (canonical_lengths_spec D ls input Hco Hs Hdist)
    as (first & lens & Hh & Hl & Elens & Hlens & Hlr & _ & _ & Hdecb).
  destruct (head_last_lens D ls input first Hco Hh Hl) as (v0 & v1 & Ev0 & Ev1 & B0 & B1).
  unfold huffman_encode_canonical. rewrite Et. cbn [mbind option_bind]. rewrite Ea.
  destruct (assigned_book D ls input _ Hco eq_refl) as (Ebook & Evals & Etot).
  set (a := fold_left assign_leaf ls assign_init) in *. rewrite Ebook, Evals, Ev0, Ev1.
  cbn [mbind option_bind]. rewrite B0, B1.
  destruct (code_roundtrip D ls input Hco (a_total a) Etot Hne) as (code & -> & Hlc & Hcb & Hdec).
  cbn [mbind option_bind]. set (code_size := (a_total a + 31) / 32 * 4) in *.
  unfold huffman_store_canonical_codebook. rewrite Elens. cbn [mbind option_bind].
  rewrite <- (co_size D ls input Hco).
  pose proof (size_bound input) as Hsz. rewrite <- (co_size D ls input Hco) in Hsz.
  pose proof (total_bound D ls input Hco) as Htb. rewrite <- Etot in Htb.
  destruct (vals_i32 D ls input Hco Hin) as [Ev Hv].
  set (q := (a_total a + 31) / 32) in *.
  assert (code_size = q * 4) as Ecs by done. clearbody code_size.
  destruct (bytes_as_array 2 (Z.to_nat (q * 2)) code Hcb) as (ws & Ews & Lws & Hws); [lia |].
  assert (0 <= q < 2 ^ 30) as Hq.
  { split; [apply Z.div_pos; lia | apply Z.div_lt_upper_bound; lia]. }
  destruct (container_loads (Z.of_nat (length input)) (Z.of_nat (length ls)) code_size
    (u32 <$> (l_val <$> ls)) (lens ++ ws) []) as (L0 & L1 & L2 & L3 & L4 & L5 & _); try done; try lia.
  { by rewrite !length_fmap. }
  { by apply Forall_app. }
  rewrite app_nil_r, store_array_app, <- Ews in L0, L1, L2, L3, L4, L5.
  rewrite (length_app lens ws), Nat2Z.inj_add in L0, L5. change (Z.of_nat (length [])) with 0 in L0.
  rewrite <- app_assoc. set (out := header _ _ _ ++ _) in *. set (osize := 12 + _ + code_size).
  enough (exists memory, huffman_decode_canonical out osize = Some (input, memory)) as [memory E].
  { exists out, osize, memory. split; [done |]. split; [lia | done]. }
  unfold huffman_decode_canonical. rewrite L1, L2, L3. cbn [mbind option_bind]. rewrite L4.
  cbn [mbind option_bind].
  replace ((Z.of_nat (length out) - (12 + 4 * Z.of_nat (length ls))) / 2)
    with (Z.of_nat (length lens) + Z.of_nat (length ws)).
  2: { rewrite L0. replace (_ - _) with ((Z.of_nat (length lens) + Z.of_nat (length ws)) * 2) by lia.
       by rewrite Z.div_mul. }
  rewrite L5. cbn [mbind option_bind]. rewrite Ev, fmap_app.
  destruct (Hdecb (i16 <$> ws)) as (mid & Hmid & ->). cbn [mbind option_bind fst snd lookup list_lookup].
  rewrite (memory_code out (Z.of_nat (length ls)) first D mid ws) by (try done; lia).
  rewrite <- Ews, Hdec. by eexists.
Qed.

End canonical.

Definition sample : list Z := [1; 2; 3; 1; 1; 2; -5; 1; 1; 1; 7].

Lemma huffman_roundtrip_witness :
  exists out size, huffman_encode sample = Some (out, size) /\
    size = Z.of_nat (length out) /\ huffman_decode out size = Some sample.
Proof.
  apply (huffman_roundtrip sample); [done | simpl; lia |].
  repeat constructor; unfold is_i32; lia.
Defined.

Lemma huffman_canonical_roundtrip_witness :
  exists out size memory, huffman_encode_canonical sample = Some (out, size) /\
    size = Z.of_nat (length out) /\ huffman_decode_canonical out size = Some (sample, memory).
Proof.
  apply (huffman_canonical_roundtrip sample); [done | simpl; lia | |].
  - repeat constructor; unfold is_i32; lia.
  - replace (size (count_freq sample)) with 5%nat by (vm_compute; reflexivity).
    apply Nat.ltb_lt. vm_compute. reflexivity.
Defined.

(** Decoding a canonical container destroys it: a second decode of the memory the first
    one left fails. *)
Theorem huffman_canonical_decode_once :
  (out ← huffman_encode_canonical sample;
   first ← huffman_decode_canonical out.1 out.2;
   Some (first.1, huffman_decode_canonical first.2 out.2))
  = Some (sample, None).
Proof. vm_compute. reflexivity. Qed.

(** No code of a tree over at most 2^21 values is longer than 30 bits, so the codes fit
    the 32-bit accumulator and the table its index type: a tree whose depth is [d] weighs
    at least as much as the Fibonacci number [d + 2]. *)
Theorem huffman_depth `{Qcnt : !PriorityQueue cnt} `{Order : !MapOrder} input :
  input <> [] ->
  exists t, huffman_build_tree (count_freq input) = Some t /\
    fib (depth t + 2) <= Z.of_nat (length input) /\
    (Z.of_nat (length input) <= 2 ^ 21 -> (depth t <= 30)%nat).
Proof.
  intros Hne. destruct (build_tree_spec input Hne) as (t & E & Hb & _ & Hc).
  exists t. rewrite <- Hc. split; [done |]. split; [by apply balanced_fib | by apply tree_depth].
Qed.

Lemma huffman_depth_witness :
  exists t, huffman_build_tree (count_freq sample) = Some t /\
    fib (depth t + 2) <= Z.of_nat (length sample) /\
    (Z.of_nat (length sample) <= 2 ^ 21 -> (depth t <= 30)%nat).
Proof. apply (huffman_depth sample). done. Defined.

End Huffman.
