(* ===== verification/Hybrid.v ===== *)
(** * Hybrid: the coder that separates rare symbols

    Models [machete/hybrid.cpp]: the symbols that occur once are replaced by one of them
    and stored aside; the rest is coded with a canonical Huffman codebook.  The values of
    the codebook and the rare symbols are stored by the variable-length coder. *)

From Stdlib Require Import ZArith Lia.
From stdpp Require Import gmap sorting.
From S2P Require Import Prelude Bits Bytes BitStream Ovlq Stl Huffman.

Module Hybrid.
Import Huffman.

(** What [hybrid_data_partition] leaves: the input with the rare symbols replaced, the
    low-redundancy data, the number of rare symbols, the symbol that stands for them, the
    codebook and the length of the code. *)
Record partition := {
  p_input : list Z;
  p_low : list Z;
  p_rare_cnt : Z;
  p_rare_sym : Z;
  p_book : EncodeCodebook;
  p_total : Z
}.

(** [freq[x]] inserts a zero when the key is missing. *)
Definition touch (freq : gmap Z Z) (x : Z) : gmap Z Z :=
  match freq !! x with Some _ => freq | None => <[x := 0]> freq end.

(** The loop that replaces the rare symbols: the new input, the symbols taken out and the
    frequencies left. *)
Fixpoint extract (rare_sym : Z) (freq : gmap Z Z) (input : list Z)
    : list Z * list Z * gmap Z Z :=
  match input with
  | [] => ([], [], freq)
  | x :: input =>
      let freq := touch freq x in
      if default 0 (freq !! x) =? 1 then
        let '(input, rare, freq) := extract rare_sym (delete x freq) input in
        (rare_sym :: input, x :: rare, freq)
      else
        let '(input, rare, freq) := extract rare_sym freq input in
        (x :: input, rare, freq)
  end.

Section coder.

Context `{Qcnt : !PriorityQueue cnt} `{Qlvl : !PriorityQueue l_lvl} `{Order : !MapOrder}.

(** [ctz0] is [__builtin_ctz(0)]; [junk] is the value of the uninitialised [rare_sym]. *)
Variables (ctz0 junk : Z).

Definition hybrid_data_partition (input : list Z) : option partition :=
  let freq := count_freq input in
  let '(rare_sym, rare_cnt) :=
    fold_left (fun s f => if f.2 =? 1 then (if s.2 =? 0 then f.1 else s.1, s.2 + 1) else s)
      (map_order freq) (junk, 0) in
  let '(rare_cnt, input', rare, freq') :=
    if rare_cnt <=? 1 then (0, input, [], freq)
    else
      let '(input', rare, freq') := extract rare_sym freq input in
      (rare_cnt, input', rare, <[rare_sym := rare_cnt]> freq') in
  root ← huffman_build_tree freq';
  let a := huffman_build_canonical_encode_codebook root in
  Some {| p_input := input'; p_low := a_vals a ++ rare; p_rare_cnt := rare_cnt;
          p_rare_sym := rare_sym; p_book := a_book a; p_total := a_total a |}.

(** The bytes stored, and the size returned.  The caller's array is left with the rare
    symbols replaced, [p_input] of the partition. *)
Definition hybrid_encode (input : list Z) : option (list Z * Z) :=
  p ← hybrid_data_partition input;
  let code_size := (p_total p + 31) / 32 * 4 in
  let val_cnt := size (p_book p) in
  v0 ← p_low p !! 0%nat;
  v1 ← p_low p !! (val_cnt - 1)%nat;
  let min_code_bitlen := (book_get (p_book p) v0).2 in
  let max_code_bitlen := (book_get (p_book p) v1).2 in
  ovlq ← Ovlq.ovlq_encode ctz0 (p_low p);
  let tree_size := (max_code_bitlen - min_code_bitlen + 3) * 2 in
  let osize := 24 + tree_size + ovlq.2 + code_size in
  tree ← canonical_lengths (p_book p) (take val_cnt (p_low p));
  code ← huffman_store_code (p_book p) (p_input p) code_size;
  Some (le_bytes 4 (Z.of_nat (length input)) ++ le_bytes 4 (p_rare_cnt p)
          ++ le_bytes 4 (u32 (p_rare_sym p)) ++ le_bytes 4 (Z.of_nat val_cnt)
          ++ le_bytes 4 code_size ++ le_bytes 4 ovlq.2
          ++ store_array 2 tree ++ ovlq.1 ++ code, osize).

End coder.

(** The last loop of the decoder puts the rare symbols back. *)
Fixpoint restore (rare_sym : Z) (rare : list Z) (output : list Z) : option (list Z) :=
  match output with
  | [] => Some []
  | x :: output =>
      if x =? rare_sym then
        match rare with
        | [] => None
        | r :: rare => l ← restore rare_sym rare output; Some (r :: l)
        end
      else l ← restore rare_sym rare output; Some (x :: l)
  end.

(** The array of code lengths may run into the bytes that follow it: all the 16-bit
    integers up to the end are loaded, and stored back. *)
Definition hybrid_decode (ctz0 : Z) (input : list Z) (len : Z) : option (list Z) :=
  data_len ← load 4 input 0;
  rare_cnt ← load 4 input 4;
  rare_sym ← load 4 input 8;
  val_cnt ← load 4 input 12;
  code_size ← load 4 input 16;
  ovlq_size ← load 4 input 20;
  tree ← load_n 2 input 24 ((Z.of_nat (length input) - 24) / 2);
  let tree := i16 <$> tree in
  b1 ← tree !! 1%nat;
  b0 ← tree !! 0%nat;
  let ovlq_off := 24 + (b1 - b0 + 3) * 2 in
  ovlq_out ← slice input ovlq_off ovlq_size;
  low ← Ovlq.ovlq_decode ctz0 ovlq_out ovlq_size;
  tb ← huffman_build_decode_codebook_canonical (take (Z.to_nat val_cnt) low) tree;
  let memory := take 24 input ++ store_array 2 (u16 <$> tb.2) in
  out ← huffman_decode_data (drop (Z.to_nat (ovlq_off + ovlq_size)) memory) code_size
          tb.1.1 tb.1.2 data_len;
  if rare_cnt =? 0 then Some out
  else restore (i32 rare_sym) (drop (Z.to_nat val_cnt) low) out.

(** ** The partition *)

Definition b2z (b : bool) : Z := if b then 1 else 0.

Lemma b2z_nonneg b : 0 <= b2z b.
Proof. destruct b; simpl; lia. Qed.

Definition sum (f : Z -> Z) (l : list Z) : Z := foldr (fun x t => f x + t) 0 l.

Definition occ (v : Z) : list Z -> Z := sum (fun x => b2z (x =? v)).

Lemma sum_nonneg f l : (forall x, 0 <= f x) -> 0 <= sum f l.
Proof. intros Hf. induction l as [| x l IH]; simpl; [lia |]. specialize (Hf x). lia. Qed.

Lemma sum_ext f g l : (forall x, x ∈ l -> f x = g x) -> sum f l = sum g l.
Proof.
  induction l as [| x l IH]; intros Hf; simpl; [done |].
  rewrite (Hf x), IH by set_solver. done.
Qed.

Lemma sum_fmap f (h : Z -> Z) l : sum f (h <$> l) = sum (f ∘ h) l.
Proof. induction l as [| x l IH]; [done |]. rewrite fmap_cons. simpl. by rewrite IH. Qed.

Lemma occ_elem v l : v ∈ l <-> 1 <= occ v l.
Proof.
  unfold occ. induction l as [| x l IH]; simpl; [rewrite elem_of_nil; lia |].
  assert (0 <= sum (fun x => b2z (x =? v)) l) by (apply sum_nonneg; intros; apply b2z_nonneg).
  rewrite elem_of_cons, IH. destruct (Z.eqb_spec x v); simpl b2z; intuition lia.
Qed.

Lemma count_freq_occ input v :
  count_freq input !! v = if occ v input =? 0 then None else Some (occ v input).
Proof.
  induction input as [| x input IH] using rev_ind; [done |]. rewrite count_freq_snoc.
  assert (occ v (input ++ [x]) = occ v input + b2z (x =? v)) as ->.
  { unfold occ. clear. induction input; simpl in *; lia. }
  assert (0 <= occ v input) by (apply sum_nonneg; intros; apply b2z_nonneg).
  destruct (Z.eqb_spec x v) as [-> | Hne]; simpl b2z.
  - rewrite lookup_insert, decide_True, IH by done.
    destruct (Z.eqb_spec (occ v input) 0) as [E | E], (Z.eqb_spec (occ v input + 1) 0); try lia;
      simpl; f_equal; lia.
  - rewrite lookup_insert_ne, IH, Z.add_0_r by done. done.
Qed.

(** The symbols that occur once, as seen by [freq]. *)
Definition is_rare (freq : gmap Z Z) (x : Z) : bool := default 0 (freq !! x) =? 1.

Definition replaced (freq : gmap Z Z) (sym x : Z) : Z := if is_rare freq x then sym else x.

Definition rares (freq : gmap Z Z) (l : list Z) : list Z :=
  foldr (fun x t => if is_rare freq x then x :: t else t) [] l.

(** The loop, on a suffix [l] of the input. *)
Lemma extract_spec C sym l : forall freq,
  (forall x, x ∈ l -> freq !! x = C !! x /\ is_Some (C !! x) /\ (is_rare C x = true -> occ x l = 1)) ->
  exists freq', extract sym freq l = (replaced C sym <$> l, rares C l, freq') /\
    forall v, freq' !! v = if bool_decide (v ∈ l) && is_rare C v then None else freq !! v.
Proof.
  induction l as [| x l IH]; intros freq Hl; [by exists freq |].
  destruct (Hl x ltac:(set_solver)) as (Hx & [c Hc] & Hocc). cbn [extract].
  assert (touch freq x = freq) as -> by (unfold touch; by rewrite Hx, Hc).
  rewrite fmap_cons. unfold replaced at 1. cbn [rares foldr]. fold (rares C l).
  change (default 0 (freq !! x) =? 1) with (is_rare freq x).
  assert (is_rare freq x = is_rare C x) as -> by (unfold is_rare; by rewrite Hx).
  destruct (is_rare C x) eqn:Er.
  - assert (x ∉ l) as Hni.
    { intros Hin%occ_elem. specialize (Hocc eq_refl). unfold occ in *. simpl in Hocc.
      rewrite Z.eqb_refl in Hocc. simpl in Hocc. lia. }
    destruct (IH (delete x freq)) as (freq' & -> & Hf).
    { intros y Hy. destruct (Hl y ltac:(set_solver)) as (Hy1 & Hy2 & Hy3).
      assert (y <> x) by (intros ->; done). rewrite lookup_delete_ne by done. split_and!; try done.
      intros Hr. specialize (Hy3 Hr). unfold occ in *. simpl in Hy3.
      rewrite (proj2 (Z.eqb_neq x y)) in Hy3 by done. done. }
    exists freq'. split; [done |]. intros v. rewrite Hf.
    destruct (decide (v = x)) as [-> | Hne].
    + rewrite lookup_delete_eq, Er. rewrite (bool_decide_eq_true_2 (x ∈ x :: l)) by set_solver.
      simpl. by case_match.
    + rewrite lookup_delete_ne by done.
      replace (bool_decide (v ∈ x :: l)) with (bool_decide (v ∈ l)); [done |].
      apply bool_decide_ext. set_solver.
  - destruct (IH freq) as (freq' & -> & Hf).
    { intros y Hy. destruct (Hl y ltac:(set_solver)) as (Hy1 & Hy2 & Hy3). split_and!; try done.
      intros Hr. specialize (Hy3 Hr). unfold occ in *. simpl in Hy3.
      assert (x <> y) by (intros ->; congruence). rewrite (proj2 (Z.eqb_neq x y)) in Hy3 by done. done. }
    exists freq'. split; [done |]. intros v. rewrite Hf. destruct (decide (v = x)) as [-> | Hne].
    + by rewrite Er, !andb_false_r.
    + replace (bool_decide (v ∈ x :: l)) with (bool_decide (v ∈ l)); [done |].
      apply bool_decide_ext. set_solver.
Qed.

(** Putting the rare symbols back undoes the replacement. *)
Lemma restore_replaced C sym l :
  is_rare C sym = true -> restore sym (rares C l) (replaced C sym <$> l) = Some l.
Proof.
  intros Hs. induction l as [| x l IH]; [done |]. rewrite fmap_cons. cbn [restore rares foldr].
  unfold replaced at 1. fold (rares C l). destruct (is_rare C x) eqn:Er.
  - rewrite Z.eqb_refl. rewrite IH. done.
  - rewrite (proj2 (Z.eqb_neq x sym)) by (intros ->; congruence). rewrite IH. unfold replaced. simpl. by rewrite Er.
Qed.

(** The loop over the frequencies: how many symbols are rare, and one of them. *)
Lemma count_rares (l : list (Z * Z)) : forall s : Z * Z,
  0 <= s.2 ->
  let r := fold_left (fun s f => if f.2 =? 1 then (if s.2 =? 0 then f.1 else s.1, s.2 + 1) else s) l s in
  r.2 = s.2 + foldr (fun e t => b2z (e.2 =? 1) + t) 0 l /\
  (r = s \/ (s.2 <> 0 /\ r.1 = s.1) \/ (r.1, 1) ∈ l).
Proof.
  induction l as [| [v c] l IH]; intros s Hs; simpl; [split; [lia | by left] |].
  destruct (Z.eqb_spec c 1) as [-> | Hc]; simpl b2z.
  - destruct (IH (if s.2 =? 0 then v else s.1, s.2 + 1)) as [I1 I2]; [simpl; lia |].
    split; [rewrite I1; simpl; lia |].
    destruct I2 as [I2 | [[_ I2] | I2]]; [rewrite I2 | rewrite I2 |].
    1, 2: simpl; destruct (Z.eqb_spec s.2 0); [right; right; set_solver | right; left; done].
    right; right. set_solver.
  - destruct (IH s Hs) as [I1 I2]. split; [rewrite I1; lia |].
    destruct I2 as [I2 | [I2 | I2]]; [by left | by right; left |]. right; right. set_solver.
Qed.

Section partition.

Context `{Qcnt : !PriorityQueue cnt} `{Qlvl : !PriorityQueue l_lvl} `{Order : !MapOrder}.

Lemma rare_count input :
  foldr (fun e t => b2z (e.2 =? 1) + t) 0 (map_order (count_freq input))
  = sum (fun x => b2z (is_rare (count_freq input) x)) input.
Proof.
  set (C := count_freq input).
  assert (sum (fun x => b2z (is_rare C x)) input
          = weigh (fun x => b2z (is_rare C x)) (map_to_list C)) as ->
    by (symmetry; apply weigh_count_freq).
  assert (forall l, l ⊆ map_to_list C ->
    foldr (fun e t => b2z (e.2 =? 1) + t) 0 l = weigh (fun x => b2z (is_rare C x)) l) as H.
  { induction l as [| [v c] l IH]; intros Hl; [done |]. simpl. rewrite IH by set_solver.
    assert (C !! v = Some c) as Hv by (apply elem_of_map_to_list; set_solver).
    unfold is_rare at 2. rewrite Hv. simpl. destruct (Z.eqb_spec c 1) as [-> |]; simpl; lia. }
  rewrite H by (rewrite map_order_perm; done). by rewrite map_order_perm.
Qed.

(** What the partition hands to the rest of the encoder. *)
Definition partition_ok (input : list Z) (input' rare : list Z) (cnt sym : Z) : Prop :=
  length input' = length input /\ 0 <= cnt <= Z.of_nat (length input) /\
  Z.of_nat (length rare) = cnt /\ (forall x, x ∈ input' ++ rare -> x ∈ input) /\
  (if cnt =? 0 then input' = input else restore sym rare input' = Some input /\ sym ∈ input).

Lemma rares_length C l : Z.of_nat (length (rares C l)) = sum (fun x => b2z (is_rare C x)) l.
Proof.
  induction l as [| x l IH]; [done |]. cbn [rares foldr sum]. fold (rares C l).
  fold (sum (fun x => b2z (is_rare C x)) l). destruct (is_rare C x); simpl; lia.
Qed.

Lemma rares_le C l : (length (rares C l) <= length l)%nat.
Proof.
  induction l as [| x l IH]; [done |]. cbn [rares foldr]. fold (rares C l).
  destruct (is_rare C x); simpl; lia.
Qed.

Lemma rares_elem C l x : x ∈ rares C l -> x ∈ l.
Proof.
  induction l as [| y l IH]; [done |]. cbn [rares foldr]. fold (rares C l).
  destruct (is_rare C y); set_solver.
Qed.

(** After the replacement the frequencies are those of the new input. *)
Lemma extract_freq input sym :
  let C := count_freq input in
  is_rare C sym = true ->
  exists freq', extract sym C input = (replaced C sym <$> input, rares C input, freq') /\
    <[sym := Z.of_nat (length (rares C input))]> freq' = count_freq (replaced C sym <$> input).
Proof.
  intros C Hsym. destruct (extract_spec C sym input C) as (freq' & E & Hf).
  { intros x Hx. split; [done |]. split; [by apply (count_freq_spec input) |].
    unfold is_rare, C. rewrite count_freq_occ. destruct (Z.eqb_spec (occ x input) 0); simpl; [done |].
    intros Hr%Z.eqb_eq. done. }
  exists freq'. split; [done |]. apply map_eq. intros v. rewrite count_freq_occ, rares_length.
  unfold occ. rewrite sum_fmap. destruct (decide (v = sym)) as [-> | Hne].
  - rewrite lookup_insert, decide_True by done.
    rewrite (sum_ext ((fun x => b2z (x =? sym)) ∘ replaced C sym) (fun x => b2z (is_rare C x))).
    + destruct (Z.eqb_spec (sum (fun x => b2z (is_rare C x)) input) 0) as [E0 | E0]; [| done].
      exfalso. assert (sym ∈ input) as Hin.
      { apply (count_freq_spec input). unfold is_rare in Hsym. fold C. destruct (C !! sym); [done |]. done. }
      clearbody C. clear -E0 Hin Hsym. induction input as [| x l IH]; [by apply elem_of_nil in Hin |].
      change (b2z (is_rare C x) + sum (fun x => b2z (is_rare C x)) l = 0) in E0.
      pose proof (sum_nonneg (fun x => b2z (is_rare C x)) l ltac:(intros; apply b2z_nonneg)).
      pose proof (b2z_nonneg (is_rare C x)).
      apply elem_of_cons in Hin as [-> | Hin]; [rewrite Hsym in *; simpl in *; lia |].
      apply IH; [lia | done].
    + intros x Hx. unfold replaced. simpl. destruct (is_rare C x) eqn:Er; [by rewrite Z.eqb_refl |].
      rewrite (proj2 (Z.eqb_neq x sym)); [done |]. intros ->. congruence.
  - rewrite lookup_insert_ne, Hf by done. destruct (is_rare C v) eqn:Er.
    + rewrite andb_true_r. rewrite (sum_ext _ (fun _ => 0)).
      * assert (sum (fun _ => 0) input = 0) as -> by (clear; induction input; simpl; lia). simpl.
        case_bool_decide as Hv; [done |]. unfold C. rewrite count_freq_occ.
        destruct (Z.eqb_spec (occ v input) 0); [done |]. exfalso. apply Hv, occ_elem.
        pose proof (sum_nonneg (fun x => b2z (x =? v)) input ltac:(intros; apply b2z_nonneg)).
        unfold occ in *. lia.
      * intros x Hx. unfold replaced. simpl. destruct (is_rare C x) eqn:Ex.
        -- by rewrite (proj2 (Z.eqb_neq sym v)) by done.
        -- rewrite (proj2 (Z.eqb_neq x v)); [done |]. intros ->. congruence.
    + rewrite andb_false_r. unfold C. rewrite count_freq_occ. unfold occ.
      rewrite (sum_ext ((fun x => b2z (x =? v)) ∘ replaced (count_freq input) sym) (fun x => b2z (x =? v))); [done |].
      intros x Hx. unfold replaced. simpl. destruct (is_rare (count_freq input) x) eqn:Ex; [| done].
      rewrite (proj2 (Z.eqb_neq sym v)), (proj2 (Z.eqb_neq x v)); [done | | done].
      intros ->. unfold C in Er. congruence.
Qed.

Lemma partition_spec junk input :
  input <> [] -> Z.of_nat (length input) <= 2 ^ 21 ->
  exists p D ls rare, hybrid_data_partition junk input = Some p /\
    code_order D ls (p_input p) /\ StronglySorted Z.le (l_lvl <$> ls) /\
    p_book p = book D ls /\ p_low p = (l_val <$> ls) ++ rare /\
    p_total p = weigh (fun x => x) ((fun n => (l_lvl n, l_cnt n)) <$> ls) /\
    partition_ok input (p_input p) rare (p_rare_cnt p) (p_rare_sym p) /\
    (p_rare_sym p = junk \/ p_rare_sym p ∈ input).
Proof.
  intros Hne Hmax. set (C := count_freq input).
  destruct (count_rares (map_order C) (junk, 0)) as [Hcnt Hsym]; [done |].
  unfold hybrid_data_partition. fold C.
  set (r := fold_left _ (map_order C) (junk, 0)) in *. clearbody r. destruct r as [sym cnt].
  simpl in Hcnt, Hsym. unfold C in Hcnt. rewrite rare_count in Hcnt. fold C in Hcnt.
  assert (sym = junk \/ is_rare C sym = true) as Hs.
  { destruct Hsym as [[= -> _] | [[? _] | Hin]]; [by left | done |]. right.
    rewrite map_order_perm in Hin. apply elem_of_map_to_list in Hin. unfold is_rare. by rewrite Hin. }
  assert (forall x, is_rare C x = true -> x ∈ input) as Hrin.
  { intros x Hx. apply (count_freq_spec input). unfold is_rare in Hx. fold C. by destruct (C !! x). }
  assert (sym = junk \/ sym ∈ input) as Hs' by (destruct Hs; auto).
  assert (exists input' rare rc freq',
    (if cnt <=? 1 then (0, input, [], C)
     else let '(input', rare, freq') := extract sym C input in
          (cnt, input', rare, <[sym := cnt]> freq')) = (rc, input', rare, freq') /\
    freq' = count_freq input' /\ partition_ok input input' rare rc sym)
    as (input' & rare & rc & freq' & -> & -> & Hok).
  { destruct (Z.leb_spec cnt 1) as [H1 | H1].
    - exists input, [], 0, C. split; [done |]. split; [done |]. split_and!; try done; [lia | set_solver].
    - assert (is_rare C sym = true) as Hr.
      { destruct Hsym as [[= _ E] | [[? _] | Hin]]; [lia | done |].
        rewrite map_order_perm in Hin. apply elem_of_map_to_list in Hin. unfold is_rare. by rewrite Hin. }
      destruct (extract_freq input sym Hr) as (freq' & Ee & Ef). fold C in Ee, Ef. rewrite Ee.
      pose proof (rares_length C input) as Hl. 
      eexists _, _, _, _. split; [done |]. split; [rewrite <- Ef; f_equal; lia |].
      pose proof (rares_le C input).
      split_and!; try done; try lia.
      + by rewrite length_fmap.
      + intros x [Hx | Hx]%elem_of_app; [| by eapply rares_elem].
        apply list_elem_of_fmap in Hx as (y & -> & Hy). unfold replaced. destruct (is_rare C y); auto.
      + rewrite (proj2 (Z.eqb_neq cnt 0)) by lia. split; [by apply restore_replaced | auto]. }
  destruct Hok as (Hl & Hok). assert (input' <> []) as Hne' by (intros ->; by destruct input).
  destruct (build_tree_spec input' Hne') as (t & -> & Hb & Hp & Hc). cbn [mbind option_bind].
  destruct (canonical_order t input' Hb Hp ltac:(lia)) as (ls & Hco & Hsort & ->).
  destruct (assigned_book _ ls input' _ Hco eq_refl) as (Ebook & Evals & Etot).
  eexists _, (Z.of_nat (depth t)), ls, rare. split; [done |]. simpl. rewrite Ebook, Evals, Etot.
  split_and!; try done. 
Qed.

End partition.

(** ** The container *)

Definition words6 (a b c d e f : Z) : list Z :=
  le_bytes 4 a ++ le_bytes 4 b ++ le_bytes 4 c ++ le_bytes 4 d ++ le_bytes 4 e ++ le_bytes 4 f.

Lemma words6_loads a b c d e f tl :
  Forall is_u32 [a; b; c; d; e; f] ->
  let out := words6 a b c d e f ++ tl in
  length (words6 a b c d e f) = 24%nat /\
  load 4 out 0 = Some a /\ load 4 out 4 = Some b /\ load 4 out 8 = Some c /\
  load 4 out 12 = Some d /\ load 4 out 16 = Some e /\ load 4 out 20 = Some f.
Proof.
  intros H out. repeat (apply Forall_cons_iff in H as [? H]). unfold out, words6.
  rewrite <- !app_assoc. split_and!.
  - by rewrite !length_app, !length_le_bytes.
  - by eapply (load_at 4 4 _ []).
  - by eapply (load_at 4 4 _ (le_bytes 4 a)); rewrite ?length_le_bytes.
  - by eapply (load_at 4 4 _ (le_bytes 4 a ++ le_bytes 4 b));
      rewrite ?length_app, ?length_le_bytes, <- ?app_assoc.
  - by eapply (load_at 4 4 _ (le_bytes 4 a ++ le_bytes 4 b ++ le_bytes 4 c));
      rewrite ?length_app, ?length_le_bytes, <- ?app_assoc.
  - by eapply (load_at 4 4 _ (le_bytes 4 a ++ le_bytes 4 b ++ le_bytes 4 c ++ le_bytes 4 d));
      rewrite ?length_app, ?length_le_bytes, <- ?app_assoc.
  - by eapply (load_at 4 4 _ (le_bytes 4 a ++ le_bytes 4 b ++ le_bytes 4 c ++ le_bytes 4 d ++ le_bytes 4 e));
      rewrite ?length_app, ?length_le_bytes, <- ?app_assoc.
Qed.

(** The decoder on a container with these parts. *)
Lemma decode_container ctz0 size len rc sym n cs lens ov code first D tbl low out' :
  Forall is_u32 [len; rc; sym; n; cs; Z.of_nat (length ov)] ->
  Forall (fun x => 0 <= x < 2 ^ (8 * Z.of_nat 2)) lens ->
  Forall is_byte ov -> (exists k, length ov = (2 * k)%nat) ->
  Forall is_byte code -> (exists k, length code = (2 * k)%nat) ->
  Z.of_nat (length lens) = D - first + 3 ->
  (i16 <$> lens) !! 0%nat = Some first -> (i16 <$> lens) !! 1%nat = Some D ->
  Ovlq.ovlq_decode ctz0 ov (Z.of_nat (length ov)) = Some low ->
  (forall rest, exists mid, length lens = (length mid + 2)%nat /\
     huffman_build_decode_codebook_canonical (take (Z.to_nat n) low) ((i16 <$> lens) ++ rest)
     = Some (tbl, D, first :: D :: mid ++ rest)) ->
  huffman_decode_data code cs tbl D len = Some out' ->
  hybrid_decode ctz0
    (words6 len rc sym n cs (Z.of_nat (length ov)) ++ store_array 2 lens ++ ov ++ code) size
  = if rc =? 0 then Some out' else restore (i32 sym) (drop (Z.to_nat n) low) out'.
Proof.
  intros Hu Hlr Hob [ko Hko] Hcb [kc Hkc] Hlens H0 H1 Hov Hbuild Hdec.
  destruct (bytes_as_array 2 ko ov Hob Hko) as (wo & Eo & Lo & Ho).
  destruct (bytes_as_array 2 kc code Hcb Hkc) as (wc & Ec & Lc & Hc).
  destruct (words6_loads _ _ _ _ _ _ (store_array 2 lens ++ ov ++ code) Hu)
    as (L24 & L0 & L1 & L2 & L3 & L4 & L5).
  set (h := words6 len rc sym n cs (Z.of_nat (length ov))) in *.
  set (input := h ++ store_array 2 lens ++ ov ++ code) in *.
  assert (Z.of_nat (length input) = 24 + 2 * Z.of_nat (length (lens ++ wo ++ wc))) as Hlen.
  { unfold input. rewrite !length_app, L24, length_store_array. lia. }
  unfold hybrid_decode. rewrite L0, L1, L2, L3, L4, L5. cbn [mbind option_bind].
  replace ((Z.of_nat (length input) - 24) / 2) with (Z.of_nat (length (lens ++ wo ++ wc)))
    by (rewrite Hlen; replace (_ - 24) with (Z.of_nat (length (lens ++ wo ++ wc)) * 2) by lia;
        by rewrite Z.div_mul).
  rewrite (load_n_at 2 input h (lens ++ wo ++ wc) []).
  2: { unfold input. rewrite app_nil_r, !store_array_app, <- Eo, <- Ec. done. }
  2: { by rewrite L24. } 2: done.
  2: { apply Forall_app. split; [done |]. by apply Forall_app. }
  cbn [mbind option_bind]. rewrite fmap_app.
  rewrite !lookup_app_l by (rewrite length_fmap; apply lookup_lt_Some in H1; rewrite length_fmap in H1; lia).
  rewrite H0, H1. cbn [mbind option_bind].
  assert (slice input (24 + (D - first + 3) * 2) (Z.of_nat (length ov)) = Some ov) as ->.
  { unfold input. rewrite app_assoc. apply slice_app; [| done].
    rewrite length_app, L24, length_store_array. lia. }
  cbn [mbind option_bind]. rewrite Hov. cbn [mbind option_bind].
  destruct (Hbuild (i16 <$> (wo ++ wc))) as (mid & Hmid & ->). cbn [mbind option_bind fst snd].
  assert (drop (Z.to_nat (24 + (D - first + 3) * 2 + Z.of_nat (length ov)))
    (take 24 input ++ store_array 2 (u16 <$> first :: D :: mid ++ (i16 <$> (wo ++ wc)))) = code) as ->.
  { pose proof (memory_code input 3 first D mid (wo ++ wc) 24 (24 + (D - first + 3) * 2)) as M.
    change (Z.to_nat 24) with 24%nat in M.
    rewrite Z2Nat.inj_add, Nat2Z.id, <- drop_drop by lia.
    rewrite M; [| lia | lia | lia | by apply Forall_app | lia].
    rewrite store_array_app, <- Eo, <- Ec. apply drop_app_length. }
  by rewrite Hdec.
Qed.

Section roundtrip.

Context `{Qcnt : !PriorityQueue cnt} `{Qlvl : !PriorityQueue l_lvl} `{Order : !MapOrder}.
Variables (ctz0 junk : Z).

(** The correctness of the coder, for its clients. *)
Lemma hybrid_correct input :
  input <> [] -> Z.of_nat (length input) < 2 ^ 16 -> Forall is_i32 input ->
  ctz0 = 32 \/ Forall (fun x => Ovlq.data_bitlen x < 32) input ->
  exists out size, hybrid_encode ctz0 junk input = Some (out, size) /\
    size = Z.of_nat (length out) /\ load 4 out 0 = Some (Z.of_nat (length input)) /\
    hybrid_decode ctz0 out size = Some input.
Proof.
  intros Hne Hmax Hin Hctz.
  destruct (partition_spec junk input Hne ltac:(lia))
    as (p & D & ls & rare & Ep & Hco & Hs & Ebook & Elow & Etot & Hok & Hsym).
  destruct Hok as (Hlen' & Hcnt & Hrl & Hsub & Hrest).
  assert (p_input p <> []) as Hne' by (intros E; rewrite E in Hlen'; by destruct input).
  pose proof (size_bound (p_input p)) as Hsz. rewrite <- (co_size D ls _ Hco), Hlen' in Hsz.
  assert (length ls < 2 ^ 16)%nat as Hdist.
  { apply Nat2Z.inj_lt. rewrite Nat2Z.inj_pow. change (Z.of_nat 2 ^ Z.of_nat 16) with (2 ^ 16). lia. }
  destruct (canonical_lengths_spec D ls _ Hco Hs Hdist)
    as (first & lens & Hh & Hl & Elens & Hlens & Hlr & I0 & I1 & Hdecb).
  destruct (head_last_lens D ls _ first Hco Hh Hl) as (v0 & v1 & Ev0 & Ev1 & B0 & B1).
  destruct (code_roundtrip D ls _ Hco _ eq_refl Hne') as (code & Ecode & Hlc & Hcb & Hdec).
  rewrite <- Etot in Ecode, Hlc, Hdec.
  assert (Forall (fun x => x ∈ input) (p_low p)) as Hlowin.
  { rewrite Elow. apply list.Forall_forall. intros x [Hx | Hx]%elem_of_app; apply Hsub, elem_of_app; [left | by right].
    rewrite (proj2 (co_vals D ls _ Hco)) in Hx. apply list_elem_of_fmap in Hx as ([v c] & -> & Hx%elem_of_map_to_list).
    apply (count_freq_spec (p_input p)). simpl. by rewrite Hx. }
  assert (Forall is_i32 (p_low p)) as Hlow32.
  { rewrite list.Forall_forall in Hin. eapply Forall_impl; [| exact Hlowin]. exact Hin. }
  assert (p_low p !! 0%nat = Some v0) as Ep0.
  { rewrite Elow, lookup_app_l, <- head_lookup; [done |].
    rewrite head_lookup in Ev0. by apply lookup_lt_Some in Ev0. }
  assert (p_low p !! (length ls - 1)%nat = Some v1) as Ep1.
  { rewrite last_lookup, length_fmap in Ev1. rewrite Elow, lookup_app_l.
    - by replace (length ls - 1)%nat with (Init.Nat.pred (length ls)) by lia.
    - apply lookup_lt_Some in Ev1. rewrite length_fmap in *. lia. }
  assert (take (length ls) (p_low p) = l_val <$> ls /\ drop (length ls) (p_low p) = rare) as [Etk Edr].
  { rewrite Elow. split; [apply take_app_length' | apply drop_app_length']; by rewrite length_fmap. }
  assert (length (p_low p) = (length ls + length rare)%nat) as Hll by (by rewrite Elow, length_app, length_fmap).
  destruct (Ovlq.ovlq_correct ctz0 (p_low p)) as (ov & osz & Eov & Hosz & _ & Hob & [k Hk] & Hosz' & Hovd).
  { intros E. by rewrite E in Ep0. } { lia. } { done. }
  { destruct Hctz as [Hz | Hsmall]; [by left | right]. rewrite list.Forall_forall in Hsmall.
    eapply Forall_impl; [| exact Hlowin]. exact Hsmall. }
  unfold hybrid_encode. rewrite Ep. cbn [mbind option_bind]. rewrite Ebook, (book_size D ls _ Hco).
  rewrite Ep0, Ep1. cbn [mbind option_bind]. rewrite Eov. cbn [mbind option_bind fst snd].
  rewrite Etk, Elens, Ecode. cbn [mbind option_bind]. rewrite B0, B1.
  pose proof (total_bound D ls _ Hco) as Htb. rewrite <- Etot, Hlen' in Htb.
  set (q := (p_total p + 31) / 32) in *.
  assert (0 <= q < 2 ^ 30) as Hq.
  { split; [apply Z.div_pos; lia | apply Z.div_lt_upper_bound; lia]. }
  set (out := words6 (Z.of_nat (length input)) (p_rare_cnt p) (u32 (p_rare_sym p))
    (Z.of_nat (length ls)) (q * 4) osz ++ store_array 2 lens ++ ov ++ code).
  assert (Forall is_u32 [Z.of_nat (length input); p_rare_cnt p; u32 (p_rare_sym p);
    Z.of_nat (length ls); q * 4; osz]) as Hu32.
  { repeat constructor; unfold is_u32; try apply u32_range; lia. }
  exists out, (24 + (D - first + 3) * 2 + osz + q * 4).
  split; [unfold out, words6; by rewrite <- !app_assoc |].
  destruct (words6_loads _ _ _ _ _ _ (store_array 2 lens ++ ov ++ code) Hu32) as (L24 & L0 & _).
  split; [unfold out; rewrite !length_app, L24, length_store_array; lia |]. split; [done |].
  rewrite Hosz in Hu32, Hovd. unfold out. rewrite Hosz at 1.
  rewrite (decode_container ctz0 _ _ _ _ _ _ lens ov code first D (table D ls) (p_low p) (p_input p));
    try done; try lia.
  - rewrite Nat2Z.id, Edr. destruct (p_rare_cnt p =? 0); [by rewrite Hrest |].
    destruct Hrest as [Hr Hin']. rewrite i32_u32; [done |]. rewrite list.Forall_forall in Hin. by apply Hin.
  - exists (2 * k)%nat. lia.
  - exists (Z.to_nat (q * 2)). lia.
  - rewrite Nat2Z.id, Etk. exact Hdecb.
  - by rewrite <- Hlen'.
Qed.

(** C11: the hybrid coder round-trips: the rare symbols set aside come back in their places,
    for every priority queue, every order of the frequency table, and whatever the
    uninitialised symbol is. *)
Theorem hybrid_roundtrip input :
  input <> [] -> Z.of_nat (length input) < 2 ^ 16 -> Forall is_i32 input ->
  ctz0 = 32 \/ Forall (fun x => Ovlq.data_bitlen x < 32) input ->
  exists out size, hybrid_encode ctz0 junk input = Some (out, size) /\
    size = Z.of_nat (length out) /\ hybrid_decode ctz0 out size = Some input.
Proof.
  intros Hne Hmax Hin Hctz.
  destruct (hybrid_correct input Hne Hmax Hin Hctz) as (out & size & E & L & _ & D). eauto.
Qed.

End roundtrip.

Lemma hybrid_roundtrip_witness :
  exists out size,
    hybrid_encode 32 0 [1; 2; 3; 1; 1; 2; -2147483648; 1; 1; 1; 7] = Some (out, size) /\
    size = Z.of_nat (length out) /\
    hybrid_decode 32 out size = Some [1; 2; 3; 1; 1; 2; -2147483648; 1; 1; 1; 7].
Proof.
  apply (hybrid_roundtrip 32 0); [done | simpl; lia | | by left].
  repeat constructor; unfold is_i32; lia.
Defined.


End Hybrid.
