(* ===== verification/Lorenzo.v ===== *)
(** * Lorenzo: the predictor of Machete

    Models [machete/predict.cpp]: every double is replaced by the number of steps of width
    [2 * 0.999 * error] that leads from the predicted value nearest to it; a value that is
    too far away, or not a number, is kept as an outlier.

    The theorem is about what the user gets back: the decoder recomputes exactly the
    sequence of predictions of the encoder, bit for bit. *)

From Stdlib Require Import ZArith Lia.
From S2P Require Import Prelude Bytes Float64.

Module Lorenzo.

(** The literals 0.999 and 2. *)
Definition f64_0_999 : Z := 0x3feff7ced916872b.
Definition f64_2 : Z := 0x4000000000000000.

(** [1L << 63] *)
Definition DOUBLE_SIGN_BIT : Z := 2 ^ 63.

Definition diff (data predicted e e2 max_diff : Z) : Z :=
  let d := f64_sub data predicted in
  let d_abs := Z.land d (Z.lnot DOUBLE_SIGN_BIT) in
  if f64_ltb max_diff d_abs then INT32_MIN
  else
    let comp := Z.lor (Z.land d DOUBLE_SIGN_BIT) e in
    let d := f64_add d comp in
    f64_to_i32 (f64_div d e2).

(** The loop: the steps, the outliers and the predictions. *)
Fixpoint diff_loop (e e2 max_diff predicted : Z) (input : list Z) : list Z * list Z * list Z :=
  match input with
  | [] => ([], [], [])
  | x :: input =>
      let output := diff x predicted e e2 max_diff in
      let predicted' :=
        if output =? INT32_MIN then x
        else f64_add predicted (f64_mul (f64_of_Z output) e2) in
      let '(os, outier, ps) := diff_loop e e2 max_diff predicted' input in
      (output :: os, if output =? INT32_MIN then x :: outier else outier, predicted' :: ps)
  end.

Definition step_of (error : Z) : Z * Z * Z :=
  let e := f64_mul error f64_0_999 in
  let e2 := f64_mul e f64_2 in
  (e, e2, f64_mul e2 (f64_of_Z INT32_MAX)).

(** The steps, and the bytes of the configuration: the error, the first value and the
    outliers. *)
Definition lorenzo1_diff (input : list Z) (error : Z) : option (list Z * list Z) :=
  first ← input !! 0%nat;
  let '(e, e2, max_diff) := step_of error in
  let '(output, outier, _) := diff_loop e e2 max_diff first (tail input) in
  Some (output, le_bytes 8 error ++ le_bytes 8 first ++ store_array 8 outier).

(** The decoder's two loops: without outliers every step counts. *)
Fixpoint plain_loop (e2 prev : Z) (input : list Z) : list Z :=
  match input with
  | [] => []
  | x :: input =>
      let v := f64_add prev (f64_mul e2 (f64_of_Z x)) in v :: plain_loop e2 v input
  end.

Fixpoint outlier_loop (e2 prev : Z) (outier : list Z) (input : list Z) : option (list Z) :=
  match input with
  | [] => Some []
  | x :: input =>
      if x =? INT32_MIN then
        match outier with
        | [] => None
        | v :: outier => l ← outlier_loop e2 v outier input; Some (v :: l)
        end
      else
        let v := f64_add prev (f64_mul e2 (f64_of_Z x)) in
        l ← outlier_loop e2 v outier input; Some (v :: l)
  end.

Definition lorenzo1_correct (input : list Z) (predictor_out : list Z) (psize : Z)
    : option (list Z) :=
  error ← load 8 predictor_out 0;
  first ← load 8 predictor_out 8;
  let e2 := f64_mul (f64_mul error f64_0_999) f64_2 in
  if psize =? 16 then Some (first :: plain_loop e2 first input)
  else
    outier ← load_n 8 predictor_out 16 ((psize - 16) / 8);
    l ← outlier_loop e2 first outier input;
    Some (first :: l).

(** ** The predictions of the encoder *)

Definition predictions (input : list Z) (error : Z) : list Z :=
  match input with
  | [] => []
  | first :: rest =>
      let '(e, e2, max_diff) := step_of error in
      first :: (diff_loop e e2 max_diff first rest).2
  end.

Lemma diff_range data predicted e e2 max_diff : is_i32 (diff data predicted e e2 max_diff).
Proof.
  unfold diff. destruct (f64_ltb _ _); [unfold is_i32, INT32_MIN; lia |]. apply f64_to_i32_range.
Qed.

Lemma diff_loop_spec e e2 max_diff input : forall predicted,
  let '(os, outier, ps) := diff_loop e e2 max_diff predicted input in
  length os = length input /\ Forall is_i32 os /\ length ps = length input /\
  (Forall is_u64 input -> Forall is_u64 outier) /\
  outlier_loop e2 predicted outier os = Some ps /\
  (outier = [] -> plain_loop e2 predicted os = ps).
Proof.
  induction input as [| x input IH]; intros predicted; cbn [diff_loop]; [by split_and!; repeat constructor |].
  set (o := diff x predicted e e2 max_diff). set (p := if o =? INT32_MIN then x else _).
  specialize (IH p). destruct (diff_loop e e2 max_diff p input) as [[os outier] ps].
  destruct IH as (I1 & I2 & I3 & I4 & I5 & I6). subst p.
  split; [simpl; lia |]. split; [constructor; [apply diff_range | done] |]. split; [simpl; lia |].
  cbn [outlier_loop plain_loop]. rewrite (f64_mul_comm e2).
  destruct (o =? INT32_MIN) eqn:E.
  - split; [intros [? ?]%Forall_cons_iff; constructor; auto |]. split; [by rewrite I5 | done].
  - split; [intros [? ?]%Forall_cons_iff; auto |]. split; [by rewrite I5 |].
    intros Ho. by rewrite I6.
Qed.

Lemma length_predictions input error : length (predictions input error) = length input.
Proof.
  destruct input as [| first rest]; [done |]. unfold predictions, step_of.
  pose proof (diff_loop_spec (f64_mul error f64_0_999) (f64_mul (f64_mul error f64_0_999) f64_2)
    (f64_mul (f64_mul (f64_mul error f64_0_999) f64_2) (f64_of_Z INT32_MAX)) rest first) as H.
  destruct (diff_loop _ _ _ _ _) as [[os outier] ps]. destruct H as (_ & _ & H & _). simpl. by rewrite H.
Qed.

(** What the predictor promises to the codec around it. *)
Lemma lorenzo_correct input error :
  input <> [] -> Forall is_u64 input -> is_u64 error ->
  exists delta conf, lorenzo1_diff input error = Some (delta, conf) /\
    length delta = (length input - 1)%nat /\ Forall is_i32 delta /\
    (16 <= length conf)%nat /\
    lorenzo1_correct delta conf (Z.of_nat (length conf)) = Some (predictions input error).
Proof.
  intros Hne Hin Herr. destruct input as [| first rest]; [done |].
  apply Forall_cons_iff in Hin as [Hf Hin]. unfold lorenzo1_diff, predictions, step_of. simpl lookup.
  cbn [mbind option_bind tail]. set (e := f64_mul error f64_0_999). set (e2 := f64_mul e f64_2).
  pose proof (diff_loop_spec e e2 (f64_mul e2 (f64_of_Z INT32_MAX)) rest first) as H.
  destruct (diff_loop _ _ _ _ _) as [[os outier] ps]. destruct H as (H1 & H2 & H3 & H4 & H5 & H6).
  eexists _, _. split; [done |]. split; [simpl; lia |]. split; [done |].
  set (conf := _ ++ _).
  assert (length conf = (16 + 8 * length outier)%nat) as Hlen.
  { unfold conf. rewrite !length_app, !length_le_bytes, length_store_array. lia. }
  split; [lia |]. unfold lorenzo1_correct.
  assert (load 8 conf 0 = Some error) as -> by (by apply (load_at 8 8 conf [] error (le_bytes 8 first ++ store_array 8 outier))).
  assert (load 8 conf 8 = Some first) as ->
    by (by apply (load_at 8 8 conf (le_bytes 8 error) first (store_array 8 outier))).
  cbn [mbind option_bind]. fold e. fold e2. rewrite Hlen.
  destruct (Z.eqb_spec (Z.of_nat (16 + 8 * length outier)) 16) as [E | E].
  - destruct outier as [| o outier]; [| simpl in E; lia]. by rewrite H6.
  - replace ((Z.of_nat (16 + 8 * length outier) - 16) / 8) with (Z.of_nat (length outier))
      by (replace (_ - 16) with (Z.of_nat (length outier) * 8) by lia; by rewrite Z.div_mul).
    rewrite (load_n_at 8 conf (le_bytes 8 error ++ le_bytes 8 first) outier []).
    + cbn [mbind option_bind]. by rewrite H5.
    + unfold conf. by rewrite app_nil_r, <- app_assoc.
    + by rewrite length_app, !length_le_bytes.
    + done.
    + by apply H4.
Qed.

(** C20: the decoder recomputes the encoder's predictions bit for bit, outliers (values too
    far from the prediction, and not-a-numbers) included. *)
Theorem lorenzo_roundtrip input error :
  input <> [] -> Forall is_u64 input -> is_u64 error ->
  exists delta conf, lorenzo1_diff input error = Some (delta, conf) /\
    Forall is_i32 delta /\
    lorenzo1_correct delta conf (Z.of_nat (length conf)) = Some (predictions input error).
Proof.
  intros Hne Hin Herr. destruct (lorenzo_correct input error Hne Hin Herr) as (d & c & ? & _ & ? & _ & ?).
  eauto.
Qed.

(** An outlier is returned unchanged: when the step of a value is the reserved one, the
    prediction is the value. *)
Theorem lorenzo_outlier_exact e e2 max_diff predicted x rest :
  diff x predicted e e2 max_diff = INT32_MIN ->
  exists os outier ps,
    diff_loop e e2 max_diff predicted (x :: rest) = (INT32_MIN :: os, x :: outier, x :: ps).
Proof.
  intros H. cbn [diff_loop]. rewrite H, Z.eqb_refl.
  destruct (diff_loop e e2 max_diff x rest) as [[os outier] ps]. eauto.
Qed.

(** The point-wise absolute error of a reconstruction. *)
Definition error_kept (error x r : Z) : bool := f64_leb (f64_abs (f64_sub r x)) error.

(** The error is not checked, and it is exceeded when the spacing of the doubles is between
    the error and twice the error: 2^52, then 2^52 + 2 with an error of 0.7, is returned as
    2^52, 2^52 + 1. *)
Theorem lorenzo_error_exceeded :
  let input := [0x4330000000000000; 0x4330000000000002] in
  let error := 0x3fe6666666666666 in
  predictions input error = [0x4330000000000000; 0x4330000000000001] /\
  error_kept error 0x4330000000000002 0x4330000000000001 = false.
Proof. by vm_compute. Qed.

(** 0.0, a NaN, 1e300, 2.5 with an error of 0.5. *)
Definition sample : list Z := [0; 0x7ff8000000000000; 0x7e37e43c8800759c; 0x4004000000000000].

Lemma lorenzo_roundtrip_witness :
  exists delta conf, lorenzo1_diff sample 0x3fe0000000000000 = Some (delta, conf) /\
    Forall is_i32 delta /\
    lorenzo1_correct delta conf (Z.of_nat (length conf))
    = Some (predictions sample 0x3fe0000000000000).
Proof.
  apply (lorenzo_roundtrip sample 0x3fe0000000000000);
    [done | repeat constructor; unfold is_u64; lia | unfold is_u64; lia].
Defined.

Lemma lorenzo_outlier_exact_witness :
  let '(e, e2, m) := step_of 0x3fe0000000000000 in
  exists os outier ps,
    diff_loop e e2 m 0 (tail sample)
    = (INT32_MIN :: os, 0x7ff8000000000000 :: outier, 0x7ff8000000000000 :: ps).
Proof.
  unfold step_of.
  apply (lorenzo_outlier_exact (f64_mul 0x3fe0000000000000 f64_0_999)
           (f64_mul (f64_mul 0x3fe0000000000000 f64_0_999) f64_2)
           (f64_mul (f64_mul (f64_mul 0x3fe0000000000000 f64_0_999) f64_2) (f64_of_Z INT32_MAX))
           0 0x7ff8000000000000 [0x7e37e43c8800759c; 0x4004000000000000]).
  vm_compute. reflexivity.
Defined.

End Lorenzo.
