(* ===== verification/Machete.v ===== *)
(** * Machete: the lossy codec of the chunks

    Models [machete/machete.cpp] and the entry points of [macheteC/wrapper.cpp]: the
    predictor turns the doubles into integers, one of the integer coders stores them, and
    a container holds both.

    The coders meet the codec at an interface, [IntCodec]: the container is verified
    against the interface, and the coders discharge it. *)

From Stdlib Require Import ZArith Lia.
From stdpp Require Import gmap.
From S2P Require Import Prelude Bytes Float64 Ovlq Stl Huffman Hybrid Lorenzo.

(** What an integer coder promises on the inputs of its domain: it stores as many bytes as
    it says, the number of integers first, and decodes them. *)
Class IntCodec (domain : list Z -> Prop) := {
  codec_encode : list Z -> option (list Z * Z);
  codec_decode : list Z -> Z -> option (list Z);
  codec_correct l : domain l ->
    exists out size, codec_encode l = Some (out, size) /\ size = Z.of_nat (length out) /\
      load 4 out 0 = Some (Z.of_nat (length l)) /\ codec_decode out size = Some l
}.

Module Machete.
Import Lorenzo.

Inductive Encoder := huffman | huffmanC | ovlq | hybrid.
Inductive Predictor := lorenzo1.

Definition PREDICTION_ERROR : Z := -100.
Definition ENCODING_ERROR : Z := -200.
Definition SIZE_ERROR : Z := -300.
Definition UINT16_MAX : Z := 65535.

(** ** The phases

    The coders are parametrised by the containers of the standard library, the value
    [ctz0] of [__builtin_ctz(0)] and the uninitialised symbol [junk] of the hybrid coder. *)

Section phases.

Context `{Qcnt : !PriorityQueue Huffman.cnt} `{Qlvl : !PriorityQueue Huffman.l_lvl}.
Context `{Order : !MapOrder}.
Variables (ctz0 junk : Z).

Definition predict_diff_phase (p : Predictor) (input : list Z) (error : Z)
    : option (list Z * list Z) :=
  match p with lorenzo1 => lorenzo1_diff input error end.

Definition predict_correct_phase (p : Predictor) (input predictor_out : list Z) (psize : Z)
    : option (list Z) :=
  match p with lorenzo1 => lorenzo1_correct input predictor_out psize end.

(** The inner option is the result -1 of a coder without a case. *)
Definition encode_phase (e : Encoder) (input : list Z) : option (option (list Z * Z)) :=
  match e with
  | huffman => Some <$> Huffman.huffman_encode input
  | ovlq => Some <$> Ovlq.ovlq_encode ctz0 input
  | hybrid => Some <$> Hybrid.hybrid_encode ctz0 junk input
  | huffmanC => Some None
  end.

Definition decode_phase (e : Encoder) (input : list Z) (size : Z) : option (list Z) :=
  match e with
  | huffman => Huffman.huffman_decode input size
  | ovlq => Ovlq.ovlq_decode ctz0 input size
  | hybrid => Hybrid.hybrid_decode ctz0 input size
  | huffmanC => None
  end.

Definition raw (input : list Z) : list Z :=
  le_bytes 4 (Z.of_nat (length input)) ++ store_array 8 input.

(** The result of a compression is an error code or the bytes stored. *)
Definition machete_compress (p : Predictor) (e : Encoder) (input : list Z) (error : Z)
    : option (Z + list Z) :=
  let len := Z.of_nat (length input) in
  if len <? 10 then Some (inr (raw input))
  else
    dp ← predict_diff_phase p input error;
    es ← encode_phase e dp.1;
    match es with
    | None => Some (inl ENCODING_ERROR)
    | Some (out, esize) =>
        let psize := Z.of_nat (length dp.2) in
        if (UINT16_MAX <? esize) || (UINT16_MAX <? psize) then Some (inl SIZE_ERROR)
        else Some (inr (le_bytes 4 len ++ le_bytes 2 (u16 esize) ++ le_bytes 2 (u16 psize)
                          ++ dp.2 ++ out))
    end.

Definition machete_getlen (compressed : list Z) : option Z := load 4 compressed 0.

Definition machete_decompress (p : Predictor) (e : Encoder) (input : list Z) (size : Z)
    : option (list Z) :=
  data_len ← load 4 input 0;
  if data_len <? 10 then load_n 8 input 4 data_len
  else
    esize ← load 2 input 4;
    psize ← load 2 input 6;
    predictor_out ← slice input 8 psize;
    let encoder_out := drop (Z.to_nat (8 + psize)) input in
    dlen ← load 4 encoder_out 0;
    delta ← decode_phase e encoder_out esize;
    predict_correct_phase p (take (Z.to_nat dlen) delta) predictor_out psize.

(** ** The C interface *)

(** [machete_compress_C]: the size returned, and the buffer when there is one. *)
Definition machete_compress_C (input : list Z) (error : Z) : option (Z * list Z) :=
  r ← machete_compress lorenzo1 huffman input error;
  Some match r with
       | inl code => (code, [])
       | inr out => (Z.of_nat (length out), out)
       end.

(** [machete_decompress_C]: the caller gives the number of doubles to allocate, [esize];
    more would overrun the buffer. *)
Definition machete_decompress_C (input : list Z) (esize size : Z) : option (list Z) :=
  out ← machete_decompress lorenzo1 huffman input size;
  _ ← assert (Z.of_nat (length out) <=? esize);
  Some out.

(** ** The coders implement the interface *)

(** The inputs of a coder: what fits its counters, and, for the variable-length coder,
    either 32 as the number of trailing zeros of zero or no integer of 32 bits. *)
Definition encoder_domain (e : Encoder) (l : list Z) : Prop :=
  l <> [] /\ Forall is_i32 l /\
  match e with
  | huffman => Z.of_nat (length l) <= 2 ^ 21
  | ovlq => Z.of_nat (length l) <= 2 ^ 24 /\
            (ctz0 = 32 \/ Forall (fun x => Ovlq.data_bitlen x < 32) l)
  | hybrid => Z.of_nat (length l) < 2 ^ 16 /\
              (ctz0 = 32 \/ Forall (fun x => Ovlq.data_bitlen x < 32) l)
  | huffmanC => False
  end.

#[export] Program Instance huffman_codec : IntCodec (encoder_domain huffman) := {
  codec_encode := Huffman.huffman_encode;
  codec_decode := Huffman.huffman_decode
}.
Next Obligation. intros l (Hne & Hin & Hlen). by apply Huffman.huffman_correct. Qed.

#[export] Program Instance ovlq_codec : IntCodec (encoder_domain ovlq) := {
  codec_encode := Ovlq.ovlq_encode ctz0;
  codec_decode := Ovlq.ovlq_decode ctz0
}.
Next Obligation.
  intros l (Hne & Hin & Hlen & Hctz).
  destruct (Ovlq.ovlq_correct ctz0 l) as (out & size & ? & ? & ? & _ & _ & _ & ?); eauto 10.
Qed.

#[export] Program Instance hybrid_codec : IntCodec (encoder_domain hybrid) := {
  codec_encode := Hybrid.hybrid_encode ctz0 junk;
  codec_decode := Hybrid.hybrid_decode ctz0
}.
Next Obligation. intros l (Hne & Hin & Hlen & Hctz). by apply Hybrid.hybrid_correct. Qed.

(** ** The container over the interface *)

(** The encoder [e] of the dispatch is the coder of the interface. *)
Class Dispatches (e : Encoder) {domain} (codec : IntCodec domain) := {
  dispatch_encode l : encode_phase e l = Some <$> codec_encode l;
  dispatch_decode l n : decode_phase e l n = codec_decode l n
}.

#[export] Instance huffman_dispatch : Dispatches huffman huffman_codec.
Proof. by split. Qed.
#[export] Instance ovlq_dispatch : Dispatches ovlq ovlq_codec.
Proof. by split. Qed.
#[export] Instance hybrid_dispatch : Dispatches hybrid hybrid_codec.
Proof. by split. Qed.

(** Fewer than ten values are stored as they are. *)
Lemma short_correct p e input error size :
  (length input < 10)%nat -> Forall is_u64 input ->
  machete_compress p e input error = Some (inr (raw input)) /\
  machete_decompress p e (raw input) size = Some input.
Proof.
  intros Hlen Hin. unfold machete_compress, machete_decompress.
  rewrite (proj2 (Z.ltb_lt _ _)) by lia. split; [done |].
  rewrite (load_at 4 4 (raw input) [] (Z.of_nat (length input)) (store_array 8 input)) by (done || lia).
  cbn [mbind option_bind]. rewrite (proj2 (Z.ltb_lt _ _)) by lia.
  apply (load_n_at 8 _ (le_bytes 4 (Z.of_nat (length input))) input []); try done.
  by rewrite app_nil_r.
Qed.

(** From ten values on: the only failure is a container that does not fit its 16-bit
    sizes; otherwise decompression gives the predictions. *)
Definition long_spec (e : Encoder) (input : list Z) (error : Z) : Prop :=
  exists delta conf out size r,
    lorenzo1_diff input error = Some (delta, conf) /\
    encode_phase e delta = Some (Some (out, size)) /\
    machete_compress lorenzo1 e input error = Some r /\
    if (size <=? UINT16_MAX) && (Z.of_nat (length conf) <=? UINT16_MAX) then
      exists bytes, r = inr bytes /\
        Z.of_nat (length bytes) = 8 + Z.of_nat (length conf) + size /\
        machete_getlen bytes = Some (Z.of_nat (length input)) /\
        machete_decompress lorenzo1 e bytes (Z.of_nat (length bytes))
        = Some (predictions input error)
    else r = inl SIZE_ERROR.

Lemma long_correct e `{Hd : !Dispatches e (codec : IntCodec domain)} input error :
  (10 <= length input)%nat -> Z.of_nat (length input) < 2 ^ 32 ->
  Forall is_u64 input -> is_u64 error ->
  (forall delta conf, lorenzo1_diff input error = Some (delta, conf) -> domain delta) ->
  long_spec e input error.
Proof.
  intros Hlen Hmax Hin Herr Hdom.
  destruct (lorenzo_correct input error) as (delta & conf & Ed & Hdl & Hd32 & Hcl & Hcor); try done.
  { intros ->. simpl in Hlen. lia. }
  destruct (codec_correct delta (Hdom delta conf Ed)) as (out & size & Ee & Hsize & Hlen0 & Hdec).
  unfold long_spec. exists delta, conf, out, size. rewrite dispatch_encode, Ee.
  unfold machete_compress, predict_diff_phase. rewrite (proj2 (Z.ltb_ge _ _)) by lia. rewrite Ed.
  cbn [mbind option_bind fst snd]. rewrite dispatch_encode, Ee. cbn [fmap option_fmap option_map mbind option_bind].
  rewrite !Z.ltb_antisym.
  destruct (size <=? UINT16_MAX) eqn:E1; [| by eexists].
  destruct (Z.of_nat (length conf) <=? UINT16_MAX) eqn:E2; [| by eexists]. cbn [negb orb andb].
  unfold UINT16_MAX in *. to_prop. set (n := Z.of_nat (length input)) in *.
  set (bytes := le_bytes 4 n ++ _). eexists. split; [done |]. split; [done |]. split; [done |].
  exists bytes. split; [done |].
  set (cs := Z.of_nat (length conf)) in *.
  assert (u16 size = size /\ u16 cs = cs) as [Eu1 Eu2] by (split; apply Z.mod_small; lia).
  assert (bytes = (le_bytes 4 n ++ le_bytes 2 size ++ le_bytes 2 cs) ++ conf ++ out) as Eb.
  { unfold bytes. rewrite Eu1, Eu2, <- !app_assoc. done. }
  assert (length (le_bytes 4 n ++ le_bytes 2 size ++ le_bytes 2 cs) = 8%nat) as H8
    by (by rewrite !length_app, !length_le_bytes).
  split; [rewrite Eb, length_app, H8, length_app; lia |].
  assert (load 4 bytes 0 = Some n) as L0.
  { apply (load_at 4 4 bytes [] n (le_bytes 2 size ++ le_bytes 2 cs ++ conf ++ out) 0);
      rewrite ?Eb, <- ?app_assoc; done || (change (2 ^ (8 * 4)) with (2 ^ 32); lia). }
  split; [done |]. unfold machete_decompress. rewrite L0.
  cbn [mbind option_bind]. rewrite (proj2 (Z.ltb_ge _ _)) by lia.
  rewrite (load_at 2 2 bytes (le_bytes 4 n) size (le_bytes 2 cs ++ conf ++ out) 4)
    by (rewrite ?Eb, <- ?app_assoc; done || (change (2 ^ (8 * 2)) with 65536; lia)).
  cbn [mbind option_bind].
  rewrite (load_at 2 2 bytes (le_bytes 4 n ++ le_bytes 2 size) cs (conf ++ out) 6)
    by (rewrite ?Eb, <- ?app_assoc; done || (change (2 ^ (8 * 2)) with 65536; lia)).
  cbn [mbind option_bind].
  assert (slice bytes 8 cs = Some conf) as -> by (rewrite Eb; apply slice_app; [by rewrite H8 | done]).
  assert (drop (Z.to_nat (8 + cs)) bytes = out) as ->.
  { rewrite Eb, app_assoc. apply drop_app_length'. rewrite length_app, H8. lia. }
  cbn [mbind option_bind]. rewrite Hlen0. cbn [mbind option_bind].
  rewrite dispatch_decode, Hdec. cbn [mbind option_bind]. unfold predict_correct_phase.
  by rewrite Nat2Z.id, take_ge by lia.
Qed.

Lemma delta_domain e input error delta conf :
  (10 <= length input)%nat -> Forall is_u64 input -> is_u64 error ->
  lorenzo1_diff input error = Some (delta, conf) ->
  match e with
  | huffman => Z.of_nat (length input) <= 2 ^ 21
  | ovlq | hybrid => Z.of_nat (length input) <= 2 ^ 16 /\
      (ctz0 = 32 \/ Forall (fun x => Ovlq.data_bitlen x < 32) delta)
  | huffmanC => False
  end -> encoder_domain e delta.
Proof.
  intros Hlen Hin Herr Ed He.
  destruct (lorenzo_correct input error) as (d & c & Ed' & Hdl & Hd32 & _); try done.
  { intros ->. simpl in Hlen. lia. }
  rewrite Ed in Ed'. simplify_eq. split; [intros ->; simpl in Hdl; lia |]. split; [done |].
  destruct e; [lia | done | |]; destruct He as [He Hc]; (split; [lia | done]).
Qed.

(** Fewer than ten values are stored and returned unchanged, whatever the coder. *)
Theorem machete_short p e input error size :
  (length input < 10)%nat -> Forall is_u64 input ->
  exists bytes, machete_compress p e input error = Some (inr bytes) /\
    Z.of_nat (length bytes) = 4 + 8 * Z.of_nat (length input) /\
    machete_decompress p e bytes size = Some input.
Proof.
  intros Hlen Hin. destruct (short_correct p e input error size Hlen Hin) as [E1 E2].
  exists (raw input). split; [done |]. split; [| done].
  unfold raw. rewrite length_app, length_le_bytes, length_store_array. lia.
Qed.

(** C4: from ten values on, with any of the three coders, compression either reports that
    the container does not fit its 16-bit sizes, exactly when it does not, or gives bytes
    that decompress to the predictions of the encoder.  The coders that use OVLQ call
    [__builtin_ctz] at zero, where it is undefined, if a difference needs 32 bits: with
    them either no difference does, or the result there is taken to be 32.  The Huffman
    coder needs nothing of the kind. *)
Theorem machete_roundtrip e input error :
  e <> huffmanC -> (10 <= length input)%nat -> Z.of_nat (length input) <= 2 ^ 16 ->
  Forall is_u64 input -> is_u64 error ->
  (e = huffman \/ ctz0 = 32 \/
   forall delta conf, lorenzo1_diff input error = Some (delta, conf) ->
     Forall (fun x => Ovlq.data_bitlen x < 32) delta) ->
  long_spec e input error.
Proof.
  intros He Hlen Hmax Hin Herr Hc.
  assert (e <> huffman -> forall delta conf, lorenzo1_diff input error = Some (delta, conf) ->
    ctz0 = 32 \/ Forall (fun x => Ovlq.data_bitlen x < 32) delta) as Hc'.
  { intros Hn delta conf Ed. destruct Hc as [-> | [-> | Hc]]; [done | by left | right; eauto]. }
  destruct e; [| done | |].
  - apply (long_correct huffman (Hd := huffman_dispatch)); try done; [lia |].
    intros delta conf Ed. apply (delta_domain huffman input error delta conf); try done. lia.
  - apply (long_correct ovlq (Hd := ovlq_dispatch)); try done; [lia |].
    intros delta conf Ed. apply (delta_domain ovlq input error delta conf); eauto.
  - apply (long_correct hybrid (Hd := hybrid_dispatch)); try done; [lia |].
    intros delta conf Ed. apply (delta_domain hybrid input error delta conf); eauto.
Qed.

(** The interface the database calls: compression gives a negative code, or a buffer that
    decompresses, into room for as many doubles as were given, to those doubles when there
    are fewer than ten and to the predictions otherwise.  Up to 2^21 values. *)
Theorem machete_C_roundtrip input error esize :
  Z.of_nat (length input) <= 2 ^ 21 -> Forall is_u64 input -> is_u64 error ->
  Z.of_nat (length input) <= esize ->
  exists size buffer, machete_compress_C input error = Some (size, buffer) /\
    (size = SIZE_ERROR \/
     size = Z.of_nat (length buffer) /\
     machete_decompress_C buffer esize size
     = Some (if (length input <? 10)%nat then input else predictions input error)).
Proof.
  intros Hmax Hin Herr Hes. unfold machete_compress_C, machete_decompress_C.
  destruct (Nat.ltb_spec (length input) 10) as [Hlen | Hlen].
  - destruct (short_correct lorenzo1 huffman input error (Z.of_nat (length (raw input))) Hlen Hin) as [-> E2].
    cbn [mbind option_bind]. eexists _, _. split; [done |]. right. split; [done |]. rewrite E2.
    cbn [mbind option_bind]. by rewrite assert_true by (apply Z.leb_le; lia).
  - destruct (long_correct huffman (Hd := huffman_dispatch) input error) as (delta & conf & out & size & r & _ & _ & -> & Hr);
      try done; [lia | |].
    { intros delta conf Ed. by eapply (delta_domain huffman input error). }
    cbn [mbind option_bind]. destruct (_ && _).
    + destruct Hr as (bytes & -> & _ & _ & Hd). eexists _, _. split; [done |]. right. split; [done |].
      rewrite Hd. cbn [mbind option_bind]. rewrite length_predictions.
      by rewrite assert_true by (apply Z.leb_le; lia).
    + subst r. eexists _, _. split; [done |]. by left.
Qed.

(** The canonical Huffman coder is in the enumeration but not in the dispatch: asking for
    it is an encoding error. *)
Theorem machete_huffmanC_error p input error :
  (10 <= length input)%nat ->
  machete_compress p huffmanC input error = Some (inl ENCODING_ERROR).
Proof.
  intros Hlen. unfold machete_compress. rewrite (proj2 (Z.ltb_ge _ _)) by lia.
  destruct p. unfold predict_diff_phase, lorenzo1_diff, step_of.
  destruct input as [| first rest]; [simpl in Hlen; lia |]. simpl lookup. cbn [mbind option_bind tail].
  by destruct (diff_loop _ _ _ _ _) as [[os outier] ps].
Qed.

End phases.

(** 20.5, 20.6, ..., 21.4, then 1e300 and a NaN; error 0.05. *)
Definition chunk : list Z :=
  [0x4034800000000000; 0x403499999999999a; 0x4034b33333333333; 0x4034cccccccccccd;
   0x4034e66666666666; 0x4035000000000000; 0x403519999999999a; 0x4035333333333333;
   0x40354ccccccccccd; 0x4035666666666666; 0x7e37e43c8800759c; 0x7ff8000000000000].
Definition chunk_error : Z := 0x3fa999999999999a.

Lemma chunk_u64 : Forall is_u64 chunk.
Proof. repeat constructor; unfold is_u64; lia. Qed.

Lemma machete_short_witness :
  exists bytes, machete_compress 32 0 lorenzo1 huffman [0x4034800000000000; 0] chunk_error
                = Some (inr bytes) /\
    Z.of_nat (length bytes) = 4 + 8 * Z.of_nat 2 /\
    machete_decompress 32 lorenzo1 huffman bytes 20 = Some [0x4034800000000000; 0].
Proof.
  apply (machete_short 32 0 lorenzo1 huffman [0x4034800000000000; 0] chunk_error 20);
    [simpl; lia | repeat constructor; unfold is_u64; lia].
Defined.

Lemma machete_roundtrip_witness : long_spec 32 0 hybrid chunk chunk_error.
Proof.
  apply (machete_roundtrip 32 0 hybrid chunk chunk_error);
    [done | simpl; lia | simpl; lia | apply chunk_u64 | unfold is_u64, chunk_error; lia |].
  right. by left.
Defined.

Lemma machete_C_roundtrip_witness :
  exists size buffer, machete_compress_C 32 0 chunk chunk_error = Some (size, buffer) /\
    (size = SIZE_ERROR \/
     size = Z.of_nat (length buffer) /\
     machete_decompress_C 32 buffer 12 size = Some (predictions chunk chunk_error)).
Proof.
  apply (machete_C_roundtrip 32 0 chunk chunk_error 12);
    [simpl; lia | apply chunk_u64 | unfold is_u64, chunk_error; lia | simpl; lia].
Defined.

Lemma machete_huffmanC_error_witness :
  machete_compress 32 0 lorenzo1 huffmanC chunk chunk_error = Some (inl ENCODING_ERROR).
Proof. apply (machete_huffmanC_error 32 0 lorenzo1 chunk chunk_error). simpl. lia. Defined.

End Machete.
