(* ===== verification/Lfzip.v ===== *)
(** * Lfzip: the LFZip baseline

    Models [lfzip/lfzip_predictor.cpp] (a normalised least-mean-squares filter over the
    doubles already reconstructed) and [lfzip/lfzip.cpp] (quantisation of the prediction
    residuals, packed by libbsc).  The entropy coder libbsc is not part of the repository:
    [bsc_compress] and [bsc_decompress] are variables.  *)

From Stdlib Require Import ZArith Lia.
From S2P Require Import Prelude Bytes Float64.

Module Lfzip.

Definition MIN_BIN_IDX : Z := -32767.
Definition MAX_BIN_IDX : Z := 32767.

(** The literals 0.0, 0.5, 1.0, 2.0 and 1000.0. *)
Definition f64_0 : Z := 0.
Definition f64_0_5 : Z := 0x3fe0000000000000.
Definition f64_1 : Z := 0x3ff0000000000000.
Definition f64_2 : Z := 0x4000000000000000.
Definition f64_1000 : Z := 0x408f400000000000.

(** ** The filter *)

(** [n] elements of the vector [a] from index [i] on, as the pointer [&a[i]] sees them. *)
Definition window (a : list Z) (i n : nat) : option (list Z) :=
  if (i + n <=? length a)%nat then Some (take n (drop i a)) else None.

Definition dot_product (a b : list Z) : Z :=
  foldl (fun ret ab => f64_add ret (f64_mul ab.1 ab.2)) f64_0 (zip a b).

Record NLMS_base := { n : nat; mu : Z; eps : Z; w : list Z }.

(** The constructor; [None] is the exception it throws. *)
Definition new_NLMS_base (n_ : nat) (mu_ eps_ : Z) : option NLMS_base :=
  if (f64_leb f64_1000 mu_ || f64_leb mu_ f64_0) || (f64_leb f64_1000 eps_ || f64_leb eps_ f64_0)
  then None
  else Some {| n := n_; mu := mu_; eps := eps_; w := replicate n_ f64_0 |}.

Definition adapt (f : NLMS_base) (true_val : Z) (arr : list Z) : NLMS_base :=
  let y := dot_product (w f) arr in
  let e := f64_sub true_val y in
  let nu := f64_div (mu f) (f64_add (eps f) (dot_product arr arr)) in
  {| n := n f; mu := mu f; eps := eps f;
     w := zip_with (fun wi a => f64_add wi (f64_mul (f64_mul nu e) a)) (w f) arr |}.

Definition base_predict (f : NLMS_base) (arr : list Z) : Z := dot_product arr (w f).

(** The predictor: its weights change when it has more than [n] values to learn from. *)
Definition predict (f : NLMS_base) (recon_arr : list Z) (idx : nat) : option (NLMS_base * Z) :=
  if (n f <? idx)%nat then
    true_val ← recon_arr !! (idx - 1)%nat;
    arr ← window recon_arr (idx - n f - 1) (n f);
    let f := adapt f true_val arr in
    arr ← window recon_arr (idx - n f) (n f);
    Some (f, base_predict f arr)
  else if (0 <? idx)%nat then
    v ← recon_arr !! (idx - 1)%nat;
    Some (f, v)
  else Some (f, f64_0).

(** ** Quantisation *)

Definition reconstruct (error predval bin_idx : Z) : Z :=
  f64_add predval (f64_mul (f64_mul error (f64_of_Z bin_idx)) f64_2).

(** The bin of a value and its reconstruction, or [None] for a value to store. *)
Definition quantise (error dataval predval : Z) : option (Z * Z) :=
  let diff := f64_sub dataval predval in
  let bin_idx := f64_to_i64 (f64_round (f64_div diff (f64_mul f64_2 error))) in
  if (MIN_BIN_IDX <=? bin_idx) && (bin_idx <=? MAX_BIN_IDX) then
    let r := reconstruct error predval bin_idx in
    if f64_leb (f64_abs (f64_sub r dataval)) error then Some (bin_idx, r) else None
  else None.

(** The loop of the compressor: the bins, the stored values and the reconstruction. *)
Fixpoint compress_loop (f : NLMS_base) (error : Z) (reconstruction : list Z) (i : nat)
    (input : list Z) : option (list Z * list Z * list Z) :=
  match input with
  | [] => Some ([], [], reconstruction)
  | dataval :: input =>
      '(f, predval) ← predict f reconstruction i;
      match quantise error dataval predval with
      | Some (bin_idx, r) =>
          '(bins, overflow, rec) ← compress_loop f error (<[i := r]> reconstruction) (S i) input;
          Some (bin_idx :: bins, overflow, rec)
      | None =>
          '(bins, overflow, rec) ← compress_loop f error (<[i := dataval]> reconstruction) (S i) input;
          Some (MIN_BIN_IDX - 1 :: bins, dataval :: overflow, rec)
      end
  end.

(** The loop of the decompressor: [tmp] holds [len] bins and then the stored values, the
    next of them at [of_top]. *)
Fixpoint decompress_loop (f : NLMS_base) (error : Z) (tmp : list Z) (len of_top : Z)
    (reconstruction : list Z) (i : nat) (bins : list Z) : option (list Z) :=
  match bins with
  | [] => Some reconstruction
  | b :: bins =>
      '(f, predval) ← predict f reconstruction i;
      let bin_idx := i16 b in
      if bin_idx =? MIN_BIN_IDX - 1 then
        v ← load 8 tmp (2 * len + 8 * of_top);
        decompress_loop f error tmp len (of_top + 1) (<[i := v]> reconstruction) (S i) bins
      else
        decompress_loop f error tmp len of_top
          (<[i := reconstruct error predval bin_idx]> reconstruction) (S i) bins
  end.

(** ** The codec *)

Section codec.

(** libbsc, on a buffer and the number of bytes of it to pack, an [int]: the code of an error
    or the packed bytes; and the bytes unpacked, given the size of the room for them. *)
Variable bsc_compress : list Z -> Z -> Z + list Z.
Variable bsc_decompress : list Z -> Z -> option (list Z).

(** The buffer [tmp] once the loop has ended: the bins, and the stored values after them.
    The [int] counter of the loop has to reach the number of values. *)
Definition lfzip_fill (input : list Z) (error : Z) : option (list Z) :=
  predictor ← new_NLMS_base 32 f64_0_5 f64_1;
  _ ← assert (Z.of_nat (length input) <=? INT32_MAX);
  '(bins, overflow, _) ←
    compress_loop predictor error (replicate (length input) f64_0) 0 input;
  Some (store_array 2 (u16 <$> bins) ++ store_array 8 overflow).

(** [lfzip_compress]: the size it returns, which is computed in [int], and the buffer. *)
Definition lfzip_compress (input : list Z) (error : Z) : option (Z * list Z) :=
  tmp ← lfzip_fill input error;
  let data_len := u32 (Z.of_nat (length input)) in
  match bsc_compress tmp (i32 (Z.of_nat (length tmp))) with
  | inl res => size ← int_of (res + 4); Some (size, le_bytes 4 data_len)
  | inr packed =>
      size ← int_of (Z.of_nat (length packed) + 4); Some (size, le_bytes 4 data_len ++ packed)
  end.

(** [tmp_size] is an [int]: the product wraps before it is allocated. *)
Definition lfzip_decompress (input : list Z) (in_size error : Z) : option (list Z) :=
  len ← load 4 input 0;
  let tmp_size := i32 ((8 + 2) * len) in
  _ ← assert (0 <=? tmp_size);
  packed ← slice input 4 (i32 (in_size - 4));
  tmp ← bsc_decompress packed tmp_size;
  predictor ← new_NLMS_base 32 f64_0_5 f64_1;
  _ ← assert (len <=? INT32_MAX);
  bins ← load_n 2 tmp 0 len;
  decompress_loop predictor error tmp len 0 (replicate (Z.to_nat len) f64_0) 0 bins.

(** ** Proofs *)

(** The value returned for [x] is [x], or within the error of it. *)
Definition within (error x r : Z) : Prop :=
  r = x \/ f64_leb (f64_abs (f64_sub r x)) error = true.

Lemma quantise_Some error dataval predval bin r :
  quantise error dataval predval = Some (bin, r) ->
  MIN_BIN_IDX <= bin <= MAX_BIN_IDX /\ r = reconstruct error predval bin /\
  within error dataval r.
Proof.
  unfold quantise. destruct (_ && _) eqn:E; [| done]. destruct (f64_leb _ error) eqn:El; [| done].
  intros. simplify_eq. to_prop. split; [lia |]. split; [done |]. by right.
Qed.

Lemma window_total a i k : (i + k <= length a)%nat -> is_Some (window a i k).
Proof. intros H. unfold window. rewrite (proj2 (Nat.leb_le _ _)) by done. eauto. Qed.

(** The predictor only reads what has been reconstructed. *)
Lemma predict_total f recon i :
  (i <= length recon)%nat -> exists f' v, predict f recon i = Some (f', v) /\ n f' = n f.
Proof.
  intros Hi. unfold predict. destruct (Nat.ltb_spec (n f) i) as [Hn | Hn].
  - destruct (lookup_lt_is_Some_2 recon (i - 1)) as [t ->]; [lia |]. cbn [mbind option_bind].
    destruct (window_total recon (i - n f - 1) (n f)) as [a ->]; [lia |]. cbn [mbind option_bind].
    destruct (window_total recon (i - n (adapt f t a)) (n (adapt f t a))) as [b ->]; [simpl; lia |].
    cbn [mbind option_bind]. eauto.
  - destruct (Nat.ltb_spec 0 i) as [H0 | H0]; [| eauto].
    destruct (lookup_lt_is_Some_2 recon (i - 1)) as [t ->]; [lia |]. cbn [mbind option_bind]. eauto.
Qed.

Lemma overflow_total error input : forall f recon i,
  (i + length input <= length recon)%nat ->
  exists bins overflow rec, compress_loop f error recon i input = Some (bins, overflow, rec).
Proof.
  induction input as [| x input IH]; intros f recon i Hi; cbn [compress_loop]; [eauto |].
  simpl in Hi. destruct (predict_total f recon i) as (f' & v & -> & _); [lia |]. cbn [mbind option_bind].
  destruct (quantise error x v) as [[bin r] |].
  - destruct (IH f' (<[i:=r]> recon) (S i)) as (? & ? & ? & ->); [rewrite length_insert; lia |]. eauto.
  - destruct (IH f' (<[i:=x]> recon) (S i)) as (? & ? & ? & ->); [rewrite length_insert; lia |]. eauto.
Qed.

(** A vector that agrees with [<[i := r]> recon] up to index [i]. *)
Lemma agree_insert (recon rec : list Z) i r :
  (i < length recon)%nat -> take (S i) rec = take (S i) (<[i := r]> recon) ->
  take i rec = take i recon /\ drop i rec = r :: drop (S i) rec.
Proof.
  intros Hi Ht.
  rewrite (take_S_r (<[i:=r]> recon) _ r), take_insert_ge in Ht
    by (done || apply list_lookup_insert_eq; lia).
  assert (length (take i recon) = i) as Hl by (rewrite length_take; lia). split.
  - apply (f_equal (take i)) in Ht. rewrite take_take, take_app_length' in Ht by done.
    by replace (i `min` S i)%nat with i in Ht by lia.
  - apply drop_S. rewrite <- (lookup_take_lt rec (S i)), Ht by lia.
    by rewrite lookup_app_r, Hl, Nat.sub_diag by lia.
Qed.

(** Shape of the compressor's result, and what it leaves in the reconstruction. *)
Lemma compress_loop_shape error input : forall f recon i bins overflow rec,
  (i + length input <= length recon)%nat ->
  compress_loop f error recon i input = Some (bins, overflow, rec) ->
  length bins = length input /\ Forall (fun b => MIN_BIN_IDX - 1 <= b <= MAX_BIN_IDX) bins /\
  overflow `sublist_of` input /\ length rec = length recon /\
  take i rec = take i recon /\
  Forall2 (within error) input (take (length input) (drop i rec)).
Proof.
  induction input as [| x input IH]; intros f recon i bins overflow rec Hi; cbn [compress_loop].
  { intros. simplify_eq. split_and!; done || constructor. }
  simpl in Hi. destruct (predict_total f recon i) as (f' & v & -> & _); [lia |]. cbn [mbind option_bind].
  destruct (quantise error x v) as [[bin r] |] eqn:Eq; intros E; inv_opt;
    destruct p as [[b' o'] r']; simplify_eq; apply IH in E0 as (H1 & H2 & H3 & H4 & H5 & H6);
    rewrite ?length_insert in *; try lia; apply agree_insert in H5 as [H5 H7]; try lia.
  - apply quantise_Some in Eq as (Hb & _ & Hw). cbn [length]. rewrite H7. cbn [take].
    split_and!; try done; [lia | constructor; [lia | done] | by constructor | by constructor].
  - cbn [length]. rewrite H7. cbn [take].
    split_and!; try done; [lia | constructor; [by unfold MIN_BIN_IDX, MAX_BIN_IDX; lia | done] |
                           by constructor | constructor; [by left | done]].
Qed.

(** The decompressor follows the compressor, whatever was stored before. *)
Lemma loops_agree error tmp len input : forall f recon i bins overflow rec pre tl,
  (i + length input <= length recon)%nat -> Forall is_u64 input ->
  compress_loop f error recon i input = Some (bins, overflow, rec) ->
  tmp = pre ++ store_array 8 overflow ++ tl ->
  forall of_top, Z.of_nat (length pre) = 2 * len + 8 * of_top ->
  decompress_loop f error tmp len of_top recon i (u16 <$> bins) = Some rec.
Proof.
  induction input as [| x input IH]; intros f recon i bins overflow rec pre tl Hi Hin; cbn [compress_loop].
  { intros. by simplify_eq. }
  simpl in Hi. apply Forall_cons_iff in Hin as [Hx Hin].
  destruct (predict_total f recon i) as (f' & v & Ep & _); [lia |]. rewrite Ep. cbn [mbind option_bind].
  assert (forall b, MIN_BIN_IDX - 1 <= b <= MAX_BIN_IDX -> i16 (u16 b) = b) as H16.
  { intros b Hb. unfold i16, u16. rewrite swrap_mod by lia. apply swrap_id; [lia |].
    unfold MIN_BIN_IDX, MAX_BIN_IDX in Hb. lia. }
  destruct (quantise error x v) as [[bin r] |] eqn:Eq; intros E; inv_opt;
    destruct p as [[b' o'] r']; simplify_eq; intros Htmp of_top Hof;
    rewrite fmap_cons; cbn [decompress_loop]; rewrite Ep; cbn [mbind option_bind].
  - apply quantise_Some in Eq as (Hb & -> & _). rewrite H16 by lia.
    rewrite (proj2 (Z.eqb_neq _ _)) by lia. eapply IH; eauto. by rewrite length_insert; lia.
  - rewrite H16, Z.eqb_refl by (unfold MIN_BIN_IDX, MAX_BIN_IDX; lia).
    change (store_array 8 (x :: o')) with (le_bytes 8 x ++ store_array 8 o') in Htmp.
    rewrite <- app_assoc in Htmp.
    rewrite (load_at 8 8 tmp pre x (store_array 8 o' ++ tl) _ Htmp) by (done || lia).
    cbn [mbind option_bind]. eapply (IH _ _ _ _ _ _ (pre ++ le_bytes 8 x) tl); eauto.
    + rewrite length_insert; lia.
    + by rewrite <- app_assoc.
    + rewrite length_app, length_le_bytes. lia.
Qed.

Section codec_correct.

(** What libbsc.h documents: the result is an error code or at most 28 bytes longer than the
    input, and unpacking gives the input back when there is room for it. *)
Definition LIBBSC_HEADER_SIZE : Z := 28.

Hypothesis bsc_codes : forall data n code,
  bsc_compress data n = inl code -> -9 <= code < 0.

Hypothesis bsc_length : forall data n packed,
  bsc_compress data n = inr packed -> Z.of_nat (length packed) <= n + LIBBSC_HEADER_SIZE.

Hypothesis bsc_lossless : forall data packed room,
  bsc_compress data (Z.of_nat (length data)) = inr packed -> Z.of_nat (length data) <= room ->
  bsc_decompress packed room = Some data.

(** The buffer is filled for every input, and holds at most ten bytes for a value. *)
Lemma lfzip_fill_correct input error :
  Forall is_u64 input -> 10 * Z.of_nat (length input) + 32 < 2 ^ 31 ->
  exists p bins overflow rec,
    new_NLMS_base 32 f64_0_5 f64_1 = Some p /\
    compress_loop p error (replicate (length input) f64_0) 0 input = Some (bins, overflow, rec) /\
    lfzip_fill input error = Some (store_array 2 (u16 <$> bins) ++ store_array 8 overflow) /\
    length bins = length input /\ (length overflow <= length input)%nat /\
    Forall2 (within error) input rec.
Proof.
  intros Hin Hlen. unfold lfzip_fill.
  destruct (new_NLMS_base 32 f64_0_5 f64_1) as [p |] eqn:Ep; [| vm_compute in Ep; discriminate].
  cbn [mbind option_bind]. set (zeros := replicate _ f64_0).
  assert (length zeros = length input) as Hz by apply length_replicate.
  rewrite assert_true by (apply Z.leb_le; unfold INT32_MAX; lia). cbn [mbind option_bind].
  destruct (overflow_total error input p zeros 0) as (bins & overflow & rec & E); [lia |].
  destruct (compress_loop_shape error input p zeros 0 bins overflow rec)
    as (H1 & H2 & H3 & H4 & _ & H6); [lia | done |].
  apply sublist_length in H3. rewrite drop_0, take_ge in H6 by lia.
  exists p, bins, overflow, rec. rewrite E. auto 7.
Qed.

(** C21: for every input whose buffer of ten bytes a value (and the 32 bytes of headers) fits
    an [int], not-a-numbers and infinities included, compression returns an error code of
    libbsc plus four, libbsc having refused the buffer it was given, or the number of bytes of
    the output; decompression of the output then gives the reconstruction of the compressor,
    each value of which is the input or within the error of it. *)
Theorem lfzip_roundtrip input error :
  Forall is_u64 input -> 10 * Z.of_nat (length input) + 32 < 2 ^ 31 ->
  exists tmp res out, lfzip_fill input error = Some tmp /\
    lfzip_compress input error = Some (res, out) /\
    ((exists code, bsc_compress tmp (Z.of_nat (length tmp)) = inl code /\ res = code + 4) \/
     res = Z.of_nat (length out) /\
     exists rec, lfzip_decompress out res error = Some rec /\ Forall2 (within error) input rec).
Proof.
  intros Hin Hlen.
  destruct (lfzip_fill_correct input error Hin Hlen)
    as (p & bins & overflow & rec & Ep & E & Ef & Hb & Ho & Hw).
  unfold lfzip_compress, lfzip_decompress. rewrite Ef, Ep. cbn [mbind option_bind].
  set (tmp := store_array 2 _ ++ _).
  assert (length tmp = (2 * length input + 8 * length overflow)%nat) as Ht.
  { unfold tmp. rewrite length_app, !length_store_array, length_fmap. lia. }
  set (len := Z.of_nat (length input)) in *.
  rewrite i32_id, u32_id by (unfold is_i32, is_u32; lia).
  destruct (bsc_compress tmp _) as [code | packed] eqn:Eb.
  { pose proof (bsc_codes _ _ _ Eb). rewrite int_of_ok by (unfold is_i32; lia).
    do 3 eexists. split; [done |]. split; [done |]. left. eauto. }
  pose proof (bsc_length _ _ _ Eb) as Hp. unfold LIBBSC_HEADER_SIZE in Hp.
  rewrite int_of_ok by (unfold is_i32; lia). do 3 eexists. split; [done |]. split; [done |]. right.
  split; [rewrite length_app, length_le_bytes; lia |].
  rewrite (load_at 4 4 (le_bytes 4 len ++ packed) [] len packed) by (lia || done).
  cbn [mbind option_bind].
  rewrite !i32_id, (assert_true (0 <=? _)) by ((apply Z.leb_le; lia) || (unfold is_i32; lia)).
  cbn [mbind option_bind].
  assert (slice (le_bytes 4 len ++ packed) 4 (Z.of_nat (length packed) + 4 - 4) = Some packed) as ->.
  { rewrite <- (app_nil_r packed) at 1. apply slice_app; [by rewrite length_le_bytes | lia]. }
  cbn [mbind option_bind].
  rewrite (bsc_lossless tmp packed) by (lia || done). cbn [mbind option_bind].
  rewrite assert_true by (apply Z.leb_le; unfold INT32_MAX; lia). cbn [mbind option_bind].
  rewrite (load_n_at 2 tmp [] (u16 <$> bins) (store_array 8 overflow) 0 len)
    by (rewrite ?length_fmap; lia || done ||
        (apply Forall_fmap, Forall_forall; intros; apply Z.mod_pos_bound; lia)).
  cbn [mbind option_bind]. exists rec. split; [| done]. unfold len. rewrite Nat2Z.id.
  eapply (loops_agree error tmp _ input p _ 0 bins overflow rec
            (store_array 2 (u16 <$> bins)) []); eauto.
  - rewrite length_replicate. lia.
  - by rewrite app_nil_r.
  - rewrite length_store_array, length_fmap. lia.
Qed.

End codec_correct.
End codec.

(** A packer that stores, and 40 values: 0.5, 0.5, ... and a NaN. *)
Definition stored (data : list Z) (n : Z) : Z + list Z :=
  if n <? 0 then inl (-1) else inr (take (Z.to_nat n) data).
Definition unstored (packed : list Z) (room : Z) : option (list Z) :=
  if Z.of_nat (length packed) <=? room then Some packed else None.
Definition sample : list Z := replicate 39 f64_0_5 ++ [f64_nan].

Lemma lfzip_roundtrip_witness :
  exists tmp res out, lfzip_fill sample f64_0_5 = Some tmp /\
    lfzip_compress stored sample f64_0_5 = Some (res, out) /\
    ((exists code, stored tmp (Z.of_nat (length tmp)) = inl code /\ res = code + 4) \/
     res = Z.of_nat (length out) /\
     exists rec, lfzip_decompress unstored out res f64_0_5 = Some rec /\
     Forall2 (within f64_0_5) sample rec).
Proof.
  apply (lfzip_roundtrip stored unstored).
  - intros data n code. unfold stored. case_match; intros; simplify_eq. lia.
  - intros data n packed. unfold stored, LIBBSC_HEADER_SIZE. destruct (Z.ltb_spec n 0); [done |].
    intros E. simplify_eq. rewrite length_take. lia.
  - intros data packed room E Hr. unfold stored in E. rewrite Nat2Z.id, take_ge in E by lia.
    rewrite (proj2 (Z.ltb_ge _ _)) in E by lia. simplify_eq.
    unfold unstored. by rewrite (proj2 (Z.leb_le _ _)).
  - apply Forall_app. split; [apply Forall_replicate; unfold is_u64, f64_0_5; lia |].
    repeat constructor; unfold is_u64, f64_nan; lia.
  - simpl. lia.
Defined.

End Lfzip.
