(* ===== verification/SzBytes.v ===== *)
(** * SzBytes: bytes and streams of SZ3

    Models [SZ3/utils/ByteUtil.hpp] (big-endian integers, truncated floats and the leading
    bytes code) and [SZ3/utils/MemoryUtil.hpp] (reading and writing through a pointer that
    advances).  A pointer into a buffer that is written is the list of bytes written
    before it; one into a buffer that is read is the list of bytes after it.  A [float] is
    its 32-bit pattern. *)

From Stdlib Require Import ZArith Lia Ascii.
From S2P Require Import Prelude Bits Bytes.

Module ByteUtil.

(** ** Integers in big-endian order *)

Definition symTransform_4bytes (data : list Z) : option (list Z) :=
  match data with
  | b0 :: b1 :: b2 :: b3 :: rest => Some (b3 :: b2 :: b1 :: b0 :: rest)
  | _ => None
  end.

Definition int16ToBytes_bigEndian (num : Z) : list Z :=
  [u8 (Z.shiftr num 8); u8 num].

Definition int32ToBytes_bigEndian (num : Z) : list Z :=
  [u8 (Z.shiftr num 24); u8 (Z.shiftr num 16); u8 (Z.shiftr num 8); u8 num].

Definition int64ToBytes_bigEndian (num : Z) : list Z :=
  [u8 (Z.shiftr num 56); u8 (Z.shiftr num 48); u8 (Z.shiftr num 40); u8 (Z.shiftr num 32);
   u8 (Z.shiftr num 24); u8 (Z.shiftr num 16); u8 (Z.shiftr num 8); u8 num].

(** [res <<= 8; res |= bytes[i] & 0xff] on a signed integer of [w] bits. *)
Definition push_byte (w res b : Z) : Z :=
  Z.lor (swrap w (Z.shiftl res 8)) (Z.land b 0xff).

Definition bytesToInt16_bigEndian (bytes : list Z) : option Z :=
  match bytes with
  | b0 :: b1 :: _ => Some (foldl (push_byte 16) 0 [b0; b1])
  | _ => None
  end.

Definition bytesToInt32_bigEndian (bytes : list Z) : option Z :=
  match bytes with
  | b0 :: b1 :: b2 :: b3 :: _ => Some (foldl (push_byte 32) 0 [b0; b1; b2; b3])
  | _ => None
  end.

Definition bytesToInt64_bigEndian (b : list Z) : option Z :=
  match b with
  | b0 :: b1 :: b2 :: b3 :: b4 :: b5 :: b6 :: b7 :: _ =>
      Some (foldl (push_byte 64) 0 [b0; b1; b2; b3; b4; b5; b6; b7])
  | _ => None
  end.

(** ** Floats *)

(** The characters of the pattern, the sign first: the loop fills the string from its
    end. *)
Definition floatToBinary (f : Z) : list ascii :=
  (foldl (fun st i =>
     (<[(31 - i)%nat := if st.2 mod 2 =? 0 then "0"%char else "1"%char]> st.1, Z.shiftr st.2 1))
     (replicate 32 "0"%char, f) (seq 0 32)).1.

(** The [byteLen] most significant bytes of every float. *)
Definition truncateArray (data : list Z) (byteLen : nat) : list Z :=
  data ≫= fun v => drop (4 - byteLen) (le_bytes 4 v).

(** The union keeps its bytes from one float to the next. *)
Fixpoint truncateArrayRecover (bytes binary : list Z) (n byteLen : nat) : option (list Z) :=
  match n with
  | O => Some []
  | S n =>
      b ← slice binary 0 (Z.of_nat byteLen);
      let bytes := take (4 - byteLen) bytes ++ b in
      data ← truncateArrayRecover bytes (drop byteLen binary) n byteLen;
      Some (le_val bytes :: data)
  end.

(** The low bytes in which [data] differs from [pre]. *)
Definition LeadingBitsEncode (pre data : Z) : list Z :=
  let x := Z.lxor data pre in
  let n :=
    if x =? 0 then 0%nat
    else if Z.shiftr x 8 =? 0 then 1%nat
    else if Z.shiftr x 16 =? 0 then 2%nat
    else if Z.shiftr x 24 =? 0 then 3%nat
    else 4%nat in
  take n (le_bytes 4 data).

Definition LeadingBitsDecode (pre : Z) (bytes : list Z) : option Z :=
  if (length bytes <=? 4)%nat
  then Some (le_val (bytes ++ drop (length bytes) (le_bytes 4 pre)))
  else None.

(** ** Lemmas *)

Lemma le_bytes_S n v : le_bytes (S n) v = v mod 256 :: le_bytes n (v / 256).
Proof. done. Qed.

Lemma le_val_cons b l : le_val (b :: l) = b + 256 * le_val l.
Proof. done. Qed.

Lemma swrap_byte w x b :
  8 < w -> Z.lor (swrap w (Z.shiftl x 8)) (Z.land b 0xff) = swrap w (x * 256 + b mod 256).
Proof.
  intros Hw. change 0xff with (Z.ones 8). rewrite Z.land_ones by lia. change (2 ^ 8) with 256.
  pose proof (Z.mod_pos_bound b 256 ltac:(lia)) as Hb.
  assert (2 ^ (w - 1) = 2 ^ (w - 9) * 256) as E1
    by (change 256 with (2 ^ 8); rewrite <- Z.pow_add_r by lia; f_equal; lia).
  assert (2 ^ w = 2 ^ (w - 8) * 256) as E2
    by (change 256 with (2 ^ 8); rewrite <- Z.pow_add_r by lia; f_equal; lia).
  assert (0 < 2 ^ (w - 8)) as Hp by (apply Z.pow_pos_nonneg; lia).
  rewrite Z.shiftl_mul_pow2 by lia. change (2 ^ 8) with 256. unfold swrap. rewrite E1, E2.
  replace (x * 256 + b mod 256 + 2 ^ (w - 9) * 256) with ((x + 2 ^ (w - 9)) * 256 + b mod 256) by lia.
  replace (x * 256 + 2 ^ (w - 9) * 256) with ((x + 2 ^ (w - 9)) * 256) by lia.
  rewrite Z.mul_mod_distr_r by lia.
  rewrite <- (Z.mul_sub_distr_r _ _ 256).
  match goal with |- Z.lor (?a * 256) ?b = _ => pose proof (lor_add_disjoint a b 8) as E end.
  change (2 ^ 8) with 256 in E. rewrite E by lia. clear E.
  rewrite (Z.mod_eq ((x + 2 ^ (w - 9)) * 256 + b mod 256)) by lia.
  rewrite (Z.mod_eq (x + 2 ^ (w - 9))) by lia.
  rewrite (Z.mul_comm (2 ^ (w - 8)) 256), <- Z.div_div by lia.
  rewrite Z.div_add_l, (Z.div_small (b mod 256)) by lia. rewrite Z.add_0_r. ring.
Qed.

Lemma swrap_shift w x : exists k, swrap w x = x + k * 2 ^ w.
Proof.
  exists (- ((x + 2 ^ (w - 1)) / 2 ^ w)). unfold swrap.
  destruct (Z.eq_dec (2 ^ w) 0) as [E | E]; [rewrite E, Zmod_0_r; lia |].
  rewrite Z.mod_eq by done. lia.
Qed.

Lemma swrap_add w x k : swrap w (x + k * 2 ^ w) = swrap w x.
Proof.
  unfold swrap. replace (x + k * 2 ^ w + 2 ^ (w - 1)) with (x + 2 ^ (w - 1) + k * 2 ^ w) by lia.
  by rewrite Z_mod_plus_full.
Qed.

(** Pushing the bytes of [num] gives back its low bits. *)
Lemma push_bytes w n : forall num, 8 < w ->
  foldl (push_byte w) 0 (reverse (le_bytes n num)) = swrap w (num mod 2 ^ (8 * Z.of_nat n)).
Proof.
  induction n as [| n IH]; intros num Hw.
  { rewrite Z.mod_1_r. change (0 = swrap w 0). symmetry. apply swrap_id; [lia |].
    pose proof (Z.pow_pos_nonneg 2 (w - 1) ltac:(lia) ltac:(lia)). lia. }
  rewrite le_bytes_S, reverse_cons, foldl_app, IH by done. cbn [foldl].
  unfold push_byte. rewrite swrap_byte, Z.mod_mod by lia.
  replace (8 * Z.of_nat (S n)) with (8 + 8 * Z.of_nat n) by lia.
  rewrite Z.pow_add_r by lia. change (2 ^ 8) with 256.
  rewrite Z.rem_mul_r by (try apply Z.pow_pos_nonneg; lia).
  set (y := num / 256 mod _). destruct (swrap_shift w y) as [k ->].
  replace ((y + k * 2 ^ w) * 256 + num mod 256)
    with (num mod 256 + 256 * y + (k * 256) * 2 ^ w) by lia. apply swrap_add.
Qed.

Lemma u8_le_bytes num i : 0 <= i -> u8 (Z.shiftr num i) = num / 2 ^ i mod 256.
Proof. intros. unfold u8. by rewrite Z.shiftr_div_pow2. Qed.

Ltac be_bytes :=
  unfold le_bytes; cbn [reverse rev_append];
  rewrite ?u8_le_bytes, ?Z.div_div by lia; unfold u8; repeat f_equal.

Lemma int16_bytes num : int16ToBytes_bigEndian num = reverse (le_bytes 2 num).
Proof. unfold int16ToBytes_bigEndian. be_bytes. Qed.
Lemma int32_bytes num : int32ToBytes_bigEndian num = reverse (le_bytes 4 num).
Proof. unfold int32ToBytes_bigEndian. be_bytes. Qed.
Lemma int64_bytes num : int64ToBytes_bigEndian num = reverse (le_bytes 8 num).
Proof. unfold int64ToBytes_bigEndian. be_bytes. Qed.

(** Reading an integer back, with anything after it. *)
Lemma bytes_int16 num tl :
  bytesToInt16_bigEndian (int16ToBytes_bigEndian num ++ tl) = Some (i16 num).
Proof.
  unfold bytesToInt16_bigEndian, int16ToBytes_bigEndian. cbn [app]. f_equal.
  change [u8 (Z.shiftr num 8); u8 num] with (int16ToBytes_bigEndian num).
  rewrite int16_bytes, push_bytes by lia. by apply (swrap_mod 16).
Qed.

Lemma bytes_int32 num tl :
  bytesToInt32_bigEndian (int32ToBytes_bigEndian num ++ tl) = Some (i32 num).
Proof.
  unfold bytesToInt32_bigEndian, int32ToBytes_bigEndian. cbn [app]. f_equal.
  change [u8 (Z.shiftr num 24); u8 (Z.shiftr num 16); u8 (Z.shiftr num 8); u8 num]
    with (int32ToBytes_bigEndian num).
  rewrite int32_bytes, push_bytes by lia. by apply (swrap_mod 32).
Qed.

Lemma bytes_int64 num tl :
  bytesToInt64_bigEndian (int64ToBytes_bigEndian num ++ tl) = Some (i64 num).
Proof.
  unfold bytesToInt64_bigEndian, int64ToBytes_bigEndian. cbn [app]. f_equal.
  change (u8 (Z.shiftr num 56) :: _) with (int64ToBytes_bigEndian num).
  rewrite int64_bytes, push_bytes by lia. by apply (swrap_mod 64).
Qed.

(** The big-endian conversions of 16, 32 and 64 bits are inverse to each other on the
    signed integers of their width. *)
Theorem bigEndian_roundtrip n16 n32 n64 tl :
  - 2 ^ 15 <= n16 < 2 ^ 15 -> is_i32 n32 -> - 2 ^ 63 <= n64 < 2 ^ 63 ->
  bytesToInt16_bigEndian (int16ToBytes_bigEndian n16 ++ tl) = Some n16 /\
  bytesToInt32_bigEndian (int32ToBytes_bigEndian n32 ++ tl) = Some n32 /\
  bytesToInt64_bigEndian (int64ToBytes_bigEndian n64 ++ tl) = Some n64.
Proof.
  intros H16 H32 H64. rewrite bytes_int16, bytes_int32, bytes_int64.
  unfold i16, i32, i64. by rewrite !swrap_id by (done || lia).
Qed.

Lemma le_val_app a b : le_val (a ++ b) = le_val a + 2 ^ (8 * Z.of_nat (length a)) * le_val b.
Proof.
  induction a as [| x a IH]; [change (le_val []) with 0; simpl; lia |]. cbn [app length].
  rewrite !le_val_cons, IH.
  replace (8 * Z.of_nat (S (length a))) with (8 + 8 * Z.of_nat (length a)) by lia.
  rewrite Z.pow_add_r by lia. change (2 ^ 8) with 256. lia.
Qed.

Lemma take_le_bytes n : forall k v, (k <= n)%nat -> take k (le_bytes n v) = le_bytes k v.
Proof.
  induction n as [| n IH]; intros [| k] v Hk; [done | lia | done |].
  rewrite !le_bytes_S. cbn [take]. by rewrite IH by lia.
Qed.

Lemma drop_le_bytes n : forall k v,
  (k <= n)%nat -> drop k (le_bytes n v) = le_bytes (n - k) (v / 2 ^ (8 * Z.of_nat k)).
Proof.
  induction n as [| n IH]; intros [| k] v Hk; try done; try lia.
  - by rewrite Z.div_1_r.
  - rewrite le_bytes_S. cbn [drop]. rewrite IH by lia.
    rewrite Z.div_div by (try apply Z.pow_pos_nonneg; lia).
    replace (8 * Z.of_nat (S k)) with (8 + 8 * Z.of_nat k) by lia.
    rewrite Z.pow_add_r by lia. done.
Qed.

(** Patterns that differ in their low [8 * n] bits only. *)
Lemma same_high n x y :
  0 <= n -> 0 <= x -> 0 <= y -> Z.shiftr (Z.lxor x y) n = 0 -> x / 2 ^ n = y / 2 ^ n.
Proof.
  intros Hn Hx Hy E. rewrite Z.shiftr_lxor in E. apply Z.lxor_eq in E.
  by rewrite <- !Z.shiftr_div_pow2.
Qed.

Lemma leading_decode n pre data :
  (n <= 4)%nat -> is_u32 pre -> is_u32 data ->
  data / 2 ^ (8 * Z.of_nat n) = pre / 2 ^ (8 * Z.of_nat n) ->
  LeadingBitsDecode pre (take n (le_bytes 4 data)) = Some data.
Proof.
  intros Hn Hp Hd E. unfold LeadingBitsDecode. rewrite take_le_bytes, length_le_bytes by done.
  rewrite (proj2 (Nat.leb_le _ _)) by done. f_equal.
  rewrite drop_le_bytes, <- E, <- drop_le_bytes by done.
  rewrite <- (take_le_bytes 4), take_drop by done. by apply le_val_bytes_small.
Qed.

(** A float is recovered from its predecessor and the low bytes in which they differ. *)
Theorem leadingBits_roundtrip pre data :
  is_u32 pre -> is_u32 data ->
  LeadingBitsDecode pre (LeadingBitsEncode pre data) = Some data.
Proof.
  intros Hp Hd. unfold LeadingBitsEncode. unfold is_u32 in *.
  repeat case_match; to_prop; apply leading_decode; try done; try lia.
  - apply Z.lxor_eq in H. by subst.
  - apply (same_high 8); done || lia.
  - apply (same_high 16); done || lia.
  - apply (same_high 24); done || lia.
  - rewrite !Z.div_small by (change (2 ^ (8 * Z.of_nat 4)) with (2 ^ 32); lia). done.
Qed.

(** The float without its [4 - byteLen] low bytes. *)
Definition truncated (byteLen : nat) (v : Z) : Z :=
  v - v mod 2 ^ (8 * Z.of_nat (4 - byteLen)).

Lemma le_val_zeros n l : le_val (replicate n 0 ++ l) = 2 ^ (8 * Z.of_nat n) * le_val l.
Proof.
  rewrite le_val_app, length_replicate.
  assert (le_val (replicate n 0) = 0) as ->; [| lia].
  induction n as [| n IH]; [done |]. simpl replicate. rewrite le_val_cons. lia.
Qed.

Lemma truncate_recover byteLen data : forall bytes tl,
  (byteLen <= 4)%nat -> Forall is_u32 data -> length bytes = 4%nat ->
  take (4 - byteLen) bytes = replicate (4 - byteLen) 0 ->
  truncateArrayRecover bytes (truncateArray data byteLen ++ tl) (length data) byteLen
  = Some (truncated byteLen <$> data).
Proof.
  intros bytes tl Hb Hd. revert bytes. induction Hd as [| v data Hv Hd IH]; intros bytes Hlen Hz; [done |].
  change (truncateArray (v :: data) byteLen)
    with (drop (4 - byteLen) (le_bytes 4 v) ++ truncateArray data byteLen).
  set (hi := drop (4 - byteLen) (le_bytes 4 v)).
  assert (length hi = byteLen) as Hhi by (unfold hi; rewrite length_drop, length_le_bytes; lia).
  cbn [length truncateArrayRecover]. rewrite <- app_assoc.
  pose proof (slice_app [] hi (truncateArray data byteLen ++ tl) 0 (Z.of_nat byteLen)) as Es.
  rewrite app_nil_l in Es. rewrite Es by (done || lia). cbn [mbind option_bind].
  rewrite drop_app_length' by done. rewrite Hz, IH.
  - cbn [mbind option_bind]. rewrite fmap_cons. do 2 f_equal. rewrite le_val_zeros.
    unfold hi. rewrite drop_le_bytes, le_val_bytes by lia. unfold truncated, is_u32 in *.
    set (k := (4 - byteLen)%nat). assert (0 < 2 ^ (8 * Z.of_nat k)) by (apply Z.pow_pos_nonneg; lia).
    rewrite Z.mod_small.
    + pose proof (Z.div_mod v (2 ^ (8 * Z.of_nat k))). lia.
    + split; [apply Z.div_pos; lia |]. apply Z.div_lt_upper_bound; [done |].
      rewrite <- Z.pow_add_r by lia. replace (_ + _) with 32 by lia. lia.
  - rewrite length_app, length_replicate. lia.
  - by rewrite take_app_length' by (by rewrite length_replicate).
Qed.

(** Recovering truncated floats gives each float with its dropped low bytes zero. *)
Theorem truncate_roundtrip byteLen data :
  (byteLen <= 4)%nat -> Forall is_u32 data ->
  truncateArrayRecover (le_bytes 4 0) (truncateArray data byteLen) (length data) byteLen
  = Some (truncated byteLen <$> data).
Proof.
  intros Hb Hd. rewrite <- (app_nil_r (truncateArray data byteLen)).
  apply truncate_recover; try done. rewrite take_le_bytes by lia.
  destruct byteLen as [| [| [| [| [| ?]]]]]; done || lia.
Qed.

Lemma bigEndian_roundtrip_witness :
  bytesToInt16_bigEndian (int16ToBytes_bigEndian (-300) ++ [7]) = Some (-300) /\
  bytesToInt32_bigEndian (int32ToBytes_bigEndian (-70000) ++ [7]) = Some (-70000) /\
  bytesToInt64_bigEndian (int64ToBytes_bigEndian (2 ^ 40 - 1) ++ [7]) = Some (2 ^ 40 - 1).
Proof. apply (bigEndian_roundtrip (-300) (-70000) (2 ^ 40 - 1) [7]); unfold is_i32; lia. Defined.

Lemma leadingBits_roundtrip_witness :
  LeadingBitsDecode 0x3f800000 (LeadingBitsEncode 0x3f800000 0x3f812345) = Some 0x3f812345.
Proof. apply (leadingBits_roundtrip 0x3f800000 0x3f812345); unfold is_u32; lia. Defined.

Lemma truncate_roundtrip_witness :
  truncateArrayRecover (le_bytes 4 0) (truncateArray [0x3f812345; 0x41200001] 2) 2 2
  = Some [0x3f810000; 0x41200000].
Proof.
  apply (truncate_roundtrip 2 [0x3f812345; 0x41200001]);
    [lia | repeat constructor; unfold is_u32; lia].
Defined.

End ByteUtil.

(** ** Reading and writing through a pointer that advances *)

Module MemoryUtil.

(** A variable of [k] bytes; [None] past the end of the buffer. *)
Definition read_var (k : nat) (c : list Z) : option (Z * list Z) :=
  b ← slice c 0 (Z.of_nat k);
  Some (le_val b, drop k c).

(** With the number of bytes left, which is checked and reduced. *)
Definition read_var_len (k : nat) (c : list Z) (remaining_length : Z)
    : option (Z * list Z * Z) :=
  _ ← assert (Z.of_nat k <=? remaining_length);
  '(v, c) ← read_var k c;
  Some (v, c, remaining_length - Z.of_nat k).

(** [num_elements] variables of [k] bytes. *)
Definition read_array (k : nat) (num_elements : Z) (c : list Z) : option (list Z * list Z) :=
  xs ← load_n k c 0 num_elements;
  Some (xs, drop (k * Z.to_nat num_elements) c).

Definition read_array_len (k : nat) (num_elements : Z) (c : list Z) (remaining_length : Z)
    : option (list Z * list Z * Z) :=
  _ ← assert (num_elements * Z.of_nat k <=? remaining_length);
  '(xs, c) ← read_array k num_elements c;
  Some (xs, c, remaining_length - num_elements * Z.of_nat k).

Definition write_var (k : nat) (var : Z) (c : list Z) : list Z := c ++ le_bytes k var.
Definition write_array (k : nat) (array : list Z) (c : list Z) : list Z := c ++ store_array k array.

(** A string is written as C strings are: its bytes up to the first zero, and a zero.  The
    pointer advances by the length of the C++ string; what it skips keeps the contents
    [old] of the buffer. *)
Definition c_str (var : list Z) : list Z :=
  match list_find (.= 0) var with Some (i, _) => take i var | None => var end.

Definition write_str (old var c : list Z) : list Z :=
  c ++ c_str var ++ 0 :: take (length var - length (c_str var)) old.

Definition read_str (c : list Z) : option (list Z * list Z) :=
  match list_find (.= 0) c with
  | Some (i, _) => Some (take i c, drop (S i) c)
  | None => None
  end.

Lemma read_var_le k v tl :
  0 <= v < 2 ^ (8 * Z.of_nat k) -> read_var k (le_bytes k v ++ tl) = Some (v, tl).
Proof.
  intros Hv. unfold read_var.
  pose proof (slice_app [] (le_bytes k v) tl 0 (Z.of_nat k)) as E. rewrite app_nil_l in E.
  rewrite E by (rewrite ?length_le_bytes; done). cbn [mbind option_bind].
  by rewrite le_val_bytes_small, drop_app_length' by (done || by rewrite length_le_bytes).
Qed.

Lemma read_array_le k n xs tl :
  n = Z.of_nat (length xs) -> Forall (fun x => 0 <= x < 2 ^ (8 * Z.of_nat k)) xs ->
  read_array k n (store_array k xs ++ tl) = Some (xs, tl).
Proof.
  intros -> Hx. unfold read_array. rewrite (load_n_at k _ [] xs tl 0) by done. cbn [mbind option_bind].
  by rewrite Nat2Z.id, drop_app_length' by (by rewrite length_store_array).
Qed.

Lemma read_var_len_le k v tl rem :
  0 <= v < 2 ^ (8 * Z.of_nat k) -> Z.of_nat k <= rem ->
  read_var_len k (le_bytes k v ++ tl) rem = Some (v, tl, rem - Z.of_nat k).
Proof.
  intros Hv Hr. unfold read_var_len. rewrite assert_true by (by apply Z.leb_le).
  cbn [mbind option_bind]. by rewrite read_var_le.
Qed.

Lemma read_array_len_le k xs tl rem n :
  n = Z.of_nat (length xs) -> Forall (fun x => 0 <= x < 2 ^ (8 * Z.of_nat k)) xs -> n * Z.of_nat k <= rem ->
  read_array_len k n (store_array k xs ++ tl) rem = Some (xs, tl, rem - n * Z.of_nat k).
Proof.
  intros Hn Hx Hr. unfold read_array_len. rewrite assert_true by (by apply Z.leb_le).
  cbn [mbind option_bind]. by rewrite (read_array_le k n xs tl Hn Hx).
Qed.

(** A string without zeros is read back, and the pointer is left after it. *)
Theorem str_roundtrip old var tl :
  Forall (fun b => b <> 0) var -> read_str (write_str old var [] ++ tl) = Some (var, tl).
Proof.
  intros Hv.
  assert (list_find (.= 0) var = None) as E.
  { apply list_find_None. eapply Forall_impl; [| exact Hv]. done. }
  unfold write_str, c_str. rewrite E, Nat.sub_diag. cbn [take app].
  unfold read_str. rewrite <- app_assoc, list_find_app_r by done. cbn [app].
  assert (list_find (.= 0) (0 :: take 0 old ++ tl) = Some (0%nat, 0)) as -> by done.
  cbn [fmap option_fmap option_map prod_map fst snd]. rewrite Nat.add_0_l, take_app_length. do 2 f_equal.
  rewrite drop_app_ge by lia. by replace (S (length var) - length var)%nat with 1%nat by lia.
Qed.

Lemma str_roundtrip_witness : read_str (write_str [7] [65; 66] [] ++ [9]) = Some ([65; 66], [9]).
Proof. apply (str_roundtrip [7] [65; 66] [9]). repeat constructor; lia. Defined.

End MemoryUtil.
