(* ===== verification/Quantizer.v ===== *)
(** * Quantizer: error-bounded quantization of SZ3

    Models [SZ3/quantizer/Quantizer.hpp] and [SZ3/quantizer/IntegerQuantizer.hpp] at
    [T = double].  The decompositions use a quantizer through the interface
    [QuantizerInterface]; [LinearQuantizer] implements it.

    The law that matters is about two quantizers: the one of the compressor, which
    overwrites every value by what the decompressor will see, and the one of the
    decompressor, loaded from what the first saved. *)

From Stdlib Require Import ZArith Lia.
From S2P Require Import Prelude Bytes Float64 SzBytes.

(** ** The interface *)

Class QuantizerInterface (Q : Type) := {
  (** the index, the value that replaces the data, and the state after *)
  q_quantize : Q -> Z -> Z -> Z * Z * Q;
  q_recover : Q -> Z -> Z -> option (Z * Q);
  q_radius : Q -> Z;
  q_size_est : Q -> Z;
  q_save : Q -> list Z;
  q_load : Q -> list Z -> Z -> option (Q * list Z * Z);

  (** a quantizer that has compressed nothing *)
  fresh : Q -> Prop;
  (** what is kept fits its representation *)
  storable : Q -> Prop;
  (** the compressor's quantizer can still become the second one *)
  leads : Q -> Q -> Prop;
  (** the decompressor's quantizer [d] is where the compressor's was at [q], and will be
      given what that one produces on the way to [qf] *)
  follows : Q -> Q -> Q -> Prop;
  (** the values the quantizer is made for, with their predictions *)
  quantizable : Q -> Z -> Z -> Prop;
  (** the accuracy promised for a value *)
  accurate : Q -> Z -> Z -> Prop;

  leads_preorder :: PreOrder leads;
  leads_quantizable q q' data pred : leads q q' -> quantizable q data pred <-> quantizable q' data pred;
  leads_accurate q q' data r : leads q q' -> accurate q data r <-> accurate q' data r;
  leads_radius q q' : leads q q' -> q_radius q' = q_radius q;
  quantize_leads q data pred i data' q' :
    q_quantize q data pred = (i, data', q') -> leads q q';
  quantize_storable q data pred i data' q' :
    q_quantize q data pred = (i, data', q') -> storable q -> is_u64 data -> storable q';
  quantize_index q data pred i data' q' :
    quantizable q data pred -> q_quantize q data pred = (i, data', q') ->
    0 <= i < 2 * q_radius q /\ accurate q data data';
  recover_follows d q qf data pred i data' q' :
    quantizable q data pred -> q_quantize q data pred = (i, data', q') ->
    leads q' qf -> follows d q qf ->
    exists d', q_recover d pred i = Some (data', d') /\ follows d' q' qf;
  load_follows d0 q0 qf tl rem :
    fresh q0 -> leads q0 qf -> storable qf -> Z.of_nat (length (q_save qf)) <= rem < 2 ^ 64 ->
    exists d rem', q_load d0 (q_save qf ++ tl) rem = Some (d, tl, rem') /\
      follows d q0 qf /\ rem - Z.of_nat (length (q_save qf)) <= rem' <= rem
}.

(** ** The linear quantizer *)

Module LinearQuantizer.
Import MemoryUtil.

(** The literals 1.0 and 0. *)
Definition f64_1 : Z := 0x3ff0000000000000.

Record LinearQuantizer := mk {
  unpred : list Z;
  index : Z;
  error_bound : Z;
  error_bound_reciprocal : Z;
  radius : Z
}.

Definition new_default : LinearQuantizer := mk [] 0 f64_1 f64_1 32768.

Definition new (eb r : Z) : option LinearQuantizer :=
  _ ← assert (negb (f64_eqb eb 0));
  Some (mk [] 0 eb (f64_div f64_1 eb) r).

Definition set_eb (q : LinearQuantizer) (eb : Z) : LinearQuantizer :=
  mk (unpred q) (index q) eb (f64_div f64_1 eb) (radius q).

Definition push_unpred (q : LinearQuantizer) (data : Z) : LinearQuantizer :=
  mk (unpred q ++ [data]) (index q) (error_bound q) (error_bound_reciprocal q) (radius q).

(** [(int64_t) (fabs(diff) * this->error_bound_reciprocal)] *)
Definition steps (q : LinearQuantizer) (data pred : Z) : Z :=
  f64_to_i64 (f64_mul (f64_abs (f64_sub data pred)) (error_bound_reciprocal q)).

(** The index, the new value of [data], and the quantizer. *)
Definition quantize_and_overwrite (q : LinearQuantizer) (data pred : Z)
    : Z * Z * LinearQuantizer :=
  let diff := f64_sub data pred in
  let quant_index := i64 (steps q data pred + 1) in
  if quant_index <? i32 (radius q * 2) then
    let quant_index := Z.shiftr quant_index 1 in
    let half_index := i32 quant_index in
    let quant_index := i64 (Z.shiftl quant_index 1) in
    let '(quant_index, quant_index_shifted) :=
      if f64_ltb diff 0 then (i64 (- quant_index), i32 (radius q - half_index))
      else (quant_index, i32 (radius q + half_index)) in
    let decompressed_data := f64_add pred (f64_mul (f64_of_Z quant_index) (error_bound q)) in
    if f64_ltb (error_bound q) (f64_abs (f64_sub decompressed_data data))
    then (0, data, push_unpred q data)
    else (quant_index_shifted, decompressed_data, q)
  else (0, data, push_unpred q data).

(** The variant of the meta Lorenzo predictor: the value goes to [dest]. *)
Definition quantize_and_overwrite_dest (q : LinearQuantizer) (ori pred : Z)
    : Z * Z * LinearQuantizer := quantize_and_overwrite q ori pred.

Definition recover_pred (q : LinearQuantizer) (pred quant_index : Z) : Z :=
  f64_add pred (f64_mul (f64_of_Z (i32 (2 * i32 (quant_index - radius q)))) (error_bound q)).

Definition recover_unpred (q : LinearQuantizer) : option (Z * LinearQuantizer) :=
  v ← unpred q !! Z.to_nat (index q);
  Some (v, mk (unpred q) (index q + 1) (error_bound q) (error_bound_reciprocal q) (radius q)).

Definition recover (q : LinearQuantizer) (pred quant_index : Z) : option (Z * LinearQuantizer) :=
  if quant_index =? 0 then recover_unpred q else Some (recover_pred q pred quant_index, q).

Definition size_est (q : LinearQuantizer) : Z := Z.of_nat (length (unpred q)) * 8.

Definition save (q : LinearQuantizer) : list Z :=
  [2] ++ le_bytes 8 (error_bound q) ++ le_bytes 4 (u32 (radius q))
    ++ le_bytes 8 (Z.of_nat (length (unpred q))) ++ store_array 8 (unpred q).

(** [remaining_length] is reduced by the first byte only. *)
Definition load (q : LinearQuantizer) (c : list Z) (remaining_length : Z)
    : option (LinearQuantizer * list Z * Z) :=
  _ ← assert (1 + 8 + 4 <? remaining_length);
  '(_, c) ← read_var 1 c;
  '(eb, c) ← read_var 8 c;
  '(r, c) ← read_var 4 c;
  '(unpred_size, c) ← read_var 8 c;
  '(unpred, c) ← read_array 8 unpred_size c;
  Some (mk unpred 0 eb (f64_div f64_1 eb) (i32 r), c, remaining_length - 1).

(** ** The laws *)

(** The reciprocal is that of the error bound, and the indices fit an [int]. *)
Definition wf (q : LinearQuantizer) : Prop :=
  error_bound_reciprocal q = f64_div f64_1 (error_bound q) /\ 0 < radius q < 2 ^ 30.

(** The quantizers differ in the values stored, the second's after the first's. *)
Definition extends (q q' : LinearQuantizer) : Prop :=
  unpred q `prefix_of` unpred q' /\ error_bound q' = error_bound q /\
  error_bound_reciprocal q' = error_bound_reciprocal q /\ radius q' = radius q.

(** The number of steps fits an [int64_t]. *)
Definition in_range (q : LinearQuantizer) (data pred : Z) : Prop :=
  wf q /\ 0 <= steps q data pred < 2 ^ 63 - 1.

(** The value is stored, or the check that the error exceeds the bound fails. *)
Definition bounded (q : LinearQuantizer) (data r : Z) : Prop :=
  r = data \/ f64_ltb (error_bound q) (f64_abs (f64_sub r data)) = false.

#[export] Instance extends_preorder : PreOrder extends.
Proof.
  split; [by repeat split |]. intros q1 q2 q3 (H1 & H2 & H3 & H4) (H5 & H6 & H7 & H8).
  split_and!; [by etrans | congruence..].
Qed.

(** The arithmetic of the index: [n] steps around [r]. *)
Lemma index_arith n r :
  0 <= n < 2 ^ 63 - 1 -> 0 < r < 2 ^ 30 -> (i64 (n + 1) <? i32 (r * 2)) = true ->
  let h := Z.shiftr (i64 (n + 1)) 1 in
  0 <= h < r /\ i32 h = h /\ i64 (Z.shiftl h 1) = 2 * h /\ i64 (- (2 * h)) = - (2 * h) /\
  i32 (r - h) = r - h /\ i32 (r + h) = r + h.
Proof.
  intros Hn Hr E h. unfold i32, i64 in *. subst h. rewrite !(swrap_id 64 (n + 1)) in * by lia.
  rewrite swrap_id in E by lia. to_prop. rewrite Z.shiftr_div_pow2 by lia. change (2 ^ 1) with 2.
  pose proof (Z.div_mod (n + 1) 2 ltac:(lia)). pose proof (Z.mod_pos_bound (n + 1) 2 ltac:(lia)).
  set (h := (n + 1) / 2) in *. rewrite Z.shiftl_mul_pow2 by lia. change (2 ^ 1) with 2.
  rewrite (swrap_id 64 (- _)), (swrap_id 64 (h * 2)), !(swrap_id 32) by lia. lia.
Qed.

(** What one quantization does. *)
Lemma quantize_cases q data pred i data' q' :
  quantize_and_overwrite q data pred = (i, data', q') ->
  (i = 0 /\ data' = data /\ q' = push_unpred q data) \/
  (q' = q /\ f64_ltb (error_bound q) (f64_abs (f64_sub data' data)) = false /\
   (in_range q data pred -> 0 < i < 2 * radius q /\ data' = recover_pred q pred i)).
Proof.
  unfold quantize_and_overwrite, in_range, wf. set (n := steps q data pred).
  destruct (_ <? _) eqn:E; [| intros; simplify_eq; auto].
  set (s := if f64_ltb _ 0 then _ else _). destruct s as [qi sh] eqn:Es. subst s.
  destruct (f64_ltb (error_bound q) _) eqn:Eb; intros Heq;
    injection Heq as <- <- <-; [auto | right]. split; [done |]. split; [done |]. intros [[_ Hr] Hn].
  destruct (index_arith n (radius q) Hn Hr E) as (Hh & E1 & E2 & E3 & E4 & E5).
  set (h := Z.shiftr (i64 (n + 1)) 1) in *. clearbody h. rewrite E1, E2 in Es.
  unfold recover_pred. destruct (f64_ltb _ 0).
  - rewrite E3, E4 in Es. injection Es as <- <-. split; [lia |].
    replace (radius q - h - radius q) with (- h) by lia.
    rewrite (i32_id (- h)), (i32_id (2 * - h)) by (unfold is_i32; lia).
    do 3 f_equal. lia.
  - rewrite E5 in Es. injection Es as <- <-. split; [lia |].
    replace (radius q + h - radius q) with h by lia.
    by rewrite (i32_id h), (i32_id (2 * h)) by (unfold is_i32; lia).
Qed.

Lemma push_extends q data : extends q (push_unpred q data).
Proof. split_and!; [by eexists | done..]. Qed.

(** The decompressor holds all that the compressor stores in the end, and has used what it
    had stored at [q]. *)
Definition tracks (d q qf : LinearQuantizer) : Prop :=
  unpred d = unpred qf /\ index d = Z.of_nat (length (unpred q)) /\
  error_bound d = error_bound q /\ radius d = radius q.

Definition fits (q : LinearQuantizer) : Prop :=
  is_u64 (error_bound q) /\ 0 < radius q < 2 ^ 30 /\ Forall is_u64 (unpred q).

Lemma recover_tracks d q qf data pred i data' q' :
  in_range q data pred -> quantize_and_overwrite q data pred = (i, data', q') ->
  extends q' qf -> tracks d q qf ->
  exists d', recover d pred i = Some (data', d') /\ tracks d' q' qf.
Proof.
  intros Hin E Hext (Hu & Hi & He & Hr). unfold recover.
  apply quantize_cases in E as [(-> & -> & ->) | (-> & _ & H)].
  - rewrite Z.eqb_refl. unfold recover_unpred. destruct Hext as [[l Hl] _]. simpl in Hl.
    rewrite Hu, Hl, Hi, Nat2Z.id, <- app_assoc, lookup_app_r, Nat.sub_diag by lia.
    cbn [app lookup list_lookup mbind option_bind]. eexists. split; [done |].
    split_and!; simpl; try done; [by rewrite Hl, <- app_assoc |]. rewrite length_app. simpl. lia.
  - destruct (H Hin) as [Hpos ->]. rewrite (proj2 (Z.eqb_neq _ _)) by lia. exists d. split; [| done].
    do 2 f_equal. unfold recover_pred. by rewrite He, Hr.
Qed.

Lemma length_save q : length (save q) = (21 + 8 * length (unpred q))%nat.
Proof. unfold save. rewrite !length_app, !length_le_bytes, length_store_array. simpl. lia. Qed.

Lemma quantizer_load_save d0 q tl rem :
  fits q -> Z.of_nat (length (save q)) <= rem < 2 ^ 64 ->
  load d0 (save q ++ tl) rem
  = Some (mk (unpred q) 0 (error_bound q) (f64_div f64_1 (error_bound q)) (radius q), tl, rem - 1).
Proof.
  intros (He & Hr & Hu) Hrem. rewrite length_save in Hrem. unfold load, save.
  rewrite assert_true by (apply Z.ltb_lt; lia). cbn [mbind option_bind].
  change [2] with (le_bytes 1 2). rewrite <- !app_assoc.
  rewrite read_var_le by done. cbn [mbind option_bind].
  rewrite read_var_le by done. cbn [mbind option_bind].
  rewrite read_var_le by apply (u32_range (radius q)). cbn [mbind option_bind].
  rewrite read_var_le by (change (2 ^ (8 * Z.of_nat 8)) with (2 ^ 64); lia). cbn [mbind option_bind].
  rewrite read_array_le by done. cbn [mbind option_bind].
  by rewrite i32_u32 by (unfold is_i32; lia).
Qed.

#[export] Program Instance linear_quantizer : QuantizerInterface LinearQuantizer := {
  q_quantize := quantize_and_overwrite;
  q_recover := recover;
  q_radius := radius;
  q_size_est := size_est;
  q_save := save;
  q_load := load;
  fresh q := unpred q = [];
  storable := fits;
  leads := extends;
  follows := tracks;
  quantizable := in_range;
  accurate := bounded
}.
Next Obligation.
  intros q q' data pred (_ & E1 & E2 & E3). unfold in_range, wf, steps. by rewrite E1, E2, E3.
Qed.
Next Obligation. intros q q' data r (_ & E1 & _). unfold bounded. by rewrite E1. Qed.
Next Obligation. by intros q q' (_ & _ & _ & E). Qed.
Next Obligation.
  intros q data pred i data' q' [(-> & -> & ->) | (-> & _)]%quantize_cases; [apply push_extends | done].
Qed.
Next Obligation.
  intros q data pred i data' q' [(-> & -> & ->) | (-> & _)]%quantize_cases; [| done].
  intros (H1 & H2 & H3) Hd. split; [done |]. split; [done |]. apply Forall_app. auto.
Qed.
Next Obligation.
  intros q data pred i data' q' Hin [(-> & -> & ->) | (-> & Hb & H)]%quantize_cases.
  - destruct Hin as [[_ Hr] _]. split; [lia | by left].
  - split; [apply H in Hin; lia | by right].
Qed.
Next Obligation. apply recover_tracks. Qed.
Next Obligation.
  intros d0 q0 qf tl rem Hf (_ & E1 & _ & E3) Hs Hrem.
  eexists _, _. split; [by apply quantizer_load_save |]. rewrite length_save in *. split; [| lia].
  split_and!; simpl; try done. by rewrite Hf.
Qed.

(** ** Properties *)

(** A sequence of values and predictions through the quantizer of the compressor: the
    indices, the values that replace the data, and the quantizer. *)
Fixpoint quantize_all (q : LinearQuantizer) (l : list (Z * Z)) : list Z * list Z * LinearQuantizer :=
  match l with
  | [] => ([], [], q)
  | (data, pred) :: l =>
      let '(i, r, q) := quantize_and_overwrite q data pred in
      let '(inds, rs, q) := quantize_all q l in
      (i :: inds, r :: rs, q)
  end.

(** The indices and the predictions through the quantizer of the decompressor. *)
Fixpoint recover_all (d : LinearQuantizer) (l : list (Z * Z)) : option (list Z) :=
  match l with
  | [] => Some []
  | (i, pred) :: l =>
      '(r, d) ← recover d pred i;
      rs ← recover_all d l;
      Some (r :: rs)
  end.

Lemma quantize_all_spec l : forall q inds rs q',
  fits q -> Forall (fun dp => is_u64 dp.1 /\ in_range q dp.1 dp.2) l ->
  quantize_all q l = (inds, rs, q') ->
  extends q q' /\ fits q' /\ (length (unpred q') <= length (unpred q) + length l)%nat /\
  Forall (fun i => 0 <= i < 2 * radius q) inds /\ Forall2 (fun dp r => bounded q dp.1 r) l rs /\
  forall d qf, extends q' qf -> tracks d q qf -> recover_all d (zip inds l.*2) = Some rs.
Proof.
  induction l as [| [data pred] l IH]; intros q inds rs q' Hf Hl; cbn [quantize_all].
  { intros. simplify_eq. split_and!; done || (simpl; lia) || constructor. }
  apply Forall_cons_iff in Hl as [[Hu Hin] Hl]. simpl in Hu, Hin.
  destruct (quantize_and_overwrite q data pred) as [[i r] q1] eqn:E.
  destruct (quantize_all q1 l) as [[inds1 rs1] q2] eqn:E1. intros. simplify_eq.
  pose proof (quantize_leads q data pred i r q1 E) as Hext. simpl in Hext.
  destruct (@quantize_index _ linear_quantizer q data pred i r q1 Hin E) as [Hi Hb]. simpl in Hi, Hb.
  destruct (IH q1 inds1 rs1 q') as (H1 & H2 & H0 & H3 & H4 & H5); [| | done |].
  - by apply (@quantize_storable _ linear_quantizer q data pred i r q1 E).
  - eapply Forall_impl; [| exact Hl]. intros dp [? ?]. split; [done |].
    by apply (@leads_quantizable _ linear_quantizer q q1).
  - split_and!; [by etrans | done | | | |].
    + apply quantize_cases in E as [(_ & _ & ->) | (-> & _)]; simpl in *; rewrite ?length_app in H0; simpl in *; lia.
    + constructor; [done |]. destruct Hext as (_ & _ & _ & <-). done.
    + constructor; [done |]. eapply Forall2_impl; [| exact H4].
      intros dp r'. apply (@leads_accurate _ linear_quantizer q q1). done.
    + intros d qf Hqf Ht.
      destruct (recover_tracks d q qf data pred i r q1 Hin E) as (d' & Er & Ht'); [by etrans | done |].
      cbn [zip zip_with fmap list_fmap fst snd recover_all]. rewrite Er. cbn [mbind option_bind].
      by rewrite (H5 d' qf Hqf Ht').
Qed.

(** C12: whatever the predictions, values quantized by a new quantizer, saved and loaded, are
    recovered from the indices exactly as the compressor overwrote them, and every one is
    the value itself or passed the check against the error bound.  The indices are below
    twice the radius.  The number of steps has to fit an int64_t. *)
Theorem quantizer_roundtrip eb r q l inds rs q' tl d0 :
  is_u64 eb -> 0 < r < 2 ^ 30 -> new eb r = Some q ->
  Forall (fun dp => is_u64 dp.1 /\ 0 <= steps q dp.1 dp.2 < 2 ^ 63 - 1) l ->
  Z.of_nat (length l) < 2 ^ 60 ->
  quantize_all q l = (inds, rs, q') ->
  exists d rem, load d0 (save q' ++ tl) (2 ^ 64 - 1) = Some (d, tl, rem) /\
    recover_all d (zip inds l.*2) = Some rs /\
    Forall (fun i => 0 <= i < 2 * r) inds /\ Forall2 (fun dp x => bounded q dp.1 x) l rs.
Proof.
  intros He Hr Hnew Hl Hlen E. unfold new in Hnew. inv_opt.
  set (q := mk [] 0 eb _ r) in *.
  destruct (quantize_all_spec l q inds rs q') as (H1 & H2 & H0 & H3 & H4 & H5); [split; [done |]; split; [done | constructor] | | done |].
  { eapply Forall_impl; [| exact Hl]. intros dp [? ?]. split; [done |]. by split. }
  simpl in H0. destruct (@load_follows _ linear_quantizer d0 q q' tl (2 ^ 64 - 1)) as (d & rem & Ed & Ht & _);
    try done.
  { change (Z.of_nat (length (save q')) <= 2 ^ 64 - 1 < 2 ^ 64). rewrite length_save. lia. }
  exists d, rem. split; [done |]. split; [by apply (H5 d q') |]. done.
Qed.

(** A not-a-number defeats the check: the compressor overwrites it by the prediction less
    2^63 error bounds, under the index of the prediction itself, which is what the
    decompressor returns. *)
Theorem quantize_nan :
  exists q, new f64_1 32768 = Some q /\
    quantize_and_overwrite q f64_nan f64_1 = (32768, 0xc3e0000000000000, q) /\
    recover q f64_1 32768 = Some (f64_1, q).
Proof. by eexists. Qed.

(** So does a value 2^63 error bounds below its prediction: the number of steps wraps
    around, and -2^63 predicted as 0 is returned as 0. *)
Theorem quantize_far :
  exists q, new f64_1 32768 = Some q /\
    quantize_and_overwrite q 0xc3e0000000000000 0 = (32768, 0xc3e0000000000000, q) /\
    recover q 0 32768 = Some (0, q).
Proof. by eexists. Qed.

(** 0.5 predicted as 0, and 10.25 predicted as 1.0; error 0.25. *)
Definition sample : list (Z * Z) :=
  [(0x3fe0000000000000, 0); (0x4024800000000000, f64_1)].

Lemma quantizer_roundtrip_witness :
  exists q inds rs q' d rem, new 0x3fd0000000000000 32768 = Some q /\
    quantize_all q sample = (inds, rs, q') /\
    load q (save q' ++ [7]) (2 ^ 64 - 1) = Some (d, [7], rem) /\
    recover_all d (zip inds sample.*2) = Some rs.
Proof.
  pose (q := mk [] 0 0x3fd0000000000000 0x4010000000000000 32768).
  assert (new 0x3fd0000000000000 32768 = Some q) as Eq by (vm_compute; reflexivity).
  destruct (quantize_all q sample) as [[inds rs] q'] eqn:E.
  assert (Forall (fun dp => is_u64 dp.1 /\ 0 <= steps q dp.1 dp.2 < 2 ^ 63 - 1) sample) as Hin.
  { repeat constructor; simpl; try (unfold is_u64; lia); vm_compute; congruence. }
  destruct (quantizer_roundtrip 0x3fd0000000000000 32768 q sample inds rs q' [7] q)
    as (d & rem & H1 & H2 & _); [unfold is_u64; lia | lia | exact Eq | exact Hin | simpl; lia | exact E |].
  exists q, inds, rs, q', d, rem. exact (conj Eq (conj E (conj H1 H2))).
Defined.

End LinearQuantizer.
