(* ===== verification/SzHeap.v ===== *)
(** * SzHeap: the priority queue of the SZ3 Huffman encoder

    Models [qinsert] and [qremove] of [SZ3/encoder/HuffmanEncoder.hpp]: a binary heap in an
    array whose first index is 1.  The array [qq[1]], ..., [qq[qend - 1]] is a list, so
    that [qend] is one more than its length.

    The heap implements the interface [PriorityQueue], which is what the construction of
    the tree is verified against. *)

From Stdlib Require Import ZArith Lia.
From stdpp Require Import sorting.
From S2P Require Import Prelude Stl.

Module SzHeap.
Section heap.

Context {A : Type} (key : A -> Z).

(** [qq[i]] *)
Definition qq (q : list A) (i : nat) : option A := q !! pred i.
Definition qq_set (q : list A) (i : nat) (x : A) : list A := <[pred i := x]> q.

(** The loop of [qinsert]: the hole [i] moves up until [n] fits; every round halves [i]. *)
Fixpoint sift_up (fuel : nat) (q : list A) (i : nat) (n : A) : list A :=
  match fuel with
  | O => q
  | S fuel =>
      let j := (i / 2)%nat in
      if (j =? 0)%nat then qq_set q i n
      else
        match qq q j with
        | None => q
        | Some p => if key p <=? key n then qq_set q i n else sift_up fuel (qq_set q i p) j n
        end
  end.

Definition qinsert (n : A) (q : list A) : list A :=
  sift_up (S (length q)) (q ++ [n]) (S (length q)) n.

(** The loop of [qremove]: the element at [i] moves down. *)
Fixpoint sift_down (fuel : nat) (q : list A) (i : nat) : list A :=
  match fuel with
  | O => q
  | S fuel =>
      let l := (i * 2)%nat in
      match qq q l, qq q i with
      | Some ql, Some qi =>
          let '(l, ql) :=
            match qq q (l + 1) with
            | Some qr => if key qr <? key ql then ((l + 1)%nat, qr) else (l, ql)
            | None => (l, ql)
            end in
          if key ql <? key qi then sift_down fuel (qq_set (qq_set q i ql) l qi) l else q
      | _, _ => q
      end
  end.

(** [None] is the null pointer returned for an empty queue. *)
Definition qremove (q : list A) : option (A * list A) :=
  match q with
  | [] => None
  | n :: _ =>
      last ← list.last q;
      let q := take (length q - 1) (qq_set q 1 last) in
      Some (n, sift_down (length q) q 1)
  end.

(** ** The keys of the array *)

Definition K (q : list A) (i : nat) : Z := from_option key 0 (qq q i).

Lemma K_set q i x k :
  (1 <= i <= length q)%nat -> (1 <= k)%nat -> K (qq_set q i x) k = if (k =? i)%nat then key x else K q k.
Proof.
  intros Hi Hk. unfold K, qq, qq_set. destruct (Nat.eqb_spec k i) as [-> | Hne].
  - by rewrite list_lookup_insert_eq by lia.
  - by rewrite list_lookup_insert_ne by lia.
Qed.

Lemma length_set q i x : length (qq_set q i x) = length q.
Proof. apply length_insert. Qed.

Lemma qq_Some q i : (1 <= i <= length q)%nat -> exists x, qq q i = Some x /\ K q i = key x.
Proof.
  intros Hi. destruct (lookup_lt_is_Some_2 q (pred i)) as [x E]; [lia |].
  exists x. unfold K, qq. by rewrite E.
Qed.

Lemma qq_range q i x : qq q i = Some x -> (1 <= i)%nat -> (i <= length q)%nat /\ K q i = key x.
Proof. intros E Hi. unfold K. rewrite E. apply lookup_lt_Some in E. split; [lia | done]. Qed.

Definition heap_ok (q : list A) : Prop :=
  forall k, (2 <= k <= length q)%nat -> K q (k / 2) <= K q k.

(** The least key is at the top. *)
Lemma heap_top q : heap_ok q -> forall k, (1 <= k <= length q)%nat -> K q 1 <= K q k.
Proof.
  intros Hq k. induction k as [k IH] using lt_wf_ind. intros Hk.
  destruct (decide (k = 1%nat)) as [-> | Hne]; [done |].
  pose proof (Nat.div_lt k 2 ltac:(lia) ltac:(lia)).
  assert (1 <= k / 2)%nat by (apply Nat.div_le_lower_bound; lia).
  transitivity (K q (k / 2)); [apply IH; lia | apply Hq; lia].
Qed.

(** ** Permutations *)

Lemma set_perm (q : list A) i a x : q !! i = Some a -> a :: <[i := x]> q ≡ₚ x :: q.
Proof.
  revert i. induction q as [| b q IH]; intros [| i] E; simplify_eq/=; [constructor |].
  rewrite Permutation_swap, IH by done. constructor.
Qed.

(** Moving the hole: writing [n] at [j] after the element [p] of [j] went to [i]. *)
Lemma move_perm q i j (n p : A) :
  (1 <= i <= length q)%nat -> (1 <= j <= length q)%nat -> i <> j -> qq q j = Some p ->
  qq_set (qq_set q i p) j n ≡ₚ qq_set q i n.
Proof.
  intros Hi Hj Hne Ep. unfold qq, qq_set in *.
  destruct (lookup_lt_is_Some_2 q (pred i)) as [a Ea]; [lia |].
  pose proof (set_perm q (pred i) a p Ea) as P1. pose proof (set_perm q (pred i) a n Ea) as P2.
  assert (<[pred i := p]> q !! pred j = Some p) as E by (by rewrite list_lookup_insert_ne by lia).
  pose proof (set_perm _ (pred j) p n E) as P3.
  apply (Permutation_cons_inv (a := p)), (Permutation_cons_inv (a := a)).
  rewrite P3, (Permutation_swap n a), P1, (Permutation_swap p a), P2. constructor.
Qed.

Lemma half_bounds k : (2 * (k / 2) <= k <= 2 * (k / 2) + 1)%nat.
Proof. pose proof (Nat.div_mod k 2 ltac:(lia)). pose proof (Nat.mod_upper_bound k 2 ltac:(lia)). lia. Qed.

(** ** Inserting *)

(** With [n] in the hole [i] the order holds except above the hole, and what is below the
    hole is not less than what is above it. *)
Lemma sift_up_spec fuel : forall q i n,
  (1 <= i <= length q)%nat -> (i <= fuel)%nat ->
  (forall k, (2 <= k <= length q)%nat -> k <> i -> K (qq_set q i n) (k / 2) <= K (qq_set q i n) k) ->
  (forall k, (2 <= k <= length q)%nat -> (k / 2 = i)%nat -> (2 <= i)%nat -> K q (i / 2) <= K q k) ->
  heap_ok (sift_up fuel q i n).
Proof.
  induction fuel as [| fuel IH]; intros q i n Hi Hf H1 H2; [lia |]. cbn [sift_up].
  pose proof (half_bounds i) as Hj. set (j := (i / 2)%nat) in *.
  assert (j = 0%nat \/ K q j <= key n -> heap_ok (qq_set q i n)) as Hdone.
  { intros H k Hk. rewrite length_set in Hk. destruct (decide (k = i)) as [-> | Hne]; [| by apply H1].
    fold j. rewrite !K_set by lia. rewrite Nat.eqb_refl.
    destruct (Nat.eqb_spec j i); [lia |]. destruct H; [lia | done]. }
  destruct (Nat.eqb_spec j 0) as [Ej | Ej]; [auto |].
  destruct (qq_Some q j) as (p & Ep & Kp); [lia |]. rewrite Ep.
  destruct (Z.leb_spec (key p) (key n)) as [Hle | Hlt]; [apply Hdone; right; lia |].
  assert (forall k, (1 <= k)%nat -> K (qq_set (qq_set q i p) j n) k
    = if (k =? j)%nat then key n else if (k =? i)%nat then key p else K q k) as E.
  { intros k Hk. by rewrite !K_set by (rewrite ?length_set; lia). }
  assert (forall k, (2 <= k <= length q)%nat -> k <> i -> (k / 2)%nat = j -> key p <= K q k) as Hsib.
  { intros k Hk Hne Hkj. specialize (H1 k Hk Hne). rewrite !K_set in H1 by lia. rewrite Hkj in H1.
    destruct (Nat.eqb_spec j i); [lia |]. destruct (Nat.eqb_spec k i); [done |]. lia. }
  apply IH; rewrite ?length_set; try lia.
  - intros k Hk Hne. pose proof (half_bounds k). rewrite !E by lia.
    destruct (Nat.eqb_spec k j); [done |].
    destruct (Nat.eqb_spec (k / 2) j) as [Hkj | Hkj].
    + destruct (Nat.eqb_spec k i); [lia |]. specialize (Hsib k Hk ltac:(done) Hkj). lia.
    + destruct (Nat.eqb_spec k i) as [-> | Hki]; [done |].
      destruct (Nat.eqb_spec (k / 2) i) as [Hi2 | Hi2].
      * specialize (H2 k Hk Hi2 ltac:(lia)). lia.
      * specialize (H1 k Hk Hki). rewrite !K_set in H1 by lia.
        destruct (Nat.eqb_spec (k / 2) i); [done |]. by destruct (Nat.eqb_spec k i).
  - intros k Hk Hkj Hj2. pose proof (half_bounds j). rewrite !K_set by lia.
    destruct (Nat.eqb_spec (j / 2) i); [lia |].
    assert (K q (j / 2) <= key p) as Hpp.
    { specialize (H1 j ltac:(lia) ltac:(lia)). rewrite !K_set in H1 by lia.
      destruct (Nat.eqb_spec (j / 2) i); [lia |]. destruct (Nat.eqb_spec j i); lia. }
    destruct (Nat.eqb_spec k i); [done |]. specialize (Hsib k Hk ltac:(done) Hkj). lia.
Qed.

Lemma sift_up_perm fuel : forall q i n,
  (1 <= i <= length q)%nat -> (i <= fuel)%nat -> sift_up fuel q i n ≡ₚ qq_set q i n.
Proof.
  induction fuel as [| fuel IH]; intros q i n Hi Hf; [lia |]. cbn [sift_up].
  pose proof (half_bounds i). destruct (Nat.eqb_spec (i / 2) 0) as [| Hj]; [done |].
  destruct (qq_Some q (i / 2)) as (p & Ep & _); [lia |]. rewrite Ep.
  destruct (key p <=? key n); [done |]. rewrite IH by (rewrite ?length_set; lia).
  apply move_perm; done || lia.
Qed.

Lemma qinsert_perm n q : qinsert n q ≡ₚ n :: q.
Proof.
  unfold qinsert. rewrite sift_up_perm by (rewrite ?length_app; cbn [length]; lia).
  unfold qq_set. cbn [pred]. rewrite insert_app_r_alt, Nat.sub_diag by lia. simpl.
  by rewrite Permutation_app_comm.
Qed.

Lemma qinsert_ok n q : heap_ok q -> heap_ok (qinsert n q).
Proof.
  intros Hq. unfold qinsert.
  assert (forall k, (1 <= k <= length q)%nat -> K (q ++ [n]) k = K q k) as E.
  { intros k Hk. unfold K, qq. by rewrite lookup_app_l by lia. }
  apply sift_up_spec;
    rewrite ?length_app; cbn [length]; try lia.
  - intros k Hk Hne. pose proof (half_bounds k).
    rewrite !K_set by (rewrite ?length_app; cbn [length]; lia).
    destruct (Nat.eqb_spec (k / 2) (S (length q))); [lia |]. destruct (Nat.eqb_spec k (S (length q))); [done |].
    rewrite !E by lia. apply Hq. lia.
  - intros k Hk Hk2. pose proof (half_bounds k). lia.
Qed.

(** ** Removing *)

(** The child that is compared: the lesser one. *)
Definition child (q : list A) (l : nat) (ql : A) : nat * A :=
  match qq q (l + 1) with
  | Some qr => if key qr <? key ql then ((l + 1)%nat, qr) else (l, ql)
  | None => (l, ql)
  end.

Lemma child_spec q i ql l x :
  (1 <= i)%nat -> qq q (i * 2) = Some ql -> child q (i * 2) ql = (l, x) ->
  (1 <= l <= length q)%nat /\ (l / 2 = i)%nat /\ qq q l = Some x /\ K q l = key x /\
  forall k, (2 <= k <= length q)%nat -> (k / 2 = i)%nat -> key x <= K q k.
Proof.
  intros Hi El. unfold child.
  assert (forall y, (i * 2 + 1 <= y)%nat -> (y < i * 2 + 2)%nat -> (y / 2)%nat = i) as Hodd.
  { intros y ? ?. pose proof (half_bounds y). lia. }
  assert ((i * 2) / 2 = i)%nat as He by (apply Nat.div_mul; lia).
  destruct (qq_range q (i * 2) ql El) as [Hl Kl]; [lia |].
  assert (forall y z, (forall k, (2 <= k <= length q)%nat -> k = (i * 2)%nat \/ k = (i * 2 + 1)%nat -> y <= K q k) ->
    z = (z : nat) -> forall k, (2 <= k <= length q)%nat -> (k / 2 = i)%nat -> y <= K q k) as Hk.
  { intros y z H _ k Hk Hk2. apply H; [done |]. pose proof (half_bounds k). lia. }
  destruct (qq q (i * 2 + 1)) as [qr |] eqn:Er.
  - destruct (qq_range q (i * 2 + 1) qr Er) as [Hr Kr]; [lia |].
    destruct (Z.ltb_spec (key qr) (key ql)); intros; simplify_eq; split_and!; try done; try lia;
      try (by apply Hodd; lia); apply (Hk _ 0%nat); try done; intros k _ [-> | ->]; lia.
  - intros. simplify_eq. split_and!; try done; try lia. apply (Hk _ 0%nat); try done.
    intros k Hkk [-> | ->]; [lia |]. unfold qq in Er. apply lookup_ge_None_1 in Er. lia.
Qed.

(** The order holds except below [i], and what is below [i] is not less than what is
    above it. *)
Lemma sift_down_spec fuel : forall q i,
  (1 <= i)%nat -> (length q < i + fuel)%nat ->
  (forall k, (2 <= k <= length q)%nat -> (k / 2 <> i)%nat -> K q (k / 2) <= K q k) ->
  (forall k, (2 <= k <= length q)%nat -> (k / 2 = i)%nat -> (2 <= i)%nat -> K q (i / 2) <= K q k) ->
  heap_ok (sift_down fuel q i) /\ sift_down fuel q i ≡ₚ q.
Proof.
  induction fuel as [| fuel IH]; intros q i Hi Hf H1 H2; cbn [sift_down].
  { split; [| done]. intros k Hk. pose proof (half_bounds k). apply H1; [done | lia]. }
  destruct (qq q (i * 2)) as [ql |] eqn:El.
  2:{ split; [| done]. intros k Hk. pose proof (half_bounds k). apply H1; [done |].
      unfold qq in El. apply lookup_ge_None_1 in El. lia. }
  destruct (qq_range q (i * 2) ql El) as [Hl _]; [lia |].
  destruct (qq_Some q i) as (qi & Ei & Ki); [lia |]. rewrite Ei. fold (child q (i * 2) ql).
  destruct (child q (i * 2) ql) as [l x] eqn:Ec.
  destruct (child_spec q i ql l x Hi El Ec) as (Hlr & Hl2 & Ex & Kx & Hmin). pose proof (half_bounds l).
  destruct (Z.ltb_spec (key x) (key qi)) as [Hlt | Hge].
  2:{ split; [| done]. intros k Hk. destruct (decide (k / 2 = i)%nat) as [E | E]; [| by apply H1].
      specialize (Hmin k Hk E). rewrite E. lia. }
  assert (forall k, (1 <= k)%nat -> K (qq_set (qq_set q i x) l qi) k
    = if (k =? l)%nat then key qi else if (k =? i)%nat then key x else K q k) as E.
  { intros k Hk. by rewrite !K_set by (rewrite ?length_set; lia). }
  destruct (IH (qq_set (qq_set q i x) l qi) l) as [I1 I2]; rewrite ?length_set; try lia.
  - intros k Hk Hne. pose proof (half_bounds k). rewrite !E by lia.
    destruct (Nat.eqb_spec (k / 2) l); [done |].
    destruct (Nat.eqb_spec (k / 2) i) as [Hki | Hki].
    + destruct (Nat.eqb_spec k l); [lia |]. destruct (Nat.eqb_spec k i); [lia |]. by apply Hmin.
    + destruct (Nat.eqb_spec k l) as [-> | Hkl]; [done |].
      destruct (Nat.eqb_spec k i) as [-> | Hki']; [| by apply H1].
      specialize (H2 l ltac:(lia) Hl2 ltac:(lia)). lia.
  - intros k Hk Hkl Hl2'. pose proof (half_bounds k). rewrite Hl2, !E by lia.
    destruct (Nat.eqb_spec i l); [lia |]. rewrite Nat.eqb_refl.
    destruct (Nat.eqb_spec k l); [lia |]. destruct (Nat.eqb_spec k i); [lia |].
    specialize (H1 k Hk ltac:(lia)). rewrite Hkl in H1. lia.
  - split; [done |]. rewrite I2, move_perm by (done || lia). unfold qq_set, qq in *.
    by rewrite list_insert_id.
Qed.

Lemma qremove_spec q x q' :
  heap_ok q -> qremove q = Some (x, q') ->
  heap_ok q' /\ q ≡ₚ x :: q' /\ Forall (fun y => key x <= key y) q.
Proof.
  intros Hq. destruct q as [| n rest]; [done |]. unfold qremove.
  destruct (exists_last (l := n :: rest)) as (init & z & Eq); [done |].
  rewrite Eq at 1. rewrite last_snoc. cbn [mbind option_bind].
  assert (length (n :: rest) = S (length init)) as Hlen by (rewrite Eq, length_app; simpl; lia).
  set (q1 := take _ (qq_set (n :: rest) 1 z)). intros. simplify_eq/=.
  assert (length q1 = length init) as Hl1 by (unfold q1; rewrite length_take, length_set; simpl; lia).
  assert (Forall (fun y => key x <= key y) (x :: rest)) as Hmin.
  { apply list.Forall_forall. intros y [i Hy]%list_elem_of_lookup. apply lookup_lt_Some in Hy as Hlt.
    pose proof (heap_top (x :: rest) Hq (S i) ltac:(simpl in *; lia)) as H. unfold K, qq in H.
    cbn [pred] in H. rewrite Hy in H. done. }
  assert (x :: q1 ≡ₚ x :: rest) as Hperm.
  { unfold q1, qq_set. cbn [pred]. destruct init as [| a init]; simplify_eq/=; [done |].
    rewrite length_app. simpl. replace (length init + 1 - 0)%nat with (S (length init)) by lia. simpl.
    rewrite take_app_length. apply Permutation_skip. by rewrite Permutation_app_comm. }
  destruct (sift_down_spec (length q1) q1 1) as [H1 H2]; try lia.
  - intros k Hk Hne. pose proof (half_bounds k).
    assert (forall m, (2 <= m <= length init)%nat -> K q1 m = K (x :: rest) m) as E.
    { intros m Hm. unfold K, q1, qq, qq_set. rewrite lookup_take_lt, list_lookup_insert_ne by (simpl; lia). done. }
    rewrite !E by lia. apply Hq. simpl in *. lia.
  - split; [done |]. split; [| done]. by rewrite H2.
Qed.

Lemma qremove_some q : q <> [] -> exists x q', qremove q = Some (x, q').
Proof.
  intros H. destruct q as [| n rest]; [done |]. unfold qremove.
  destruct (list.last (n :: rest)) eqn:E; [simpl; eauto | by apply last_None in E].
Qed.

(** The heap is a priority queue. *)
#[export] Program Instance heap_queue : PriorityQueue key := {
  pq_push := qinsert;
  pq_pop := qremove;
  pq_ok := heap_ok
}.
Next Obligation. intros k Hk. simpl in Hk. lia. Qed.
Next Obligation. intros x q Hq. by apply qinsert_ok. Qed.
Next Obligation. intros. apply qinsert_perm. Qed.
Next Obligation. done. Qed.
Next Obligation. apply qremove_some. Qed.
Next Obligation. intros q x q' Hq E. by apply (qremove_spec q x q') in E as (? & _). Qed.
Next Obligation. intros q x q' Hq E. by apply (qremove_spec q x q') in E as (_ & ? & ?). Qed.

(** C16: the heap sorts: what is inserted into an empty queue comes out in the order of the
    keys. *)
Theorem heap_sorts l :
  let q := fold_left (fun q x => qinsert x q) l [] in
  let out := @pq_drain A key heap_queue (length q) q in
  out ≡ₚ l /\ StronglySorted (fun a b => key a <= key b) out.
Proof.
  destruct (pq_push_all (key := key) (fun x => x) l [] pq_ok_nil) as [Hok P].
  rewrite list_fmap_id, app_nil_r in P. simpl in P, Hok. cbv zeta.
  split; [rewrite (pq_drain_perm (key := key)) by done; exact P | by apply (pq_drain_sorted (key := key))].
Qed.

End heap.
End SzHeap.
