(* ===== verification/SzHuffman.v ===== *)
(** * SzHuffman: the Huffman encoder of SZ3

    Models [SZ3/encoder/HuffmanEncoder.hpp] at [T = int]: the tree over the quantization
    indices, the codes of up to 128 bits, the storage of the tree in preorder, the bit
    packing of [encode] with its look-ahead writes, and [decode].

    A node is a [HufTree] of the tree verified for Machete; the heap of [SzHeap] replaces
    its queue.  The arrays [code] and [cout], zero where no leaf has written, are a map from
    states to the two words of the code and its length. *)

From Stdlib Require Import ZArith Lia.
From stdpp Require Import gmap sorting.
From S2P Require Import Prelude Bits Bytes Stl Huffman SzBytes SzHeap.

Module SzHuffman.
Import Huffman ByteUtil MemoryUtil.

Notation node := HufTree.

(** The state between the calls of an encoder. *)
Record HuffmanEncoder := {
  treeRoot : node;
  code : gmap Z (Z * Z * Z);
  nodeCount : Z;
  stateNum : Z;
  offset : Z
}.

(** ** Building the tree *)

Section build.

Context `{Order : !MapOrder}.

(** The compiler may evaluate the arguments of [new_node(0, 0, qremove(), qremove())] from
    the left or from the right. *)
Variable left_first : bool.

Definition new_inner (n1 n2 : node) : node :=
  if left_first then Node (cnt n1 + cnt n2) n1 n2 else Node (cnt n2 + cnt n1) n2 n1.

(** [while (huffmanTree->qend > 2)] *)
Fixpoint merge (fuel : nat) (q : list node) : option node :=
  match fuel with
  | O => None
  | S fuel =>
      '(n1, q1) ← SzHeap.qremove cnt q;
      match SzHeap.qremove cnt q1 with
      | None => Some n1
      | Some (n2, q2) => merge fuel (SzHeap.qinsert cnt (new_inner n1 n2) q2)
      end
  end.

(** [build_code]: the code is kept in the two words as it grows.  The length 0 is that of the root alone:
    the code does not say what a shift by 64 gives there, but the word shifted is 0, and no bit of it
    is written. *)
Fixpoint build_code (n : node) (len out1 out2 : Z) (code : gmap Z (Z * Z * Z))
    : gmap Z (Z * Z * Z) :=
  match n with
  | Leaf c _ =>
      <[c := if len <=? 64 then (shl64 out1 (64 - len), out2, u8 len)
             else (out1, shl64 out2 (128 - len), u8 len)]> code
  | Node _ lroot rroot =>
      if Z.shiftr len 6 =? 0 then
        let out1 := shl64 out1 1 in
        let code := build_code lroot (len + 1) out1 0 code in
        build_code rroot (len + 1) (Z.lor out1 1) 0 code
      else
        let out2 := if len mod 64 =? 0 then out2 else shl64 out2 1 in
        let code := build_code lroot (len + 1) out1 out2 code in
        build_code rroot (len + 1) out1 (Z.lor out2 1) code
  end.

Definition init (s : list Z) : option HuffmanEncoder :=
  s0 ← s !! 0%nat;
  let frequency := map_order (count_freq s) in
  let max := foldl (fun m kv => if m <? kv.1 then kv.1 else m) s0 frequency in
  let offset := foldl (fun m kv => if kv.1 <? m then kv.1 else m) s0 frequency in
  let stateNum := i32 (max - offset + 2) in
  let q := fold_left (fun q f => SzHeap.qinsert cnt (Leaf (f.1 - offset) f.2) q) frequency [] in
  root ← merge (S (length q)) q;
  Some {| treeRoot := root; code := build_code root 0 0 0 ∅; nodeCount := 0;
          stateNum := stateNum; offset := offset |}.

(** The number of nodes is counted from the states that have a code. *)
Definition preprocess_encode (bins : list Z) : option HuffmanEncoder :=
  if (length bins =? 0)%nat then None
  else
    h ← init bins;
    let used := filter (fun i => is_Some (code h !! Z.of_nat i)) (seq 0 (Z.to_nat (stateNum h))) in
    Some {| treeRoot := treeRoot h; code := code h;
            nodeCount := u32 (Z.of_nat (length used) * 2 - 1);
            stateNum := stateNum h; offset := offset h |}.

End build.

(** ** Storing the tree *)

(** The arrays of [convert_HuffTree_to_bytes_anyStates]. *)
Record pad := { pad_L : list Z; pad_R : list Z; pad_C : list Z; pad_t : list Z; n_inode : nat }.

(** [C[i] = root->c; t[i] = root->t]; an inner node keeps the zero of the pool as [c]. *)
Definition pad_node (s : pad) (i : nat) (c t : Z) : pad :=
  {| pad_L := pad_L s; pad_R := pad_R s; pad_C := <[i := c]> (pad_C s);
     pad_t := <[i := t]> (pad_t s); n_inode := n_inode s |}.

(** [n_inode++; L[i] = n_inode], and the same for [R]. *)
Definition pad_left (s : pad) (i : nat) : pad :=
  {| pad_L := <[i := Z.of_nat (S (n_inode s))]> (pad_L s); pad_R := pad_R s; pad_C := pad_C s;
     pad_t := pad_t s; n_inode := S (n_inode s) |}.
Definition pad_right (s : pad) (i : nat) : pad :=
  {| pad_L := pad_L s; pad_R := <[i := Z.of_nat (S (n_inode s))]> (pad_R s); pad_C := pad_C s;
     pad_t := pad_t s; n_inode := S (n_inode s) |}.

Fixpoint pad_tree (s : pad) (i : nat) (root : node) : pad :=
  match root with
  | Leaf c _ => pad_node s i c 1
  | Node _ lroot rroot =>
      let s := pad_left (pad_node s i 0 0) i in
      let s := pad_tree s (n_inode s) lroot in
      let s := pad_right s i in
      pad_tree s (n_inode s) rroot
  end.

(** [sizeof(T1)] *)
Definition width (nodeCount : Z) : nat :=
  if nodeCount <=? 256 then 1%nat else if nodeCount <=? 65536 then 2%nat else 4%nat.

(** The bytes: the endianness (0), then the four arrays; the indices are cut to [k] bytes. *)
Definition convert_HuffTree_to_bytes_anyStates (k : nat) (nodeCount : Z) (root : node) : list Z :=
  let zeros := replicate (Z.to_nat nodeCount) 0 in
  let s := pad_tree {| pad_L := zeros; pad_R := zeros; pad_C := zeros; pad_t := zeros; n_inode := 0 |} 0 root in
  [0] ++ store_array k (pad_L s) ++ store_array k (pad_R s)
    ++ store_array 4 (u32 <$> pad_C s) ++ store_array 1 (pad_t s).

Definition save (h : HuffmanEncoder) : list Z :=
  le_bytes 4 (u32 (offset h)) ++ int32ToBytes_bigEndian (nodeCount h)
    ++ int32ToBytes_bigEndian (stateNum h / 2)
    ++ convert_HuffTree_to_bytes_anyStates (width (nodeCount h)) (nodeCount h) (treeRoot h).

Definition size_est (nodeCount : Z) : Z :=
  let b := Z.of_nat (width nodeCount) in
  1 + 2 * nodeCount * b + nodeCount * 1 + nodeCount * 4 + 4 + 4 + 4.

(** [unpad_tree]; the nodes have no frequency here.  A missing child, a null pointer that
    [decode] would follow, is [None]; the fuel bounds the depth. *)
Fixpoint unpad_tree (fuel : nat) (L R C t : list Z) (i : nat) : option node :=
  match fuel with
  | O => None
  | S fuel =>
      ti ← t !! i;
      ci ← C !! i;
      if ti =? 0 then
        l ← L !! i;
        r ← R !! i;
        _ ← assert (negb (l =? 0) && negb (r =? 0));
        lroot ← unpad_tree fuel L R C t (Z.to_nat l);
        rroot ← unpad_tree fuel L R C t (Z.to_nat r);
        Some (Node 0 lroot rroot)
      else Some (Leaf ci 0)
  end.

Definition reconstruct_HuffTree_from_bytes_anyStates (bytes : list Z) (nodeCount : Z)
    : option node :=
  let k := width nodeCount in
  '(_, bytes) ← read_var 1 bytes;
  '(L, bytes) ← read_array k nodeCount bytes;
  '(R, bytes) ← read_array k nodeCount bytes;
  '(C, bytes) ← read_array 4 nodeCount bytes;
  '(t, bytes) ← read_array 1 nodeCount bytes;
  unpad_tree (Z.to_nat nodeCount) L R (i32 <$> C) t 0.

(** [load]: the tree and the offset; what is left of the buffer. *)
Definition load (c : list Z) (remaining_length : Z) : option (node * Z * list Z * Z) :=
  '(offset, c, remaining_length) ← read_var_len 4 c remaining_length;
  nodeCount ← u32 <$> bytesToInt32_bigEndian c;
  _ ← bytesToInt32_bigEndian (drop 4 c);
  let encodeStartIndex :=
    1 + 2 * nodeCount * Z.of_nat (width nodeCount) + nodeCount * 1 + nodeCount * 4 in
  root ← reconstruct_HuffTree_from_bytes_anyStates (drop 8 c) nodeCount;
  Some (root, i32 offset, drop (Z.to_nat (8 + encodeStartIndex)) c, remaining_length).

(** ** Encoding *)

(** The variables of the loop: the bytes written at [bytes + 8], with those written ahead;
    [p] as an index into them; [byteSize] keeps its value from one round to the next. *)
Record enc := { buf : list Z; p : nat; lackBits : Z; outSize : Z; byteSize : Z }.

(** [int64ToBytes_bigEndian(p, num)] *)
Definition put64 (buf : list Z) (p : nat) (num : Z) : option (list Z) :=
  _ ← assert (p <=? length buf)%nat;
  Some (take p buf ++ int64ToBytes_bigEndian num ++ drop (p + 8) buf).

(** The byte at [p] is combined with the low byte of [v]. *)
Definition or_byte (buf : list Z) (p : nat) (v : Z) : option (list Z) :=
  b ← buf !! p;
  Some (<[p := Z.lor b (u8 v)]> buf).

(** [bitSize % 8 == 0 ? bitSize / 8 : bitSize / 8 + 1] *)
Definition bytes_of (bitSize : Z) : Z := if bitSize mod 8 =? 0 then bitSize / 8 else bitSize / 8 + 1.
(** [bitSize % 8 == 0 ? 0 : 8 - bitSize % 8] *)
Definition lack_of (bitSize : Z) : Z := if bitSize mod 8 =? 0 then 0 else 8 - bitSize mod 8.

(** One round for a code of the words [c0], [c1] and [bitSize] bits. *)
Definition encode_step (s : enc) (c0 c1 bitSize : Z) : option enc :=
  if lackBits s =? 0 then
    let byteSize := bytes_of bitSize in
    let byteSizep := bitSize / 8 in
    buf ← put64 (buf s) (p s) c0;
    '(buf, p) ← (if byteSize <=? 8 then Some (buf, (p s + Z.to_nat byteSizep)%nat)
                 else
                   buf ← put64 buf (p s + 8) c1;
                   Some (buf, (p s + 8 + Z.to_nat (byteSizep - 8))%nat));
    Some {| buf := buf; p := p; lackBits := lack_of bitSize; outSize := outSize s + byteSize;
            byteSize := byteSize |}
  else
    buf ← or_byte (buf s) (p s) (Z.shiftr c0 (64 - lackBits s));
    if lackBits s <? bitSize then
      let p := S (p s) in
      buf ← put64 buf p (shl64 c0 (lackBits s));
      if bitSize <=? 64 then
        let bitSize := bitSize - lackBits s in
        let byteSize := bytes_of bitSize in
        Some {| buf := buf; p := (p + Z.to_nat (bitSize / 8))%nat; lackBits := lack_of bitSize;
                outSize := outSize s + byteSize; byteSize := byteSize |}
      else
        let p := (p + 7)%nat in
        let outSize := outSize s + byteSize s in
        let bitSize := bitSize - 64 in
        if lackBits s <? bitSize then
          buf ← or_byte buf p (Z.shiftr c0 (64 - lackBits s));
          let p := S p in
          buf ← put64 buf p (shl64 c1 (lackBits s));
          let bitSize := bitSize - lackBits s in
          let byteSize := bytes_of bitSize in
          Some {| buf := buf; p := (p + Z.to_nat (bitSize / 8))%nat; lackBits := lack_of bitSize;
                  outSize := outSize + byteSize; byteSize := byteSize |}
        else
          buf ← or_byte buf p (Z.shiftr c0 (64 - bitSize));
          Some {| buf := buf; p := p; lackBits := lackBits s - bitSize; outSize := outSize;
                  byteSize := byteSize s |}
    else
      let lackBits := lackBits s - bitSize in
      Some {| buf := buf; p := if lackBits =? 0 then S (p s) else p s; lackBits := lackBits;
              outSize := outSize s; byteSize := byteSize s |}.

Fixpoint encode_loop (h : HuffmanEncoder) (s : enc) (bins : list Z) : option enc :=
  match bins with
  | [] => Some s
  | b :: bins =>
      '(c0, c1, bitSize) ← code h !! (b - offset h);
      s ← encode_step s c0 c1 bitSize;
      encode_loop h s bins
  end.

(** The bytes from [bytes] to where [encode] leaves it: the size, then the codes. *)
Definition encode (junk : Z) (h : HuffmanEncoder) (bins : list Z) : option (list Z) :=
  s ← encode_loop h {| buf := []; p := 0; lackBits := 0; outSize := 0; byteSize := junk |} bins;
  _ ← assert (outSize s <=? Z.of_nat (length (buf s)));
  Some (le_bytes 8 (outSize s) ++ take (Z.to_nat (outSize s)) (buf s)).

(** ** Decoding *)

(** One round per bit, at bit [i] of [bytes]; [n] is the node reached. *)
Fixpoint decode_loop (fuel : nat) (bytes : list Z) (offset : Z) (t n : node) (i count : nat)
    : option (list Z) :=
  match count with
  | O => Some []
  | S count' =>
      match fuel with
      | O => None
      | S fuel =>
          b ← bytes !! (i / 8)%nat;
          match n with
          | Leaf _ _ => None
          | Node _ lroot rroot =>
              match (if Z.land (Z.shiftr b (7 - Z.of_nat (i mod 8))) 1 =? 0 then lroot else rroot) with
              | Leaf c _ =>
                  out ← decode_loop fuel bytes offset t t (S i) count';
                  Some (c + offset :: out)
              | n => decode_loop fuel bytes offset t n (S i) count
              end
          end
      end
  end.

Definition decode (root : node) (offset : Z) (bytes : list Z) (targetLength : nat)
    : option (list Z * list Z) :=
  '(encodedLength, bytes) ← read_var 8 bytes;
  match root with
  | Leaf c _ => Some (replicate targetLength (c + offset), bytes)
  | _ =>
      out ← decode_loop (8 * length bytes) bytes offset root root 0 targetLength;
      Some (out, drop (Z.to_nat encodedLength) bytes)
  end.

(** ** The stored tree *)

(** The tree without frequencies, and its arrays from index [i] on, in preorder. *)
Fixpoint strip (t : node) : node :=
  match t with
  | Leaf c _ => Leaf c 0
  | Node _ l r => Node 0 (strip l) (strip r)
  end.

Fixpoint pre_L (i : nat) (t : node) : list Z :=
  match t with
  | Leaf _ _ => [0]
  | Node _ l r => Z.of_nat (S i) :: pre_L (S i) l ++ pre_L (S i + nodes l) r
  end.
Fixpoint pre_R (i : nat) (t : node) : list Z :=
  match t with
  | Leaf _ _ => [0]
  | Node _ l r => Z.of_nat (S i + nodes l) :: pre_R (S i) l ++ pre_R (S i + nodes l) r
  end.
Fixpoint pre_C (t : node) : list Z :=
  match t with
  | Leaf c _ => [c]
  | Node _ l r => 0 :: pre_C l ++ pre_C r
  end.
Fixpoint pre_t (t : node) : list Z :=
  match t with
  | Leaf _ _ => [1]
  | Node _ l r => 0 :: pre_t l ++ pre_t r
  end.

Lemma length_pre i t :
  length (pre_L i t) = nodes t /\ length (pre_R i t) = nodes t /\
  length (pre_C t) = nodes t /\ length (pre_t t) = nodes t.
Proof.
  revert i. induction t as [c f | f l IHl r IHr]; intros i; [done |].
  destruct (IHl (S i)) as (H1 & H2 & H3 & H4). destruct (IHr (S i + nodes l)%nat) as (H5 & H6 & H7 & H8).
  cbn [pre_L pre_R pre_C pre_t nodes length]. rewrite !length_app. lia.
Qed.

Lemma nodes_pos t : (1 <= nodes t)%nat.
Proof. destruct t; simpl; lia. Qed.

(** What [pad_tree] does to arrays that are zero from the current index on. *)
Lemma pad_tree_spec t : forall pL pR pC pt i k,
  length pL = i -> length pR = i -> length pC = i -> length pt = i -> (nodes t <= k)%nat ->
  let z n := replicate n 0 in
  pad_tree {| pad_L := pL ++ z k; pad_R := pR ++ z k; pad_C := pC ++ z k; pad_t := pt ++ z k;
              n_inode := i |} i t
  = {| pad_L := pL ++ pre_L i t ++ z (k - nodes t)%nat; pad_R := pR ++ pre_R i t ++ z (k - nodes t)%nat;
       pad_C := pC ++ pre_C t ++ z (k - nodes t)%nat; pad_t := pt ++ pre_t t ++ z (k - nodes t)%nat;
       n_inode := i + nodes t - 1 |}.
Proof.
  assert (forall (a : list Z) i x y l, length a = i -> <[i := x]> (a ++ y :: l) = a ++ x :: l) as Hins.
  { intros a i x y l <-. by rewrite insert_app_r_alt, Nat.sub_diag by lia. }
  assert (forall (a : list Z) x l, a ++ x :: l = (a ++ [x]) ++ l) as Hsn by (intros; by rewrite <- app_assoc).
  induction t as [c f | f l IHl r IHr]; intros pL pR pC pt i k HL HR HC Ht Hk z; cbn [nodes] in Hk.
  - destruct k as [| k]; [lia |]. cbn [pad_tree nodes pre_L pre_R pre_C pre_t]. unfold pad_node, z. cbn [replicate].
    cbn [pad_L pad_R pad_C pad_t n_inode]. rewrite !Hins, Nat.add_sub by done.
    by replace (S k - 1)%nat with k by lia.
  - destruct k as [| k]; [lia |]. cbn [pad_tree]. unfold pad_left, pad_node, z. cbn [replicate].
    cbn [pad_L pad_R pad_C pad_t n_inode]. rewrite !Hins by done.
    pose proof (nodes_pos l). pose proof (nodes_pos r).
    rewrite (Hsn pL), (Hsn pC), (Hsn pt), (Hsn pR).
    rewrite IHl by (rewrite ?length_app; simpl; lia). cbv zeta.
    unfold pad_right. cbn [pad_L pad_R pad_C pad_t n_inode].
    replace (S (S i + nodes l - 1)) with (S i + nodes l)%nat by lia.
    assert (<[i := Z.of_nat (S i + nodes l)]> ((pR ++ [0]) ++ pre_R (S i) l ++ replicate (k - nodes l) 0)
      = (pR ++ [Z.of_nat (S i + nodes l)]) ++ pre_R (S i) l ++ replicate (k - nodes l) 0) as ->.
    { rewrite <- !app_assoc. by apply Hins. }
    destruct (length_pre (S i) l) as (L1 & L2 & L3 & L4).
    rewrite !(app_assoc (_ ++ [_])).
    rewrite IHr by (rewrite ?length_app; simpl; lia). cbv zeta.
    cbn [pre_L pre_R pre_C pre_t nodes].
    replace (S k - S (nodes l + nodes r))%nat with (k - nodes l - nodes r)%nat by lia.
    replace (S i + nodes l + nodes r - 1)%nat with (i + S (nodes l + nodes r) - 1)%nat by lia.
    rewrite <- !app_assoc. cbn [app]. by rewrite <- !app_assoc.
Qed.

(** Reading the arrays of a tree back. *)
Lemma unpad_tree_spec t : forall fuel i L R C tt,
  (nodes t <= fuel)%nat ->
  pre_L i t `prefix_of` drop i L -> pre_R i t `prefix_of` drop i R ->
  pre_C t `prefix_of` drop i C -> pre_t t `prefix_of` drop i tt ->
  unpad_tree fuel L R C tt i = Some (strip t).
Proof.
  assert (forall x (a : list Z) i l, x :: a `prefix_of` drop i l -> l !! i = Some x) as Hhd.
  { intros x a i l [k E]. rewrite <- (Nat.add_0_r i), <- lookup_drop, E. done. }
  assert (forall x (a b : list Z) i l, x :: a ++ b `prefix_of` drop i l ->
    a `prefix_of` drop (S i) l /\ b `prefix_of` drop (S i + length a) l) as Htl.
  { intros x a b i l [k E]. apply (f_equal (drop 1)) in E. rewrite drop_drop in E. cbn in E. rewrite drop_0 in E.
    replace (i + 1)%nat with (S i) in E by lia. split; [exists (b ++ k); by rewrite E, <- app_assoc |].
    exists k. rewrite <- drop_drop, E, <- app_assoc. apply drop_app_length. }
  induction t as [c f | f l IHl r IHr]; intros fuel i L R C tt Hf HL HR HC Ht;
    (destruct fuel as [| fuel]; [simpl in Hf; lia |]);
    cbn [unpad_tree pre_L pre_R pre_C pre_t] in *.
  - by rewrite (Hhd _ _ _ _ HC), (Hhd _ _ _ _ Ht).
  - rewrite (Hhd _ _ _ _ HC), (Hhd _ _ _ _ Ht), (Hhd _ _ _ _ HL), (Hhd _ _ _ _ HR).
    cbn [mbind option_bind]. rewrite assert_true by (apply andb_true_intro; split; apply negb_true_iff, Z.eqb_neq; lia).
    cbn [mbind option_bind]. rewrite !Nat2Z.id.
    destruct (length_pre (S i) l) as (L1 & L2 & L3 & L4). cbn [nodes] in Hf.
    apply Htl in HL as [HL1 HL2], HR as [HR1 HR2], HC as [HC1 HC2], Ht as [Ht1 Ht2].
    rewrite L1 in HL2. rewrite L2 in HR2. rewrite L3 in HC2. rewrite L4 in Ht2.
    rewrite Z.eqb_refl, (IHl fuel (S i)) by (lia || done). cbn [mbind option_bind].
    by rewrite (IHr fuel (S i + nodes l)%nat) by (lia || done).
Qed.

Lemma pre_range t : forall i,
  Forall (fun x => 0 <= x < Z.of_nat (i + nodes t)) (pre_L i t) /\
  Forall (fun x => 0 <= x < Z.of_nat (i + nodes t)) (pre_R i t) /\
  Forall (fun x => 0 <= x < 2) (pre_t t).
Proof.
  induction t as [c f | f l IHl r IHr]; intros i.
  { cbn [pre_L pre_R pre_t nodes]. split_and!; (constructor; [lia | constructor]). }
  destruct (IHl (S i)) as (L1 & L2 & L3). destruct (IHr (S i + nodes l)%nat) as (R1 & R2 & R3).
  pose proof (nodes_pos l). pose proof (nodes_pos r). cbn [pre_L pre_R pre_t nodes].
  split_and!; (constructor; [lia |]; apply Forall_app; split); try done;
    (eapply Forall_impl; [| eassumption]); simpl; lia.
Qed.

(** The states at the leaves. *)
Definition states (t : node) : list Z := (tree_leaves t).*1.

Lemma pre_C_states (P : Z -> Prop) t : P 0 -> Forall P (states t) -> Forall P (pre_C t).
Proof.
  intros H0. unfold states. induction t as [c f | f l IHl r IHr]; cbn [tree_leaves pre_C].
  - done.
  - rewrite fmap_app. intros [Hl Hr]%Forall_app. constructor; [done |]. apply Forall_app. auto.
Qed.

Definition storable (h : HuffmanEncoder) : Prop :=
  nodeCount h = Z.of_nat (nodes (treeRoot h)) /\ nodeCount h < 2 ^ 31 /\
  is_i32 (offset h) /\ Forall is_i32 (states (treeRoot h)).

Lemma width_fits n : 0 <= n < 2 ^ 31 -> n <= 2 ^ (8 * Z.of_nat (width n)).
Proof. intros Hn. unfold width. repeat case_match; to_prop; simpl; lia. Qed.

Lemma length_convert k n t :
  n = Z.of_nat (nodes t) ->
  Z.of_nat (length (convert_HuffTree_to_bytes_anyStates k n t)) = 1 + 2 * n * Z.of_nat k + n * 1 + n * 4.
Proof.
  intros ->. unfold convert_HuffTree_to_bytes_anyStates.
  pose proof (pad_tree_spec t [] [] [] [] 0 (nodes t)) as E. cbn [app] in E.
  rewrite Nat2Z.id, E by done. cbn [pad_L pad_R pad_C pad_t].
  destruct (length_pre 0 t) as (L1 & L2 & L3 & L4).
  rewrite !length_app, !length_store_array, length_fmap, !length_app, !length_replicate, Nat.sub_diag.
  rewrite L1, L2, L3, L4. simpl. lia.
Qed.

Lemma reconstruct_convert n t tl :
  n = Z.of_nat (nodes t) -> n < 2 ^ 31 -> Forall is_i32 (states t) ->
  reconstruct_HuffTree_from_bytes_anyStates
    (convert_HuffTree_to_bytes_anyStates (width n) n t ++ tl) n = Some (strip t).
Proof.
  intros Hn Hmax Hst. unfold reconstruct_HuffTree_from_bytes_anyStates, convert_HuffTree_to_bytes_anyStates.
  pose proof (pad_tree_spec t [] [] [] [] 0 (nodes t)) as E. cbn [app] in E.
  subst n. rewrite Nat2Z.id, E by done. cbn [pad_L pad_R pad_C pad_t].
  rewrite Nat.sub_diag. cbn [replicate]. rewrite !app_nil_r.
  destruct (length_pre 0 t) as (L1 & L2 & L3 & L4). destruct (pre_range t 0) as (R1 & R2 & R4).
  assert (Forall is_i32 (pre_C t)) as R3 by (apply pre_C_states; [unfold is_i32; lia | done]).
  pose proof (width_fits (Z.of_nat (nodes t)) ltac:(lia)) as Hw. set (k := width _) in *.
  assert (forall l, Forall (fun x => 0 <= x < Z.of_nat (0 + nodes t)) l ->
    Forall (fun x => 0 <= x < 2 ^ (8 * Z.of_nat k)) l) as Hk.
  { intros l Hl. eapply Forall_impl; [| exact Hl]. simpl. lia. }
  change [0] with (le_bytes 1 0). rewrite <- !app_assoc, read_var_le by done. cbn [mbind option_bind].
  rewrite read_array_le by (lia || auto). cbn [mbind option_bind].
  rewrite read_array_le by (lia || auto). cbn [mbind option_bind].
  rewrite read_array_le by (rewrite ?length_fmap; lia ||
    (apply Forall_fmap, list.Forall_forall; intros; apply (u32_range x))). cbn [mbind option_bind].
  rewrite read_array_le.
  2:{ lia. }
  2:{ eapply Forall_impl; [| exact R4]. simpl. lia. }
  cbn [mbind option_bind].
  assert (i32 <$> (u32 <$> pre_C t) = pre_C t) as ->.
  { rewrite <- list_fmap_compose. rewrite <- (list_fmap_id (pre_C t)) at 2.
    apply Forall_fmap_ext_1. eapply Forall_impl; [| exact R3]. intros. by apply i32_u32. }
  by apply unpad_tree_spec; rewrite ?drop_0.
Qed.

Lemma length_int32 n : length (int32ToBytes_bigEndian n) = 4%nat.
Proof. done. Qed.

(** The tree and what follows it, from the pieces of the buffer. *)
Lemma load_parts c rem off c1 rem1 n m root :
  read_var_len 4 c rem = Some (off, c1, rem1) -> bytesToInt32_bigEndian c1 = Some n ->
  bytesToInt32_bigEndian (drop 4 c1) = Some m ->
  reconstruct_HuffTree_from_bytes_anyStates (drop 8 c1) (u32 n) = Some root ->
  load c rem = Some (root, i32 off, drop (Z.to_nat (8 + (1 + 2 * u32 n * Z.of_nat (width (u32 n))
    + u32 n * 1 + u32 n * 4))) c1, rem1).
Proof.
  intros E1 E2 E3 E4. unfold load. rewrite E1. cbn [mbind option_bind]. rewrite E2, E3.
  cbn [fmap option_fmap option_map mbind option_bind]. by rewrite E4.
Qed.

Lemma huffman_load_save h tl rem :
  storable h -> 4 <= rem ->
  load (save h ++ tl) rem = Some (strip (treeRoot h), offset h, tl, rem - 4).
Proof.
  intros (Hn & Hmax & Ho & Hst) Hr.
  pose proof (length_convert (width (nodeCount h)) (nodeCount h) (treeRoot h) Hn) as Hl.
  pose proof (reconstruct_convert (nodeCount h) (treeRoot h) tl Hn Hmax Hst) as Hrec.
  assert (u32 (i32 (nodeCount h)) = nodeCount h) as En.
  { rewrite i32_id by (unfold is_i32; lia). apply u32_id. unfold is_u32. lia. }
  unfold save. set (conv := convert_HuffTree_to_bytes_anyStates _ _ _) in *. clearbody conv.
  set (a := int32ToBytes_bigEndian (nodeCount h)). set (b := int32ToBytes_bigEndian (stateNum h / 2)).
  assert (length a = 4%nat) as La by done. assert (length b = 4%nat) as Lb by done.
  assert (drop 8 (a ++ b ++ conv ++ tl) = conv ++ tl) as E8.
  { rewrite (app_assoc a b). apply drop_app_length'. rewrite length_app. lia. }
  rewrite <- !app_assoc.
  rewrite (load_parts _ rem (u32 (offset h)) (a ++ b ++ conv ++ tl) (rem - 4)
             (i32 (nodeCount h)) (i32 (stateNum h / 2)) (strip (treeRoot h))).
  - rewrite En, (i32_u32 _ Ho). do 3 f_equal. rewrite !app_assoc. apply drop_app_length'.
    rewrite !length_app. lia.
  - apply (read_var_len_le 4); [| done]. apply (Z.mod_pos_bound _ (2 ^ 32)). lia.
  - apply bytes_int32.
  - rewrite (drop_app_length' a) by done. apply bytes_int32.
  - by rewrite E8, En.
Qed.

(** ** The tree and the codes *)

Section build_proofs.

Context `{Order : !MapOrder}.
Variable left_first : bool.

Lemma forest_inner n1 n2 q :
  forest_ok (Node (cnt n1 + cnt n2) n1 n2 :: q) -> forest_ok (new_inner left_first n1 n2 :: q).
Proof.
  unfold new_inner. destruct left_first; [done |]. intros [Hb Hc].
  apply Forall_cons_iff in Hb as [(_ & B1 & B2 & C1 & C2) Hb]. split.
  - constructor; [| done]. simpl. split_and!; done.
  - assert (forall y, y ∈ Node (cnt n2 + cnt n1) n2 n1 :: q ->
      exists y', y' ∈ Node (cnt n1 + cnt n2) n1 n2 :: q /\ cnt y' = cnt y /\ childmax y' = childmax y) as Hsame.
    { intros y [-> | Hy]%elem_of_cons; [| exists y; set_solver].
      eexists. split; [by left |]. simpl. lia. }
    intros x y (x' & Hx & _ & <-)%Hsame (y' & Hy & <- & _)%Hsame. by apply Hc.
Qed.

Lemma merge_spec fuel : forall q,
  SzHeap.heap_ok cnt q -> (length q < fuel)%nat -> q <> [] -> forest_ok q ->
  exists t, merge left_first fuel q = Some t /\ balanced t /\ tree_leaves t ≡ₚ q ≫= tree_leaves.
Proof.
  induction fuel as [| fuel IH]; intros q Hq Hn Hne Hok; [lia |]. cbn [merge].
  destruct (SzHeap.qremove_some cnt q Hne) as (n1 & q1 & E1). rewrite E1.
  cbn [mbind option_bind]. destruct (SzHeap.qremove_spec cnt q n1 q1 Hq E1) as (Hq1 & P1 & F1).
  rewrite P1 in Hok, F1. assert (length q = S (length q1)) as L1 by (by rewrite P1).
  destruct q1 as [| a q1].
  - exists n1. destruct Hok as [Hb _]. apply Forall_cons_iff in Hb as [Hb _].
    split_and!; try done. rewrite P1. simpl. by rewrite app_nil_r.
  - destruct (SzHeap.qremove_some cnt (a :: q1)) as (n2 & q2 & E2); [done |]. rewrite E2.
    destruct (SzHeap.qremove_spec cnt _ n2 q2 Hq1 E2) as (Hq2 & P2 & F2). rewrite P2 in Hok, F1, F2.
    assert (length (a :: q1) = S (length q2)) as L2 by (by rewrite P2).
    pose proof (SzHeap.qinsert_perm cnt (new_inner left_first n1 n2) q2) as P3.
    destruct (IH (SzHeap.qinsert cnt (new_inner left_first n1 n2) q2)) as (t & -> & Hb & Hl).
    { by apply SzHeap.qinsert_ok. }
    { rewrite P3. simpl in *. lia. }
    { intros E. rewrite E in P3. by apply Permutation_nil_cons in P3. }
    { rewrite P3. by apply forest_inner, forest_merge. }
    exists t. split_and!; try done. rewrite Hl, P3, P1, P2.
    unfold new_inner. destruct left_first; simpl; rewrite app_assoc; [done |].
    by rewrite (Permutation_app_comm (tree_leaves n2)).
Qed.

(** The folds of [init] over the keys. *)
Lemma fold_max (l : list (Z * Z)) m :
  m <= foldl (fun m kv => if m <? kv.1 then kv.1 else m) m l /\
  Forall (fun kv => kv.1 <= foldl (fun m kv => if m <? kv.1 then kv.1 else m) m l) l /\
  (foldl (fun m kv => if m <? kv.1 then kv.1 else m) m l = m \/
   foldl (fun m kv => if m <? kv.1 then kv.1 else m) m l ∈ l.*1).
Proof.
  revert m. induction l as [| kv l IH]; intros m; cbn [foldl]; [split_and!; try done; auto; lia |].
  destruct (IH (if m <? kv.1 then kv.1 else m)) as (H1 & H2 & H3). split_and!.
  - destruct (Z.ltb_spec m kv.1); lia.
  - constructor; [destruct (Z.ltb_spec m kv.1); lia | done].
  - rewrite fmap_cons. destruct H3 as [-> | H3]; [| set_solver].
    destruct (m <? kv.1); set_solver.
Qed.

Lemma fold_min (l : list (Z * Z)) m :
  foldl (fun m kv => if kv.1 <? m then kv.1 else m) m l <= m /\
  Forall (fun kv => foldl (fun m kv => if kv.1 <? m then kv.1 else m) m l <= kv.1) l /\
  (foldl (fun m kv => if kv.1 <? m then kv.1 else m) m l = m \/
   foldl (fun m kv => if kv.1 <? m then kv.1 else m) m l ∈ l.*1).
Proof.
  revert m. induction l as [| kv l IH]; intros m; cbn [foldl]; [split_and!; try done; auto; lia |].
  destruct (IH (if kv.1 <? m then kv.1 else m)) as (H1 & H2 & H3). split_and!.
  - destruct (Z.ltb_spec kv.1 m); lia.
  - constructor; [destruct (Z.ltb_spec kv.1 m); lia | done].
  - rewrite fmap_cons. destruct H3 as [-> | H3]; [| set_solver].
    destruct (kv.1 <? m); set_solver.
Qed.

(** What [init] builds: a balanced tree over the values of the input less the least. *)
Record built (bins : list Z) (h : HuffmanEncoder) : Prop := {
  b_balanced : balanced (treeRoot h);
  b_cnt : cnt (treeRoot h) = Z.of_nat (length bins);
  b_nodup : NoDup (states (treeRoot h));
  b_states : forall c, c ∈ states (treeRoot h) <-> c + offset h ∈ bins;
  b_code : code h = build_code (treeRoot h) 0 0 0 ∅;
  b_offset : offset h ∈ bins;
  b_num : exists max, max ∈ bins /\ stateNum h = i32 (max - offset h + 2) /\
            Forall (fun x => offset h <= x <= max) bins
}.

Lemma init_spec bins : bins <> [] -> exists h, init left_first bins = Some h /\ built bins h.
Proof.
  intros Hne. destruct bins as [| s0 rest] eqn:Eb; [done |]. rewrite <- Eb in *.
  assert (s0 ∈ bins) as Hs0 by (rewrite Eb; set_solver).
  unfold init. assert (bins !! 0%nat = Some s0) as -> by (by rewrite Eb). cbn [mbind option_bind].
  clear Eb rest. destruct (count_freq_spec bins) as [Hin Hpos].
  pose proof (weigh_count_freq (fun _ => 1) bins) as Hw.
  set (m := count_freq bins) in *. clearbody m.
  assert (forall x, x ∈ (map_order m).*1 <-> x ∈ bins) as Hkeys.
  { intros x. rewrite map_order_perm, Hin. rewrite list_elem_of_fmap. split.
    - intros ([k v] & -> & Hkv%elem_of_map_to_list). simpl. by rewrite Hkv.
    - intros [v Hv]. exists (x, v). by rewrite elem_of_map_to_list. }
  destruct (fold_max (map_order m) s0) as (M1 & M2 & M3). destruct (fold_min (map_order m) s0) as (N1 & N2 & N3).
  set (max := foldl _ s0 (map_order m)) in *. set (off := foldl (fun m kv => if kv.1 <? m then _ else _) s0 _) in *.
  assert (max ∈ bins /\ off ∈ bins) as [Hmax Hoff].
  { rewrite !Hkeys in *. split; [destruct M3 as [-> | ] | destruct N3 as [-> | ]]; done. }
  assert (Forall (fun x => off <= x <= max) bins) as Hall.
  { apply list.Forall_forall. intros x Hx%Hkeys. apply list_elem_of_fmap in Hx as (kv & -> & Hkv).
    rewrite list.Forall_forall in M2, N2. split; auto. }
  clearbody max off. clear M1 M2 M3 N1 N2 N3.
  set (f := fun f : Z * Z => Leaf (f.1 - off) f.2).
  set (q := fold_left _ _ []).
  destruct (@pq_push_all _ cnt (SzHeap.heap_queue cnt) _ f (map_order m) [] pq_ok_nil) as [Hqok Hq].
  change (SzHeap.heap_ok cnt q) in Hqok. change (q ≡ₚ (f <$> map_order m) ++ []) in Hq.
  rewrite app_nil_r, map_order_perm in Hq.
  destruct (merge_spec (S (length q)) q) as (root & -> & Hb & Hl); [done | lia | | |].
  - intros E. rewrite E in Hq. apply Permutation_nil_l in Hq. symmetry in Hq.
    apply fmap_nil_inv, map_to_list_empty_iff in Hq. destruct (proj1 (Hin s0) Hs0) as [c Hc].
    by rewrite Hq, lookup_empty in Hc.
  - rewrite Hq. split.
    + apply Forall_fmap, list.Forall_forall. intros [v c] Hvc%elem_of_map_to_list. by apply Hpos in Hvc.
    + intros x y Hx Hy. apply list_elem_of_fmap in Hx as ([v c] & -> & _).
      apply list_elem_of_fmap in Hy as ([v' c'] & -> & Hy%elem_of_map_to_list). simpl.
      apply Hpos in Hy. lia.
  - cbn [mbind option_bind]. eexists. split; [done |].
    assert (tree_leaves root ≡ₚ (fun kv => (kv.1 - off, kv.2)) <$> map_to_list m) as Ht.
    { rewrite Hl, Hq. clear. induction (map_to_list m) as [| kv l IH]; [done |].
      rewrite !fmap_cons, bind_cons, IH. done. }
    assert (states root ≡ₚ (fun x => x - off) <$> (map_to_list m).*1) as Hst.
    { unfold states. by rewrite Ht, <- !list_fmap_compose. }
    split; simpl; try done.
    + destruct (balanced_cnt root Hb) as [_ <-]. rewrite Ht.
      transitivity (weigh (fun _ => 1) (map_to_list m)); [| rewrite Hw].
      * clear. unfold weigh. induction (map_to_list m) as [| kv l IH]; [done |]. rewrite fmap_cons. simpl. lia.
      * clear. induction bins; simpl length; [done |]. cbn [foldr]. lia.
    + rewrite Hst. apply NoDup_fmap_2; [intros a b; lia | apply NoDup_fst_map_to_list].
    + intros c. rewrite Hst, <- Hkeys, map_order_perm, list_elem_of_fmap. split.
      * intros (x & -> & Hx). by replace (x - off + off) with x by lia.
      * intros Hx. exists (c + off). split; [lia | done].
    + exists max. done.
Qed.

(** *** Codes *)

(** The leaves under a node reached by [pre], with the way to them: [true] is right. *)
Fixpoint paths (t : node) (pre : list bool) : list (Z * list bool) :=
  match t with
  | Leaf c _ => [(c, pre)]
  | Node _ l r => paths l (pre ++ [false]) ++ paths r (pre ++ [true])
  end.

Lemma paths_states t : forall pre, (paths t pre).*1 = states t.
Proof.
  unfold states. induction t as [c f | f l IHl r IHr]; intros pre; [done |].
  cbn [paths tree_leaves]. by rewrite !fmap_app, IHl, IHr.
Qed.

Lemma paths_length t : forall pre c w, (c, w) ∈ paths t pre -> (length w <= length pre + depth t)%nat.
Proof.
  induction t as [c f | f l IHl r IHr]; intros pre c' w; cbn [paths depth].
  - intros H%list_elem_of_singleton. simplify_eq. lia.
  - intros [H%IHl | H%IHr]%elem_of_app; rewrite length_app in H; simpl in H; lia.
Qed.

(** The words of a code of at most 64 bits, from the left of the first. *)
Definition word_of (w : list bool) : Z * Z * Z :=
  (shl64 (bits_val w) (64 - Z.of_nat (length w)), 0, Z.of_nat (length w)).

Lemma bits_val_snoc pre b : bits_val (pre ++ [b]) = 2 * bits_val pre + Z.b2z b.
Proof. rewrite bits_val_app. simpl. lia. Qed.

Lemma build_code_spec t : forall pre m,
  NoDup (states t) -> (length pre + depth t <= 64)%nat ->
  let m' := build_code t (Z.of_nat (length pre)) (bits_val pre) 0 m in
  (forall c w, (c, w) ∈ paths t pre -> m' !! c = Some (word_of w)) /\
  (forall c, c ∉ states t -> m' !! c = m !! c).
Proof.
  induction t as [c f | f l IHl r IHr]; intros pre m Hnd Hd; cbn [depth] in Hd.
  - cbn [build_code paths]. unfold states. cbn [tree_leaves]. split.
    + intros c' w H%list_elem_of_singleton. simplify_eq. rewrite lookup_insert_eq.
      rewrite (proj2 (Z.leb_le _ _)) by lia. unfold word_of, u8.
      by rewrite (Z.mod_small (Z.of_nat _)) by lia.
    + intros c' Hc. rewrite lookup_insert_ne; set_solver.
  - assert (Z.shiftr (Z.of_nat (length pre)) 6 = 0) as E6.
    { rewrite Z.shiftr_div_pow2 by lia. apply Z.div_small. change (2 ^ 6) with 64. lia. }
    cbn [build_code paths]. rewrite E6, Z.eqb_refl.
    pose proof (bits_val_range pre) as Hv.
    assert (2 ^ Z.of_nat (length pre) <= 2 ^ 63) by (apply Z.pow_le_mono_r; lia).
    assert (shl64 (bits_val pre) 1 = 2 * bits_val pre) as E1.
    { unfold shl64. rewrite Z.shiftl_mul_pow2 by lia. change (2 ^ 1) with 2. rewrite u64_id by (unfold is_u64; lia). lia. }
    assert (Z.lor (2 * bits_val pre) 1 = 2 * bits_val pre + 1) as E2.
    { pose proof (lor_add_disjoint (bits_val pre) 1 1) as E. change (2 ^ 1) with 2 in E.
      rewrite (Z.mul_comm 2), E by lia. lia. }
    rewrite E1, E2. unfold states in Hnd. cbn [tree_leaves] in Hnd. rewrite fmap_app in Hnd.
    apply list.NoDup_app in Hnd as (Hl & Hdis & Hr).
    assert (forall b, length (pre ++ [b]) = S (length pre)) as Lp by (intros; rewrite length_app; simpl; lia).
    replace (Z.of_nat (length pre) + 1) with (Z.of_nat (S (length pre))) by lia.
    destruct (IHl (pre ++ [false]) m Hl) as [L1 L2]; [rewrite Lp; lia |].
    rewrite Lp, bits_val_snoc, Z.add_0_r in L1, L2. set (ml := build_code l _ _ _ _) in *.
    destruct (IHr (pre ++ [true]) ml Hr) as [R1 R2]; [rewrite Lp; lia |].
    rewrite Lp, bits_val_snoc in R1, R2. cbn [Z.b2z] in R1, R2. split.
    + intros c w [H' | H']%elem_of_app; [| by apply R1]. rewrite R2; [by apply L1 |].
      apply Hdis. fold (states l). rewrite <- (paths_states l (pre ++ [false])).
      apply list_elem_of_fmap. by exists (c, w).
    + unfold states. cbn [tree_leaves]. intros c. rewrite fmap_app, not_elem_of_app. intros [? ?].
      by rewrite R2, L2.
Qed.

Lemma nodes_states t : Z.of_nat (nodes t) = 2 * Z.of_nat (length (states t)) - 1.
Proof.
  unfold states. induction t as [c f | f l IHl r IHr]; [done |]. cbn [nodes tree_leaves].
  rewrite fmap_app, length_app. lia.
Qed.

Lemma fib_iter n : Nat.iter n (fun p => (p.2, p.1 + p.2)) (0, 1) = (fib n, fib (S n)).
Proof. induction n as [| n IH]; [done |]. rewrite Nat.iter_succ, IH, (fib_S n). simpl. f_equal. lia. Qed.

Lemma fib_66 : fib 66 = 27777890035288.
Proof.
  pose proof (fib_iter 66) as E. revert E. generalize (fib 66) (fib (S 66)). intros a b E.
  vm_compute in E. by injection E.
Qed.

(** Trees over at most 2^44 values have codes of at most 63 bits. *)
Lemma balanced_depth t : balanced t -> cnt t <= 2 ^ 44 -> (depth t <= 63)%nat.
Proof.
  intros Hb Hc. destruct (balanced_fib t Hb) as [F _].
  destruct (decide (depth t <= 63)%nat) as [| H]; [done |].
  pose proof (fib_mono 66 (depth t + 2) ltac:(lia)) as M.
  rewrite fib_66 in M. lia.
Qed.

(** The inputs of the encoder: indices that are not too far apart, and not too many. *)
Definition encodable (bins : list Z) : Prop :=
  bins <> [] /\ Forall is_i32 bins /\ (forall x y, x ∈ bins -> y ∈ bins -> x - y < 2 ^ 29) /\
  Z.of_nat (length bins) <= 2 ^ 44.

(** Few small indices. *)
Lemma encodable_small bins : bins <> [] -> forallb (fun b => (0 <=? b) && (b <? 2 ^ 29)) bins = true ->
  (length bins <= 1000)%nat -> encodable bins.
Proof.
  intros Hne Hb Hl. rewrite forallb_forall in Hb.
  assert (forall b, b ∈ bins -> 0 <= b < 2 ^ 29) as H.
  { intros b Hin. specialize (Hb b). rewrite <- list_elem_of_In in Hb. specialize (Hb Hin). apply andb_true_iff in Hb as [? ?]. lia. }
  split_and!; [done | | | lia].
  - apply list.Forall_forall. intros b Hin. specialize (H b Hin). unfold is_i32. lia.
  - intros x y Hx Hy. pose proof (H x Hx). pose proof (H y Hy). lia.
Qed.

(** Every leaf has its code. *)
Definition coded (h : HuffmanEncoder) : Prop :=
  forall c w, (c, w) ∈ paths (treeRoot h) [] -> code h !! c = Some (word_of w).

Lemma used_states h :
  NoDup (states (treeRoot h)) -> (depth (treeRoot h) <= 64)%nat ->
  code h = build_code (treeRoot h) 0 0 0 ∅ ->
  Forall (fun c => 0 <= c < stateNum h) (states (treeRoot h)) ->
  length (filter (fun i => is_Some (code h !! Z.of_nat i)) (seq 0 (Z.to_nat (stateNum h))))
  = length (states (treeRoot h)).
Proof.
  intros Hnd Hd Hc Hr. destruct (build_code_spec (treeRoot h) [] ∅ Hnd Hd) as [B1 B2].
  change (build_code _ _ _ _ _) with (build_code (treeRoot h) 0 0 0 ∅) in B1, B2.
  rewrite <- Hc in B1, B2. rewrite list.Forall_forall in Hr.
  rewrite <- (length_fmap Z.to_nat (states (treeRoot h))). apply Permutation_length, NoDup_Permutation.
  - apply list.NoDup_filter, NoDup_seq.
  - apply NoDup_fmap_2_strong; [| done]. intros x y Hx%Hr Hy%Hr. lia.
  - intros i. rewrite list_elem_of_filter, elem_of_seq, list_elem_of_fmap. split.
    + intros [[v Hv] Hi]. destruct (decide (Z.of_nat i ∈ states (treeRoot h))) as [H | H].
      * exists (Z.of_nat i). by rewrite Nat2Z.id.
      * by rewrite B2 in Hv.
    + intros (c & -> & Hcs). specialize (Hr c Hcs). rewrite Z2Nat.id by lia. split; [| lia].
      rewrite <- (paths_states (treeRoot h) []) in Hcs. apply list_elem_of_fmap in Hcs as ([c' w] & -> & Hw).
      simpl. rewrite (B1 _ _ Hw). eauto.
Qed.

Lemma preprocess_spec bins :
  encodable bins ->
  exists h, preprocess_encode left_first bins = Some h /\ storable h /\ coded h /\
    (depth (treeRoot h) <= 63)%nat /\ NoDup (states (treeRoot h)) /\
    Forall (fun x => x - offset h ∈ states (treeRoot h)) bins.
Proof.
  intros (Hne & Hin & Hrange & Hlen). unfold preprocess_encode.
  destruct (Nat.eqb_spec (length bins) 0) as [E | E]; [by apply nil_length_inv in E |].
  destruct (init_spec bins Hne) as (h & -> & Hb). cbn [mbind option_bind].
  destruct Hb as [Hbal Hcnt Hnd Hst Hcode Hoff (max & Hmax & Hnum & Hall)].
  assert (depth (treeRoot h) <= 63)%nat as Hd by (apply balanced_depth; [done | lia]).
  rewrite list.Forall_forall in Hall. pose proof (Hrange max (offset h) Hmax Hoff) as Hr0.
  pose proof (Hall max Hmax) as Hm.
  rewrite i32_id in Hnum by (unfold is_i32; lia).
  assert (Forall (fun c => 0 <= c < stateNum h) (states (treeRoot h))) as Hcs.
  { apply list.Forall_forall. intros c Hc%Hst%Hall. lia. }
  pose proof (used_states h Hnd ltac:(lia) Hcode Hcs) as Hused. rewrite Hused.
  eexists. split; [done |].
  assert (Z.of_nat (length (states (treeRoot h))) < 2 ^ 30) as Hsmall.
  { assert (length (states (treeRoot h)) <= Z.to_nat (stateNum h))%nat as H; [| lia].
    rewrite <- Hused. etrans; [apply length_filter |]. by rewrite length_seq. }
  pose proof (nodes_states (treeRoot h)) as Hn. pose proof (nodes_pos (treeRoot h)).
  split_and!; simpl; try done.
  - split_and!; simpl.
    + rewrite u32_id by (unfold is_u32; lia). lia.
    + rewrite u32_id by (unfold is_u32; lia). lia.
    + rewrite list.Forall_forall in Hin. by apply Hin.
    + eapply Forall_impl; [| exact Hcs]. unfold is_i32. simpl. lia.
  - intros c w Hcw. simpl in Hcw |- *. rewrite Hcode.
    destruct (build_code_spec (treeRoot h) [] ∅ Hnd ltac:(simpl; lia)) as [B1 _]. by apply B1.
  - apply list.Forall_forall. intros x Hx. apply Hst. by replace (x - offset h + offset h) with x by lia.
Qed.

End build_proofs.

(** ** Packing the codes *)

Definition zeros (n : nat) : list bool := replicate n false.
Definition byte_bits (l : list Z) : list bool := l ≫= bits 8.

Lemma bits_zero n : bits n 0 = zeros (Z.to_nat n).
Proof.
  apply list_eq. intros i. destruct (decide (i < Z.to_nat n)%nat) as [Hi | Hi].
  - unfold zeros. by rewrite lookup_bits, lookup_replicate_2, Z.testbit_0_l by lia.
  - unfold zeros. by rewrite !lookup_ge_None_2 by (rewrite ?length_bits, ?length_replicate; lia).
Qed.

Lemma bits_of_bits_val w : bits (Z.of_nat (length w)) (bits_val w) = w.
Proof.
  induction w as [| b w IH] using rev_ind; [vm_compute; reflexivity |].
  rewrite length_app, Nat2Z.inj_add, bits_val_app. cbn [length].
  pose proof (bits_val_range w) as Hv. change (Z.of_nat 1) with 1.
  rewrite bits_val_app_bits, IH by (lia || (destruct b; vm_compute; done)). f_equal.
  destruct b; vm_compute; reflexivity.
Qed.

Lemma length_byte_bits l : length (byte_bits l) = (8 * length l)%nat.
Proof.
  unfold byte_bits. induction l as [| b l IH]; [done |]. rewrite bind_cons, length_app, length_bits, IH.
  simpl. lia.
Qed.

Lemma byte_bits_app a b : byte_bits (a ++ b) = byte_bits a ++ byte_bits b.
Proof. apply bind_app. Qed.

Lemma byte_bits_take k l : byte_bits (take k l) = take (8 * k) (byte_bits l).
Proof.
  revert k. induction l as [| b l IH]; intros [| k].
  - done.
  - cbn [take]. change (byte_bits []) with (@nil bool). by rewrite take_nil.
  - done.
  - unfold byte_bits in *. cbn [take]. rewrite !bind_cons, IH.
    replace (8 * S k)%nat with (length (bits 8 b) + 8 * k)%nat by (rewrite length_bits; lia).
    by rewrite take_app_add.
Qed.

Lemma byte_bits_64 num : byte_bits (int64ToBytes_bigEndian num) = bits 64 num.
Proof.
  unfold byte_bits, int64ToBytes_bigEndian. rewrite !bind_cons. cbn [mbind list_bind].
  assert (forall x, bits 8 (u8 x) = bits 8 x) as E by (intros; by apply bits_mod).
  rewrite !E, app_nil_r.
  assert (forall n, 0 <= n -> bits (8 + n) num = bits 8 (Z.shiftr num n) ++ bits n num) as S
    by (intros; apply bits_app; lia).
  rewrite (S 56 ltac:(lia) : bits 64 num = _), (S 48 ltac:(lia) : bits 56 num = _),
    (S 40 ltac:(lia) : bits 48 num = _), (S 32 ltac:(lia) : bits 40 num = _),
    (S 24 ltac:(lia) : bits 32 num = _), (S 16 ltac:(lia) : bits 24 num = _),
    (S 8 ltac:(lia) : bits 16 num = _). done.
Qed.

(** The first word of a code is the code, then zeros. *)
Lemma word_bits_of w :
  (length w <= 64)%nat ->
  bits 64 (word_of w).1.1 = w ++ zeros (64 - length w).
Proof.
  intros Hw. unfold word_of. cbn [fst]. pose proof (bits_val_range w) as Hv.
  set (n := Z.of_nat (length w)) in *.
  assert (2 ^ 64 = 2 ^ n * 2 ^ (64 - n)) as E by (rewrite <- Z.pow_add_r by lia; f_equal; lia).
  unfold shl64. rewrite Z.shiftl_mul_pow2, bits_u64 by lia.
  pose proof (bits_val_app_bits n (64 - n) (bits_val w) 0) as H.
  replace (n + (64 - n)) with 64 in H by lia. rewrite Z.add_0_r in H.
  rewrite H by (try apply Z.pow_pos_nonneg; lia || (split; [lia | apply Z.pow_pos_nonneg; lia])).
  rewrite bits_zero. f_equal; [| unfold n; f_equal; lia].
  apply bits_of_bits_val.
Qed.

Lemma take_zeros m w n :
  (length w <= m)%nat -> (m - length w <= n)%nat -> take m (w ++ zeros n) = w ++ zeros (m - length w).
Proof.
  intros H1 H2. rewrite take_app_ge by done. f_equal. unfold zeros. rewrite take_replicate. f_equal. lia.
Qed.

(** Or-ing [lack] bits into a byte whose [lack] low bits are zero. *)
Lemma or_byte_bits b v lack x :
  0 <= lack <= 8 -> 0 <= v < 2 ^ lack -> bits 8 b = x ++ zeros (Z.to_nat lack) ->
  bits 8 (Z.lor b v) = x ++ bits lack v.
Proof.
  intros Hl Hv E. replace 8 with (8 - lack + lack) in E |- * by lia.
  rewrite bits_app in E |- * by lia. rewrite Z.shiftr_lor.
  assert (Z.shiftr v lack = 0) as ->.
  { rewrite Z.shiftr_div_pow2 by lia. by apply Z.div_small. }
  rewrite Z.lor_0_r. apply app_inj_2 in E as [<- E2].
  2:{ unfold zeros. by rewrite length_bits, length_replicate. }
  f_equal. apply bits_ext. intros i Hi. rewrite Z.lor_spec.
  assert (Z.testbit b i = false) as ->; [| done].
  pose proof (lookup_bits lack b (Z.to_nat (lack - 1 - i)) ltac:(lia)) as H. rewrite E2 in H.
  unfold zeros in H. rewrite lookup_replicate_2 in H by lia. injection H as H.
  rewrite H. f_equal. lia.
Qed.

(** After [B] has been packed. *)
Record packed (s : enc) (B : list bool) : Prop := {
  pk_lack : 0 <= lackBits s < 8;
  pk_out : 8 * outSize s = Z.of_nat (length B) + lackBits s;
  pk_p : Z.of_nat (p s) = if lackBits s =? 0 then outSize s else outSize s - 1;
  pk_len : outSize s <= Z.of_nat (length (buf s));
  pk_bits : byte_bits (take (Z.to_nat (outSize s)) (buf s)) = B ++ zeros (Z.to_nat (lackBits s))
}.

Lemma bytes_lack n : 0 <= n ->
  8 * bytes_of n = n + lack_of n /\ 0 <= lack_of n < 8 /\
  n / 8 = (if lack_of n =? 0 then bytes_of n else bytes_of n - 1).
Proof.
  intros Hn. unfold bytes_of, lack_of. pose proof (Z.div_mod n 8 ltac:(lia)).
  pose proof (Z.mod_pos_bound n 8 ltac:(lia)). destruct (Z.eqb_spec (n mod 8) 0); [simpl; lia |].
  destruct (Z.eqb_spec (8 - n mod 8) 0); lia.
Qed.

(** Writing a word whose first [n] bits are [w] at a byte boundary. *)
Lemma put64_packed buf (o : nat) c w :
  (o <= length buf)%nat -> (length w <= 64)%nat ->
  bits 64 c = w ++ zeros (64 - length w) ->
  exists buf', put64 buf o c = Some buf' /\
    let k := Z.to_nat (bytes_of (Z.of_nat (length w))) in
    (o + k <= length buf')%nat /\
    byte_bits (take (o + k) buf') = byte_bits (take o buf) ++ w ++ zeros (Z.to_nat (lack_of (Z.of_nat (length w)))).
Proof.
  intros Ho Hw Hc. unfold put64. rewrite assert_true by (by apply Nat.leb_le). cbn [mbind option_bind].
  eexists. split; [done |]. set (n := Z.of_nat (length w)). destruct (bytes_lack n ltac:(lia)) as (H1 & H2 & _).
  set (k := Z.to_nat (bytes_of n)).
  assert (length (take o buf) = o) as Lo by (rewrite length_take; lia).
  assert (length (int64ToBytes_bigEndian c) = 8%nat) as L8 by done.
  split; [rewrite !length_app; lia |].
  rewrite <- Lo at 1. rewrite take_app_add, byte_bits_app. f_equal.
  rewrite take_app_le by lia. rewrite byte_bits_take, byte_bits_64, Hc.
  rewrite take_zeros by lia. do 2 f_equal. lia.
Qed.

(** Filling the last byte with the first bits of a word. *)
Lemma or_byte_packed buf (o : nat) c lack B :
  0 < lack < 8 -> (S o <= length buf)%nat -> 0 <= c < 2 ^ 64 ->
  byte_bits (take (S o) buf) = B ++ zeros (Z.to_nat lack) ->
  exists buf', or_byte buf o (Z.shiftr c (64 - lack)) = Some buf' /\ length buf' = length buf /\
    byte_bits (take (S o) buf') = B ++ take (Z.to_nat lack) (bits 64 c).
Proof.
  intros Hl Ho Hc E. destruct (lookup_lt_is_Some_2 buf o) as [b Eb]; [lia |].
  unfold or_byte. rewrite Eb. cbn [mbind option_bind]. eexists. split; [done |].
  split; [apply length_insert |].
  pose proof (shiftr_range c (64 - lack) lack ltac:(lia) ltac:(lia)) as Hv.
  replace (64 - lack + lack) with 64 in Hv by lia. specialize (Hv Hc).
  assert (u8 (Z.shiftr c (64 - lack)) = Z.shiftr c (64 - lack)) as ->.
  { apply Z.mod_small. pose proof (Z.pow_le_mono_r 2 lack 8 ltac:(lia) ltac:(lia)). lia. }
  rewrite (take_S_r _ _ (Z.lor b (Z.shiftr c (64 - lack)))) by (apply list_lookup_insert_eq; lia).
  rewrite take_insert_ge, byte_bits_app by done. rewrite (take_S_r _ _ b), byte_bits_app in E by done.
  set (P := byte_bits (take o buf)) in *. unfold byte_bits in *.
  rewrite bind_cons in E |- *. cbn [mbind list_bind] in E |- *. rewrite app_nil_r in E |- *.
  assert (bits 64 c = bits lack (Z.shiftr c (64 - lack)) ++ bits (64 - lack) c) as Ec.
  { rewrite <- bits_app by lia. f_equal. lia. }
  rewrite Ec, take_app_length' by (by rewrite length_bits).
  assert (length B = (length P + (8 - Z.to_nat lack))%nat) as HB.
  { apply (f_equal length) in E. unfold zeros in E. rewrite !length_app, length_bits, length_replicate in E. lia. }
  assert (B = P ++ drop (length P) B /\ bits 8 b = drop (length P) B ++ zeros (Z.to_nat lack)) as [EB E8].
  { pose proof (f_equal (take (length P)) E) as E1. pose proof (f_equal (drop (length P)) E) as E2.
    rewrite take_app_length, take_app_le in E1 by lia. rewrite drop_app_length, drop_app_le in E2 by lia.
    split; [| done]. rewrite E1 at 1. by rewrite take_drop. }
  rewrite (or_byte_bits b _ lack (drop (length P) B)) by (done || lia).
  rewrite app_assoc. by rewrite <- EB.
Qed.

Lemma word_of_range w : 0 <= (word_of w).1.1 < 2 ^ 64.
Proof. apply shl64_range. Qed.

(** The code shifted left by [lack] bits. *)
Lemma shifted_bits c lack w :
  0 <= lack -> (Z.to_nat lack <= length w <= 64)%nat -> bits 64 c = w ++ zeros (64 - length w) ->
  bits 64 (shl64 c lack) = drop (Z.to_nat lack) w ++ zeros (64 - length (drop (Z.to_nat lack) w)).
Proof.
  intros Hl Hw E. unfold shl64. rewrite bits_u64 by lia.
  assert (bits 64 (Z.shiftl c lack) = bits (64 - lack) c ++ zeros (Z.to_nat lack)) as ->.
  { replace 64 with (64 - lack + lack) at 1 by lia. rewrite bits_app by lia. f_equal.
    - by rewrite Z.shiftr_shiftl_l, Z.sub_diag, Z.shiftl_0_r by lia.
    - rewrite <- bits_zero. apply bits_ext. intros i Hi. by rewrite Z.shiftl_spec_low, Z.testbit_0_l by lia. }
  assert (bits 64 c = bits lack (Z.shiftr c (64 - lack)) ++ bits (64 - lack) c) as Ec.
  { rewrite <- bits_app by lia. f_equal. lia. }
  rewrite Ec in E. apply (f_equal (drop (Z.to_nat lack))) in E.
  rewrite drop_app_length', drop_app_le in E by (rewrite ?length_bits; lia). rewrite E, <- app_assoc.
  f_equal. unfold zeros. rewrite <- replicate_add, length_drop. f_equal. lia.
Qed.

Lemma encode_step_spec s B w :
  packed s B -> (length w <= 64)%nat ->
  exists s', encode_step s (word_of w).1.1 (word_of w).1.2 (word_of w).2 = Some s' /\ packed s' (B ++ w).
Proof.
  intros [Hl Ho Hp Hlen Hbits] Hw.
  assert (0 <= outSize s) as Ho0 by lia.
  pose proof (word_bits_of w Hw) as Ew. pose proof (word_of_range w) as Rw.
  change (word_of w).2 with (Z.of_nat (length w)). set (c0 := (word_of w).1.1) in *. clearbody c0.
  unfold encode_step. destruct (Z.eqb_spec (lackBits s) 0) as [E0 | E0].
  - destruct (bytes_lack (Z.of_nat (length w)) ltac:(lia)) as (K1 & K2 & K3).
    destruct (put64_packed (buf s) (p s) c0 w) as (buf' & -> & Hk & Hbits'); [lia | done | done |].
    cbn [mbind option_bind]. rewrite (proj2 (Z.leb_le (bytes_of _) 8)) by lia. cbn [mbind option_bind].
    eexists. split; [done |]. split; cbn [buf p lackBits outSize].
    + done.
    + rewrite length_app. lia.
    + destruct (Z.eqb_spec (lack_of (Z.of_nat (length w))) 0); lia.
    + lia.
    + rewrite E0 in *. rewrite app_nil_r in Hbits.
      replace (Z.to_nat (outSize s)) with (p s) in Hbits by lia.
      replace (Z.to_nat (outSize s + _)) with (p s + Z.to_nat (bytes_of (Z.of_nat (length w))))%nat by lia.
      by rewrite Hbits', Hbits, app_assoc.
  - assert (Z.to_nat (outSize s) = S (p s)) as Eo.
    { lia. }
    rewrite Eo in Hbits.
    destruct (or_byte_packed (buf s) (p s) c0 (lackBits s) B) as (buf1 & -> & L1 & B1); [lia | lia | done | done |].
    cbn [mbind option_bind]. rewrite Ew in B1.
    destruct (Z.ltb_spec (lackBits s) (Z.of_nat (length w))) as [Hlw | Hlw].
    + set (w1 := drop (Z.to_nat (lackBits s)) w).
      assert (Z.of_nat (length w1) = Z.of_nat (length w) - lackBits s) as Lw1
        by (unfold w1; rewrite length_drop; lia).
      destruct (put64_packed buf1 (S (p s)) (shl64 c0 (lackBits s)) w1) as (buf2 & -> & Hk & Hbits2);
        [lia | lia | apply shifted_bits; [lia | lia | exact Ew] |].
      cbn [mbind option_bind]. rewrite (proj2 (Z.leb_le (Z.of_nat (length w)) 64)), <- Lw1 by lia.
      destruct (bytes_lack (Z.of_nat (length w1)) ltac:(lia)) as (K1 & K2 & K3).
      eexists. split; [done |]. split; cbn [buf p lackBits outSize].
      * done.
      * rewrite length_app. lia.
      * destruct (Z.eqb_spec (lack_of (Z.of_nat (length w1))) 0); lia.
      * lia.
      * replace (Z.to_nat (outSize s + _)) with (S (p s) + Z.to_nat (bytes_of (Z.of_nat (length w1))))%nat by lia.
        rewrite Hbits2, B1, take_app_le by lia. rewrite <- !app_assoc. f_equal.
        rewrite app_assoc. unfold w1. by rewrite take_drop.
    + eexists. split; [done |]. rewrite take_zeros in B1 by lia.
      split; cbn [buf p lackBits outSize].
      * lia.
      * rewrite length_app. lia.
      * destruct (Z.eqb_spec (lackBits s - Z.of_nat (length w)) 0); lia.
      * lia.
      * rewrite Eo, B1, <- app_assoc. do 3 f_equal. lia.
Qed.

(** [ws] are the codes of the input [bins]. *)
Definition codes_of (h : HuffmanEncoder) (bins : list Z) (ws : list (list bool)) : Prop :=
  Forall2 (fun x w => (x - offset h, w) ∈ paths (treeRoot h) []) bins ws.

Lemma encode_loop_spec h bins ws : forall s B,
  coded h -> (depth (treeRoot h) <= 64)%nat -> codes_of h bins ws -> packed s B ->
  exists s', encode_loop h s bins = Some s' /\ packed s' (B ++ concat ws).
Proof.
  intros s B Hc Hd H. revert s B. induction H as [| x w bins ws Hx H IH]; intros s B Hs.
  { exists s. by rewrite app_nil_r. }
  cbn [encode_loop concat]. rewrite (Hc _ _ Hx). cbn [mbind option_bind].
  apply paths_length in Hx. simpl in Hx.
  destruct (encode_step_spec s B w Hs ltac:(lia)) as (s1 & E1 & Hs1). unfold word_of in E1 |- *.
  cbn [fst snd] in E1. rewrite E1. cbn [mbind option_bind]. rewrite app_assoc. by apply IH.
Qed.

(** What [encode] leaves in the buffer. *)
Lemma encode_spec junk h bins ws :
  coded h -> (depth (treeRoot h) <= 64)%nat -> codes_of h bins ws ->
  exists out lack, encode junk h bins = Some (le_bytes 8 (Z.of_nat (length out)) ++ out) /\
    byte_bits out = concat ws ++ zeros lack /\ (lack < 8)%nat.
Proof.
  intros Hc Hd Hws. unfold encode.
  destruct (encode_loop_spec h bins ws {| buf := []; p := 0; lackBits := 0; outSize := 0; byteSize := junk |} [])
    as (s & -> & [Hl Ho Hp Hlen Hbits]); [done | done | done | by split |].
  cbn [mbind option_bind]. rewrite assert_true by (by apply Z.leb_le). cbn [mbind option_bind].
  eexists _, _. split; [| split; [exact Hbits | lia]]. do 2 f_equal. f_equal. rewrite length_take. lia.
Qed.

(** ** Reading the codes *)

Lemma byte_bits_lookup l i x :
  byte_bits l !! i = Some x ->
  exists b, l !! (i / 8)%nat = Some b /\
    (Z.land (Z.shiftr b (7 - Z.of_nat (i mod 8))) 1 =? 0) = negb x.
Proof.
  revert i. induction l as [| b l IH]; intros i; [done |].
  unfold byte_bits. rewrite bind_cons. destruct (decide (i < 8)%nat) as [Hi | Hi].
  - rewrite lookup_app_l by (rewrite length_bits; lia). rewrite lookup_bits by lia. intros [= <-].
    exists b. rewrite Nat.div_small, Nat.mod_small by lia. split; [done |].
    replace (8 - 1 - Z.of_nat i) with (7 - Z.of_nat i) by lia.
    change 1 with (Z.ones 1). rewrite Z.land_ones by lia.
    rewrite Zmod_even. rewrite <- Z.negb_odd, <- Z.bit0_odd, Z.shiftr_spec by lia.
    rewrite Z.add_0_l. by destruct (Z.testbit b (7 - Z.of_nat i)).
  - rewrite lookup_app_r by (rewrite length_bits; lia). rewrite length_bits. intros (b' & E1 & E2)%IH.
    change (Z.to_nat 8) with 8%nat in E1, E2.
    assert (i = i - 8 + 1 * 8)%nat as Ei by lia.
    exists b'. rewrite Ei, Nat.div_add, Nat.Div0.mod_add by lia. split; [| done].
    rewrite Nat.add_1_r. done.
Qed.

Lemma paths_prefix t : forall pre, paths t pre = (fun cw => (cw.1, pre ++ cw.2)) <$> paths t [].
Proof.
  induction t as [c f | f l IHl r IHr]; intros pre; cbn [paths].
  { simpl. by rewrite app_nil_r. }
  rewrite (IHl (pre ++ [false])), (IHr (pre ++ [true])), (IHl ([] ++ [false])), (IHr ([] ++ [true])).
  rewrite fmap_app, <- !list_fmap_compose.
  f_equal; apply list_fmap_ext; intros i cw _; simpl; by rewrite <- app_assoc.
Qed.

Lemma paths_node f l r c w :
  (c, w) ∈ paths (Node f l r) [] <->
  exists w', (w = false :: w' /\ (c, w') ∈ paths l []) \/ (w = true :: w' /\ (c, w') ∈ paths r []).
Proof.
  cbn [paths app]. rewrite elem_of_app, (paths_prefix l [false]), (paths_prefix r [true]), !list_elem_of_fmap. split.
  - intros [([c' w'] & [= -> ->] & H) | ([c' w'] & [= -> ->] & H)]; exists w'; auto.
  - intros (w' & [[-> H] | [-> H]]); [left | right]; by exists (c, w').
Qed.

(** The bits of [w] are at [i]. *)
Definition bits_at (bytes : list Z) (i : nat) (w : list bool) : Prop :=
  forall k x, w !! k = Some x -> byte_bits bytes !! (i + k)%nat = Some x.

Lemma bits_at_cons bytes i b w : bits_at bytes i (b :: w) ->
  byte_bits bytes !! i = Some b /\ bits_at bytes (S i) w.
Proof.
  intros H. split.
  - rewrite <- (Nat.add_0_r i). by apply H.
  - intros k x Hk. replace (S i + k)%nat with (i + S k)%nat by lia. by apply H.
Qed.

(** Following a code from a node. *)
Lemma decode_walk off bytes t n : forall c w fuel i count,
  (c, w) ∈ paths n [] -> w <> [] -> bits_at bytes i w ->
  decode_loop (length w + fuel) bytes off t (strip n) i (S count)
  = (out ← decode_loop fuel bytes off t t (i + length w)%nat count; Some (c + off :: out)).
Proof.
  induction n as [c' f | f l IHl r IHr]; intros c w fuel i count Hc Hne Hb.
  { apply list_elem_of_singleton in Hc. by simplify_eq. }
  apply paths_node in Hc as (w' & Hc).
  assert (forall b (m : node), w = b :: w' -> (c, w') ∈ paths m [] ->
    (forall c w fuel i count, (c, w) ∈ paths m [] -> w <> [] -> bits_at bytes i w ->
      decode_loop (length w + fuel) bytes off t (strip m) i (S count)
      = (out ← decode_loop fuel bytes off t t (i + length w)%nat count; Some (c + off :: out))) ->
    m = (if b then r else l) ->
    decode_loop (length w + fuel) bytes off t (strip (Node f l r)) i (S count)
    = (out ← decode_loop fuel bytes off t t (i + length w)%nat count; Some (c + off :: out))) as Hstep.
  { intros b m -> Hm IH Em. apply bits_at_cons in Hb as [Hb0 Hb].
    destruct (byte_bits_lookup bytes i b Hb0) as (x & Ex & Ebit).
    cbn [length Nat.add decode_loop strip]. rewrite Ex. cbn [mbind option_bind]. rewrite Ebit.
    assert ((if negb b then strip l else strip r) = strip m) as -> by (subst m; by destruct b).
    destruct m as [c0 f0 | f0 l0 r0].
    - apply list_elem_of_singleton in Hm. simplify_eq. cbn [strip length Nat.add].
      by rewrite Nat.add_1_r.
    - assert (w' <> []) as Hne' by (apply paths_node in Hm as (w2 & [[-> _] | [-> _]]); done).
      specialize (IH c w' fuel (S i) count Hm Hne' Hb). cbn [strip] in IH |- *. rewrite IH.
      by replace (S i + length w')%nat with (i + S (length w'))%nat by lia. }
  destruct Hc as [[E H] | [E H]]; [apply (Hstep false l) | apply (Hstep true r)]; auto.
Qed.

Lemma decode_codes h bytes bins ws : forall fuel P T,
  codes_of h bins ws -> Forall (fun w => w <> []) ws ->
  byte_bits bytes = P ++ concat ws ++ T -> (length (concat ws) <= fuel)%nat ->
  decode_loop fuel bytes (offset h) (strip (treeRoot h)) (strip (treeRoot h)) (length P) (length bins)
  = Some bins.
Proof.
  intros fuel P T H. revert fuel P. induction H as [| x w bins ws Hx H IH]; intros fuel P Hne E Hf.
  { by destruct fuel. }
  apply Forall_cons_iff in Hne as [Hw Hne]. cbn [concat] in E, Hf. rewrite length_app in Hf.
  replace fuel with (length w + (fuel - length w))%nat by lia. cbn [length].
  assert (bits_at bytes (length P) w) as Hb.
  { intros k b Hk. rewrite E, lookup_app_r by lia. rewrite Nat.add_comm, Nat.add_sub, <- app_assoc.
    by apply lookup_app_l_Some. }
  rewrite (decode_walk _ _ _ _ (x - offset h) w _ _ _ Hx Hw Hb).
  rewrite <- length_app. rewrite (IH (fuel - length w)%nat (P ++ w)).
  - cbn [mbind option_bind]. by replace (x - offset h + offset h) with x by lia.
  - done.
  - by rewrite E, <- !app_assoc.
  - lia.
Qed.

Lemma codes_exist h bins :
  Forall (fun x => x - offset h ∈ states (treeRoot h)) bins -> exists ws, codes_of h bins ws.
Proof.
  induction 1 as [| x bins Hx _ [ws IH]]; [exists []; constructor |].
  rewrite <- (paths_states (treeRoot h) []) in Hx. apply list_elem_of_fmap in Hx as ([c w] & E & Hw).
  exists (w :: ws). constructor; [by rewrite E | done].
Qed.

Lemma codes_length h bins ws :
  (depth (treeRoot h) <= 63)%nat -> codes_of h bins ws -> (length (concat ws) <= 63 * length bins)%nat.
Proof.
  intros Hd. induction 1 as [| x w bins ws Hx H IH]; [simpl; lia |]. cbn [concat length].
  apply paths_length in Hx. rewrite length_app. simpl in Hx. lia.
Qed.

(** Decoding what [encode] wrote. *)
Lemma decode_spec h bins ws out lack tl :
  codes_of h bins ws -> (depth (treeRoot h) <= 63)%nat -> Z.of_nat (length bins) <= 2 ^ 44 ->
  byte_bits out = concat ws ++ zeros lack -> (lack < 8)%nat ->
  decode (strip (treeRoot h)) (offset h) (le_bytes 8 (Z.of_nat (length out)) ++ out ++ tl) (length bins)
  = Some (bins, tl).
Proof.
  intros Hws Hd Hn Hout Hlack. pose proof (codes_length h bins ws Hd Hws) as Hcl.
  assert (8 * length out = length (concat ws) + lack)%nat as Hlen.
  { apply (f_equal length) in Hout. unfold zeros in Hout.
    rewrite length_byte_bits, length_app, length_replicate in Hout. lia. }
  unfold decode. rewrite read_var_le by (change (2 ^ (8 * Z.of_nat 8)) with (2 ^ 64); lia).
  cbn [mbind option_bind]. destruct (treeRoot h) as [c f | f l r] eqn:Et; cbn [strip].
  - assert (bins = replicate (length bins) (c + offset h) /\ concat ws = []) as [Eb Ew].
    { clear - Hws Et. induction Hws as [| x w bins ws Hx H [IH1 IH2]]; [done |].
      rewrite Et in Hx. apply list_elem_of_singleton in Hx. simplify_eq/=. split; [| done].
      f_equal; [lia | done]. }
    rewrite Ew in Hlen. simpl in Hlen. assert (out = []) as -> by (apply nil_length_inv; lia).
    by rewrite <- Eb.
  - change (Node 0 (strip l) (strip r)) with (strip (Node f l r)). rewrite <- Et.
    rewrite (decode_codes h (out ++ tl) bins ws _ [] (zeros lack ++ byte_bits tl)).
    + cbn [mbind option_bind]. by rewrite Nat2Z.id, drop_app_length.
    + done.
    + apply list.Forall_forall. intros w Hw. apply list_elem_of_lookup in Hw as [i Hi].
      destruct (Forall2_lookup_r _ _ _ _ _ Hws Hi) as (x & _ & Hx). rewrite Et in Hx.
      apply paths_node in Hx as (w' & [[-> _] | [-> _]]); done.
    + by rewrite byte_bits_app, Hout, <- app_assoc.
    + rewrite length_app. lia.
Qed.

(** What the encoder promises to the compressor around it. *)
Lemma huffman_encoder_correct `{Order : !MapOrder} left_first junk bins :
  encodable bins ->
  exists h e, preprocess_encode left_first bins = Some h /\ encode junk h bins = Some e /\
    forall tl rem, 4 <= rem ->
      load (save h ++ e ++ tl) rem = Some (strip (treeRoot h), offset h, e ++ tl, rem - 4) /\
      decode (strip (treeRoot h)) (offset h) (e ++ tl) (length bins) = Some (bins, tl).
Proof.
  intros Henc. destruct (preprocess_spec left_first bins Henc) as (h & E & Hs & Hc & Hd & Hnd & Hst).
  destruct (codes_exist h bins Hst) as [ws Hws].
  destruct (encode_spec junk h bins ws) as (out & lack & Ee & Hout & Hlack); [done | lia | done |].
  exists h. eexists. split; [done |]. split; [exact Ee |]. intros tl rem Hrem.
  split; [by apply huffman_load_save |]. rewrite <- app_assoc.
  by eapply decode_spec; try done; destruct Henc as (_ & _ & _ & ?).
Qed.

(** Every distinct index costs two nodes of seven bytes at least. *)
Lemma huffman_size `{Order : !MapOrder} left_first junk bins ds h e :
  encodable bins -> NoDup ds -> Forall (fun x => x ∈ bins) ds ->
  preprocess_encode left_first bins = Some h -> encode junk h bins = Some e ->
  14 + 14 * Z.of_nat (length ds) <= Z.of_nat (length (save h ++ e)).
Proof.
  intros Henc Hnd Hds Eh Ee. destruct (preprocess_spec left_first bins Henc) as (h' & E & Hs & _ & _ & _ & Hst).
  simplify_eq. destruct Hs as (Hn & _). rewrite list.Forall_forall in Hds, Hst.
  assert (length ds <= length (states (treeRoot h)))%nat as Hle.
  { rewrite <- (length_fmap (fun x => x - offset h) ds). apply submseteq_length, NoDup_submseteq.
    - apply NoDup_fmap_2; [intros a b; lia | done].
    - intros c Hc. apply list_elem_of_fmap in Hc as (x & -> & Hx). by apply Hst, Hds. }
  pose proof (nodes_states (treeRoot h)) as Hns.
  pose proof (length_convert (width (nodeCount h)) (nodeCount h) (treeRoot h) Hn) as Hc.
  assert (8 <= length e)%nat as Hel.
  { unfold encode in Ee. apply bind_Some in Ee as (s & _ & Ee). apply bind_Some in Ee as (u & _ & Ee).
    apply (inj Some) in Ee. rewrite <- Ee, length_app, length_le_bytes. lia. }
  unfold save. rewrite !length_app, length_le_bytes, !length_int32.
  assert (1 <= Z.of_nat (width (nodeCount h))) by (unfold width; repeat case_match; lia). nia.
Qed.

(** C7: the quantization indices are decoded from the saved tree and the codes, whatever
    follows them in the buffer, and the decoder stops at what follows.  For every order in
    which the hash map is visited and either order of evaluation of the removals from the
    heap. *)
Theorem sz_huffman_roundtrip `{Order : !MapOrder} left_first junk bins :
  encodable bins ->
  exists h e, preprocess_encode left_first bins = Some h /\ encode junk h bins = Some e /\
    forall tl rem, 4 <= rem ->
      load (save h ++ e ++ tl) rem = Some (strip (treeRoot h), offset h, e ++ tl, rem - 4) /\
      decode (strip (treeRoot h)) (offset h) (e ++ tl) (length bins) = Some (bins, tl).
Proof. apply huffman_encoder_correct. Qed.

(** The saved tree is read back node for node: the arrays are the tree in preorder, in
    indices wide enough for the number of nodes. *)
Theorem sz_huffman_tree_roundtrip n t tl :
  n = Z.of_nat (nodes t) -> n < 2 ^ 31 -> Forall is_i32 (states t) ->
  reconstruct_HuffTree_from_bytes_anyStates
    (convert_HuffTree_to_bytes_anyStates (width n) n t ++ tl) n = Some (strip t).
Proof. apply reconstruct_convert. Qed.

(** C23: at most 63 bits per code for up to 2^44 indices: the branches of [encode] for longer
    codes are not taken. *)
Theorem sz_huffman_code_length `{Order : !MapOrder} left_first bins :
  encodable bins ->
  exists h, preprocess_encode left_first bins = Some h /\
    forall x c0 c1 len, x ∈ bins -> code h !! (x - offset h) = Some (c0, c1, len) -> 0 <= len <= 63.
Proof.
  intros Henc. destruct (preprocess_spec left_first bins Henc) as (h & E & _ & Hc & Hd & _ & Hst).
  exists h. split; [done |]. intros x c0 c1 len Hx Hcode. rewrite list.Forall_forall in Hst.
  specialize (Hst x Hx). rewrite <- (paths_states (treeRoot h) []) in Hst.
  apply list_elem_of_fmap in Hst as ([c w] & Ec & Hw). simpl in Ec. subst c.
  rewrite (Hc _ _ Hw) in Hcode. unfold word_of in Hcode. simplify_eq.
  apply paths_length in Hw. simpl in Hw. lia.
Qed.

(** Those branches are wrong: after four bits, a code of 64 zeros and six ones is written
    with the first word where the second is due, and the size is increased by what an
    earlier round left. *)
Theorem sz_huffman_long_code :
  let s := {| buf := [0xf0; 0; 0; 0; 0; 0; 0; 0]; p := 0; lackBits := 4; outSize := 1; byteSize := 1 |} in
  exists s', encode_step s 0 0xfc00000000000000 70 = Some s' /\ outSize s' = 3 /\
    byte_bits (take 10 (buf s')) = bits 4 0xf ++ zeros 68 ++ bits 2 3 ++ zeros 6.
Proof. eexists. split; [vm_compute; reflexivity |]. by vm_compute. Qed.

Definition sample : list Z := [5; 6; 5; 7; 8; 9; 5; 5; 5; 100; 5; 5; 6; 6; 6; 7].

Lemma sample_encodable : encodable sample.
Proof.
  split; [done |]. split; [repeat constructor; unfold is_i32; lia |]. split; [| vm_compute; congruence].
  assert (Forall (fun x => 5 <= x <= 100) sample) as H by (repeat constructor; lia).
  rewrite list.Forall_forall in H. intros x y Hx%H Hy%H. lia.
Qed.

Lemma sz_huffman_roundtrip_witness :
  exists h e, preprocess_encode true sample = Some h /\ encode 0 h sample = Some e /\
    forall tl rem, 4 <= rem ->
      load (save h ++ e ++ tl) rem = Some (strip (treeRoot h), offset h, e ++ tl, rem - 4) /\
      decode (strip (treeRoot h)) (offset h) (e ++ tl) (length sample) = Some (sample, tl).
Proof. apply (sz_huffman_roundtrip true 0 sample sample_encodable). Defined.

Lemma sz_huffman_tree_roundtrip_witness :
  reconstruct_HuffTree_from_bytes_anyStates
    (convert_HuffTree_to_bytes_anyStates 1 3 (Node 5 (Leaf 2 2) (Leaf (-1) 3)) ++ [9]) 3
  = Some (Node 0 (Leaf 2 0) (Leaf (-1) 0)).
Proof.
  apply (sz_huffman_tree_roundtrip 3 (Node 5 (Leaf 2 2) (Leaf (-1) 3)) [9]);
    [done | lia | change (Forall is_i32 [2; -1]); repeat constructor; unfold is_i32; lia].
Defined.

Lemma sz_huffman_code_length_witness :
  exists h, preprocess_encode false sample = Some h /\
    forall x c0 c1 len, x ∈ sample -> code h !! (x - offset h) = Some (c0, c1, len) -> 0 <= len <= 63.
Proof. apply (sz_huffman_code_length false sample sample_encodable). Defined.


End SzHuffman.
