(* ===== verification/SzEncoder.v ===== *)
(** * SzEncoder: the encoders of SZ3 behind their interface

    Models the interface [SZ3/encoder/Encoder.hpp] as a class, with the law the compressor
    relies on; [SZ3/encoder/RunlengthEncoder.hpp] and [SZ3/encoder/BypassEncoder.hpp]; and
    that these two and the Huffman encoder implement the interface, at [T = int]. *)

From Stdlib Require Import ZArith Lia.
From S2P Require Import Prelude Bytes Stl SzBytes SzHuffman.
Import MemoryUtil.

(** What a compressor does with an encoder: [preprocess_encode], [save] and [encode] into one
    buffer, the first followed by [size_est]; and [load] and [decode], which gives the
    indices and what is left of the buffer. *)
Class EncoderInterface := {
  e_encode : list Z -> Z -> option (list Z);
  e_size_est : list Z -> Z;
  e_decode : list Z -> Z -> nat -> option (list Z * list Z);
  e_domain : list Z -> Z -> Prop;
  e_correct bins stateNum : e_domain bins stateNum ->
    exists bytes, e_encode bins stateNum = Some bytes /\
      forall tl rem, Z.of_nat (length bytes) <= rem ->
        e_decode (bytes ++ tl) rem (length bins) = Some (bins, tl)
}.

(** ** Bypass *)

Module BypassEncoder.

Definition preprocess_encode (bins : list Z) (stateNum : Z) : option unit :=
  assert (stateNum <=? 256).

(** One byte per index. *)
Definition encode (bins : list Z) : list Z := u8 <$> bins.

Definition decode (bytes : list Z) (targetLength : nat) : option (list Z * list Z) :=
  if (targetLength <=? length bytes)%nat
  then Some (take targetLength bytes, drop targetLength bytes) else None.

Definition run (bins : list Z) (stateNum : Z) : option (list Z) :=
  _ ← preprocess_encode bins stateNum;
  Some (encode bins).

Lemma bypass_correct bins stateNum :
  stateNum <= 256 -> Forall (fun b => 0 <= b < stateNum) bins ->
  exists bytes, run bins stateNum = Some bytes /\
    forall tl, decode (bytes ++ tl) (length bins) = Some (bins, tl).
Proof.
  intros Hs Hb. unfold run, preprocess_encode. rewrite assert_true by (by apply Z.leb_le).
  cbn [mbind option_bind]. eexists. split; [done |]. intros tl.
  assert (encode bins = bins) as ->.
  { unfold encode. rewrite <- (list_fmap_id bins) at 2. apply Forall_fmap_ext_1.
    eapply Forall_impl; [| exact Hb]. intros b [H0 H1]. apply (Z.mod_small b 256). lia. }
  unfold decode. rewrite (proj2 (Nat.leb_le _ _)) by (rewrite length_app; lia).
  by rewrite take_app_length, drop_app_length.
Qed.

#[export] Program Instance bypass : EncoderInterface := {
  e_encode := run;
  e_size_est _ := 0;
  e_decode bytes _ n := decode bytes n;
  e_domain bins stateNum := stateNum <= 256 /\ Forall (fun b => 0 <= b < stateNum) bins
}.
Next Obligation.
  intros bins stateNum [Hs Hb]. destruct (bypass_correct bins stateNum Hs Hb) as (bytes & E & H). eauto.
Qed.

End BypassEncoder.

(** ** Run lengths *)

Module RunlengthEncoder.

(** A run: the value and its length, an [int] each. *)
Definition write_run (value cnt : Z) (bytes : list Z) : list Z :=
  write_var 4 (u32 cnt) (write_var 4 (u32 value) bytes).

(** The loop at index [i], after [prev = bins[i - 1]], in a run that started at [s]. *)
Fixpoint encode_loop (prev : Z) (i s : Z) (bins : list Z) (bytes : list Z) : list Z :=
  match bins with
  | [] => write_run prev (i32 (i - s)) bytes
  | b :: bins =>
      if b =? prev then encode_loop b (i + 1) s bins bytes
      else encode_loop b (i + 1) i bins (write_run prev (i32 (i - s)) bytes)
  end.

(** [bins[bins.size() - 1]] does not exist when there are no indices. *)
Definition encode (bins : list Z) : option (list Z) :=
  match bins with
  | [] => None
  | b :: bins => Some (encode_loop b 1 0 bins [])
  end.

(** [n] indices are left to fill.  A run that is longer writes outside the vector; the fuel
    bounds the number of runs, which is unbounded when one has length 0. *)
Fixpoint decode_loop (fuel : nat) (bytes : list Z) (n : nat) : option (list Z * list Z) :=
  match n with
  | O => Some ([], bytes)
  | _ =>
      match fuel with
      | O => None
      | S fuel =>
          '(value, bytes) ← read_var 4 bytes;
          '(cnt, bytes) ← read_var 4 bytes;
          let cnt := i32 cnt in
          _ ← assert ((0 <=? cnt) && (cnt <=? Z.of_nat n));
          '(out, bytes) ← decode_loop fuel bytes (n - Z.to_nat cnt);
          Some (replicate (Z.to_nat cnt) (i32 value) ++ out, bytes)
      end
  end.

Definition decode (bytes : list Z) (targetLength : nat) : option (list Z * list Z) :=
  decode_loop targetLength bytes targetLength.

Lemma encode_loop_app bins : forall prev i s bytes,
  encode_loop prev i s bins bytes = bytes ++ encode_loop prev i s bins [].
Proof.
  induction bins as [| b bins IH]; intros prev i s bytes; cbn [encode_loop].
  - unfold write_run, write_var. by rewrite app_nil_l, <- app_assoc.
  - destruct (b =? prev); [apply IH |]. rewrite IH, (IH _ _ _ (write_run _ _ [])).
    unfold write_run, write_var. by rewrite app_nil_l, <- !app_assoc.
Qed.

Lemma decode_run fuel value cnt n bytes :
  is_i32 value -> 0 < cnt < 2 ^ 31 -> cnt <= Z.of_nat n ->
  decode_loop (S fuel) (write_run value (i32 cnt) [] ++ bytes) n
  = ('(out, bytes) ← decode_loop fuel bytes (n - Z.to_nat cnt);
     Some (replicate (Z.to_nat cnt) value ++ out, bytes)).
Proof.
  intros Hv Hc Hn. destruct n as [| n]; [lia |]. cbn [decode_loop]. unfold write_run, write_var.
  rewrite app_nil_l, <- app_assoc.
  rewrite read_var_le by apply (u32_range value). cbn [mbind option_bind].
  rewrite read_var_le by apply (u32_range (i32 cnt)). cbn [mbind option_bind].
  rewrite (i32_id cnt), !i32_u32 by (done || unfold is_i32; lia).
  rewrite assert_true by (apply andb_true_intro; split; apply Z.leb_le; lia). done.
Qed.

Lemma runlength_loop tl bins : forall prev i s fuel n,
  is_i32 prev -> Forall is_i32 bins -> 0 <= s < i -> i + Z.of_nat (length bins) < 2 ^ 31 ->
  n = (Z.to_nat (i - s) + length bins)%nat -> (S (length bins) <= fuel)%nat ->
  decode_loop fuel (encode_loop prev i s bins [] ++ tl) n
  = Some (replicate (Z.to_nat (i - s)) prev ++ bins, tl).
Proof.
  induction bins as [| b bins IH]; intros prev i s fuel n Hp Hb Hs Hlen Hn Hf; cbn [encode_loop].
  - simpl in Hn, Hf, Hlen. destruct fuel as [| fuel]; [lia |]. rewrite decode_run by (done || lia).
    replace (n - Z.to_nat (i - s))%nat with 0%nat by lia.
    destruct fuel; cbn [decode_loop mbind option_bind]; by rewrite app_nil_r.
  - apply Forall_cons_iff in Hb as [Hb0 Hb]. simpl in Hn, Hf, Hlen.
    destruct (Z.eqb_spec b prev) as [-> | Hne].
    + rewrite (IH prev (i + 1) s) by (done || lia).
      replace (Z.to_nat (i + 1 - s)) with (Z.to_nat (i - s) + 1)%nat by lia.
      by rewrite replicate_add, <- app_assoc.
    + destruct fuel as [| fuel]; [lia |]. rewrite encode_loop_app, <- app_assoc, decode_run by (done || lia).
      rewrite (IH b (i + 1) i) by (done || lia). cbn [mbind option_bind].
      by replace (Z.to_nat (i + 1 - i)) with 1%nat by lia.
Qed.

Lemma runlength_correct bins tl :
  bins <> [] -> Forall is_i32 bins -> Z.of_nat (length bins) < 2 ^ 31 ->
  exists bytes, encode bins = Some bytes /\ decode (bytes ++ tl) (length bins) = Some (bins, tl).
Proof.
  intros Hne Hb Hlen. destruct bins as [| b bins]; [done |]. apply Forall_cons_iff in Hb as [Hb0 Hb].
  simpl in Hlen. eexists. split; [done |]. unfold decode.
  rewrite runlength_loop by (done || lia || (simpl; lia)). done.
Qed.

#[export] Program Instance runlength : EncoderInterface := {
  e_encode bins _ := encode bins;
  e_size_est _ := 0;
  e_decode bytes _ n := decode bytes n;
  e_domain bins _ := bins <> [] /\ Forall is_i32 bins /\ Z.of_nat (length bins) < 2 ^ 31
}.
Next Obligation.
  intros bins _ (Hne & Hb & Hlen). destruct (runlength_correct bins [] Hne Hb Hlen) as (bytes & E & _).
  exists bytes. split; [done |]. intros tl _ _.
  destruct (runlength_correct bins tl Hne Hb Hlen) as (bytes' & E' & H). by simplify_eq.
Qed.

(** Runs of indices are decoded to the indices, and the decoder stops after the last
    run. *)
Theorem runlength_roundtrip bins tl :
  bins <> [] -> Forall is_i32 bins -> Z.of_nat (length bins) < 2 ^ 31 ->
  exists bytes, encode bins = Some bytes /\ decode (bytes ++ tl) (length bins) = Some (bins, tl).
Proof. apply runlength_correct. Qed.

Lemma runlength_roundtrip_witness :
  exists bytes, encode [7; 7; 7; -2; 7] = Some bytes /\ decode (bytes ++ [1]) 5 = Some ([7; 7; 7; -2; 7], [1]).
Proof.
  apply (runlength_roundtrip [7; 7; 7; -2; 7] [1]);
    [done | repeat constructor; unfold is_i32; lia | simpl; lia].
Defined.

End RunlengthEncoder.

(** ** Huffman *)

Section huffman.

Context `{Order : !MapOrder}.
Variables (left_first : bool) (junk : Z).

Definition huffman_run (bins : list Z) (stateNum : Z) : option (list Z) :=
  h ← SzHuffman.preprocess_encode left_first bins;
  e ← SzHuffman.encode junk h bins;
  Some (SzHuffman.save h ++ e).

Definition huffman_unrun (bytes : list Z) (remaining_length : Z) (n : nat)
    : option (list Z * list Z) :=
  '(root, offset, bytes, _) ← SzHuffman.load bytes remaining_length;
  SzHuffman.decode root offset bytes n.

(** The size of the tree that was built. *)
Definition huffman_est (bins : list Z) : Z :=
  from_option (fun h => SzHuffman.size_est (SzHuffman.nodeCount h)) 0
    (SzHuffman.preprocess_encode left_first bins).

#[export] Program Instance huffman_encoder : EncoderInterface := {
  e_encode := huffman_run;
  e_size_est := huffman_est;
  e_decode := huffman_unrun;
  e_domain bins _ := SzHuffman.encodable bins
}.
Next Obligation.
  intros bins stateNum Henc.
  destruct (SzHuffman.huffman_encoder_correct left_first junk bins Henc) as (h & e & E1 & E2 & H).
  unfold huffman_run. rewrite E1. cbn [mbind option_bind]. rewrite E2. cbn [mbind option_bind].
  eexists. split; [done |]. intros tl rem Hrem. unfold huffman_unrun.
  destruct (H tl rem) as [L D].
  { unfold SzHuffman.save in Hrem. rewrite !length_app, length_le_bytes in Hrem. lia. }
  rewrite <- app_assoc, L. cbn [mbind option_bind]. exact D.
Qed.

End huffman.
