(* ===== verification/SzConfig.v ===== *)
(** * SzConfig: the configuration of SZ3

    Models [SZ3/utils/Config.hpp], the version numbers of [SZ3/version.hpp], and the part of
    [SZ3/utils/Statistic.hpp] that turns an error bound of any mode into an absolute one.

    A configuration is stored in front of the compressed data in [size_est()] bytes;
    [sizeof(Config)] is 120 in the x86-64 ABI.  The modes [PSNR] and [L2NORM] use [log10],
    [pow] and [sqrt] of the C library, which are variables. *)

From Stdlib Require Import ZArith Lia String.
From S2P Require Import Prelude Bytes Float64 SzBytes.

Module SzConfig.
Import MemoryUtil.

Notation SZ_FLOAT := 0.
Notation SZ_DOUBLE := 1.

(** [enum EB], [enum ALGO] and [enum INTERP_ALGO] are stored in a [uint8_t]. *)
Definition EB_ABS : Z := 0.
Definition EB_REL : Z := 1.
Definition EB_PSNR : Z := 2.
Definition EB_L2NORM : Z := 3.
Definition EB_ABS_AND_REL : Z := 4.
Definition EB_ABS_OR_REL : Z := 5.
Definition ALGO_LORENZO_REG : Z := 0.
Definition ALGO_INTERP_LORENZO : Z := 1.
Definition ALGO_INTERP : Z := 2.
Definition ALGO_NOPRED : Z := 3.
Definition INTERP_ALGO_LINEAR : Z := 0.
Definition INTERP_ALGO_CUBIC : Z := 1.

Definition SZ3_MAGIC_NUMBER : Z := 0xF342F310.

(** [versionInt("3.2.0")], and the numbers that [versionStr] prints. *)
Definition versionInt (major minor patch : Z) : Z :=
  Z.lor (Z.lor (u32 (Z.shiftl major 24)) (u32 (Z.shiftl minor 16))) (u32 (Z.shiftl patch 8)).
Definition versionStr (version : Z) : Z * Z * Z :=
  (Z.land (Z.shiftr version 24) 0xff, Z.land (Z.shiftr version 16) 0xff,
   Z.land (Z.shiftr version 8) 0xff).
Definition SZ3_DATA_VER : Z * Z * Z := (3, 2, 0).

Record Config := mkConfig {
  sz3MagicNumber : Z;
  sz3DataVer : Z;
  N : Z;
  dims : list Z;
  num : Z;
  cmprAlgo : Z;
  errorBoundMode : Z;
  absErrorBound : Z;
  relErrorBound : Z;
  psnrErrorBound : Z;
  l2normErrorBound : Z;
  lorenzo : bool;
  lorenzo2 : bool;
  regression : bool;
  regression2 : bool;
  openmp : bool;
  dataType : Z;
  lossless : Z;
  encoder : Z;
  interpAlgo : Z;
  interpDirection : Z;
  interpBlockSize : Z;
  quantbinCnt : Z;
  blockSize : Z;
  stride : Z;
  pred_dim : Z
}.

(** The literal 1e-3. *)
Definition f64_1em3 : Z := 0x3f50624dd2f1a9fc.

(** The initialisers of the members. *)
Definition default_config : Config := {|
  sz3MagicNumber := SZ3_MAGIC_NUMBER; sz3DataVer := versionInt 3 2 0; N := 0; dims := [];
  num := 0; cmprAlgo := ALGO_INTERP_LORENZO; errorBoundMode := EB_ABS;
  absErrorBound := f64_1em3; relErrorBound := 0; psnrErrorBound := 0; l2normErrorBound := 0;
  lorenzo := true; lorenzo2 := false; regression := true; regression2 := false;
  openmp := false; dataType := SZ_FLOAT; lossless := 1; encoder := 1;
  interpAlgo := INTERP_ALGO_CUBIC; interpDirection := 0; interpBlockSize := 32;
  quantbinCnt := 65536; blockSize := 0; stride := 0; pred_dim := 0 |}.

(** [setDims]: dimensions of extent 0 and 1 are dropped; the product wraps around. *)
Definition setDims (c : Config) (dims_ : list Z) : Config :=
  let dims := filter (fun dim => 1 < dim) dims_ in
  let dims := if (length dims =? 0)%nat then [1] else dims in
  let N := swrap 8 (Z.of_nat (length dims)) in
  let num := foldl (fun n d => u64 (n * d)) 1 dims in
  let blockSize := if N =? 1 then 128 else if N =? 2 then 16 else 6 in
  mkConfig (sz3MagicNumber c) (sz3DataVer c) N dims num (cmprAlgo c) (errorBoundMode c)
    (absErrorBound c) (relErrorBound c) (psnrErrorBound c) (l2normErrorBound c) (lorenzo c)
    (lorenzo2 c) (regression c) (regression2 c) (openmp c) (dataType c) (lossless c)
    (encoder c) (interpAlgo c) (interpDirection c) (interpBlockSize c) (quantbinCnt c)
    blockSize blockSize N.

(** The constructor. *)
Definition new (args : list Z) : Config := setDims default_config args.

(** [sizeof(Config) + sizeof(size_t) * 5 + 32] *)
Definition size_est : Z := 120 + 8 * 5 + 32.

(** ** Settings from a file *)

Section loadcfg.

(** [INIReader], a vendored library: whether the file was parsed, and the values of its
    entries, the default where there is none. *)
Variable ParseError : Z.
Variable Get : string -> string -> string -> string.
Variable GetReal : string -> string -> Z -> Z.
Variable GetBoolean : string -> string -> bool -> bool.
Variable GetInteger : string -> string -> Z -> Z.

Definition algo_of (s : string) (old : Z) : Z :=
  if String.eqb s "ALGO_LORENZO_REG" then ALGO_LORENZO_REG
  else if String.eqb s "ALGO_INTERP_LORENZO" then ALGO_INTERP_LORENZO
  else if String.eqb s "ALGO_INTERP" then ALGO_INTERP
  else if String.eqb s "ALGO_NOPRED" then ALGO_NOPRED
  else old.

Definition eb_of (s : string) (old : Z) : Z :=
  if String.eqb s "ABS" then EB_ABS
  else if String.eqb s "REL" then EB_REL
  else if String.eqb s "PSNR" then EB_PSNR
  else if String.eqb s "NORM" then EB_L2NORM
  else if String.eqb s "ABS_AND_REL" then EB_ABS_AND_REL
  else if String.eqb s "ABS_OR_REL" then EB_ABS_OR_REL
  else old.

Definition interp_of (s : string) (old : Z) : Z :=
  if String.eqb s "INTERP_ALGO_LINEAR" then INTERP_ALGO_LINEAR
  else if String.eqb s "INTERP_ALGO_CUBIC" then INTERP_ALGO_CUBIC
  else old.

(** [None] is the exit of the program when the file cannot be read. *)
Definition loadcfg (c : Config) : option Config :=
  if negb (ParseError =? 0) then None
  else
    let g := "GlobalSettings"%string in
    let a := "AlgoSettings"%string in
    Some {| sz3MagicNumber := sz3MagicNumber c; sz3DataVer := sz3DataVer c; N := N c;
            dims := dims c; num := num c;
            cmprAlgo := algo_of (Get g "CmprAlgo" "") (cmprAlgo c);
            errorBoundMode := eb_of (Get g "ErrorBoundMode" "") (errorBoundMode c);
            absErrorBound := GetReal g "AbsErrorBound" (absErrorBound c);
            relErrorBound := GetReal g "RelErrorBound" (relErrorBound c);
            psnrErrorBound := GetReal g "PSNRErrorBound" (psnrErrorBound c);
            l2normErrorBound := GetReal g "L2NormErrorBound" (l2normErrorBound c);
            lorenzo := GetBoolean a "Lorenzo" (lorenzo c);
            lorenzo2 := GetBoolean a "Lorenzo2ndOrder" (lorenzo2 c);
            regression := GetBoolean a "Regression" (regression c);
            regression2 := GetBoolean a "Regression2ndOrder" (regression2 c);
            openmp := GetBoolean g "OpenMP" (openmp c);
            dataType := dataType c; lossless := lossless c; encoder := encoder c;
            interpAlgo := interp_of (Get a "InterpolationAlgo" "") (interpAlgo c);
            interpDirection := u8 (GetInteger a "InterpolationDirection" (interpDirection c));
            interpBlockSize := i32 (GetInteger a "InterpolationBlockSize" (interpBlockSize c));
            quantbinCnt := i32 (GetInteger a "QuantizationBinTotal" (quantbinCnt c));
            blockSize := i32 (GetInteger a "BlockSize" (blockSize c));
            stride := stride c; pred_dim := pred_dim c |}.

End loadcfg.

(** ** Storage *)

Definition b2z (b : bool) : Z := if b then 1 else 0.

(** The bytes [save] writes, before the padding. *)
Definition fields (c : Config) : list Z :=
  le_bytes 4 (sz3MagicNumber c) ++ le_bytes 4 (sz3DataVer c) ++ le_bytes 1 (N c)
    ++ store_array 8 (dims c) ++ le_bytes 8 (num c) ++ le_bytes 1 (cmprAlgo c)
    ++ le_bytes 1 (errorBoundMode c) ++ le_bytes 8 (absErrorBound c)
    ++ le_bytes 8 (relErrorBound c) ++ le_bytes 1 (b2z (lorenzo c)) ++ le_bytes 1 (b2z (lorenzo2 c))
    ++ le_bytes 1 (b2z (regression c)) ++ le_bytes 1 (b2z (regression2 c))
    ++ le_bytes 1 (interpAlgo c) ++ le_bytes 1 (interpDirection c)
    ++ le_bytes 4 (u32 (interpBlockSize c)) ++ le_bytes 1 (lossless c) ++ le_bytes 1 (encoder c)
    ++ le_bytes 4 (u32 (quantbinCnt c)) ++ le_bytes 4 (u32 (blockSize c)) ++ le_bytes 4 (u32 (stride c))
    ++ le_bytes 4 (u32 (pred_dim c)) ++ le_bytes 1 (b2z (openmp c)) ++ le_bytes 1 (dataType c).

(** The buffer keeps its contents [old] in the padding; [None] is the exception thrown when
    the estimate is exceeded. *)
Definition save (old : list Z) (c : Config) : option (list Z) :=
  let b := fields c in
  if size_est <? Z.of_nat (length b) then None
  else Some (b ++ take (Z.to_nat size_est - length b) (drop (length b) old)).

(** [load] into [c0], whose fields that are not stored are kept. *)
Definition load (c0 : Config) (c : list Z) : option (Config * list Z) :=
  '(magic, c1) ← read_var 4 c;
  '(ver, c1) ← read_var 4 c1;
  '(n, c1) ← read_var 1 c1;
  _ ← assert (n <? 128);
  '(dims, c1) ← read_array 8 n c1;
  '(num, c1) ← read_var 8 c1;
  '(cmprAlgo, c1) ← read_var 1 c1;
  '(errorBoundMode, c1) ← read_var 1 c1;
  '(absErrorBound, c1) ← read_var 8 c1;
  '(relErrorBound, c1) ← read_var 8 c1;
  '(lorenzo, c1) ← read_var 1 c1;
  '(lorenzo2, c1) ← read_var 1 c1;
  '(regression, c1) ← read_var 1 c1;
  '(regression2, c1) ← read_var 1 c1;
  '(interpAlgo, c1) ← read_var 1 c1;
  '(interpDirection, c1) ← read_var 1 c1;
  '(interpBlockSize, c1) ← read_var 4 c1;
  '(lossless, c1) ← read_var 1 c1;
  '(encoder, c1) ← read_var 1 c1;
  '(quantbinCnt, c1) ← read_var 4 c1;
  '(blockSize, c1) ← read_var 4 c1;
  '(stride, c1) ← read_var 4 c1;
  '(pred_dim, c1) ← read_var 4 c1;
  '(openmp, c1) ← read_var 1 c1;
  '(dataType, c1) ← read_var 1 c1;
  _ ← assert (Z.of_nat (length c - length c1) <=? size_est);
  Some ({| sz3MagicNumber := magic; sz3DataVer := ver; N := n; dims := dims; num := num;
           cmprAlgo := cmprAlgo; errorBoundMode := errorBoundMode;
           absErrorBound := absErrorBound; relErrorBound := relErrorBound;
           psnrErrorBound := psnrErrorBound c0; l2normErrorBound := l2normErrorBound c0;
           lorenzo := negb (lorenzo =? 0); lorenzo2 := negb (lorenzo2 =? 0);
           regression := negb (regression =? 0); regression2 := negb (regression2 =? 0);
           openmp := negb (openmp =? 0); dataType := dataType; lossless := lossless;
           encoder := encoder; interpAlgo := interpAlgo; interpDirection := interpDirection;
           interpBlockSize := i32 interpBlockSize; quantbinCnt := i32 quantbinCnt;
           blockSize := i32 blockSize; stride := i32 stride; pred_dim := i32 pred_dim |},
        drop (Z.to_nat size_est) c).

(** ** The absolute error bound *)

Definition data_range (data : list Z) : option Z :=
  d0 ← data !! 0%nat;
  let max := foldl (fun m d => if f64_ltb m d then d else m) d0 (drop 1 data) in
  let min := foldl (fun m d => if f64_ltb d m then d else m) d0 (drop 1 data) in
  Some (f64_sub max min).

Section bound.

(** [log10(x)], [pow(10, x)] and [sqrt(x)] of the C library. *)
Variables log10 pow10 sqrt : Z -> Z.

(** The literals 10, 1, 2.0, 3.0, 0.99 and -20. *)
Definition f64_10 : Z := 0x4024000000000000.
Definition f64_1 : Z := 0x3ff0000000000000.
Definition f64_2 : Z := 0x4000000000000000.
Definition f64_3 : Z := 0x4008000000000000.
Definition f64_0_99 : Z := 0x3fefae147ae147ae.
Definition f64_m20 : Z := 0xc034000000000000.

Definition computeABSErrBoundFromPSNR (psnr threshold value_range : Z) : Z :=
  let v1 := f64_add psnr (f64_mul f64_10
    (log10 (f64_sub f64_1 (f64_mul (f64_div f64_2 f64_3) threshold)))) in
  let v2 := f64_div v1 f64_m20 in
  f64_mul value_range (pow10 v2).

Definition set_bound (c : Config) (eb : Z) : Config :=
  mkConfig (sz3MagicNumber c) (sz3DataVer c) (N c) (dims c) (num c) (cmprAlgo c) EB_ABS
    eb (relErrorBound c) (psnrErrorBound c) (l2normErrorBound c) (lorenzo c)
    (lorenzo2 c) (regression c) (regression2 c) (openmp c) (dataType c) (lossless c)
    (encoder c) (interpAlgo c) (interpDirection c) (interpBlockSize c) (quantbinCnt c)
    (blockSize c) (stride c) (pred_dim c).

(** [None] is the exit of the program for an unknown mode.  [range] is a value range that
    is known already, 0 if it is not. *)
Definition calAbsErrorBound (c : Config) (data : list Z) (range : Z) : option Config :=
  let the_range := if f64_ltb 0 range then Some range else data_range (take (Z.to_nat (num c)) data) in
  if errorBoundMode c =? EB_ABS then Some c
  else if errorBoundMode c =? EB_REL then
    r ← the_range; Some (set_bound c (f64_mul (relErrorBound c) r))
  else if errorBoundMode c =? EB_PSNR then
    r ← the_range; Some (set_bound c (computeABSErrBoundFromPSNR (psnrErrorBound c) f64_0_99 r))
  else if errorBoundMode c =? EB_L2NORM then
    Some (set_bound c (f64_mul (sqrt (f64_div f64_3 (f64_of_Z (num c)))) (l2normErrorBound c)))
  else if errorBoundMode c =? EB_ABS_AND_REL then
    r ← the_range;
    let rel := f64_mul (relErrorBound c) r in
    Some (set_bound c (if f64_ltb rel (absErrorBound c) then rel else absErrorBound c))
  else if errorBoundMode c =? EB_ABS_OR_REL then
    r ← the_range;
    let rel := f64_mul (relErrorBound c) r in
    Some (set_bound c (if f64_ltb (absErrorBound c) rel then rel else absErrorBound c))
  else None.

End bound.

(** ** Properties *)

Definition is_u8 (x : Z) : Prop := 0 <= x < 2 ^ 8.

(** The fields fit their types; the number of dimensions is that of [dims]. *)
Record wf (c : Config) : Prop := {
  wf_magic : is_u32 (sz3MagicNumber c);
  wf_ver : is_u32 (sz3DataVer c);
  wf_N : N c = Z.of_nat (length (dims c));
  wf_dims : Forall is_u64 (dims c);
  wf_num : is_u64 (num c);
  wf_algo : is_u8 (cmprAlgo c);
  wf_mode : is_u8 (errorBoundMode c);
  wf_abs : is_u64 (absErrorBound c);
  wf_rel : is_u64 (relErrorBound c);
  wf_type : is_u8 (dataType c);
  wf_lossless : is_u8 (lossless c);
  wf_encoder : is_u8 (encoder c);
  wf_interp : is_u8 (interpAlgo c);
  wf_dir : is_u8 (interpDirection c);
  wf_iblock : is_i32 (interpBlockSize c);
  wf_bins : is_i32 (quantbinCnt c);
  wf_block : is_i32 (blockSize c);
  wf_stride : is_i32 (stride c);
  wf_pred : is_i32 (pred_dim c)
}.

Lemma length_fields c : length (fields c) = (65 + 8 * length (dims c))%nat.
Proof. unfold fields. rewrite !length_app, !length_le_bytes, length_store_array. lia. Qed.

(** The configuration that is read: the bounds of the other modes are not stored. *)
Definition loaded (c0 c : Config) : Config :=
  mkConfig (sz3MagicNumber c) (sz3DataVer c) (N c) (dims c) (num c) (cmprAlgo c) (errorBoundMode c)
    (absErrorBound c) (relErrorBound c) (psnrErrorBound c0) (l2normErrorBound c0) (lorenzo c)
    (lorenzo2 c) (regression c) (regression2 c) (openmp c) (dataType c) (lossless c)
    (encoder c) (interpAlgo c) (interpDirection c) (interpBlockSize c) (quantbinCnt c)
    (blockSize c) (stride c) (pred_dim c).

Lemma b2z_u8 b : is_u8 (b2z b).
Proof. destruct b; unfold is_u8; simpl; lia. Qed.

Lemma b2z_bool b : negb (b2z b =? 0) = b.
Proof. by destruct b. Qed.

Ltac read_field := rewrite read_var_le by (assumption || apply b2z_u8 || apply u32_range); cbn [mbind option_bind].

Lemma load_fields c0 c tl :
  wf c -> (length (dims c) <= 15)%nat ->
  load c0 (fields c ++ tl) = Some (loaded c0 c, drop (Z.to_nat size_est) (fields c ++ tl)).
Proof.
  intros [] Hd. assert (is_u8 (N c)) as HN by (unfold is_u8; lia).
  assert (forall c1 : list Z, (length (fields c ++ tl) - length c1 <= 192)%nat ->
    assert (Z.of_nat (length (fields c ++ tl) - length c1) <=? size_est) = Some tt) as Hsz.
  { intros c1 H. apply assert_true, Z.leb_le. unfold size_est. lia. }
  assert (length (fields c ++ tl) - length tl <= 192)%nat as Htl by (rewrite length_app, length_fields; lia).
  specialize (Hsz tl Htl). unfold load. set (whole := fields c ++ tl) in *.
  assert (whole = fields c ++ tl) as Ew by done. clearbody whole. rewrite Ew at 1. unfold fields.
  rewrite <- !app_assoc. do 3 read_field. rewrite assert_true by (apply Z.ltb_lt; lia). cbn [mbind option_bind].
  rewrite read_array_le by done. cbn [mbind option_bind].
  do 20 read_field. rewrite Hsz. cbn [mbind option_bind]. unfold loaded.
  by rewrite !b2z_bool, !i32_u32 by assumption.
Qed.

Lemma config_correct c0 c old tl :
  wf c -> (length (dims c) <= 15)%nat -> size_est <= Z.of_nat (length old) ->
  exists bytes, save old c = Some bytes /\ Z.of_nat (length bytes) = size_est /\
    load c0 (bytes ++ tl) = Some (loaded c0 c, tl).
Proof.
  intros Hwf Hd Hold. unfold save. pose proof (length_fields c) as Hl.
  rewrite (proj2 (Z.ltb_ge _ _)) by (unfold size_est; lia). eexists. split; [done |].
  set (pad := take _ _).
  assert (length (fields c ++ pad) = Z.to_nat size_est) as Hlen.
  { unfold pad. rewrite length_app, length_take, length_drop. unfold size_est in *. lia. }
  split; [rewrite Hlen; unfold size_est; lia |].
  rewrite <- app_assoc, load_fields by done. rewrite app_assoc. by rewrite drop_app_length' by done.
Qed.

(** C22: a configuration of up to 15 dimensions fits the space estimated for it, and is read
    back from there, except for the bounds of the modes PSNR and L2NORM, which are not
    stored. *)
Theorem config_roundtrip c0 c old tl :
  wf c -> (length (dims c) <= 15)%nat -> size_est <= Z.of_nat (length old) ->
  exists bytes, save old c = Some bytes /\ Z.of_nat (length bytes) = size_est /\
    load c0 (bytes ++ tl) = Some (loaded c0 c, tl).
Proof. apply config_correct. Qed.

(** With more dimensions the estimate is exceeded and [save] throws. *)
Theorem config_save_throws old c : (15 < length (dims c))%nat -> save old c = None.
Proof.
  intros Hd. unfold save. pose proof (length_fields c).
  by rewrite (proj2 (Z.ltb_lt _ _)) by (unfold size_est; lia).
Qed.

Lemma foldl_mul l : forall a,
  0 < a -> Forall (fun d => 0 < d) l -> a * foldr Z.mul 1 l < 2 ^ 64 ->
  foldl (fun n d => u64 (n * d)) a l = a * foldr Z.mul 1 l.
Proof.
  induction l as [| d l IH]; intros a Ha Hl Hb; cbn [foldl foldr] in *; [lia |].
  apply Forall_cons_iff in Hl as [Hd Hl].
  assert (0 < foldr Z.mul 1 l) as Hp by (clear - Hl; induction Hl; simpl; lia).
  assert (a * d < 2 ^ 64) by nia. rewrite u64_id by (unfold is_u64; lia).
  rewrite IH by (done || lia). lia.
Qed.

Lemma filter_product l : Forall (fun d => 0 < d) l ->
  foldr Z.mul 1 (filter (fun dim => 1 < dim) l) = foldr Z.mul 1 l.
Proof.
  induction 1 as [| d l Hd Hl IH]; [done |]. rewrite filter_cons. cbn [foldr].
  destruct (decide (1 < d)); cbn [foldr]; rewrite IH; [done |]. assert (d = 1) as -> by lia. lia.
Qed.

Lemma setDims_spec c dims_ :
  Forall (fun d => 0 < d) dims_ -> foldr Z.mul 1 dims_ < 2 ^ 64 -> (length dims_ < 128)%nat ->
  let c' := setDims c dims_ in
  num c' = foldr Z.mul 1 dims_ /\ N c' = Z.of_nat (length (dims c')) /\ 1 <= N c' /\
  Forall is_u64 (dims c') /\ foldr Z.mul 1 (dims c') = num c'.
Proof.
  intros Hpos Hprod Hlen c'. pose proof (filter_product dims_ Hpos) as Hfp.
  set (ds := filter (fun dim => 1 < dim) dims_) in *.
  assert (length ds <= length dims_)%nat as Hfl by apply length_filter.
  set (ds' := if (length ds =? 0)%nat then [1] else ds).
  assert (foldr Z.mul 1 ds' = foldr Z.mul 1 dims_ /\ (1 <= length ds' < 128)%nat /\
    Forall (fun d => 0 < d) ds') as (E & Hl & Hp).
  { unfold ds'. destruct (Nat.eqb_spec (length ds) 0) as [E0 | E0].
    - apply nil_length_inv in E0. rewrite E0 in Hfp. simpl in *. split_and!; [lia.. |]. by repeat constructor.
    - split; [done |]. split; [lia |]. unfold ds. apply list.Forall_forall.
      intros d [Hd _]%list_elem_of_filter. lia. }
  assert (num c' = foldr Z.mul 1 ds') as Hn.
  { change (num c') with (foldl (fun n d => u64 (n * d)) 1 ds'). rewrite foldl_mul by (done || lia). lia. }
  assert (N c' = Z.of_nat (length ds')) as HN.
  { change (N c') with (swrap 8 (Z.of_nat (length ds'))). apply swrap_id; lia. }
  change (dims c') with ds'. split_and!; try (congruence || lia).
  rewrite <- E in Hprod. clear - Hp Hprod. revert Hprod.
  induction Hp as [| d l Hd Hl IH]; intros Hprod; [constructor |]. cbn [foldr] in Hprod.
  assert (0 < foldr Z.mul 1 l) as Hpp by (clear - Hl; induction Hl; simpl; lia).
  constructor; [unfold is_u64; nia | apply IH; nia].
Qed.

(** The constructor keeps the number of elements: dimensions of extent 1 do not matter,
    and there is always one dimension. *)
Theorem config_dims dims_ :
  Forall (fun d => 0 < d) dims_ -> foldr Z.mul 1 dims_ < 2 ^ 64 -> (length dims_ < 128)%nat ->
  let c := new dims_ in
  num c = foldr Z.mul 1 dims_ /\ N c = Z.of_nat (length (dims c)) /\ 1 <= N c /\
  Forall is_u64 (dims c) /\ foldr Z.mul 1 (dims c) = num c.
Proof. apply setDims_spec. Qed.

(** For no elements, an extent of 0, it makes a configuration of one element. *)
Theorem config_empty : dims (new [0]) = [1] /\ num (new [0]) = 1.
Proof. by vm_compute. Qed.

Lemma calAbs_mode log10 pow10 sqrt c data range c' :
  calAbsErrorBound log10 pow10 sqrt c data range = Some c' ->
  errorBoundMode c' = EB_ABS /\ num c' = num c /\ N c' = N c /\ cmprAlgo c' = cmprAlgo c /\
  quantbinCnt c' = quantbinCnt c /\ (wf c -> is_u64 (absErrorBound c') -> wf c').
Proof.
  unfold calAbsErrorBound. set (r := if f64_ltb 0 range then _ else _).
  assert (forall eb, (wf c -> is_u64 (absErrorBound (set_bound c eb)) -> wf (set_bound c eb))) as Hwf.
  { intros eb [] Heb. by split. }
  repeat case_match; to_prop; intros; inv_opt; split_and!; simpl; auto; try done.
Qed.

(** A bound is made absolute once: afterwards the mode is ABS and another call changes
    nothing.  Of two bounds, the modes AND and OR take the lesser and the greater. *)
Theorem calAbsErrorBound_spec log10 pow10 sqrt c data range c' :
  calAbsErrorBound log10 pow10 sqrt c data range = Some c' ->
  errorBoundMode c' = EB_ABS /\
  (forall data' range', calAbsErrorBound log10 pow10 sqrt c' data' range' = Some c') /\
  (errorBoundMode c = EB_ABS_AND_REL ->
     f64_ltb (absErrorBound c) (absErrorBound c') = false /\
     exists r, absErrorBound c' = absErrorBound c \/ absErrorBound c' = f64_mul (relErrorBound c) r) /\
  (errorBoundMode c = EB_ABS_OR_REL -> f64_ltb (absErrorBound c') (absErrorBound c) = false).
Proof.
  intros E. destruct (calAbs_mode _ _ _ _ _ _ _ E) as (Hm & _). split; [done |]. split.
  { intros data' range'. unfold calAbsErrorBound. by rewrite Hm. }
  split; intros Hmode; unfold calAbsErrorBound in E; rewrite Hmode in E;
    destruct (if f64_ltb 0 range then _ else _) as [r |]; simpl in E; inv_opt; simpl.
  - destruct (f64_ltb (f64_mul (relErrorBound c) r) (absErrorBound c)) eqn:El.
    + split; [by apply f64_ltb_asym | eauto].
    + split; [apply f64_ltb_irrefl | exists r; auto].
  - destruct (f64_ltb (absErrorBound c) (f64_mul (relErrorBound c) r)) eqn:El;
      [by apply f64_ltb_asym | apply f64_ltb_irrefl].
Qed.

(** ** Witnesses *)

Definition sample : Config := new [1; 120].

Lemma wf_sample : wf sample.
Proof.
  split; [vm_compute; split; congruence | vm_compute; split; congruence | vm_compute; reflexivity | |
          vm_compute; split; congruence ..].
  change (Forall is_u64 [120]). repeat constructor; unfold is_u64; lia.
Qed.

Lemma config_roundtrip_witness :
  exists bytes, save (replicate 200 7) sample = Some bytes /\ Z.of_nat (length bytes) = size_est /\
    load default_config (bytes ++ [9]) = Some (loaded default_config sample, [9]).
Proof.
  apply (config_roundtrip default_config sample (replicate 200 7) [9] wf_sample);
    [vm_compute; lia | vm_compute; congruence].
Defined.

Lemma config_save_throws_witness : save [] (new (replicate 16 2)) = None.
Proof. apply (config_save_throws [] (new (replicate 16 2))). vm_compute. lia. Defined.

Lemma config_dims_witness : num (new [3; 1; 5]) = 15 /\ N (new [3; 1; 5]) = 2.
Proof.
  destruct (config_dims [3; 1; 5]) as (H1 & H2 & _);
    [repeat constructor | vm_compute; reflexivity | simpl; lia |]. split; [exact H1 | exact H2].
Defined.

(** The lesser of 1.0 and half the range of 0.0, 1.0. *)
Definition sample_and : Config :=
  let c := sample in
  mkConfig (sz3MagicNumber c) (sz3DataVer c) 1 [2] 2 (cmprAlgo c) EB_ABS_AND_REL f64_1 0x3fe0000000000000
    0 0 (lorenzo c) (lorenzo2 c) (regression c) (regression2 c) (openmp c) (dataType c) (lossless c)
    (encoder c) (interpAlgo c) (interpDirection c) (interpBlockSize c) (quantbinCnt c) 128 128 1.

Lemma calAbsErrorBound_spec_witness :
  exists c', calAbsErrorBound id id id sample_and [0; f64_1] 0 = Some c' /\ errorBoundMode c' = EB_ABS /\
    f64_ltb (absErrorBound sample_and) (absErrorBound c') = false.
Proof.
  eexists. split; [vm_compute; reflexivity |].
  match goal with |- context [errorBoundMode ?c = _] =>
    destruct (calAbsErrorBound_spec id id id sample_and [0; f64_1] 0 c) as (H1 & _ & H2 & _);
      [vm_compute; reflexivity |] end.
  split; [exact H1 | exact (proj1 (H2 eq_refl))].
Defined.

End SzConfig.
