(* ===== verification/SzPipeline.v ===== *)
(** * SzPipeline: the compressors of SZ3 as compositions of modules

    Models the interfaces [SZ3/decomposition/Decomposition.hpp] and
    [SZ3/lossless/Lossless.hpp], the two lossless modules
    ([SZ3/lossless/Lossless_zstd.hpp], [SZ3/lossless/Lossless_bypass.hpp]) and
    [SZ3/compressor/SZGenericCompressor.hpp] at [T = double].

    The compressor is verified against the interfaces of its modules.  zstd itself is a
    variable; that a frame is unpacked before the bytes that follow it are looked at is a class of its
    own, [LosslessTrailing], for the theorems that need it. *)

From Stdlib Require Import ZArith Lia.
From S2P Require Import Prelude Bytes Float64 Quantizer SzEncoder.

(** ** The interfaces *)

(** A decomposition turns data into indices and back.  The law: every value of the domain is
    replaced by one that is accurate, the indices are in range, and what is loaded from what
    the compressor's decomposition saved recovers the values that replaced the data. *)
Class DecompositionInterface (D : Type) := {
  (** the indices, the values that the decompressor will see, which usually overwrite the data,
      and the state after *)
  d_compress : D -> list Z -> option (list Z * list Z * D);
  d_decompress : D -> list Z -> option (list Z);
  d_radius : D -> Z;
  d_size_est : D -> Z;
  d_save : D -> option (list Z);
  d_load : D -> list Z -> Z -> option (D * list Z * Z);
  (** the data the decomposition is made for *)
  d_domain : D -> list Z -> Prop;
  d_bound : D -> Z;
  d_accurate : D -> Z -> Z -> Prop;
  (** the decompressor's object, before it is loaded, belongs to this compressor's *)
  d_peer : D -> D -> Prop;
  d_correct d data : d_domain d data -> exists inds rs d',
    d_compress d data = Some (inds, rs, d') /\
    length inds = length data /\ Forall (fun i => 0 <= i < 2 * d_bound d) inds /\
    Forall2 (d_accurate d) data rs /\
    exists saved, d_save d' = Some saved /\
    forall e0 tl rem, d_peer d e0 -> Z.of_nat (length saved) <= rem < 2 ^ 62 ->
      exists e rem', d_load e0 (saved ++ tl) rem = Some (e, tl, rem') /\
        rem - Z.of_nat (length saved) <= rem' /\ d_decompress e inds = Some rs
}.

(** A lossless module writes into a buffer given with its contents, and returns the number
    of bytes it says it wrote. *)
Class LosslessInterface := {
  l_compress : list Z -> list Z -> Z * list Z;
  l_decompress : list Z -> list Z -> Z * list Z;
}.

(** The first bytes of a buffer of the length of [dst] are those of [src]. *)
Definition holds (src dst buffer : list Z) : Prop :=
  exists rest, buffer = src ++ rest /\ length buffer = length dst.

(** What a lossless module has to keep: what it packed into the buffer is unpacked to a
    prefix of any buffer that is large enough; it reports an error, a size beyond the
    buffer, and leaves the buffer unspecified otherwise. *)
Class LosslessLaws (L : LosslessInterface) := {
  l_length src dst : length (l_compress src dst).2 = length dst;
  l_correct src dst size out :
    l_compress src dst = (size, out) -> size <= Z.of_nat (length dst) ->
    0 <= size /\
    forall dst', (length src <= length dst')%nat ->
      (l_decompress (take (Z.to_nat size) out) dst').1 = Z.of_nat (length src) /\
      holds src dst' (l_decompress (take (Z.to_nat size) out) dst').2;
  l_too_small src dst size out dst' :
    l_compress src dst = (size, out) -> size <= Z.of_nat (length dst) ->
    (length dst' < length src)%nat ->
    Z.of_nat (length dst') < (l_decompress (take (Z.to_nat size) out) dst').1
}.

(** A module that unpacks before it looks at the bytes that follow, whatever it then says
    of them. *)
Class LosslessTrailing (L : LosslessInterface) := {
  l_trailing src dst size out tl dst' :
    l_compress src dst = (size, out) -> size <= Z.of_nat (length dst) ->
    (length src <= length dst')%nat ->
    holds src dst' (l_decompress (take (Z.to_nat size) out ++ tl) dst').2
}.

(** Unpacking from what was packed and some bytes that follow it; none, if the module does
    not take them. *)
Lemma unpack_holds `{HL : !LosslessInterface} `{HLL : !LosslessLaws HL} src dst size out tl size' dst' :
  l_compress src dst = (size, out) -> size <= Z.of_nat (length dst) ->
  size <= size' <= size + Z.of_nat (length tl) -> size' = size \/ LosslessTrailing HL ->
  (length src <= length dst')%nat ->
  size' <= Z.of_nat (length (take (Z.to_nat size) out ++ tl)) /\
  holds src dst' (l_decompress (take (Z.to_nat size') (take (Z.to_nat size) out ++ tl)) dst').2.
Proof.
  intros El Hs Hsz Ht Hd. pose proof (l_length src dst) as Hlo. rewrite El in Hlo. cbn [snd] in Hlo.
  destruct (l_correct _ _ _ _ El Hs) as (H0 & Hl).
  assert (length (take (Z.to_nat size) out) = Z.to_nat size) as Hlt by (rewrite length_take; lia).
  split; [rewrite length_app; lia |]. destruct Ht as [-> | Ht].
  - rewrite take_app_length' by done. by apply Hl.
  - rewrite take_app_ge by lia. by apply l_trailing with dst.
Qed.

(** ** The lossless modules *)

Module Lossless.

Section zstd.

(** [ZSTD_compress]: the result, or an error as the size that stands for it, given the
    capacity of the destination and the level.  [ZSTD_decompress]: the size or error, and what
    the destination holds after the call, given what it held before. *)
Variable ZSTD_compress : list Z -> Z -> Z -> Z + list Z.
Variable ZSTD_decompress : list Z -> list Z -> Z * list Z.

Definition compression_level : Z := 3.

(** The result at the start of the buffer. *)
Definition into (r : Z + list Z) (dst : list Z) : Z * list Z :=
  match r with
  | inl error => (error, dst)
  | inr out => (Z.of_nat (length out), out ++ drop (length out) dst)
  end.

Definition zstd_compress (src dst : list Z) : Z * list Z :=
  into (ZSTD_compress src (Z.of_nat (length dst)) compression_level) dst.
Definition zstd_decompress (src dst : list Z) : Z * list Z := ZSTD_decompress src dst.

#[export] Instance zstd : LosslessInterface :=
  { l_compress := zstd_compress; l_decompress := zstd_decompress }.

(** The documentation of zstd: a result fits the capacity, and is decompressed to its
    source by a call with room for it; otherwise the result is an error, which is greater
    than any size of a buffer. *)
Hypothesis zstd_fits : forall src cap level out,
  ZSTD_compress src cap level = inr out -> Z.of_nat (length out) <= cap.
Hypothesis zstd_error : forall src cap level error,
  ZSTD_compress src cap level = inl error -> cap < error.
Hypothesis zstd_lossless : forall src cap level out dst,
  ZSTD_compress src cap level = inr out -> (length src <= length dst)%nat ->
  (ZSTD_decompress out dst).1 = Z.of_nat (length src) /\ holds src dst (ZSTD_decompress out dst).2.
Hypothesis zstd_small : forall src cap level out dst,
  ZSTD_compress src cap level = inr out -> (length dst < length src)%nat ->
  Z.of_nat (length dst) < (ZSTD_decompress out dst).1.

Lemma zstd_laws : LosslessLaws zstd.
Proof.
  split; simpl; unfold zstd_compress, zstd_decompress; intros src.
  - intros dst. destruct (ZSTD_compress _ _ _) as [error | c] eqn:E; simpl; [done |].
    apply zstd_fits in E. rewrite length_app, length_drop. lia.
  - intros dst size out. destruct (ZSTD_compress _ _ _) as [error | c] eqn:E; simpl; intros [= <- <-] Hs.
    + apply zstd_error in E. lia.
    + split; [lia |]. intros dst' Hd. rewrite Nat2Z.id, take_app_length. by eapply zstd_lossless.
  - intros dst size out dst'. destruct (ZSTD_compress _ _ _) as [error | c] eqn:E; simpl; intros [= <- <-] Hs Hd.
    + apply zstd_error in E. lia.
    + rewrite Nat2Z.id, take_app_length. by eapply zstd_small.
Qed.

(** The loop over the frames of a source, [ZSTD_decompressMultiFrame] in
    tools/zstd/decompress/zstd_decompress.c, decodes the first into the destination before it
    looks at the bytes after it; whether these are an error or another frame, what was
    decoded stays. *)
Hypothesis zstd_frames : forall src cap level out tl dst,
  ZSTD_compress src cap level = inr out -> (length src <= length dst)%nat ->
  holds src dst (ZSTD_decompress (out ++ tl) dst).2.

Lemma zstd_trailing : LosslessTrailing zstd.
Proof.
  split. simpl. unfold zstd_compress, zstd_decompress. intros src dst size out tl dst'.
  destruct (ZSTD_compress _ _ _) as [error | c] eqn:E; simpl; intros [= <- <-] Hs Hd.
  - apply zstd_error in E. lia.
  - rewrite Nat2Z.id, take_app_length. by eapply zstd_frames.
Qed.

End zstd.

(** A compressor that stores, which keeps what zstd promises. *)
Definition store_c (src : list Z) (cap level : Z) : Z + list Z :=
  if Z.of_nat (length src) <=? cap then inr src else inl (cap + 1).
Definition store_d (src dst : list Z) : Z * list Z :=
  (if (length src <=? length dst)%nat then Z.of_nat (length src) else Z.of_nat (length dst) + 1,
   take (length dst) src ++ drop (length src) dst).

Lemma store_holds src tl dst : (length src <= length dst)%nat -> holds src dst (store_d (src ++ tl) dst).2.
Proof.
  intros H. exists (take (length dst - length src) tl ++ drop (length (src ++ tl)) dst).
  unfold store_d. cbn [snd]. rewrite take_app_ge by lia. rewrite <- app_assoc. split; [done |].
  rewrite !length_app, length_take, length_drop. lia.
Qed.

Lemma store_laws : LosslessLaws (zstd store_c store_d).
Proof.
  apply zstd_laws; unfold store_c; intros src cap level out; intros; repeat case_match; simplify_eq; to_prop; try lia.
  - split; [simpl; by rewrite (proj2 (Nat.leb_le _ _)) |]. rewrite <- (app_nil_r out) at 2. by apply store_holds.
  - simpl. rewrite (proj2 (Nat.leb_gt _ _)) by done. lia.
Qed.

(** Another, which leaves the destination as it was when it fails. *)
Definition keep_d (src dst : list Z) : Z * list Z :=
  if (length src <=? length dst)%nat then (Z.of_nat (length src), src ++ drop (length src) dst)
  else (Z.of_nat (length dst) + 1, dst).

Lemma keep_laws : LosslessLaws (zstd store_c keep_d).
Proof.
  apply zstd_laws; unfold store_c; intros src cap level out.
  - intros E. case_match; simplify_eq; to_prop. lia.
  - intros E. case_match; simplify_eq; to_prop. lia.
  - intros dst E Hd. case_match; simplify_eq. unfold keep_d. rewrite (proj2 (Nat.leb_le _ _)) by done.
    split; [done |]. eexists. split; [done |]. cbn [snd]. rewrite length_app, length_drop. lia.
  - intros dst E Hd. case_match; simplify_eq. unfold keep_d. rewrite (proj2 (Nat.leb_gt _ _)) by done. simpl. lia.
Qed.

Lemma store_trailing : LosslessTrailing (zstd store_c store_d).
Proof.
  apply zstd_trailing; unfold store_c; intros; repeat case_match; simplify_eq; to_prop; try lia.
  by apply store_holds.
Qed.

(** The bypass assigns the pointers, not the bytes. *)
Definition bypass_compress (src dst : list Z) : Z * list Z := (Z.of_nat (length src), dst).
Definition bypass_decompress (src dst : list Z) : Z * list Z := (Z.of_nat (length src), dst).

Definition bypass : LosslessInterface :=
  {| l_compress := bypass_compress; l_decompress := bypass_decompress |}.

(** The bypass loses the data: it reports their size and leaves the buffer as it was, so
    it does not keep the law of a lossless module. *)
Theorem bypass_not_lossless : ~ LosslessLaws bypass.
Proof.
  intros [_ H _]. destruct (H [1] [0] 1 [0] eq_refl) as (_ & H2); [simpl; lia |].
  specialize (H2 [0]). simpl in H2. destruct (H2 (le_n _)) as (_ & rest & E & _). discriminate.
Qed.

End Lossless.

(** ** The generic compressor *)

Module SZGenericCompressor.
Section compressor.

Context {D : Type} `{HD : !DecompositionInterface D} `{HE : !EncoderInterface} `{HL : !LosslessInterface}.

(** The literal 1.2. *)
Definition f64_1_2 : Z := 0x3ff3333333333333.

(** The space for [decomposition], tree and indices; sizes are below 2^63. *)
Definition bufferSize (decomposition_est encoder_est : Z) (num : nat) : Z :=
  Z.max 1000 (f64_to_i64 (f64_mul f64_1_2
    (f64_of_Z (u64 (decomposition_est + encoder_est + 8 * Z.of_nat num))))).

(** The buffer that goes to the lossless module, and the values that the decompressor will see;
    [None] also for a write past its end.  The encoder writes whole words of 8 bytes, the last of which can
    reach up to 8 bytes past what it then counts; these are not part of what is handed on and not counted
    here. *)
Definition buffer_of (d : D) (data : list Z) : option (list Z * list Z) :=
  '(quant_inds, rs, d) ← d_compress d data;
  let size := bufferSize (d_size_est d) (e_size_est quant_inds) (length quant_inds) in
  saved ← d_save d;
  encoded ← e_encode quant_inds (i32 (d_radius d * 2));
  let buffer := saved ++ encoded in
  _ ← assert (Z.of_nat (length buffer) <=? size);
  Some (buffer, rs).

(** [compress]: the size returned and the destination [cmpData]. *)
Definition compress (d : D) (data cmpData : list Z) : option (Z * list Z) :=
  '(buffer, _) ← buffer_of d data;
  Some (l_compress buffer cmpData).

(** [decompress]: the size that the lossless module returns is not looked at; [uninit] is
    what the buffer holds before; [None] also when the source is not as long as said. *)
Definition decompress (d : D) (uninit cmpData : list Z) (cmpSize : Z) (num : nat)
    : option (list Z) :=
  _ ← assert (cmpSize <=? Z.of_nat (length cmpData));
  let bufferCap := 8 * Z.of_nat num in
  let buffer := (l_decompress (take (Z.to_nat cmpSize) cmpData) (take (Z.to_nat bufferCap) uninit)).2 in
  '(d, buffer, remaining_length) ← d_load d buffer bufferCap;
  '(quant_inds, _) ← e_decode buffer remaining_length num;
  d_decompress d quant_inds.

(** A source that is said to be longer than it is is read past its end. *)
Lemma decompress_overread d uninit cmpData size num : Z.of_nat (length cmpData) < size ->
  decompress d uninit cmpData size num = None.
Proof. intros Hs. unfold decompress. by rewrite assert_false by (apply Z.leb_gt; lia). Qed.

Context `{HLL : !LosslessLaws HL}.

(** Whatever the lossless module did: when the buffer of the decompressor starts with the frame of
    [data], the values that replaced them are what is returned. *)
Lemma frame_correct d d0 data buffer rs uninit cmpData cmpSize rest :
  d_domain d data -> d_peer d d0 ->
  (forall inds rs d', d_compress d data = Some (inds, rs, d') -> e_domain inds (i32 (d_radius d' * 2))) ->
  buffer_of d data = Some (buffer, rs) ->
  (length buffer <= 8 * length data)%nat -> Z.of_nat (8 * length data) < 2 ^ 62 ->
  cmpSize <= Z.of_nat (length cmpData) ->
  (l_decompress (take (Z.to_nat cmpSize) cmpData) (take (Z.to_nat (8 * Z.of_nat (length data))) uninit)).2 = buffer ++ rest ->
  decompress d0 uninit cmpData cmpSize (length data) = Some rs /\ Forall2 (d_accurate d) data rs.
Proof.
  intros Hdom Hpeer He Hb Hcap H64 Hle Hl.
  destruct (d_correct _ _ Hdom) as (inds & rs' & d' & Ed & Hlen & _ & Hacc & saved & Es & Hload).
  destruct (e_correct inds (i32 (d_radius d' * 2)) (He _ _ _ Ed)) as (bytes & Eb & Hdec).
  unfold buffer_of in Hb. rewrite Ed in Hb. cbn [mbind option_bind] in Hb. rewrite Es in Hb. cbn [mbind option_bind] in Hb. rewrite Eb in Hb.
  cbn [mbind option_bind] in Hb. apply bind_Some in Hb as (u & _ & Hb). apply (inj Some), pair_equal_spec in Hb as [<- <-].
  rewrite length_app in Hcap.
  split; [| done]. unfold decompress. rewrite assert_true by (by apply Z.leb_le).
  cbn [mbind option_bind]. rewrite Hl, <- app_assoc.
  destruct (Hload d0 (bytes ++ rest) (8 * Z.of_nat (length data)) Hpeer) as (e & rem' & -> & Hrem & Hd); [lia |].
  cbn [mbind option_bind]. rewrite <- Hlen, Hdec by lia. done.
Qed.

(** When the lossless module has room, on both sides, the values that replaced the data come
    back, also if bytes that follow the frame are given to a module that takes them. *)
Lemma generic_correct d d0 data cmpData buffer rs size out uninit tl size' :
  d_domain d data -> d_peer d d0 ->
  (forall inds rs d', d_compress d data = Some (inds, rs, d') -> e_domain inds (i32 (d_radius d' * 2))) ->
  buffer_of d data = Some (buffer, rs) ->
  l_compress buffer cmpData = (size, out) ->
  size <= Z.of_nat (length cmpData) ->
  (length buffer <= 8 * length data)%nat -> Z.of_nat (8 * length data) < 2 ^ 62 ->
  (8 * length data <= length uninit)%nat ->
  size <= size' <= size + Z.of_nat (length tl) -> size' = size \/ LosslessTrailing HL ->
  decompress d0 uninit (take (Z.to_nat size) out ++ tl) size' (length data) = Some rs /\
  Forall2 (d_accurate d) data rs.
Proof.
  intros Hdom Hpeer He Hb Hc Hsize Hcap H64 Hun Hsz Ht.
  destruct (unpack_holds _ _ _ _ tl size' (take (Z.to_nat (8 * Z.of_nat (length data))) uninit) Hc Hsize Hsz Ht)
    as (Hle & rest & Hl & _); [rewrite length_take; lia |].
  by apply (frame_correct d d0 data buffer rs uninit _ size' rest).
Qed.

End compressor.
End SZGenericCompressor.
