(* ===== verification/SzDecomp.v ===== *)
(** * SzDecomp: decompositions of SZ3 that visit the data one by one

    Models [SZ3/decomposition/NoPredictionDecomposition.hpp] and the one-dimensional part of
    [SZ3/decomposition/LorenzoRegressionDecomposition.hpp], at [T = double].

    A decomposition that predicts a value from others quantizes and overwrites the values in
    some order; the decompressor goes through the same order.  [visit] is one step of such an
    order.  The decompressor sees the same predictions when every step reads only what was
    visited before: [causal]. *)

From Stdlib Require Import ZArith Lia.
From stdpp Require Import sets.
From S2P Require Import Prelude Bytes Quantizer SzHuffman SzEncoder SzPipeline.

(** ** Orders of visits *)

(** A visit of the value at [v_idx], predicted by [v_fun] from the values at [v_src]. *)
Record visit := { v_idx : nat; v_src : list nat; v_fun : list Z -> Z }.

(** Each visit reads values that are known: given, or visited before. *)
Fixpoint causal (known : list nat) (vs : list visit) : Prop :=
  match vs with
  | [] => True
  | v :: vs => Forall (fun s => s ∈ known) (v_src v) /\ causal (v_idx v :: known) vs
  end.

(** The arrays agree at the indices known. *)
Definition agree (known : list nat) (a b : list Z) : Prop :=
  Forall (fun i => a !! i = b !! i) known.

(** Values written one after the other. *)
Definition writes (l : list Z) (ws : list (nat * Z)) : list Z := foldl (fun l w => <[w.1 := w.2]> l) l ws.

Lemma length_writes ws : forall l, length (writes l ws) = length l.
Proof. induction ws as [| w ws IH]; intros l; [done |]. unfold writes in *. simpl. by rewrite IH, length_insert. Qed.

Lemma writes_other ws k : forall l, k ∉ ws.*1 -> writes l ws !! k = l !! k.
Proof.
  induction ws as [| w ws IH]; intros l Hk; [done |]. unfold writes in *. simpl. rewrite fmap_cons, not_elem_of_cons in Hk.
  destruct Hk as [Hne Hk]. rewrite IH by done. by apply list_lookup_insert_ne.
Qed.

Lemma writes_at ws k x : NoDup ws.*1 -> (k, x) ∈ ws -> forall l, (k < length l)%nat -> writes l ws !! k = Some x.
Proof.
  induction ws as [| w ws IH]; intros Hn Hin l Hl; [by apply not_elem_of_nil in Hin |].
  rewrite fmap_cons in Hn. apply list.NoDup_cons in Hn as [Hk Hn]. apply elem_of_cons in Hin as [<- | Hin].
  - change (writes (<[k := x]> l) ws !! k = Some x). rewrite writes_other by done. by apply list_lookup_insert_eq.
  - change (writes (<[w.1 := w.2]> l) ws !! k = Some x). apply IH; [done | done | by rewrite length_insert].
Qed.

(** When every place is written once, nothing is left of what was there. *)
Lemma writes_all ws a b : length a = length b -> ws.*1 ≡ₚ seq 0 (length a) -> writes a ws = writes b ws.
Proof.
  intros Hl Hp. apply list_eq. intros k. assert (NoDup ws.*1) as Hn by (rewrite Hp; apply NoDup_seq).
  destruct (decide (k < length a)%nat) as [Hk | Hk].
  - assert (k ∈ ws.*1) as Hin by (rewrite Hp; apply elem_of_seq; lia).
    apply list_elem_of_fmap in Hin as ([k' x] & -> & Hin). rewrite !(writes_at ws _ x Hn Hin); [done | simpl in *; lia | done].
  - rewrite !lookup_ge_None_2 by (rewrite length_writes; lia). done.
Qed.

Definition sources (data : list Z) (v : visit) : option (list Z) := mapM (fun s => data !! s) (v_src v).

Section traversal.

Context {Q : Type} `{HQ : !QuantizerInterface Q}.

(** Quantizing along an order: the indices, the data as overwritten, the quantizer. *)
Fixpoint quantize_visits (q : Q) (data : list Z) (vs : list visit) : option (list Z * list Z * Q) :=
  match vs with
  | [] => Some ([], data, q)
  | v :: vs =>
      x ← data !! v_idx v;
      l ← sources data v;
      let '(i, r, q) := q_quantize q x (v_fun v l) in
      '(inds, data, q) ← quantize_visits q (<[v_idx v := r]> data) vs;
      Some (i :: inds, data, q)
  end.

(** Recovering: the data, the indices left, the quantizer. *)
Fixpoint recover_visits (q : Q) (data : list Z) (vs : list visit) (inds : list Z)
    : option (list Z * list Z * Q) :=
  match vs with
  | [] => Some (data, inds, q)
  | v :: vs =>
      match inds with
      | [] => None
      | i :: inds =>
          _ ← data !! v_idx v;
          l ← sources data v;
          '(r, q) ← q_recover q (v_fun v l) i;
          recover_visits q (<[v_idx v := r]> data) vs inds
      end
  end.

(** The quantizer is made for what it meets along the order. *)
Fixpoint visits_ok (q : Q) (data : list Z) (vs : list visit) : Prop :=
  match vs with
  | [] => True
  | v :: vs =>
      match data !! v_idx v, sources data v with
      | Some x, Some l =>
          let '(_, r, q') := q_quantize q x (v_fun v l) in
          is_u64 x /\ quantizable q x (v_fun v l) /\ visits_ok q' (<[v_idx v := r]> data) vs
      | _, _ => False
      end
  end.

Lemma agree_write known a b i r :
  (i < length a)%nat -> length a = length b -> agree known a b ->
  agree (i :: known) (<[i := r]> a) (<[i := r]> b).
Proof.
  intros Hi Hl Ha. assert (forall j, j = i \/ a !! j = b !! j -> <[i := r]> a !! j = <[i := r]> b !! j) as H.
  { intros j [-> | E]; [by rewrite !list_lookup_insert_eq by lia |].
    destruct (decide (i = j)) as [-> |]; [by rewrite !list_lookup_insert_eq by lia |].
    by rewrite !list_lookup_insert_ne. }
  constructor; [by apply H; left |]. eapply Forall_impl; [| exact Ha]. intros j Hj. apply H. by right.
Qed.

Lemma agree_sources known a b v :
  agree known a b -> Forall (fun s => s ∈ known) (v_src v) -> sources a v = sources b v.
Proof.
  intros Ha Hs. unfold sources.
  unfold agree in Ha. rewrite list.Forall_forall in Ha. induction Hs as [| s l Hs Hl IH]; [done |].
  cbn [mapM]. by rewrite (Ha s Hs), IH.
Qed.

(** What quantizing along an order leaves, and that recovering along it, on any array that
    agrees on what is known, gives the same values at what was visited. *)
Lemma quantize_visits_spec vs : forall known q data,
  storable q -> visits_ok q data vs -> causal known vs ->
  exists inds data' q', quantize_visits q data vs = Some (inds, data', q') /\
    leads q q' /\ storable q' /\ length inds = length vs /\ length data' = length data /\
    Forall (fun i => 0 <= i < 2 * q_radius q) inds /\
    (forall i, i ∉ v_idx <$> vs -> data' !! i = data !! i) /\
    (NoDup (v_idx <$> vs) -> forall i, i ∈ v_idx <$> vs ->
       exists x r, data !! i = Some x /\ data' !! i = Some r /\ accurate q x r) /\
    forall d qf dec tl, leads q' qf -> follows d q qf -> agree known data dec -> length dec = length data ->
      exists d' dec', recover_visits d dec vs (inds ++ tl) = Some (dec', tl, d') /\
        follows d' q' qf /\ length dec' = length data /\ agree (reverse (v_idx <$> vs) ++ known) data' dec'.
Proof.
  induction vs as [| v vs IH]; intros known q data Hs Hok Hc; cbn [quantize_visits].
  { exists [], data, q. split_and!; try done; [by intros; set_solver |].
    intros d qf dec tl _ Hf Ha Hl. by exists d, dec. }
  destruct Hc as [Hk Hc]. cbn [visits_ok] in Hok.
  destruct (data !! v_idx v) as [x |] eqn:Ex; [| done]. destruct (sources data v) as [l |] eqn:El; [| done].
  cbn [mbind option_bind].
  destruct (q_quantize q x (v_fun v l)) as [[i r] q1] eqn:Eq. destruct Hok as (Hx & Hq & Hok).
  pose proof (lookup_lt_Some _ _ _ Ex) as Hlt.
  pose proof (quantize_leads _ _ _ _ _ _ Eq) as Hl1. destruct (quantize_index _ _ _ _ _ _ Hq Eq) as [Hi Hacc].
  pose proof (quantize_storable _ _ _ _ _ _ Eq Hs Hx) as Hs1.
  destruct (IH (v_idx v :: known) q1 (<[v_idx v := r]> data) Hs1 Hok Hc)
    as (inds & data' & q' & -> & H1 & H2 & H3 & H4 & H5 & H6 & H7 & H8).
  cbn [mbind option_bind]. exists (i :: inds), data', q'. rewrite length_insert in H4.
  rewrite fmap_cons, (leads_radius q q1 Hl1) in *.
  split_and!; try done; [by etrans | simpl; lia | by constructor | | |].
  - intros j Hj. rewrite H6 by set_solver. apply list_lookup_insert_ne. set_solver.
  - intros Hnd j Hj. apply list.NoDup_cons in Hnd as [Hn Hnd].
    apply elem_of_cons in Hj as [-> | Hj].
    + exists x, r. by rewrite H6, list_lookup_insert_eq.
    + destruct (H7 Hnd j Hj) as (y & r' & E1 & E2 & E3). exists y, r'.
      rewrite list_lookup_insert_ne in E1 by (by intros <-). by rewrite (leads_accurate q q1).
  - intros d qf dec tl Hqf Hf Ha Hl. cbn [recover_visits app].
    assert (is_Some (dec !! v_idx v)) as [y ->] by (apply lookup_lt_is_Some; lia). cbn [mbind option_bind].
    rewrite <- (agree_sources known data dec v Ha Hk), El. cbn [mbind option_bind].
    destruct (recover_follows d q qf x (v_fun v l) i r q1 Hq Eq) as (d1 & -> & Hf1); [by etrans | done |].
    cbn [mbind option_bind].
    destruct (H8 d1 qf (<[v_idx v := r]> dec) tl Hqf Hf1) as (d' & dec' & -> & Hf' & Hl' & Ha').
    + by apply agree_write.
    + by rewrite !length_insert.
    + exists d', dec'. rewrite length_insert in Hl'. split_and!; try done.
      by rewrite reverse_cons, <- app_assoc.
Qed.

(** Arrays of the same length that agree everywhere are the same. *)
Lemma agree_all known a b :
  length a = length b -> known ≡ₚ seq 0 (length a) -> agree known a b -> a = b.
Proof.
  intros Hl Hp Ha. unfold agree in Ha. rewrite Hp in Ha. apply list_eq. intros i.
  destruct (decide (i < length a)%nat) as [Hi | Hi].
  - rewrite list.Forall_forall in Ha. apply Ha, elem_of_seq. lia.
  - rewrite !lookup_ge_None_2; [done | lia | lia].
Qed.

Lemma accurate_all (P : Z -> Z -> Prop) known (data data' : list Z) :
  length data' = length data -> known ≡ₚ seq 0 (length data) ->
  (forall i, i ∈ known -> exists x r, data !! i = Some x /\ data' !! i = Some r /\ P x r) ->
  Forall2 P data data'.
Proof.
  intros Hl Hp H. apply Forall2_same_length_lookup. split; [done |]. intros i x r Ex Er.
  destruct (H i) as (x' & r' & Ex' & Er' & HP); [| congruence].
  rewrite Hp. apply elem_of_seq. apply lookup_lt_Some in Ex. lia.
Qed.

(** An order that visits every value once, and needs nothing to begin with. *)
Lemma quantize_visits_all vs q data :
  storable q -> visits_ok q data vs -> causal [] vs -> v_idx <$> vs ≡ₚ seq 0 (length data) ->
  exists inds rs q', quantize_visits q data vs = Some (inds, rs, q') /\
    leads q q' /\ storable q' /\ length inds = length data /\
    Forall (fun i => 0 <= i < 2 * q_radius q) inds /\ Forall2 (accurate q) data rs /\
    forall d qf dec, leads q' qf -> follows d q qf -> length dec = length data ->
      exists d', recover_visits d dec vs inds = Some (rs, [], d') /\ follows d' q' qf.
Proof.
  intros Hs Hok Hc Hp.
  destruct (quantize_visits_spec vs [] q data Hs Hok Hc)
    as (inds & rs & q' & E & H1 & H2 & H3 & H4 & H5 & _ & H7 & H8).
  exists inds, rs, q'. split_and!; try done.
  - rewrite H3, <- (length_fmap v_idx), Hp. by rewrite length_seq.
  - apply (accurate_all _ (v_idx <$> vs)); [done | done |]. apply H7. rewrite Hp. apply NoDup_seq.
  - intros d qf dec Hqf Hf Hl. destruct (H8 d qf dec [] Hqf Hf) as (d' & dec' & E' & Hf' & Hl' & Ha'); [constructor | done |].
    rewrite app_nil_r in E'. exists d'. split; [| done]. rewrite E'. do 3 f_equal. symmetry.
    eapply agree_all; [| | exact Ha']; [congruence |]. rewrite app_nil_r, reverse_Permutation, H4. exact Hp.
Qed.

End traversal.

(** ** No prediction *)

Module NoPrediction.
Section noprediction.

Context {Q : Type} `{HQ : !QuantizerInterface Q}.

(** The decomposition is its quantizer; the prediction is always 0. *)
Fixpoint compress (q : Q) (data : list Z) : list Z * list Z * Q :=
  match data with
  | [] => ([], [], q)
  | x :: data =>
      let '(i, r, q) := q_quantize q x 0 in
      let '(inds, rs, q) := compress q data in
      (i :: inds, r :: rs, q)
  end.

Fixpoint decompress (q : Q) (quant_inds : list Z) : option (list Z) :=
  match quant_inds with
  | [] => Some []
  | i :: inds =>
      '(r, q) ← q_recover q 0 i;
      rs ← decompress q inds;
      Some (r :: rs)
  end.

(** The radius of the interface, which is not overridden. *)
Definition get_radius (q : Q) : Z := 0.

Definition domain (q : Q) (data : list Z) : Prop :=
  fresh q /\ storable q /\ Forall (fun x => is_u64 x /\ quantizable q x 0) data.

Lemma nopred_spec data : forall q inds rs q',
  storable q -> Forall (fun x => is_u64 x /\ quantizable q x 0) data ->
  compress q data = (inds, rs, q') ->
  leads q q' /\ storable q' /\ length inds = length data /\
  Forall (fun i => 0 <= i < 2 * q_radius q) inds /\ Forall2 (accurate q) data rs /\
  forall d qf, leads q' qf -> follows d q qf -> decompress d inds = Some rs.
Proof.
  induction data as [| x data IH]; intros q inds rs q' Hs Hd; cbn [compress].
  { intros. simplify_eq. split_and!; done || constructor. }
  apply Forall_cons_iff in Hd as [[Hx Hq] Hd].
  destruct (q_quantize q x 0) as [[i r] q1] eqn:E. destruct (compress q1 data) as [[is1 rs1] q2] eqn:E1.
  intros. simplify_eq.
  pose proof (quantize_leads _ _ _ _ _ _ E) as Hl. destruct (quantize_index _ _ _ _ _ _ Hq E) as [Hi Ha].
  destruct (IH q1 is1 rs1 q') as (H1 & H2 & H3 & H4 & H5 & H6); [| | done |].
  - by apply (quantize_storable _ _ _ _ _ _ E).
  - eapply Forall_impl; [| exact Hd]. intros y [? ?]. split; [done |]. by apply (leads_quantizable q q1).
  - split_and!; [by etrans | done | simpl; lia | | |].
    + constructor; [done |]. by rewrite <- (leads_radius q q1 Hl).
    + constructor; [done |]. eapply Forall2_impl; [| exact H5]. intros y r'. by apply leads_accurate.
    + intros d qf Hqf Hf. cbn [decompress].
      destruct (recover_follows d q qf x 0 i r q1 Hq E) as (d' & -> & Hf'); [by etrans | done |].
      cbn [mbind option_bind]. by rewrite (H6 d' qf).
Qed.

#[export] Program Instance noprediction : DecompositionInterface Q := {
  d_compress q data := Some (compress q data);
  d_decompress := decompress;
  d_radius := get_radius;
  d_size_est _ := 0;
  d_save q := Some (q_save q);
  d_load := q_load;
  d_domain := domain;
  d_bound := q_radius;
  d_accurate := accurate;
  d_peer _ _ := True
}.
Next Obligation.
  intros d data (Hf & Hs & Hd). destruct (compress d data) as [[inds rs] d'] eqn:E.
  destruct (nopred_spec data d inds rs d' Hs Hd E) as (H1 & H2 & H3 & H4 & H5 & H6).
  exists inds, rs, d'. split_and!; try done. eexists. split; [done |]. intros e0 tl rem _ Hrem.
  destruct (load_follows e0 d d' tl rem) as (e & rem' & E1 & E2 & E3); try (done || lia).
  exists e, rem'. split; [done |]. split; [lia |]. by apply (H6 e d').
Qed.

End noprediction.
End NoPrediction.

(** ** Prediction by the previous value *)

Module LorenzoRegression.
Section lorenzo.

Context {Q : Type} `{HQ : !QuantizerInterface Q}.

(** The contents of [dec_data] before it is written. *)
Variable garbage : nat -> Z.

(** The decomposition for [N = 1]: the number of values of its configuration, and the
    quantizer. *)
Record Decomposition := { conf_num : nat; quantizer : Q }.

(** The loops over [data[0]], predicted as 0, and [data[i]] predicted by [data[i - 1]]. *)
Definition visits_1d (num : nat) : list visit :=
  {| v_idx := 0; v_src := []; v_fun := fun _ => 0 |}
    :: ((fun i => {| v_idx := i; v_src := [i - 1]%nat; v_fun := hd 0 |}) <$> seq 1 (num - 1)).

Definition compress_1d (d : Decomposition) (data : list Z) : option (list Z * list Z * Decomposition) :=
  '(quant_bins, data, q) ← quantize_visits (quantizer d) data (visits_1d (conf_num d));
  Some (quant_bins, data, {| conf_num := conf_num d; quantizer := q |}).

Definition decompress_1d (d : Decomposition) (quant_inds : list Z) : option (list Z) :=
  '(dec_data, _, _) ← recover_visits (quantizer d) (garbage <$> seq 0 (conf_num d)) (visits_1d (conf_num d))
    quant_inds;
  Some dec_data.

Definition save (d : Decomposition) : list Z := q_save (quantizer d).

(** [size_est]: for [N = 1] only the quantizer counts, and the Huffman encoders that are not
    used and have no tree. *)
Definition size_est (d : Decomposition) : Z :=
  q_size_est (quantizer d) + SzHuffman.size_est 0 + SzHuffman.size_est 0.

(** [remaining_length -= c_pos - c], where [c_pos] is the position before and [c] the one
    after: the length grows by what was read.  It wraps around as a [size_t]. *)
Definition load (d : Decomposition) (c : list Z) (remaining_length : Z)
    : option (Decomposition * list Z * Z) :=
  '(q, c', rem) ← q_load (quantizer d) c remaining_length;
  Some ({| conf_num := conf_num d; quantizer := q |}, c',
        u64 (rem + (Z.of_nat (length c) - Z.of_nat (length c')))).

(** ** The law of the interface *)

Lemma visits_idx num : (0 < num)%nat -> v_idx <$> visits_1d num = seq 0 num.
Proof.
  intros Hn. unfold visits_1d. rewrite fmap_cons, <- list_fmap_compose. simpl.
  destruct num as [| num]; [lia |]. simpl. rewrite Nat.sub_0_r. f_equal. by apply list_fmap_id.
Qed.

Lemma visits_causal num : causal [] (visits_1d num).
Proof.
  unfold visits_1d. split; [constructor |]. cbn [v_idx].
  assert (forall n i known, (i - 1)%nat ∈ known -> causal known
    ((fun i => {| v_idx := i; v_src := [i - 1]%nat; v_fun := hd 0 |}) <$> seq i n)) as H.
  { induction n as [| n IH]; intros i known Hk; [done |]. cbn [seq]. rewrite fmap_cons.
    split; [by repeat constructor |]. apply IH. cbn [v_idx]. rewrite Nat.sub_succ, Nat.sub_0_r. set_solver. }
  apply H. set_solver.
Qed.

Definition domain (d : Decomposition) (data : list Z) : Prop :=
  fresh (quantizer d) /\ storable (quantizer d) /\ conf_num d = length data /\ (0 < length data)%nat /\
  visits_ok (quantizer d) data (visits_1d (length data)).

#[export] Program Instance lorenzo_1d : DecompositionInterface Decomposition := {
  d_compress := compress_1d;
  d_decompress := decompress_1d;
  d_radius d := q_radius (quantizer d);
  d_size_est := size_est;
  d_save d := Some (save d);
  d_load := load;
  d_domain := domain;
  d_bound d := q_radius (quantizer d);
  d_accurate d := accurate (quantizer d);
  d_peer d e := conf_num e = conf_num d
}.
Next Obligation.
  intros d data (Hf & Hs & Hn & Hpos & Hok).
  destruct (quantize_visits_all _ _ _ Hs Hok (visits_causal _)) as (inds & rs & q' & E & H1 & H2 & H3 & H4 & H5 & H6).
  { by rewrite visits_idx. }
  exists inds, rs, {| conf_num := conf_num d; quantizer := q' |}. unfold compress_1d. rewrite Hn, E.
  split_and!; try done. eexists. split; [done |]. intros e0 tl rem Hpeer Hrem. unfold save in *. cbn [quantizer] in *.
  destruct (load_follows (quantizer e0) (quantizer d) q' tl rem) as (e & rem' & E1 & E2 & E3); try (done || lia).
  exists {| conf_num := length data; quantizer := e |}, (u64 (rem' + Z.of_nat (length (q_save q')))).
  unfold load. rewrite E1. cbn [mbind option_bind]. split; [| split].
  - do 3 f_equal; [congruence |]. rewrite length_app. lia.
  - rewrite u64_id by (unfold is_u64; lia). lia.
  - destruct (H6 e q' (garbage <$> seq 0 (length data))) as (d' & E' & _); [done | done | by rewrite length_fmap, length_seq |].
    unfold decompress_1d. cbn [conf_num quantizer]. by rewrite E'.
Qed.

End lorenzo.

(** ** Properties *)

#[local] Existing Instance LinearQuantizer.linear_quantizer.

(** C17: predicting every value by the reconstruction of the one before: each value is replaced
    by one within the error bound, and the decompressor, loaded from what was saved, whatever
    follows it, reconstructs these values. *)
Theorem lorenzo_1d_roundtrip garbage (d e0 : Decomposition (Q := LinearQuantizer.LinearQuantizer)) data tl rem :
  domain d data -> conf_num e0 = conf_num d ->
  exists inds rs d', compress_1d d data = Some (inds, rs, d') /\
    Forall2 (LinearQuantizer.bounded (quantizer d)) data rs /\
    (Z.of_nat (length (save d')) <= rem < 2 ^ 62 -> exists e rem',
       load e0 (save d' ++ tl) rem = Some (e, tl, rem') /\ decompress_1d garbage e inds = Some rs).
Proof.
  intros Hd Hp. destruct (@d_correct _ (lorenzo_1d garbage) d data Hd)
    as (inds & rs & d' & E & _ & _ & Hacc & saved & Es & H). injection Es as <-.
  exists inds, rs, d'. split; [exact E |]. split; [exact Hacc |]. intros Hrem.
  destruct (H e0 tl rem Hp Hrem) as (e & rem' & E1 & _ & E2). eauto.
Qed.

(** [load] leaves a remaining length that is greater than the one before, by the size of
    what was read but for one byte; so the checks of what is loaded next cannot fail. *)
Theorem lorenzo_remaining_length num q0 q tl rem :
  LinearQuantizer.fits q -> Z.of_nat (length (LinearQuantizer.save q)) <= rem < 2 ^ 62 ->
  exists e, load {| conf_num := num; quantizer := q0 |} (LinearQuantizer.save q ++ tl) rem
    = Some (e, tl, rem - 1 + Z.of_nat (length (LinearQuantizer.save q))).
Proof.
  intros Hf Hrem. unfold load. cbn [quantizer q_load LinearQuantizer.linear_quantizer].
  rewrite LinearQuantizer.quantizer_load_save by (done || lia). cbn [mbind option_bind].
  pose proof (LinearQuantizer.length_save q) as Hl. eexists. do 3 f_equal. rewrite length_app, u64_id by (unfold is_u64; lia). lia.
Qed.

(** ** Witnesses *)

(** The numbers 1.0, 1.5, 1.5 and 100.0 with an error bound of 0.5. *)
Definition sample : list Z :=
  [0x3ff0000000000000; 0x3ff8000000000000; 0x3ff8000000000000; 0x4059000000000000].
Definition sample_quantizer : LinearQuantizer.LinearQuantizer :=
  LinearQuantizer.mk [] 0 0x3fe0000000000000 0x4000000000000000 64.

Lemma lorenzo_1d_roundtrip_witness :
  exists inds rs d', compress_1d {| conf_num := 4; quantizer := sample_quantizer |} sample
      = Some (inds, rs, d') /\
    Forall2 (LinearQuantizer.bounded sample_quantizer) sample rs /\
    (Z.of_nat (length (save d')) <= 100 < 2 ^ 62 -> exists e rem',
       load {| conf_num := 4; quantizer := LinearQuantizer.new_default |} (save d' ++ [7]) 100
         = Some (e, [7], rem') /\ decompress_1d (fun _ => 0) e inds = Some rs).
Proof.
  apply (lorenzo_1d_roundtrip (fun _ => 0) {| conf_num := 4; quantizer := sample_quantizer |}
    {| conf_num := 4; quantizer := LinearQuantizer.new_default |} sample [7] 100); [| done].
  split; [done |]. split; [by repeat split |]. split; [done |]. split; [simpl; lia |].
  vm_compute. by repeat split.
Defined.

Lemma lorenzo_remaining_length_witness :
  exists e, load {| conf_num := 4; quantizer := LinearQuantizer.new_default |}
      (LinearQuantizer.save sample_quantizer ++ [7]) 100
    = Some (e, [7], 100 - 1 + Z.of_nat (length (LinearQuantizer.save sample_quantizer))).
Proof.
  apply (lorenzo_remaining_length 4 LinearQuantizer.new_default sample_quantizer [7] 100).
  - by repeat split.
  - by vm_compute.
Defined.

End LorenzoRegression.
