(* ===== verification/SzMeta.v ===== *)
(** * SzMeta: the predictors of the decomposition for three dimensions

    Models [SZ3/utils/MetaDef.hpp], [SZ3/predictor/MetaLorenzoPredictor.hpp] and
    [SZ3/predictor/MetaRegressionPredictor.hpp] at [T = double]: the prediction of a value from
    those before it in a padded buffer, the regression of a block and the storage of its
    coefficients.  The coefficients are [float]s. *)

From Stdlib Require Import ZArith Lia.
From S2P Require Import Prelude Bytes Float64 Float32 SzBytes Stl SzHuffman SzEncoder SzDecomp.

Module Meta.
Import MemoryUtil.

(** ** Definitions of [MetaDef.hpp] *)

Definition SELECTOR_LORENZO : Z := 0.
Definition SELECTOR_REGRESSION : Z := 1.
Definition SELECTOR_LORENZO_2LAYER : Z := 2.
Definition RegCoeffRadius : Z := 32768.
Definition RegCoeffCapacity : Z := 65536.

(** [RegErrThreshold], 0.1 as a [float]. *)
Definition RegErrThreshold : Z := 0x3dcccccd.

(** The literals 0.5, 0.81 and 1.22, and those for two layers 1.08, 2.76 and 6.8. *)
Definition LorenzeNoise (pred_dim : Z) : Z :=
  if pred_dim =? 3 then 0x3ff3851eb851eb85 else if pred_dim =? 2 then 0x3fe9eb851eb851ec else 0x3fe0000000000000.
Definition Lorenze2LayerNoise (pred_dim : Z) : Z :=
  if pred_dim =? 3 then 0x401b333333333333 else if pred_dim =? 2 then 0x4006147ae147ae14 else 0x3ff147ae147ae148.

Record meta_params := {
  block_size : Z;
  prediction_dim : Z;
  use_lorenzo : bool;
  use_lorenzo_2layer : bool;
  use_regression_linear : bool;
  lorenzo_padding_layer : Z;
  capacity : Z;
  regression_param_eb_independent : Z;
  regression_param_eb_linear : Z;
  reg_eb_base : Z;
  reg_eb_1 : Z;
  sample_ratio : Z;
  lossless : bool
}.

(** The constructor, with the defaults of what the decomposition does not give. *)
Definition make_params (bs pd : Z) (lo lo2 url : bool) (precision : Z) : meta_params :=
  let reg_eb_1 := f32_of_Z bs in
  let linear := f32_div (f32_div (f32_mul RegErrThreshold precision) (f32_of_Z 4)) (f32_of_Z bs) in
  {| block_size := bs; prediction_dim := pd; use_lorenzo := lo; use_lorenzo_2layer := lo2; use_regression_linear := url;
     lorenzo_padding_layer := 2; capacity := 0; regression_param_eb_independent := f32_mul reg_eb_1 linear;
     regression_param_eb_linear := linear; reg_eb_base := RegErrThreshold; reg_eb_1 := reg_eb_1;
     sample_ratio := f32_of_Z 1; lossless := true |}.

(** The bytes of the structure; those between the members have no meaning. *)
Definition params_bytes (padding : nat -> Z) (p : meta_params) : list Z :=
  le_bytes 4 (u32 (block_size p)) ++ le_bytes 4 (u32 (prediction_dim p)) ++ le_bytes 1 (Z.b2z (use_lorenzo p))
    ++ le_bytes 1 (Z.b2z (use_lorenzo_2layer p)) ++ le_bytes 1 (Z.b2z (use_regression_linear p)) ++ le_bytes 1 (u8 (padding 0%nat))
    ++ le_bytes 4 (u32 (lorenzo_padding_layer p)) ++ le_bytes 4 (u32 (capacity p))
    ++ le_bytes 4 (regression_param_eb_independent p) ++ le_bytes 4 (regression_param_eb_linear p)
    ++ le_bytes 4 (reg_eb_base p) ++ le_bytes 4 (reg_eb_1 p) ++ le_bytes 4 (sample_ratio p)
    ++ le_bytes 1 (Z.b2z (lossless p)) ++ le_bytes 1 (u8 (padding 1%nat)) ++ le_bytes 1 (u8 (padding 2%nat)) ++ le_bytes 1 (u8 (padding 3%nat)).

Definition sizeof_params : nat := 44.

Definition params_of (c : list Z) : option meta_params :=
  '(bs, c) ← read_var 4 c; '(pd, c) ← read_var 4 c;
  '(lo, c) ← read_var 1 c; '(lo2, c) ← read_var 1 c; '(url, c) ← read_var 1 c; '(_, c) ← read_var 1 c;
  '(pad, c) ← read_var 4 c; '(cap, c) ← read_var 4 c;
  '(indep, c) ← read_var 4 c; '(linear, c) ← read_var 4 c; '(base, c) ← read_var 4 c; '(eb1, c) ← read_var 4 c;
  '(ratio, c) ← read_var 4 c; '(ll, _) ← read_var 1 c;
  Some {| block_size := i32 bs; prediction_dim := i32 pd; use_lorenzo := negb (lo =? 0); use_lorenzo_2layer := negb (lo2 =? 0);
          use_regression_linear := negb (url =? 0); lorenzo_padding_layer := i32 pad; capacity := i32 cap;
          regression_param_eb_independent := indep; regression_param_eb_linear := linear; reg_eb_base := base;
          reg_eb_1 := eb1; sample_ratio := ratio; lossless := negb (ll =? 0) |}.

(** ** Lorenzo *)

(** A term of a prediction: whether it is subtracted, its factor, and how far back it lies in
    each dimension. *)
Definition term : Type := bool * Z * (nat * nat * nat).

Definition lorenzo_1d : list term := [(false, 1, (0, 0, 1)%nat)].
Definition lorenzo_1d_2layer : list term := [(false, 2, (0, 0, 1)%nat); (true, 1, (0, 0, 2)%nat)].

(** The two dimensions are the first and the last. *)
Definition lorenzo_2d : list term :=
  [(false, 1, (0, 0, 1)%nat); (false, 1, (1, 0, 0)%nat); (true, 1, (1, 0, 1)%nat)].
Definition lorenzo_2d_2layer : list term :=
  [(false, 2, (1, 0, 0)%nat); (true, 1, (2, 0, 0)%nat); (false, 2, (0, 0, 1)%nat); (true, 4, (1, 0, 1)%nat);
   (false, 2, (2, 0, 1)%nat); (true, 1, (0, 0, 2)%nat); (false, 2, (1, 0, 2)%nat); (true, 1, (2, 0, 2)%nat)].

Definition lorenzo_3d : list term :=
  [(false, 1, (0, 0, 1)%nat); (false, 1, (0, 1, 0)%nat); (false, 1, (1, 0, 0)%nat);
   (true, 1, (0, 1, 1)%nat); (true, 1, (1, 0, 1)%nat); (true, 1, (1, 1, 0)%nat); (false, 1, (1, 1, 1)%nat)].
Definition lorenzo_3d_2layer : list term :=
  [(false, 2, (0, 0, 1)%nat); (true, 1, (0, 0, 2)%nat); (false, 2, (0, 1, 0)%nat); (true, 4, (0, 1, 1)%nat);
   (false, 2, (0, 1, 2)%nat); (true, 1, (0, 2, 0)%nat); (false, 2, (0, 2, 1)%nat); (true, 1, (0, 2, 2)%nat);
   (false, 2, (1, 0, 0)%nat); (true, 4, (1, 0, 1)%nat); (false, 2, (1, 0, 2)%nat); (true, 4, (1, 1, 0)%nat);
   (false, 8, (1, 1, 1)%nat); (true, 4, (1, 1, 2)%nat); (false, 2, (1, 2, 0)%nat); (true, 4, (1, 2, 1)%nat);
   (false, 2, (1, 2, 2)%nat); (true, 1, (2, 0, 0)%nat); (false, 2, (2, 0, 1)%nat); (true, 1, (2, 0, 2)%nat);
   (false, 2, (2, 1, 0)%nat); (true, 4, (2, 1, 1)%nat); (false, 2, (2, 1, 2)%nat); (true, 1, (2, 2, 0)%nat);
   (false, 2, (2, 2, 1)%nat); (true, 1, (2, 2, 2)%nat)].

(** The prediction that is chosen for a dimension. *)
Definition lorenzo_terms (use_2layer : bool) (pred_dim : Z) : list term :=
  if use_2layer then
    if pred_dim =? 3 then lorenzo_3d_2layer else if pred_dim =? 2 then lorenzo_2d_2layer else lorenzo_1d_2layer
  else if pred_dim =? 3 then lorenzo_3d else if pred_dim =? 2 then lorenzo_2d else lorenzo_1d.

(** [data_pos[- a * dim0_offset - b * dim1_offset - c]]; [None] before the array. *)
Definition back (a : list Z) (pos o : nat) : option Z := if (o <=? pos)%nat then a !! (pos - o)%nat else None.
Definition term_offset (dim0_offset dim1_offset : nat) (t : term) : nat :=
  let '(a, b, c) := t.2 in (a * dim0_offset + b * dim1_offset + c)%nat.

Definition scale (factor x : Z) : Z := if factor =? 1 then x else f64_mul (f64_of_Z factor) x.

(** The sum, from the left. *)
Definition lorenzo_predict (ts : list term) (a : list Z) (pos dim0_offset dim1_offset : nat) : option Z :=
  xs ← mapM (fun t => back a pos (term_offset dim0_offset dim1_offset t)) ts;
  match zip ts xs with
  | [] => None
  | (t, x) :: l =>
      Some (foldl (fun acc tx => (if tx.1.1.1 : bool then f64_sub else f64_add) acc (scale tx.1.1.2 tx.2))
              (scale t.1.2 x) l)
  end.

(** A prediction is defined where all of its terms are. *)
Lemma lorenzo_predict_total ts a pos dim0_offset dim1_offset : ts <> [] -> (pos < length a)%nat ->
  Forall (fun t => term_offset dim0_offset dim1_offset t <= pos)%nat ts -> is_Some (lorenzo_predict ts a pos dim0_offset dim1_offset).
Proof.
  intros Hne Hpos Ht. unfold lorenzo_predict.
  assert (is_Some (mapM (fun t => back a pos (term_offset dim0_offset dim1_offset t)) ts)) as [xs E].
  { apply mapM_is_Some_2. eapply Forall_impl; [| exact Ht]. intros t Hle. unfold compose, back.
    rewrite (proj2 (Nat.leb_le _ _)) by done. apply lookup_lt_is_Some. lia. }
  rewrite E. cbn [mbind option_bind]. pose proof (Forall2_length (mapM_Some_1 _ _ _ E)) as El.
  destruct ts as [| t ts], xs as [| x xs]; done.
Qed.

Lemma lorenzo_total_3d a pos o0 o1 : (o0 + o1 + 1 <= pos < length a)%nat -> is_Some (lorenzo_predict lorenzo_3d a pos o0 o1).
Proof.
  intros Hpos. apply lorenzo_predict_total; [done | lia |]. unfold lorenzo_3d, term_offset. repeat (constructor; [cbn; lia |]). constructor.
Qed.

(** ** Regression *)

(** [reg_params_pos[0] * (float) i + reg_params_pos[1] * (float) j + ...] as a [double]. *)
Definition regression_predict_3d (reg_params : list Z) (i j k : nat) : option Z :=
  match reg_params with
  | [c0; c1; c2; c3] =>
      Some (f64_of_f32 (f32_add (f32_add (f32_add (f32_mul c0 (f32_of_Z (Z.of_nat i))) (f32_mul c1 (f32_of_Z (Z.of_nat j))))
                                         (f32_mul c2 (f32_of_Z (Z.of_nat k)))) c3))
  | _ => None
  end.

(** The sums over a block.  [float += double] adds in [double] and rounds. *)
Definition acc_double (s x : Z) : Z := f32_of_f64 (f64_add (f64_of_f32 s) x).

(** The innermost loop, over the values of a line: [sum_y] and [fz]. *)
Definition line_sums (line : list Z) (fz : Z) : Z * Z :=
  foldl (fun s kx => (acc_double s.1 kx.2, acc_double s.2 (f64_mul kx.2 (f64_of_Z (Z.of_nat kx.1)))))
    (f32_of_Z 0, fz) (imap pair line).

(** The loop over the lines of a plane: [sum_x], [fy] and [fz]. *)
Definition plane_sums (plane : list (list Z)) (fy fz : Z) : Z * Z * Z :=
  foldl (fun s jl =>
           let '(sum_x, fy, fz) := s in
           let '(sum_y, fz) := line_sums jl.2 fz in
           (f32_add sum_x sum_y, f32_add fy (f32_mul sum_y (f32_of_Z (Z.of_nat jl.1))), fz))
    (f32_of_Z 0, fy, fz) (imap pair plane).

(** The loop over the planes: [fx], [fy], [fz] and [f]. *)
Definition block_sums (planes : list (list (list Z))) : Z * Z * Z * Z :=
  foldl (fun s ip =>
           let '(fx, fy, fz, f) := s in
           let '(sum_x, fy, fz) := plane_sums ip.2 fy fz in
           (f32_add fx (f32_mul sum_x (f32_of_Z (Z.of_nat ip.1))), fy, fz, f32_add f sum_x))
    (f32_of_Z 0, f32_of_Z 0, f32_of_Z 0, f32_of_Z 0) (imap pair planes).

(** [(2 * fx / (size_x - 1) - f) * 6 * coeff / (size_x + 1)] *)
Definition slope (fx f coeff : Z) (size : nat) : Z :=
  let n := Z.of_nat size in
  f32_div (f32_mul (f32_mul (f32_sub (f32_div (f32_mul (f32_of_Z 2) fx) (f32_of_Z (n - 1))) f) (f32_of_Z 6)) coeff)
    (f32_of_Z (n + 1)).

(** [(size_x - 1) * reg_params_pos[0] / 2] *)
Definition half (size : nat) (c : Z) : Z := f32_div (f32_mul (f32_of_Z (Z.of_nat size - 1)) c) (f32_of_Z 2).

(** The lines of a block. *)
Definition block_lines (data : list Z) (data_pos size_x size_y size_z dim0_offset dim1_offset : nat)
    : option (list (list (list Z))) :=
  mapM (fun i => mapM (fun j => mapM (fun k => data !! (data_pos + i * dim0_offset + j * dim1_offset + k)%nat)
                                  (seq 0 size_z)) (seq 0 size_y)) (seq 0 size_x).

Definition compute_regression_coeffcients_3d (data : list Z) (data_pos size_x size_y size_z dim0_offset dim1_offset : nat)
    : option (list Z) :=
  lines ← block_lines data data_pos size_x size_y size_z dim0_offset dim1_offset;
  let '(fx, fy, fz, f) := block_sums lines in
  let coeff := f32_of_f64 (f64_div (f64_of_Z 1) (f64_of_Z (Z.of_nat (size_x * size_y * size_z)))) in
  let c0 := slope fx f coeff size_x in
  let c1 := slope fy f coeff size_y in
  let c2 := slope fz f coeff size_z in
  let c3 := f32_sub (f32_mul f coeff) (f32_add (f32_add (half size_x c0) (half size_y c1)) (half size_z c2)) in
  Some [c0; c1; c2; c3].

(** [pred + 2 * (type_val - intv_radius) * precision], as a [float]. *)
Definition reg_coeff_of (pred precision type_val : Z) : Z :=
  f32_of_f64 (f64_add (f64_of_f32 pred) (f64_mul (f64_of_Z (2 * (type_val - RegCoeffRadius))) precision)).

(** The type, the coefficient that replaces it, and what is stored of it. *)
Definition quantize_reg_coeff (pred cur_data precision recip_precision : Z) : Z * Z * list Z :=
  let diff := f64_of_f32 (f32_sub cur_data pred) in
  let quant_diff := f64_add (f64_mul (f64_abs diff) recip_precision) (f64_of_Z 1) in
  let unpredictable := (0, cur_data, [cur_data]) in
  if f64_ltb quant_diff (f64_of_Z RegCoeffCapacity) then
    let quant_diff := if f64_ltb 0 diff then quant_diff else f64_neg quant_diff in
    let quant_index := f64_to_i32 (f64_div quant_diff (f64_of_Z 2)) + RegCoeffRadius in
    let decompressed_data := reg_coeff_of pred precision quant_index in
    if f64_leb (f64_abs (f64_of_f32 (f32_sub decompressed_data cur_data))) precision
    then (quant_index, decompressed_data, []) else unpredictable
  else unpredictable.

(** [recover_reg_coeff]: the coefficient and the values that are left. *)
Definition recover_reg_coeff (pred precision type_val : Z) (unpredictable : list Z) : option (Z * list Z) :=
  if type_val =? 0 then
    match unpredictable with
    | [] => None
    | x :: l => Some (x, l)
    end
  else Some (reg_coeff_of pred precision type_val, unpredictable).

(** The precisions of the coefficients, as [double]s. *)
Definition reg_precisions (p : meta_params) : list Z :=
  let linear := f64_of_f32 (regression_param_eb_linear p) in
  [linear; linear; linear; f64_of_f32 (regression_param_eb_independent p)].

(** [compress_regression_coefficient_3d]: the types, the coefficients and the values stored. *)
Fixpoint compress_regression_coefficient_3d (precisions prev params : list Z) : list Z * list Z * list Z :=
  match precisions, prev, params with
  | precision :: precisions, pred :: prev, cur :: params =>
      let '(t, r, u) := quantize_reg_coeff pred cur precision (f64_div (f64_of_Z 1) precision) in
      let '(ts, rs, us) := compress_regression_coefficient_3d precisions prev params in
      (t :: ts, r :: rs, u ++ us)
  | _, _, _ => ([], [], [])
  end.

(** The loop over the coefficients of a block. *)
Fixpoint recover_block (precisions prev types unpredictable : list Z) : option (list Z * list Z * list Z) :=
  match precisions, prev with
  | precision :: precisions, pred :: prev =>
      match types with
      | [] => None
      | t :: types =>
          '(r, unpredictable) ← recover_reg_coeff pred precision t unpredictable;
          '(rs, types, unpredictable) ← recover_block precisions prev types unpredictable;
          Some (r :: rs, types, unpredictable)
      end
  | _, _ => Some ([], types, unpredictable)
  end.

(** The loop over the blocks. *)
Fixpoint recover_blocks (precisions prev : list Z) (n : nat) (types unpredictable : list Z) : option (list (list Z)) :=
  match n with
  | O => Some []
  | S n =>
      '(params, types, unpredictable) ← recover_block precisions prev types unpredictable;
      l ← recover_blocks precisions params n types unpredictable;
      Some (params :: l)
  end.

Section coefficients.

Context `{Order : !MapOrder}.
Variables (left_first : bool) (junk : Z).

Definition encode_regression_coefficients (types unpredictable : list Z) : option (list Z) :=
  encoded ← huffman_run left_first junk types (2 * RegCoeffRadius);
  Some (le_bytes 8 (Z.of_nat (length unpredictable)) ++ store_array 4 unpredictable ++ encoded).

(** The remaining length is not that of the buffer, but is checked.  The coefficients of each
    block, and what is left of the buffer. *)
Definition decode_regression_coefficients (c : list Z) (reg_count : nat) (p : meta_params)
    : option (list (list Z) * list Z) :=
  let remaining_length := Z.of_nat (4 * reg_count) in
  '(count, c, remaining_length) ← read_var_len 8 c remaining_length;
  '(unpredictable, c) ← read_array 4 count c;
  '(types, c) ← huffman_unrun c remaining_length (4 * reg_count);
  params ← recover_blocks (reg_precisions p) (replicate 4 (f32_of_Z 0)) reg_count types unpredictable;
  Some (params, c).

(** ** Laws *)

(** The structure is read back. *)
Record params_ok (p : meta_params) : Prop := {
  po_ints : Forall is_i32 [block_size p; prediction_dim p; lorenzo_padding_layer p; capacity p];
  po_floats : Forall is_u32 [regression_param_eb_independent p; regression_param_eb_linear p; reg_eb_base p; reg_eb_1 p;
                             sample_ratio p]
}.

Lemma make_params_ok bs pd lo lo2 url precision : is_i32 bs -> is_i32 pd -> params_ok (make_params bs pd lo lo2 url precision).
Proof.
  intros Hb Hp. split; cbn [make_params block_size prediction_dim lorenzo_padding_layer capacity
    regression_param_eb_independent regression_param_eb_linear reg_eb_base reg_eb_1 sample_ratio];
    repeat apply Forall_cons_2; try apply Forall_nil_2; try done; apply f32_range.
Qed.

Lemma length_params padding p : length (params_bytes padding p) = sizeof_params.
Proof. unfold params_bytes. by rewrite !length_app, !length_le_bytes. Qed.

Lemma read_u32 v tl : is_u32 v -> read_var 4 (le_bytes 4 v ++ tl) = Some (v, tl).
Proof. intros Hv. by apply read_var_le. Qed.

Lemma u8_ok x : 0 <= u8 x < 2 ^ (8 * Z.of_nat 1).
Proof. apply (Z.mod_pos_bound x 256). lia. Qed.

Lemma read_bool b tl : read_var 1 (le_bytes 1 (Z.b2z b) ++ tl) = Some (Z.b2z b, tl).
Proof. apply read_var_le. by destruct b. Qed.

Lemma params_roundtrip padding p tl : params_ok p -> params_of (params_bytes padding p ++ tl) = Some p.
Proof.
  intros [Hi Hf]. rewrite !Forall_cons_iff in Hi. rewrite !Forall_cons_iff in Hf. destruct Hi as (I1 & I2 & I3 & I4 & _), Hf as (F1 & F2 & F3 & F4 & F5 & _).
  unfold params_of, params_bytes. rewrite <- !app_assoc.
  repeat (first [rewrite read_u32 by (apply u32_range || assumption) | rewrite read_bool
    | rewrite (read_var_le 1 (u8 (padding _))) by apply u8_ok]; cbn [mbind option_bind]).
  rewrite !i32_u32 by done. destruct p as [bs pd b1 b2 b3 pad cap f1 f2 f3 f4 f5 b4]. cbn. by destruct b1, b2, b3, b4.
Qed.

(** A coefficient is stored, or can be computed from its type. *)
Definition explained (pred precision t r : Z) : Prop := t = 0 \/ r = reg_coeff_of pred precision t.

(** What is stored of the coefficients [rs] of types [ts]. *)
Definition stored (ts rs : list Z) : list Z := zip ts rs ≫= fun tr => if tr.1 =? 0 then [tr.2] else [].

Fixpoint block_explained (precisions prev ts rs : list Z) : Prop :=
  match precisions, prev with
  | precision :: precisions, pred :: prev =>
      match ts, rs with
      | t :: ts, r :: rs => explained pred precision t r /\ block_explained precisions prev ts rs
      | _, _ => False
      end
  | _, _ => ts = [] /\ rs = []
  end.

Lemma block_explained_length precisions : forall prev ts rs, block_explained precisions prev ts rs ->
  length prev = length precisions -> length ts = length precisions /\ length rs = length precisions.
Proof.
  induction precisions as [| precision precisions IH]; intros [| pred prev] ts rs H Hl; try done; [by destruct H as [-> ->] |].
  destruct ts as [| t ts], rs as [| r rs]; try done. destruct H as [_ H]. simpl in Hl.
  destruct (IH prev ts rs H) as [H1 H2]; simpl; lia.
Qed.

Lemma recover_block_spec precisions : forall prev ts rs types us, block_explained precisions prev ts rs ->
  recover_block precisions prev (ts ++ types) (stored ts rs ++ us) = Some (rs, types, us).
Proof.
  induction precisions as [| precision precisions IH]; intros prev ts rs types us H; [by destruct H as [-> ->] |].
  destruct prev as [| pred prev]; [by destruct H as [-> ->] |]. destruct ts as [| t ts], rs as [| r rs]; try done.
  destruct H as [He H]. cbn [recover_block app]. unfold stored. cbn [zip zip_with mbind list_bind fst snd].
  change (_ ++ (zip ts rs ≫= _)) with ((if t =? 0 then [r] else []) ++ stored ts rs). unfold recover_reg_coeff.
  destruct (Z.eqb_spec t 0) as [-> | Ht]; cbn [app mbind option_bind].
  - rewrite (IH prev ts rs types us H). done.
  - destruct He as [? | ->]; [done |]. rewrite (IH prev ts rs types us H). done.
Qed.

(** The blocks, each explained by the one before. *)
Fixpoint chain (precisions prev : list Z) (tss rss : list (list Z)) : Prop :=
  match tss, rss with
  | [], [] => True
  | ts :: tss, rs :: rss => block_explained precisions prev ts rs /\ chain precisions rs tss rss
  | _, _ => False
  end.

Lemma recover_blocks_spec precisions tss : forall prev rss, chain precisions prev tss rss ->
  forall us, us = mjoin (zip_with stored tss rss) ->
  recover_blocks precisions prev (length tss) (mjoin tss) us = Some rss.
Proof.
  induction tss as [| ts tss IH]; intros prev [| rs rss] H us ->; try done. destruct H as [Hb H].
  cbn [recover_blocks length zip_with]. change (mjoin (ts :: tss)) with (ts ++ mjoin tss).
  change (mjoin (stored ts rs :: zip_with stored tss rss)) with (stored ts rs ++ mjoin (zip_with stored tss rss)).
  rewrite recover_block_spec by done. cbn [mbind option_bind]. rewrite (IH rs rss H _ eq_refl). done.
Qed.

Lemma quantize_explained pred cur precision recip t r u :
  quantize_reg_coeff pred cur precision recip = (t, r, u) -> explained pred precision t r.
Proof.
  unfold quantize_reg_coeff. set (qd := f64_add _ _). set (i := f64_to_i32 _ + _). clearbody i. cbv zeta.
  destruct (f64_ltb qd _); [destruct (f64_leb _ precision) |]; rewrite !pair_equal_spec; intros [[Ht Hr] _].
  - right. by rewrite <- Hr, Ht.
  - by left.
  - by left.
Qed.

Lemma reg_coeff_cases pred cur precision recip t r u :
  quantize_reg_coeff pred cur precision recip = (t, r, u) -> u = [] \/ t = 0 /\ r = cur /\ u = [cur].
Proof.
  unfold quantize_reg_coeff. set (qd := f64_add _ _). set (i := f64_to_i32 _ + _). clearbody i. cbv zeta.
  destruct (f64_ltb qd _); [destruct (f64_leb _ precision) |]; rewrite !pair_equal_spec; intros [[<- <-] <-]; auto.
Qed.

#[local] Opaque quantize_reg_coeff.

Lemma compress_explained precisions : forall prev params ts rs us,
  compress_regression_coefficient_3d precisions prev params = (ts, rs, us) -> length prev = length precisions ->
  length params = length precisions -> block_explained precisions prev ts rs /\ length ts = length params.
Proof.
  induction precisions as [| precision precisions IH]; intros [| pred prev] [| cur params] ts rs us E H1 H2; try done.
  { by injection E as <- <- <-. }
  cbn [compress_regression_coefficient_3d] in E. destruct (quantize_reg_coeff _ _ _ _) as [[t r] u] eqn:Eq.
  destruct (compress_regression_coefficient_3d _ _ _) as [[ts' rs'] us'] eqn:Er. injection E as <- <- <-.
  apply IH in Er as [Hb Hl]; [| simpl in H1; lia | simpl in H2; lia]. cbn [block_explained length]. split; [| lia]. split; [| done].
  by apply quantize_explained in Eq.
Qed.

(** What is stored are coefficients that were computed. *)
Lemma compress_stored ps : forall prev params ts rs us,
  compress_regression_coefficient_3d ps prev params = (ts, rs, us) -> Forall is_u32 params -> Forall is_u32 us.
Proof.
  induction ps as [| p ps IH]; intros prev params ts rs us E H; [by injection E as <- <- <- |].
  destruct prev as [| pr prev], params as [| cur params]; try (by injection E as <- <- <-). cbn [compress_regression_coefficient_3d] in E.
  apply Forall_cons_iff in H as [Hc H]. destruct (quantize_reg_coeff _ _ _ _) as [[t r] u] eqn:Eq.
  destruct (compress_regression_coefficient_3d _ _ _) as [[ts1 rs1] us1] eqn:Er. rewrite !pair_equal_spec in E. destruct E as [_ <-].
  apply Forall_app. split; [| by apply (IH _ _ _ _ _ Er)]. apply reg_coeff_cases in Eq as [-> | (_ & _ & ->)]; [constructor | by apply Forall_cons_2].
Qed.

(** A coefficient is quantized to an index of the range, if it is not stored: 0 stands for those that are. *)
Definition index_ok (precision pred cur : Z) : Prop :=
  let '(t, _, u) := quantize_reg_coeff pred cur precision (f64_div (f64_of_Z 1) precision) in
  u = [] -> 0 < t < 2 * RegCoeffRadius.

Lemma quantize_in_range pred cur precision t r u : index_ok precision pred cur ->
  quantize_reg_coeff pred cur precision (f64_div (f64_of_Z 1) precision) = (t, r, u) ->
  u = (if t =? 0 then [r] else []) /\ 0 <= t < 2 * RegCoeffRadius.
Proof.
  intros Hi E. pose proof E as Ec. unfold index_ok in Hi. rewrite E in Hi.
  apply reg_coeff_cases in E as [-> | (-> & -> & ->)]; [| by split]. specialize (Hi eq_refl).
  rewrite (proj2 (Z.eqb_neq t 0)) by lia. split; [done | lia].
Qed.

Fixpoint indices_ok (precisions prev params : list Z) : Prop :=
  match precisions, prev, params with
  | precision :: precisions, pred :: prev, cur :: params =>
      index_ok precision pred cur /\ indices_ok precisions prev params
  | _, _, _ => True
  end.

(** Then those of type 0 are stored, and no others. *)
Lemma compress_in_range ps : forall prev params ts rs us,
  compress_regression_coefficient_3d ps prev params = (ts, rs, us) -> indices_ok ps prev params ->
  us = stored ts rs /\ Forall (fun t => 0 <= t < 2 * RegCoeffRadius) ts.
Proof.
  induction ps as [| p ps IH]; intros prev params ts rs us E H; [by injection E as <- <- <- |].
  destruct prev as [| pr prev], params as [| cur params]; try (by injection E as <- <- <-).
  cbn [compress_regression_coefficient_3d] in E. destruct H as [Hi H].
  destruct (quantize_reg_coeff _ _ _ _) as [[t r] u] eqn:Eq.
  destruct (compress_regression_coefficient_3d _ _ _) as [[ts1 rs1] us1] eqn:Er. rewrite !pair_equal_spec in E. destruct E as [[<- <-] <-].
  destruct (quantize_in_range _ _ _ _ _ _ Hi Eq) as [-> Ht]. destruct (IH _ _ _ _ _ Er H) as [-> HF]. split; [done |]. by constructor.
Qed.

(** The coefficients are decoded; three blocks are needed for the checks of the length. *)
Lemma coefficients_roundtrip p tss rss tl :
  chain (reg_precisions p) (replicate 4 (f32_of_Z 0)) tss rss -> SzHuffman.encodable (mjoin tss) ->
  Forall (fun ts => length ts = 4%nat) tss -> Forall is_u32 (mjoin (zip_with stored tss rss)) ->
  Z.of_nat (length (mjoin (zip_with stored tss rss))) < 2 ^ 64 -> (3 <= length tss)%nat ->
  exists bytes, encode_regression_coefficients (mjoin tss) (mjoin (zip_with stored tss rss)) = Some bytes /\
    decode_regression_coefficients (bytes ++ tl) (length tss) p = Some (rss, tl).
Proof.
  intros Hc He H4 Hu Hlen Hn.
  assert (length (mjoin tss) = 4 * length tss)%nat as El.
  { clear -H4. induction H4 as [| ts tss H H4 IH]; [done |]. change (mjoin (ts :: tss)) with (ts ++ mjoin tss). rewrite length_app, H, IH. simpl. lia. }
  destruct (SzHuffman.huffman_encoder_correct left_first junk (mjoin tss) He) as (h & e & E1 & E2 & H).
  unfold encode_regression_coefficients, huffman_run. rewrite E1. cbn [mbind option_bind]. rewrite E2. cbn [mbind option_bind].
  eexists. split; [done |]. destruct (H tl (Z.of_nat (4 * length tss) - Z.of_nat 8)) as [L D]; [lia |].
  unfold decode_regression_coefficients. rewrite <- !app_assoc, read_var_len_le; [| change (2 ^ (8 * Z.of_nat 8)) with (2 ^ 64); lia | lia].
  cbn [mbind option_bind]. rewrite read_array_le by done. cbn [mbind option_bind]. unfold huffman_unrun. rewrite L.
  cbn [mbind option_bind]. rewrite <- El, D. cbn [mbind option_bind].
  rewrite (recover_blocks_spec _ tss _ rss Hc _ eq_refl). done.
Qed.

(** One block with regression, or two, are refused: the length that is checked is 4 for each. *)
Lemma coefficients_refused c n p : (n <= 2)%nat -> decode_regression_coefficients c n p = None.
Proof.
  intros Hn. unfold decode_regression_coefficients, read_var_len. destruct (decide (n <= 1)%nat) as [H1 | H1].
  - by rewrite assert_false by (apply Z.leb_gt; lia).
  - assert (n = 2)%nat as -> by lia. rewrite assert_true by done. cbn [mbind option_bind].
    destruct (read_var 8 c) as [[count c'] |]; [| done]. cbn [mbind option_bind].
    destruct (read_array 4 count c') as [[us c''] |]; [| done]. cbn [mbind option_bind]. unfold huffman_unrun, SzHuffman.load, read_var_len.
    by rewrite (assert_false (Z.of_nat 4 <=? _)).
Qed.

End coefficients.

End Meta.
