(* ===== verification/SzLorenzo3.v ===== *)
(** * SzLorenzo3: the decomposition of SZ3 for three dimensions

    Models the three-dimensional part of [SZ3/decomposition/LorenzoRegressionDecomposition.hpp] at
    [T = double], with the predictors of [SzMeta].

    The data are cut into blocks; for each the Lorenzo predictor of one or two layers or the
    regression is chosen by estimates of their errors.  The data are not overwritten: the values
    that the decompressor will see go to a buffer of one layer of blocks, padded with zeros, whose
    last planes are copied to its beginning after each layer. *)

From Stdlib Require Import ZArith Lia.
From stdpp Require Import sets.
From S2P Require Import Prelude Bytes Float64 Float32 SzBytes Stl Quantizer SzHuffman SzEncoder SzConfig SzPipeline.
From S2P Require Import SzDecomp SzMeta.

Module Lorenzo3.
Import SzConfig (Config, dims, num, absErrorBound, blockSize, pred_dim, lorenzo, lorenzo2, regression).
Import MemoryUtil Meta.

(** ** [DSize_3d] and the places of the values *)

(** The extents, the size of a block and the layers of padding. *)
Record DSize := { d1 : nat; d2 : nat; d3 : nat; bs : nat; pad : nat }.

Definition blocks_of (d bs : nat) : nat := ((d - 1) / bs + 1)%nat.
Definition num_blocks (s : DSize) : nat := (blocks_of (d1 s) (bs s) * blocks_of (d2 s) (bs s) * blocks_of (d3 s) (bs s))%nat.
Definition dim0_offset (s : DSize) : nat := (d2 s * d3 s)%nat.
Definition dim1_offset (s : DSize) : nat := d3 s.
Definition buffer_dim0_offset (s : DSize) : nat := ((d2 s + pad s) * (d3 s + pad s))%nat.
Definition buffer_dim1_offset (s : DSize) : nat := (d3 s + pad s)%nat.

(** [size_x], [size_y], [size_z]: what is left at the end. *)
Definition extent (d bs i : nat) : nat := if ((i + 1) * bs <? d)%nat then bs else (d - i * bs)%nat.

(** Where [z_data_pos] and [pred_buffer_pos] are for a block. *)
Definition z_data_pos (s : DSize) (i j k : nat) : nat :=
  (i * bs s * dim0_offset s + j * bs s * dim1_offset s + k * bs s)%nat.
Definition pred_buffer_pos (s : DSize) (j k : nat) : nat := (j * bs s * buffer_dim1_offset s + k * bs s)%nat.

(** A value of a block: its place in the data, in the buffer and in the block. *)
Record cell := { c_data : nat; c_buffer : nat; c_i : nat; c_j : nat; c_k : nat }.

Definition cell_at (s : DSize) (i j k ii jj kk : nat) : cell :=
  {| c_data := z_data_pos s i j k + ii * dim0_offset s + jj * dim1_offset s + kk;
     c_buffer := pred_buffer_pos s j k + pad s * (buffer_dim0_offset s + buffer_dim1_offset s + 1)
                 + ii * buffer_dim0_offset s + jj * buffer_dim1_offset s + kk;
     c_i := ii; c_j := jj; c_k := kk |}%nat.

(** The loops over a block. *)
Definition cells (s : DSize) (i j k : nat) : list cell :=
  seq 0 (extent (d1 s) (bs s) i) ≫= fun ii => seq 0 (extent (d2 s) (bs s) j) ≫= fun jj =>
    cell_at s i j k ii jj <$> seq 0 (extent (d3 s) (bs s) k).

(** The loops over the blocks, with the copy after each layer. *)
Inductive event := Block (i j k : nat) | Copy.
#[export] Instance event_eq_dec : EqDecision event.
Proof. solve_decision. Defined.

Definition events (s : DSize) : list event :=
  seq 0 (blocks_of (d1 s) (bs s)) ≫= fun i =>
    (seq 0 (blocks_of (d2 s) (bs s)) ≫= fun j => Block i j <$> seq 0 (blocks_of (d3 s) (bs s))) ++ [Copy].

(** [memcpy(pred_buffer, pred_buffer + block_size * buffer_dim0_offset, ...)]; [None] when the
    parts overlap. *)
Definition copy_bottom (s : DSize) (buffer : list Z) : option (list Z) :=
  _ ← assert (pad s <=? bs s)%nat;
  let n := (pad s * buffer_dim0_offset s)%nat in
  Some (take n (drop (bs s * buffer_dim0_offset s) buffer) ++ drop n buffer).

(** The buffer after [memset]. *)
Definition pred_buffer (s : DSize) : list Z := replicate ((bs s + pad s) * buffer_dim0_offset s) 0.

(** ** The choice for a block *)

Section choice.

Variable s : DSize.
Variable data : list Z.
(** [mean_info], [conf.absErrorBound] and [params.prediction_dim]. *)
Variables (use_mean : bool) (mean : Z) (precision : Z) (pred_dim : Z).
Variables (use_lorenzo use_lorenzo_2layer use_regression : bool).

(** [err_lorenzo], [err_lorenzo_2layer] and [err_reg] *)
Definition errors : Type := Z * Z * Z.

(** [fabs(cur_data - pred) + noise], or the distance to the mean where that is less. *)
Definition lorenzo_error (cur_data pred noise : Z) : Z :=
  let e := f64_add (f64_abs (f64_sub cur_data pred)) noise in
  if use_mean then
    let m := f64_abs (f64_sub cur_data mean) in if f64_ltb m e then m else e
  else e.

Definition meta_block_error_estimation_3d (data_pos : nat) (reg_params : list Z) (e : errors) (xyz : nat * nat * nat)
    : option errors :=
  let '(err_lorenzo, err_lorenzo_2layer, err_reg) := e in
  let '(x, y, z) := xyz in
  let pos := (data_pos + x * dim0_offset s + y * dim1_offset s + z)%nat in
  cur_data ← data !! pos;
  err_reg ← (if use_regression then
               p ← regression_predict_3d reg_params x y z; Some (f64_add err_reg (f64_abs (f64_sub cur_data p)))
             else Some err_reg);
  '(pred2, noise2) ← (if use_lorenzo_2layer then
               p ← lorenzo_predict (lorenzo_terms true pred_dim) data pos (dim0_offset s) (dim1_offset s);
               Some (p, f64_mul (Lorenze2LayerNoise pred_dim) precision)
             else Some (0, 0));
  '(pred1, noise1) ← (if use_lorenzo then
               p ← lorenzo_predict (lorenzo_terms false pred_dim) data pos (dim0_offset s) (dim1_offset s);
               Some (p, f64_mul (LorenzeNoise pred_dim) precision)
             else Some (0, 0));
  Some (f64_add err_lorenzo (lorenzo_error cur_data pred1 noise1),
        f64_add err_lorenzo_2layer (lorenzo_error cur_data pred2 noise2), err_reg).

(** Where the errors are estimated: along the diagonals, and in the last corner. *)
Definition points (min_size : nat) : list (nat * nat * nat) :=
  (seq 2 (min_size - 3) ≫= fun i =>
     let bmi := (min_size - i)%nat in [(i, i, i); (i, i, bmi); (i, bmi, i); (i, bmi, bmi)])
  ++ (if (3 <? min_size)%nat then [(min_size - 1, min_size - 1, min_size - 1)%nat] else []).

Fixpoint estimate (data_pos : nat) (reg_params : list Z) (ps : list (nat * nat * nat)) (e : errors) : option errors :=
  match ps with
  | [] => Some e
  | p :: ps => e ← meta_block_error_estimation_3d data_pos reg_params e p; estimate data_pos reg_params ps e
  end.

Definition meta_blockwise_selection_3d (data_pos : nat) (reg_params : list Z) (min_size : nat) : option Z :=
  '(err_lorenzo, err_lorenzo_2layer, err_reg) ← estimate data_pos reg_params (points min_size) (0, 0, 0);
  Some (if use_regression && (negb use_lorenzo || f64_leb err_reg err_lorenzo)
           && (negb use_lorenzo_2layer || f64_ltb err_reg err_lorenzo_2layer) then SELECTOR_REGRESSION
        else if use_lorenzo_2layer && (negb use_lorenzo || f64_leb err_lorenzo_2layer err_lorenzo)
                && (negb use_regression || f64_leb err_lorenzo_2layer err_reg) then SELECTOR_LORENZO_2LAYER
        else SELECTOR_LORENZO).

End choice.

(** ** The coefficients of a block *)

(** The literal 1e-3. *)
Definition f64_1em3 : Z := 0x3f50624dd2f1a9fc.

(** For a coefficient: how often it was near that of the block before; the hundredth time after
    the first it is stored as it is. *)
Definition keep_coeff (precision prev_ori ori cnt t r : Z) : Z * Z * Z * list Z :=
  if f64_ltb (f64_abs (f64_of_f32 (f32_sub prev_ori ori))) (f64_mul precision f64_1em3) then
    if cnt =? 100 then (cnt + 1, 0, ori, [ori]) else (cnt + 1, t, r, [])
  else (0, t, r, []).

Fixpoint keep_coeffs (precision : Z) (prev_ori ori cnt ts rs : list Z) : list Z * list Z * list Z * list Z :=
  match prev_ori, ori, cnt, ts, rs with
  | p :: prev_ori, o :: ori, n :: cnt, t :: ts, r :: rs =>
      let '(n, t, r, u) := keep_coeff precision p o n t r in
      let '(cnt, ts, rs, us) := keep_coeffs precision prev_ori ori cnt ts rs in
      (n :: cnt, t :: ts, r :: rs, u ++ us)
  | _, _, _, _, _ => ([], [], [], [])
  end.

(** The coefficients of the last block with regression, as they were computed and as they were
    stored, and the counters. *)
Record regs := { reg_last : list Z; reg_params_ori : list Z; reg_params_ori_cnt : list Z }.

Definition no_regs : regs :=
  {| reg_last := replicate 4 (f32_of_Z 0); reg_params_ori := replicate 4 (f32_of_Z 0); reg_params_ori_cnt := replicate 4 0 |}.

(** The types, the coefficients and what is stored of them. *)
Definition regression_block (params : meta_params) (precision : Z) (g : regs) (ori : list Z)
    : list Z * list Z * list Z * regs :=
  let '(ts, rs, us) := compress_regression_coefficient_3d (reg_precisions params) (reg_last g) ori in
  let '(cnt, ts, rs, us') := keep_coeffs precision (reg_params_ori g) ori (reg_params_ori_cnt g) ts rs in
  (ts, rs, us ++ us', {| reg_last := rs; reg_params_ori := ori; reg_params_ori_cnt := cnt |}).

(** ** Compression *)

Section decomposition.

Context {Q : Type} `{HQ : !QuantizerInterface Q}.

(** The prediction of a value of a block, from the buffer or from the coefficients. *)
Definition predict (s : DSize) (pred_dim sel : Z) (coeffs buffer : list Z) (c : cell) : option Z :=
  if sel =? SELECTOR_REGRESSION then regression_predict_3d coeffs (c_i c) (c_j c) (c_k c)
  else lorenzo_predict (lorenzo_terms (sel =? SELECTOR_LORENZO_2LAYER) pred_dim) buffer (c_buffer c)
         (buffer_dim0_offset s) (buffer_dim1_offset s).

(** What became of a value: its place, its prediction, and what the decompressor will see. *)
Definition result : Type := nat * Z * Z.

Section block.

Variables (s : DSize) (use_mean : bool) (mean precision pred_dim sel : Z) (coeffs : list Z).

(** [lorenzo_predict_quantize_3d] and [regression_predict_quantize_3d]: the types, the results,
    the buffer and the quantizer.  The mean is for the Lorenzo predictor only. *)
Fixpoint quantize_cells (data : list Z) (cs : list cell) (buffer : list Z) (q : Q)
    : option (list Z * list result * list Z * Q) :=
  match cs with
  | [] => Some ([], [], buffer, q)
  | c :: cs =>
      cur_data ← data !! c_data c;
      _ ← assert (c_buffer c <? length buffer)%nat;
      let near := use_mean && negb (sel =? SELECTOR_REGRESSION) in
      if near && f64_leb (f64_abs (f64_sub cur_data mean)) precision then
        '(ts, rs, buffer, q) ← quantize_cells data cs (<[c_buffer c := mean]> buffer) q;
        Some (q_radius q :: ts, (c_data c, mean, mean) :: rs, buffer, q)
      else
        pred ← predict s pred_dim sel coeffs buffer c;
        let '(t, r, q) := q_quantize q cur_data pred in
        let t := if near && (q_radius q <=? t) then t + 1 else t in
        '(ts, rs, buffer, q) ← quantize_cells data cs (<[c_buffer c := r]> buffer) q;
        Some (t :: ts, (c_data c, pred, r) :: rs, buffer, q)
  end.

(** [lorenzo_predict_recover_3d] and [regression_predict_recover_3d]: the data, the types left,
    the buffer and the quantizer.  The prediction is not needed for a type of 0. *)
Fixpoint recover_cells (cs : list cell) (types buffer dec_data : list Z) (q : Q)
    : option (list Z * list Z * list Z * Q) :=
  match cs with
  | [] => Some (types, buffer, dec_data, q)
  | c :: cs =>
      match types with
      | [] => None
      | t :: types =>
          _ ← assert ((c_buffer c <? length buffer) && (c_data c <? length dec_data))%nat;
          let near := use_mean && negb (sel =? SELECTOR_REGRESSION) in
          '(r, q) ←
            (if negb (t =? 0) && near && (t =? q_radius q) then Some (mean, q)
             else
               pred ← predict s pred_dim sel coeffs buffer c;
               q_recover q pred (if negb (t =? 0) && near && (q_radius q <? t) then t - 1 else t));
          recover_cells cs types (<[c_buffer c := r]> buffer) (<[c_data c := r]> dec_data) q
      end
  end.

End block.

(** What a block leaves: the types, the results, the choice, and for the regression the types of
    the coefficients, the coefficients and what is stored. *)
Record block_out := {
  b_types : list Z; b_results : list result; b_sel : Z; b_reg : option (list Z * list Z * list Z) }.

Record state := { st_buffer : list Z; st_regs : regs; st_quantizer : Q }.

Section loops.

Variables (s : DSize) (params : meta_params) (precision absErrorBound : Z) (use_mean : bool) (mean : Z).

(** One round of the loops over the blocks. *)
Definition compress_block (data : list Z) (i j k : nat) (st : state) : option (block_out * state) :=
  let size_x := extent (d1 s) (bs s) i in
  let size_y := extent (d2 s) (bs s) j in
  let size_z := extent (d3 s) (bs s) k in
  let min_size := Nat.min (Nat.min size_x size_y) size_z in
  let enable_regression := use_regression_linear params && (2 <=? min_size)%nat in
  let pos := z_data_pos s i j k in
  ori ← (if enable_regression then
           compute_regression_coeffcients_3d data pos size_x size_y size_z (dim0_offset s) (dim1_offset s)
         else Some []);
  sel ← meta_blockwise_selection_3d s data use_mean mean absErrorBound (prediction_dim params) (use_lorenzo params)
          (use_lorenzo_2layer params) enable_regression pos ori min_size;
  let '(reg, coeffs, g) :=
    if sel =? SELECTOR_REGRESSION then
      let '(ts, rs, us, g) := regression_block params precision (st_regs st) ori in (Some (ts, rs, us), rs, g)
    else (None, [], st_regs st) in
  '(types, results, buffer, q) ←
    quantize_cells s use_mean mean precision (prediction_dim params) sel coeffs data (cells s i j k) (st_buffer st) (st_quantizer st);
  Some ({| b_types := types; b_results := results; b_sel := sel; b_reg := reg |},
        {| st_buffer := buffer; st_regs := g; st_quantizer := q |}).

Fixpoint compress_events (data : list Z) (es : list event) (st : state) : option (list block_out * state) :=
  match es with
  | [] => Some ([], st)
  | Block i j k :: es =>
      '(b, st) ← compress_block data i j k st;
      '(bs, st) ← compress_events data es st;
      Some (b :: bs, st)
  | Copy :: es =>
      buffer ← copy_bottom s (st_buffer st);
      compress_events data es {| st_buffer := buffer; st_regs := st_regs st; st_quantizer := st_quantizer st |}
  end.

(** The loops of the decompressor, over the choices, the coefficients and the types. *)
Fixpoint decompress_events (es : list event) (indicator : list Z) (coeffs : list (list Z)) (types buffer dec_data : list Z) (q : Q)
    : option (list Z) :=
  match es with
  | [] => Some dec_data
  | Block i j k :: es =>
      match indicator with
      | [] => None
      | sel :: indicator =>
          '(c, coeffs) ← (if sel =? SELECTOR_REGRESSION then
                            match coeffs with [] => None | c :: coeffs => Some (c, coeffs) end
                          else Some ([], coeffs));
          '(types, buffer, dec_data, q) ←
            recover_cells s use_mean mean (prediction_dim params) sel c (cells s i j k) types buffer dec_data q;
          decompress_events es indicator coeffs types buffer dec_data q
      end
  | Copy :: es =>
      buffer ← copy_bottom s buffer;
      decompress_events es indicator coeffs types buffer dec_data q
  end.

End loops.

(** ** The decomposition *)

Record Decomposition := mk {
  conf : Config;
  params : meta_params;
  precision : Z;
  use_mean : bool;
  mean : Z;
  reg_count : nat;
  indicator : list Z;
  reg_params_type : list Z;
  reg_unpredictable_data : list Z;
  reg_params : list (list Z);
  quantizer : Q
}.

(** The constructor; the bound is converted to [float]. *)
Definition make (c : Config) (q : Q) : Decomposition :=
  mk c (make_params (blockSize c) (pred_dim c) (lorenzo c) (lorenzo2 c) (regression c) (f32_of_f64 (absErrorBound c)))
    (absErrorBound c) false 0 0 [] [] [] [] q.

(** [DSize_3d] of the dimensions; [None] where there are not three, and for an extent of 0 or a
    block size that is not positive. *)
Definition size_of (c : Config) (block_size : Z) (padding_layer : Z) : option DSize :=
  match dims c with
  | r1 :: r2 :: r3 :: _ =>
      _ ← assert ((0 <? r1) && (0 <? r2) && (0 <? r3) && (0 <? block_size));
      Some {| d1 := Z.to_nat r1; d2 := Z.to_nat r2; d3 := Z.to_nat r3; bs := Z.to_nat block_size; pad := Z.to_nat padding_layer |}
  | _ => None
  end.

(** What the loops leave. *)
Definition run (d : Decomposition) (s : DSize) (data : list Z) : option (list block_out * state) :=
  compress_events s (params d) (precision d) (absErrorBound (conf d)) (use_mean d) (mean d) data (events s)
    {| st_buffer := pred_buffer s; st_regs := no_regs; st_quantizer := quantizer d |}.

Definition types_of (bs : list block_out) : list (list Z) := omap (fun b => (fun r => r.1.1) <$> b_reg b) bs.
Definition params_of_blocks (bs : list block_out) : list (list Z) := omap (fun b => (fun r => r.1.2) <$> b_reg b) bs.
Definition unpredictable_of (bs : list block_out) : list Z := mjoin (omap (fun b => snd <$> b_reg b) bs).
Definition writes_of (bs : list block_out) : list (nat * Z) := (fun r : result => (r.1.1, r.2)) <$> mjoin (b_results <$> bs).

(** [compress_3d]; [None] also when more coefficients are stored than there is room for. *)
Definition compress_3d (d : Decomposition) (data : list Z) : option (list Z * list Z * Decomposition) :=
  s ← size_of (conf d) (blockSize (conf d)) (lorenzo_padding_layer (params d));
  '(bs, st) ← run d s data;
  let unpredictable := unpredictable_of bs in
  _ ← assert (length unpredictable <=? 4 * num_blocks s)%nat;
  Some (mjoin (b_types <$> bs), writes data (writes_of bs),
        mk (conf d) (params d) (precision d) (use_mean d) (mean d) (length (types_of bs)) (b_sel <$> bs)
          (mjoin (types_of bs)) unpredictable (reg_params d) (st_quantizer st)).

Variable garbage : nat -> Z.

Definition decompress_3d (d : Decomposition) (quant_inds : list Z) : option (list Z) :=
  s ← size_of (conf d) (block_size (params d)) (lorenzo_padding_layer (params d));
  decompress_events s (params d) (use_mean d) (mean d) (events s) (indicator d) (reg_params d) quant_inds (pred_buffer s)
    (garbage <$> seq 0 (Z.to_nat (num (conf d)))) (quantizer d).

Context `{Order : !MapOrder}.
Variables (left_first : bool) (junk : Z).
(** The bytes between the members of [params]. *)
Variable padding : nat -> Z.

Definition save (d : Decomposition) : option (list Z) :=
  encoded ← huffman_run left_first junk (indicator d) 8;
  coefficients ← (if (reg_count d =? 0)%nat then Some []
                  else encode_regression_coefficients left_first junk (reg_params_type d) (reg_unpredictable_data d));
  Some (params_bytes padding (params d) ++ le_bytes 8 (precision d) ++ le_bytes 1 (Z.b2z (use_mean d)) ++ le_bytes 8 (mean d)
          ++ le_bytes 8 (Z.of_nat (reg_count d)) ++ encoded ++ coefficients ++ q_save (quantizer d)).

(** [params] as a variable of the length of the structure. *)
Definition read_params (c : list Z) (remaining_length : Z) : option (meta_params * list Z * Z) :=
  _ ← assert (Z.of_nat sizeof_params <=? remaining_length);
  _ ← assert (sizeof_params <=? length c)%nat;
  p ← params_of c;
  Some (p, drop sizeof_params c, remaining_length - Z.of_nat sizeof_params).

(** The length grows by what was read, as for one dimension. *)
Definition load (d : Decomposition) (c : list Z) (remaining_length : Z) : option (Decomposition * list Z * Z) :=
  let c_pos := c in
  '(p, c, remaining_length) ← read_params c remaining_length;
  '(precision, c, remaining_length) ← read_var_len 8 c remaining_length;
  '(um, c, remaining_length) ← read_var_len 1 c remaining_length;
  '(mean, c, remaining_length) ← read_var_len 8 c remaining_length;
  '(count, c, remaining_length) ← read_var_len 8 c remaining_length;
  s ← size_of (conf d) (block_size p) (lorenzo_padding_layer p);
  '(root, offset, c, remaining_length) ← SzHuffman.load c remaining_length;
  '(ind, c) ← SzHuffman.decode root offset c (num_blocks s);
  '(rp, c) ← (if count =? 0 then Some ([], c) else decode_regression_coefficients c (Z.to_nat count) p);
  '(q, c, remaining_length) ← q_load (quantizer d) c remaining_length;
  Some (mk (conf d) p precision (negb (um =? 0)) mean (Z.to_nat count) ind [] [] rp q, c,
        u64 (remaining_length + (Z.of_nat (length c_pos) - Z.of_nat (length c)))).

Definition size_est (d : Decomposition) : Z :=
  q_size_est (quantizer d) + Z.of_nat (length (indicator d)) * 4 + huffman_est left_first (indicator d)
  + 4 * Z.of_nat (reg_count d) * 4
  + (if (reg_count d =? 0)%nat then SzHuffman.size_est 0 else huffman_est left_first (reg_params_type d))
  + Z.of_nat (length (reg_unpredictable_data d)) * 4.

End decomposition.

(** ** The blocks divide the data *)

Section geometry.

Lemma blocks_below d bs i : (0 < d)%nat -> (0 < bs)%nat -> (i < blocks_of d bs)%nat <-> (i * bs < d)%nat.
Proof.
  intros Hd Hb. unfold blocks_of. pose proof (Nat.div_mod_eq (d - 1) bs). pose proof (Nat.mod_upper_bound (d - 1) bs ltac:(lia)).
  split; intros; nia.
Qed.

Lemma extent_min d bs i : extent d bs i = Nat.min bs (d - i * bs).
Proof. unfold extent. destruct (Nat.ltb_spec ((i + 1) * bs) d); lia. Qed.

Lemma extents_line d bs : (0 < d)%nat -> (0 < bs)%nat ->
  (seq 0 (blocks_of d bs) ≫= fun i => (fun x => i * bs + x)%nat <$> seq 0 (extent d bs i)) = seq 0 d.
Proof.
  intros Hd Hb. assert (forall n, (n <= blocks_of d bs)%nat ->
    (seq 0 n ≫= fun i => (fun x => i * bs + x)%nat <$> seq 0 (extent d bs i)) = seq 0 (Nat.min (n * bs) d)) as H.
  { induction n as [| n IH]; intros Hn; [done |]. rewrite seq_S, bind_app, IH by lia. cbn [mbind list_bind app plus]. rewrite app_nil_r.
    rewrite fmap_add_seq, extent_min. pose proof (proj1 (blocks_below d bs n Hd Hb) ltac:(lia)).
    rewrite (Nat.min_l (n * bs) d), Nat.add_0_r by lia.
    replace (Nat.min (S n * bs) d) with (n * bs + Nat.min bs (d - n * bs))%nat by lia. by rewrite seq_app. }
  rewrite H by lia. f_equal. pose proof (blocks_below d bs (blocks_of d bs) Hd Hb). lia.
Qed.

Lemma in_block d bs i ii : (0 < d)%nat -> (0 < bs)%nat -> (i < blocks_of d bs)%nat -> (ii < extent d bs i)%nat -> (i * bs + ii < d)%nat.
Proof. intros Hd Hb Hi Hii. rewrite extent_min in Hii. lia. Qed.

Lemma block_of_place d bs x : (0 < d)%nat -> (0 < bs)%nat -> (x < d)%nat ->
  exists i ii, (i < blocks_of d bs)%nat /\ (ii < extent d bs i)%nat /\ x = (i * bs + ii)%nat.
Proof.
  intros Hd Hb Hx. assert (x ∈ seq 0 d) as Hin by (apply elem_of_seq; lia). rewrite <- (extents_line d bs Hd Hb) in Hin.
  apply list_elem_of_bind in Hin as (i & (ii & -> & Hii)%list_elem_of_fmap & Hi). apply elem_of_seq in Hi, Hii. exists i, ii. lia.
Qed.

Lemma length_bind_mul {A B} (f : A -> list B) (g : A -> nat) c (l : list A) :
  (forall x, length (f x) = c * g x)%nat -> length (l ≫= f) = (c * sum_list (g <$> l))%nat.
Proof.
  intros H. induction l as [| x l IH]; [simpl; lia |]. change ((x :: l) ≫= f) with (f x ++ (l ≫= f)).
  rewrite length_app, H, IH, fmap_cons. simpl. lia.
Qed.

Lemma bind_bind {A B C} (f : A -> list B) (g : B -> list C) l : (l ≫= f) ≫= g = l ≫= fun x => f x ≫= g.
Proof. induction l as [| x l IH]; [done |]. by rewrite !bind_cons, bind_app, IH. Qed.

Lemma sum_extents d bs : (0 < d)%nat -> (0 < bs)%nat -> sum_list (extent d bs <$> seq 0 (blocks_of d bs)) = d.
Proof.
  intros Hd Hb. pose proof (f_equal length (extents_line d bs Hd Hb)) as H. rewrite length_seq in H.
  rewrite (length_bind_mul _ (extent d bs) 1) in H by (intros; rewrite length_fmap, length_seq; lia). lia.
Qed.

Variable s : DSize.

Notation nx := (blocks_of (d1 s) (bs s)).
Notation ny := (blocks_of (d2 s) (bs s)).
Notation nz := (blocks_of (d3 s) (bs s)).

Definition event_cells (e : event) : list cell := match e with Block i j k => cells s i j k | Copy => [] end.

Lemma cells_elem i j k c : c ∈ cells s i j k <-> exists ii jj kk, c = cell_at s i j k ii jj kk /\
  (ii < extent (d1 s) (bs s) i /\ jj < extent (d2 s) (bs s) j /\ kk < extent (d3 s) (bs s) k)%nat.
Proof.
  unfold cells. rewrite list_elem_of_bind. setoid_rewrite list_elem_of_bind. setoid_rewrite list_elem_of_fmap.
  setoid_rewrite elem_of_seq. split.
  - intros (ii & (jj & (kk & -> & Hk) & Hj) & Hi). exists ii, jj, kk. split; [done | lia].
  - intros (ii & jj & kk & -> & Hi & Hj & Hk). exists ii. split; [| lia]. exists jj. split; [| lia]. exists kk. split; [done | lia].
Qed.

Lemma events_elem i j k : Block i j k ∈ events s <-> (i < nx /\ j < ny /\ k < nz)%nat.
Proof.
  unfold events. rewrite list_elem_of_bind. setoid_rewrite elem_of_app. setoid_rewrite list_elem_of_bind.
  setoid_rewrite list_elem_of_fmap. setoid_rewrite elem_of_seq. split.
  - intros (i' & [(j' & (k' & [= -> -> ->] & Hk) & Hj) | H] & Hi); [lia |]. apply list_elem_of_singleton in H. done.
  - intros (Hi & Hj & Hk). exists i. split; [| lia]. left. exists j. split; [| lia]. exists k. split; [done | lia].
Qed.

Lemma cell_place i j k ii jj kk : c_data (cell_at s i j k ii jj kk)
  = (((i * bs s + ii) * d2 s + (j * bs s + jj)) * d3 s + (k * bs s + kk))%nat.
Proof. cbn [c_data cell_at]. unfold z_data_pos, dim0_offset, dim1_offset. lia. Qed.

Lemma length_cells i j k : length (cells s i j k)
  = (extent (d1 s) (bs s) i * extent (d2 s) (bs s) j * extent (d3 s) (bs s) k)%nat.
Proof.
  unfold cells. rewrite (length_bind_mul _ (const 1%nat) (extent (d2 s) (bs s) j * extent (d3 s) (bs s) k)).
  - assert (forall n a, sum_list (const 1%nat <$> seq a n) = n) as -> by (induction n as [| n IH]; intros a; [done |]; cbn; by rewrite IH). lia.
  - intros ii. rewrite (length_bind_mul _ (const 1%nat) (extent (d3 s) (bs s) k)).
    + assert (forall n a, sum_list (const 1%nat <$> seq a n) = n) as -> by (induction n as [| n IH]; intros a; [done |]; cbn; by rewrite IH).
      unfold const. lia.
    + intros jj. rewrite length_fmap, length_seq. unfold const. lia.
Qed.

Hypothesis Hd : (0 < d1 s /\ 0 < d2 s /\ 0 < d3 s)%nat.
Hypothesis Hb : (0 < bs s)%nat.

Lemma length_all : length (events s ≫= event_cells) = (d1 s * d2 s * d3 s)%nat.
Proof.
  destruct Hd as (H1 & H2 & H3). unfold events. rewrite bind_bind.
  rewrite (length_bind_mul _ (extent (d1 s) (bs s)) (d2 s * d3 s)); [rewrite sum_extents by done; lia |].
  intros i. rewrite bind_app, length_app, bind_bind.
  rewrite (length_bind_mul _ (extent (d2 s) (bs s)) (extent (d1 s) (bs s) i * d3 s)); [rewrite sum_extents by done; cbn; lia |].
  intros j. rewrite list_fmap_bind.
  rewrite (length_bind_mul _ (extent (d3 s) (bs s)) (extent (d1 s) (bs s) i * extent (d2 s) (bs s) j)); [rewrite sum_extents by done; lia |].
  intros k. apply length_cells.
Qed.

(** The loops go through every value of the data once. *)
Lemma cells_all : c_data <$> (events s ≫= event_cells) ≡ₚ seq 0 (d1 s * d2 s * d3 s).
Proof.
  symmetry. apply submseteq_length_Permutation; [| rewrite length_fmap, length_all, length_seq; lia].
  apply NoDup_submseteq; [apply NoDup_seq |]. intros n Hn%elem_of_seq. destruct Hd as (H1 & H2 & H3).
  set (z := (n mod d3 s)%nat). set (y := ((n / d3 s) mod d2 s)%nat). set (x := (n / d3 s / d2 s)%nat).
  assert (n = (x * d2 s + y) * d3 s + z)%nat as En.
  { pose proof (Nat.div_mod_eq n (d3 s)). pose proof (Nat.div_mod_eq (n / d3 s) (d2 s)). unfold x, y, z. lia. }
  pose proof (Nat.mod_upper_bound n (d3 s) ltac:(lia)) as Hz. pose proof (Nat.mod_upper_bound (n / d3 s) (d2 s) ltac:(lia)) as Hy.
  assert (x < d1 s)%nat as Hx by (apply Nat.Div0.div_lt_upper_bound, Nat.Div0.div_lt_upper_bound; lia).
  destruct (block_of_place (d1 s) (bs s) x) as (i & ii & Hi & Hii & Ex); try done.
  destruct (block_of_place (d2 s) (bs s) y) as (j & jj & Hj & Hjj & Ey); try done.
  destruct (block_of_place (d3 s) (bs s) z) as (k & kk & Hk & Hkk & Ez); try done.
  apply list_elem_of_fmap. exists (cell_at s i j k ii jj kk). split; [rewrite cell_place; lia |].
  apply list_elem_of_bind. exists (Block i j k). split; [| by apply events_elem]. apply cells_elem. by exists ii, jj, kk.
Qed.

End geometry.

(** ** The decompressor follows the compressor *)

Section simulation.

Context {Q : Type} `{HQ : !QuantizerInterface Q}.

(** The quantizer is made for a value and its prediction. *)
Definition result_ok (q : Q) (data : list Z) (r : result) : Prop :=
  exists x, data !! r.1.1 = Some x /\ is_u64 x /\ quantizable q x r.1.2.

(** The value that replaces it is accurate. *)
Definition result_accurate (q : Q) (data : list Z) (r : result) : Prop :=
  exists x, data !! r.1.1 = Some x /\ accurate q x r.2.

Lemma result_ok_leads q q' data rs : leads q q' -> Forall (result_ok q data) rs -> Forall (result_ok q' data) rs.
Proof.
  intros Hl H. eapply Forall_impl; [| exact H]. intros r (x & E & Hx & Hq). exists x. split_and!; try done. by apply (leads_quantizable q q').
Qed.

Lemma accurate_leads q q' data rs : leads q q' -> Forall (result_accurate q' data) rs -> Forall (result_accurate q data) rs.
Proof.
  intros Hl H. eapply Forall_impl; [| exact H]. intros r (x & E & Ha). exists x. split; [done |]. by apply (leads_accurate q q').
Qed.

Definition to_write (r : result) : nat * Z := (r.1.1, r.2).

(** With the same buffer, the decompressor gets the same predictions. *)
Lemma cells_follow s mean precision pd sel coeffs data cs : forall buffer q ts rs buffer' q',
  quantize_cells s false mean precision pd sel coeffs data cs buffer q = Some (ts, rs, buffer', q') ->
  storable q -> Forall (result_ok q data) rs ->
  leads q q' /\ storable q' /\ length ts = length cs /\ rs.*1.*1 = c_data <$> cs /\
  Forall (fun t => 0 <= t < 2 * q_radius q) ts /\ Forall (result_accurate q data) rs /\
  forall d qf dec tl, leads q' qf -> follows d q qf -> length dec = length data -> exists d',
    recover_cells s false mean pd sel coeffs cs (ts ++ tl) buffer dec d = Some (tl, buffer', writes dec (to_write <$> rs), d') /\
    follows d' q' qf.
Proof.
  induction cs as [| c cs IH]; intros buffer q ts rs buffer' q' E Hs Hok; cbn [quantize_cells andb negb] in E.
  { apply (inj Some) in E. rewrite !pair_equal_spec in E. destruct E as [[[<- <-] <-] <-]. split_and!; try done.
    intros d qf dec tl _ Hf _. by exists d. }
  apply bind_Some in E as (x & Ex & E). apply bind_Some in E as (u & Ha & E). apply assert_Some in Ha. apply bind_Some in E as (pred & Ep & E).
  destruct (q_quantize q x pred) as [[t r] q1] eqn:Eq. apply bind_Some in E as ([[[ts1 rs1] b1] q2] & E & H).
  apply (inj Some) in H. rewrite !pair_equal_spec in H. destruct H as [[[<- <-] ->] ->].
  apply Forall_cons_iff in Hok as [(x' & Ex' & Hx & Hq) Hok]. cbn [fst snd] in *. rewrite Ex in Ex'. injection Ex' as <-.
  pose proof (quantize_leads _ _ _ _ _ _ Eq) as Hl1. destruct (quantize_index _ _ _ _ _ _ Hq Eq) as [Hi Hacc].
  pose proof (quantize_storable _ _ _ _ _ _ Eq Hs Hx) as Hs1.
  destruct (IH _ _ _ _ _ _ E Hs1) as (H1 & H2 & H3 & H4 & H5 & H6 & H7); [by apply (result_ok_leads q) |].
  rewrite (leads_radius q q1 Hl1) in H5. split_and!; [by etrans | done | simpl; lia | | by constructor | | ].
  - rewrite !fmap_cons. cbn [fst]. by rewrite H4.
  - constructor; [by exists x | by apply (accurate_leads q q1)].
  - intros d qf dec tl Hqf Hf Hl. cbn [recover_cells app]. pose proof (lookup_lt_Some _ _ _ Ex) as Hlt.
    rewrite assert_true by (rewrite Ha; apply Nat.ltb_lt; lia). cbn [mbind option_bind]. rewrite andb_false_r. cbn [andb]. rewrite Ep.
    cbn [mbind option_bind]. destruct (recover_follows d q qf x pred t r q1 Hq Eq) as (d1 & -> & Hf1); [by etrans | done |].
    cbn [mbind option_bind]. destruct (H7 d1 qf (<[c_data c := r]> dec) tl Hqf Hf1) as (d' & -> & Hf'); [by rewrite length_insert |].
    by exists d'.
Qed.

(** A choice of the regression comes with its coefficients, and no other does. *)
Definition reg_matches (b : block_out) : Prop :=
  match b_reg b with Some _ => b_sel b = SELECTOR_REGRESSION | None => b_sel b <> SELECTOR_REGRESSION end.

Section loops.

Variables (s : DSize) (params : meta_params) (precision absErrorBound mean : Z).

Lemma block_follow data i j k st b st' :
  compress_block s params precision absErrorBound false mean data i j k st = Some (b, st') ->
  exists coeffs, reg_matches b /\ default [] ((fun r => r.1.2) <$> b_reg b) = coeffs /\
    quantize_cells s false mean precision (prediction_dim params) (b_sel b) coeffs data (cells s i j k) (st_buffer st) (st_quantizer st)
    = Some (b_types b, b_results b, st_buffer st', st_quantizer st').
Proof.
  unfold compress_block. intros (ori & _ & E)%bind_Some. apply bind_Some in E as (sel & _ & E).
  destruct (Z.eqb_spec sel SELECTOR_REGRESSION) as [Hsel | Hsel].
  - destruct (regression_block _ _ _ _) as [[[ts rs] us] g]. apply bind_Some in E as ([[[types results] buffer] q] & E & H).
    apply (inj Some), pair_equal_spec in H as [<- <-]. eexists. split; [exact Hsel |]. split; [done |]. exact E.
  - apply bind_Some in E as ([[[types results] buffer] q] & E & H). apply (inj Some), pair_equal_spec in H as [<- <-].
    eexists. split; [exact Hsel |]. split; [done |]. exact E.
Qed.

Lemma results_app {A B} (f : A -> list B) b bs : mjoin (f <$> b :: bs) = f b ++ mjoin (f <$> bs).
Proof. done. Qed.

Lemma writes_app l ws ws' : writes l (ws ++ ws') = writes (writes l ws) ws'.
Proof. unfold writes. by rewrite foldl_app. Qed.

Lemma events_follow data es : forall st bs st',
  compress_events s params precision absErrorBound false mean data es st = Some (bs, st') ->
  storable (st_quantizer st) -> Forall (result_ok (st_quantizer st) data) (mjoin (b_results <$> bs)) ->
  leads (st_quantizer st) (st_quantizer st') /\ storable (st_quantizer st') /\
  length (mjoin (b_types <$> bs)) = length (es ≫= event_cells s) /\
  (mjoin (b_results <$> bs)).*1.*1 = c_data <$> (es ≫= event_cells s) /\
  Forall (fun t => 0 <= t < 2 * q_radius (st_quantizer st)) (mjoin (b_types <$> bs)) /\
  Forall (result_accurate (st_quantizer st) data) (mjoin (b_results <$> bs)) /\
  forall d qf dec itl ctl tl, leads (st_quantizer st') qf -> follows d (st_quantizer st) qf -> length dec = length data ->
    decompress_events s params false mean es ((b_sel <$> bs) ++ itl) (params_of_blocks bs ++ ctl)
      (mjoin (b_types <$> bs) ++ tl) (st_buffer st) dec d = Some (writes dec (writes_of bs)).
Proof.
  induction es as [| e es IH]; intros st bs st' E Hs Hok.
  { apply (inj Some), pair_equal_spec in E as [<- <-]. by split_and!. }
  destruct e as [i j k |]; cbn [compress_events] in E.
  - apply bind_Some in E as ([b st1] & E1 & E). apply bind_Some in E as ([bs1 st2] & E2 & H).
    apply (inj Some), pair_equal_spec in H as [<- <-]. apply block_follow in E1 as (coeffs & Hm & Hco & E1).
    rewrite results_app in Hok. apply Forall_app in Hok as [Hok1 Hok2].
    destruct (cells_follow _ _ _ _ _ _ _ _ _ _ _ _ _ _ E1 Hs Hok1) as (A1 & A2 & A3 & A4 & A5 & A6 & A7).
    destruct (IH st1 bs1 st2 E2 A2) as (B1 & B2 & B3 & B4 & B5 & B6 & B7); [by apply (result_ok_leads (st_quantizer st)) |].
    rewrite bind_cons, !results_app. cbn [event_cells]. rewrite (leads_radius _ _ A1) in B5. split_and!.
    + by etrans.
    + done.
    + rewrite !length_app. lia.
    + rewrite !fmap_app. rewrite A4. f_equal. exact B4.
    + by apply Forall_app.
    + apply Forall_app. split; [done |]. by apply (accurate_leads _ (st_quantizer st1)).
    + intros d qf dec itl ctl tl Hqf Hf Hl. rewrite fmap_cons, <- app_assoc. cbn [app decompress_events].
      assert ((if b_sel b =? SELECTOR_REGRESSION then
                 match params_of_blocks (b :: bs1) ++ ctl with [] => None | c :: cs => Some (c, cs) end
               else Some ([], params_of_blocks (b :: bs1) ++ ctl)) = Some (coeffs, params_of_blocks bs1 ++ ctl)) as ->.
      { unfold params_of_blocks, reg_matches in *. rewrite <- Hco. cbn [omap list_omap]. destruct (b_reg b) as [[[ts rs] us] |].
        - by rewrite Hm.
        - by rewrite (proj2 (Z.eqb_neq _ _) Hm). }
      cbn [mbind option_bind].
      destruct (A7 d qf dec (mjoin (b_types <$> bs1) ++ tl)) as (d' & -> & Hf'); [by etrans | done | done |]. cbn [mbind option_bind].
      rewrite (B7 d' qf); [| done | done | by rewrite length_writes]. f_equal. unfold writes_of.
      rewrite results_app, fmap_app, writes_app. done.
  - apply bind_Some in E as (buffer & Eb & E). rewrite bind_cons. cbn [event_cells app].
    destruct (IH _ _ _ E Hs Hok) as (B1 & B2 & B3 & B4 & B5 & B6 & B7). split_and!; try done.
    intros d qf dec itl ctl tl Hqf Hf Hl. cbn [decompress_events]. rewrite Eb. cbn [mbind option_bind]. by apply (B7 d qf).
Qed.

(** *** The coefficients *)

Lemma keep_below prev_ori ori n t r n' t' r' u : keep_coeff precision prev_ori ori n t r = (n', t', r', u) -> n <> 100 ->
  t' = t /\ r' = r /\ u = [].
Proof.
  intros E Hn. unfold keep_coeff in E. rewrite (proj2 (Z.eqb_neq n 100) Hn) in E.
  destruct (f64_ltb _ _); rewrite !pair_equal_spec in E; by destruct E as [[[_ <-] <-] <-].
Qed.

Lemma keep_cases prev_ori ori n t r n' t' r' u : keep_coeff precision prev_ori ori n t r = (n', t', r', u) ->
  t' = 0 /\ u = [ori] \/ t' = t /\ r' = r /\ u = [].
Proof.
  unfold keep_coeff. destruct (f64_ltb _ _); [destruct (n =? 100) |]; rewrite !pair_equal_spec; intros [[[_ <-] <-] <-]; auto.
Qed.

Lemma keep_count prev_ori ori n t r n' t' r' u : keep_coeff precision prev_ori ori n t r = (n', t', r', u) -> n' = n + 1 \/ n' = 0.
Proof.
  unfold keep_coeff. destruct (f64_ltb _ _); [destruct (n =? 100) |]; rewrite !pair_equal_spec; intros [[[<- _] _] _]; auto.
Qed.

#[local] Opaque keep_coeff.

Lemma keep_explained ps : forall prev prev_ori ori cnt ts rs cnt' ts' rs' us,
  keep_coeffs precision prev_ori ori cnt ts rs = (cnt', ts', rs', us) -> block_explained ps prev ts rs ->
  length prev = length ps -> length prev_ori = length ps -> length ori = length ps -> length cnt = length ps ->
  block_explained ps prev ts' rs' /\ length cnt' = length ps /\ length ts' = length ps /\ length rs' = length ps.
Proof.
  induction ps as [| p ps IH]; intros [| pr prev] [| po prev_ori] [| o ori] [| n cnt] ts rs cnt' ts' rs' us E Hb H1 H2 H3 H4; try done.
  { destruct Hb as [-> ->]. cbn in E. rewrite !pair_equal_spec in E. destruct E as [[[<- <-] <-] _]. by split_and!. }
  destruct ts as [| t ts], rs as [| r rs]; try done. destruct Hb as [He Hb]. cbn [keep_coeffs] in E.
  destruct (keep_coeff precision po o n t r) as [[[n' t'] r'] u] eqn:Ek.
  destruct (keep_coeffs precision prev_ori ori cnt ts rs) as [[[cnt1 ts1] rs1] us1] eqn:Er.
  rewrite !pair_equal_spec in E. destruct E as [[[<- <-] <-] _]. simpl in H1, H2, H3, H4.
  destruct (IH _ _ _ _ _ _ _ _ _ _ Er Hb) as (I1 & I2 & I3 & I4); try lia. cbn [block_explained length]. split_and!; try done; try lia.
  apply keep_cases in Ek as [(-> & _) | (-> & -> & _)]; [by left | done].
Qed.

Definition regs_ok (g : regs) : Prop :=
  length (reg_last g) = 4%nat /\ length (reg_params_ori g) = 4%nat /\ length (reg_params_ori_cnt g) = 4%nat.

Lemma coefficients_length data pos sx sy sz o0 o1 l : compute_regression_coeffcients_3d data pos sx sy sz o0 o1 = Some l ->
  length l = 4%nat /\ Forall is_u32 l.
Proof.
  unfold compute_regression_coeffcients_3d. intros (lines & _ & E)%bind_Some. destruct (block_sums lines) as [[[fx fy] fz] f].
  apply (inj Some) in E. rewrite <- E. split; [done |]. unfold slope, f32_sub, f32_div, f32_lift2.
  repeat apply Forall_cons_2; try apply Forall_nil_2; apply f32_range.
Qed.

Lemma regression_block_ok g ori ts rs us g' : regs_ok g -> length ori = 4%nat ->
  regression_block params precision g ori = (ts, rs, us, g') ->
  block_explained (reg_precisions params) (reg_last g) ts rs /\ regs_ok g' /\ reg_last g' = rs /\ length ts = 4%nat.
Proof.
  intros (H1 & H2 & H3) Ho E. unfold regression_block in E.
  destruct (compress_regression_coefficient_3d _ _ _) as [[ts1 rs1] us1] eqn:Ec.
  destruct (keep_coeffs _ _ _ _ _ _) as [[[cnt ts2] rs2] us2] eqn:Ek. rewrite !pair_equal_spec in E. destruct E as [[[<- <-] _] <-].
  apply compress_explained in Ec as [Hb _]; [| done | done].
  destruct (keep_explained _ _ _ _ _ _ _ _ _ _ _ Ek Hb) as (I1 & I2 & I3 & I4); done.
Qed.

(** What a block does to the members for the coefficients. *)
Lemma block_regs data i j k st b st' :
  compress_block s params precision absErrorBound false mean data i j k st = Some (b, st') -> regs_ok (st_regs st) ->
  regs_ok (st_regs st') /\
  match b_reg b with
  | Some (ts, rs, us) => exists ori, b_sel b = SELECTOR_REGRESSION /\ length ori = 4%nat /\
      regression_block params precision (st_regs st) ori = (ts, rs, us, st_regs st')
  | None => st_regs st' = st_regs st
  end.
Proof.
  intros E1 Hg. unfold compress_block in E1. apply bind_Some in E1 as (ori & Eo & E1). apply bind_Some in E1 as (sel & Es & E1).
  destruct (Z.eqb_spec sel SELECTOR_REGRESSION) as [Hsel | Hsel].
  2:{ apply bind_Some in E1 as ([[[types results] buffer] q] & E1 & H). by apply (inj Some), pair_equal_spec in H as [<- <-]. }
  destruct (regression_block _ _ _ _) as [[[ts rs] us] g] eqn:Er. apply bind_Some in E1 as ([[[types results] buffer] q] & E1 & H).
  apply (inj Some), pair_equal_spec in H as [<- <-]. cbn [b_reg b_sel st_regs].
  assert (length ori = 4%nat) as Ho.
  { destruct (use_regression_linear params && _) eqn:Een; [by apply coefficients_length in Eo as [? _] |]. exfalso.
    unfold meta_blockwise_selection_3d in Es. apply bind_Some in Es as ([[e1 e2] e3] & _ & Es). apply (inj Some) in Es. cbn [andb] in Es.
    rewrite Hsel in Es. destruct (_ && _ && _); done. }
  split; [by apply regression_block_ok in Er as (_ & ? & _) |]. by exists ori.
Qed.

Lemma events_chain data es : forall st bs st',
  compress_events s params precision absErrorBound false mean data es st = Some (bs, st') -> regs_ok (st_regs st) ->
  chain (reg_precisions params) (reg_last (st_regs st)) (types_of bs) (params_of_blocks bs) /\
  Forall (fun ts => length ts = 4%nat) (types_of bs).
Proof.
  induction es as [| e es IH]; intros st bs st' E Hg; [by apply (inj Some), pair_equal_spec in E as [<- <-] |].
  destruct e as [i j k |]; cbn [compress_events] in E.
  - apply bind_Some in E as ([b st1] & E1 & E). apply bind_Some in E as ([bs1 st2] & E2 & H).
    apply (inj Some), pair_equal_spec in H as [<- <-]. destruct (block_regs _ _ _ _ _ _ _ E1 Hg) as [Hg1 Hb].
    destruct (IH _ _ _ E2 Hg1) as [J1 J2]. unfold types_of, params_of_blocks in *. cbn [omap list_omap].
    destruct (b_reg b) as [[[ts rs] us] |]; cbn [fmap option_fmap option_map fst snd]; [| by rewrite Hb in J1].
    destruct Hb as (ori & _ & Ho & Er). apply regression_block_ok in Er as (I1 & I2 & I3 & I4); [| done | done].
    rewrite I3 in J1. by split; [| constructor].
  - apply bind_Some in E as (buffer & Eb & E). edestruct IH as [J1 J2]; [exact E | exact Hg |]. by split.
Qed.

Lemma events_sel data es : forall st bs st',
  compress_events s params precision absErrorBound false mean data es st = Some (bs, st') ->
  Forall (fun i => 0 <= i <= 2) (b_sel <$> bs) /\
  length bs = length (filter (fun e => e <> Copy) es) /\ (length (types_of bs) <= length bs)%nat.
Proof.
  induction es as [| e es IH]; intros st bs st' E; [by apply (inj Some), pair_equal_spec in E as [<- <-] |].
  destruct e as [i j k |]; cbn [compress_events] in E.
  - apply bind_Some in E as ([b st1] & E1 & E). apply bind_Some in E as ([bs1 st2] & E2 & H).
    apply (inj Some), pair_equal_spec in H as [<- <-]. destruct (IH _ _ _ E2) as (I1 & I2 & I3). unfold compress_block in E1.
    apply bind_Some in E1 as (ori & _ & E1). apply bind_Some in E1 as (sel & Es & E1). rewrite fmap_cons.
    rewrite filter_cons, decide_True by done. cbn [length]. split_and!; [| lia |].
    + constructor; [| done]. assert (b_sel b = sel) as ->.
      { destruct (sel =? _); [destruct (regression_block _ _ _ _) as [[[ts rs] us] g] |];
          apply bind_Some in E1 as ([[[types results] buffer] q] & _ & H); by apply (inj Some), pair_equal_spec in H as [<- _]. }
      unfold meta_blockwise_selection_3d in Es. apply bind_Some in Es as ([[e1 e2] e3] & _ & Es). apply (inj Some) in Es. rewrite <- Es.
      destruct (_ && _ && _); [by split |]. by destruct (_ && _ && _).
    + unfold types_of in *. cbn [omap list_omap]. destruct (_ <$> b_reg b); cbn [length]; lia.
  - apply bind_Some in E as (buffer & Eb & E). rewrite filter_cons, decide_False by (intros H; by apply H). by apply (IH _ _ _ E).
Qed.

End loops.
End simulation.

(** ** Everything that is read and written is inside *)

Section bounds.

Lemma lorenzo_terms_near u pd : lorenzo_terms u pd <> [] /\
  Forall (fun t : term => t.2.1.1 <= 2 /\ t.2.1.2 <= 2 /\ t.2.2 <= 2)%nat (lorenzo_terms u pd).
Proof.
  unfold lorenzo_terms. destruct u; destruct (pd =? 3); [| destruct (pd =? 2) | | destruct (pd =? 2)];
    (split; [done | repeat (constructor; [cbn; lia |]); constructor]).
Qed.

Lemma lorenzo_total u pd (a : list Z) pos o0 o1 : (2 * o0 + 2 * o1 + 2 <= pos < length a)%nat ->
  is_Some (lorenzo_predict (lorenzo_terms u pd) a pos o0 o1).
Proof.
  intros Hpos. destruct (lorenzo_terms_near u pd) as [Hne Ht]. apply lorenzo_predict_total; [done | lia |].
  eapply Forall_impl; [| exact Ht]. intros [[m f] [[x y] z]] (Hx & Hy & Hz). unfold term_offset. cbn [fst snd] in *. nia.
Qed.

Lemma rank_3 a b c x y z : (x < a -> y < b -> z < c -> (x * b + y) * c + z < a * b * c)%nat.
Proof.
  intros Hx Hy Hz. assert ((x + 1) * b <= a * b)%nat as H by (apply Nat.mul_le_mono_r; lia).
  assert ((x * b + y + 1) * c <= a * b * c)%nat by (apply Nat.mul_le_mono_r; lia). lia.
Qed.

Variable s : DSize.
Hypothesis Hd : (0 < d1 s /\ 0 < d2 s /\ 0 < d3 s)%nat.
Hypothesis Hb : (0 < bs s)%nat.
Hypothesis Hpad : pad s = 2%nat /\ (2 <= bs s)%nat.

Lemma cell_inside i j k c : Block i j k ∈ events s -> c ∈ cells s i j k ->
  (c_data c < d1 s * d2 s * d3 s /\
   2 * buffer_dim0_offset s + 2 * buffer_dim1_offset s + 2 <= c_buffer c < (bs s + pad s) * buffer_dim0_offset s)%nat.
Proof.
  intros (Hi & Hj & Hk)%events_elem (ii & jj & kk & -> & Hii & Hjj & Hkk)%cells_elem. destruct Hd as (H1 & H2 & H3), Hpad as [Hp _].
  pose proof (in_block _ _ _ _ H1 Hb Hi Hii) as Hx. pose proof (in_block _ _ _ _ H2 Hb Hj Hjj) as Hy.
  pose proof (in_block _ _ _ _ H3 Hb Hk Hkk) as Hz. rewrite extent_min in Hii. rewrite cell_place. cbn [c_buffer cell_at].
  unfold pred_buffer_pos, buffer_dim0_offset, buffer_dim1_offset. rewrite Hp. set (x := (i * bs s + ii)%nat) in *.
  set (y := (j * bs s + jj)%nat) in *. set (z := (k * bs s + kk)%nat) in *. split; [by apply rank_3 |].
  replace (j * bs s * (d3 s + 2) + k * bs s + 2 * ((d2 s + 2) * (d3 s + 2) + (d3 s + 2) + 1) + ii * ((d2 s + 2) * (d3 s + 2)) + jj * (d3 s + 2) + kk)%nat
    with ((2 + ii) * ((d2 s + 2) * (d3 s + 2)) + ((2 + y) * (d3 s + 2) + (2 + z)))%nat by (unfold y, z; lia).
  split; [nia |]. assert ((2 + y) * (d3 s + 2) + (2 + z) < (d2 s + 2) * (d3 s + 2))%nat by nia.
  assert ((2 + ii + 1) * ((d2 s + 2) * (d3 s + 2)) <= (bs s + 2) * ((d2 s + 2) * (d3 s + 2)))%nat by (apply Nat.mul_le_mono_r; lia). lia.
Qed.

Lemma copy_total buffer : length buffer = ((bs s + pad s) * buffer_dim0_offset s)%nat ->
  exists buffer', copy_bottom s buffer = Some buffer' /\ length buffer' = length buffer.
Proof.
  intros Hl. destruct Hpad as [Hp H2]. unfold copy_bottom. rewrite assert_true by (apply Nat.leb_le; lia). cbn [mbind option_bind].
  eexists. split; [done |]. rewrite length_app, length_take, !length_drop, Hl. nia.
Qed.

(** The places where the errors are estimated. *)
Lemma point_inside i j k p : Block i j k ∈ events s ->
  let m := Nat.min (Nat.min (extent (d1 s) (bs s) i) (extent (d2 s) (bs s) j)) (extent (d3 s) (bs s) k) in
  p ∈ points m ->
  (2 * dim0_offset s + 2 * dim1_offset s + 2 <= z_data_pos s i j k + p.1.1 * dim0_offset s + p.1.2 * dim1_offset s + p.2 < d1 s * d2 s * d3 s)%nat.
Proof.
  intros (Hi & Hj & Hk)%events_elem m Hp. destruct Hd as (H1 & H2 & H3).
  assert (2 <= p.1.1 < m /\ 2 <= p.1.2 < m /\ 2 <= p.2 < m)%nat as (Hx & Hy & Hz).
  { unfold points in Hp. apply elem_of_app in Hp as [(x & Hp & Hx%elem_of_seq)%list_elem_of_bind | Hp].
    - repeat (apply elem_of_cons in Hp as [-> | Hp]; [cbn; lia |]). by apply not_elem_of_nil in Hp.
    - destruct (Nat.ltb_spec 3 m); [apply list_elem_of_singleton in Hp as ->; cbn; lia | by apply not_elem_of_nil in Hp]. }
  destruct p as [[x y] z]. cbn [fst snd] in *.
  pose proof (in_block _ _ i x H1 Hb Hi ltac:(lia)) as Bx. pose proof (in_block _ _ j y H2 Hb Hj ltac:(lia)) as By.
  pose proof (in_block _ _ k z H3 Hb Hk ltac:(lia)) as Bz. pose proof (cell_place s i j k x y z) as E. cbn [c_data cell_at] in E. rewrite E.
  unfold dim0_offset, dim1_offset. split; [| by apply rank_3].
  assert (2 * (d2 s * d3 s) <= (i * bs s + x) * d2 s * d3 s)%nat by nia. assert (2 * d3 s <= (j * bs s + y) * d3 s)%nat by nia. nia.
Qed.

Section total.

Context {Q : Type} `{HQ : !QuantizerInterface Q}.
Variables (params : meta_params) (precision absErrorBound : Z) (mean : Z) (data : list Z).
Hypothesis Hdata : length data = (d1 s * d2 s * d3 s)%nat.

Lemma selection_total i j k pd l l2 r ori : Block i j k ∈ events s -> (r = true -> length ori = 4%nat) ->
  let m := Nat.min (Nat.min (extent (d1 s) (bs s) i) (extent (d2 s) (bs s) j)) (extent (d3 s) (bs s) k) in
  exists sel, meta_blockwise_selection_3d s data false mean absErrorBound pd l l2 r (z_data_pos s i j k) ori m = Some sel /\
    (sel = SELECTOR_REGRESSION -> r = true).
Proof.
  intros He Ho m. unfold meta_blockwise_selection_3d.
  assert (forall ps e, (forall p, p ∈ ps -> p ∈ points m) ->
    is_Some (estimate s data false mean absErrorBound pd l l2 r (z_data_pos s i j k) ori ps e)) as H.
  { induction ps as [| p ps IH]; intros e Hin; [by eexists |]. cbn [estimate].
    pose proof (point_inside i j k p He (Hin p ltac:(by left))) as Hp. destruct e as [[e1 e2] e3], p as [[x y] z]. cbn [fst snd] in Hp.
    unfold meta_block_error_estimation_3d. set (pos := (z_data_pos s i j k + _ + _ + _)%nat) in *.
    assert (is_Some (data !! pos)) as [cur ->] by (apply lookup_lt_is_Some; lia). cbn [mbind option_bind].
    destruct (lorenzo_total true pd data pos (dim0_offset s) (dim1_offset s)) as [p2 ->]; [lia |].
    destruct (lorenzo_total false pd data pos (dim0_offset s) (dim1_offset s)) as [p1 ->]; [lia |].
    assert (r = true -> is_Some (regression_predict_3d ori x y z)) as Hr.
    { intros Hr. specialize (Ho Hr). destruct ori as [| c0 [| c1 [| c2 [| c3 [| ]]]]]; done. }
    destruct r; [destruct (Hr eq_refl) as [pr ->] |]; cbn [mbind option_bind]; destruct l, l2; cbn [mbind option_bind];
      apply IH; intros q Hq; apply Hin; by right. }
  destruct (H (points m) (0, 0, 0)) as [[[e1 e2] e3] ->]; [done |]. cbn [mbind option_bind]. eexists. split; [done |].
  intros E. destruct r; [done |]. cbn [andb] in E. destruct (_ && _ && _); done.
Qed.

Lemma coefficients_total i j k : Block i j k ∈ events s ->
  is_Some (compute_regression_coeffcients_3d data (z_data_pos s i j k) (extent (d1 s) (bs s) i) (extent (d2 s) (bs s) j)
             (extent (d3 s) (bs s) k) (dim0_offset s) (dim1_offset s)).
Proof.
  intros He. unfold compute_regression_coeffcients_3d, block_lines.
  assert (forall {A B} (f : A -> option B) l, (forall x, x ∈ l -> is_Some (f x)) -> is_Some (mapM f l)) as HM
    by (intros A B f l H; apply mapM_is_Some_2, list.Forall_forall; exact H).
  match goal with |- is_Some (mapM ?f ?l ≫= _) => assert (is_Some (mapM f l)) as [lines ->] end.
  { apply HM. intros x Hx%elem_of_seq. apply HM. intros y Hy%elem_of_seq. apply HM. intros z Hz%elem_of_seq. apply lookup_lt_is_Some.
    destruct (cell_inside i j k (cell_at s i j k x y z) He) as [H _]; [apply cells_elem; exists x, y, z; split; [done | lia] |].
    cbn [c_data cell_at] in H. lia. }
  cbn [mbind option_bind]. destruct (block_sums lines) as [[[fx fy] fz] f]. by eexists.
Qed.

Lemma cells_total pd sel coeffs cs : (sel = SELECTOR_REGRESSION -> length coeffs = 4%nat) ->
  forall buffer (q : Q), length buffer = ((bs s + pad s) * buffer_dim0_offset s)%nat ->
  Forall (fun c => c_data c < d1 s * d2 s * d3 s /\
    2 * buffer_dim0_offset s + 2 * buffer_dim1_offset s + 2 <= c_buffer c < (bs s + pad s) * buffer_dim0_offset s)%nat cs ->
  exists ts rs buffer' q', quantize_cells s false mean precision pd sel coeffs data cs buffer q = Some (ts, rs, buffer', q') /\
    length buffer' = length buffer.
Proof.
  intros Hc. induction cs as [| c cs IH]; intros buffer q Hl Hin; [by eexists _, _, _, _ |].
  apply Forall_cons_iff in Hin as [[H1 H2] Hin]. cbn [quantize_cells andb].
  assert (is_Some (data !! c_data c)) as [x ->] by (apply lookup_lt_is_Some; lia). cbn [mbind option_bind].
  rewrite assert_true by (apply Nat.ltb_lt; lia). cbn [mbind option_bind].
  assert (is_Some (predict s pd sel coeffs buffer c)) as [p ->].
  { unfold predict. destruct (Z.eqb_spec sel SELECTOR_REGRESSION) as [E | E]; [| apply lorenzo_total; lia].
    specialize (Hc E). destruct coeffs as [| c0 [| c1 [| c2 [| c3 [| ]]]]]; done. }
  cbn [mbind option_bind]. destruct (q_quantize q x p) as [[t r] q1].
  destruct (IH (<[c_buffer c := r]> buffer) q1) as (ts & rs & b' & q' & -> & Hb'); [by rewrite length_insert | done |].
  cbn [mbind option_bind]. eexists _, _, _, _. split; [done |]. by rewrite Hb', length_insert.
Qed.

Lemma events_total es : (forall e, e ∈ es -> e ∈ events s) -> forall st : state (Q := Q), regs_ok (st_regs st) ->
  length (st_buffer st) = ((bs s + pad s) * buffer_dim0_offset s)%nat ->
  is_Some (compress_events s params precision absErrorBound false mean data es st).
Proof.
  induction es as [| e es IH]; intros Hes st Hg Hl; [by eexists |].
  assert (forall e, e ∈ es -> e ∈ events s) as Hes' by (intros e' H; apply Hes; by right).
  destruct e as [i j k |]; cbn [compress_events].
  - pose proof (Hes (Block i j k) ltac:(by left)) as He. unfold compress_block.
    set (m := Nat.min (Nat.min _ _) _). set (r := use_regression_linear params && _).
    assert (exists ori, (if r then compute_regression_coeffcients_3d data (z_data_pos s i j k) (extent (d1 s) (bs s) i)
      (extent (d2 s) (bs s) j) (extent (d3 s) (bs s) k) (dim0_offset s) (dim1_offset s) else Some []) = Some ori /\
      (r = true -> length ori = 4%nat)) as (ori & -> & Ho).
    { destruct r; [| by exists []]. destruct (coefficients_total i j k He) as [ori E]. exists ori. split; [done |].
      intros _. by apply coefficients_length in E as [? _]. }
    cbn [mbind option_bind].
    destruct (selection_total i j k (prediction_dim params) (use_lorenzo params) (use_lorenzo_2layer params) r ori He Ho) as (sel & Es & Hsel).
    fold m in Es. rewrite Es.    cbn [mbind option_bind].
    assert (Forall (fun c => c_data c < d1 s * d2 s * d3 s /\
      2 * buffer_dim0_offset s + 2 * buffer_dim1_offset s + 2 <= c_buffer c < (bs s + pad s) * buffer_dim0_offset s)%nat (cells s i j k)) as Hin
      by (apply list.Forall_forall; intros c; by apply cell_inside).
    destruct (Z.eqb_spec sel SELECTOR_REGRESSION) as [E | E].
    + destruct (regression_block _ _ _ _) as [[[ts rs] us] g] eqn:Er. apply regression_block_ok in Er as (I1 & I2 & I3 & I4); [| done | auto].
      destruct (cells_total (prediction_dim params) sel rs (cells s i j k) ltac:(intros _; rewrite <- I3; apply I2) (st_buffer st) (st_quantizer st) Hl Hin)
        as (ts' & rs' & b' & q' & -> & Hb'). cbn [mbind option_bind].
      destruct (IH Hes' {| st_buffer := b'; st_regs := g; st_quantizer := q' |}) as [[bs' st'] ->]; [exact I2 | cbn; congruence |]. by eexists.
    + destruct (cells_total (prediction_dim params) sel [] (cells s i j k) ltac:(done) (st_buffer st) (st_quantizer st) Hl Hin)
        as (ts' & rs' & b' & q' & -> & Hb'). cbn [mbind option_bind].
      destruct (IH Hes' {| st_buffer := b'; st_regs := st_regs st; st_quantizer := q' |}) as [[bs' st'] ->]; [exact Hg | cbn; congruence |]. by eexists.
  - destruct (copy_total (st_buffer st) Hl) as (b' & -> & Hb'). cbn [mbind option_bind]. apply IH; [done | done | cbn; congruence].
Qed.

End total.
End bounds.

(** ** The law of the interface *)

Section law.

Context {Q : Type} `{HQ : !QuantizerInterface Q} `{Order : !MapOrder}.
Variables (left_first : bool) (junk : Z) (padding garbage : nat -> Z).

(** What the blocks stored of the coefficients. *)
Definition stored_of (bs : list block_out) : list Z := mjoin (zip_with stored (types_of bs) (params_of_blocks bs)).

(** Along the loops: what holds of the members for the coefficients before and after each block with the regression. *)
Fixpoint each_regression (R : regs -> regs -> Prop) (s : DSize) (params : meta_params) (precision eb mean : Z)
    (data : list Z) (es : list event) (st : state (Q := Q)) : Prop :=
  match es with
  | [] => True
  | Block i j k :: es =>
      match compress_block s params precision eb false mean data i j k st with
      | Some (b, st') =>
          (b_sel b = SELECTOR_REGRESSION -> R (st_regs st) (st_regs st')) /\
          each_regression R s params precision eb mean data es st'
      | None => True
      end
  | Copy :: es =>
      match copy_bottom s (st_buffer st) with
      | Some buffer => each_regression R s params precision eb mean data es
                         {| st_buffer := buffer; st_regs := st_regs st; st_quantizer := st_quantizer st |}
      | None => True
      end
  end.

(** The indices of the coefficients are in their range. *)
Definition coefficients_in_range (params : meta_params) (g g' : regs) : Prop :=
  indices_ok (reg_precisions params) (reg_last g) (reg_params_ori g').

(** No coefficient was near that of the block before for a hundred times. *)
Definition counters_low (g _ : regs) : Prop := Forall (fun n => n <> 100) (reg_params_ori_cnt g).

(** The coefficients can be decoded: there are none, or at least three blocks have some; their
    types can be encoded, and what was stored is what will be read. *)
Definition coefficients_ok (bs : list block_out) : Prop :=
  types_of bs = [] \/
  (3 <= length (types_of bs))%nat /\ SzHuffman.encodable (mjoin (types_of bs)) /\ unpredictable_of bs = stored_of bs.

Definition shape (d : Decomposition (Q := Q)) (s : DSize) (data : list Z) : Prop :=
  dims (conf d) = [Z.of_nat (d1 s); Z.of_nat (d2 s); Z.of_nat (d3 s)] /\ (0 < d1 s /\ 0 < d2 s /\ 0 < d3 s)%nat /\
  blockSize (conf d) = Z.of_nat (bs s) /\ (2 <= bs s)%nat /\ pad s = 2%nat /\
  length data = (d1 s * d2 s * d3 s)%nat /\ num (conf d) = Z.of_nat (length data) /\ Z.of_nat (length data) <= 2 ^ 42.

Definition along (d : Decomposition (Q := Q)) (R : regs -> regs -> Prop) (s : DSize) (data : list Z) : Prop :=
  each_regression R s (params d) (precision d) (absErrorBound (conf d)) (mean d) data (events s)
    {| st_buffer := pred_buffer s; st_regs := no_regs; st_quantizer := quantizer d |}.

(** What is compressed: values in the range of the quantizer, whose coefficients are in theirs. *)
Record domain (d : Decomposition (Q := Q)) (data : list Z) : Prop := {
  do_quantizer : fresh (quantizer d) /\ storable (quantizer d);
  do_params : params_ok (params d) /\ block_size (params d) = blockSize (conf d) /\ lorenzo_padding_layer (params d) = 2;
  do_members : use_mean d = false /\ is_u64 (mean d) /\ is_u64 (precision d);
  do_run : exists s, shape d s data /\ along d (coefficients_in_range (params d)) s data /\
    forall bs st, run d s data = Some (bs, st) -> Forall (result_ok (quantizer d) data) (mjoin (b_results <$> bs))
}.

(** The number of blocks with the regression is not 1 or 2. *)
Definition enough_regressions (d : Decomposition (Q := Q)) (data : list Z) : Prop :=
  forall s bs st, shape d s data -> run d s data = Some (bs, st) ->
    length (types_of bs) <> 1%nat /\ length (types_of bs) <> 2%nat.

(** No coefficient is near that of the block before for so long that it is stored again. *)
Definition none_repeated (d : Decomposition (Q := Q)) (data : list Z) : Prop :=
  forall s, shape d s data -> along d counters_low s data.

Lemma size_of_shape c r1 r2 r3 b : dims c = [Z.of_nat r1; Z.of_nat r2; Z.of_nat r3] -> (0 < r1 /\ 0 < r2 /\ 0 < r3)%nat -> (0 < b)%nat ->
  size_of c (Z.of_nat b) 2 = Some {| d1 := r1; d2 := r2; d3 := r3; bs := b; pad := 2 |}.
Proof.
  intros Hd (H1 & H2 & H3) Hb. unfold size_of. rewrite Hd.
  rewrite assert_true by (rewrite !(proj2 (Z.ltb_lt _ _)) by lia; done). cbn [mbind option_bind]. by rewrite !Nat2Z.id.
Qed.

Lemma blocks_of_le d b : (0 < d -> 0 < b -> blocks_of d b <= d)%nat.
Proof. intros Hd Hb. unfold blocks_of. pose proof (Nat.Div0.div_le_upper_bound (d - 1) b (d - 1)). nia. Qed.

Lemma length_blocks s : length (filter (fun e => e <> Copy) (events s)) = num_blocks s.
Proof.
  unfold events, num_blocks. set (nx := blocks_of (d1 s) (bs s)). set (ny := blocks_of (d2 s) (bs s)). set (nz := blocks_of (d3 s) (bs s)).
  assert (forall i n, length (seq 0 n ≫= fun j => Block i j <$> seq 0 nz) = n * nz)%nat as Hy.
  { intros i n. rewrite (length_bind_mul _ (const 1%nat) nz) by (intros; rewrite length_fmap, length_seq; unfold const; lia).
    assert (forall n a, sum_list (const 1%nat <$> seq a n) = n) as -> by (induction n0 as [| m IH]; intros a; [done |]; cbn; by rewrite IH). lia. }
  assert (forall i l, filter (fun e => e <> Copy) (l ≫= fun j => Block i j <$> seq 0 nz) = l ≫= fun j => Block i j <$> seq 0 nz) as Hf.
  { intros i l. assert (Forall (fun e => e <> Copy) (l ≫= fun j => Block i j <$> seq 0 nz)) as HF
      by (apply list.Forall_forall; intros e (j & (k & -> & _)%list_elem_of_fmap & _)%list_elem_of_bind; done).
    induction HF as [| e l' He HF IH]; [done |]. by rewrite filter_cons, decide_True, IH. }
  assert (forall n a, length (filter (fun e => e <> Copy) (seq a n ≫= fun i => (seq 0 ny ≫= fun j => Block i j <$> seq 0 nz) ++ [Copy]))
    = n * (ny * nz))%nat as ->; [| lia].
  induction n as [| n IH]; intros a; [done |]. cbn [seq]. rewrite bind_cons, !list.filter_app, !length_app, Hf, Hy, IH.
  rewrite filter_cons, decide_False by (intros H; by apply H). simpl. lia.
Qed.

(** What is stored comes from the coefficients that were computed. *)
#[local] Opaque keep_coeff.

Lemma keep_stored precision prev_ori : forall ori cnt ts rs cnt' ts' rs' us,
  keep_coeffs precision prev_ori ori cnt ts rs = (cnt', ts', rs', us) -> Forall is_u32 ori -> Forall is_u32 us.
Proof.
  induction prev_ori as [| p prev IH]; intros ori cnt ts rs cnt' ts' rs' us E H;
    destruct ori as [| o ori], cnt as [| n cnt], ts as [| t ts], rs as [| r rs]; cbn [keep_coeffs] in E;
    try (rewrite !pair_equal_spec in E; destruct E as [_ <-]; constructor).
  apply Forall_cons_iff in H as [Ho H]. destruct (keep_coeff precision p o n t r) as [[[n' t'] r'] u] eqn:Ek.
  destruct (keep_coeffs _ _ _ _ _ _) as [[[cnt1 ts1] rs1] us1] eqn:Er. rewrite !pair_equal_spec in E. destruct E as [_ <-].
  apply Forall_app. split; [| by apply (IH _ _ _ _ _ _ _ _ Er)]. apply keep_cases in Ek as [(_ & ->) | (_ & _ & ->)]; [by apply Forall_cons_2 | constructor].
Qed.

Lemma events_stored s params precision eb mean data es : forall (st : state (Q := Q)) bs st',
  compress_events s params precision eb false mean data es st = Some (bs, st') -> Forall is_u32 (unpredictable_of bs).
Proof.
  induction es as [| e es IH]; intros st bs st' E; [by apply (inj Some), pair_equal_spec in E as [<- <-] |].
  destruct e as [i j k |]; cbn [compress_events] in E; [| apply bind_Some in E as (b & _ & E); by apply (IH _ _ _ E)].
  apply bind_Some in E as ([b st1] & E1 & E). apply bind_Some in E as ([bs1 st2] & E2 & H).
  apply (inj Some), pair_equal_spec in H as [<- <-]. apply IH in E2. unfold compress_block in E1.
  apply bind_Some in E1 as (ori & Eo & E1). apply bind_Some in E1 as (sel & _ & E1). unfold unpredictable_of in *. cbn [omap list_omap].
  assert (Forall is_u32 ori) as Ho.
  { destruct (_ && _); [by apply coefficients_length in Eo as [_ ?] | apply (inj Some) in Eo as <-; constructor]. }
  destruct (sel =? _).
  - destruct (regression_block _ _ _ _) as [[[ts rs] us] g] eqn:Er. apply bind_Some in E1 as ([[[types results] buffer] q] & _ & H).
    apply (inj Some), pair_equal_spec in H as [<- _]. cbn [b_reg fmap option_fmap option_map snd].
    change (Forall is_u32 (us ++ mjoin (omap (fun b => snd <$> b_reg b) bs1))). apply Forall_app. split; [| done].
    unfold regression_block in Er. destruct (compress_regression_coefficient_3d _ _ _) as [[ts1 rs1] us1] eqn:Ec.
    destruct (keep_coeffs _ _ _ _ _ _) as [[[cnt ts2] rs2] us2] eqn:Ek. rewrite !pair_equal_spec in Er. destruct Er as [[_ <-] _].
    apply Forall_app. split; [by apply (compress_stored _ _ _ _ _ _ Ec) | by apply (keep_stored _ _ _ _ _ _ _ _ _ _ Ek)].
  - apply bind_Some in E1 as ([[[types results] buffer] q] & _ & H). by apply (inj Some), pair_equal_spec in H as [<- _].
Qed.

(** Below a hundred, the coefficients stay as they were quantized. *)
Lemma keep_same precision prev_ori : forall ori cnt ts rs cnt' ts' rs' us,
  keep_coeffs precision prev_ori ori cnt ts rs = (cnt', ts', rs', us) -> Forall (fun n => n <> 100) cnt ->
  length prev_ori = length cnt -> length ori = length cnt -> length ts = length cnt -> length rs = length cnt ->
  ts' = ts /\ rs' = rs /\ us = [].
Proof.
  induction prev_ori as [| p prev IH]; intros [| o ori] [| n cnt] [| t ts] [| r rs] cnt' ts' rs' us E H H1 H2 H3 H4; try done;
    cbn [keep_coeffs] in E; [by rewrite !pair_equal_spec in E; destruct E as [[[_ <-] <-] <-] |].
  apply Forall_cons_iff in H as [Hn H]. destruct (keep_coeff precision p o n t r) as [[[n' t'] r'] u] eqn:Ek.
  destruct (keep_coeffs _ _ _ _ _ _) as [[[cnt1 ts1] rs1] us1] eqn:Er. rewrite !pair_equal_spec in E. destruct E as [[[_ <-] <-] <-].
  simpl in H1, H2, H3, H4. destruct (IH _ _ _ _ _ _ _ _ Er H) as (-> & -> & ->); try lia.
  apply keep_below in Ek as (-> & -> & ->); done.
Qed.

Lemma regression_block_stored params precision g ori ts rs us g' : regs_ok g -> length ori = 4%nat ->
  regression_block params precision g ori = (ts, rs, us, g') ->
  coefficients_in_range params g g' -> counters_low g g' ->
  us = stored ts rs /\ Forall (fun t => 0 <= t < 2 * RegCoeffRadius) ts.
Proof.
  intros (H1 & H2 & H3) Ho E Hr Hc. unfold regression_block in E.
  destruct (compress_regression_coefficient_3d _ _ _) as [[ts1 rs1] us1] eqn:Ec.
  destruct (keep_coeffs _ _ _ _ _ _) as [[[cnt ts2] rs2] us2] eqn:Ek. rewrite !pair_equal_spec in E. destruct E as [[[<- <-] <-] <-].
  unfold coefficients_in_range in Hr. cbn [reg_params_ori] in Hr.
  destruct (compress_in_range _ _ _ _ _ _ Ec Hr) as [-> HF].
  apply compress_explained in Ec as [Hb Hl]; [| done | done].
  assert (length rs1 = 4%nat) as Hrs by (by apply block_explained_length in Hb as [_ ?]).
  destruct (keep_same _ _ _ _ _ _ _ _ _ _ Ek Hc) as (-> & -> & ->); try congruence.
  by rewrite app_nil_r.
Qed.

Lemma events_coefficients s params precision eb mean data es : forall (st : state (Q := Q)) bs st',
  compress_events s params precision eb false mean data es st = Some (bs, st') -> regs_ok (st_regs st) ->
  each_regression (coefficients_in_range params) s params precision eb mean data es st ->
  each_regression counters_low s params precision eb mean data es st ->
  unpredictable_of bs = stored_of bs /\ Forall (fun t => 0 <= t < 2 * RegCoeffRadius) (mjoin (types_of bs)).
Proof.
  induction es as [| e es IH]; intros st bs st' E Hg Hr Hc; [by apply (inj Some), pair_equal_spec in E as [<- <-] |].
  destruct e as [i j k |]; cbn [compress_events each_regression] in *.
  2:{ apply bind_Some in E as (b & Eb & E). rewrite Eb in Hr, Hc. by apply (IH _ _ _ E). }
  apply bind_Some in E as ([b st1] & E1 & E). apply bind_Some in E as ([bs1 st2] & E2 & H).
  apply (inj Some), pair_equal_spec in H as [<- <-]. rewrite E1 in Hr, Hc. destruct Hr as [Hr0 Hr], Hc as [Hc0 Hc].
  destruct (block_regs _ _ _ _ _ _ _ _ _ _ _ _ E1 Hg) as [Hg1 Hb]. destruct (IH _ _ _ E2 Hg1 Hr Hc) as [I1 I2].
  unfold unpredictable_of, stored_of, types_of, params_of_blocks in *. cbn [omap list_omap].
  destruct (b_reg b) as [[[ts rs] us] |]; [| done]. destruct Hb as (ori & Hsel & Ho & Er).
  destruct (regression_block_stored _ _ _ _ _ _ _ _ Hg Ho Er (Hr0 Hsel) (Hc0 Hsel)) as [-> HF].
  cbn [fmap option_fmap option_map fst snd zip_with].
  change (mjoin (stored ts rs :: ?l)) with (stored ts rs ++ mjoin l). change (mjoin (ts :: ?l)) with (ts ++ mjoin l).
  rewrite I1. split; [done | by apply Forall_app].
Qed.

Lemma length_stored tss : forall rss, Forall (fun ts => length ts = 4%nat) tss ->
  (length (mjoin (zip_with stored tss rss)) <= 4 * length tss)%nat.
Proof.
  assert (forall ts rs, length (stored ts rs) <= length ts)%nat as H.
  { induction ts as [| t ts IH]; intros [| r rs]; simpl; try lia. unfold stored in *. cbn [zip zip_with]. rewrite bind_cons, length_app.
    specialize (IH rs). cbn [fst snd]. destruct (t =? 0); simpl; lia. }
  induction tss as [| ts tss IH]; intros [| rs rss] H4; simpl; try lia. apply Forall_cons_iff in H4 as [Ht H4].
  rewrite length_app. specialize (IH rss H4). specialize (H ts rs). lia.
Qed.

(** The loops go through the data, and what they leave has the length announced. *)
Lemma run_total d s data : use_mean d = false -> shape d s data -> is_Some (run d s data).
Proof.
  intros Hm (Hdims & Hpos & Hbs & H2 & Hpad & Hl & _). unfold run. rewrite Hm. apply events_total; try done; try lia.
  cbn [st_buffer]. apply length_replicate.
Qed.

Lemma read_params_bytes p tl rem : params_ok p -> Z.of_nat sizeof_params <= rem ->
  read_params (params_bytes padding p ++ tl) rem = Some (p, tl, rem - Z.of_nat sizeof_params).
Proof.
  intros Hp Hrem. unfold read_params. rewrite !assert_true by (apply Z.leb_le || apply Nat.leb_le; rewrite ?length_app, ?(length_params padding p); lia).
  cbn [mbind option_bind]. rewrite params_roundtrip by done. cbn [mbind option_bind]. rewrite (drop_app_length' (params_bytes padding p)) by (by rewrite length_params). done.
Qed.

Lemma indicator_encodable bs : bs <> [] -> Forall (fun i => 0 <= i <= 2) (b_sel <$> bs) -> Z.of_nat (length bs) <= 2 ^ 44 ->
  SzHuffman.encodable (b_sel <$> bs).
Proof.
  intros Hne Hi Hl. split_and!.
  - by intros E%fmap_nil_inv.
  - eapply Forall_impl; [| exact Hi]. unfold is_i32. simpl. lia.
  - rewrite list.Forall_forall in Hi. intros x y Hx Hy. pose proof (Hi x Hx). pose proof (Hi y Hy). lia.
  - by rewrite length_fmap.
Qed.

Lemma num_blocks_bounds s : (0 < d1 s /\ 0 < d2 s /\ 0 < d3 s)%nat -> (0 < bs s)%nat -> (0 < num_blocks s <= d1 s * d2 s * d3 s)%nat.
Proof.
  intros (H1 & H2 & H3) Hb. unfold num_blocks. pose proof (blocks_of_le (d1 s) (bs s) H1 Hb). pose proof (blocks_of_le (d2 s) (bs s) H2 Hb).
  pose proof (blocks_of_le (d3 s) (bs s) H3 Hb). split; [unfold blocks_of; lia |]. apply Nat.mul_le_mono; [| done]. by apply Nat.mul_le_mono.
Qed.

Lemma length_types tss : Forall (fun ts : list Z => length ts = 4%nat) tss -> length (mjoin tss) = (4 * length tss)%nat.
Proof.
  induction 1 as [| ts tss H H4 IH]; [done |]. change (mjoin (ts :: tss)) with (ts ++ mjoin tss). rewrite length_app, H, IH. simpl. lia.
Qed.

(** The coefficients of the run can be decoded. *)
Lemma run_coefficients d s data bs st : use_mean d = false -> shape d s data -> run d s data = Some (bs, st) ->
  along d (coefficients_in_range (params d)) s data -> along d counters_low s data ->
  length (types_of bs) <> 1%nat /\ length (types_of bs) <> 2%nat -> coefficients_ok bs.
Proof.
  intros Hum (Hdims & Hpos & Hbs & H2 & Hpad & Hl & Hnum & H42) E Hr Hc [N1 N2]. unfold run in E. rewrite Hum in E.
  destruct (types_of bs) as [| ts tss] eqn:Et; [by left |]. right. rewrite <- Et in *.
  destruct (events_coefficients _ _ _ _ _ _ _ _ _ _ E) as [Eu HF]; [by split_and! | done | done |].
  destruct (events_chain _ _ _ _ _ _ _ _ _ _ E) as [_ H4]; [by split_and! |].
  destruct (events_sel _ _ _ _ _ _ _ _ _ _ E) as (_ & Hlen & Hcount). rewrite length_blocks in Hlen.
  pose proof (length_types _ H4) as El. pose proof (num_blocks_bounds s Hpos ltac:(lia)) as Hn.
  assert (0 < length (types_of bs))%nat as H0 by (rewrite Et; simpl; lia).
  rewrite list.Forall_forall in HF. split; [lia |]. split; [| done]. split_and!.
  - intros E0. rewrite E0 in El. simpl in El. lia.
  - apply list.Forall_forall. intros t Ht. specialize (HF t Ht). unfold is_i32, RegCoeffRadius in *. lia.
  - intros x y Hx Hy. pose proof (HF x Hx). pose proof (HF y Hy). unfold RegCoeffRadius in *. lia.
  - lia.
Qed.

(** The members after the loops. *)
Definition after (d : Decomposition (Q := Q)) (bs : list block_out) (st : state (Q := Q)) : Decomposition :=
  mk (conf d) (params d) (precision d) (use_mean d) (mean d) (length (types_of bs)) (b_sel <$> bs)
    (mjoin (types_of bs)) (unpredictable_of bs) (reg_params d) (st_quantizer st).

(** What is saved is loaded, with the coefficients decoded. *)
Lemma load_save d s data bs st : domain d data -> shape d s data -> run d s data = Some (bs, st) -> coefficients_ok bs ->
  storable (st_quantizer st) -> leads (quantizer d) (st_quantizer st) ->
  exists saved, save left_first junk padding (after d bs st) = Some saved /\
  forall e0 tl rem, dims (conf e0) = dims (conf d) -> Z.of_nat (length saved) <= rem < 2 ^ 62 ->
    exists q rem', load e0 (saved ++ tl) rem
      = Some (mk (conf e0) (params d) (precision d) false (mean d) (length (types_of bs)) (b_sel <$> bs) [] [] (params_of_blocks bs) q, tl, rem') /\
      rem - Z.of_nat (length saved) <= rem' /\ follows q (quantizer d) (st_quantizer st).
Proof.
  intros [[Hf Hs0] (Hpo & Hbp & Hpp) (Hum & Hmean & Hprec) _] (Hdims & Hpos & Hbs & H2 & Hpad & Hl & Hnum & H44) E Hco Hs Hlead.
  unfold run in E. rewrite Hum in E.
  destruct (events_sel _ _ _ _ _ _ _ _ _ _ E) as (Hsel & Hlen & Hcount). rewrite length_blocks in Hlen.
  destruct (events_chain _ _ _ _ _ _ _ _ _ _ E) as [Hchain H4]; [by split_and! |]. pose proof (events_stored _ _ _ _ _ _ _ _ _ _ E) as Hu32.
  destruct (num_blocks_bounds s Hpos ltac:(lia)) as [N1 N2].
  assert (bs <> []) as Hne by (intros ->; simpl in Hlen; lia).
  destruct (SzHuffman.huffman_encoder_correct left_first junk (b_sel <$> bs)) as (h & e & E1 & E2 & H); [apply indicator_encodable; [done | done | lia] |].
  assert (exists coefs, (if (length (types_of bs) =? 0)%nat then Some [] else
      encode_regression_coefficients left_first junk (mjoin (types_of bs)) (unpredictable_of bs)) = Some coefs /\
    forall tl, (if Z.of_nat (length (types_of bs)) =? 0 then Some ([], coefs ++ tl) else
      decode_regression_coefficients (coefs ++ tl) (Z.to_nat (Z.of_nat (length (types_of bs)))) (params d)) = Some (params_of_blocks bs, tl))
    as (coefs & Ec & Hc).
  { destruct Hco as [E0 | (H3 & Henc & Eu)].
    - rewrite E0. exists []. split; [done |]. intros tl. cbn. do 2 f_equal. rewrite E0 in Hchain. by destruct (params_of_blocks bs).
    - rewrite (proj2 (Nat.eqb_neq _ _)), (proj2 (Z.eqb_neq _ _)), Nat2Z.id by lia. rewrite Eu. unfold stored_of in *. rewrite Eu in Hu32.
      pose proof (length_stored (types_of bs) (params_of_blocks bs) H4).
      destruct (coefficients_roundtrip left_first junk (params d) (types_of bs) (params_of_blocks bs) []) as (bytes & Eb & _); try done; [lia |].
      exists bytes. split; [done |]. intros tl.
      destruct (coefficients_roundtrip left_first junk (params d) (types_of bs) (params_of_blocks bs) tl) as (bytes' & Eb' & Hd); try done; [lia |].
      rewrite Eb in Eb'. by injection Eb' as <-. }
  unfold save, after. cbn [indicator reg_count reg_params_type reg_unpredictable_data params precision use_mean mean quantizer]. rewrite Ec.
  unfold huffman_run. rewrite E1. cbn [mbind option_bind]. rewrite E2. cbn [mbind option_bind]. rewrite Hum.
  eexists. split; [done |]. intros e0 tl rem Hd0 Hrem. rewrite !length_app, length_params, !length_le_bytes in Hrem.
  rewrite !length_app, length_params, !length_le_bytes. unfold load. rewrite <- !app_assoc.
  rewrite read_params_bytes by (done || lia). cbn [mbind option_bind].
  rewrite read_var_len_le by (done || (unfold sizeof_params in *; lia)). cbn [mbind option_bind].
  rewrite read_var_len_le by (done || (unfold sizeof_params in *; lia)). cbn [mbind option_bind].
  rewrite read_var_len_le by (done || (unfold sizeof_params in *; lia)). cbn [mbind option_bind].
  rewrite read_var_len_le; [| change (2 ^ (8 * Z.of_nat 8)) with (2 ^ 64); lia | unfold sizeof_params in *; lia]. cbn [mbind option_bind].
  rewrite Hbp, Hbs, Hpp, (size_of_shape (conf e0) (d1 s) (d2 s) (d3 s) (Lorenzo3.bs s)) by (congruence || lia). cbn [mbind option_bind].
  pose proof (length_le_bytes 4 (u32 (SzHuffman.offset h))) as Hoff.
  assert (4 <= length (SzHuffman.save h))%nat as H4s by (unfold SzHuffman.save; rewrite length_app; lia).
  match goal with |- context [SzHuffman.load _ ?r] => destruct (H (coefs ++ q_save (st_quantizer st) ++ tl) r) as [L D]; [unfold sizeof_params in *; lia |] end.
  rewrite L. cbn [mbind option_bind]. assert (num_blocks _ = length (b_sel <$> bs)) as -> by (rewrite length_fmap, Hlen; by destruct s; cbn in *; subst).
  rewrite D. cbn [mbind option_bind]. rewrite Hc. cbn [mbind option_bind].
  match goal with |- context [q_load (quantizer e0) _ ?r] => destruct (load_follows (quantizer e0) (quantizer d) (st_quantizer st) tl r)
    as (q & rem' & -> & Hq & Hr); [done | done | done | unfold sizeof_params in *; lia |] end.
  cbn [mbind option_bind]. eexists q, _. split; [by rewrite Nat2Z.id |]. split; [| done].
  rewrite !length_app, length_params, !length_le_bytes. unfold sizeof_params in *. rewrite u64_id by (unfold is_u64; lia). lia.
Qed.

(** In up to a hundred blocks no counter gets there. *)
Definition counters_below (n : Z) (g : regs) : Prop := Forall (fun c => c <= n) (reg_params_ori_cnt g).

Lemma keep_counters precision prev_ori : forall ori cnt ts rs cnt' ts' rs' us n,
  keep_coeffs precision prev_ori ori cnt ts rs = (cnt', ts', rs', us) -> 0 <= n -> Forall (fun c => c <= n) cnt ->
  Forall (fun c => c <= n + 1) cnt'.
Proof.
  induction prev_ori as [| p prev IH]; intros ori cnt ts rs cnt' ts' rs' us n E Hn H;
    destruct ori as [| o ori], cnt as [| c cnt], ts as [| t ts], rs as [| r rs]; cbn [keep_coeffs] in E;
    try (rewrite !pair_equal_spec in E; destruct E as [[[<- _] _] _]; constructor).
  apply Forall_cons_iff in H as [Hc H]. destruct (keep_coeff precision p o c t r) as [[[c' t'] r'] u] eqn:Ek.
  destruct (keep_coeffs _ _ _ _ _ _) as [[[cnt1 ts1] rs1] us1] eqn:Er. rewrite !pair_equal_spec in E. destruct E as [[[<- _] _] _].
  constructor; [apply keep_count in Ek; lia | by apply (IH _ _ _ _ _ _ _ _ _ Er)].
Qed.

Lemma few_counters s params precision eb mean data es : forall (st : state (Q := Q)) n,
  0 <= n -> counters_below n (st_regs st) -> regs_ok (st_regs st) ->
  n + Z.of_nat (length (filter (fun e => e <> Copy) es)) <= 100 ->
  each_regression counters_low s params precision eb mean data es st.
Proof.
  induction es as [| e es IH]; intros st n Hn Hb Hg Hle; [done |]. destruct e as [i j k |]; cbn [each_regression].
  2:{ rewrite filter_cons, decide_False in Hle by (intros H; by apply H).
      destruct (copy_bottom _ _); [by apply (IH _ n) | done]. }
  rewrite filter_cons, decide_True in Hle by done. cbn [length] in Hle.
  destruct (compress_block _ _ _ _ _ _ _ _ _ _ _) as [[b st'] |] eqn:E; [| done].
  destruct (block_regs _ _ _ _ _ _ _ _ _ _ _ _ E Hg) as [Hg' Hr]. split.
  - intros _. eapply Forall_impl; [| exact Hb]. simpl. lia.
  - apply (IH _ (n + 1)); [lia | | done | lia]. destruct (b_reg b) as [[[ts rs] us] |].
    + destruct Hr as (ori & _ & _ & Er). unfold regression_block in Er.
      destruct (compress_regression_coefficient_3d _ _ _) as [[ts1 rs1] us1].
      destruct (keep_coeffs _ _ _ _ _ _) as [[[cnt ts2] rs2] us2] eqn:Ek. rewrite !pair_equal_spec in Er. destruct Er as [_ <-].
      by apply (keep_counters _ _ _ _ _ _ _ _ _ _ _ Ek).
    + rewrite Hr. eapply Forall_impl; [| exact Hb]. simpl. lia.
Qed.

Lemma few_blocks_none_repeated (d : Decomposition (Q := Q)) data :
  (forall s, shape d s data -> num_blocks s <= 100)%nat -> none_repeated d data.
Proof.
  intros H s Hs. apply (few_counters _ _ _ _ _ _ _ _ 0); [done | | by split_and! | rewrite length_blocks; specialize (H s Hs); lia].
  by repeat constructor.
Qed.

#[export] Program Instance lorenzo_3d : DecompositionInterface (Decomposition (Q := Q)) := {
  d_compress := compress_3d;
  d_decompress := decompress_3d garbage;
  d_radius d := q_radius (quantizer d);
  d_size_est := size_est left_first;
  d_save := save left_first junk padding;
  d_load := load;
  d_domain d data := domain d data /\ enough_regressions d data /\ none_repeated d data;
  d_bound d := q_radius (quantizer d);
  d_accurate d := accurate (quantizer d);
  d_peer d e := dims (conf e) = dims (conf d) /\ num (conf e) = num (conf d)
}.
Next Obligation.
  intros d data (Hdom & Hreg & Hrep). pose proof Hdom as [[Hf Hs] (Hpo & Hbp & Hpp) (Hum & _) (s & Hshape & Hrange & Hrun)].
  destruct (run_total d s data Hum Hshape) as [[bs st] E]. pose proof (Hrun _ _ E) as Hok.
  pose proof (run_coefficients d s data bs st Hum Hshape E Hrange (Hrep s Hshape) (Hreg s bs st Hshape E)) as Hco.
  pose proof Hshape as (Hdims & Hpos & Hbs & H2 & Hpad & Hl & Hnum & H44). pose proof E as Er. unfold run in Er. rewrite Hum in Er.
  destruct (events_follow _ _ _ _ _ _ _ _ _ _ Er Hs Hok) as (A1 & A2 & A3 & A4 & A5 & A6 & A7). cbn [st_quantizer] in *.
  destruct (events_chain _ _ _ _ _ _ _ _ _ _ Er) as [_ H4]; [by split_and! |].
  destruct (events_sel _ _ _ _ _ _ _ _ _ _ Er) as (_ & Hlen & Hcount). rewrite length_blocks in Hlen.
  assert (size_of (conf d) (blockSize (conf d)) (lorenzo_padding_layer (params d)) = Some s) as Es.
  { rewrite Hbs, Hpp, (size_of_shape _ _ _ _ _ Hdims) by (done || lia). f_equal. by destruct s; cbn in *; subst. }
  assert (length (unpredictable_of bs) <= 4 * num_blocks s)%nat as Hu.
  { destruct Hco as [E0 | (_ & _ & Eu)].
    - unfold types_of in E0. unfold unpredictable_of. assert (omap (fun b => snd <$> b_reg b) bs = []) as ->; [| simpl; lia].
      clear -E0. induction bs as [| b bs IH]; [done |]. cbn [omap list_omap] in *. destruct (b_reg b); [done | by apply IH].
    - rewrite Eu. etrans; [by apply length_stored | lia]. }
  assert (writes_of bs = (fun r => (r.1.1, r.2)) <$> mjoin (b_results <$> bs)) as Ew by done.
  assert ((writes_of bs).*1 ≡ₚ seq 0 (length data)) as Hperm.
  { rewrite Ew, <- list_fmap_compose, Hl. etrans; [| by apply (cells_all s Hpos ltac:(lia))].
    rewrite <- A4, <- list_fmap_compose. done. }
  destruct (load_save d s data bs st Hdom Hshape E Hco A2 A1) as (saved & Esave & Hload).
  exists (mjoin (b_types <$> bs)), (writes data (writes_of bs)), (after d bs st). split_and!.
  - unfold compress_3d. rewrite Es. cbn [mbind option_bind]. rewrite E. cbn [mbind option_bind].
    rewrite assert_true by (by apply Nat.leb_le). done.
  - rewrite A3, length_all by (done || lia). by rewrite Hl.
  - done.
  - apply (accurate_all _ (writes_of bs).*1); [apply length_writes | done |]. intros i ([k r] & -> & Hin)%list_elem_of_fmap.
    pose proof Hin as Hin'. rewrite Ew in Hin'. apply list_elem_of_fmap in Hin' as (res & Eres & Hres). rewrite pair_equal_spec in Eres. destruct Eres as [-> ->].
    rewrite list.Forall_forall in A6. destruct (A6 res Hres) as (x & Ex & Ha). exists x, res.2. cbn [fst]. split_and!; [done | | done].
    apply (writes_at (writes_of bs)); [rewrite Hperm; apply NoDup_seq | done | by apply lookup_lt_Some in Ex].
  - exists saved. split; [done |]. intros e0 tl rem [Hd0 Hn0] Hrem.
    destruct (Hload e0 tl rem Hd0 Hrem) as (q & rem' & El & Hr & Hq). eexists _, rem'. split; [exact El |]. split; [done |].
    unfold decompress_3d. cbn [conf params indicator reg_params quantizer use_mean mean].
    rewrite Hbp, Hbs, Hpp, (size_of_shape (conf e0) (d1 s) (d2 s) (d3 s) (Lorenzo3.bs s)) by (congruence || lia). cbn [mbind option_bind].
    assert ({| d1 := d1 s; d2 := d2 s; d3 := d3 s; bs := Lorenzo3.bs s; pad := 2 |} = s) as -> by (by destruct s; cbn in *; subst).
    pose proof (A7 q (st_quantizer st) (garbage <$> seq 0 (Z.to_nat (num (conf e0)))) [] [] []) as Hdec. rewrite !app_nil_r in Hdec.
    cbn [st_buffer] in Hdec. rewrite Hdec; [| done | done | rewrite length_fmap, length_seq, Hn0, Hnum; lia].
    f_equal. apply writes_all; [rewrite length_fmap, length_seq, Hn0, Hnum; lia |]. rewrite Hperm, length_fmap, length_seq, Hn0, Hnum, Nat2Z.id. done.
Qed.

End law.

(** ** Properties *)

#[local] Existing Instance LinearQuantizer.linear_quantizer.

Section properties.

Context `{Order : !MapOrder}.
Variables (left_first : bool) (junk : Z) (padding garbage : nat -> Z).

(** C36: data of three dimensions, each block predicted by the Lorenzo predictor of one or two layers
    or by a regression: the indices and what is saved, whatever follows it, give back values within
    the error bound, one for each of the data, provided that the regression is not chosen for exactly one
    or two blocks, and that no coefficient has been near that of the block before a hundred times in
    a row, when it is stored again (in up to a hundred blocks none can).  Without the former
    what was saved cannot be loaded, without the latter what is read is not what was stored. *)
Theorem lorenzo_3d_roundtrip (d : Decomposition (Q := LinearQuantizer.LinearQuantizer)) data :
  domain d data -> enough_regressions d data -> none_repeated d data ->
  exists inds rs d' saved, compress_3d d data = Some (inds, rs, d') /\ save left_first junk padding d' = Some saved /\
    length inds = length data /\ Forall2 (LinearQuantizer.bounded (quantizer d)) data rs /\
    forall e0 tl rem, dims (conf e0) = dims (conf d) -> num (conf e0) = num (conf d) ->
      Z.of_nat (length saved) <= rem < 2 ^ 62 -> exists e rem',
        load e0 (saved ++ tl) rem = Some (e, tl, rem') /\ decompress_3d garbage e inds = Some rs.
Proof.
  intros Hd Hreg Hrep. destruct (@d_correct _ (lorenzo_3d left_first junk padding garbage) d data (conj Hd (conj Hreg Hrep)))
    as (inds & rs & d' & E & Hl & _ & Hacc & saved & Es & H).
  exists inds, rs, d', saved. split_and!; try done. intros e0 tl rem Hp Hn Hrem.
  destruct (H e0 tl rem (conj Hp Hn) Hrem) as (e & rem' & E1 & _ & E2). eauto.
Qed.

(** With the regression chosen for one block only, or for two, what was saved cannot be loaded: the
    length that is checked for the coefficients is not that of the buffer, and too small. *)
Theorem lorenzo_3d_few_regressions (d e0 : Decomposition (Q := LinearQuantizer.LinearQuantizer)) saved tl rem :
  params_ok (params d) -> is_u64 (precision d) -> is_u64 (mean d) -> (1 <= reg_count d <= 2)%nat ->
  save left_first junk padding d = Some saved -> Z.of_nat (length saved) <= rem -> load e0 (saved ++ tl) rem = None.
Proof.
  intros Hp H1 H2 Hc E Hrem. unfold save in E. apply bind_Some in E as (encoded & _ & E). apply bind_Some in E as (coefs & _ & E).
  apply (inj Some) in E. rewrite <- E in Hrem |- *. clear E. rewrite !length_app, length_params, !length_le_bytes in Hrem.
  rewrite <- !app_assoc. unfold load. unfold sizeof_params in Hrem. rewrite read_params_bytes by (done || (unfold sizeof_params; lia)).
  cbn [mbind option_bind]. unfold sizeof_params.
  rewrite read_var_len_le by (done || lia). cbn [mbind option_bind].
  rewrite read_var_len_le by (lia || by destruct (use_mean d)). cbn [mbind option_bind].
  rewrite read_var_len_le by (done || lia). cbn [mbind option_bind].
  rewrite read_var_len_le; [| change (2 ^ (8 * Z.of_nat 8)) with (2 ^ 64); lia | lia]. cbn [mbind option_bind].
  destruct (size_of _ _ _) as [s |]; [| done]. cbn [mbind option_bind].
  destruct (SzHuffman.load _ _) as [[[[root offset] c6] r6] |]; [| done].
  cbn [mbind option_bind]. destruct (SzHuffman.decode _ _ _ _) as [[ind c7] |]; [| done]. cbn [mbind option_bind].
  rewrite (proj2 (Z.eqb_neq (Z.of_nat (reg_count d)) 0)), coefficients_refused by lia. done.
Qed.

(** A coefficient that is stored for the second time: the hundredth repetition stores it again
    although it was unpredictable, so that what is read is not what was stored. *)
Theorem lorenzo_3d_stored_twice precision prev ori r us :
  f64_ltb (f64_abs (f64_of_f32 (f32_sub prev ori))) (f64_mul precision f64_1em3) = true ->
  keep_coeff precision prev ori 100 0 r = (101, 0, ori, [ori]) /\ [r] ++ [ori] ++ us <> stored [0] [ori] ++ us.
Proof.
  intros H. unfold keep_coeff. rewrite H. split; [done |]. cbn. intros E%(f_equal length). simpl in E. lia.
Qed.

End properties.

(** ** Witnesses *)

(** 4 times 4 times 4 numbers that rise by 1.0 along the last dimension, with an error bound of 0.25, in
    blocks of 2 times 2 times 2, for all of which the regression is chosen. *)
Definition sample : list Z := (fun i => f64_of_Z (Z.of_nat (i mod 4))) <$> seq 0 64.
Definition quarter : Z := 0x3fd0000000000000.
Definition sample_q : LinearQuantizer.LinearQuantizer := LinearQuantizer.mk [] 0 quarter 0x4010000000000000 32768.
Definition sample_conf : Config :=
  let c := SzConfig.new [4; 4; 4] in
  SzConfig.mkConfig (SzConfig.sz3MagicNumber c) (SzConfig.sz3DataVer c) (SzConfig.N c) (dims c) (num c) SzConfig.ALGO_LORENZO_REG
    (SzConfig.errorBoundMode c) quarter (SzConfig.relErrorBound c) (SzConfig.psnrErrorBound c) (SzConfig.l2normErrorBound c)
    true false true false (SzConfig.openmp c) (SzConfig.dataType c) (SzConfig.lossless c) (SzConfig.encoder c) (SzConfig.interpAlgo c)
    (SzConfig.interpDirection c) (SzConfig.interpBlockSize c) (SzConfig.quantbinCnt c) 2 (SzConfig.stride c) 3.
Definition sample_d : Decomposition := make sample_conf sample_q.
Definition sample_size : DSize := {| d1 := 4; d2 := 4; d3 := 4; bs := 2; pad := 2 |}.

Definition sample_run : option (list block_out * state) := Eval vm_compute in run sample_d sample_size sample.

Lemma sample_runs : run sample_d sample_size sample = sample_run.
Proof. vm_compute. reflexivity. Qed.

(** The quantizer is made for the values met. *)
Definition result_okb (q : LinearQuantizer.LinearQuantizer) (data : list Z) (r : result) : bool :=
  from_option (fun x => (0 <=? x) && (x <? 2 ^ 64) && (0 <=? LinearQuantizer.steps q x r.1.2)
                        && (LinearQuantizer.steps q x r.1.2 <? 2 ^ 63 - 1)) false (data !! r.1.1).

Lemma results_okb q data rs : LinearQuantizer.wf q -> forallb (result_okb q data) rs = true -> Forall (result_ok q data) rs.
Proof.
  intros Hq H. apply list.Forall_forall. intros r Hr. rewrite forallb_forall in H. specialize (H r (proj1 (list_elem_of_In _ _) Hr)).
  unfold result_okb in H. unfold result_ok. destruct (data !! r.1.1) as [x |]; [| done]. cbn [from_option] in H. exists x.
  rewrite !andb_true_iff, !Z.leb_le, !Z.ltb_lt in H. split; [done |]. split; [unfold is_u64; lia |]. split; [done | lia].
Qed.

Lemma grid_domain : domain sample_d sample.
Proof.
  split.
  - split; [done |]. split; [vm_compute; split; congruence |]. split; [vm_compute; split; congruence | constructor].
  - split; [apply make_params_ok; vm_compute; split; congruence | done].
  - split; [done |]. split; vm_compute; split; congruence.
  - exists sample_size. split; [vm_compute; split_and!; (reflexivity || lia || congruence) |].
    split; [vm_compute; repeat split; discriminate |].
    intros bs st E. rewrite sample_runs in E. unfold sample_run in E. apply (inj Some), pair_equal_spec in E as [<- _].
    apply results_okb; vm_compute; [split; [reflexivity | split; reflexivity] | reflexivity].
Qed.

(** The shape is that of the configuration. *)
Lemma sample_shape s : shape sample_d s sample -> s = sample_size.
Proof.
  intros (Hd & _ & Hb & _ & Hp & _). change (dims (conf sample_d)) with [4; 4; 4] in Hd. change (blockSize (conf sample_d)) with 2 in Hb.
  injection Hd as H1 H2 H3. destruct s; cbn in *. unfold sample_size. f_equal; lia.
Qed.

Lemma sample_regressions : enough_regressions sample_d sample.
Proof.
  intros s bs st ->%sample_shape E. rewrite sample_runs in E. unfold sample_run in E. apply (inj Some), pair_equal_spec in E as [<- _].
  vm_compute. split; discriminate.
Qed.

Lemma sample_repeats : none_repeated sample_d sample.
Proof. apply few_blocks_none_repeated. intros s ->%sample_shape. vm_compute. lia. Qed.

Definition zero (_ : nat) : Z := 0.

(** In one block of 4 times 4 times 4, the regression is chosen once. *)
Definition few_d : Decomposition := make
  (SzConfig.mkConfig (SzConfig.sz3MagicNumber sample_conf) (SzConfig.sz3DataVer sample_conf) 3 (dims sample_conf) 64 (SzConfig.cmprAlgo sample_conf)
    (SzConfig.errorBoundMode sample_conf) quarter (SzConfig.relErrorBound sample_conf) (SzConfig.psnrErrorBound sample_conf) (SzConfig.l2normErrorBound sample_conf)
    true false true false false (SzConfig.dataType sample_conf) (SzConfig.lossless sample_conf) (SzConfig.encoder sample_conf) (SzConfig.interpAlgo sample_conf)
    (SzConfig.interpDirection sample_conf) (SzConfig.interpBlockSize sample_conf) (SzConfig.quantbinCnt sample_conf) 4 (SzConfig.stride sample_conf) 3)
  sample_q.
Definition few_after : Decomposition := Eval vm_compute in default few_d (snd <$> compress_3d few_d sample).
Definition few_saved : list Z := Eval vm_compute in default [] (save false 0 zero few_after).

Lemma lorenzo_3d_few_regressions_witness :
  snd <$> compress_3d few_d sample = Some few_after /\ reg_count few_after = 1%nat /\ save false 0 zero few_after = Some few_saved /\
    load few_d (few_saved ++ [1]) 1000 = None.
Proof.
  split; [vm_compute; reflexivity |]. split; [reflexivity |]. split; [vm_compute; reflexivity |].
  apply (lorenzo_3d_few_regressions false 0 zero few_after).
  - apply (make_params_ok 4 3 true false true (f32_of_f64 quarter)); vm_compute; split; congruence.
  - vm_compute; split; congruence.
  - vm_compute; split; congruence.
  - cbn. lia.
  - vm_compute. reflexivity.
  - vm_compute. congruence.
Defined.

Lemma lorenzo_3d_roundtrip_witness :
  exists inds rs d' saved, compress_3d sample_d sample = Some (inds, rs, d') /\ save false 0 zero d' = Some saved /\
    length inds = length sample /\ Forall2 (LinearQuantizer.bounded (quantizer sample_d)) sample rs /\
    forall e0 tl rem, dims (conf e0) = dims (conf sample_d) -> num (conf e0) = num (conf sample_d) ->
      Z.of_nat (length saved) <= rem < 2 ^ 62 -> exists e rem',
        load e0 (saved ++ tl) rem = Some (e, tl, rem') /\ decompress_3d zero e inds = Some rs.
Proof. apply (lorenzo_3d_roundtrip false 0 zero zero sample_d sample grid_domain sample_regressions sample_repeats). Defined.

End Lorenzo3.
