(* ===== verification/SzQuantOpt.v ===== *)
(** * SzQuantOpt: the number of quantization bins for three dimensions

    Models [SZ3/utils/QuantOptimizatioin.hpp] at [T = double]: values that lie some distance apart
    are predicted, and the number of bins is chosen so that nearly all of the errors fit.

    The places that are looked at are kept as a row and an offset, of which the code keeps the sum. *)

From Stdlib Require Import ZArith Lia.
From S2P Require Import Prelude Bytes Float64 Float32 SzMeta.

Module QuantOptimization.
Import Meta (lorenzo_predict, lorenzo_3d, lorenzo_total_3d, back).

Definition QuantIntvMeanCapacity : Z := 8192.
Definition QuantIntvSampleDistance : Z := 100.
Definition QuantIntvSampleCapacity : Z := 32768.

(** The literal 0.999. *)
Definition QuantIntvAccThreshold : Z := 0x3feff7ced916872b.

Definition round_up_power_of_2 (base : Z) : Z :=
  let base := u32 (base - 1) in
  let base := Z.lor base (Z.shiftr base 1) in
  let base := Z.lor base (Z.shiftr base 2) in
  let base := Z.lor base (Z.shiftr base 4) in
  let base := Z.lor base (Z.shiftr base 8) in
  let base := Z.lor base (Z.shiftr base 16) in
  u32 (base + 1).

(** The loop: the first index where the sum exceeds the target, or the number of intervals. *)
Fixpoint sum_exceeds (target sum i : Z) (intervals : list Z) : Z :=
  match intervals with
  | [] => i
  | x :: intervals => let sum := u64 (sum + x) in if target <? sum then i else sum_exceeds target sum (i + 1) intervals
  end.

Definition estimate_quantization_intervals (intervals : list Z) (sample_count : Z) : Z :=
  let target := f64_to_i64 (f64_mul (f64_of_Z sample_count) QuantIntvAccThreshold) in
  let n := Z.of_nat (length intervals) in
  let i := sum_exceeds target 0 0 intervals in
  let i := if i =? n then n - 1 else i in
  let accIntervals := u32 (2 * (i + 1)) in
  let num_intervals := u32 (2 * round_up_power_of_2 accIntervals) in
  if 32 <? num_intervals then num_intervals else 32.

(** The greatest sum of two neighbours from index [i], and its index. *)
Fixpoint max_pair (i : Z) (l : list Z) (best : Z * Z) : Z * Z :=
  match l with
  | [] => best
  | x :: l =>
      match l with
      | y :: _ :: _ =>
          let tmp_sum := u64 (x + y) in
          max_pair (i + 1) l (if best.1 <? tmp_sum then (tmp_sum, i) else best)
      | _ => best
      end
  end.

(** [estimate_mean_freq_and_position]: the frequency, and the guess that is moved. *)
Definition estimate_mean_freq_and_position (freq_intervals : list Z) (precision sample_count mean_guess : Z) : Z * Z :=
  let '(max_sum, max_index) := max_pair 1 (drop 1 freq_intervals) (0, 0) in
  let steps := max_index + 1 - Z.shiftr (Z.of_nat (length freq_intervals)) 1 in
  (f32_of_f64 (f64_div (f64_mul (f64_of_Z max_sum) (f64_of_Z 1)) (f64_of_Z sample_count)),
   f64_add mean_guess (f64_mul precision (f64_of_Z steps))).

(** The loop of [sample_rough_mean_3d] at [pos]; [None] when it does not end. *)
Fixpoint rough_mean_loop (fuel : nat) (data : list Z) (len r3 r23 distance pos offset_count offset_count_2 mean count : Z)
    : option (Z * Z) :=
  if negb ((0 <=? pos) && (pos <? len)) then Some (mean, count)
  else
    match fuel with
    | O => None
    | S fuel =>
        x ← data !! Z.to_nat pos;
        let offset_count := offset_count + distance in
        let offset_count_2 := offset_count_2 + distance in
        let pos := pos + distance in
        let '(offset_count, pos) := if r3 <=? offset_count then (0, pos - 1) else (offset_count, pos) in
        let '(offset_count_2, pos) := if r23 <=? offset_count_2 then (0, pos - 1) else (offset_count_2, pos) in
        rough_mean_loop fuel data len r3 r23 distance pos offset_count offset_count_2 (f64_add mean x) (count + 1)
    end.

Definition sample_rough_mean_3d (data : list Z) (r1 r2 r3 distance : Z) : option Z :=
  let len := r1 * r2 * r3 in
  '(mean, count) ← rough_mean_loop (Z.to_nat len) data len r3 (r2 * r3) distance 0 0 0 0 0;
  Some (f32_of_f64 (if 0 <? count then f64_div mean (f64_of_Z count) else mean)).

(** The counters of the loop of [optimize_quant_invl_3d], and where it is. *)
Record scan := {
  row : Z;
  offset_count : Z;
  n1_count : Z;
  n2_count : Z;
  freq_count : Z;
  sample_count : Z;
  intervals : list Z;
  freq_intervals : list Z
}.

Definition count_at (i : Z) (l : list Z) : list Z := alter (fun x => u64 (x + 1)) (Z.to_nat i) l.

(** The interval of a prediction error. *)
Definition pred_index (pred_err precision : Z) : Z :=
  let i := u64 (f64_to_i64 (f64_div (f64_add (f64_div (f64_of_f32 pred_err) precision) (f64_of_Z 1)) (f64_of_Z 2))) in
  if QuantIntvSampleCapacity <=? i then QuantIntvSampleCapacity - 1 else i.

(** That of the distance to the mean; the sum of a quotient near 2^63 and the radius, which the code does not
    expect, wraps around. *)
Definition freq_index (mean_diff precision : Z) : Z :=
  let radius := Z.shiftr QuantIntvMeanCapacity 1 in
  let i := i64 (f64_to_i64 (f64_div mean_diff precision) + (if f64_ltb 0 mean_diff then radius else radius - 1)) in
  if i <=? 0 then 0 else if QuantIntvMeanCapacity <=? i then QuantIntvMeanCapacity - 1 else i.

(** To the next place: [data_pos] moves with the offset, and to a later row when that is past
    the end of its own. *)
Definition next_place (r2 r3 : Z) (s : scan) : Z * Z * Z * Z :=
  let oc := offset_count s + QuantIntvSampleDistance in
  if r3 <=? oc then
    let n2 := n2_count s + 1 in
    let '(n1, n2, skip) := if n2 =? r2 then (n1_count s + 1, 1, r3) else (n1_count s, n2, 0) in
    let offset_count_2 := (n1 + n2) mod QuantIntvSampleDistance in
    (row s + skip + r3, QuantIntvSampleDistance - offset_count_2, n1, n2)
  else (row s, oc, n1_count s, n2_count s).

Definition scan_step (data : list Z) (r2 r3 precision mean_rough : Z) (s : scan) : option scan :=
  let pos := Z.to_nat (row s + offset_count s) in
  x ← data !! pos;
  pred_value ← lorenzo_predict lorenzo_3d data pos (Z.to_nat (r2 * r3)) (Z.to_nat r3);
  let pred_err := f32_of_f64 (f64_abs (f64_sub pred_value x)) in
  let near := f64_ltb (f64_of_f32 pred_err) precision in
  let '(row, offset_count, n1_count, n2_count) := next_place r2 r3 s in
  Some {| row := row; offset_count := offset_count; n1_count := n1_count; n2_count := n2_count;
          freq_count := if near then freq_count s + 1 else freq_count s;
          sample_count := sample_count s + 1;
          intervals := count_at (pred_index pred_err precision) (intervals s);
          freq_intervals := count_at (freq_index (f64_sub x (f64_of_f32 mean_rough)) precision) (freq_intervals s) |}.

Fixpoint scan_loop (fuel : nat) (data : list Z) (len r2 r3 precision mean_rough : Z) (s : scan) : option scan :=
  if row s + offset_count s <? len then
    match fuel with
    | O => None
    | S fuel => s ← scan_step data r2 r3 precision mean_rough s; scan_loop fuel data len r2 r3 precision mean_rough s
    end
  else Some s.

(** [offset_count = sample_distance - 2], in the second row of the second plane. *)
Definition start (r2 r3 : Z) : scan :=
  {| row := r2 * r3 + r3; offset_count := QuantIntvSampleDistance - 2; n1_count := 1; n2_count := 1; freq_count := 0; sample_count := 0;
     intervals := replicate (Z.to_nat QuantIntvSampleCapacity) 0; freq_intervals := replicate (Z.to_nat QuantIntvMeanCapacity) 0 |}.

(** The rounds that may be needed. *)
Definition rounds (len r3 : Z) : nat := Z.to_nat (101 * len + r3 + 200).

Section optimize.

(** [sqrt] of the C library. *)
Variable sqrt : Z -> Z.

(** [optimize_quant_invl_3d]: the number of bins, [pred_freq], [mean_freq] and [mean_guess]. *)
Definition optimize_quant_invl_3d (data : list Z) (r1 r2 r3 precision : Z) : option (Z * Z * Z * Z) :=
  let len := r1 * r2 * r3 in
  mean_rough ← sample_rough_mean_3d data r1 r2 r3 (f64_to_i64 (sqrt (f64_of_Z len)));
  s ← scan_loop (rounds len r3) data len r2 r3 precision mean_rough (start r2 r3);
  let pred_freq := f32_of_f64 (f64_div (f64_mul (f64_of_Z (freq_count s)) (f64_of_Z 1)) (f64_of_Z (sample_count s))) in
  let '(mean_freq, mean_guess) :=
    estimate_mean_freq_and_position (freq_intervals s) precision (sample_count s) (f64_of_f32 mean_rough) in
  Some (i32 (estimate_quantization_intervals (intervals s) (sample_count s)), pred_freq, mean_freq, mean_guess).

End optimize.

(** ** Properties *)

Lemma sum_exceeds_range target l : forall sum i, 0 <= i -> i <= sum_exceeds target sum i l <= i + Z.of_nat (length l).
Proof.
  induction l as [| x l IH]; intros sum i Hi; cbn [sum_exceeds length]; [lia |]. cbv zeta. destruct (_ <? _); [lia |].
  specialize (IH (u64 (sum + x)) (i + 1)). lia.
Qed.

(** After the shifts by 1, ..., [n / 2], the bits are those of the [n] places above them. *)
Definition smeared (b x : Z) (n : nat) : Prop :=
  forall i, 0 <= i -> Z.testbit x i = existsb (fun j => Z.testbit b (i + Z.of_nat j)) (seq 0 n).

Lemma smear_step b x n : smeared b x n -> smeared b (Z.lor x (Z.shiftr x (Z.of_nat n))) (n + n).
Proof.
  intros H i Hi. rewrite Z.lor_spec, Z.shiftr_spec, !H by lia. rewrite seq_app, existsb_app. f_equal. cbn [plus].
  replace (seq n n) with (Nat.add n <$> seq 0 n) by (rewrite fmap_add_seq; f_equal; lia). induction (seq 0 n) as [| j l IH]; [done |]. cbn. rewrite IH. do 2 f_equal. lia.
Qed.

Lemma smear_all b : 0 < b < 2 ^ 31 -> forall x, smeared b x 32 -> 0 <= x -> x + 1 = 2 ^ (Z.log2 b + 1).
Proof.
  intros Hb x H Hx. pose proof (Z.log2_nonneg b) as H0. assert (Z.log2 b < 31) as HL by (apply Z.log2_lt_pow2; lia).
  enough (x = Z.ones (Z.log2 b + 1)) as -> by (rewrite Z.ones_equiv; lia).
  apply Z.bits_inj'. intros i Hi. rewrite H by done. destruct (Z.le_gt_cases i (Z.log2 b)) as [Hle | Hgt].
  - rewrite Z.ones_spec_low by lia. apply existsb_exists. exists (Z.to_nat (Z.log2 b - i)). split; [apply in_seq; lia |].
    replace (i + Z.of_nat (Z.to_nat (Z.log2 b - i))) with (Z.log2 b) by lia. apply Z.bit_log2. lia.
  - rewrite Z.ones_spec_high by lia. apply not_true_iff_false. intros (j & _ & E)%existsb_exists. rewrite (Z.bits_above_log2 b (i + Z.of_nat j)) in E by lia. done.
Qed.

Lemma round_up_spec x : 2 <= x <= 65536 -> exists k, 1 <= k <= 16 /\ round_up_power_of_2 x = 2 ^ k.
Proof.
  intros Hx. unfold round_up_power_of_2. assert (u32 (x - 1) = x - 1) as -> by (apply u32_id; unfold is_u32; lia). set (b := x - 1). cbv zeta.
  assert (smeared b b 1) as S0 by (intros i Hi; cbn; rewrite Z.add_0_r; by destruct (Z.testbit b i)).
  pose proof (smear_step _ _ _ S0) as S1. pose proof (smear_step _ _ _ S1) as S2. pose proof (smear_step _ _ _ S2) as S3.
  pose proof (smear_step _ _ _ S3) as S4. pose proof (smear_step _ _ _ S4) as S5. cbn [plus] in S1, S2, S3, S4, S5.
  change (Z.of_nat 1) with 1 in *. change (Z.of_nat 2) with 2 in *. change (Z.of_nat 4) with 4 in *. change (Z.of_nat 8) with 8 in *.
  change (Z.of_nat 16) with 16 in *. apply (smear_all b ltac:(lia)) in S5 as ->.
  - assert (Z.log2 b < 16) by (apply Z.log2_lt_pow2; lia). pose proof (Z.log2_nonneg b). exists (Z.log2 b + 1). split; [lia |].
    assert (2 ^ (Z.log2 b + 1) <= 2 ^ 16) by (apply Z.pow_le_mono_r; lia). apply u32_id. unfold is_u32. lia.
  - assert (0 <= b) by lia. repeat first [assumption | apply Z.shiftr_nonneg | apply Z.lor_nonneg; split].
Qed.

(** The number of bins is a power of two from 32 to 2^17. *)
Lemma estimate_range l n : l <> [] -> Z.of_nat (length l) <= QuantIntvSampleCapacity ->
  exists k, 5 <= k <= 17 /\ estimate_quantization_intervals l n = 2 ^ k.
Proof.
  intros Hne Hl. unfold estimate_quantization_intervals. set (target := f64_to_i64 _). clearbody target. cbv zeta.
  pose proof (sum_exceeds_range target l 0 0 ltac:(lia)) as Hr. set (i := if _ =? _ then _ else _).
  assert (0 <= i <= 32767) as Hi.
  { assert (0 < length l)%nat by (destruct l; [done | simpl; lia]). unfold i, QuantIntvSampleCapacity in *. destruct (Z.eqb_spec (sum_exceeds target 0 0 l) (Z.of_nat (length l))); lia. }
  clearbody i. rewrite (u32_id (2 * (i + 1))) by (unfold is_u32; lia). destruct (round_up_spec (2 * (i + 1)) ltac:(lia)) as (k & Hk & ->).
  assert (2 ^ k <= 2 ^ 16) by (apply Z.pow_le_mono_r; lia). replace (2 * 2 ^ k) with (2 ^ (k + 1)) by (rewrite Z.pow_add_r; lia).
  assert (2 ^ (k + 1) <= 2 ^ 17) by (apply Z.pow_le_mono_r; lia). rewrite u32_id by (unfold is_u32; lia).
  destruct (Z.ltb_spec 32 (2 ^ (k + 1))) as [Hlt | Hge]; [| by exists 5]. exists (k + 1). split; [| done].
  assert (2 ^ 5 < 2 ^ (k + 1)) as H5 by done. apply Z.pow_lt_mono_r_iff in H5; lia.
Qed.

(** With a distance of at least three, the sampling of the mean ends. *)
Lemma rough_mean_total data len r3 r23 distance : 3 <= distance -> Z.of_nat (length data) = len ->
  forall fuel pos o o2 mean count, 0 <= pos -> len <= pos + Z.of_nat fuel ->
  is_Some (rough_mean_loop fuel data len r3 r23 distance pos o o2 mean count).
Proof.
  intros Hd Hl. induction fuel as [| fuel IH]; intros pos o o2 mean count Hp Hf; cbn [rough_mean_loop];
    destruct (Z.leb_spec 0 pos), (Z.ltb_spec pos len); cbn [andb negb]; try (by eexists); try lia.
  assert (is_Some (data !! Z.to_nat pos)) as [x ->] by (apply lookup_lt_is_Some; lia). cbn [mbind option_bind].
  destruct (r3 <=? _), (r23 <=? _); apply IH; lia.
Qed.

(** The measure of the scan: the row counts for more than any offset. *)
Lemma scan_total data len r2 r3 precision mean_rough : 0 < r3 -> 0 < r2 -> Z.of_nat (length data) = len ->
  forall fuel s, r2 * r3 + r3 <= row s -> 1 <= offset_count s <= Z.max 100 r3 ->
    101 * len + r3 + 200 <= 101 * row s + offset_count s + Z.of_nat fuel ->
    length (intervals s) = Z.to_nat QuantIntvSampleCapacity -> exists s', scan_loop fuel data len r2 r3 precision mean_rough s = Some s' /\
      length (intervals s') = Z.to_nat QuantIntvSampleCapacity.
Proof.
  intros H3 H2 Hl. induction fuel as [| fuel IH]; intros s Hr Ho Hf Hi; cbn [scan_loop];
    destruct (Z.ltb_spec (row s + offset_count s) len) as [Hlt | Hge]; [lia | by exists s | | by exists s].
  unfold scan_step. assert (is_Some (data !! Z.to_nat (row s + offset_count s))) as [x ->] by (apply lookup_lt_is_Some; lia).
  cbn [mbind option_bind].
  destruct (lorenzo_total_3d data (Z.to_nat (row s + offset_count s)) (Z.to_nat (r2 * r3)) (Z.to_nat r3)) as [p ->]; [nia |].
  cbn [mbind option_bind]. destruct (next_place r2 r3 s) as [[[row' oc'] n1] n2] eqn:En.
  assert (row s <= row' /\ 1 <= oc' <= Z.max 100 r3 /\ 101 * row s + offset_count s < 101 * row' + oc') as (A1 & A2 & A3).
  { unfold next_place, QuantIntvSampleDistance in En. destruct (Z.leb_spec r3 (offset_count s + 100)) as [Hge | Hlt'].
    - destruct (n2_count s + 1 =? r2); rewrite !pair_equal_spec in En; destruct En as [[[<- <-] _] _];
        match goal with |- context [?a mod 100] => pose proof (Z.mod_pos_bound a 100 ltac:(lia)) end; lia.
    - rewrite !pair_equal_spec in En. destruct En as [[[<- <-] _] _]. lia. }
  apply IH; cbn [row offset_count intervals]; try lia. by unfold count_at; rewrite length_alter.
Qed.

(** C38: the sampling ends, and the number of bins is a power of two from 32 to 2^17, so that the radius
    of the quantizer and its indices fit their types. *)
Theorem optimize_bins sqrt data r1 r2 r3 precision :
  0 < r1 -> 0 < r2 -> 0 < r3 -> Z.of_nat (length data) = r1 * r2 * r3 -> 3 <= f64_to_i64 (sqrt (f64_of_Z (r1 * r2 * r3))) ->
  exists k pred_freq mean_freq mean_guess, 5 <= k <= 17 /\
    optimize_quant_invl_3d sqrt data r1 r2 r3 precision = Some (2 ^ k, pred_freq, mean_freq, mean_guess).
Proof.
  intros H1 H2 H3 Hl Hd. assert (0 < r2 * r3) as H23 by nia. unfold optimize_quant_invl_3d, sample_rough_mean_3d. cbv zeta.
  destruct (rough_mean_total data (r1 * r2 * r3) r3 (r2 * r3) _ Hd Hl (Z.to_nat (r1 * r2 * r3)) 0 0 0 0 0) as [[mean count] ->]; [lia | lia |].
  cbn [mbind option_bind]. set (m := f32_of_f64 _). clearbody m.
  destruct (scan_total data (r1 * r2 * r3) r2 r3 precision m H3 H2 Hl (rounds (r1 * r2 * r3) r3) (start r2 r3)) as (s & -> & Hi);
    cbn [row offset_count intervals start]; unfold QuantIntvSampleDistance, rounds; try lia; [by rewrite length_replicate |].
  cbn [mbind option_bind]. destruct (estimate_mean_freq_and_position _ _ _ _) as [mf mg].
  destruct (estimate_range (intervals s) (sample_count s)) as (k & Hk & ->).
  { intros E. rewrite E in Hi. discriminate Hi. }
  { rewrite Hi. unfold QuantIntvSampleCapacity. lia. }
  eexists k, _, _, _. split; [done |]. rewrite i32_id; [done |]. unfold is_i32. assert (2 ^ k <= 2 ^ 17) by (apply Z.pow_le_mono_r; lia). lia.
Qed.

(** ** Witness *)

(** Three times three rows of 120 numbers that rise by 1.0, with an error bound of 0.25. *)
Definition sample : list Z := (fun i => f64_of_Z (Z.of_nat (i mod 120))) <$> seq 0 1080.
Definition quarter : Z := 0x3fd0000000000000.

(** The root of 1080, rounded down. *)
Definition sample_sqrt (_ : Z) : Z := f64_of_Z 32.

Example optimize_sample : (fun r => r.1.1.1) <$> optimize_quant_invl_3d sample_sqrt sample 3 3 120 quarter = Some 32.
Proof. by vm_compute. Qed.

Lemma optimize_bins_witness : exists k pred_freq mean_freq mean_guess, 5 <= k <= 17 /\
  optimize_quant_invl_3d sample_sqrt sample 3 3 120 quarter = Some (2 ^ k, pred_freq, mean_freq, mean_guess).
Proof.
  apply (optimize_bins sample_sqrt sample 3 3 120 quarter); [lia .. | reflexivity | vm_compute; congruence].
Defined.

End QuantOptimization.
