(* ===== verification/SzIterator.v ===== *)
(** * SzIterator: the ranges and iterators over multi-dimensional data

    Models [SZ3/utils/Iterator.hpp], for any number of dimensions.  A range walks over an array
    of [global_dimensions] with a stride; an iterator keeps its index within the range and its
    offset in the array.  The compressor that iterates has two ranges: one whose iterators are
    the corners of blocks, and one that is set to a block and whose iterators are its elements.

    The theorems show that the loops over a range end and go through the indices in the order of
    the rows, that the blocks divide the array, and that what lies before an element was visited
    before. *)

From Stdlib Require Import ZArith Lia.
From stdpp Require Import sets.
From S2P Require Import Prelude.

Module Iterator.
#[local] Open Scope nat_scope.

(** [multi_dimensional_range]: arrays of [N] numbers as lists; the data are passed to what reads
    them. *)
Record range := mkRange {
  global_dimensions : list nat;
  global_dim_strides : list nat;
  dimensions : list nat;
  left_boundary : list bool;
  access_stride : list nat;
  start_offset : Z;
  end_offset : Z
}.

(** [multi_dimensional_iterator]; the range it belongs to is passed along. *)
Record iterator := mkIter { local_index : list nat; global_offset : Z }.

(** ** Making a range *)

(** [(global_dimensions[i] - 1) / access_stride[i] + 1]; [None] for the division by 0, and for an
    extent of 0, where the subtraction wraps around. *)
Definition set_dimensions_auto (gd access : list nat) : option (list nat) :=
  mapM (fun ga => _ ← assert ((0 <? ga.1) && (0 <? ga.2)); Some ((ga.1 - 1) / ga.2 + 1)) (zip gd access).

(** [set_global_dim_strides]: the strides, and [cur_stride] after the loop. *)
Fixpoint set_global_dim_strides (gd access : list nat) : list nat * nat :=
  match gd, access with
  | g :: gd, a :: access =>
      let '(strides, cur_stride) := set_global_dim_strides gd access in
      (cur_stride * a :: strides, cur_stride * g)
  | _, _ => ([], 1)
  end.

(** [set_offsets] *)
Definition end_of (dims strides : list nat) (offset : Z) : option Z :=
  d ← dims !! 0;
  s ← strides !! 0;
  Some (offset + Z.of_nat (d * s))%Z.

(** The constructor with one stride for all dimensions. *)
Definition new (gd : list nat) (stride : nat) (offset : Z) : option range :=
  let access := replicate (length gd) stride in
  dims ← set_dimensions_auto gd access;
  let strides := (set_global_dim_strides gd access).1 in
  e ← end_of dims strides offset;
  Some (mkRange gd strides dims (replicate (length gd) false) access offset e).

Definition begin (r : range) : iterator :=
  mkIter (replicate (length (dimensions r)) 0) (start_offset r).

(** ** Moving an iterator *)

(** The loop of [operator++] at index [i]: the index is set back and the next one advanced. *)
Fixpoint carry (r : range) (i : nat) (l : list nat) (offset : Z) : option (list nat * Z) :=
  match i with
  | O => Some (l, offset)
  | S j =>
      x ← l !! i;
      d ← dimensions r !! i;
      if x =? d then
        s ← global_dim_strides r !! i;
        s' ← global_dim_strides r !! j;
        y ← l !! j;
        carry r j (<[j := S y]> (<[i := 0]> l)) (offset - Z.of_nat (d * s) + Z.of_nat s')%Z
      else Some (l, offset)
  end.

(** [operator++] *)
Definition next (r : range) (it : iterator) : option iterator :=
  let i := length (dimensions r) - 1 in
  x ← local_index it !! i;
  s ← global_dim_strides r !! i;
  '(l, offset) ← carry r i (<[i := S x]> (local_index it)) (Z.of_nat s);
  Some (mkIter l (global_offset it + offset)%Z).

(** [for (it; it != range->end(); ++it)]: the iterators of the rounds; [None] when the fuel does
    not suffice. *)
Fixpoint iterate (fuel : nat) (r : range) (it : iterator) : option (list iterator) :=
  if (global_offset it =? end_offset r)%Z then Some []
  else
    match fuel with
    | O => None
    | S fuel =>
        it' ← next r it;
        its ← iterate fuel r it';
        Some (it :: its)
    end.

Definition product (l : list nat) : nat := foldr Nat.mul 1 l.

Definition elements (r : range) : option (list iterator) := iterate (product (dimensions r)) r (begin r).

(** [move2]; [None] for the assertions, which keep the index within the range. *)
Fixpoint move_index (l dims strides : list nat) (args : list Z) : option (list nat * Z) :=
  match l, dims, strides, args with
  | x :: l, d :: dims, s :: strides, a :: args =>
      '(l, offset) ← move_index l dims strides args;
      if (a =? 0)%Z then Some (x :: l, offset)
      else
        _ ← assert ((0 <=? Z.of_nat x + a) && (Z.of_nat x + a <? Z.of_nat d))%Z;
        Some (Z.to_nat (Z.of_nat x + a) :: l, offset + a * Z.of_nat s)%Z
  | [], [], [], [] => Some ([], 0%Z)
  | _, _, _, _ => None
  end.

Definition move2 (r : range) (args : list Z) (it : iterator) : option iterator :=
  '(l, offset) ← move_index (local_index it) (dimensions r) (global_dim_strides r) args;
  Some (mkIter l (global_offset it + offset)%Z).

(** [move()]: to the next value of the row, unless it is the last. *)
Definition move (r : range) (it : iterator) : option iterator :=
  let i := length (dimensions r) - 1 in
  x ← local_index it !! i;
  d ← dimensions r !! i;
  s ← global_dim_strides r !! i;
  Some (if x <? d - 1 then mkIter (<[i := S x]> (local_index it)) (global_offset it + Z.of_nat s)%Z else it).

(** ** Looking back *)

(** The loop of [prev]: [None] for the value 0, or else the offset. *)
Fixpoint prev_loop (l : list nat) (bounds : list bool) (strides args : list nat) (offset : Z) : option Z :=
  match l, bounds, strides, args with
  | x :: l, b :: bounds, s :: strides, a :: args =>
      if (x <? a) && b then None else prev_loop l bounds strides args (offset - Z.of_nat (a * s))%Z
  | _, _, _, _ => Some offset
  end.

(** [prev]: the place in the data that is read, if any; [None] for one before their start. *)
Definition prev (r : range) (args : list nat) (it : iterator) : option (option nat) :=
  match prev_loop (local_index it) (left_boundary r) (global_dim_strides r) args (global_offset it) with
  | None => Some None
  | Some offset => _ ← assert (0 <=? offset)%Z; Some (Some (Z.to_nat offset))
  end.

(** The place of the value itself. *)
Definition place (it : iterator) : nat := Z.to_nat (global_offset it).

(** The loop of [get_global_index], from the last dimension: the index, and what is left of the
    offset. *)
Fixpoint global_digits (gd : list nat) (offset : nat) : list nat * nat :=
  match gd with
  | [] => ([], offset)
  | g :: gd => let '(l, offset) := global_digits gd offset in (offset mod g :: l, offset / g)
  end.

Definition get_global_index (r : range) (it : iterator) : list nat :=
  (global_digits (global_dimensions r) (place it)).1.

(** ** Setting the range of elements to a block *)

Definition block_dims (gd dims access : list nat) (block_size : nat) (b : list nat) : list nat :=
  zip_with (fun gl da => if gl.2 =? da.1 - 1 then gl.1 - gl.2 * da.2 else block_size)
    (zip gd b) (zip dims access).

Definition update_block_range (r br : range) (block : iterator) (block_size : nat) : option range :=
  let dims := block_dims (global_dimensions r) (dimensions br) (access_stride br) block_size (local_index block) in
  e ← end_of dims (global_dim_strides r) (global_offset block);
  Some (mkRange (global_dimensions r) (global_dim_strides r) dims
    ((fun x => x =? 0) <$> local_index block) (access_stride r) (global_offset block) e).

(** The block range over an array and the range of elements set to every block, with the
    iterators of the loops over them. *)
Definition walk (gd : list nat) (block_size : nat) : option (list (range * list iterator)) :=
  block_range ← new gd block_size 0;
  element_range ← new gd 1 0;
  blocks ← elements block_range;
  mapM (fun b => r ← update_block_range element_range block_range b block_size;
                 its ← elements r;
                 Some (r, its)) blocks.

(** The places of the elements of blocks, in order. *)
Definition places (bl : list (range * list iterator)) : list nat := bl ≫= fun b => place <$> b.2.

(** ** Numbers with a radix per digit *)

(** The weights of the digits of the numbers below the product. *)
Fixpoint weights (ds : list nat) : list nat :=
  match ds with
  | [] => []
  | _ :: ds => product ds :: weights ds
  end.

Lemma NoDup_bind_index {A B} (f : A -> list B) (l : list A) :
  (forall i j x y b, l !! i = Some x -> l !! j = Some y -> b ∈ f x -> b ∈ f y -> i = j) ->
  (forall x, x ∈ l -> NoDup (f x)) -> NoDup (l ≫= f).
Proof.
  induction l as [| x l IH]; intros Hd Hf; [constructor |]. rewrite bind_cons. apply list.NoDup_app. split_and!.
  - apply Hf. left.
  - intros b Hb (y & Hy & [j Hj]%list_elem_of_lookup)%list_elem_of_bind.
    by specialize (Hd 0 (S j) x y b eq_refl Hj Hb Hy).
  - apply IH; [| intros y Hy; apply Hf; by right]. intros i j y z b Hi Hj Hb Hb'.
    by injection (Hd (S i) (S j) y z b Hi Hj Hb Hb').
Qed.

Definition dot (l w : list nat) : nat := foldr Nat.add 0 (zip_with Nat.mul l w).

(** The number that the digits [l] stand for. *)
Notation rank ds l := (dot l (weights ds)).

Lemma length_weights ds : length (weights ds) = length ds.
Proof. induction ds; simpl; auto. Qed.

Lemma product_pos ds : Forall (fun d => 0 < d) ds -> 0 < product ds.
Proof. induction 1; simpl; [lia |]. apply Nat.mul_pos_pos; auto. Qed.

Lemma weights_pos ds : Forall (fun d => 0 < d) ds -> Forall (fun w => 0 < w) (weights ds).
Proof. induction 1; simpl; constructor; auto using product_pos. Qed.

Lemma lt_pos l ds : Forall2 lt l ds -> Forall (fun d => 0 < d) ds.
Proof. induction 1; constructor; auto. lia. Qed.

Lemma rank_lt ds l : Forall2 lt l ds -> rank ds l < product ds.
Proof.
  induction 1 as [| x d l ds Hx Hl IH]; unfold dot; simpl; [lia |]. fold (dot l (weights ds)).
  pose proof (product_pos ds (lt_pos _ _ Hl)). nia.
Qed.

Lemma rank_mono ds : forall l l', Forall2 le l l' -> rank ds l <= rank ds l'.
Proof.
  induction ds as [| d ds IH]; intros l l' H; destruct H as [| x y l l' Hx H]; unfold dot; simpl; try lia.
  specialize (IH l l' H). unfold dot in IH. nia.
Qed.

Lemma rank_inj ds : forall l l', Forall2 lt l ds -> Forall2 lt l' ds -> rank ds l = rank ds l' -> l = l'.
Proof.
  induction ds as [| d ds IH]; intros l l' H H'; inversion H as [| x ? k ? Hx Hk]; inversion H' as [| x' ? k' ? Hx' Hk'];
    subst; [done |]. unfold dot. simpl. fold (dot k (weights ds)) (dot k' (weights ds)). intros E.
  pose proof (rank_lt _ _ Hk). pose proof (rank_lt _ _ Hk').
  assert (x = x') as -> by nia. f_equal. apply IH; [done | done |]. nia.
Qed.

(** Every number below the product has its digits. *)
Lemma rank_surj ds : forall k, k < product ds -> exists l, Forall2 lt l ds /\ rank ds l = k.
Proof.
  induction ds as [| d ds IH]; simpl; intros k Hk.
  - exists []. split; [constructor |]. unfold dot. simpl. lia.
  - assert (product ds <> 0) as Hp by (intros E; rewrite E in Hk; lia).
    destruct (IH (k mod product ds)) as (l & Hl & E); [by apply Nat.mod_upper_bound |].
    exists (k / product ds :: l). split.
    + constructor; [| done]. apply Nat.Div0.div_lt_upper_bound; lia.
    + unfold dot in *. simpl. rewrite E. pose proof (Nat.div_mod_eq k (product ds)). lia.
Qed.

Lemma global_digits_rank ds : forall l k, Forall2 lt l ds -> global_digits ds (k * product ds + rank ds l) = (l, k).
Proof.
  induction ds as [| d ds IH]; intros l k H; inversion H as [| x ? l' ? Hx Hl]; subst; cbn [global_digits].
  { unfold dot. simpl. f_equal. lia. }
  replace (k * product (d :: ds) + rank (d :: ds) (x :: l')) with ((k * d + x) * product ds + rank ds l')
    by (unfold dot; simpl; lia).
  rewrite IH by done. f_equal; [f_equal |].
  - rewrite Nat.add_comm, Nat.Div0.mod_add. by apply Nat.mod_small.
  - symmetry. apply (Nat.div_unique _ _ k x); lia.
Qed.

Lemma dot_le w : forall l l', Forall2 le l l' -> dot l w <= dot l' w.
Proof.
  induction w as [| c w IH]; intros l l' H; destruct H as [| x y l l' Hx Hl]; unfold dot; simpl; try lia.
  specialize (IH _ _ Hl). unfold dot in IH. nia.
Qed.

Lemma dot_lt w : forall l l', Forall (fun c => 0 < c) w -> length l = length w ->
  Forall2 le l l' -> l <> l' -> dot l w < dot l' w.
Proof.
  induction w as [| c w IH]; intros l l' Hw Hlen H Hne; destruct H as [| x y l l' Hx Hl]; try done.
  apply Forall_cons_iff in Hw as [Hc Hw]. injection Hlen as Hlen. pose proof (dot_le w _ _ Hl) as Hle.
  unfold dot in *. simpl. destruct (decide (l = l')) as [-> | Hn].
  - assert (x < y) by (destruct (decide (x = y)) as [-> |]; [done | lia]). nia.
  - specialize (IH l l' Hw Hlen Hl Hn). nia.
Qed.

Lemma dot_add w : forall l l', length l = length l' ->
  dot (zip_with Nat.add l l') w = dot l w + dot l' w.
Proof.
  induction w as [| c w IH]; intros [| x l] [| y l'] Hl; unfold dot in *; simpl in *; try done.
  rewrite IH by lia. lia.
Qed.

Lemma dot_insert w : forall l i a c x, l !! i = Some a -> w !! i = Some c ->
  dot (<[i := x]> l) w + a * c = dot l w + x * c.
Proof.
  induction w as [| e w IH]; intros [| y l] [| i] a c x Ha Hc; try done; unfold dot in *; simpl in *.
  - injection Ha as ->. injection Hc as ->. lia.
  - pose proof (IH l i a c x Ha Hc). lia.
Qed.

Lemma dot_cons x l c w : dot (x :: l) (c :: w) = x * c + dot l w.
Proof. done. Qed.

Lemma dot_zeros n : forall w, dot (replicate n 0) w = 0.
Proof. induction n as [| n IH]; intros [| c w]; try done. unfold dot in *. simpl. apply IH. Qed.

Lemma weights_step ds : forall j d w w', ds !! S j = Some d -> weights ds !! S j = Some w ->
  weights ds !! j = Some w' -> w' = d * w.
Proof.
  induction ds as [| e ds IH]; intros [| j] d w w' Hd Hw Hw'; simpl in *; try done.
  - destruct ds as [| e' ds]; [done |]. simpl in *. by simplify_eq.
  - by eapply IH.
Qed.

Lemma weights_last ds w : weights ds !! (length ds - 1) = Some w -> w = 1.
Proof.
  induction ds as [| d [| d' ds] IH]; [done | by intros [= <-] |]. intros E. apply IH.
  replace (length (d' :: ds) - 1) with (length ds) by (simpl; lia).
  by replace (length (d :: d' :: ds) - 1) with (S (length ds)) in E by (simpl; lia).
Qed.

(** ** The loop over a range *)

(** What the loops need of a range: dimensions of at least 1, and that an index stays within the
    row of its first digit. *)
Record range_ok (r : range) : Prop := {
  ro_nonempty : dimensions r <> [];
  ro_length : length (global_dim_strides r) = length (dimensions r);
  ro_pos : Forall (fun d => 0 < d) (dimensions r);
  ro_end : end_of (dimensions r) (global_dim_strides r) (start_offset r) = Some (end_offset r);
  ro_row : forall l, Forall2 lt l (dimensions r) ->
    (Z.of_nat (dot l (global_dim_strides r)) < end_offset r - start_offset r)%Z
}.

(** An iterator of the range, or the one past the end: digits, but for the first, and the offset. *)
Record iter_ok (r : range) (it : iterator) : Prop := {
  io_length : length (local_index it) = length (dimensions r);
  io_digits : forall j x d, local_index it !! S j = Some x -> dimensions r !! S j = Some d -> x < d;
  io_offset : global_offset it = (start_offset r + Z.of_nat (dot (local_index it) (global_dim_strides r)))%Z
}.

(** Carrying keeps the number and the place. *)
Lemma carry_spec r : length (global_dim_strides r) = length (dimensions r) ->
  Forall (fun d => 0 < d) (dimensions r) ->
  forall i l off, length l = length (dimensions r) -> i < length l ->
  (forall x d, l !! i = Some x -> dimensions r !! i = Some d -> 0 < i -> x <= d) ->
  (forall j x d, S j <> i -> l !! S j = Some x -> dimensions r !! S j = Some d -> x < d) ->
  exists l' off', carry r i l off = Some (l', off') /\ length l' = length l /\
    (forall j x d, l' !! S j = Some x -> dimensions r !! S j = Some d -> x < d) /\
    rank (dimensions r) l' = rank (dimensions r) l /\
    (off' - off = Z.of_nat (dot l' (global_dim_strides r)) - Z.of_nat (dot l (global_dim_strides r)))%Z.
Proof.
  intros Hs Hpos. induction i as [| i IH]; intros l off Hl Hi Hx Hd; cbn [carry].
  { exists l, off. split_and!; try done; [| lia]. intros j x d. by apply Hd. }
  destruct (lookup_lt_is_Some_2 l (S i) Hi) as [x Ex].
  destruct (lookup_lt_is_Some_2 (dimensions r) (S i)) as [d Ed]; [lia |]. rewrite Ex, Ed. cbn [mbind option_bind].
  destruct (Nat.eqb_spec x d) as [-> | Hne].
  - destruct (lookup_lt_is_Some_2 (global_dim_strides r) (S i)) as [s Es]; [lia |].
    destruct (lookup_lt_is_Some_2 (global_dim_strides r) i) as [s' Es']; [lia |].
    destruct (lookup_lt_is_Some_2 l i) as [y Ey]; [lia |]. rewrite Es, Es', Ey. cbn [mbind option_bind].
    assert (<[S i := 0]> l !! i = Some y) as Ey' by (by rewrite list_lookup_insert_ne by lia).
    assert (0 < d) as Hd0 by (rewrite Forall_lookup in Hpos; eauto).
    edestruct (IH (<[i := S y]> (<[S i := 0]> l)) (off - Z.of_nat (d * s) + Z.of_nat s')%Z)
      as (l' & off' & E & H1 & H2 & H3 & H4).
    + by rewrite !length_insert.
    + rewrite !length_insert. lia.
    + intros x d' E1 E2 Hi0. rewrite list_lookup_insert_eq in E1 by (rewrite length_insert; lia). injection E1 as <-.
      destruct i as [| j]; [lia |]. pose proof (Hd j y d' ltac:(lia) Ey E2). lia.
    + intros j x d' Hj E1 E2. rewrite list_lookup_insert_ne in E1 by lia.
      destruct (decide (S j = S i)) as [E | Hn].
      * injection E as ->. rewrite list_lookup_insert_eq in E1 by lia. simplify_eq. lia.
      * rewrite list_lookup_insert_ne in E1 by lia. by eapply Hd.
    + exists l', off'. rewrite !length_insert in H1. split_and!; try done.
      * destruct (lookup_lt_is_Some_2 (weights (dimensions r)) (S i)) as [w Ew]; [rewrite length_weights; lia |].
        destruct (lookup_lt_is_Some_2 (weights (dimensions r)) i) as [w' Ew']; [rewrite length_weights; lia |].
        pose proof (weights_step _ _ _ _ _ Ed Ew Ew').
        pose proof (dot_insert _ _ _ _ _ (S y) Ey' Ew'). pose proof (dot_insert _ _ _ _ _ 0 Ex Ew). nia.
      * pose proof (dot_insert _ _ _ _ _ (S y) Ey' Es'). pose proof (dot_insert _ _ _ _ _ 0 Ex Es). nia.
  - exists l, off. split_and!; try done; [| lia]. intros j x' d' E1 E2. destruct (decide (S j = S i)) as [E | Hn].
    + injection E as ->. rewrite Ex in E1. rewrite Ed in E2. simplify_eq.
      specialize (Hx _ _ Ex Ed). lia.
    + by eapply Hd.
Qed.

Lemma next_spec r it : range_ok r -> iter_ok r it -> exists it', next r it = Some it' /\ iter_ok r it' /\
  rank (dimensions r) (local_index it') = S (rank (dimensions r) (local_index it)).
Proof.
  intros [Hne Hs Hpos _ _] [Hl Hd Ho]. unfold next. set (i := length (dimensions r) - 1).
  assert (0 < length (dimensions r)) as Hn by (apply Nat.neq_0_lt_0; by intros ?%nil_length_inv).
  destruct (lookup_lt_is_Some_2 (local_index it) i) as [x Ex]; [lia |].
  destruct (lookup_lt_is_Some_2 (global_dim_strides r) i) as [s Es]; [lia |]. rewrite Ex, Es. cbn [mbind option_bind].
  destruct (carry_spec r Hs Hpos i (<[i := S x]> (local_index it)) (Z.of_nat s)) as (l' & off' & E & H1 & H2 & H3 & H4).
  - by rewrite length_insert.
  - rewrite length_insert. lia.
  - intros y d E1 E2 Hi. rewrite list_lookup_insert_eq in E1 by lia. injection E1 as <-.
    destruct i as [| i]; [lia |]. by eapply Hd.
  - intros j y d Hj E1 E2. rewrite list_lookup_insert_ne in E1 by lia. by eapply Hd.
  - rewrite E. cbn [mbind option_bind]. eexists. split; [done |]. rewrite length_insert in H1. simpl.
    destruct (lookup_lt_is_Some_2 (weights (dimensions r)) i) as [w Ew]; [rewrite length_weights; lia |].
    pose proof (weights_last _ _ Ew) as ->.
    pose proof (dot_insert _ _ _ _ _ (S x) Ex Ew). pose proof (dot_insert _ _ _ _ _ (S x) Ex Es). split.
    + split; simpl; [lia | done | lia].
    + lia.
Qed.

Lemma iter_digits r it : range_ok r -> iter_ok r it ->
  exists x l d ds, local_index it = x :: l /\ dimensions r = d :: ds /\ Forall2 lt l ds /\
    rank (dimensions r) (local_index it) = x * product ds + rank ds l.
Proof.
  intros [Hne _ _ _ _] [Hl Hd _]. destruct (dimensions r) as [| d ds]; [done |].
  destruct (local_index it) as [| x l]; [done |]. exists x, l, d, ds. split_and!; try done.
  apply Forall2_same_length_lookup. split; [by injection Hl |]. intros j a b Ha Hb. exact (Hd j a b Ha Hb).
Qed.

Lemma iter_inside r it : range_ok r -> iter_ok r it ->
  rank (dimensions r) (local_index it) < product (dimensions r) -> Forall2 lt (local_index it) (dimensions r).
Proof.
  intros Hr Hi Hk. destruct (iter_digits r it Hr Hi) as (x & l & d & ds & El & Ed & Hd & E).
  rewrite E, Ed in Hk. simpl in Hk. rewrite El, Ed. constructor; [nia | done].
Qed.

(** The number of the end. *)
Lemma iter_end r it : range_ok r -> iter_ok r it ->
  rank (dimensions r) (local_index it) = product (dimensions r) -> global_offset it = end_offset r.
Proof.
  intros Hr Hi Hk. destruct (iter_digits r it Hr Hi) as (x & l & d & ds & El & Ed & Hd & E).
  rewrite E, Ed in Hk. simpl in Hk. pose proof (rank_lt _ _ Hd) as Hlt.
  assert (x = d) as -> by nia. assert (rank ds l = 0) as H0 by lia.
  assert (l = replicate (length ds) 0) as ->.
  { apply (rank_inj ds); [done | | by rewrite dot_zeros]. apply lt_pos in Hd. clear -Hd. induction Hd; simpl; constructor; auto. }
  destruct Hr as [_ Hs _ He _], Hi as [_ _ Ho]. rewrite Ho, El. rewrite Ed in He, Hs.
  destruct (global_dim_strides r) as [| s ss]; [done |]. unfold end_of in He. cbn in He. injection He as <-.
  unfold dot. simpl. fold (dot (replicate (length ds) 0) ss). rewrite dot_zeros. lia.
Qed.

(** The loop ends after as many rounds as the range has indices, and goes through them in order. *)
Lemma iterate_spec r : range_ok r -> forall n it,
  iter_ok r it -> rank (dimensions r) (local_index it) + n = product (dimensions r) ->
  exists its, iterate n r it = Some its /\
    (fun it => rank (dimensions r) (local_index it)) <$> its = seq (rank (dimensions r) (local_index it)) n /\
    Forall (fun it => iter_ok r it /\ Forall2 lt (local_index it) (dimensions r)) its.
Proof.
  intros Hr. induction n as [| n IH]; intros it Hi Hk; cbn [iterate].
  - rewrite (proj2 (Z.eqb_eq _ _)) by (apply iter_end; [done | done | lia]). exists []. split_and!; [done | done | constructor].
  - pose proof (iter_inside r it Hr Hi ltac:(lia)) as Hin.
    rewrite (proj2 (Z.eqb_neq _ _)) by (rewrite (io_offset r it Hi); pose proof (ro_row r Hr _ Hin); lia).
    destruct (next_spec r it Hr Hi) as (it' & -> & Hi' & Hk'). cbn [mbind option_bind].
    destruct (IH it' Hi') as (its & -> & E & HF); [lia |]. cbn [mbind option_bind]. exists (it :: its).
    split_and!; [done | | by constructor]. rewrite fmap_cons, E, Hk'. done.
Qed.

Lemma begin_ok r : range_ok r -> iter_ok r (begin r) /\ rank (dimensions r) (local_index (begin r)) = 0.
Proof.
  intros [Hne _ Hpos _ _]. simpl. split; [| apply dot_zeros]. split; simpl.
  - by rewrite length_replicate.
  - intros j x d [-> _]%lookup_replicate Hd. rewrite Forall_lookup in Hpos. eauto.
  - rewrite dot_zeros. lia.
Qed.

Definition visited (r : range) (its : list iterator) : Prop :=
  (fun it => rank (dimensions r) (local_index it)) <$> its = seq 0 (product (dimensions r)) /\
  Forall (fun it => iter_ok r it /\ Forall2 lt (local_index it) (dimensions r)) its.

Lemma elements_spec r : range_ok r -> exists its, elements r = Some its /\ visited r its.
Proof.
  intros Hr. destruct (begin_ok r Hr) as [Hi H0].
  destruct (iterate_spec r Hr (product (dimensions r)) (begin r) Hi) as (its & E & H1 & H2); [lia |].
  exists its. rewrite H0 in H1. by split.
Qed.

(** Every index of the range is met, in the round of its number. *)
Lemma visited_at r its l : visited r its -> Forall2 lt l (dimensions r) ->
  exists it, its !! rank (dimensions r) l = Some it /\ local_index it = l.
Proof.
  intros [E HF] Hl. pose proof (rank_lt _ _ Hl) as Hk.
  assert (((fun it => rank (dimensions r) (local_index it)) <$> its) !! rank (dimensions r) l
          = Some (rank (dimensions r) l)) as H by (rewrite E; by apply lookup_seq_lt).
  apply list_lookup_fmap_Some_1 in H as (it & Er & Hit). exists it. split; [done |].
  rewrite Forall_lookup in HF. destruct (HF _ _ Hit) as [_ Hd]. apply (rank_inj (dimensions r)); [done | done |]. done.
Qed.

Lemma visited_rank r its k it : visited r its -> its !! k = Some it -> rank (dimensions r) (local_index it) = k.
Proof.
  intros [E HF] Hk. assert (((fun it => rank (dimensions r) (local_index it)) <$> its) !! k
    = Some (rank (dimensions r) (local_index it))) as H by (by rewrite list_lookup_fmap, Hk).
  rewrite E in H. apply lookup_seq in H as [-> _]. done.
Qed.

(** ** The end of a row *)

Lemma product_snoc ds d : product (ds ++ [d]) = product ds * d.
Proof. induction ds as [| e ds IH]; simpl; [lia |]. rewrite IH. lia. Qed.

Lemma rank_snoc ds d : forall l x, length l = length ds -> rank (ds ++ [d]) (l ++ [x]) = rank ds l * d + x.
Proof.
  induction ds as [| e ds IH]; intros [| y l] x Hl; try done; unfold dot in *; simpl in *; [lia |].
  rewrite IH, product_snoc by lia. lia.
Qed.

(** The last digit of an index inside a range: its number is that of a row and the digit. *)
Lemma last_digit r l : dimensions r <> [] -> Forall2 lt l (dimensions r) ->
  exists x d q, l !! (length (dimensions r) - 1) = Some x /\ dimensions r !! (length (dimensions r) - 1) = Some d /\
    x < d /\ rank (dimensions r) l = q * d + x /\ exists k, product (dimensions r) = k * d.
Proof.
  intros Hne Hl. destruct (exists_last Hne) as (ds & d & Ed). rewrite Ed in *.
  apply Forall2_app_inv_r in Hl as (l1 & l2 & H1 & H2 & ->).
  inversion H2 as [| x ? ? ? Hx H3]; subst. inversion H3; subst. pose proof (Forall2_length H1) as Hlen.
  exists x, d, (rank ds l1). rewrite length_app. simpl. replace (length ds + 1 - 1) with (length ds) by lia.
  split_and!; [| | done | by apply rank_snoc | exists (product ds); apply product_snoc].
  - rewrite lookup_app_r by lia. by rewrite Hlen, Nat.sub_diag.
  - rewrite lookup_app_r by lia. by rewrite Nat.sub_diag.
Qed.

(** [move()] within a row. *)
Lemma move_spec r it x d : range_ok r -> iter_ok r it -> Forall2 lt (local_index it) (dimensions r) ->
  local_index it !! (length (dimensions r) - 1) = Some x -> dimensions r !! (length (dimensions r) - 1) = Some d ->
  exists it', move r it = Some it' /\ iter_ok r it' /\ Forall2 lt (local_index it') (dimensions r) /\
    local_index it' !! (length (dimensions r) - 1) = Some (Nat.min (d - 1) (S x)) /\
    rank (dimensions r) (local_index it') + x = rank (dimensions r) (local_index it) + Nat.min (d - 1) (S x).
Proof.
  intros Hr Hi Hl Ex Ed. unfold move. rewrite Ex, Ed. cbn [mbind option_bind].
  destruct (lookup_lt_is_Some_2 (global_dim_strides r) (length (dimensions r) - 1)) as [s Es].
  { rewrite (ro_length r Hr). apply lookup_lt_Some in Ed. done. }
  rewrite Es. cbn [mbind option_bind]. assert (x < d) as Hx by (eapply (Forall2_lookup_lr _ _ _ _ _ _ Hl); eassumption).
  destruct (Nat.ltb_spec x (d - 1)) as [Hlt | Hge].
  - eexists. split; [done |]. replace (Nat.min (d - 1) (S x)) with (S x) by lia. cbn [local_index].
    destruct (lookup_lt_is_Some_2 (weights (dimensions r)) (length (dimensions r) - 1)) as [w Ew].
    { rewrite length_weights. by apply lookup_lt_Some in Ed. }
    pose proof (weights_last _ _ Ew) as ->.
    pose proof (dot_insert _ _ _ _ _ (S x) Ex Ew). pose proof (dot_insert _ _ _ _ _ (S x) Ex Es).
    assert (Forall2 lt (<[length (dimensions r) - 1 := S x]> (local_index it)) (dimensions r)) as Hl'.
    { rewrite <- (list_insert_id _ _ _ Ed) at 2. apply Forall2_insert; [done | lia]. }
    split_and!; [| done | | lia].
    + destruct Hi as [I1 I2 I3]. split; cbn [local_index global_offset]; [by rewrite length_insert | | rewrite I3; lia].
      intros j y e Ey Ee. by eapply (Forall2_lookup_lr _ _ _ _ _ _ Hl').
    + apply list_lookup_insert_eq. by apply lookup_lt_Some in Ex.
  - exists it. replace (Nat.min (d - 1) (S x)) with x by lia. done.
Qed.

(** An iterator inside the range is one of those of the loop. *)
Lemma visited_in r its it : visited r its -> iter_ok r it -> Forall2 lt (local_index it) (dimensions r) -> it ∈ its.
Proof.
  intros Hv Hi Hl. destruct (visited_at r its _ Hv Hl) as (it' & Hk & El). destruct Hv as [_ HF].
  rewrite Forall_lookup in HF. destruct (HF _ _ Hk) as [[_ _ Ho'] _]. destruct Hi as [_ _ Ho].
  assert (it' = it) as -> by (destruct it, it'; simpl in *; congruence). by eapply list_elem_of_lookup_2.
Qed.

(** The iterator at an index. *)
Definition at_index (r : range) (l : list nat) : iterator :=
  mkIter l (start_offset r + Z.of_nat (dot l (global_dim_strides r)))%Z.

Lemma at_index_ok r l : Forall2 lt l (dimensions r) -> iter_ok r (at_index r l).
Proof.
  intros Hl. split; [by apply Forall2_length in Hl | | done]. intros j x d Hx Hd. by eapply (Forall2_lookup_lr _ _ _ _ _ _ Hl).
Qed.

Lemma begin_at r : begin r = at_index r (replicate (length (dimensions r)) 0).
Proof. unfold begin, at_index. by rewrite dot_zeros, Z.add_0_r. Qed.

(** [move] to another index of the range. *)
Lemma move2_at r args l l' : range_ok r -> Forall2 lt l (dimensions r) -> Forall2 lt l' (dimensions r) ->
  args = zip_with (fun x' x => Z.of_nat x' - Z.of_nat x)%Z l' l ->
  move2 r args (at_index r l) = Some (at_index r l').
Proof.
  intros Hr Hl Hl' ->. unfold move2.
  assert (move_index l (dimensions r) (global_dim_strides r) (zip_with (fun x' x => Z.of_nat x' - Z.of_nat x)%Z l' l)
    = Some (l', Z.of_nat (dot l' (global_dim_strides r)) - Z.of_nat (dot l (global_dim_strides r)))%Z) as E.
  { pose proof (ro_length r Hr) as Hs. clear Hr. revert l' Hl' Hs. generalize (global_dim_strides r) as ss.
    induction Hl as [| x d l ds Hx Hl IH]; intros ss l' Hl' Hs; inversion Hl' as [| x' ? k ? Hx' Hk]; subst.
    { apply nil_length_inv in Hs as ->. done. }
    destruct ss as [| s ss]; [done |]. cbn [zip_with move_index]. rewrite (IH ss k Hk) by (by injection Hs). cbn [mbind option_bind].
    rewrite !dot_cons. destruct (Z.eqb_spec (Z.of_nat x' - Z.of_nat x) 0) as [E | E].
    - assert (x' = x) as -> by lia. do 2 f_equal. lia.
    - rewrite assert_true by (apply andb_true_intro; split; [apply Z.leb_le | apply Z.ltb_lt]; lia). cbn [mbind option_bind].
      do 2 f_equal; [f_equal |]; lia. }
  cbn [local_index at_index]. rewrite E. cbn [mbind option_bind]. unfold at_index. cbn [global_offset]. do 2 f_equal. lia.
Qed.

(** ** The blocks of an array *)

Section blocks.

Variables (gd : list nat) (bs : nat).
Hypothesis Hgd : gd <> [].
Hypothesis Hpos : Forall (fun g => 0 < g) gd.
Hypothesis Hbs : 0 < bs.

Notation strides a := ((set_global_dim_strides gd (replicate (length gd) a)).1).

Lemma strides_spec (gs : list nat) a :
  let '(ss, cur) := set_global_dim_strides gs (replicate (length gs) a) in
  cur = product gs /\ length ss = length gs /\
  forall l, dot l ss = dot ((fun x => x * a) <$> l) (weights gs).
Proof.
  induction gs as [| g gs IH]; cbn [length replicate set_global_dim_strides].
  { split_and!; [done | done |]. by intros [| x l]. }
  destruct (set_global_dim_strides gs _) as [ss cur]. destruct IH as (-> & Hl & H).
  split_and!; [simpl; lia | simpl; lia |]. intros [| x l]; [done |].
  change (x * (product gs * a) + dot l ss = x * a * product gs + dot ((fun x => x * a) <$> l) (weights gs)).
  rewrite H. lia.
Qed.

Lemma strides_dot a l : dot l (strides a) = dot ((fun x => x * a) <$> l) (weights gd).
Proof. pose proof (strides_spec gd a) as H. destruct (set_global_dim_strides _ _). by destruct H as (_ & _ & H). Qed.

Lemma strides_length a : length (strides a) = length gd.
Proof. pose proof (strides_spec gd a) as H. destruct (set_global_dim_strides _ _). by destruct H as (_ & H & _). Qed.

Lemma strides_one l : dot l (strides 1) = rank gd l.
Proof. rewrite strides_dot. f_equal. rewrite <- (list_fmap_id l) at 2. apply list_fmap_ext. intros. simpl. lia. Qed.

(** An index whose digits, times the stride, are within the array stays within its row. *)
Lemma row_bound a dims l e : 0 < a -> Forall2 (fun d g => (d - 1) * a < g) dims gd -> Forall2 lt l dims ->
  end_of dims (strides a) 0%Z = Some e -> (Z.of_nat (dot l (strides a)) < e)%Z.
Proof.
  intros Ha Hd Hl. destruct Hd as [| d g dims gs Hd Hds]; [done |]. inversion Hl as [| x ? k ? Hx Hk]; subst.
  cbn [length replicate set_global_dim_strides]. pose proof (strides_spec gs a) as H.
  destruct (set_global_dim_strides gs _) as [ss cur]. destruct H as (-> & _ & H).
  unfold end_of. cbn. intros [= <-]. unfold dot. simpl. fold (dot k ss). rewrite H.
  assert (Forall2 lt ((fun x => x * a) <$> k) gs) as Hlt.
  { clear -Hds Hk. revert k Hk. induction Hds as [| d g ds gs Hd Hds IH]; intros k Hk;
      inversion Hk as [| y ? k' ? Hy Hk']; subst; [constructor |].
    rewrite fmap_cons. constructor; [| auto]. assert (y * a <= (d - 1) * a) by (apply Nat.mul_le_mono_r; lia). lia. }
  pose proof (rank_lt _ _ Hlt) as H'. set (k' := dot _ (weights gs)) in *. clearbody k'.
  assert (product gs <= product gs * a) as Hp by nia. set (s := product gs * a) in *. clearbody s.
  assert (S x * s <= d * s) by (apply Nat.mul_le_mono_r; lia). lia.
Qed.

Definition blocks_in (g : nat) (a : nat) : nat := (g - 1) / a + 1.

Lemma blocks_in_spec g a b : 0 < a -> 0 < g -> b < blocks_in g a <-> b * a < g.
Proof.
  intros Ha Hg. unfold blocks_in. assert (b <= (g - 1) / a <-> b * a <= g - 1) as H; [| lia].
  split; intros H; [| apply Nat.div_le_lower_bound; lia].
  pose proof (Nat.Div0.mul_div_le (g - 1) a). nia.
Qed.

Lemma new_spec a : 0 < a -> exists r, new gd a 0 = Some r /\
  global_dimensions r = gd /\ global_dim_strides r = strides a /\
  dimensions r = (fun g => blocks_in g a) <$> gd /\ access_stride r = replicate (length gd) a /\
  start_offset r = 0%Z /\ range_ok r.
Proof.
  intros Ha. unfold new.
  assert (set_dimensions_auto gd (replicate (length gd) a) = Some ((fun g => blocks_in g a) <$> gd)) as E.
  { clear Hgd. unfold set_dimensions_auto, zip. induction Hpos as [| g gs Hg Hgs IH]; [done |].
    cbn [length replicate zip_with mapM]. rewrite assert_true by (apply andb_true_intro; split; by apply Nat.ltb_lt).
    cbn [mbind option_bind]. by rewrite IH. }
  rewrite E. cbn [mbind option_bind].
  assert (exists e, end_of ((fun g => blocks_in g a) <$> gd) (strides a) 0 = Some e) as [e Ee].
  { assert (0 < length gd) as Hl by (apply Nat.neq_0_lt_0; by intros ?%nil_length_inv). unfold end_of.
    destruct (lookup_lt_is_Some_2 ((fun g => blocks_in g a) <$> gd) 0) as [d ->]; [by rewrite length_fmap |].
    destruct (lookup_lt_is_Some_2 (strides a) 0) as [s ->]; [by rewrite strides_length |].
    cbn [mbind option_bind]. eauto. }
  rewrite Ee. cbn [mbind option_bind]. eexists. split_and!; try done. split; simpl.
  - by destruct gd.
  - by rewrite length_fmap, strides_length.
  - apply Forall_fmap. eapply Forall_impl; [| exact Hpos]. unfold blocks_in. simpl. lia.
  - done.
  - intros l Hl. rewrite Z.sub_0_r. eapply row_bound; [done | | exact Hl | exact Ee].
    clear -Hpos Ha. induction Hpos as [| g gs Hg Hgs IH]; [constructor |]. rewrite fmap_cons. constructor; [| auto].
    replace (blocks_in g a - 1) with ((g - 1) / a) by (unfold blocks_in; lia).
    pose proof (Nat.Div0.mul_div_le (g - 1) a). nia.
Qed.

(** The global index of the element [l] of the block [b]. *)
Definition glob (b l : list nat) : list nat := zip_with (fun b x => b * bs + x) b l.

Definition bdims (b : list nat) : list nat :=
  block_dims gd ((fun g => blocks_in g bs) <$> gd) (replicate (length gd) bs) bs b.

Definition is_block (b : list nat) : Prop := Forall2 lt b ((fun g => blocks_in g bs) <$> gd).

Lemma block_dim_spec g b : 0 < g -> b < blocks_in g bs ->
  let d := if b =? blocks_in g bs - 1 then g - b * bs else bs in
  0 < d /\ d <= g /\ forall x, x < d <-> x < bs /\ b * bs + x < g.
Proof.
  intros Hg Hb d. assert (b * bs < g) as H1 by (by apply blocks_in_spec).
  assert (S b < blocks_in g bs <-> S b * bs < g) as H2 by (by apply blocks_in_spec). subst d.
  destruct (Nat.eqb_spec b (blocks_in g bs - 1)) as [E | E].
  - assert (g <= S b * bs) by lia. split_and!; [lia | lia |]. intros x. lia.
  - assert (S b * bs < g) by (apply H2; lia). split_and!; [lia | nia |]. intros x. nia.
Qed.

Lemma bdims_cons g gs b bl :
  block_dims (g :: gs) ((fun g => blocks_in g bs) <$> (g :: gs)) (replicate (length (g :: gs)) bs) bs (b :: bl)
  = (if b =? blocks_in g bs - 1 then g - b * bs else bs)
    :: block_dims gs ((fun g => blocks_in g bs) <$> gs) (replicate (length gs) bs) bs bl.
Proof. done. Qed.

Lemma bdims_spec b : is_block b -> Forall (fun d => 0 < d) (bdims b) /\
  Forall2 (fun d g => (d - 1) * 1 < g) (bdims b) gd /\ length (bdims b) = length gd /\
  forall l, Forall2 lt l (bdims b) <-> Forall (fun x => x < bs) l /\ length l = length gd /\ Forall2 lt (glob b l) gd.
Proof.
  unfold is_block, bdims, glob. clear Hgd. revert b. induction Hpos as [| g gs Hg Hgs IH]; intros b Hb.
  { apply Forall2_nil_inv_r in Hb as ->. unfold block_dims. simpl.
    split_and!; [constructor | constructor | done |]. intros l. split; [| intros (_ & Hl & _)].
    - intros ->%Forall2_nil_inv_r. split_and!; constructor.
    - apply nil_length_inv in Hl as ->. constructor. }
  rewrite fmap_cons in Hb. inversion Hb as [| y ? bl ? Hy Hbl]; subst. rewrite bdims_cons.
  destruct (IH Hgs bl Hbl) as (H1 & H2 & H3 & H4). destruct (block_dim_spec g y Hg Hy) as (D1 & D2 & D3).
  set (d := if _ =? _ then _ else _) in *. clearbody d.
  split_and!; [by constructor | constructor; [lia | done] | simpl; lia |]. intros l. split.
  - inversion 1 as [| x ? k ? Hx Hk]; subst. apply H4 in Hk as (K1 & K2 & K3). apply D3 in Hx as [X1 X2].
    split_and!; [by constructor | simpl; lia |]. simpl. by constructor.
  - intros (K1 & K2 & K3). destruct l as [| x l]; [done |]. simpl in K3. inversion K3; inversion K1; subst.
    constructor; [by apply D3 |]. apply H4. split_and!; [done | by injection K2 | done].
Qed.

Lemma glob_inj b : forall l b' l', length b = length l -> length b' = length l' -> Forall (fun x => x < bs) l ->
  Forall (fun x => x < bs) l' -> glob b l = glob b' l' -> b = b' /\ l = l'.
Proof.
  unfold glob. induction b as [| y b IH]; intros [| x l] [| y' b'] [| x' l'] H1 H2 H3 H4 E; try done.
  simpl in E. injection E as E1 E2. inversion H3; inversion H4; subst.
  destruct (IH l b' l') as [-> ->]; [by injection H1 | by injection H2 | done..|].
  assert (y = y') as -> by nia. assert (x = x') as -> by lia. done.
Qed.

(** Every index of the array is in a block. *)
Lemma glob_surj g : Forall2 lt g gd -> exists b l, is_block b /\ Forall2 lt l (bdims b) /\ glob b l = g.
Proof.
  intros Hg. set (b := (fun x => x / bs) <$> g). set (l := (fun x => x mod bs) <$> g).
  assert (glob b l = g) as E.
  { subst b l. clear -Hbs. unfold glob. induction g as [| x g IH]; [done |]. rewrite !fmap_cons. simpl. rewrite IH. f_equal.
    pose proof (Nat.div_mod_eq x bs). lia. }
  assert (is_block b) as Hb.
  { subst b. clear E. unfold is_block. clear -Hg Hbs Hpos. revert Hpos. induction Hg as [| x g' g gs Hx Hg IH]; intros Hp; [constructor |].
    rewrite !fmap_cons. inversion Hp; subst. constructor; [| auto]. apply blocks_in_spec; [done | done |].
    pose proof (Nat.Div0.mul_div_le x bs). lia. }
  exists b, l. split_and!; try done. apply (bdims_spec b Hb). rewrite E. split_and!; [| | done].
  - subst l. apply Forall_fmap, list.Forall_forall. intros x _. apply Nat.mod_upper_bound. lia.
  - subst l. rewrite length_fmap. by apply Forall2_length in Hg.
Qed.

Lemma rank_glob b l : length b = length gd -> length l = length gd -> rank gd (glob b l) = dot b (strides bs) + rank gd l.
Proof.
  intros Hb Hl. rewrite strides_dot, <- dot_add by (by rewrite length_fmap, Hb). f_equal. unfold glob.
  clear -bs. revert l. induction b as [| y b IH]; intros [| x l]; try done. rewrite fmap_cons. simpl. by rewrite IH.
Qed.

(** ** One block *)

(** The block [b] as the loop over its elements sees it. *)
Record block_spec (b : list nat) (r : range) (its : list iterator) : Prop := {
  bsp_block : is_block b;
  bsp_dims : dimensions r = bdims b;
  bsp_strides : global_dim_strides r = strides 1;
  bsp_left : left_boundary r = (fun x => x =? 0) <$> b;
  bsp_ok : range_ok r;
  bsp_elements : elements r = Some its;
  bsp_visited : visited r its;
  bsp_place : Forall (fun it => global_offset it = Z.of_nat (rank gd (glob b (local_index it)))) its
}.

Lemma block_run er br b : new gd 1 0 = Some er -> new gd bs 0 = Some br -> iter_ok br b -> is_block (local_index b) ->
  exists r its, update_block_range er br b bs = Some r /\ elements r = Some its /\ block_spec (local_index b) r its.
Proof.
  intros He Hb [_ _ Ho] Hblk. destruct (new_spec 1) as (er' & E1 & Eg & Es & _ & _ & _ & _); [lia |].
  destruct (new_spec bs Hbs) as (br' & E2 & _ & Bs & Bd & Ba & B0 & _). simplify_eq.
  destruct (bdims_spec _ Hblk) as (D1 & D2 & D3 & D4). rewrite Bs, B0, Z.add_0_l in Ho.
  assert (0 < length gd) as Hl by (apply Nat.neq_0_lt_0; by intros ?%nil_length_inv).
  assert (exists e, end_of (bdims (local_index b)) (strides 1) (global_offset b) = Some e /\
    end_of (bdims (local_index b)) (strides 1) 0 = Some (e - global_offset b)%Z) as (e & Ee & Ee0).
  { unfold end_of. destruct (lookup_lt_is_Some_2 (bdims (local_index b)) 0) as [d ->]; [lia |].
    destruct (lookup_lt_is_Some_2 (strides 1) 0) as [s ->]; [by rewrite strides_length |].
    cbn [mbind option_bind]. eexists. split; [done |]. f_equal. lia. }
  set (r := mkRange gd (strides 1) (bdims (local_index b)) ((fun x => x =? 0) <$> local_index b) (access_stride er)
    (global_offset b) e).
  assert (range_ok r) as Hr.
  { split; simpl; [| | done | done |].
    - intros E. rewrite E in D3. simpl in D3. lia.
    - by rewrite strides_length, D3.
    - intros l Hlt. exact (row_bound 1 _ l _ ltac:(lia) D2 Hlt Ee0). }
  destruct (elements_spec r Hr) as (its & Ei & Hv). exists r, its.
  split; [| split; [done |]].
  - unfold update_block_range. rewrite Bd, Ba, Eg, Es. fold (bdims (local_index b)). rewrite Ee. done.
  - split; try done. destruct Hv as [_ HF]. eapply Forall_impl; [| exact HF]. intros it [[_ _ Hg] Hd].
    rewrite Hg. simpl. rewrite Ho, strides_one, rank_glob; [lia | |].
    + apply Forall2_length in Hblk. by rewrite length_fmap in Hblk.
    + apply Forall2_length in Hd. simpl in Hd. congruence.
Qed.

Lemma elem_digits b r its it : block_spec b r its -> it ∈ its ->
  Forall2 lt (local_index it) (bdims b) /\ Forall (fun x => x < bs) (local_index it) /\
  length b = length (local_index it) /\ length (local_index it) = length gd /\
  Forall2 lt (glob b (local_index it)) gd /\ place it = rank gd (glob b (local_index it)).
Proof.
  intros [Hb Hd _ _ _ _ [_ Hv] Hp] Hit. rewrite list.Forall_forall in Hv, Hp. destruct (Hv it Hit) as [_ Hl].
  rewrite Hd in Hl. apply (bdims_spec b Hb) in Hl as Hl'. destruct Hl' as (H1 & H2 & H3).
  split_and!; try done.
  - apply Forall2_length in Hb. rewrite length_fmap in Hb. congruence.
  - unfold place. by rewrite (Hp it Hit), Nat2Z.id.
Qed.

(** Two elements at one place are in one block, and the same. *)
Lemma same_place b r its it b' r' its' it' : block_spec b r its -> block_spec b' r' its' -> it ∈ its -> it' ∈ its' ->
  place it = place it' -> b = b' /\ local_index it = local_index it'.
Proof.
  intros HB HB' Hi Hi' E. destruct (elem_digits _ _ _ _ HB Hi) as (_ & H1 & H2 & _ & H3 & H4).
  destruct (elem_digits _ _ _ _ HB' Hi') as (_ & H1' & H2' & _ & H3' & H4').
  apply glob_inj; try done. apply (rank_inj gd); try done. congruence.
Qed.

Lemma block_NoDup b r its : block_spec b r its -> NoDup (place <$> its).
Proof.
  intros HB. apply NoDup_fmap_2_strong.
  - intros it it' Hi Hi' E. destruct (same_place _ _ _ _ _ _ _ _ HB HB Hi Hi' E) as [_ El].
    destruct HB as [_ _ _ _ _ _ _ Hp]. rewrite list.Forall_forall in Hp. pose proof (Hp _ Hi) as P1. pose proof (Hp _ Hi') as P2.
    destruct it, it'. simpl in *. congruence.
  - destruct HB as [_ _ _ _ _ _ [Hv _] _]. apply (NoDup_fmap_1 (fun it => rank (dimensions r) (local_index it))).
    rewrite Hv. apply NoDup_seq.
Qed.

(** ** The whole walk *)

Definition walk_ok (blocks : list (list nat)) (bl : list (range * list iterator)) : Prop :=
  Forall2 (fun b x => block_spec b x.1 x.2) blocks bl /\
  (fun b => rank ((fun g => blocks_in g bs) <$> gd) b) <$> blocks
    = seq 0 (product ((fun g => blocks_in g bs) <$> gd)).

Lemma walk_run : exists blocks bl, walk gd bs = Some bl /\ walk_ok blocks bl.
Proof.
  unfold walk. destruct (new_spec bs Hbs) as (br & Eb & _ & _ & Hd & _ & _ & Hok).
  destruct (new_spec 1) as (er & Ee & _); [lia |]. rewrite Eb, Ee. cbn [mbind option_bind].
  destruct (elements_spec br Hok) as (bs' & Ei & Hv). rewrite Ei. cbn [mbind option_bind].
  assert (Forall (fun b => exists x, (r ← update_block_range er br b bs; its ← elements r; Some (r, its)) = Some x /\
    block_spec (local_index b) x.1 x.2) bs') as HF.
  { destruct Hv as [_ Hv]. eapply Forall_impl; [| exact Hv]. intros b [Hi Hl]. rewrite Hd in Hl.
    destruct (block_run er br b Ee Eb Hi Hl) as (r & its & E1 & E2 & HB). exists (r, its). by rewrite E1; cbn [mbind option_bind]; rewrite E2. }
  destruct Hv as [Hv _]. rewrite Hd in Hv.
  assert (exists bl, mapM (fun b => r ← update_block_range er br b bs; its ← elements r; Some (r, its)) bs' = Some bl /\
    Forall2 (fun b x => block_spec (local_index b) x.1 x.2) bs' bl) as (bl & E & H2).
  { clear Hv Ei. induction HF as [| b bs' (x & E1 & E2) HF IH]; [by exists [] |]. destruct IH as (bl & E & H2).
    exists (x :: bl). cbn [mapM]. rewrite E1. cbn [mbind option_bind]. rewrite E. split; [done | by constructor]. }
  exists (local_index <$> bs'), bl. split; [done |]. split; [by apply Forall2_fmap_l |]. by rewrite <- list_fmap_compose.
Qed.

Section walked.

Context (blocks : list (list nat)) (bl : list (range * list iterator)).
Hypothesis Hw : walk_ok blocks bl.

Lemma walk_at k r its : bl !! k = Some (r, its) -> exists b, blocks !! k = Some b /\ block_spec b r its.
Proof.
  intros Hk. destruct Hw as [H2 _]. destruct (Forall2_lookup_r _ _ _ _ _ H2 Hk) as (b & Hb & HB). eauto.
Qed.

Lemma walk_rank k b : blocks !! k = Some b -> rank ((fun g => blocks_in g bs) <$> gd) b = k.
Proof.
  intros Hk. destruct Hw as [_ E].
  assert (((fun b => rank ((fun g => blocks_in g bs) <$> gd) b) <$> blocks) !! k
    = Some (rank ((fun g => blocks_in g bs) <$> gd) b)) as H by (by rewrite list_lookup_fmap, Hk).
  rewrite E in H. apply lookup_seq in H as [-> _]. done.
Qed.

(** The block of an index is met in the round of its number. *)
Lemma walk_block b : is_block b ->
  exists r its, bl !! rank ((fun g => blocks_in g bs) <$> gd) b = Some (r, its) /\ block_spec b r its.
Proof.
  intros Hb. pose proof (rank_lt _ _ Hb) as Hlt. destruct Hw as [H2 E].
  set (k := rank _ b) in *.
  assert (((fun b => rank ((fun g => blocks_in g bs) <$> gd) b) <$> blocks) !! k = Some k) as H
    by (rewrite E; by apply lookup_seq_lt).
  apply list_lookup_fmap_Some_1 in H as (b' & Er & Hb'). destruct (Forall2_lookup_l _ _ _ _ _ H2 Hb') as ([r its] & Hx & HB).
  assert (b' = b) as ->; [| eauto]. apply (rank_inj ((fun g => blocks_in g bs) <$> gd)); [apply HB | done |]. done.
Qed.

(** The element of a block with given digits, and when it is met. *)
Lemma block_element b r its l : block_spec b r its -> Forall2 lt l (bdims b) ->
  exists it, its !! rank (bdims b) l = Some it /\ place it = rank gd (glob b l).
Proof.
  intros HB Hl. rewrite <- (bsp_dims _ _ _ HB) in Hl.
  destruct (visited_at r its l (bsp_visited _ _ _ HB) Hl) as (it & Hi & El). exists it.
  rewrite (bsp_dims _ _ _ HB) in Hi. split; [done |]. apply list_elem_of_lookup_2 in Hi.
  destruct (elem_digits _ _ _ _ HB Hi) as (_ & _ & _ & _ & _ & ->). by rewrite El.
Qed.

Lemma places_all : places bl ≡ₚ seq 0 (product gd).
Proof.
  apply NoDup_Permutation; [| apply NoDup_seq |].
  - apply NoDup_bind_index.
    + intros i j [r its] [r' its'] y Hi Hj. simpl. rewrite !list_elem_of_fmap. intros (it & -> & Hit) (it' & E & Hit').
      destruct (walk_at i r its Hi) as (b & Bi & HB). destruct (walk_at j r' its' Hj) as (b' & Bj & HB').
      destruct (same_place _ _ _ _ _ _ _ _ HB HB' Hit Hit' E) as [<- _].
      apply walk_rank in Bi, Bj. congruence.
    + intros [r its] [k Hk]%list_elem_of_lookup. destruct (walk_at k r its Hk) as (b & _ & HB). by eapply block_NoDup.
  - intros y. rewrite elem_of_seq. unfold places. rewrite list_elem_of_bind. split.
    + intros ([r its] & Hy & [k Hk]%list_elem_of_lookup). simpl in Hy. apply list_elem_of_fmap in Hy as (it & -> & Hit).
      destruct (walk_at k r its Hk) as (b & _ & HB). destruct (elem_digits _ _ _ _ HB Hit) as (_ & _ & _ & _ & H3 & ->).
      apply rank_lt in H3. lia.
    + intros [_ Hy]. destruct (rank_surj gd y Hy) as (g & Hg & <-). destruct (glob_surj g Hg) as (b & l & Hb & Hl & <-).
      destruct (walk_block b Hb) as (r & its & Hk & HB). destruct (block_element b r its l HB Hl) as (it & Hi & E).
      exists (r, its). split; [| by eapply list_elem_of_lookup_2]. simpl. rewrite <- E. apply list_elem_of_fmap_2. by eapply list_elem_of_lookup_2.
Qed.

(** ** Looking back *)

Lemma prev_loop_some b : forall l ss args off o,
  length b = length l -> length args = length l -> length ss = length l -> Forall (fun a => a <= bs) args ->
  prev_loop l ((fun x => x =? 0) <$> b) ss args off = Some o ->
  o = (off - Z.of_nat (dot args ss))%Z /\ Forall2 le args (glob b l).
Proof.
  induction b as [| y b IH]; intros [| x l] [| s ss] [| a args] off o H1 H2 H3 Ha E; try done.
  { cbn in E. injection E as <-. split; [unfold dot; simpl; lia | constructor]. }
  rewrite fmap_cons in E. cbn [prev_loop] in E. apply Forall_cons_iff in Ha as [Ha Hs].
  destruct ((x <? a) && (y =? 0)) eqn:Eb; [done |].
  apply IH in E as [-> H]; [| by injection H1 | by injection H2 | by injection H3 | done]. split.
  - unfold dot. simpl. lia.
  - unfold glob. simpl. constructor; [| exact H]. apply andb_false_iff in Eb as [E%Nat.ltb_ge | E%Nat.eqb_neq]; [nia |]. nia.
Qed.

Lemma prev_loop_none b : forall l ss args off, prev_loop l ((fun x => x =? 0) <$> b) ss args off = None ->
  ~ Forall2 le args (glob b l).
Proof.
  induction b as [| y b IH]; intros [| x l] [| s ss] [| a args] off E; try done.
  rewrite fmap_cons in E. cbn [prev_loop] in E. intros H. unfold glob in H. cbn [zip_with] in H. inversion H; subst.
  destruct ((x <? a) && (y =? 0)) eqn:Eb; [| by eapply IH in E].
  apply andb_prop in Eb as [E1%Nat.ltb_lt E2%Nat.eqb_eq]. subst. lia.
Qed.

(** Going back from a global index. *)
Lemma back b l args : is_block b -> Forall2 lt l (bdims b) -> length args = length gd ->
  Forall2 le args (glob b l) -> (exists a, a ∈ args /\ 0 < a) ->
  exists b' l', is_block b' /\ Forall2 lt l' (bdims b') /\ rank gd (glob b' l') + rank gd args = rank gd (glob b l) /\
    (rank ((fun g => blocks_in g bs) <$> gd) b' < rank ((fun g => blocks_in g bs) <$> gd) b
     \/ b' = b /\ rank (bdims b) l' < rank (bdims b) l).
Proof.
  intros Hb Hl Hlen Hle Hnz. destruct (bdims_spec b Hb) as (D1 & _ & D3 & D4).
  apply D4 in Hl as Hl'. destruct Hl' as (L1 & L2 & L3).
  set (g := zip_with Nat.sub (glob b l) args).
  assert (length (glob b l) = length gd) as Hgl by (by apply Forall2_length in L3).
  assert (length g = length gd) as Hg by (subst g; rewrite length_zip_with; lia).
  assert (zip_with Nat.add g args = glob b l) as Ega.
  { subst g. clear -Hle. induction Hle as [| a x args gl Ha Hle IH]; [done |]. cbn [zip_with]. rewrite IH. f_equal. lia. }
  assert (rank gd g + rank gd args = rank gd (glob b l)) as Er by (rewrite <- dot_add by lia; by rewrite Ega).
  assert (Forall2 le g (glob b l)) as Hgle.
  { subst g. clear -Hle. induction Hle as [| a x args gl Ha Hle IH]; constructor; [lia | done]. }
  clearbody g. assert (Forall2 lt g gd) as Hgd'.
  { clear -Hgle L3. revert g Hgle. induction L3 as [| x y gl gs Hx H IH]; intros g Hg;
      inversion Hg; subst; constructor; [lia | auto]. }
  assert (0 < rank gd args) as Hr.
  { destruct Hnz as (a & Ha & Ha0). pose proof (weights_pos gd Hpos) as Hwp. pose proof (length_weights gd) as Hlw.
    pose proof (dot_lt (weights gd) (replicate (length args) 0) args Hwp) as Hlt. rewrite dot_zeros in Hlt. apply Hlt.
    - rewrite length_replicate. congruence.
    - clear. induction args; simpl; constructor; [lia | done].
    - intros E. rewrite <- E in Ha. apply list_elem_of_lookup in Ha as [i [-> _]%lookup_replicate]. lia. }
  destruct (glob_surj g Hgd') as (b' & l' & Hb' & Hl' & Eg). exists b', l'. rewrite Eg. split_and!; try done.
  apply (bdims_spec b' Hb') in Hl' as Hl''. destruct Hl'' as (M1 & M2 & _).
  pose proof (Forall2_length Hb) as Lb. pose proof (Forall2_length Hb') as Lb'. rewrite length_fmap in Lb, Lb'.
  assert (Forall2 le b' b /\ (b' = b -> Forall2 le l' l)) as [Hbb Hll].
  { rewrite <- Eg in Hgle. clear -Hgle L1 L2 M1 M2 Lb Lb' Hbs. unfold glob in Hgle.
    assert (length b' = length l' /\ length b = length l /\ length b = length b') as (X1 & X2 & X3) by lia.
    clear L2 M2 Lb Lb'. revert b l l' Hgle L1 M1 X1 X2 X3.
    induction b' as [| y' b' IH]; intros [| y b] [| x l] [| x' l'] H L M X1 X2 X3; try done.
    cbn [zip_with] in H. inversion H; inversion L; inversion M; subst.
    destruct (IH b l l') as [I1 I2]; [done | done | done | by injection X1 | by injection X2 | by injection X3 |].
    split; [constructor; [nia | done] |]. intros [= -> ->]. constructor; [lia | by apply I2]. }
  destruct (decide (b' = b)) as [-> | Hne].
  - right. split; [done |]. apply dot_lt; [by apply weights_pos | rewrite length_weights; congruence | by apply Hll |].
    intros ->. rewrite <- Eg in Er. lia.
  - left. apply dot_lt; [| by rewrite length_weights, length_fmap | done | done].
    apply weights_pos, Forall_fmap. eapply Forall_impl; [| exact Hpos]. unfold blocks_in. simpl. lia.
Qed.

(** What [prev] reads, for distances up to the size of a block that are not all 0, was visited
    before: in an earlier block, or earlier in this one. *)
Lemma prev_visited k r its m it args : bl !! k = Some (r, its) -> its !! m = Some it ->
  length args = length gd -> Forall (fun a => a <= bs) args -> (exists a, a ∈ args /\ 0 < a) ->
  exists res, prev r args it = Some res /\
    forall s, res = Some s -> s ∈ places (take k bl) \/ s ∈ place <$> take m its.
Proof.
  intros Hk Hm Hlen Ha Hnz. destruct (walk_at k r its Hk) as (b & Hb & HB).
  apply list_elem_of_lookup_2 in Hm as Hin. destruct (elem_digits _ _ _ _ HB Hin) as (H1 & H2 & H3 & H4 & H5 & H6).
  unfold prev. destruct (prev_loop _ _ _ _ _) as [o |] eqn:E; [| by exists None].
  pose proof HB as [B1 B2 B3 B4 _ _ B6 B7]. rewrite B3, B4 in E.
  rewrite list.Forall_forall in B7. rewrite (B7 it Hin) in E.
  apply prev_loop_some in E as [-> Hle]; [| done | congruence | rewrite strides_length; congruence | done].
  destruct (back b (local_index it) args B1 H1 Hlen Hle Hnz) as (b' & l' & Hb' & Hl' & Er & Hcase).
  rewrite strides_one. rewrite assert_true by (apply Z.leb_le; lia). cbn [mbind option_bind].
  eexists. split; [done |]. intros s [= <-]. replace (Z.to_nat _) with (rank gd (glob b' l')) by lia.
  destruct Hcase as [Hlt | [-> Hlt]].
  - left. destruct (walk_block b' Hb') as (r' & its' & Hk' & HB').
    destruct (block_element b' r' its' l' HB' Hl') as (it' & Hi' & <-). rewrite (walk_rank _ _ Hb) in Hlt.
    unfold places. rewrite list_elem_of_bind. exists (r', its'). split.
    + apply list_elem_of_fmap_2. by eapply list_elem_of_lookup_2.
    + apply (list_elem_of_lookup_2 _ (rank ((fun g => blocks_in g bs) <$> gd) b')). by rewrite lookup_take_lt.
  - right. destruct (block_element b r its l' HB Hl') as (it' & Hi' & <-). apply list_elem_of_fmap_2.
    apply (list_elem_of_lookup_2 _ (rank (bdims b) l')). rewrite lookup_take_lt; [done |].
    rewrite <- B2 in Hlt. pose proof (visited_rank r its m it B6 Hm). rewrite B2 in *. lia.
Qed.

(** [prev] from an element of global index [g]: 0 when [args] lead out of the array, or else the
    place that is [args] before. *)
Lemma prev_exact k r its m it args : bl !! k = Some (r, its) -> its !! m = Some it ->
  length args = length gd -> Forall (fun a => a <= bs) args -> (exists a, a ∈ args /\ 0 < a) ->
  exists g, Forall2 lt g gd /\ rank gd g = place it /\
    prev r args it = Some (if decide (Forall2 le args g) then Some (place it - rank gd args) else None).
Proof.
  intros Hk Hm Hlen Ha Hnz. destruct (walk_at k r its Hk) as (b & Hb & HB).
  apply list_elem_of_lookup_2 in Hm as Hin. destruct (elem_digits _ _ _ _ HB Hin) as (H1 & H2 & H3 & H4 & H5 & H6).
  pose proof HB as [B1 B2 B3 B4 _ _ B6 B7]. rewrite list.Forall_forall in B7.
  exists (glob b (local_index it)). split_and!; [done | done |].
  unfold prev. rewrite B3, B4, (B7 it Hin). destruct (prev_loop _ _ _ _ _) as [o |] eqn:E.
  - apply prev_loop_some in E as [-> Hle]; [| done | congruence | rewrite strides_length; congruence | done].
    destruct (back b (local_index it) args B1 H1 Hlen Hle Hnz) as (b' & l' & _ & _ & Er & _).
    rewrite strides_one. rewrite assert_true by (apply Z.leb_le; lia). cbn [mbind option_bind].
    rewrite decide_True by done. do 2 f_equal. lia.
  - rewrite decide_False; [done |]. by eapply prev_loop_none.
Qed.

End walked.

End blocks.

Lemma times_inj a (l l' : list nat) : 0 < a -> (fun x => x * a) <$> l = (fun x => x * a) <$> l' -> l = l'.
Proof. intros Ha E. eapply list_fmap_eq_inj; [| exact E]. intros x y H. by apply Nat.mul_cancel_r in H; [| lia]. Qed.

Lemma times_surj a l : Forall (Nat.divide a) l -> exists l', l = (fun x => x * a) <$> l'.
Proof.
  induction 1 as [| x l [k ->] _ [l' ->]]; [by exists [] |]. by exists (k :: l').
Qed.

Lemma times_lt gs a l : 0 < a -> Forall (fun g => 0 < g) gs ->
  Forall2 lt l ((fun g => blocks_in g a) <$> gs) <-> Forall2 lt ((fun x => x * a) <$> l) gs.
Proof.
  intros Ha. revert l. induction gs as [| g gs IH]; intros [| x l] Hp; try (split; intros H; by inversion H).
  apply Forall_cons_iff in Hp as [Hg Hp]. rewrite !fmap_cons, !list.Forall2_cons, IH, blocks_in_spec by done. done.
Qed.

(** The corners of the blocks of size [bs], in the order of the loop over their range. *)
Lemma corners_spec gd bs : gd <> [] -> Forall (fun g => 0 < g) gd -> 0 < bs ->
  exists r its, new gd bs 0 = Some r /\ elements r = Some its /\
    let corners := get_global_index r <$> its in
    NoDup corners /\
    (forall b, b ∈ corners <-> Forall2 lt b gd /\ Forall (Nat.divide bs) b) /\
    (forall k b b', corners !! k = Some b -> b' ∈ corners -> Forall2 le b' b -> b' <> b -> b' ∈ take k corners) /\
    forall it, it ∈ its -> place it = rank gd (get_global_index r it).
Proof.
  intros Hne Hpos Hbs. destruct (new_spec gd bs Hne Hpos Hbs bs Hbs) as (r & Er & Hg & Hst & Hd & _ & H0 & Hr).
  destruct (elements_spec r Hr) as (its & Ei & Hv). exists r, its. split_and!; try done. cbv zeta.
  set (times (l : list nat) := (fun x => x * bs) <$> l).
  assert (forall k it, its !! k = Some it -> get_global_index r it = times (local_index it) /\
    place it = rank gd (times (local_index it))) as Hgl.
  { intros k it Hk. pose proof Hv as [_ HF]. rewrite Forall_lookup in HF. destruct (HF _ _ Hk) as [[_ _ Ho] Hl].
    assert (place it = rank gd (times (local_index it))) as Hp
      by (unfold place; by rewrite Ho, H0, Z.add_0_l, Nat2Z.id, Hst, (strides_dot gd bs Hbs)).
    unfold get_global_index. rewrite Hp, Hg.
    assert (Forall2 lt (times (local_index it)) gd) as Ht by (by apply times_lt; [| | rewrite <- Hd]).
    apply (global_digits_rank gd _ 0) in Ht. rewrite Nat.mul_0_l, Nat.add_0_l in Ht. split; [by rewrite Ht | done]. }
  assert (forall k it, its !! k = Some it -> (get_global_index r <$> its) !! k = Some (times (local_index it))) as Hlk.
  { intros k it Hk. rewrite list_lookup_fmap, Hk. simpl. f_equal. by eapply Hgl. }
  assert (forall k b, (get_global_index r <$> its) !! k = Some b -> exists l, b = times l /\
    Forall2 lt l (dimensions r) /\ rank (dimensions r) l = k) as Hinv.
  { intros k b (it & -> & Hk)%list_lookup_fmap_Some_1. exists (local_index it). split; [by eapply Hgl |].
    split; [| by eapply visited_rank]. destruct Hv as [_ HF]. rewrite Forall_lookup in HF. by destruct (HF _ _ Hk) as [_ Hl]. }
  split_and!.
  - apply NoDup_alt. intros i j b (l & -> & _ & <-)%Hinv (l' & E & _ & <-)%Hinv. apply times_inj in E; [| done]. by subst.
  - intros b. split.
    + intros [k (l & -> & Hl & _)%Hinv]%list_elem_of_lookup. rewrite Hd in Hl. split; [by apply times_lt |].
      apply Forall_fmap, list.Forall_forall. intros x _. by exists x.
    + intros [Hb Hdv]. destruct (times_surj bs b Hdv) as (l & ->).
      apply times_lt in Hb; [| done..]. rewrite <- Hd in Hb. destruct (visited_at r its l Hv Hb) as (it & Hi & <-).
      apply Hlk in Hi. by eapply list_elem_of_lookup_2.
  - intros k b b' (l & -> & Hl & <-)%Hinv [k' (l' & -> & Hl' & <-)%Hinv]%list_elem_of_lookup Hle Hne'.
    destruct (visited_at r its l' Hv Hl') as (it & Hi & E). apply Hlk in Hi. rewrite E in Hi.
    apply (list_elem_of_lookup_2 _ (rank (dimensions r) l')). rewrite lookup_take_lt; [done |].
    apply dot_lt; [apply weights_pos, lt_pos with l; done | rewrite length_weights; by apply Forall2_length in Hl' | | congruence].
    unfold times in Hle. rewrite Forall2_fmap in Hle. eapply Forall2_impl; [| exact Hle]. intros x y H. by apply Nat.mul_le_mono_pos_r in H.
  - intros it [k Hk]%list_elem_of_lookup. destruct (Hgl k it Hk) as [-> E]. exact E.
Qed.

(** C31: the loop [for (it = begin; it != end; ++it)] over a new range ends, after as many rounds as the
    range has indices, and goes through them in the order of their rows. *)
Theorem range_loop_ends gd stride :
  gd <> [] -> Forall (fun g => 0 < g) gd -> 0 < stride ->
  exists r its, new gd stride 0 = Some r /\ elements r = Some its /\
    length its = product ((fun g => (g - 1) / stride + 1) <$> gd) /\
    forall k it, its !! k = Some it -> Forall2 lt (local_index it) (dimensions r) /\
      rank (dimensions r) (local_index it) = k /\
      global_offset it = Z.of_nat (dot (local_index it) (global_dim_strides r)).
Proof.
  intros Hne Hpos Hs. destruct (new_spec gd stride Hne Hpos Hs stride Hs) as (r & Er & _ & _ & Hd & _ & H0 & Hr).
  destruct (elements_spec r Hr) as (its & Ei & Hv). exists r, its. split_and!; try done.
  - destruct Hv as [E _]. apply (f_equal length) in E. rewrite length_fmap, length_seq, Hd in E. done.
  - intros k it Hk. pose proof (visited_rank r its k it Hv Hk). destruct Hv as [_ HF]. rewrite Forall_lookup in HF.
    destruct (HF _ _ Hk) as [[_ _ Ho] Hl]. split_and!; try done. rewrite Ho, H0. lia.
Qed.

(** C6: the blocks of an array and their elements go through every value exactly once.  [prev] from an
    element of index [g], at distances up to the size of a block that are not all 0, reads the
    value that lies these distances before, or 0 when that is outside of the array; and the value
    was visited before: in an earlier block, or earlier in the same. *)
Theorem blocks_divide gd bs :
  gd <> [] -> Forall (fun g => 0 < g) gd -> 0 < bs ->
  exists bl, walk gd bs = Some bl /\ places bl ≡ₚ seq 0 (product gd) /\
    forall k r its m it args, bl !! k = Some (r, its) -> its !! m = Some it ->
      length args = length gd -> Forall (fun a => a <= bs) args -> (exists a, a ∈ args /\ 0 < a) ->
      exists g, Forall2 lt g gd /\ rank gd g = place it /\
        if decide (Forall2 le args g)
        then exists s, prev r args it = Some (Some s) /\ s + rank gd args = place it /\
          (s ∈ places (take k bl) \/ s ∈ place <$> take m its)
        else prev r args it = Some None.
Proof.
  intros Hne Hpos Hbs. destruct (walk_run gd bs Hne Hpos Hbs) as (blocks & bl & Ew & HW). exists bl. split_and!; [done | |].
  - by apply (places_all gd bs Hpos Hbs blocks).
  - intros k r its m it args Hk Hm Hlen Ha Hnz.
    destruct (prev_visited gd bs Hpos Hbs blocks bl HW k r its m it args Hk Hm Hlen Ha Hnz) as (res & E & Hv).
    destruct (prev_exact gd bs Hpos Hbs blocks bl HW k r its m it args Hk Hm Hlen Ha Hnz) as (g & Hg & Eg & Ep).
    exists g. split_and!; [done | done |]. rewrite Ep in E. injection E as <-. rewrite Ep.
    destruct (decide _) as [Hle |]; [| done]. eexists. split_and!; [done | | by apply Hv].
    rewrite <- Eg. apply (rank_mono gd) in Hle. lia.
Qed.

Lemma range_loop_ends_witness :
  exists r its, new [3; 5] 2 0 = Some r /\ elements r = Some its /\ length its = 6 /\
    forall k it, its !! k = Some it -> Forall2 lt (local_index it) (dimensions r) /\
      rank (dimensions r) (local_index it) = k /\
      global_offset it = Z.of_nat (dot (local_index it) (global_dim_strides r)).
Proof. apply (range_loop_ends [3; 5] 2); [done | repeat constructor | lia]. Defined.

Lemma blocks_divide_witness :
  exists bl, walk [3; 5] 2 = Some bl /\ places bl ≡ₚ seq 0 15 /\
    forall k r its m it args, bl !! k = Some (r, its) -> its !! m = Some it ->
      length args = 2 -> Forall (fun a => a <= 2) args -> (exists a, a ∈ args /\ 0 < a) ->
      exists g, Forall2 lt g [3; 5] /\ rank [3; 5] g = place it /\
        if decide (Forall2 le args g)
        then exists s, prev r args it = Some (Some s) /\ s + rank [3; 5] args = place it /\
          (s ∈ places (take k bl) \/ s ∈ place <$> take m its)
        else prev r args it = Some None.
Proof. apply (blocks_divide [3; 5] 2); [done | repeat constructor; lia | lia]. Defined.

End Iterator.
