(* ===== verification/SzLevels.v ===== *)
(** * SzLevels: interpolation along a line, and levels of it

    The part of [SZ3/decomposition/InterpolationDecomposition.hpp] that does not depend on the
    number of dimensions, at [T = double]: the interpolators of [SZ3/utils/Interpolators.hpp] it
    uses, the interpolation along one line, and the loop over the levels with its error bounds.

    Along a line the values at odd places are predicted from those at even places.  Levels whose
    visits cover the array and read what is known give back, to the decompressor, the values that
    replaced the data ([run_all]). *)

From Stdlib Require Import ZArith Lia.
From stdpp Require Import sets.
From S2P Require Import Prelude Bytes Float64 Quantizer SzPipeline SzDecomp.

(** ** Interpolators *)

Module Interpolators.

(** The literals 2, 3, 6, 8, 9, 10, 15, 16, -0.5 and 1.5. *)
Definition c2 : Z := 0x4000000000000000.
Definition c3 : Z := 0x4008000000000000.
Definition c6 : Z := 0x4018000000000000.
Definition c8 : Z := 0x4020000000000000.
Definition c9 : Z := 0x4022000000000000.
Definition c10 : Z := 0x4024000000000000.
Definition c15 : Z := 0x402e000000000000.
Definition c16 : Z := 0x4030000000000000.
Definition cm0_5 : Z := 0xbfe0000000000000.
Definition c1_5 : Z := 0x3ff8000000000000.

Definition interp_linear (a b : Z) : Z := f64_div (f64_add a b) c2.
Definition interp_linear1 (a b : Z) : Z := f64_add (f64_mul cm0_5 a) (f64_mul c1_5 b).
Definition interp_quad_1 (a b c : Z) : Z :=
  f64_div (f64_sub (f64_add (f64_mul c3 a) (f64_mul c6 b)) c) c8.
Definition interp_quad_2 (a b c : Z) : Z :=
  f64_div (f64_add (f64_add (f64_neg a) (f64_mul c6 b)) (f64_mul c3 c)) c8.
Definition interp_quad_3 (a b c : Z) : Z :=
  f64_div (f64_add (f64_sub (f64_mul c3 a) (f64_mul c10 b)) (f64_mul c15 c)) c8.
Definition interp_cubic (a b c d : Z) : Z :=
  f64_div (f64_sub (f64_add (f64_add (f64_neg a) (f64_mul c9 b)) (f64_mul c9 c)) d) c16.

(** The interpolators on the values at a list of places. *)
Definition on1 (f : Z -> Z) (l : list Z) : Z := match l with [a] => f a | _ => 0 end.
Definition on2 (f : Z -> Z -> Z) (l : list Z) : Z := match l with [a; b] => f a b | _ => 0 end.
Definition on3 (f : Z -> Z -> Z -> Z) (l : list Z) : Z :=
  match l with [a; b; c] => f a b c | _ => 0 end.
Definition on4 (f : Z -> Z -> Z -> Z -> Z) (l : list Z) : Z :=
  match l with [a; b; c; d] => f a b c d | _ => 0 end.

End Interpolators.

(** ** Lines and levels *)

Module Levels.
Import Interpolators.
Notation Quantizer := LinearQuantizer.LinearQuantizer.
#[local] Existing Instance LinearQuantizer.linear_quantizer.
#[local] Open Scope nat_scope.

(** [for (i = i0; i < lim; i += 2)]: the values of [i]. *)
Fixpoint loop2 (fuel i lim : nat) : list nat :=
  match fuel with
  | O => []
  | S fuel => if i <? lim then i :: loop2 fuel (i + 2) lim else []
  end.

(** [block_interpolation_1d]: the visits, in the order of the code; [PB_predict_overwrite]
    quantizes and [PB_recover] recovers along them.  The function is linear where [linear]
    says so and for fewer than five values. *)
Definition block_interpolation_1d (begin end_ stride : nat) (linear : bool) : list visit :=
  let n := (end_ - begin) / stride + 1 in
  if n <=? 1 then [] else
  let stride3x := 3 * stride in
  let stride5x := 5 * stride in
  if linear || (n <? 5) then
    ((fun i => let d := begin + i * stride in
       {| v_idx := d; v_src := [d - stride; d + stride]; v_fun := on2 interp_linear |})
      <$> loop2 n 1 (n - 1))
    ++ (if n mod 2 =? 0 then
          let d := begin + (n - 1) * stride in
          [ if n <? 4 then {| v_idx := d; v_src := [d - stride]; v_fun := on1 id |}
            else {| v_idx := d; v_src := [d - stride3x; d - stride]; v_fun := on2 interp_linear1 |} ]
        else [])
  else
    let is_ := loop2 n 3 (n - 3) in
    let i := 3 + 2 * length is_ in
    ((fun i => let d := begin + i * stride in
       {| v_idx := d; v_src := [d - stride3x; d - stride; d + stride; d + stride3x];
          v_fun := on4 interp_cubic |}) <$> is_)
    ++ (let d := begin + stride in
        [ {| v_idx := d; v_src := [d - stride; d + stride; d + stride3x]; v_fun := on3 interp_quad_1 |} ])
    ++ (let d := begin + i * stride in
        [ {| v_idx := d; v_src := [d - stride3x; d - stride; d + stride]; v_fun := on3 interp_quad_2 |} ])
    ++ (if n mod 2 =? 0 then
          let d := begin + (n - 1) * stride in
          [ {| v_idx := d; v_src := [d - stride5x; d - stride3x; d - stride]; v_fun := on3 interp_quad_3 |} ]
        else []).

(** [eb_ratio] *)
Definition eb_ratio : Z := 0x3fe0000000000000.

Definition level_eb (eb : Z) (level : nat) : Z :=
  if 3 <=? level then f64_mul eb eb_ratio else eb.

(** The first value is predicted as 0. *)
Definition first_visit : list visit := [ {| v_idx := 0; v_src := []; v_fun := fun _ => 0%Z |} ].

(** The loop over the levels, from [level] down to 1. *)
Fixpoint for_levels {A} (step : nat -> A -> option A) (level : nat) (s : A) : option A :=
  match level with
  | O => Some s
  | S l => s ← step level s; for_levels step l s
  end.

(** The body of the loop of the compressor: the indices so far, the data, the quantizer. *)
Definition compress_level (visits : nat -> list visit) (eb : Z) (level : nat)
    (s : list Z * list Z * Quantizer) : option (list Z * list Z * Quantizer) :=
  let '(inds, data, q) := s in
  '(inds', data, q) ← quantize_visits (LinearQuantizer.set_eb q (level_eb eb level)) data (visits level);
  Some (inds ++ inds', data, q).

(** That of the decompressor: the data, the indices left, the quantizer. *)
Definition decompress_level (visits : nat -> list visit) (eb : Z) (level : nat)
    (s : list Z * list Z * Quantizer) : option (list Z * list Z * Quantizer) :=
  let '(data, inds, q) := s in
  recover_visits (LinearQuantizer.set_eb q (level_eb eb level)) data (visits level) inds.

Lemma small_double k : (0 <= k <= 32)%Z ->
  f64_ltb (f64_of_Z (-1)) (f64_of_Z k) = true /\ f64_to_i64 (f64_of_Z k) = k.
Proof.
  intros Hk. assert (forallb (fun k => f64_ltb (f64_of_Z (-1)) (f64_of_Z k) && (f64_to_i64 (f64_of_Z k) =? k)%Z)
    (Z.of_nat <$> seq 0 33) = true) as H by (by vm_compute).
  rewrite forallb_forall in H. specialize (H k). rewrite andb_true_iff, Z.eqb_eq in H. apply H.
  apply list_elem_of_In, list_elem_of_fmap. exists (Z.to_nat k). split; [lia |]. apply elem_of_seq. lia.
Qed.

(** ** The order of a block *)

Lemma loop2_elem fuel : forall i lim k, lim <= i + 2 * fuel ->
  k ∈ loop2 fuel i lim <-> k < lim /\ exists j, k = i + 2 * j.
Proof.
  induction fuel as [| fuel IH]; intros i lim k Hf; cbn [loop2].
  { split; [set_solver |]. intros [H [j ->]]. lia. }
  destruct (Nat.ltb_spec i lim) as [Hi | Hi].
  - rewrite elem_of_cons, IH by lia. split.
    + intros [-> | [H [j ->]]]; [split; [done | exists 0; lia] | split; [done | exists (S j); lia]].
    + intros [H [[| j] ->]]; [left; lia | right]. split; [done | exists j; lia].
  - split; [set_solver |]. intros [H [j ->]]. lia.
Qed.

Lemma loop2_NoDup fuel : forall i lim, lim <= i + 2 * fuel -> NoDup (loop2 fuel i lim).
Proof.
  induction fuel as [| fuel IH]; intros i lim Hf; cbn [loop2]; [constructor |].
  destruct (Nat.ltb_spec i lim) as [Hi | Hi]; [| constructor].
  constructor; [| apply IH; lia]. rewrite loop2_elem by lia. intros [_ [j Hj]]. lia.
Qed.

(** Where the loop ends. *)
Lemma loop2_end fuel : forall i lim, lim <= i + 2 * fuel -> i < lim + 2 ->
  lim <= i + 2 * length (loop2 fuel i lim) < lim + 2.
Proof.
  induction fuel as [| fuel IH]; intros i lim Hf Hi; cbn [loop2]; [simpl; lia |].
  destruct (Nat.ltb_spec i lim) as [Hl | Hl]; cbn [length]; [| lia].
  specialize (IH (i + 2) lim). lia.
Qed.

(** The last place of a block of [n] values, when their number is even. *)
Definition last_place (n : nat) : list nat := if n mod 2 =? 0 then [n - 1] else [].

Lemma last_place_spec n :
  NoDup (last_place n) /\ forall k, k ∈ last_place n <-> k = n - 1 /\ exists h, n = 2 * h.
Proof.
  unfold last_place. pose proof (Nat.div_mod_eq n 2) as E. pose proof (Nat.mod_upper_bound n 2) as Hm.
  destruct (Nat.eqb_spec (n mod 2) 0).
  - split; [apply NoDup_singleton |]. intros k. rewrite list_elem_of_singleton.
    split; [intros -> | by intros [-> _]]. split; [done |]. exists (n / 2). lia.
  - split; [constructor |]. intros k. split; [set_solver |]. intros [_ [h Hh]]. lia.
Qed.

(** The places that are visited, in units of the stride. *)
Definition odd_places (n : nat) (linear : bool) : list nat :=
  if n <=? 1 then []
  else if linear || (n <? 5) then loop2 n 1 (n - 1) ++ last_place n
  else let is_ := loop2 n 3 (n - 3) in is_ ++ [1] ++ [3 + 2 * length is_] ++ last_place n.

Lemma block_idx begin end_ stride linear :
  v_idx <$> block_interpolation_1d begin end_ stride linear
  = (fun k => begin + k * stride) <$> odd_places ((end_ - begin) / stride + 1) linear.
Proof.
  unfold block_interpolation_1d, odd_places, last_place. set (n := _ + 1). destruct (n <=? 1); [done |].
  destruct (linear || (n <? 5)).
  - rewrite !fmap_app, <- list_fmap_compose. f_equal. destruct (n mod 2 =? 0); [| done]. by destruct (n <? 4).
  - rewrite !fmap_app, <- list_fmap_compose. f_equal. cbn [fmap list_fmap app v_idx]. rewrite Nat.mul_1_l.
    do 2 f_equal. by destruct (n mod 2 =? 0).
Qed.

Lemma linear_places n : 1 < n ->
  NoDup (loop2 n 1 (n - 1) ++ last_place n) /\
  forall k, k ∈ loop2 n 1 (n - 1) ++ last_place n <-> k < n /\ exists j, k = 2 * j + 1.
Proof.
  intros Hn. destruct (last_place_spec n) as [Hnd He]. split.
  - apply list.NoDup_app. split; [apply loop2_NoDup; lia |]. split; [| done].
    intros x Hx Hx'. apply loop2_elem in Hx as [Hx _]; [| lia]. apply He in Hx'. lia.
  - intros k. rewrite elem_of_app, loop2_elem, He by lia. split.
    + intros [[H [j ->]] | [-> [h Hh]]]; (split; [lia |]); [exists j; lia | exists (h - 1); lia].
    + intros [H [j ->]]. destruct (decide (2 * j + 1 = n - 1)) as [E | E].
      * right. split; [done |]. exists (j + 1). lia.
      * left. split; [lia |]. exists j. lia.
Qed.

Lemma cubic_places n : 5 <= n ->
  let is_ := loop2 n 3 (n - 3) in
  NoDup (is_ ++ [1] ++ [3 + 2 * length is_] ++ last_place n) /\
  forall k, k ∈ is_ ++ [1] ++ [3 + 2 * length is_] ++ last_place n <-> k < n /\ exists j, k = 2 * j + 1.
Proof.
  intros Hn is_. destruct (last_place_spec n) as [Hnd He].
  pose proof (loop2_end n 3 (n - 3)) as Hend. fold is_ in Hend. set (len := length is_) in *.
  assert (forall k, k ∈ is_ <-> k < n - 3 /\ exists j, k = 3 + 2 * j) as Hl
    by (intros k; apply loop2_elem; lia).
  assert (forall k, k ∈ [1] ++ [3 + 2 * len] ++ last_place n <->
    k = 1 \/ k = 3 + 2 * len \/ (k = n - 1 /\ exists h, n = 2 * h)) as Ht.
  { intros k. rewrite !elem_of_app, !list_elem_of_singleton, He. done. }
  split.
  - apply list.NoDup_app. split; [apply loop2_NoDup; lia |]. split.
    + intros x [Hx [j ->]]%Hl Hx'%Ht. lia.
    + cbn [app]. apply list.NoDup_cons. split.
      * rewrite elem_of_cons, He. lia.
      * apply list.NoDup_cons. split; [| done]. rewrite He. intros [E [h Hh]]. lia.
  - intros k. rewrite elem_of_app, Hl, Ht. split.
    + intros [[H [j ->]] | [-> | [-> | [-> [h Hh]]]]]; (split; [lia |]);
        [exists (j + 1); lia | by exists 0 | exists (len + 1); lia | exists (h - 1); lia].
    + intros [H [j ->]]. destruct (decide (j = 0)) as [-> | Hj]; [right; by left |].
      destruct (decide (2 * j + 1 < n - 3)) as [E | E]; [left; split; [done | exists (j - 1); lia] |].
      right. right. destruct (decide (2 * j + 1 = n - 1)) as [E' | E']; [right | left; lia].
      split; [done |]. exists (j + 1). lia.
Qed.

Lemma odd_places_spec n linear :
  NoDup (odd_places n linear) /\ forall k, k ∈ odd_places n linear <-> k < n /\ exists j, k = 2 * j + 1.
Proof.
  unfold odd_places. destruct (Nat.leb_spec n 1) as [Hn | Hn].
  { split; [constructor |]. intros k. split; [set_solver |]. intros [H [j ->]]. lia. }
  destruct (linear || (n <? 5)) eqn:El; [by apply linear_places |].
  apply orb_false_iff in El as [_ El%Nat.ltb_ge]. by apply cubic_places.
Qed.

Section block.

Variables begin end_ stride : nat.
Hypothesis Hstride : 0 < stride.
Hypothesis Hend : begin <= end_.

Notation n := ((end_ - begin) / stride + 1).

Lemma place_in k : k < n <-> begin + k * stride <= end_.
Proof.
  assert (k <= (end_ - begin) / stride <-> k * stride <= end_ - begin) as H.
  { split; intros H.
    - pose proof (Nat.Div0.mul_div_le (end_ - begin) stride). nia.
    - apply Nat.div_le_lower_bound; lia. }
  lia.
Qed.

(** An even place of the block. *)
Definition even_place (i : nat) : Prop := exists k, i = begin + 2 * k * stride /\ i <= end_.

Lemma source_down j k : 2 * j + 1 < n -> k <= j ->
  even_place (begin + (2 * j + 1) * stride - (2 * k + 1) * stride).
Proof.
  intros Hj Hk. exists (j - k).
  assert (begin + (2 * j + 1) * stride - (2 * k + 1) * stride = begin + 2 * (j - k) * stride) as -> by nia.
  split; [done |]. apply place_in. lia.
Qed.

Lemma source_up j k : 2 * (j + k) + 2 < n ->
  even_place (begin + (2 * j + 1) * stride + (2 * k + 1) * stride).
Proof.
  intros Hj. exists (j + k + 1). split; [nia |].
  replace (begin + _ + _) with (begin + (2 * (j + k) + 2) * stride) by nia. by apply place_in.
Qed.

Lemma source_down1 j : 2 * j + 1 < n -> even_place (begin + (2 * j + 1) * stride - stride).
Proof. intros Hj. pose proof (source_down j 0 Hj) as H. rewrite Nat.mul_1_l in H. apply H. lia. Qed.
Lemma source_up1 j : 2 * j + 2 < n -> even_place (begin + (2 * j + 1) * stride + stride).
Proof. intros Hj. pose proof (source_up j 0) as H. rewrite Nat.mul_1_l in H. apply H. lia. Qed.

(** Every prediction reads even places of its block. *)
Lemma block_sources linear :
  Forall (fun v => Forall even_place (v_src v)) (block_interpolation_1d begin end_ stride linear).
Proof.
  unfold block_interpolation_1d. destruct (Nat.leb_spec n 1) as [Hn | Hn]; [constructor |].
  assert (forall vs : list visit, (forall h, n = 2 * h -> Forall (fun v => Forall even_place (v_src v)) vs) ->
    Forall (fun v => Forall even_place (v_src v)) (if n mod 2 =? 0 then vs else [])) as Hlast.
  { intros vs H. destruct (Nat.eqb_spec (n mod 2) 0) as [E | E]; [| constructor].
    apply (H (n / 2)). pose proof (Nat.div_mod_eq n 2). lia. }
  destruct (linear || (n <? 5)) eqn:El; rewrite !Forall_app.
  - split.
    + apply Forall_fmap, list.Forall_forall. intros i [Hi [j ->]]%loop2_elem; [| lia].
      replace (1 + 2 * j) with (2 * j + 1) in * by lia.
      repeat constructor; [apply source_down1 | apply source_up1]; lia.
    + apply Hlast. intros h Hh. replace (n - 1) with (2 * (h - 1) + 1) by lia.
      destruct (Nat.ltb_spec n 4); repeat constructor; try (apply source_down1; lia).
      apply (source_down (h - 1) 1); lia.
  - apply orb_false_iff in El as [_ El%Nat.ltb_ge].
    pose proof (loop2_end n 3 (n - 3)) as Hle. set (len := length _) in *. split_and!.
    + apply Forall_fmap, list.Forall_forall. intros i [Hi [j ->]]%loop2_elem; [| lia].
      replace (3 + 2 * j) with (2 * (j + 1) + 1) in * by lia.
      repeat constructor; [apply (source_down _ 1) | apply source_down1 | apply source_up1 | apply (source_up _ 1)]; lia.
    + replace (begin + stride) with (begin + (2 * 0 + 1) * stride) by lia. repeat constructor.
      all: apply (source_down1 0) || apply (source_up1 0) || apply (source_up 0 1); lia.
    + replace (3 + 2 * len) with (2 * (len + 1) + 1) by lia. repeat constructor.
      all: apply (source_down _ 1) || apply source_down1 || apply source_up1; lia.
    + apply Hlast. intros h Hh. replace (n - 1) with (2 * (h - 1) + 1) by lia. repeat constructor.
      all: apply (source_down _ 2) || apply (source_down _ 1) || apply source_down1; lia.
Qed.

(** The places visited are the odd ones, each once. *)
Lemma block_visits linear :
  NoDup (v_idx <$> block_interpolation_1d begin end_ stride linear) /\
  forall i, i ∈ v_idx <$> block_interpolation_1d begin end_ stride linear <->
    exists k, i = begin + (2 * k + 1) * stride /\ i <= end_.
Proof.
  rewrite block_idx. destruct (odd_places_spec n linear) as [Hnd He]. split.
  - apply NoDup_fmap_2; [intros a b; nia | done].
  - intros i. rewrite list_elem_of_fmap. split.
    + intros (k & -> & [Hk [j ->]]%He). exists j. split; [done |]. by apply place_in.
    + intros (k & -> & Hk). exists (2 * k + 1). split; [done |]. apply He. split; [by apply place_in | by exists k].
Qed.

End block.

(** ** The order of a level *)

Lemma fmap_bind {A B C} (f : B -> C) (g : A -> list B) (l : list A) :
  f <$> (l ≫= g) = l ≫= fun x => f <$> g x.
Proof. induction l as [| x l IH]; [done |]. by rewrite !bind_cons, fmap_app, IH. Qed.

Lemma odd_even s a b : 0 < s -> (2 * a + 1) * s = 2 * b * s -> False.
Proof. intros Hs H. apply Nat.mul_cancel_r in H; lia. Qed.

(** ** The order of the levels *)

(** The values visited from a level downwards. *)
Fixpoint order (visits : nat -> list visit) (level : nat) : list nat :=
  match level with
  | O => []
  | S l => (v_idx <$> visits level) ++ order visits l
  end.

(** The visits from a level downwards, one after the other. *)
Fixpoint all_visits (visits : nat -> list visit) (level : nat) : list visit :=
  match level with
  | O => []
  | S l => visits level ++ all_visits visits l
  end.

Lemma all_visits_idx visits level : v_idx <$> all_visits visits level = order visits level.
Proof. induction level as [| l IH]; [done |]. cbn [all_visits order]. by rewrite fmap_app, IH. Qed.

Lemma causal_known known vs :
  Forall (fun v => Forall (fun s => s ∈ known) (v_src v)) vs -> causal known vs.
Proof.
  revert known. induction vs as [| v vs IH]; intros known H; [done |]. apply Forall_cons_iff in H as [Hv H].
  split; [done |]. apply IH. eapply Forall_impl; [| exact H]. intros w Hw.
  eapply Forall_impl; [| exact Hw]. set_solver.
Qed.

Lemma causal_app known a b :
  causal known a -> causal (reverse (v_idx <$> a) ++ known) b -> causal known (a ++ b).
Proof.
  revert known. induction a as [| v a IH]; intros known Ha Hb; [done |]. destruct Ha as [Hv Ha].
  split; [done |]. apply IH; [done |]. by rewrite fmap_cons, reverse_cons, <- app_assoc in Hb.
Qed.

Lemma causal_app_inv known a b :
  causal known (a ++ b) -> causal known a /\ causal (reverse (v_idx <$> a) ++ known) b.
Proof.
  revert known. induction a as [| v a IH]; intros known H; [done |]. destruct H as [Hv H].
  apply IH in H as [H1 H2]. split; [done |]. by rewrite fmap_cons, reverse_cons, <- app_assoc.
Qed.

Lemma causal_weaken vs : forall known known', known ⊆ known' -> causal known vs -> causal known' vs.
Proof.
  induction vs as [| v vs IH]; intros known known' Hk Hc; [done |]. destruct Hc as [Hv Hc]. split.
  - eapply Forall_impl; [| exact Hv]. intros i. apply Hk.
  - apply (IH (v_idx v :: known)); [set_solver | done].
Qed.

(** Grids that get finer: level [S l] visits the places of [P] on grid [l] that are not on grid
    [S l], and needs to know those that are. *)
Section grids.

Variables (visits : nat -> list visit) (P : nat -> Prop) (M : nat -> nat -> Prop).
Hypothesis Hfinest : forall i, P i -> M 0 i.
Hypothesis Hfiner : forall l i, M (S l) i -> M l i.
Hypothesis Hdec : forall l i, P i -> M l i \/ ~ M l i.
Hypothesis Hgrid : forall l,
  NoDup (v_idx <$> visits (S l)) /\
  (forall i, i ∈ v_idx <$> visits (S l) <-> P i /\ M l i /\ ~ M (S l) i) /\
  forall known, (forall i, P i -> M (S l) i -> i ∈ known) -> causal known (visits (S l)).

Lemma grid_order level :
  NoDup (order visits level) /\ forall i, i ∈ order visits level <-> P i /\ ~ M level i.
Proof.
  induction level as [| l [IHn IH]]; cbn [order].
  { split; [constructor |]. intros i. split; [set_solver |]. intros [Hi []]. by apply Hfinest. }
  destruct (Hgrid l) as (Hn & Hin & _). split.
  - apply list.NoDup_app. split_and!; try done. intros i (_ & H & _)%Hin [_ H']%IH. done.
  - intros i. rewrite elem_of_app, Hin, IH. split; [intuition eauto |]. intros [Hi Hm].
    destruct (Hdec l i Hi); [left | right]; done.
Qed.

(** With a first grid of the place [base] only, every place but that is visited. *)
Lemma grid_base level base : P base -> (forall i, P i -> M level i <-> i = base) ->
  NoDup (base :: order visits level) /\ forall i, i ∈ base :: order visits level <-> P i.
Proof.
  intros Hb Hl. destruct (grid_order level) as [Hn Hin]. split.
  - constructor; [| done]. rewrite Hin. intros [_ []]. by apply Hl.
  - intros i. rewrite elem_of_cons, Hin. split; [by intros [-> | [Hi _]] |]. intros Hi.
    destruct (decide (i = base)); [by left | right]. split; [done |]. by rewrite Hl.
Qed.

Lemma grid_causal level : forall known,
  (forall i, P i -> M level i -> i ∈ known) -> causal known (all_visits visits level).
Proof.
  induction level as [| l IH]; intros known Hk; [done |]. cbn [all_visits].
  destruct (Hgrid l) as (_ & Hin & Hc). apply causal_app; [by apply Hc |]. apply IH. intros i Hi Hm.
  rewrite elem_of_app, elem_of_reverse, Hin. destruct (Hdec (S l) i Hi); [right; auto | by left].
Qed.

End grids.

(** Levels from a place [base]: a level visits the places of [P] at odd multiples of its
    stride from there, and reads even ones. *)
Section strides.

Variables (visits : nat -> list visit) (P : nat -> Prop) (base : nat).
Hypothesis Hbase : forall i, P i -> base <= i.
Hypothesis Hlevel : forall l,
  NoDup (v_idx <$> visits (S l)) /\
  (forall i, i ∈ v_idx <$> visits (S l) <-> P i /\ exists k, i = base + (2 * k + 1) * 2 ^ l) /\
  Forall (fun v => Forall (fun i => P i /\ exists k, i = base + k * 2 ^ S l) (v_src v)) (visits (S l)).

Definition on_stride (l i : nat) : Prop := exists k, i = base + k * 2 ^ l.

Lemma stride_dec l i : P i -> on_stride l i \/ ~ on_stride l i.
Proof.
  intros Hi. apply Hbase in Hi. pose proof (Nat.div_mod_eq (i - base) (2 ^ l)) as E.
  destruct (decide ((i - base) mod 2 ^ l = 0)) as [E0 | E0].
  - left. exists ((i - base) / 2 ^ l). lia.
  - right. intros [k ->]. apply E0. replace (base + k * 2 ^ l - base) with (k * 2 ^ l) by lia. apply Nat.Div0.mod_mul.
Qed.

Lemma stride_grid l :
  NoDup (v_idx <$> visits (S l)) /\
  (forall i, i ∈ v_idx <$> visits (S l) <-> P i /\ on_stride l i /\ ~ on_stride (S l) i) /\
  forall known, (forall i, P i -> on_stride (S l) i -> i ∈ known) -> causal known (visits (S l)).
Proof.
  destruct (Hlevel l) as (Hn & Hin & Hsrc). split_and!; [done | |].
  - intros i. rewrite Hin. unfold on_stride. rewrite Nat.pow_succ_r'.
    assert (0 < 2 ^ l) as Hs by (apply Nat.neq_0_lt_0, Nat.pow_nonzero; lia). split.
    + intros [Hi [k ->]]. split_and!; [done | by eexists |]. intros [m E]. apply (odd_even (2 ^ l) k m Hs). lia.
    + intros (Hi & [k ->] & Hne). split; [done |]. destruct (Nat.Even_or_Odd k) as [[h ->] | [h ->]]; [| by exists h].
      destruct Hne. exists h. lia.
  - intros known Hk. apply causal_known. eapply Forall_impl; [| exact Hsrc]. intros v Hv.
    eapply Forall_impl; [| exact Hv]. intros i [Hi Hm]. by apply Hk.
Qed.

Lemma stride_finer l i : on_stride (S l) i -> on_stride l i.
Proof. intros [k ->]. exists (2 * k). rewrite Nat.pow_succ_r'. lia. Qed.

Lemma stride_finest i : P i -> on_stride 0 i.
Proof. intros Hi%Hbase. exists (i - base). simpl. lia. Qed.

(** With a first stride beyond the end, every place but [base] is visited. *)
Lemma order_base level : P base -> (forall i, P i -> i - base < 2 ^ level) ->
  NoDup (base :: order visits level) /\ forall i, i ∈ base :: order visits level <-> P i.
Proof.
  intros Hb Hl. apply (grid_base visits P on_stride stride_finest stride_finer stride_dec stride_grid); [done |].
  intros i Hi. pose proof (Hl i Hi). pose proof (Hbase i Hi). split; [intros [[| k] ->]; [lia | nia] | intros ->].
  exists 0. lia.
Qed.

Lemma strides_causal level known :
  (forall i k, P i -> i = base + k * 2 ^ level -> i ∈ known) -> causal known (all_visits visits level).
Proof.
  intros Hk. apply (grid_causal visits P on_stride stride_dec stride_grid). intros i Hi [k E]. eauto.
Qed.

End strides.

Section levels.

Variable dim : nat.
Variable visits : nat -> list visit.

Variable eb : Z.
Hypothesis Hhalf : f64_leb (f64_mul eb eb_ratio) eb = true.
Hypothesis Heb : is_u64 eb /\ is_u64 (f64_mul eb eb_ratio).

(** The quantizer is made for what it meets, level by level. *)
Fixpoint levels_ok {A} (ok : nat -> A -> Prop) (step : nat -> A -> option A) (level : nat) (s : A) : Prop :=
  match level with
  | O => True
  | S l => ok level s /\ match step level s with Some s' => levels_ok ok step l s' | None => False end
  end.

Definition level_ok (level : nat) (s : list Z * list Z * Quantizer) : Prop :=
  visits_ok (LinearQuantizer.set_eb s.2 (level_eb eb level)) s.1.2 (visits level).

Definition within (x r : Z) : Prop := r = x \/ f64_ltb eb (f64_abs (f64_sub r x)) = false.

Lemma within_level q level x r :
  LinearQuantizer.bounded (LinearQuantizer.set_eb q (level_eb eb level)) x r -> within x r.
Proof.
  intros [-> | H]; [by left | right]. cbn [LinearQuantizer.error_bound LinearQuantizer.set_eb] in H.
  unfold level_eb in H. destruct (3 <=? level); [| done]. by apply (f64_ltb_weaken (f64_mul eb eb_ratio)).
Qed.

Lemma fits_level q level :
  LinearQuantizer.fits q -> LinearQuantizer.fits (LinearQuantizer.set_eb q (level_eb eb level)).
Proof. intros (_ & H1 & H2). split; [| done]. simpl. unfold level_eb. destruct (3 <=? level); tauto. Qed.

(** The quantizer of the decompressor holds the values [U] stored in the end, has used those
    stored so far, and differs from the compressor's in the error bound at most, which the
    next level sets. *)
Definition follows_level (d q : Quantizer) (U : list Z) : Prop :=
  LinearQuantizer.unpred d = U /\
  LinearQuantizer.index d = Z.of_nat (length (LinearQuantizer.unpred q)) /\
  LinearQuantizer.radius d = LinearQuantizer.radius q.

(** What a run over the levels from [level] downwards gives, from the quantizer [q], the data
    and the indices so far; [known] are the places that are final. *)
Definition levels_run (level : nat) (known : list nat) (q : Quantizer) (data inds0 : list Z) : Prop :=
  exists inds data' q',
    for_levels (compress_level visits eb) level (inds0, data, q) = Some (inds0 ++ inds, data', q') /\
    LinearQuantizer.unpred q `prefix_of` LinearQuantizer.unpred q' /\ LinearQuantizer.fits q' /\
    LinearQuantizer.radius q' = LinearQuantizer.radius q /\
    LinearQuantizer.error_bound q' = (if level =? 0 then LinearQuantizer.error_bound q else eb) /\
    length inds = length (order visits level) /\ length data' = dim /\
    Forall (fun i => 0 <= i < 2 * LinearQuantizer.radius q)%Z inds /\
    (forall i, i ∉ order visits level -> data' !! i = data !! i) /\
    (forall i, i ∈ order visits level ->
       exists x r, data !! i = Some x /\ data' !! i = Some r /\ within x r) /\
    forall d U dec tl, LinearQuantizer.unpred q' `prefix_of` U ->
      follows_level d q U -> agree known data dec -> length dec = dim ->
      exists d' dec', for_levels (decompress_level visits eb) level (dec, inds ++ tl, d) = Some (dec', tl, d') /\
        length dec' = dim /\ agree (order visits level ++ known) data' dec'.

(** The decompressor's part of one level. *)
Lemma level_recover l q data inds1 data1 q1 d U dec tl known :
  LinearQuantizer.extends (LinearQuantizer.set_eb q (level_eb eb (S l))) q1 ->
  (forall d qf dec tl, leads q1 qf -> follows d (LinearQuantizer.set_eb q (level_eb eb (S l))) qf ->
     agree known data dec -> length dec = length data ->
     exists d' dec', recover_visits d dec (visits (S l)) (inds1 ++ tl) = Some (dec', tl, d') /\
       follows d' q1 qf /\ length dec' = length data /\
       agree (reverse (v_idx <$> visits (S l)) ++ known) data1 dec') ->
  LinearQuantizer.unpred q1 `prefix_of` U -> follows_level d q U ->
  agree known data dec -> length dec = length data ->
  exists d1 dec1, decompress_level visits eb (S l) (dec, inds1 ++ tl, d) = Some (dec1, tl, d1) /\
    follows_level d1 q1 U /\ length dec1 = length data /\
    agree (reverse (v_idx <$> visits (S l)) ++ known) data1 dec1.
Proof.
  intros (Hp & He & Hr & Hrad) H HU (E1 & E2 & E3) Ha Hl.
  set (qf := LinearQuantizer.mk U 0 (LinearQuantizer.error_bound q1)
               (LinearQuantizer.error_bound_reciprocal q1) (LinearQuantizer.radius q1)).
  destruct (H (LinearQuantizer.set_eb d (level_eb eb (S l))) qf dec tl) as (d1 & dec1 & E & Hf & Hl1 & Ha1);
    try done.
  exists d1, dec1. split; [done |]. split; [| done]. destruct Hf as (F1 & F2 & F3 & F4).
  split_and!; done.
Qed.

Lemma levels_spec level : forall known q data inds0,
  LinearQuantizer.fits q -> length data = dim ->
  levels_ok level_ok (compress_level visits eb) level (inds0, data, q) ->
  causal known (all_visits visits level) -> NoDup (order visits level) ->
  levels_run level known q data inds0.
Proof.
  induction level as [| l IH]; intros known q data inds0 Hf Hlen Hok Hc Hnd; unfold levels_run; cbn [for_levels order].
  { exists [], data, q. rewrite app_nil_r. split_and!; try done; [by intros; set_solver |].
    intros d U dec tl _ _ Ha Hl. by exists d, dec. }
  apply causal_app_inv in Hc as [Hc1 Hc2]. apply list.NoDup_app in Hnd as (Hn & Hdisj & Hn2).
  destruct Hok as [Hok1 Hok2]. unfold level_ok in Hok1. cbn [fst snd] in Hok1.
  destruct (quantize_visits_spec (visits (S l)) known (LinearQuantizer.set_eb q (level_eb eb (S l))) data)
    as (inds1 & data1 & q1 & E & H1 & H2 & H3 & H4 & H5 & H6 & H7 & H8);
    [exact (fits_level q (S l) Hf) | done | done |].
  pose proof (H1 : LinearQuantizer.extends _ _) as (Hp & He & Hr & Hrad). cbn [LinearQuantizer.unpred LinearQuantizer.error_bound LinearQuantizer.radius LinearQuantizer.set_eb] in Hp, He, Hrad.
  assert (compress_level visits eb (S l) (inds0, data, q) = Some (inds0 ++ inds1, data1, q1)) as Ecl
    by (unfold compress_level; by rewrite E).
  rewrite Ecl in Hok2 |- *. cbn [mbind option_bind].
  destruct (IH (reverse (v_idx <$> visits (S l)) ++ known) q1 data1 (inds0 ++ inds1))
    as (inds2 & data2 & q2 & F & G1 & G2 & G3 & G4 & G5 & G6 & G7 & G8 & G9 & G10); [done | congruence | done | done | done |].
  exists (inds1 ++ inds2), data2, q2. rewrite F, app_assoc.
  split_and!; try done.
  - by etrans.
  - congruence.
  - rewrite G4. destruct (Nat.eqb_spec l 0) as [-> |]; [by rewrite He | done].
  - rewrite !length_app, H3, G5, length_fmap. lia.
  - apply Forall_app. split; [exact H5 |]. by rewrite <- Hrad.
  - intros i [Hi Ho']%not_elem_of_app. by rewrite G8, H6.
  - intros i [Hi | Hi]%elem_of_app.
    + destruct (H7 Hn i Hi) as (x & r & Ex & Er & Hb). exists x, r. rewrite G8 by auto.
      split_and!; [done | done | by apply (within_level q (S l))].
    + destruct (G9 i Hi) as (x & r & Ex & Er & Hb). exists x, r. split_and!; try done.
      rewrite <- (H6 i); [done |]. intros Hi'. by apply (Hdisj i).
  - intros d U dec tl HU Hfl Ha Hl.
    destruct (level_recover l q data inds1 data1 q1 d U dec (inds2 ++ tl) known) as (d1 & dec1 & Ed & Hf1 & Hl1 & Ha1);
      try done; [by etrans | congruence |].
    destruct (G10 d1 U dec1 tl) as (d2 & dec2 & Ed2 & Hl2 & Ha2); [done | done | done | congruence |].
    exists d2, dec2. rewrite <- app_assoc, Ed. cbn [mbind option_bind]. split; [done |]. split; [done |].
    unfold agree in *. rewrite !Forall_app in *. rewrite Forall_reverse in Ha2. tauto.
Qed.

End levels.

(** ** The first value and all levels *)

Section run.

Variable dim : nat.
Variable visits : nat -> list visit.

(** The result of quantizing with [q], and that recovering gives it back. *)
Definition run_spec (q : Quantizer) (data : list Z) (level : nat) (inds rs : list Z) (q' : Quantizer) : Prop :=
  let eb := LinearQuantizer.error_bound q in
  quantize_visits q data first_visit ≫= for_levels (compress_level visits eb) level = Some (inds, rs, q') /\
  LinearQuantizer.fits q' /\ LinearQuantizer.radius q' = LinearQuantizer.radius q /\
  LinearQuantizer.error_bound q' = eb /\ length inds = length data /\
  Forall (fun i => 0 <= i < 2 * LinearQuantizer.radius q)%Z inds /\
  Forall2 (LinearQuantizer.bounded q) data rs /\
  forall e dec, LinearQuantizer.unpred e = LinearQuantizer.unpred q' -> LinearQuantizer.index e = 0%Z ->
    LinearQuantizer.error_bound e = eb -> LinearQuantizer.radius e = LinearQuantizer.radius q ->
    length dec = dim ->
    exists e', recover_visits e dec first_visit inds ≫= for_levels (decompress_level visits eb) level
      = Some (rs, [], e').

Lemma run_all q data level s :
  length data = dim -> LinearQuantizer.unpred q = [] -> LinearQuantizer.fits q ->
  f64_leb (f64_mul (LinearQuantizer.error_bound q) eb_ratio) (LinearQuantizer.error_bound q) = true ->
  is_u64 (f64_mul (LinearQuantizer.error_bound q) eb_ratio) ->
  0 :: order visits level ≡ₚ seq 0 dim -> causal [0] (all_visits visits level) ->
  visits_ok q data first_visit -> quantize_visits q data first_visit = Some s ->
  levels_ok (level_ok visits (LinearQuantizer.error_bound q))
    (compress_level visits (LinearQuantizer.error_bound q)) level s ->
  exists inds rs q', run_spec q data level inds rs q'.
Proof.
  intros Hl Hfresh Hfits Hhalf Heb Hall Hc Hok0 E0 Hok. set (eb := LinearQuantizer.error_bound q) in *.
  destruct (quantize_visits_spec first_visit [] q data)
    as (inds0 & data0 & q0 & E & F1 & F2 & F3 & F4 & F5 & F6 & F7 & F8); [exact Hfits | done | by split |].
  rewrite E in E0. injection E0 as <-. pose proof (F1 : LinearQuantizer.extends _ _) as (X1 & X2 & X3 & X4).
  assert (NoDup (0 :: order visits level)) as [Hn0 Hn1]%list.NoDup_cons by (rewrite Hall; apply NoDup_seq).
  destruct (levels_spec dim visits eb Hhalf (conj (proj1 Hfits) Heb) level [0] q0 data0 inds0)
    as (inds & rs & q' & G & G1 & G2 & G3 & G4 & G5 & G6 & G7 & G8 & G9 & G10); [done | congruence | done.. |].
  exists (inds0 ++ inds), rs, q'. unfold run_spec. fold eb. rewrite E. cbn [mbind option_bind].
  split_and!; try done; [congruence | rewrite G4; by destruct (level =? 0) | | | |].
  - rewrite length_app, F3, G5, Hl. change (length (0 :: order visits level) = dim). rewrite Hall. apply length_seq.
  - apply Forall_app. split; [exact F5 |]. by rewrite <- X4.
  - apply (accurate_all _ (0 :: order visits level)); [congruence | by rewrite Hl |].
    intros i [-> | Hi]%elem_of_cons.
    + rewrite G8 by done. apply F7; [apply NoDup_singleton | by left].
    + destruct (G9 i Hi) as (x & r & Ex & Er & Hw). exists x, r. split_and!; try done.
      rewrite <- F6; [done |]. by intros ->%list_elem_of_singleton.
  - intros e dec U1 U2 U3 U4 Hdec.
    set (qf := LinearQuantizer.mk (LinearQuantizer.unpred q') 0 (LinearQuantizer.error_bound q0)
                 (LinearQuantizer.error_bound_reciprocal q0) (LinearQuantizer.radius q0)).
    destruct (F8 e qf dec inds) as (e0 & dec0 & Ee & (V1 & V2 & V3 & V4) & Hl0 & Ha0);
      [by split_and! | by hnf; rewrite Hfresh | constructor | congruence |].
    rewrite Ee. cbn [mbind option_bind].
    destruct (G10 e0 (LinearQuantizer.unpred q') dec0 []) as (e' & dec' & Ed & Hl' & Ha'); [done | by split_and! | done | congruence |].
    rewrite app_nil_r in Ed. exists e'. rewrite Ed. do 3 f_equal. symmetry.
    eapply agree_all; [| | exact Ha']; [congruence |]. rewrite G6, <- Hall. symmetry. apply Permutation_cons_append.
Qed.

End run.

End Levels.
