(* ===== verification/SzGrid.v ===== *)
(** * SzGrid: interpolation in any number of dimensions

    The visits of [block_interpolation] of [SZ3/decomposition/InterpolationDecomposition.hpp]
    and of a level of its blocks.  The code has an overload for each of 1 to 4 dimensions; all
    are the same scheme.  The dimensions are taken in some order; the pass for one of them
    interpolates along it, where the dimensions before are visited at the stride and those after
    at twice the stride.

    A level visits the places that are on the grid of its stride and not on that of twice the
    stride, each once, and needs to know the places on the latter only. *)

From Stdlib Require Import ZArith Lia.
From stdpp Require Import sets.
From S2P Require Import Prelude SzIterator SzDecomp SzLevels.

Module Grid.
Import Iterator Levels.
#[local] Open Scope nat_scope.

(** [dimension_offsets] of [init]. *)
Fixpoint dimension_offsets (gd : list nat) : list nat :=
  match gd with
  | [] => []
  | _ :: gd =>
      let offsets := dimension_offsets gd in
      match head offsets, head gd with
      | Some o, Some g => o * g
      | _, _ => 1
      end :: offsets
  end.

(** The permutations in the order of [std::next_permutation]. *)
Fixpoint permutations (n : nat) (l : list nat) : list (list nat) :=
  match n with
  | O => [[]]
  | S n => l ≫= fun x => cons x <$> permutations n (filter (.≠ x) l)
  end.

(** [dimension_sequences] of [init]. *)
Definition dimension_sequences (N : nat) : list (list nat) := permutations N (seq 0 N).

(** [for (i = i0; i <= lim; i += step)] *)
Fixpoint loop_to (fuel step i lim : nat) : list nat :=
  match fuel with
  | O => []
  | S fuel => if i <=? lim then i :: loop_to fuel step (i + step) lim else []
  end.

(** [for (j = (begin ? begin + step : 0); j <= end; j += step)] *)
Definition axis (step begin end_ : nat) : list nat :=
  loop_to (S end_) step (if begin =? 0 then 0 else begin + step) end_.

(** Nested loops, the outermost first. *)
Fixpoint nest (axes : list (list nat)) : list (list nat) :=
  match axes with
  | [] => [[]]
  | a :: axes => a ≫= fun x => cons x <$> nest axes
  end.

(** The loops of the pass along the dimension [p] of the sequence, which starts at [begin]. *)
Definition pass_axes (stride p : nat) (begin end_ : list nat) : list (list nat) :=
  imap (fun m be => if m =? p then [be.1] else axis (if m <? p then stride else 2 * stride) be.1 be.2)
    (zip begin end_).

(** The lines of the pass, in an array that starts at [base]. *)
Definition pass_from (base : nat) (begin end_ offsets : list nat) (stride : nat) (linear : bool) (p : nat) : list visit :=
  nest (pass_axes stride p begin end_) ≫= fun row =>
    let begin_offset := base + dot row offsets in
    block_interpolation_1d begin_offset (begin_offset + (end_ !!! p - begin !!! p) * offsets !!! p)
      (stride * offsets !!! p) linear.

Definition pass (begin end_ offsets : list nat) (stride : nat) (linear : bool) (p : nat) : list visit :=
  pass_from 0 begin end_ offsets stride linear p.

(** [l[dims[0]], l[dims[1]], ...] *)
Definition permute (dims l : list nat) : list nat := (fun i => l !!! i) <$> dims.

(** [block_interpolation] along the dimensions of the sequence [dims]. *)
Definition block_interpolation (dims begin end_ offsets : list nat) (stride : nat) (linear : bool) : list visit :=
  seq 0 (length dims) ≫= pass (permute dims begin) (permute dims end_) (permute dims offsets) stride linear.

(** The blocks of [inter_block_range]; there is a range where no extent and no stride is 0. *)
Definition inter_block_range (gd : list nat) (stride : nat) : list (list nat) :=
  match new gd stride 0 with
  | Some r => from_option (fmap (get_global_index r)) [] (elements r)
  | None => []
  end.

Definition end_idx (gd : list nat) (size : nat) (begin : list nat) : list nat :=
  zip_with (fun b g => if g - 1 <? b + size then g - 1 else b + size) begin gd.

(** The blocks of a level. *)
Definition level_visits (gd dims : list nat) (blocksize : nat) (linear : bool) (level : nat) : list visit :=
  let stride := 2 ^ (level - 1) in
  inter_block_range gd (stride * blocksize) ≫= fun b =>
    block_interpolation dims b (end_idx gd (stride * blocksize) b) (dimension_offsets gd) stride linear.

(** ** Loops *)

Lemma offsets_weights gd : dimension_offsets gd = weights gd.
Proof.
  induction gd as [| g gd IH]; [done |]. cbn [dimension_offsets weights]. rewrite IH. f_equal.
  destruct gd as [| g' gd]; [done |]. simpl. lia.
Qed.

Lemma permutations_spec n : forall l d, NoDup l -> length l = n -> d ∈ permutations n l -> d ≡ₚ l.
Proof.
  induction n as [| n IH]; intros l d Hn Hl Hd; cbn [permutations] in Hd.
  { apply nil_length_inv in Hl as ->. by apply list_elem_of_singleton in Hd as ->. }
  apply list_elem_of_bind in Hd as (x & (d' & -> & Hd')%list_elem_of_fmap & Hx).
  assert (x :: filter (.≠ x) l ≡ₚ l) as E.
  { apply NoDup_Permutation; [| done |].
    - constructor; [| by apply list.NoDup_filter]. rewrite list_elem_of_filter. tauto.
    - intros y. rewrite elem_of_cons, list_elem_of_filter. destruct (decide (y = x)) as [-> |]; naive_solver. }
  apply IH in Hd' as ->; [done | by apply list.NoDup_filter |]. apply Permutation_length in E. simpl in E. lia.
Qed.

Lemma sequences_spec N d : d ∈ dimension_sequences N -> d ≡ₚ seq 0 N.
Proof. apply permutations_spec; [apply NoDup_seq | apply length_seq]. Qed.

Lemma loop_to_elem fuel step : 0 < step -> forall i lim x, lim < i + fuel * step ->
  x ∈ loop_to fuel step i lim <-> x <= lim /\ exists k, x = i + k * step.
Proof.
  intros Hs. induction fuel as [| fuel IH]; intros i lim x Hf; cbn [loop_to].
  { split; [set_solver |]. intros [H [k ->]]. lia. }
  destruct (Nat.leb_spec i lim) as [Hi | Hi].
  - rewrite elem_of_cons, IH by lia. split.
    + intros [-> | [H [k ->]]]; [split; [done | exists 0; lia] | split; [done | exists (S k); lia]].
    + intros [H [[| k] ->]]; [left; lia | right]. split; [done | exists k; lia].
  - split; [set_solver |]. intros [H [k ->]]. lia.
Qed.

Lemma loop_to_NoDup fuel step : 0 < step -> forall i lim, lim < i + fuel * step -> NoDup (loop_to fuel step i lim).
Proof.
  intros Hs. induction fuel as [| fuel IH]; intros i lim Hf; cbn [loop_to]; [constructor |].
  destruct (Nat.leb_spec i lim) as [Hi | Hi]; [| constructor].
  constructor; [| apply IH; lia]. rewrite loop_to_elem by lia. intros [_ [k Hk]]. lia.
Qed.

(** The multiples of the step in a block: from 0 in the first one, after its corner in others. *)
Lemma axis_elem step begin end_ x : 0 < step -> Nat.divide step begin ->
  x ∈ axis step begin end_ <-> Nat.divide step x /\ x <= end_ /\ (begin < x \/ begin = 0).
Proof.
  intros Hs [b ->]. unfold axis. rewrite loop_to_elem by nia. destruct (Nat.eqb_spec (b * step) 0) as [E | E].
  - split; [intros [H [k ->]]; split_and!; [by exists k | done | by right] |].
    intros ([k ->] & H & _). split; [done | by exists k].
  - split; [intros [H [k ->]]; split_and!; [exists (b + 1 + k); lia | done | lia] |].
    intros ([k ->] & H & [Hb | Hb]); [| done]. split; [done |]. exists (k - b - 1). nia.
Qed.

Lemma axis_NoDup step begin end_ : 0 < step -> NoDup (axis step begin end_).
Proof. intros Hs. apply loop_to_NoDup; [done | nia]. Qed.

Lemma nest_elem axes : forall l, l ∈ nest axes <-> Forall2 (fun x a => x ∈ a) l axes.
Proof.
  induction axes as [| a axes IH]; intros l; cbn [nest].
  { rewrite list_elem_of_singleton. split; [by intros -> | by intros H%Forall2_nil_inv_r]. }
  rewrite list_elem_of_bind. split.
  - intros (x & (l' & -> & H%IH)%list_elem_of_fmap & Hx). by constructor.
  - intros H. inversion H as [| x ? l' ? Hx Hl]; subst. exists x. split; [| done].
    apply list_elem_of_fmap_2. by apply IH.
Qed.

Lemma nest_NoDup axes : Forall (fun a => NoDup a) axes -> NoDup (nest axes).
Proof.
  induction 1 as [| a axes Ha H IH]; cbn [nest]; [apply NoDup_singleton |]. apply NoDup_bind; [| | done].
  - intros x y l _ _ (l1 & -> & _)%list_elem_of_fmap (l2 & E & _)%list_elem_of_fmap. by injection E.
  - intros x _. apply NoDup_fmap_2; [| done]. by intros ? ? [= ->].
Qed.

(** What was visited before may be read: of the rounds before. *)
Lemma causal_bind {A} (f : A -> list visit) l : forall known,
  (forall k x, l !! k = Some x -> causal ((v_idx <$> (take k l ≫= f)) ++ known) (f x)) -> causal known (l ≫= f).
Proof.
  induction l as [| x l IH]; intros known H; [done |]. rewrite bind_cons. apply causal_app; [exact (H 0 x eq_refl) |].
  apply IH. intros k y Hk. apply (causal_weaken (f y) _ _) with (2 := H (S k) y Hk).
  cbn [take]. rewrite bind_cons, fmap_app. intros i. rewrite !elem_of_app, elem_of_reverse. tauto.
Qed.

(** ** A block *)

Lemma at_lt (l : list nat) m : m < length l -> l !! m = Some (l !!! m).
Proof. intros H. by apply list_lookup_lookup_total_lt. Qed.

Lemma Forall2_at (R : nat -> nat -> Prop) l k :
  Forall2 R l k <-> length l = length k /\ forall m, m < length k -> R (l !!! m) (k !!! m).
Proof.
  rewrite Forall2_same_length_lookup. split; intros [Hl H]; (split; [done |]).
  - intros m Hm. apply (H m); apply at_lt; lia.
  - intros m x y Hx Hy. apply list_lookup_total_correct in Hx as <-, Hy as E. rewrite <- E. apply H.
    by eapply lookup_lt_Some.
Qed.

Lemma Forall_at (P : nat -> Prop) l : Forall P l <-> forall m, m < length l -> P (l !!! m).
Proof.
  rewrite Forall_lookup. split; intros H.
  - intros m Hm. apply (H m), at_lt, Hm.
  - intros m x Hx. pose proof (lookup_lt_Some _ _ _ Hx). apply list_lookup_total_correct in Hx as <-. by apply H.
Qed.

Lemma list_eq_at (l k : list nat) : length l = length k -> (forall m, m < length k -> l !!! m = k !!! m) -> l = k.
Proof.
  intros Hl H. apply list_eq_Forall2, Forall2_at. done.
Qed.

(** The place of the last element with a property. *)
Lemma last_with (P : nat -> Prop) n : (forall m, m < n -> P m \/ ~ P m) -> ~ (forall m, m < n -> ~ P m) ->
  exists p, p < n /\ P p /\ forall m, p < m < n -> ~ P m.
Proof.
  induction n as [| n IH]; intros Hd Hne; [destruct Hne; lia |].
  destruct (Hd n ltac:(lia)) as [Hn | Hn]; [exists n; split_and!; [lia | done | lia] |].
  destruct IH as (p & Hp & HP & Hl); [intros m Hm; apply Hd; lia | |].
  { intros H. apply Hne. intros m Hm. destruct (decide (m = n)) as [-> |]; [done | apply H; lia]. }
  exists p. split_and!; [lia | done |]. intros m Hm. destruct (decide (m = n)) as [-> |]; [done | apply Hl; lia].
Qed.

Lemma divide_dec a b : Nat.divide a b \/ ~ Nat.divide a b.
Proof. destruct (Nat.divide_dec a b); tauto. Qed.

Section frame.

(** The extents and the offsets, in the order of the sequence; the stride and half the block
    size. *)
Variables (gd o : list nat) (s h base : nat) (linear : bool).
Hypothesis Hs : 0 < s.
Hypothesis Hh : 0 < h.
Hypothesis Hpos : Forall (fun g => 0 < g) gd.
Hypothesis Hlo : length o = length gd.
Hypothesis Ho : Forall (fun w => 0 < w) o.
Hypothesis Hinj : forall c c', Forall2 lt c gd -> Forall2 lt c' gd -> dot c o = dot c' o -> c = c'.

Notation N := (length gd).
Notation B := (s * (2 * h)).
Notation ends b := (end_idx gd B b).

Definition corner (b : list nat) : Prop := Forall2 lt b gd /\ Forall (Nat.divide B) b.

(** The block of the corner [b] is responsible for [c]. *)
Definition own (b c : list nat) : Prop :=
  Forall2 lt c gd /\ forall m, m < N -> c !!! m <= b !!! m + B /\ (b !!! m < c !!! m \/ b !!! m = 0).

Definition on_grid (k : nat) (c : list nat) : Prop := Forall (Nat.divide k) c.

Lemma corner_at b m : corner b -> m < N ->
  b !!! m < gd !!! m /\ Nat.divide (2 * s) (b !!! m) /\ Nat.divide s (b !!! m) /\ Nat.divide B (b !!! m).
Proof.
  intros [[Hl Hb]%Forall2_at Hd] Hm. rewrite Forall_at in Hd. specialize (Hd m ltac:(lia)). split_and!; [by apply Hb | | | done].
  - etrans; [| exact Hd]. exists h. lia.
  - etrans; [| exact Hd]. exists (2 * h). lia.
Qed.

Lemma ends_at b m : corner b -> m < N ->
  length (ends b) = N /\ ends b !!! m = Nat.min (b !!! m + B) (gd !!! m - 1).
Proof.
  intros [[Hl _]%Forall2_at _] Hm. unfold end_idx. split; [rewrite length_zip_with; lia |].
  apply list_lookup_total_correct. rewrite lookup_zip_with, (at_lt b m), (at_lt gd m) by lia. cbn [mbind option_bind]. f_equal.
  destruct (Nat.ltb_spec (gd !!! m - 1) (b !!! m + B)); lia.
Qed.

(** The rows of a pass. *)
Lemma row_elem b p row : corner b -> p < N ->
  row ∈ nest (pass_axes s p b (ends b)) <->
  length row = N /\ row !!! p = b !!! p /\ forall m, m < N -> m <> p ->
    Nat.divide (if m <? p then s else 2 * s) (row !!! m) /\ row !!! m < gd !!! m /\ row !!! m <= b !!! m + B /\
    (b !!! m < row !!! m \/ b !!! m = 0).
Proof.
  intros Hc Hp. pose proof Hc as [Hlb%Forall2_length _].
  assert (length (ends b) = N) as Hle by (by eapply (ends_at b p)).
  assert (length (pass_axes s p b (ends b)) = N) as Hla.
  { unfold pass_axes. rewrite length_imap, length_zip_with. lia. }
  assert (forall m, m < N -> pass_axes s p b (ends b) !! m
    = Some (if m =? p then [b !!! m] else axis (if m <? p then s else 2 * s) (b !!! m) (ends b !!! m))) as Hax.
  { intros m Hm. unfold pass_axes. rewrite list_lookup_imap, lookup_zip_with, (at_lt b m), (at_lt (ends b) m) by lia. done. }
  assert (forall m x, m < N -> m <> p ->
    x ∈ axis (if m <? p then s else 2 * s) (b !!! m) (ends b !!! m) <->
    Nat.divide (if m <? p then s else 2 * s) x /\ x < gd !!! m /\ x <= b !!! m + B /\ (b !!! m < x \/ b !!! m = 0)) as Hx.
  { intros m x Hm Hne. destruct (corner_at b m Hc Hm) as (H1 & H2 & H3 & _). destruct (ends_at b m Hc Hm) as [_ E].
    rewrite axis_elem by (destruct (m <? p); (lia || done)). rewrite E. intuition lia. }
  rewrite nest_elem, Forall2_same_length_lookup, Hla. split; intros [Hl H].
  - split; [done |]. split.
    + specialize (H p _ _ (at_lt row p ltac:(lia)) (Hax p Hp)). rewrite Nat.eqb_refl in H. by apply list_elem_of_singleton in H.
    + intros m Hm Hne. specialize (H m _ _ (at_lt row m ltac:(lia)) (Hax m Hm)).
      rewrite (proj2 (Nat.eqb_neq m p) Hne) in H. by apply Hx.
  - split; [done |]. destruct H as [Ep H]. intros m x a Ex Ea. pose proof (lookup_lt_Some _ _ _ Ex) as Hm. rewrite Hl in Hm.
    rewrite Hax in Ea by done. injection Ea as <-. apply list_lookup_total_correct in Ex as <-.
    destruct (Nat.eqb_spec m p) as [-> | Hne]; [by apply list_elem_of_singleton |]. apply Hx; auto.
Qed.

(** The visits of a pass of a block, in any order. *)
Variable vis : list nat -> nat -> list visit.
Hypothesis Hvis : forall b p, corner b -> p < N -> vis b p ≡ₚ pass_from base b (ends b) o s linear p.

Notation rows b p := (nest (pass_axes s p b (ends b))).

(** A place of the line of a row. *)
Lemma line_place b p row x : corner b -> p < N -> row ∈ rows b p -> b !!! p <= x <= ends b !!! p ->
  let c := <[p := x]> row in
  Forall2 lt c gd /\ dot c o = dot row o + (x - b !!! p) * o !!! p /\ c !!! p = x /\
  forall m, m < N -> m <> p -> c !!! m = row !!! m.
Proof.
  intros Hc Hp (Hl & Ep & H)%row_elem Hx c; [| done..]. destruct (ends_at b p Hc Hp) as [_ Ee].
  destruct (corner_at b p Hc Hp) as (Hb & _). assert (c !!! p = x) as Ec by (apply list_lookup_total_insert_eq; lia).
  assert (forall m, m < N -> m <> p -> c !!! m = row !!! m) as En
    by (intros m Hm Hne; by apply list_lookup_total_insert_ne).
  split_and!; try done.
  - apply Forall2_at. unfold c. rewrite length_insert. split; [done |]. fold c. intros m Hm.
    destruct (decide (m = p)) as [-> | Hne]; [rewrite Ec; lia | rewrite En by done; by apply H].
  - pose proof (dot_insert o row p (row !!! p) (o !!! p) x (at_lt row p ltac:(lia)) (at_lt o p ltac:(lia))) as E.
    fold c in E. rewrite Ep in E. nia.
Qed.

Lemma offset_pos p : p < N -> 0 < o !!! p.
Proof. intros Hp. pose proof Ho as H. rewrite Forall_at in H. apply H. lia. Qed.

Lemma odd_divide a x : 0 < a -> Nat.divide a x -> ~ Nat.divide (2 * a) x <-> exists k, x = (2 * k + 1) * a.
Proof.
  intros Ha [y ->]. split.
  - intros H. destruct (Nat.Even_or_Odd y) as [[k ->] | [k ->]]; [| by exists k]. destruct H. exists k. lia.
  - intros [k E] [j E']. rewrite E' in E. apply (odd_even a k j Ha). lia.
Qed.

(** What a pass visits. *)
Lemma pass_elem b p i : corner b -> p < N ->
  i ∈ v_idx <$> vis b p <->
  exists c, base + dot c o = i /\ own b c /\ on_grid s c /\ ~ Nat.divide (2 * s) (c !!! p) /\
    forall m, p < m < N -> Nat.divide (2 * s) (c !!! m).
Proof.
  intros Hc Hp. rewrite (Hvis b p Hc Hp). unfold pass_from. rewrite fmap_bind, list_elem_of_bind. pose proof (offset_pos p Hp) as Hop.
  destruct (ends_at b p Hc Hp) as [_ Ee]. destruct (corner_at b p Hc Hp) as (Hb & Hb2 & Hb1 & HbB).
  assert (forall row, base + dot row o <= base + dot row o + (ends b !!! p - b !!! p) * o !!! p) as Hbe by (intros; apply Nat.le_add_r).
  assert (0 < s * o !!! p) as Hso by nia. split.
  - intros (row & Hi & Hrow). apply block_visits in Hi as (k & -> & Hk); [| done | apply Hbe].
    assert ((2 * k + 1) * s <= ends b !!! p - b !!! p) as Hle by nia.
    destruct (line_place b p row (b !!! p + (2 * k + 1) * s) Hc Hp Hrow) as (H1 & H2 & H3 & H4); [lia |].
    set (c := <[p := _]> row) in *. exists c. apply row_elem in Hrow as (Hl & Ep & H); [| done..].
    pose proof (Forall2_length H1) as Hlc. split_and!.
    + rewrite H2. nia.
    + split; [done |]. intros m Hm. destruct (decide (m = p)) as [-> | Hne]; [rewrite H3; lia |].
      rewrite H4 by done. by apply H.
    + apply Forall_at. intros m Hm. rewrite Hlc in Hm. destruct (decide (m = p)) as [-> | Hne].
      * rewrite H3. destruct Hb1 as [y ->]. exists (y + 2 * k + 1). lia.
      * rewrite H4 by done. destruct (H m Hm Hne) as (Hd & _). destruct (m <? p); [done |]. destruct Hd as [y ->]. exists (2 * y). lia.
    + rewrite H3. destruct Hb2 as [y ->]. intros [z E]. apply (odd_even s k (z - y) Hs). nia.
    + intros m Hm. rewrite H4 by lia. destruct (H m) as (Hd & _); [lia | lia |].
      by rewrite (proj2 (Nat.ltb_ge m p)) in Hd by lia.
  - intros (c & <- & [Hbox Hown] & Hg & Hodd & Heven). pose proof Hbox as [Hl Hlt]%Forall2_at.
    unfold on_grid in Hg. rewrite Forall_at in Hg. destruct (Hown p Hp) as [Hu Hlow].
    set (row := <[p := b !!! p]> c).
    assert (row !!! p = b !!! p) as Ep by (apply list_lookup_total_insert_eq; lia).
    assert (forall m, m < N -> m <> p -> row !!! m = c !!! m) as En
      by (intros m Hm Hne; by apply list_lookup_total_insert_ne).
    assert (row ∈ rows b p) as Hrow.
    { apply row_elem; [done.. |]. unfold row at 1. rewrite length_insert. split_and!; [done | done |].
      intros m Hm Hne. rewrite En by done. destruct (Hown m Hm) as [H1 H2]. split_and!; [| by apply Hlt | done | done].
      destruct (Nat.ltb_spec m p); [apply Hg; lia | apply Heven; lia]. }
    exists row. split; [| done]. apply block_visits; [done | apply Hbe |].
    pose proof (dot_insert o c p (c !!! p) (o !!! p) (b !!! p) (at_lt c p ltac:(lia)) (at_lt o p ltac:(lia))) as E.
    fold row in E. specialize (Hg p ltac:(lia)). destruct (proj1 (odd_divide s _ Hs Hg) Hodd) as [k Ek].
    destruct Hb2 as [y Ey]. assert (b !!! p < c !!! p) as Hbc.
    { destruct Hlow as [H | H]; [done |]. rewrite H, Ek. nia. }
    assert (y <= k) as Hyk by (rewrite Ek, Ey in Hbc; nia).
    assert (c !!! p = b !!! p + (2 * (k - y) + 1) * s) as Ec.
    { rewrite Ek, Ey. replace k with (y + (k - y)) at 1 by lia. lia. }
    exists (k - y). rewrite Ec in E. specialize (Hlt p Hp). split; [nia |].
    assert ((2 * (k - y) + 1) * s <= ends b !!! p - b !!! p) as Hle by lia. nia.
Qed.

Lemma pass_NoDup b p : corner b -> p < N -> NoDup (v_idx <$> vis b p).
Proof.
  intros Hc Hp. rewrite (Hvis b p Hc Hp). unfold pass_from. rewrite fmap_bind. pose proof (offset_pos p Hp) as Hop. assert (0 < s * o !!! p) as Hso by nia.
  apply NoDup_bind.
  - intros r1 r2 i Hr1 Hr2 Hi1 Hi2. apply block_visits in Hi1 as (k1 & -> & Hk1); [| done | apply Nat.le_add_r].
    apply block_visits in Hi2 as (k2 & E & Hk2); [| done | apply Nat.le_add_r].
    destruct (line_place b p r1 (b !!! p + (2 * k1 + 1) * s) Hc Hp Hr1) as (A1 & A2 & A3 & A4); [nia |].
    destruct (line_place b p r2 (b !!! p + (2 * k2 + 1) * s) Hc Hp Hr2) as (B1 & B2 & B3 & B4); [nia |].
    assert (<[p := b !!! p + (2 * k1 + 1) * s]> r1 = <[p := b !!! p + (2 * k2 + 1) * s]> r2) as Er.
    { apply Hinj; [done | done |]. rewrite A2, B2. nia. }
    apply row_elem in Hr1 as (L1 & E1 & _); [| done..]. apply row_elem in Hr2 as (L2 & E2 & _); [| done..].
    apply list_eq_at; [congruence |]. rewrite L2. intros m Hm. destruct (decide (m = p)) as [-> | Hne]; [congruence |].
    by rewrite <- A4, <- B4, Er.
  - intros row _. apply block_visits; [done | apply Nat.le_add_r].
  - apply nest_NoDup. unfold pass_axes. apply Forall_lookup. intros m a Ha.
    rewrite list_lookup_imap in Ha. apply fmap_Some in Ha as (be & _ & ->).
    destruct (m =? p); [apply NoDup_singleton |]. apply axis_NoDup. destruct (m <? p); lia.
Qed.

(** What a pass reads: on its line, at even places. *)
Lemma pass_sources b p : corner b -> p < N ->
  Forall (fun v => Forall (fun i => exists c, base + dot c o = i /\ Forall2 lt c gd /\ on_grid s c /\
      (forall m, p <= m < N -> Nat.divide (2 * s) (c !!! m)) /\ b !!! p <= c !!! p <= b !!! p + B /\
      forall m, m < N -> m <> p -> c !!! m <= b !!! m + B /\ (b !!! m < c !!! m \/ b !!! m = 0)) (v_src v))
    (vis b p).
Proof.
  intros Hc Hp. rewrite (Hvis b p Hc Hp). unfold pass_from. pose proof (offset_pos p Hp) as Hop. assert (0 < s * o !!! p) as Hso by nia.
  destruct (ends_at b p Hc Hp) as [_ Ee]. destruct (corner_at b p Hc Hp) as (Hb & Hb2 & Hb1 & HbB).
  apply Forall_bind, list.Forall_forall. intros row Hrow. unfold compose. cbv beta zeta.
  eapply Forall_impl; [| apply block_sources; [done | apply Nat.le_add_r]]. intros v Hv.
  eapply Forall_impl; [| exact Hv]. intros i (k & -> & Hk).
  assert (2 * k * s <= ends b !!! p - b !!! p) as Hle by nia.
  destruct (line_place b p row (b !!! p + 2 * k * s) Hc Hp Hrow) as (H1 & H2 & H3 & H4); [lia |].
  set (c := <[p := _]> row) in *. exists c. apply row_elem in Hrow as (Hl & Ep & H); [| done..].
  pose proof (Forall2_length H1) as Hlc.
  assert (forall m, p <= m < N -> Nat.divide (2 * s) (c !!! m)) as Heven.
  { intros m Hm. destruct (decide (m = p)) as [-> | Hne].
    - rewrite H3. destruct Hb2 as [y ->]. exists (y + k). lia.
    - rewrite H4 by lia. destruct (H m) as (Hd & _); [lia | lia |]. by rewrite (proj2 (Nat.ltb_ge m p)) in Hd by lia. }
  split_and!.
  - rewrite H2. nia.
  - done.
  - apply Forall_at. intros m Hm. rewrite Hlc in Hm. destruct (decide (m < p)) as [Hlt | Hge].
    + rewrite H4 by lia. destruct (H m) as (Hd & _); [lia | lia |]. by rewrite (proj2 (Nat.ltb_lt m p)) in Hd by lia.
    + destruct (Heven m ltac:(lia)) as [y ->]. exists (2 * y). lia.
  - done.
  - lia.
  - lia.
  - intros m Hm Hne. rewrite H4 by done. by apply H.
Qed.

(** What a block visits: what it is responsible for and is new on this grid. *)
Lemma block_elem b i : corner b ->
  i ∈ v_idx <$> (seq 0 N ≫= vis b) <->
  exists c, base + dot c o = i /\ own b c /\ on_grid s c /\ ~ on_grid (2 * s) c.
Proof.
  intros Hc. rewrite fmap_bind, list_elem_of_bind. split.
  - intros (p & Hi & Hp%elem_of_seq). apply pass_elem in Hi as (c & <- & Hown & Hg & Hodd & _); [| done | lia].
    exists c. split_and!; try done. unfold on_grid. rewrite Forall_at. intros H. apply Hodd, H.
    destruct Hown as [Hl%Forall2_length _]. lia.
  - intros (c & <- & Hown & Hg & Hodd). pose proof Hown as [Hl%Forall2_length _].
    destruct (last_with (fun m => ~ Nat.divide (2 * s) (c !!! m)) N) as (p & Hp & HP & Hlast).
    + intros m _. destruct (divide_dec (2 * s) (c !!! m)); tauto.
    + intros H. apply Hodd, Forall_at. intros m Hm. destruct (divide_dec (2 * s) (c !!! m)) as [? | Hn]; [done |].
      by destruct (H m ltac:(lia)).
    + exists p. split; [| apply elem_of_seq; lia]. apply pass_elem; [done.. |]. exists c. split_and!; try done.
      intros m Hm. destruct (divide_dec (2 * s) (c !!! m)) as [? | Hn]; [done |]. by destruct (Hlast m Hm).
Qed.

Lemma grid_block_NoDup b : corner b -> NoDup (v_idx <$> (seq 0 N ≫= vis b)).
Proof.
  intros Hc. rewrite fmap_bind. apply NoDup_bind; [| | apply NoDup_seq].
  - intros p q i Hp%elem_of_seq Hq%elem_of_seq Hi Hi'. apply pass_elem in Hi as (c & <- & [Hb _] & _ & Ho1 & He1); [| done | lia].
    apply pass_elem in Hi' as (c' & E & [Hb' _] & _ & Ho2 & He2); [| done | lia].
    apply Nat.add_cancel_l, Hinj in E as ->; [| done..]. destruct (Nat.lt_trichotomy p q) as [H | [-> | H]]; [| done |].
    + destruct Ho2. apply He1. lia.
    + destruct Ho1. apply He2. lia.
  - intros p Hp%elem_of_seq. apply pass_NoDup; [done | lia].
Qed.

(** Every place has one block that is responsible for it. *)
Lemma own_unique b b' c : corner b -> corner b' -> own b c -> own b' c -> b = b'.
Proof.
  intros Hb Hb' [_ H] [_ H']. pose proof Hb as [Hl%Forall2_length _]. pose proof Hb' as [Hl'%Forall2_length _].
  apply list_eq_at; [congruence |]. intros m Hm. rewrite Hl' in Hm. destruct (H m Hm) as [U L], (H' m Hm) as [U' L'].
  destruct (corner_at b m Hb Hm) as (_ & _ & _ & [k Ek]). destruct (corner_at b' m Hb' Hm) as (_ & _ & _ & [k' Ek']).
  assert (0 < B) as HB by nia. set (D := B) in *. clearbody D. rewrite Ek, Ek' in *.
  destruct (Nat.lt_trichotomy k k') as [Hk | [-> | Hk]]; [| done |].
  - assert (k * D + D <= k' * D) by nia. lia.
  - assert (k' * D + D <= k * D) by nia. lia.
Qed.

Definition owner (c : list nat) : list nat := (fun x => (x - 1) / B * B) <$> c.

Lemma owner_own c : Forall2 lt c gd -> corner (owner c) /\ own (owner c) c.
Proof.
  intros Hc. pose proof Hc as [Hl H]%Forall2_at. assert (0 < B) as HB by nia.
  assert (forall m, m < N -> owner c !!! m = (c !!! m - 1) / B * B) as Ho'.
  { intros m Hm. apply list_lookup_total_correct. unfold owner. rewrite list_lookup_fmap, (at_lt c m) by lia. done. }
  assert (length (owner c) = N) as Hlen by (unfold owner; by rewrite length_fmap).
  assert (forall m, m < N -> owner c !!! m <= c !!! m - 1 < owner c !!! m + B) as Hbd.
  { intros m Hm. rewrite Ho' by done. pose proof (Nat.div_mod_eq (c !!! m - 1) B) as E.
    pose proof (Nat.mod_upper_bound (c !!! m - 1) B ltac:(lia)). lia. }
  split; [split |].
  - apply Forall2_at. split; [done |]. intros m Hm. specialize (Hbd m Hm). specialize (H m Hm). lia.
  - apply Forall_at. intros m Hm. rewrite Ho' by lia. by eexists.
  - split; [done |]. intros m Hm. specialize (Hbd m Hm). lia.
Qed.

(** ** A level of blocks *)

Section blocks.

Variable blocks : list (list nat).
Hypothesis Hnodup : NoDup blocks.
Hypothesis Hcorner : forall b, b ∈ blocks <-> corner b.
Hypothesis Horder : forall k b b', blocks !! k = Some b -> b' ∈ blocks -> Forall2 le b' b -> b' <> b -> b' ∈ take k blocks.

Notation block b := (seq 0 N ≫= vis b).

Lemma level_elem i : i ∈ v_idx <$> (blocks ≫= fun b => block b) <->
  exists c, base + dot c o = i /\ Forall2 lt c gd /\ on_grid s c /\ ~ on_grid (2 * s) c.
Proof.
  rewrite fmap_bind, list_elem_of_bind. split.
  - intros (b & Hi & Hb%Hcorner). apply block_elem in Hi as (c & <- & [Hc _] & H1 & H2); [| done]. by exists c.
  - intros (c & <- & Hc & H1 & H2). destruct (owner_own c Hc) as [Ho1 Ho2]. exists (owner c).
    split; [| by apply Hcorner]. apply block_elem; [done |]. by exists c.
Qed.

Lemma level_NoDup : NoDup (v_idx <$> (blocks ≫= fun b => block b)).
Proof.
  rewrite fmap_bind. apply NoDup_bind; [| | done].
  - intros b b' i Hb%Hcorner Hb'%Hcorner Hi Hi'. apply block_elem in Hi as (c & <- & Ho1 & _); [| done].
    apply block_elem in Hi' as (c' & E & Ho2 & _); [| done].
    apply Nat.add_cancel_l, Hinj in E as ->; [by apply (own_unique b b' c) | apply Ho2 | apply Ho1].
  - intros b Hb%Hcorner. by apply grid_block_NoDup.
Qed.

(** The block responsible for what lies before the end of another is not a later one. *)
Lemma owner_le b c : corner b -> Forall2 lt c gd -> (forall m, m < N -> c !!! m <= b !!! m + B) -> Forall2 le (owner c) b.
Proof.
  intros Hb Hc Hle. destruct (owner_own c Hc) as [Hoc [_ Hown]]. pose proof Hb as [Hl%Forall2_length _].
  pose proof Hoc as [Hl'%Forall2_length _]. apply Forall2_at. split; [congruence |]. rewrite Hl. intros m Hm.
  destruct (corner_at b m Hb Hm) as (_ & _ & _ & [k Ek]). destruct (corner_at _ m Hoc Hm) as (_ & _ & _ & [k' Ek']).
  specialize (Hle m Hm). destruct (Hown m Hm) as [_ H]. assert (0 < B) as HB by nia. set (D := B) in *. clearbody D.
  rewrite Ek, Ek' in *. destruct (Nat.le_gt_cases k' k) as [Hk | Hk]; [by apply Nat.mul_le_mono_r |].
  assert (k * D + D <= k' * D) by nia. lia.
Qed.

Lemma level_known known : (forall c, Forall2 lt c gd -> on_grid (2 * s) c -> base + dot c o ∈ known) ->
  causal known (blocks ≫= fun b => block b).
Proof.
  intros Hk. apply causal_bind. intros k b Hb. assert (corner b) as Hc by (apply Hcorner; by eapply list_elem_of_lookup_2).
  apply causal_bind. intros p p' Hj. apply lookup_seq in Hj as [-> Hp]. change (0 + p) with p.
  apply causal_known. eapply Forall_impl; [| by apply pass_sources]. intros v Hv. eapply Forall_impl; [| exact Hv].
  intros i (c & <- & Hbox & Hg & Heven & Hbp & Hother). rewrite !elem_of_app.
  assert (forall m, m < N -> c !!! m <= b !!! m + B) as Hle.
  { intros m Hm. destruct (decide (m = p)) as [-> | Hne]; [lia | by apply Hother]. }
  destruct (decide (Forall (Nat.divide (2 * s)) c)) as [Hall | Hnot]; [right; right; by apply Hk |].
  destruct (owner_own c Hbox) as [Hoc Hown]. pose proof (owner_le b c Hc Hbox Hle) as Hob.
  destruct (decide (owner c = b)) as [E | Hne].
  - left. rewrite E in Hown. assert (base + dot c o ∈ v_idx <$> block b) as Hin by (apply block_elem; [done |]; by exists c).
    rewrite fmap_bind, list_elem_of_bind in *. destruct Hin as (q & Hq & Hql%elem_of_seq). exists q. split; [done |].
    apply (list_elem_of_lookup_2 _ q). rewrite lookup_take_lt; [apply lookup_seq_lt; lia |].
    apply pass_elem in Hq as (c' & Ec & [Hbox' _] & _ & Hodd & _); [| done | lia].
    apply Nat.add_cancel_l, Hinj in Ec as ->; [| done..]. destruct (Nat.lt_ge_cases q p) as [? | Hge]; [done |]. destruct Hodd. apply Heven. lia.
  - right. left. rewrite fmap_bind, list_elem_of_bind. exists (owner c). split; [apply block_elem; [done |]; by exists c |].
    apply (Horder k b); [done | by apply Hcorner | done | done].
Qed.

End blocks.

End frame.

(** ** The order of the dimensions *)

Section permuted.

Variables (N : nat) (dims : list nat).
Hypothesis Hdims : dims ≡ₚ seq 0 N.

Lemma dims_lt i : i ∈ dims -> i < N.
Proof. rewrite Hdims, elem_of_seq. lia. Qed.

Lemma permute_seq c : permute (seq 0 (length c)) c = c.
Proof.
  apply list_eq_at; unfold permute; [by rewrite length_fmap, length_seq |]. intros m Hm.
  apply list_lookup_total_correct. by rewrite list_lookup_fmap, lookup_seq_lt.
Qed.

Lemma permute_perm c : length c = N -> permute dims c ≡ₚ c.
Proof. intros Hl. rewrite <- (permute_seq c) at 2. rewrite Hl. unfold permute. by rewrite Hdims. Qed.

Lemma permute_length c : length (permute dims c) = N.
Proof. unfold permute. by rewrite length_fmap, Hdims, length_seq. Qed.

Lemma permute_at c j i : dims !! j = Some i -> permute dims c !!! j = c !!! i.
Proof. intros H. apply list_lookup_total_correct. unfold permute. by rewrite list_lookup_fmap, H. Qed.

Lemma permute_inj c c' : length c = N -> length c' = N -> permute dims c = permute dims c' -> c = c'.
Proof.
  intros Hl Hl' E. apply list_eq_at; [congruence |]. intros i Hi. rewrite Hl' in Hi.
  assert (i ∈ dims) as [j Hj]%list_elem_of_lookup by (rewrite Hdims, elem_of_seq; lia).
  by rewrite <- (permute_at c j i Hj), <- (permute_at c' j i Hj), E.
Qed.

Lemma permute_surj c' : length c' = N -> exists c, length c = N /\ permute dims c = c'.
Proof.
  intros Hl. exists ((fun i => from_option (fun x => c' !!! x.1) 0 (list_find (i =.) dims)) <$> seq 0 N).
  split; [by rewrite length_fmap, length_seq |]. apply list_eq_at; [by rewrite permute_length |]. intros j Hj. rewrite Hl in Hj.
  assert (length dims = N) as Hld by (by rewrite Hdims, length_seq).
  destruct (lookup_lt_is_Some_2 dims j) as [i Hi]; [lia |]. rewrite (permute_at _ j i Hi).
  apply list_lookup_total_correct. rewrite list_lookup_fmap, lookup_seq_lt by (apply dims_lt; by eapply list_elem_of_lookup_2).
  simpl. f_equal. assert (list_find (i =.) dims = Some (j, i)) as ->; [| done].
  apply list_find_Some. split_and!; [done | done |]. intros k y Hk Hlt ->.
  assert (NoDup dims) as Hn by (rewrite Hdims; apply NoDup_seq). pose proof (NoDup_lookup _ _ _ _ Hn Hk Hi). lia.
Qed.

Lemma permute_Forall2 (R : nat -> nat -> Prop) c g : length c = N -> length g = N ->
  Forall2 R (permute dims c) (permute dims g) <-> Forall2 R c g.
Proof.
  intros Hc Hg. rewrite !Forall2_at, !permute_length. split; intros [_ H]; (split; [congruence |]).
  - intros i Hi. rewrite Hg in Hi. assert (i ∈ dims) as [j Hj]%list_elem_of_lookup by (rewrite Hdims, elem_of_seq; lia).
    rewrite <- (permute_at c j i Hj), <- (permute_at g j i Hj). apply H. apply lookup_lt_Some in Hj.
    by rewrite Hdims, length_seq in Hj.
  - intros j Hj. assert (length dims = N) as Hld by (by rewrite Hdims, length_seq).
    destruct (lookup_lt_is_Some_2 dims j) as [i Hi]; [lia |]. rewrite !(permute_at _ j i Hi). apply H.
    rewrite Hg. apply dims_lt. by eapply list_elem_of_lookup_2.
Qed.

Lemma permute_dot c w : length c = N -> length w = N -> dot (permute dims c) (permute dims w) = dot c w.
Proof.
  intros Hc Hw. assert (forall ds, dot (permute ds c) (permute ds w) = sum_list ((fun i => c !!! i * w !!! i) <$> ds)) as H.
  { unfold dot, permute. induction ds as [| i ds IH]; [done |]. cbn [fmap list_fmap zip_with foldr sum_list]. by rewrite IH. }
  rewrite H, Hdims, <- H. f_equal; [rewrite <- Hc | rewrite <- Hw]; apply permute_seq.
Qed.

Lemma permute_ends gd size b : length gd = N -> length b = N ->
  permute dims (end_idx gd size b) = end_idx (permute dims gd) size (permute dims b).
Proof.
  intros Hg Hb. assert (Forall (fun i => i < N) dims) as H by (apply list.Forall_forall; intros i; apply dims_lt).
  unfold permute, end_idx. clear Hdims. induction H as [| i ds Hi H IH]; [done |]. rewrite !fmap_cons. cbn [zip_with].
  rewrite IH. f_equal. apply list_lookup_total_correct. by rewrite lookup_zip_with, (at_lt b i), (at_lt gd i) by lia.
Qed.

End permuted.

(** ** The levels *)

Lemma zeros_lt (g : list nat) : Forall (fun x => 0 < x) g -> Forall2 lt (replicate (length g) 0) g.
Proof. induction 1; simpl; constructor; auto. Qed.

Lemma bind_ext {A B} (f g : A -> list B) l : (forall x, x ∈ l -> f x = g x) -> l ≫= f = l ≫= g.
Proof.
  induction l as [| x l IH]; intros H; [done |]. rewrite !bind_cons, IH by (intros; apply H; by right).
  by rewrite H by (by left).
Qed.

Lemma bind_fmap {A B C} (f : A -> B) (g : B -> list C) l : (f <$> l) ≫= g = l ≫= fun x => g (f x).
Proof. induction l as [| x l IH]; [done |]. by rewrite fmap_cons, !bind_cons, IH. Qed.

(** A box of extents [bd] in an array of offsets [o], from [base]; the dimensions are taken in the
    order [dims]. *)
Section box.

Variables (bd o dims : list nat) (base : nat).
Hypothesis Hpos : Forall (fun g => 0 < g) bd.
Hypothesis Hdims : dims ≡ₚ seq 0 (length bd).
Hypothesis Hlo : length o = length bd.
Hypothesis Ho : Forall (fun w => 0 < w) o.
Hypothesis Hinj : forall c c', Forall2 lt c bd -> Forall2 lt c' bd -> dot c o = dot c' o -> c = c'.

Notation N := (length bd).
Notation pbd := (permute dims bd).
Notation po := (permute dims o).

Definition inside (i : nat) : Prop := exists c, Forall2 lt c bd /\ base + dot c o = i.

(** The place [i] is on the grid of level [l]. *)
Definition place_on (l i : nat) : Prop := exists c, Forall2 lt c bd /\ base + dot c o = i /\ on_grid (2 ^ l) c.

Lemma permuted_box c' : Forall2 lt c' pbd -> exists c, Forall2 lt c bd /\ permute dims c = c' /\
  dot c' po = dot c o /\ forall k, on_grid k c' <-> on_grid k c.
Proof.
  intros H. pose proof (Forall2_length H) as Hl. rewrite (permute_length N dims Hdims) in Hl.
  destruct (permute_surj N dims Hdims c' Hl) as (c & Hc & <-). exists c.
  rewrite (permute_Forall2 N dims Hdims) in H by done. split_and!; [done | done | by apply (permute_dot N dims Hdims) |].
  intros k. unfold on_grid. by rewrite (permute_perm N dims Hdims c Hc).
Qed.

Lemma permuted_inj c c' : Forall2 lt c pbd -> Forall2 lt c' pbd -> dot c po = dot c' po -> c = c'.
Proof.
  intros H H' E. destruct (permuted_box c H) as (d & Hd & <- & E1 & _), (permuted_box c' H') as (d' & Hd' & <- & E2 & _).
  rewrite E1, E2 in E. apply Hinj in E as ->; done.
Qed.

Lemma unpermuted_box c : Forall2 lt c bd -> Forall2 lt (permute dims c) pbd /\ dot (permute dims c) po = dot c o /\
  forall k, on_grid k (permute dims c) <-> on_grid k c.
Proof.
  intros H. pose proof (Forall2_length H) as Hl.
  split_and!; [by apply (permute_Forall2 N dims Hdims) | by apply (permute_dot N dims Hdims) |].
  intros k. unfold on_grid. by rewrite (permute_perm N dims Hdims c Hl).
Qed.

Lemma place_unique l c : Forall2 lt c bd -> place_on l (base + dot c o) <-> on_grid (2 ^ l) c.
Proof.
  intros Hc. split; [| by exists c]. intros (c' & Hc' & E%Nat.add_cancel_l & H). apply Hinj in E as ->; done.
Qed.

Lemma place_dec l i : inside i -> place_on l i \/ ~ place_on l i.
Proof.
  intros (c & Hc & <-). rewrite (place_unique l c Hc).
  unfold on_grid. destruct (decide (Forall (Nat.divide (2 ^ l)) c)); tauto.
Qed.

Lemma place_finest i : inside i -> place_on 0 i.
Proof.
  intros (c & Hc & E). exists c. split_and!; [done | done |].
  apply list.Forall_forall. intros x _. apply Nat.divide_1_l.
Qed.

Lemma place_finer l i : place_on (S l) i -> place_on l i.
Proof.
  intros (c & Hc & E & H). exists c. split_and!; [done | done |]. eapply Forall_impl; [| exact H]. intros x Hx.
  etrans; [| exact Hx]. exists 2. apply Nat.pow_succ_r'.
Qed.

Lemma inside_base : inside base.
Proof. exists (replicate N 0). split; [by apply zeros_lt | by rewrite dot_zeros, Nat.add_0_r]. Qed.

Lemma coarsest level i : Forall (fun g => g <= 2 ^ level) bd -> inside i -> place_on level i <-> i = base.
Proof.
  intros Hl (c & Hc & <-). rewrite (place_unique level c Hc). split.
  - intros Hg. assert (c = replicate (length c) 0) as ->; [| by rewrite dot_zeros, Nat.add_0_r]. unfold on_grid in Hg.
    revert Hl Hg. clear -Hc. induction Hc as [| x g c gd' Hx Hc IH]; intros Hl Hg; [done |].
    apply Forall_cons_iff in Hl as [Hgl Hl], Hg as [[k ->] Hg]. cbn [length replicate]. f_equal; [| auto].
    destruct k as [| k]; [done |]. rewrite Nat.mul_succ_l in Hx. lia.
  - intros E. assert (c = replicate N 0) as ->.
    { apply Hinj; [done | by apply zeros_lt |]. rewrite dot_zeros. lia. }
    apply Forall_replicate. apply Nat.divide_0_r.
Qed.

(** The blocks of a level visit what is new on its grid, each place once, and need the coarser
    grid; [vis] is what a pass visits, in any order. *)
Lemma blocks_grid linear l h blocks vis : 0 < h -> NoDup blocks -> (forall b, b ∈ blocks <-> corner pbd (2 ^ l) h b) ->
  (forall k b b', blocks !! k = Some b -> b' ∈ blocks -> Forall2 le b' b -> b' <> b -> b' ∈ take k blocks) ->
  (forall b p, corner pbd (2 ^ l) h b -> p < N ->
    vis b p ≡ₚ pass_from base b (end_idx pbd (2 ^ l * (2 * h)) b) po (2 ^ l) linear p) ->
  let vs := blocks ≫= fun b => seq 0 N ≫= vis b in
  NoDup (v_idx <$> vs) /\ (forall i, i ∈ v_idx <$> vs <-> inside i /\ place_on l i /\ ~ place_on (S l) i) /\
  forall known, (forall i, inside i -> place_on (S l) i -> i ∈ known) -> causal known vs.
Proof.
  intros Hh Hnd Hc Hord Hvis vs. unfold vs.
  assert (length pbd = N) as Hlp by apply (permute_length N dims Hdims).
  assert (0 < 2 ^ l) as Hs by (apply Nat.neq_0_lt_0, Nat.pow_nonzero; lia).
  assert (length po = length pbd) as Hlo' by (by rewrite Hlp, (permute_length N dims Hdims)).
  assert (Forall (fun w => 0 < w) po) as Hpo by (by rewrite (permute_perm N dims Hdims o Hlo)).
  rewrite <- Hlp in Hvis |- *. unfold place_on at 2 3. rewrite !Nat.pow_succ_r'. split_and!.
  - by apply (level_NoDup pbd po (2 ^ l) h base linear Hs Hh Hlo' Hpo permuted_inj vis Hvis).
  - intros i. rewrite (level_elem pbd po (2 ^ l) h base linear Hs Hh Hlo' Hpo vis Hvis blocks Hc). split.
    + intros (c & <- & Hb & Hg & Hn). destruct (permuted_box c Hb) as (d & Hd & _ & E & Hk). rewrite Hk in Hg, Hn. rewrite E.
      split_and!; [by exists d | by exists d |]. intros (d' & Hd' & E'%Nat.add_cancel_l & H). apply Hinj in E' as ->; done.
    + intros (Hi & (d & Hd & <- & Hg) & Hn). destruct (unpermuted_box d Hd) as (H1 & H2 & H3). exists (permute dims d).
      rewrite !H3, H2. split_and!; [done | done | done |]. intros H. apply Hn. by exists d.
  - intros known Hk. apply (level_known pbd po (2 ^ l) h base linear Hs Hh Hlo' Hpo permuted_inj vis Hvis blocks Hc Hord).
    intros c Hb Hg. destruct (permuted_box c Hb) as (d & Hd & _ & E & H3). rewrite E. apply Hk; [by exists d |].
    exists d. split_and!; [done | done |]. by apply H3.
Qed.

(** With levels enough for every extent, all places but the first are visited, each once, and what is read was visited. *)
Lemma box_order visits level : Forall (fun g => g <= 2 ^ level) bd ->
  (forall l, NoDup (v_idx <$> visits (S l)) /\
    (forall i, i ∈ v_idx <$> visits (S l) <-> inside i /\ place_on l i /\ ~ place_on (S l) i) /\
    forall known, (forall i, inside i -> place_on (S l) i -> i ∈ known) -> causal known (visits (S l))) ->
  NoDup (base :: order visits level) /\ (forall i, i ∈ base :: order visits level <-> inside i) /\
  causal [base] (all_visits visits level).
Proof.
  intros Hl Hgrid. destruct (grid_base visits inside place_on place_finest place_finer place_dec Hgrid level base inside_base)
    as [Hn Hin]; [intros; by apply coarsest |]. split_and!; [done | done |].
  apply (grid_causal _ inside place_on place_dec Hgrid). intros i Hi H. apply coarsest in H as ->; [by left | done | done].
Qed.

End box.

Section levels.

Variables (gd dims : list nat) (blocksize : nat) (linear : bool).
Hypothesis Hgd : gd <> [].
Hypothesis Hpos : Forall (fun g => 0 < g) gd.
Hypothesis Hdims : dims ≡ₚ seq 0 (length gd).
Hypothesis Hblock : exists h, blocksize = 2 * h /\ 0 < h.

Notation pgd := (permute dims gd).
Notation po := (permute dims (weights gd)).
Notation N := (length gd).
Notation inside := (inside gd (weights gd) 0).
Notation place_on := (place_on gd (weights gd) 0).

Lemma level_grid l : let vs := level_visits gd dims blocksize linear (S l) in
  NoDup (v_idx <$> vs) /\
  (forall i, i ∈ v_idx <$> vs <-> inside i /\ place_on l i /\ ~ place_on (S l) i) /\
  forall known, (forall i, inside i -> place_on (S l) i -> i ∈ known) -> causal known vs.
Proof.
  destruct Hblock as (h & -> & Hh). unfold level_visits. replace (S l - 1) with l by lia.
  assert (0 < 2 ^ l) as Hs by (apply Nat.neq_0_lt_0, Nat.pow_nonzero; lia).
  set (B := 2 ^ l * (2 * h)). assert (0 < B) as HB by (subst B; nia).
  destruct (corners_spec gd B Hgd Hpos HB) as (r & its & Er & Ei & Hnd & Hin & Hord & _).
  unfold inter_block_range. rewrite Er, Ei. cbn [from_option]. set (corners := get_global_index r <$> its) in *.
  assert (forall b, b ∈ corners -> length b = N) as Hlen by (intros b [Hb%Forall2_length _]%Hin; done).
  assert ((corners ≫= fun b => block_interpolation dims b (end_idx gd B b) (dimension_offsets gd) (2 ^ l) linear)
    = ((permute dims <$> corners) ≫= fun b => seq 0 N ≫= pass_from 0 b (end_idx pgd B b) po (2 ^ l) linear)) as E.
  { rewrite bind_fmap. apply bind_ext. intros b Hb. unfold block_interpolation.
    rewrite offsets_weights, (permute_ends N dims Hdims gd B b eq_refl (Hlen b Hb)).
    assert (length dims = N) as -> by (by rewrite Hdims, length_seq). done. }
  rewrite E. clear E.
  apply (blocks_grid gd (weights gd) dims 0 Hdims (length_weights gd) (weights_pos gd Hpos) (rank_inj gd) linear l h
    (permute dims <$> corners) (fun b => pass_from 0 b (end_idx pgd B b) po (2 ^ l) linear)); [done | | | | done].
  - apply NoDup_fmap_2_strong; [| done]. intros b b' Hb Hb'. apply (permute_inj N dims Hdims); auto.
  - intros b. rewrite list_elem_of_fmap. split.
    + intros (b' & -> & [Hb Hd]%Hin). destruct (unpermuted_box gd (weights gd) dims Hdims (length_weights gd) b' Hb) as (H1 & _ & H3).
      split; [done |]. by apply H3.
    + intros [Hb Hd]. destruct (permuted_box gd (weights gd) dims Hdims (length_weights gd) b Hb) as (b' & Hb' & <- & _ & H3).
      exists b'. split; [done |]. apply Hin. split; [done |]. by apply H3.
  - intros k b b' (c & -> & Hk)%list_lookup_fmap_Some_1 (c' & -> & Hc)%list_elem_of_fmap Hle Hne.
    rewrite <- fmap_take. apply list_elem_of_fmap_2. apply (Hord k c); [done | done | | congruence].
    apply list_elem_of_lookup_2 in Hk. by rewrite (permute_Forall2 N dims Hdims le c' c (Hlen c' Hc) (Hlen c Hk)) in Hle.
Qed.

Lemma levels_order level : Forall (fun g => g <= 2 ^ level) gd ->
  0 :: order (level_visits gd dims blocksize linear) level ≡ₚ seq 0 (product gd) /\
  causal [0] (all_visits (level_visits gd dims blocksize linear) level).
Proof.
  intros Hl. destruct (box_order gd (weights gd) 0 Hpos (length_weights gd) (rank_inj gd) _ level Hl level_grid) as (Hn & Hin & Hc).
  split; [| done]. apply NoDup_Permutation; [done | apply NoDup_seq |]. intros i. rewrite Hin, elem_of_seq. split.
  - intros (c & Hc' & <-). pose proof (rank_lt gd c Hc'). lia.
  - intros [_ Hi]. destruct (rank_surj gd i Hi) as (c & Hc' & <-). by exists c.
Qed.

End levels.

(** ** Properties *)

(** C5: in any number of dimensions, taken in any order, with any even block size and both interpolators:
    the levels visit every value but the first exactly once, and predict each from the first and
    from values visited before. *)
Theorem interp_visits_once gd dims blocksize linear level :
  gd <> [] -> Forall (fun g => 0 < g) gd -> dims ∈ dimension_sequences (length gd) ->
  blocksize mod 2 = 0 -> 0 < blocksize -> Forall (fun g => g <= 2 ^ level) gd ->
  0 :: (v_idx <$> all_visits (level_visits gd dims blocksize linear) level) ≡ₚ seq 0 (product gd) /\
  causal [0] (all_visits (level_visits gd dims blocksize linear) level).
Proof.
  intros Hne Hpos Hd%sequences_spec Hb Hb0 Hl. rewrite all_visits_idx. apply levels_order; try done.
  exists (blocksize / 2). pose proof (Nat.div_mod_eq blocksize 2). lia.
Qed.

(** An array of 5 rows of 7, by columns first. *)
Lemma interp_visits_once_witness :
  0 :: (v_idx <$> all_visits (level_visits [5; 7] [1; 0] 2 false) 3) ≡ₚ seq 0 35 /\
  causal [0] (all_visits (level_visits [5; 7] [1; 0] 2 false) 3).
Proof.
  apply (interp_visits_once [5; 7] [1; 0] 2 false 3); [done | repeat constructor; lia | | done | lia | repeat constructor; simpl; lia].
  vm_compute. right. left.
Defined.

End Grid.
