(* ===== verification/SzSample.v ===== *)
(** * SzSample: the sample of the data that the tuning works on

    Models [SZ3/utils/Extraction.hpp] at [T = double], for one to four dimensions.  The data are
    cut into cubes of the least extent; of each, two pieces of half the sample's block are taken
    along every dimension.

    In four dimensions the sample is stored with strides that belong to other dimensions. *)

From Stdlib Require Import ZArith Lia.
From stdpp Require Import sets.
From S2P Require Import Prelude Float64 Float32 SzIterator SzDecomp SzLevels SzGrid.

Module Extraction.
Import Iterator (product, weights, dot, rank_lt, rank_surj, rank_inj, length_weights, product_pos).
Import Grid (nest, nest_elem, nest_NoDup, at_lt, Forall2_at, Forall_at, list_eq_at).
#[local] Open Scope nat_scope.

(** The literal 0.035. *)
Definition f64_0_035 : Z := 0x3fa1eb851eb851ec.

(** [cal_sampling_ratio] for dimensions [ds]; the [float] it returns, as the [double] that it is
    compared as. *)
Definition cal_sampling_ratio (block n dmin : Z) (ds : list Z) : Z :=
  let sample_n := foldl (fun s d => u64 (s * (d / dmin * 2 * block))) 1%Z ds in
  f64_of_f32 $ f32_of_f64 (f64_div (f64_mul (f64_of_Z sample_n) (f64_of_Z 1)) (f64_of_Z n)).

(** [while (ratio > 0.035) sampling_block--], from [block] downwards. *)
Fixpoint sampling_loop (n dmin : Z) (ds : list Z) (block : nat) : nat :=
  if f64_ltb f64_0_035 (cal_sampling_ratio (Z.of_nat block) n dmin ds) then
    match block with
    | O => O
    | S b => sampling_loop n dmin ds b
    end
  else block.

(** The size of the block. *)
Definition sampling_block (dims : list nat) (dmin : nat) : nat :=
  let block := sampling_loop (Z.of_nat (product dims)) (Z.of_nat dmin) (Z.of_nat <$> dims) dmin in
  if dmin <? block * 2 then dmin / 2 else block.

(** [*std::min_element] *)
Definition min_element (l : list nat) : option nat :=
  match l with
  | [] => None
  | x :: l => Some (foldl Nat.min x l)
  end.

(** The loops over the cubes, and over the places of a piece. *)
Definition loops (bs : list nat) (block : nat) : list (list nat) :=
  nest ((seq 0 <$> bs) ++ replicate (length bs) (seq 0 (2 * block))).

(** [di], [dj], ...: which places of a cube are taken. *)
Definition taken (dmin block i : nat) : nat := if i <? block then i + block else dmin + i - 3 * block.

(** The indices of the cubes and of the places together: the index in the data, and in the sample. *)
Definition data_index (dims : list nat) (dmin block : nat) (p : list nat) : nat :=
  dot (zip_with (fun b i => b * dmin + taken dmin block i) (take (length dims) p) (drop (length dims) p)) (weights dims).

Definition sample_strides (sample_dims : list nat) : list nat :=
  match sample_dims with
  | [_; s1; s2; s3] => [s1 * s2 * s3; s1 * s2; s2; 1]
  | _ => weights sample_dims
  end.

Definition sample_index (sample_dims : list nat) (block : nat) (p : list nat) : nat :=
  dot (zip_with (fun b i => b * 2 * block + i) (take (length sample_dims) p) (drop (length sample_dims) p))
    (sample_strides sample_dims).

(** [sampling]: the sample, its number, its extents and the block; [None] for a division by an
    extent of 0, and for reading or writing past the end. *)
Definition sampling (data : list Z) (dims : list nat) : option (list Z * nat * list nat * nat) :=
  dmin ← min_element dims;
  _ ← assert (0 <? dmin);
  let block := sampling_block dims dmin in
  if block <? 9 then Some ([], product dims, dims, block)
  else
    let bs := (fun d => d / dmin) <$> dims in
    let sample_dims := (fun b => b * 2 * block) <$> bs in
    let sample_num := product sample_dims in
    let ps := loops bs block in
    xs ← mapM (fun p => data !! data_index dims dmin block p) ps;
    let ks := sample_index sample_dims block <$> ps in
    _ ← assert (forallb (fun k => k <? sample_num) ks);
    Some (writes (replicate sample_num 0%Z) (zip ks xs), sample_num, sample_dims, block).

(** ** Properties *)

Lemma min_element_spec l x : min_element l = Some x -> Forall (fun y => x <= y) l.
Proof.
  destruct l as [| y l]; [done |]. intros [= <-]. assert (forall l y, foldl Nat.min y l <= y /\ Forall (fun z => foldl Nat.min y l <= z) l) as H.
  { clear. induction l as [| z l IH]; intros y; simpl; [by split |]. destruct (IH (Nat.min y z)) as [H1 H2]. split; [lia |].
    constructor; [lia | done]. }
  destruct (H l y). by constructor.
Qed.

(** The place of the data that the place [x] of a sample comes from, along one dimension. *)
Definition source (dmin block x : nat) : nat := x / (2 * block) * dmin + taken dmin block (x mod (2 * block)).

Lemma replicate_elem (a : list nat) n i :
  Forall2 (fun x a => x ∈ a) i (replicate n a) <-> length i = n /\ Forall (fun x => x ∈ a) i.
Proof.
  revert i. induction n as [| n IH]; intros i; simpl.
  - split; [by intros ->%Forall2_nil_inv_r | by intros [->%nil_length_inv _]].
  - split.
    + intros (x & i' & Hx & H & ->)%Forall2_cons_inv_r. apply IH in H as [<- H]. by split; [| constructor].
    + destruct i as [| x i]; intros [Hl H]; [done |]. apply Forall_cons_iff in H as [Hx H]. injection Hl as Hl.
      constructor; [done |]. by apply IH.
Qed.

Section sample.

Variables (dims : list nat) (dmin block : nat).
Hypothesis Hmin : Forall (fun d => dmin <= d) dims.
Hypothesis Hblock : 0 < block /\ 2 * block <= dmin.

Notation N := (length dims).
Notation bs := ((fun d => d / dmin) <$> dims).
Notation sds := ((fun b => b * 2 * block) <$> bs).

Lemma source_lt d x : dmin <= d -> x < d / dmin * 2 * block -> source dmin block x < d.
Proof.
  intros Hd Hx. unfold source, taken. set (q := x / (2 * block)). pose proof (Nat.mod_upper_bound x (2 * block) ltac:(lia)) as Hm.
  assert (q < d / dmin) as Hq by (apply Nat.Div0.div_lt_upper_bound; lia).
  pose proof (Nat.Div0.mul_div_le d dmin) as Hle. assert (q * dmin + dmin <= d) by nia.
  destruct (Nat.ltb_spec (x mod (2 * block)) block); lia.
Qed.

Lemma loop_elem p : p ∈ loops bs block <->
  exists b i, p = b ++ i /\ Forall2 lt b bs /\ length i = N /\ Forall (fun x => x < 2 * block) i.
Proof.
  unfold loops. rewrite nest_elem, length_fmap.
  assert (forall b l, Forall2 (fun x a => x ∈ a) b (seq 0 <$> l) <-> Forall2 lt b l) as Hb.
  { intros b l. rewrite Forall2_fmap_r. split; apply Forall2_impl; intros x y; simpl; rewrite elem_of_seq; lia. }
  assert (forall i, Forall (fun x => x ∈ seq 0 (2 * block)) i <-> Forall (fun x => x < 2 * block) i) as Hi.
  { intros i. split; intros H; (eapply Forall_impl; [| exact H]); intros x; simpl; rewrite elem_of_seq; lia. }
  split.
  - intros (b & i & H1 & [Hl H2]%replicate_elem & ->)%Forall2_app_inv_r. exists b, i. rewrite <- Hb, <- Hi. done.
  - intros (b & i & -> & H1 & Hl & H2). apply Forall2_app; [by apply Hb |]. apply replicate_elem. by rewrite Hi.
Qed.

(** The round of the loops that writes the place [c] of the sample. *)
Definition round (c : list nat) : list nat :=
  ((fun x => x / (2 * block)) <$> c) ++ ((fun x => x mod (2 * block)) <$> c).

Lemma round_split {B} (f : nat -> nat -> B) c : length c = N ->
  zip_with f (take N (round c)) (drop N (round c)) = (fun x => f (x / (2 * block)) (x mod (2 * block))) <$> c.
Proof.
  intros Hl. unfold round. rewrite <- Hl at 1 2. rewrite <- (length_fmap (fun x => x / (2 * block)) c) at 1 2.
  rewrite take_app_length, drop_app_length. clear Hl. induction c as [| x c IH]; [done |]. rewrite !fmap_cons. cbn [zip_with]. by rewrite IH.
Qed.

Lemma round_data c : length c = N -> data_index dims dmin block (round c) = dot (source dmin block <$> c) (weights dims).
Proof. intros Hl. unfold data_index. by rewrite round_split. Qed.

Lemma round_sample c : length c = N -> sample_index sds block (round c) = dot c (sample_strides sds).
Proof.
  intros Hl. unfold sample_index. rewrite !length_fmap, round_split by done. f_equal.
  rewrite <- (list_fmap_id c) at 2. apply list_fmap_ext. intros _ x _.
  pose proof (Nat.div_mod_eq x (2 * block)). cbv beta. unfold id. lia.
Qed.

Lemma rounds p : p ∈ loops bs block <-> exists c, p = round c /\ Forall2 lt c sds.
Proof.
  rewrite loop_elem. split.
  - intros (b & i & -> & Hb & Hl & Hi). exists (zip_with (fun b i => b * (2 * block) + i) b i).
    pose proof (Forall2_length Hb) as Hlb. rewrite length_fmap in Hlb.
    assert (forall b i, length b = length i -> Forall (fun x => x < 2 * block) i ->
      round (zip_with (fun b i => b * (2 * block) + i) b i) = b ++ i) as Hr.
    { clear -Hblock. intros b i Hl Hi. unfold round. f_equal; revert b Hl; induction Hi as [| y i Hy Hi IH]; intros [| x b] Hl; try done;
        cbn [zip_with]; rewrite fmap_cons, IH by (simpl in Hl; lia); f_equal; rewrite Nat.add_comm.
      - rewrite Nat.div_add, Nat.div_small by lia. lia.
      - rewrite Nat.Div0.mod_add. by apply Nat.mod_small. }
    split; [rewrite Hr; [done | lia | done] |]. clear Hr. rewrite Forall2_fmap_r. rewrite <- Hlb in Hl. revert i Hl Hi. clear -Hb Hblock.
    revert Hb. generalize bs. intros l Hb. induction Hb as [| x y b l Hx Hb IH]; intros [| z i] Hl Hi; try done.
    apply Forall_cons_iff in Hi as [Hz Hi]. cbn [zip_with]. constructor; [simpl; nia |]. apply IH; [simpl in Hl; lia | done].
  - intros (c & -> & Hc). exists ((fun x => x / (2 * block)) <$> c), ((fun x => x mod (2 * block)) <$> c).
    split; [done |]. rewrite length_fmap. pose proof (Forall2_length Hc) as Hl. rewrite !length_fmap in Hl. split_and!.
    + rewrite Forall2_fmap_l. rewrite Forall2_fmap_r in Hc. eapply Forall2_impl; [| exact Hc]. intros x y Hx. simpl in *.
      apply Nat.Div0.div_lt_upper_bound; lia.
    + done.
    + apply Forall_fmap, list.Forall_forall. intros x _. simpl. apply Nat.mod_upper_bound. lia.
Qed.

Lemma round_inj c c' : round c = round c' -> length c = length c' -> c = c'.
Proof.
  intros E Hl. unfold round in E. apply app_inj_1 in E as [E1 E2]; [| by rewrite !length_fmap].
  revert c' Hl E1 E2. induction c as [| x c IH]; intros [| y c'] Hl E1 E2; try done. rewrite !fmap_cons in *.
  injection E1 as Ex E1. injection E2 as Ex' E2. f_equal; [| apply IH; [simpl in Hl; lia | done | done]].
  pose proof (Nat.div_mod_eq x (2 * block)) as A. pose proof (Nat.div_mod_eq y (2 * block)) as B. change (block + (block + 0)) with (2 * block) in *. rewrite Ex, Ex' in A. congruence.
Qed.

Lemma loops_NoDup : NoDup (loops bs block).
Proof.
  unfold loops. apply nest_NoDup, Forall_app. split.
  - apply Forall_fmap, list.Forall_forall. intros x _. apply NoDup_seq.
  - apply Forall_replicate, NoDup_seq.
Qed.

Lemma sources_lt c : Forall2 lt c sds -> Forall2 lt (source dmin block <$> c) dims.
Proof.
  intros Hc. rewrite Forall2_fmap_l. rewrite !Forall2_fmap_r in Hc. clear -Hc Hmin Hblock.
  induction Hc as [| x d c ds Hx Hc IH]; constructor; apply Forall_cons_iff in Hmin as [Hd Hds]; [by apply source_lt | auto].
Qed.

End sample.

Lemma block_half dims dmin : 2 * sampling_block dims dmin <= dmin.
Proof.
  unfold sampling_block. cbv zeta. set (b := sampling_loop _ _ _ _). clearbody b. destruct (Nat.ltb_spec dmin (b * 2)); [| lia].
  pose proof (Nat.Div0.mul_div_le dmin 2). lia.
Qed.

Lemma strides_3 sds : length sds <= 3 -> sample_strides sds = weights sds.
Proof. intros H. destruct sds as [| a [| b [| c [| d sds]]]]; try done. simpl in H. lia. Qed.

(** C35: in up to three dimensions, where the block is large enough to sample at all: the sample has
    an extent of two blocks per cube, nothing is read or written past an end, and each value of
    the sample is that of the data at the place it stands for. *)
Theorem sampling_exact data dims dmin :
  min_element dims = Some dmin -> 0 < dmin -> length data = product dims -> length dims <= 3 ->
  9 <= sampling_block dims dmin ->
  let block := sampling_block dims dmin in
  let sds := (fun d => d / dmin * 2 * block) <$> dims in
  exists sample, sampling data dims = Some (sample, product sds, sds, block) /\ length sample = product sds /\
    forall c, Forall2 lt c sds -> exists x, sample !! dot c (weights sds) = Some x /\
      data !! dot (source dmin block <$> c) (weights dims) = Some x.
Proof.
  intros Em Hpos Hdata HN H9 block sds. pose proof (min_element_spec _ _ Em) as Hmin. pose proof (block_half dims dmin) as Hhalf.
  fold block in H9, Hhalf. assert (0 < block /\ 2 * block <= dmin) as Hb by lia.
  assert (sds = (fun b => b * 2 * block) <$> ((fun d => d / dmin) <$> dims)) as Esds by (unfold sds; by rewrite <- list_fmap_compose).
  assert (length sds = length dims) as Hls by (unfold sds; by rewrite length_fmap).
  unfold sampling. rewrite Em. cbn [mbind option_bind]. rewrite (assert_true (0 <? dmin)) by (by apply Nat.ltb_lt). cbn [mbind option_bind].
  fold block. rewrite (proj2 (Nat.ltb_ge block 9) H9), <- Esds. set (ps := loops _ block).
  assert (forall p, p ∈ ps <-> exists c, p = round block c /\ Forall2 lt c sds) as Hps.
  { intros p. rewrite Esds. apply (rounds dims dmin block Hb). }
  assert (forall c, Forall2 lt c sds -> length c = length dims) as Hlc by (intros c Hc%Forall2_length; congruence).
  assert (forall c, Forall2 lt c sds -> sample_index sds block (round block c) = dot c (weights sds)) as Hk.
  { intros c Hc. rewrite <- (strides_3 sds) by lia. rewrite Esds. by apply (round_sample dims dmin block Hb), Hlc. }
  assert (exists xs, mapM (fun p => data !! data_index dims dmin block p) ps = Some xs) as (xs & Exs).
  { apply mapM_is_Some_2, list.Forall_forall. intros p (c & -> & Hc)%Hps. unfold compose. rewrite round_data by auto.
    apply lookup_lt_is_Some_2. rewrite Hdata. apply rank_lt. rewrite Esds in Hc. by apply sources_lt. }
  rewrite Exs. cbn [mbind option_bind]. rewrite assert_true.
  2:{ apply forallb_forall. intros k (p & -> & (c & -> & Hc)%Hps)%list_elem_of_In%list_elem_of_fmap. apply Nat.ltb_lt.
      rewrite Hk by done. by apply rank_lt. }
  cbn [mbind option_bind]. eexists. split; [done |]. split; [by rewrite length_writes, length_replicate |].
  pose proof (mapM_Some_1 _ _ _ Exs) as HF. pose proof (Forall2_length HF) as Hlx. intros c Hc.
  assert (round block c ∈ ps) as [n Hn]%list_elem_of_lookup by (apply Hps; by exists c).
  destruct (Forall2_lookup_l _ _ _ _ _ HF Hn) as (x & Hx & Ex). cbv beta in Ex. rewrite round_data in Ex by auto. exists x. split; [| done].
  apply writes_at; [| | rewrite length_replicate; by apply rank_lt].
  - rewrite fst_zip by (rewrite length_fmap; lia). apply NoDup_fmap_2_strong; [| apply loops_NoDup].
    intros p p' (d & -> & Hd)%Hps (d' & -> & Hd')%Hps E. rewrite !Hk in E by done. by apply rank_inj in E as ->.
  - apply (list_elem_of_lookup_2 _ n). rewrite lookup_zip_with, list_lookup_fmap, Hn. cbn. rewrite Hx. cbn. by rewrite Hk.
Qed.

(** A place of the sample whose strides lead past the end. *)
Lemma sampling_past_end data dims dmin c : min_element dims = Some dmin -> 0 < dmin -> 9 <= sampling_block dims dmin ->
  let sds := (fun b => b * 2 * sampling_block dims dmin) <$> ((fun d => d / dmin) <$> dims) in
  Forall2 lt c sds -> product sds <= dot c (sample_strides sds) -> sampling data dims = None.
Proof.
  intros Em Hpos H9 sds Hc Hend. pose proof (block_half dims dmin) as Hhalf. unfold sampling. rewrite Em. cbn [mbind option_bind].
  rewrite (assert_true (0 <? dmin)) by (by apply Nat.ltb_lt). cbn [mbind option_bind].
  rewrite (proj2 (Nat.ltb_ge _ 9) H9). fold sds. set (block := sampling_block dims dmin) in *.
  destruct (mapM _ _) as [xs |]; [| done]. cbn [mbind option_bind]. rewrite assert_false; [done |].
  apply not_true_iff_false. rewrite forallb_forall. intros H.
  specialize (H (sample_index sds block (round block c))). rewrite Nat.ltb_lt in H.
  assert (0 < block /\ 2 * block <= dmin) as Hb by lia.
  assert (sample_index sds block (round block c) < product sds) as Hlt.
  { apply H, list_elem_of_In, list_elem_of_fmap_2, (rounds dims dmin block Hb). by exists c. }
  unfold sds in Hlt at 1. rewrite (round_sample dims dmin block Hb) in Hlt; [fold sds in Hlt; lia |].
  apply Forall2_length in Hc. unfold sds in Hc. by rewrite !length_fmap in Hc.
Qed.

(** In four dimensions the strides of the sample are those of other dimensions: here it is
    written past its end, whatever the data. *)
Lemma sampling_4d_past_end data : sampling data [42; 84; 42; 42] = None.
Proof.
  assert (sampling_block [42; 84; 42; 42] 42 = 9) as E by (by vm_compute).
  assert ((fun b => b * 2 * sampling_block [42; 84; 42; 42] 42) <$> ((fun d => d / 42) <$> [42; 84; 42; 42]) = [18; 36; 18; 18]) as Es
    by (by rewrite E).
  apply (sampling_past_end data [42; 84; 42; 42] 42 [17; 35; 17; 17]); [done | lia | by rewrite E | |]; rewrite Es.
  - repeat constructor; lia.
  - unfold dot, product. cbn [sample_strides zip_with foldr]. lia.
Qed.

(** ** Witness *)

(** 520 values: two blocks of 9 are taken, at 9 and at the end. *)
Definition numbers : list Z := Z.of_nat <$> seq 0 520.

Lemma block_520 : sampling_block [520] 520 = 9.
Proof. by vm_compute. Qed.

Lemma sampling_exact_witness : exists sample, sampling numbers [520] = Some (sample, 18, [18], 9) /\ length sample = 18 /\
  forall c, Forall2 lt c [18] -> exists x, sample !! dot c (weights [18]) = Some x /\
    numbers !! dot (source 520 9 <$> c) (weights [520]) = Some x.
Proof.
  assert (H9 : 9 <= sampling_block [520] 520) by (by rewrite block_520).
  pose proof (sampling_exact numbers [520] 520 eq_refl ltac:(lia) eq_refl ltac:(simpl; lia) H9) as H. cbv zeta in H.
  rewrite block_520 in H. exact H.
Defined.

End Extraction.
