(* ===== verification/SzBox.v ===== *)
(** * SzBox: the interpolation of a block on its own

    The visits of a block in [SZ3/compressor/specialized/SZBlockInterpolationCompressor.hpp], for
    one to four dimensions.  The code has an overload of [block_interpolation] for each number of
    dimensions, and for each order in which they are taken.  All are the same scheme: the loops
    of a pass run over the other dimensions in their natural order, at the stride where the
    dimension was interpolated before, and at twice the stride where it will be.

    For four dimensions the loops over the last one start after the first place, unless the block
    is at the beginning. *)

From Stdlib Require Import ZArith Lia.
From stdpp Require Import sets.
From S2P Require Import Prelude SzIterator SzDecomp SzLevels SzGrid.

Module Box.
Import Interpolators.
Import Iterator (product, weights, dot, length_weights, weights_pos, rank_inj, rank_snoc, dot_add, dot_insert).
Import Levels (loop2, loop2_end, all_visits, order, all_visits_idx).
Import Grid (nest, loop_to, permute, pass_from, nest_elem, nest_NoDup, loop_to_elem, loop_to_NoDup, at_lt, Forall2_at, list_eq_at).
#[local] Open Scope nat_scope.

(** [block_interpolation_1d]: the visits, in the order of the code. *)
Definition block_interpolation_1d (begin end_ stride : nat) (linear : bool) : list visit :=
  let n := (end_ - begin) / stride + 1 in
  if n <=? 1 then [] else
  let stride3x := 3 * stride in
  let stride5x := 5 * stride in
  if linear || (n <? 5) then
    ((fun i => let d := begin + i * stride in
       {| v_idx := d; v_src := [d - stride; d + stride]; v_fun := on2 interp_linear |})
      <$> loop2 n 1 (n - 1))
    ++ (if n mod 2 =? 0 then
          let d := begin + (n - 1) * stride in
          [ if n <? 4 then {| v_idx := d; v_src := [d - stride]; v_fun := on1 id |}
            else {| v_idx := d; v_src := [d - stride3x; d - stride]; v_fun := on2 interp_linear1 |} ]
        else [])
  else
    (let d := begin + stride in
     [ {| v_idx := d; v_src := [d - stride; d + stride; d + stride3x]; v_fun := on3 interp_quad_1 |} ])
    ++ ((fun i => let d := begin + i * stride in
          {| v_idx := d; v_src := [d - stride3x; d - stride; d + stride; d + stride3x];
             v_fun := on4 interp_cubic |}) <$> loop2 n 3 (n - 3))
    ++ (if n mod 2 =? 0 then
          let d := begin + (n - 3) * stride in
          let d' := d + 2 * stride in
          [ {| v_idx := d; v_src := [d - stride3x; d - stride; d + stride]; v_fun := on3 interp_quad_2 |};
            {| v_idx := d'; v_src := [d' - stride5x; d' - stride3x; d' - stride]; v_fun := on3 interp_quad_3 |} ]
        else
          let d := begin + (n - 2) * stride in
          [ {| v_idx := d; v_src := [d - stride3x; d - stride; d + stride]; v_fun := on3 interp_quad_2 |} ]).

(** [offset2] *)
Definition offset2 (gd idx : list nat) : nat := foldl (fun offset gi => offset * gi.1 + gi.2) 0 (zip gd idx).

(** The dimensions in the order in which they are interpolated; in three dimensions a direction
    that is none of the six interpolates nothing.  [None] where there is no overload. *)
Definition sequence_of (N : nat) (direction : Z) : option (list nat) :=
  match N with
  | 1 => Some [0]
  | 2 => Some (if (direction =? 0)%Z then [0; 1] else [1; 0])
  | 3 => Some (if (0 <=? direction)%Z then
                 default [] ([[0; 1; 2]; [0; 2; 1]; [1; 0; 2]; [1; 2; 0]; [2; 0; 1]; [2; 1; 0]] !! Z.to_nat direction)
               else [])
  | 4 => Some [0; 1; 2; 3]
  | _ => None
  end.

(** Where the loop over the dimension [m] of [N] starts. *)
Definition loop_start (N m step begin : nat) : nat :=
  if (N =? 4) && (m =? 3) then if begin =? 0 then 0 else begin + step else begin.

(** The loops of the pass along the dimension [dims !!! p], the outermost first. *)
Definition box_axes (dims : list nat) (stride p : nat) (begin end_ : list nat) : list (list nat) :=
  imap (fun m be =>
          if m =? dims !!! p then [be.1]
          else let step := if bool_decide (m ∈ take p dims) then stride else 2 * stride in
               loop_to (S be.2) step (loop_start (length begin) m step be.1) be.2)
    (zip begin end_).

Definition box_pass (gd dims begin end_ : list nat) (stride : nat) (linear : bool) (p : nat) : list visit :=
  let a := dims !!! p in
  nest (box_axes dims stride p begin end_) ≫= fun row =>
    block_interpolation_1d (offset2 gd row) (offset2 gd (<[a := end_ !!! a]> row)) (stride * product (drop (S a) gd)) linear.

Definition block_interpolation (gd dims begin end_ : list nat) (stride : nat) (linear : bool) : list visit :=
  seq 0 (length dims) ≫= box_pass gd dims begin end_ stride linear.

(** The extents of the block at [begin], and its last index. *)
Definition block_dims (gd : list nat) (block_size : nat) (begin : list nat) : list nat :=
  zip_with (fun g b => if g <? b + block_size then g - b else block_size) gd begin.

Definition interp_end_idx (begin bd : list nat) : list nat := zip_with (fun b d => b + (d - 1)) begin bd.

(** The visits of a block: its first value, and the levels. *)
Definition block_visits (gd dims : list nat) (block_size : nat) (linear : bool) (place : nat) (begin : list nat) (level : nat)
    : list visit :=
  {| v_idx := place; v_src := []; v_fun := fun _ => 0%Z |}
    :: all_visits (fun level => block_interpolation gd dims begin (interp_end_idx begin (block_dims gd block_size begin))
                                  (2 ^ (level - 1)) linear) level.

(** ** Lines *)

(** Within a block, the visits are those of the interpolation in another order. *)
Lemma block_perm begin end_ stride linear :
  block_interpolation_1d begin end_ stride linear
  ≡ₚ Levels.block_interpolation_1d begin end_ stride linear.
Proof.
  unfold block_interpolation_1d, Levels.block_interpolation_1d.
  set (n := _ + 1). destruct (Nat.leb_spec n 1) as [Hn | Hn]; [done |].
  destruct (linear || (n <? 5)) eqn:El; [done |]. apply orb_false_iff in El as [_ El%Nat.ltb_ge].
  pose proof (loop2_end n 3 (n - 3) ltac:(lia) ltac:(lia)) as Hend. set (len := length _) in *.
  pose proof (Nat.div_mod_eq n 2) as E. pose proof (Nat.mod_upper_bound n 2).
  rewrite Permutation_app_swap_app. apply Permutation_app_head, Permutation_app_head.
  destruct (Nat.eqb_spec (n mod 2) 0) as [E0 | E0].
  - replace (3 + 2 * len) with (n - 3) by lia. cbn [app].
    by replace (begin + (n - 3) * stride + 2 * stride) with (begin + (n - 1) * stride) by nia.
  - by replace (3 + 2 * len) with (n - 2) by lia.
Qed.

(** ** Offsets *)

Lemma offset2_rank gd : forall idx, length idx = length gd -> offset2 gd idx = dot idx (weights gd).
Proof.
  induction gd as [| g gd IH] using rev_ind; intros idx Hl; [by destruct idx |].
  destruct idx as [| i idx _] using rev_ind; [rewrite length_app in Hl; simpl in Hl; lia |].
  rewrite !length_app in Hl. simpl in Hl. unfold offset2 in *. rewrite zip_with_app by lia. rewrite foldl_app. cbn [zip_with foldl].
  rewrite IH, rank_snoc by lia. done.
Qed.

Lemma weights_product gd : forall a, a < length gd -> weights gd !!! a = product (drop (S a) gd).
Proof.
  induction gd as [| g gd IH]; intros [| a] Ha; simpl in *; [lia.. | done |]. apply IH. lia.
Qed.

Lemma sequence_spec N direction dims : sequence_of N direction = Some dims -> dims ≡ₚ seq 0 N \/ N = 3 /\ dims = [].
Proof.
  intros E. assert (forall l : list nat, l ∈ Grid.dimension_sequences N -> l ≡ₚ seq 0 N) as H by (intros l; apply Grid.sequences_spec).
  destruct N as [| [| [| [| [| N]]]]]; try discriminate E; cbn [sequence_of] in E; apply (inj Some) in E as <-.
  - left. done.
  - left. destruct (_ =? _)%Z; apply H; vm_compute; set_solver.
  - destruct (0 <=? direction)%Z; [| by right]. destruct (Z.to_nat direction) as [| [| [| [| [| [| k]]]]]];
      [left; apply H; vm_compute; set_solver.. | by right].
  - left. done.
Qed.

Lemma bind_perm {A B C} (f : A -> B) (g : A -> list C) (h : B -> list C) l l' :
  f <$> l ≡ₚ l' -> (forall x, x ∈ l -> g x ≡ₚ h (f x)) -> l ≫= g ≡ₚ l' ≫= h.
Proof.
  intros <- H. rewrite Grid.bind_fmap. induction l as [| x l IH]; [done |]. rewrite !bind_cons.
  rewrite (H x) by (by left). by rewrite IH by (intros; apply H; by right).
Qed.

(** ** A block *)

Section block.

(** The block at [b], of extents [bd], lies in the array of extents [gd]; its loops start at its
    first place. *)
Variables (gd dims b bd : list nat) (linear : bool).
Notation N := (length gd).
Hypothesis Hgd : Forall (fun g => 0 < g) gd.
Hypothesis Hdims : dims ≡ₚ seq 0 N.
Hypothesis Hlb : length b = N.
Hypothesis Hlbd : length bd = N.
Hypothesis Hfit : forall m, m < N -> 0 < bd !!! m /\ b !!! m + bd !!! m <= gd !!! m.
Hypothesis Hstart : forall m step, m < N -> loop_start N m step (b !!! m) = b !!! m.

Notation e := (interp_end_idx b bd).
Notation o := (weights gd).
Notation pbd := (permute dims bd).
Notation zeros := (replicate N 0).
Notation base := (dot b o).

Lemma end_at m : m < N -> e !!! m = b !!! m + (bd !!! m - 1).
Proof.
  intros Hm. apply list_lookup_total_correct. unfold interp_end_idx.
  by rewrite lookup_zip_with, (at_lt b m), (at_lt bd m) by lia.
Qed.

Lemma dims_length : length dims = N.
Proof. by rewrite Hdims, length_seq. Qed.

Lemma dims_at p : p < N -> dims !! p = Some (dims !!! p) /\ dims !!! p < N.
Proof.
  intros Hp. pose proof (at_lt dims p ltac:(by rewrite dims_length)) as H. split; [done |].
  apply (Grid.dims_lt N dims Hdims). by eapply list_elem_of_lookup_2.
Qed.

Lemma dims_before p j m : dims !! j = Some m -> m ∈ take p dims <-> j < p.
Proof.
  intros Hj. rewrite list_elem_of_lookup. split.
  - intros [i Hi]. apply lookup_take_Some in Hi as [Hi Hlt].
    assert (NoDup dims) as Hn by (rewrite Hdims; apply NoDup_seq). by rewrite <- (NoDup_lookup _ _ _ _ Hn Hi Hj).
  - intros Hlt. exists j. by rewrite lookup_take_lt.
Qed.

Lemma step_at (s p j m : nat) : dims !! j = Some m ->
  (if bool_decide (m ∈ take p dims) then s else 2 * s) = if j <? p then s else 2 * s.
Proof. intros Hj. pose proof (dims_before p j m Hj). destruct (Nat.ltb_spec j p); case_bool_decide; (done || exfalso; naive_solver lia). Qed.

Lemma dims_position m : m < N -> exists j, j < N /\ dims !! j = Some m /\ forall p, p < N -> m <> dims !!! p <-> j <> p.
Proof.
  intros Hm. assert (m ∈ dims) as [j Hj]%list_elem_of_lookup by (rewrite Hdims, elem_of_seq; lia).
  exists j. pose proof (lookup_lt_Some _ _ _ Hj) as Hlt. rewrite dims_length in Hlt. split_and!; [done | done |].
  intros p Hp. destruct (dims_at p Hp) as [Ep _]. split; intros Hne ->.
  - apply Hne. by apply list_lookup_total_correct in Hj.
  - apply Hne. assert (NoDup dims) as Hn by (rewrite Hdims; apply NoDup_seq). by apply (NoDup_lookup _ _ _ _ Hn Hj Ep).
Qed.

Lemma box_row s p row : 0 < s -> p < N ->
  row ∈ nest (box_axes dims s p b e) <->
  length row = N /\ row !!! (dims !!! p) = b !!! (dims !!! p) /\ forall m, m < N -> m <> dims !!! p ->
    row !!! m <= e !!! m /\ exists k, row !!! m = b !!! m + k * (if bool_decide (m ∈ take p dims) then s else 2 * s).
Proof.
  intros Hs Hp. assert (length e = N) as Hle by (unfold interp_end_idx; rewrite length_zip_with; lia).
  assert (length (box_axes dims s p b e) = N) as Hla by (unfold box_axes; rewrite length_imap, length_zip_with; lia).
  assert (forall m, m < N -> box_axes dims s p b e !! m = Some (if m =? dims !!! p then [b !!! m]
    else loop_to (S (e !!! m)) (if bool_decide (m ∈ take p dims) then s else 2 * s) (b !!! m) (e !!! m))) as Hax.
  { intros m Hm. unfold box_axes. rewrite list_lookup_imap, lookup_zip_with, (at_lt b m), (at_lt e m) by lia.
    cbn. by rewrite Hlb, Hstart. }
  assert (forall m x, m < N -> x ∈ loop_to (S (e !!! m)) (if bool_decide (m ∈ take p dims) then s else 2 * s) (b !!! m) (e !!! m)
    <-> x <= e !!! m /\ exists k, x = b !!! m + k * (if bool_decide (m ∈ take p dims) then s else 2 * s)) as Hx.
  { intros m x Hm. apply loop_to_elem; case_bool_decide; nia. }
  rewrite nest_elem, Forall2_same_length_lookup, Hla. destruct (dims_at p Hp) as [_ Ha]. split; intros [Hl H].
  - split; [done |]. split.
    + specialize (H (dims !!! p) _ _ (at_lt row (dims !!! p) ltac:(lia)) (Hax (dims !!! p) Ha)). rewrite Nat.eqb_refl in H.
      by apply list_elem_of_singleton in H.
    + intros m Hm Hne. specialize (H m _ _ (at_lt row m ltac:(lia)) (Hax m Hm)).
      rewrite (proj2 (Nat.eqb_neq m (dims !!! p)) Hne) in H. by apply Hx.
  - split; [done |]. destruct H as [Ep H]. intros m x a Ex Ea. pose proof (lookup_lt_Some _ _ _ Ex) as Hm. rewrite Hl in Hm.
    rewrite Hax in Ea by done. injection Ea as <-. apply list_lookup_total_correct in Ex as <-.
    destruct (Nat.eqb_spec m (dims !!! p)) as [-> | Hne]; [by apply list_elem_of_singleton |]. apply Hx; auto.
Qed.

(** The coordinates in the block, in the order of the sequence. *)
Definition local_row (row : list nat) : list nat := permute dims (zip_with Nat.sub row b).

Lemma local_at row j m : length row = N -> m < N -> dims !! j = Some m -> local_row row !!! j = row !!! m - b !!! m.
Proof.
  intros Hl Hm Hj. unfold local_row. rewrite (Grid.permute_at _ _ j m Hj).
  apply list_lookup_total_correct. by rewrite lookup_zip_with, (at_lt row m), (at_lt b m) by lia.
Qed.

Lemma zeros_corner s h : 0 < s -> 0 < h -> Grid.corner pbd s h zeros.
Proof.
  intros Hs Hh. assert (length pbd = N) as Hlp by apply (Grid.permute_length N dims Hdims). split.
  - rewrite <- Hlp. apply Grid.zeros_lt. rewrite (Grid.permute_perm N dims Hdims bd Hlbd).
    apply Grid.Forall_at. rewrite Hlbd. intros m Hm. by apply Hfit.
  - apply Forall_replicate, Nat.divide_0_r.
Qed.

Lemma pbd_at j m : dims !! j = Some m -> pbd !!! j = bd !!! m.
Proof. apply Grid.permute_at. Qed.

Lemma local_rows s h p : 0 < s -> 0 < h -> Forall (fun d => d <= s * (2 * h)) bd -> p < N ->
  local_row <$> nest (box_axes dims s p b e) ≡ₚ nest (Grid.pass_axes s p zeros (Grid.end_idx pbd (s * (2 * h)) zeros)).
Proof.
  intros Hs Hh Hbig Hp. pose proof (Grid.permute_length N dims Hdims bd) as Hlp.
  pose proof (Grid.permute_length N dims Hdims o) as Hlpo.
  assert (forall row, row ∈ nest (Grid.pass_axes s p zeros (Grid.end_idx pbd (s * (2 * h)) zeros)) <->
    length row = N /\ row !!! p = 0 /\ forall j, j < N -> j <> p ->
      Nat.divide (if j <? p then s else 2 * s) (row !!! j) /\ row !!! j < pbd !!! j) as HG.
  { intros row. rewrite (Grid.row_elem pbd (permute dims o) s h Hs Hh ltac:(congruence) zeros p row (zeros_corner s h Hs Hh)) by lia.
    rewrite Hlp, lookup_total_replicate_2 by done. split; intros (H1 & H2 & H3); split_and!; try done; intros j Hj Hne;
      destruct (H3 j Hj Hne) as [H4 H5]; [by destruct H5 |]. rewrite lookup_total_replicate_2 by done.
    split_and!; [done | done | | by right]. rewrite Grid.Forall_at in Hbig.
    destruct (dims_at j Hj) as [Ej Hm]. rewrite (pbd_at j _ Ej) in H5. specialize (Hbig (dims !!! j) ltac:(lia)). lia. }
  assert (forall row m, row ∈ nest (box_axes dims s p b e) -> m < N -> b !!! m <= row !!! m) as Hge.
  { intros row m (_ & E & H)%box_row Hm; [| done..]. destruct (decide (m = dims !!! p)) as [-> | Hne]; [lia |].
    destruct (H m Hm Hne) as [_ [k ->]]. lia. }
  apply NoDup_Permutation.
  - apply NoDup_fmap_2_strong.
    + intros r1 r2 H1 H2 E. pose proof (fun m => Hge r1 m H1) as G1. pose proof (fun m => Hge r2 m H2) as G2.
      apply box_row in H1 as (L1 & _), H2 as (L2 & _); [| done..]. apply list_eq_at; [congruence |]. rewrite L2. intros m Hm.
      destruct (dims_position m Hm) as (j & _ & Ej & _). specialize (G1 m Hm). specialize (G2 m Hm).
      pose proof (local_at r1 j m L1 Hm Ej) as A1. pose proof (local_at r2 j m L2 Hm Ej) as A2. rewrite E in A1. lia.
    + apply nest_NoDup, Forall_lookup. intros m a Ha. unfold box_axes in Ha. rewrite list_lookup_imap in Ha.
      apply fmap_Some in Ha as (be & _ & ->). destruct (m =? _); [apply NoDup_singleton |].
      apply loop_to_NoDup; [case_bool_decide; lia | unfold loop_start; repeat case_match; case_bool_decide; nia].
  - apply nest_NoDup. unfold Grid.pass_axes. apply Forall_lookup. intros m a Ha.
    rewrite list_lookup_imap in Ha. apply fmap_Some in Ha as (be & _ & ->).
    destruct (m =? p); [apply NoDup_singleton |]. apply Grid.axis_NoDup. destruct (m <? p); lia.
  - intros row'. rewrite list_elem_of_fmap, HG. split.
    + intros (row & -> & (Hl & Ep & H)%box_row); [| done..]. destruct (dims_at p Hp) as [Edp Ha]. split_and!.
      * apply (Grid.permute_length N dims Hdims).
      * rewrite (local_at row p _ Hl Ha Edp). lia.
      * intros j Hj Hne. destruct (dims_at j Hj) as [Ej Hm]. rewrite (local_at row j _ Hl Hm Ej), (pbd_at j _ Ej).
        destruct (H (dims !!! j) Hm) as [Hle [k Hk]].
        { intros E. apply Hne. assert (NoDup dims) as Hn by (rewrite Hdims; apply NoDup_seq). rewrite E in Ej.
          by apply (NoDup_lookup _ _ _ _ Hn Ej Edp). }
        rewrite end_at in Hle by done. destruct (Hfit _ Hm) as [Hb0 _]. rewrite (step_at s p j _ Ej) in Hk. split; [exists k |]; lia.
    + intros (Hl & Ep & H). destruct (Grid.permute_surj N dims Hdims row' Hl) as (c & Hc & <-).
      set (row := zip_with Nat.add b c). assert (length row = N) as Hlr by (unfold row; rewrite length_zip_with; lia).
      assert (forall m, m < N -> row !!! m = b !!! m + c !!! m) as Er.
      { intros m Hm. apply list_lookup_total_correct. unfold row. by rewrite lookup_zip_with, (at_lt b m), (at_lt c m) by lia. }
      exists row. split.
      * apply list_eq_at; [unfold local_row; by rewrite !(Grid.permute_length N dims Hdims) |].
        unfold local_row at 1. rewrite (Grid.permute_length N dims Hdims). intros j Hj. destruct (dims_at j Hj) as [Ej Hm].
        rewrite (local_at row j _ Hlr Hm Ej), (Grid.permute_at _ _ j _ Ej), Er by done. lia.
      * apply box_row; [done.. |]. destruct (dims_at p Hp) as [Edp Ha]. split_and!; [done | |].
        { rewrite Er by done. rewrite (Grid.permute_at _ _ p _ Edp) in Ep. lia. }
        intros m Hm Hne. destruct (dims_position m Hm) as (j & Hj & Ej & Hjp). apply (Hjp p Hp) in Hne.
        destruct (H j Hj Hne) as [[k Hk] Hlt]. rewrite (Grid.permute_at _ _ j m Ej) in Hk, Hlt. rewrite (pbd_at j m Ej) in Hlt.
        rewrite end_at, Er by done. split; [lia |]. exists k. by rewrite (step_at s p j m Ej), Hk.
Qed.

(** A pass is that of the grid of the block, in another order. *)
Lemma pass_perm s h p : 0 < s -> 0 < h -> Forall (fun d => d <= s * (2 * h)) bd -> p < N ->
  box_pass gd dims b e s linear p
  ≡ₚ pass_from base zeros (Grid.end_idx pbd (s * (2 * h)) zeros) (permute dims o) s linear p.
Proof.
  intros Hs Hh Hbig Hp. unfold box_pass, pass_from. apply (bind_perm local_row); [by apply local_rows |].
  intros row (Hl & Ep & H)%box_row; [| done..]. destruct (dims_at p Hp) as [Edp Ha]. set (a := dims !!! p) in *.
  assert (forall m, m < N -> b !!! m <= row !!! m) as Hge.
  { intros m Hm. destruct (decide (m = a)) as [-> | Hne]; [lia |]. destruct (H m Hm Hne) as [_ [k ->]]. lia. }
  assert (dot row o = base + dot (local_row row) (permute dims o)) as Er.
  { unfold local_row. rewrite (Grid.permute_dot N dims Hdims) by (rewrite ?length_zip_with, ?length_weights; lia).
    rewrite <- dot_add by (rewrite length_zip_with; lia). f_equal. apply list_eq_at; [rewrite !length_zip_with; lia |].
    rewrite !length_zip_with. intros m Hm. symmetry. apply list_lookup_total_correct.
    rewrite !lookup_zip_with, (at_lt b m), (at_lt row m) by lia. cbn. f_equal. specialize (Hge m ltac:(lia)). lia. }
  rewrite offset2_rank by done. rewrite offset2_rank by (by rewrite length_insert).
  pose proof (dot_insert o row a (row !!! a) (o !!! a) (e !!! a) (at_lt row a ltac:(lia))
    (at_lt o a ltac:(rewrite length_weights; lia))) as Ei.
  rewrite block_perm, <- weights_product, Er by done. rewrite (Grid.permute_at dims o p a Edp).
  pose proof (Grid.permute_length N dims Hdims bd) as Hlp.
  destruct (Grid.ends_at pbd (permute dims o) s h Hs Hh ltac:(by rewrite !(Grid.permute_length N dims Hdims)) zeros p (zeros_corner s h Hs Hh) ltac:(lia)) as [_ Ee].
  rewrite lookup_total_replicate_2, (pbd_at p a Edp) in Ee by done. rewrite lookup_total_replicate_2, Ee by done.
  rewrite Grid.Forall_at in Hbig. specialize (Hbig a ltac:(lia)). destruct (Hfit a Ha) as [Hb0 _].
  rewrite Ep, (end_at a Ha), Er in Ei.
  replace (dot (<[a := e !!! a]> row) o) with (base + dot (local_row row) (permute dims o) + (Nat.min (0 + s * (2 * h)) (bd !!! a - 1) - 0) * o !!! a); [done |].
  replace (Nat.min (0 + s * (2 * h)) (bd !!! a - 1) - 0) with (bd !!! a - 1) by lia. rewrite (end_at a Ha), Nat.mul_add_distr_r in *. lia.
Qed.

Lemma box_inj c c' : Forall2 lt c bd -> Forall2 lt c' bd -> dot c o = dot c' o -> c = c'.
Proof.
  assert (forall x, Forall2 lt x bd -> Forall2 lt x gd) as H.
  { intros x [Hl Hx]%Forall2_at. apply Forall2_at. split; [lia |]. intros m Hm. specialize (Hx m ltac:(lia)).
    destruct (Hfit m Hm). lia. }
  intros Hc Hc'. apply rank_inj; auto.
Qed.

(** A level of the block. *)
Lemma box_level l : let vs := block_interpolation gd dims b e (2 ^ l) linear in
  NoDup (v_idx <$> vs) /\
  (forall i, i ∈ v_idx <$> vs <-> Grid.inside bd o base i /\ Grid.place_on bd o base l i /\ ~ Grid.place_on bd o base (S l) i) /\
  forall known, (forall i, Grid.inside bd o base i -> Grid.place_on bd o base (S l) i -> i ∈ known) -> causal known vs.
Proof.
  assert (0 < 2 ^ l) as Hs by (apply Nat.neq_0_lt_0, Nat.pow_nonzero; lia). set (h := S (sum_list bd)).
  assert (Forall (fun d => d <= 2 ^ l * (2 * h)) bd) as Hbig.
  { apply list.Forall_forall. intros d Hd. assert (d <= sum_list bd) as Hle.
    { clear -Hd. induction Hd; simpl; lia. }
    unfold h. nia. }
  pose proof (zeros_corner (2 ^ l) h Hs ltac:(lia)) as Hz. pose proof (Grid.permute_length N dims Hdims bd) as Hlp.
  assert (forall b', Grid.corner pbd (2 ^ l) h b' -> b' = zeros) as Hall.
  { intros b' [[Hl Hlt]%Forall2_at Hd]. apply list_eq_at; [rewrite length_replicate; lia |]. rewrite length_replicate.
    intros m Hm. rewrite lookup_total_replicate_2 by done. rewrite Grid.Forall_at in Hd, Hbig. specialize (Hlt m ltac:(lia)).
    destruct (dims_at m Hm) as [Em Hdm]. rewrite (pbd_at m _ Em) in Hlt. specialize (Hbig _ ltac:(rewrite Hlbd; exact Hdm)).
    destruct (Hd m ltac:(lia)) as [[| k] Hk]; [done |]. rewrite Nat.mul_succ_l in Hk. lia. }
  unfold block_interpolation. rewrite dims_length, <- Hlbd.
  rewrite <- (app_nil_r (seq 0 _ ≫= _)). change (_ ++ []) with ([zeros] ≫= fun b' => seq 0 (length bd) ≫= box_pass gd dims b e (2 ^ l) linear).
  apply (Grid.blocks_grid bd o dims base ltac:(by rewrite Hlbd) ltac:(by rewrite length_weights) (weights_pos gd Hgd) box_inj
    linear l h [zeros] (fun _ => box_pass gd dims b e (2 ^ l) linear)).
  - lia.
  - apply NoDup_singleton.
  - intros b'. rewrite list_elem_of_singleton. split; [by intros -> | apply Hall].
  - intros k b1 b2 E1 ->%list_elem_of_singleton _ Hne. apply list_elem_of_lookup_2, list_elem_of_singleton in E1. done.
  - intros b' p ->%Hall Hp. apply pass_perm; [done | lia | done | lia].
Qed.

(** The block visits its places, each once, and reads what it visited. *)
Lemma block_once level : Forall (fun d => d <= 2 ^ level) bd ->
  let vs := {| v_idx := base; v_src := []; v_fun := fun _ => 0%Z |}
    :: all_visits (fun level => block_interpolation gd dims b e (2 ^ (level - 1)) linear) level in
  NoDup (v_idx <$> vs) /\ (forall i, i ∈ v_idx <$> vs <-> Grid.inside bd o base i) /\ causal [] vs.
Proof.
  intros Hl vs.
  destruct (Grid.box_order bd o base ltac:(apply Grid.Forall_at; rewrite Hlbd; intros m Hm; by apply Hfit)
    ltac:(by rewrite length_weights) box_inj
    (fun level => block_interpolation gd dims b e (2 ^ (level - 1)) linear) level Hl) as (H1 & H2 & H3).
  { intros l. replace (S l - 1) with l by lia. apply box_level. }
  unfold vs. rewrite fmap_cons, all_visits_idx. split_and!; [done | done |]. split; [constructor | exact H3].
Qed.

End block.

(** ** All the blocks *)

Section blocks.

Variables (gd : list nat) (bs : nat).
Notation N := (length gd).
Hypothesis Hbs : 0 < bs.

Definition corner (b : list nat) : Prop := Forall2 lt b gd /\ Forall (Nat.divide bs) b.

Lemma block_dims_at b m : corner b -> m < N ->
  length (block_dims gd bs b) = N /\ block_dims gd bs b !!! m = Nat.min (gd !!! m - b !!! m) bs /\ b !!! m < gd !!! m.
Proof.
  intros [[Hl H]%Forall2_at _] Hm. unfold block_dims. split_and!; [rewrite length_zip_with; lia | | by apply H].
  apply list_lookup_total_correct. rewrite lookup_zip_with, (at_lt gd m), (at_lt b m) by lia. cbn [mbind option_bind]. f_equal. specialize (H m Hm).
  destruct (Nat.ltb_spec (gd !!! m) (b !!! m + bs)); lia.
Qed.

Lemma block_dims_length b : corner b -> length (block_dims gd bs b) = N.
Proof. intros [Hl%Forall2_length _]. unfold block_dims. rewrite length_zip_with. lia. Qed.

Lemma block_fits b m : corner b -> m < N ->
  0 < block_dims gd bs b !!! m /\ b !!! m + block_dims gd bs b !!! m <= gd !!! m.
Proof. intros Hc Hm. destruct (block_dims_at b m Hc Hm) as (_ & -> & H). lia. Qed.

(** A place of a block: its index in the array, and the only block it is in. *)
Lemma inside_index b i : corner b -> Grid.inside (block_dims gd bs b) (weights gd) (dot b (weights gd)) i <->
  exists g, Forall2 lt g gd /\ dot g (weights gd) = i /\ forall m, m < N -> b !!! m = g !!! m / bs * bs.
Proof.
  intros Hc. pose proof Hc as [[Hl Hb]%Forall2_at Hd]. rewrite Grid.Forall_at in Hd. pose proof (block_dims_length b Hc) as Hld.
  split.
  - intros (c & [Hlc H]%Forall2_at & <-). exists (zip_with Nat.add b c).
    assert (forall m, m < N -> zip_with Nat.add b c !!! m = b !!! m + c !!! m) as E.
    { intros m Hm. apply list_lookup_total_correct. by rewrite lookup_zip_with, (at_lt b m), (at_lt c m) by lia. }
    split_and!.
    + apply Forall2_at. rewrite length_zip_with. split; [lia |]. intros m Hm. rewrite E by done.
      specialize (H m ltac:(lia)). destruct (block_fits b m Hc Hm). lia.
    + apply dot_add. lia.
    + intros m Hm. rewrite E by done. destruct (Hd m ltac:(lia)) as [k ->]. rewrite Nat.add_comm, Nat.div_add by lia.
      rewrite Nat.div_small; [done |]. specialize (H m ltac:(lia)). destruct (block_dims_at b m Hc Hm) as (_ & E' & _). lia.
  - intros (g & Hg & <- & Hm). pose proof Hg as [Hlg Hlt]%Forall2_at. exists (zip_with Nat.sub g b).
    assert (forall m, m < N -> b !!! m <= g !!! m < b !!! m + bs) as Hin.
    { intros m Hm'. rewrite Hm by done. pose proof (Nat.div_mod_eq (g !!! m) bs). pose proof (Nat.mod_upper_bound (g !!! m) bs). lia. }
    split.
    + apply Forall2_at. rewrite length_zip_with. split; [lia |]. rewrite Hld. intros m Hm'.
      assert (zip_with Nat.sub g b !!! m = g !!! m - b !!! m) as ->.
      { apply list_lookup_total_correct. by rewrite lookup_zip_with, (at_lt g m), (at_lt b m) by lia. }
      destruct (block_dims_at b m Hc Hm') as (_ & -> & _). specialize (Hin m Hm'). specialize (Hlt m Hm'). lia.
    + rewrite <- dot_add by (rewrite length_zip_with; lia). f_equal. apply list_eq_at; [rewrite !length_zip_with; lia |].
      intros m Hm'. apply list_lookup_total_correct. rewrite !lookup_zip_with, (at_lt g m), (at_lt b m) by lia. cbn. f_equal.
      specialize (Hin m ltac:(lia)). lia.
Qed.

Lemma index_corner g : Forall2 lt g gd -> exists b, corner b /\ forall m, m < N -> b !!! m = g !!! m / bs * bs.
Proof.
  intros [Hl H]%Forall2_at. exists ((fun x => x / bs * bs) <$> g).
  assert (forall m, m < N -> ((fun x => x / bs * bs) <$> g) !!! m = g !!! m / bs * bs) as E.
  { intros m Hm. apply list_lookup_total_correct. by rewrite list_lookup_fmap, (at_lt g m) by lia. }
  split; [split |]; [| | done].
  - apply Forall2_at. rewrite length_fmap. split; [done |]. intros m Hm. rewrite E by done. specialize (H m Hm).
    pose proof (Nat.Div0.mul_div_le (g !!! m) bs). lia.
  - apply Forall_fmap, list.Forall_forall. intros x _. by eexists.
Qed.

(** Blocks that visit their places, each once, visit the array, each place once. *)
Lemma blocks_cover {A} (gi : A -> list nat) blocks (f : A -> list nat) :
  NoDup (gi <$> blocks) -> (forall b, b ∈ gi <$> blocks <-> corner b) ->
  Forall (fun x => NoDup (f x) /\
    forall i, i ∈ f x <-> Grid.inside (block_dims gd bs (gi x)) (weights gd) (dot (gi x) (weights gd)) i) blocks ->
  blocks ≫= f ≡ₚ seq 0 (product gd).
Proof.
  intros Hnd Hc Hf. rewrite list.Forall_forall in Hf.
  assert (forall x, x ∈ blocks -> corner (gi x)) as Hcx by (intros x Hx; apply Hc; by apply list_elem_of_fmap_2).
  apply NoDup_Permutation; [| apply NoDup_seq |].
  - apply NoDup_bind; [| intros x Hx; by apply Hf | by apply NoDup_fmap_1 in Hnd].
    intros x y i Hx Hy Hi Hi'. apply (Hf x Hx), inside_index in Hi as (g & Hg & Eg & E); [| by apply Hcx].
    apply (Hf y Hy), inside_index in Hi' as (g' & Hg' & <- & E'); [| by apply Hcx].
    apply rank_inj in Eg as ->; [| done..]. assert (gi x = gi y) as Eb.
    { destruct (Hcx x Hx) as [H%Forall2_length _], (Hcx y Hy) as [H'%Forall2_length _].
      apply list_eq_at; [congruence |]. rewrite H'. intros m Hm. by rewrite E, E'. }
    apply list_elem_of_lookup in Hx as [k Hk], Hy as [k' Hk'].
    assert (k = k') as ->; [| congruence].
    apply (NoDup_lookup (gi <$> blocks) _ _ (gi x) Hnd); rewrite list_lookup_fmap; [by rewrite Hk | by rewrite Hk', Eb].
  - intros i. rewrite list_elem_of_bind, elem_of_seq. split.
    + intros (x & Hi & Hx). apply (Hf x Hx), inside_index in Hi as (g & Hg & <- & _); [| by apply Hcx].
      pose proof (Iterator.rank_lt gd g Hg). lia.
    + intros [_ Hi]. destruct (Iterator.rank_surj gd i Hi) as (g & Hg & <-). destruct (index_corner g Hg) as (b & Hb & E).
      apply Hc, list_elem_of_fmap in Hb as (x & -> & Hx). exists x. split; [| done].
      apply (Hf x Hx), inside_index; [by apply Hcx |]. by exists g.
Qed.

End blocks.

End Box.
