(* ===== verification/SzInterp.v ===== *)
(** * SzInterp: prediction by interpolation

    Models the class of [SZ3/decomposition/InterpolationDecomposition.hpp] at [T = double], for
    [N] dimensions.  With [N = 1] this is what the default configuration of SZ3 comes to for a
    chunk of samples.

    Level after level, with a stride that is halved each time, the values between those known
    are predicted from these.  The levels visit every value exactly once and read only values
    that are reconstructed already; so the decompressor repeats the predictions and gets the
    values that replaced the data.

    [log2] of the C library is a variable. *)

From Stdlib Require Import ZArith Lia.
From stdpp Require Import sets.
From S2P Require Import Prelude Bytes Float64 SzBytes Quantizer SzConfig SzPipeline SzDecomp.
From S2P Require Import SzIterator SzLevels SzGrid.

Module InterpolationDecomposition.
Import Interpolators Levels Grid SzConfig.
Import Iterator (product).
#[local] Existing Instance LinearQuantizer.linear_quantizer.
#[local] Open Scope nat_scope.

(** The members that [save] stores, the configuration and the quantizer. *)
Record Decomposition := mk {
  conf : Config;
  global_dimensions : list Z;
  blocksize : Z;
  interpolator_id : Z;
  direction_sequence_id : Z;
  quantizer : Quantizer
}.

Definition set_quantizer (d : Decomposition) (q : Quantizer) : Decomposition :=
  mk (conf d) (global_dimensions d) (blocksize d) (interpolator_id d) (direction_sequence_id d) q.

(** The extents. *)
Definition extents (l : list Z) : list nat := Z.to_nat <$> l.

Lemma length_extents l : length (extents l) = length l.
Proof. apply length_fmap. Qed.

Section decomposition.

Variable N : nat.
(** [log2] of the C library; the contents of [dec_data] before it is written. *)
Variable log2 : Z -> Z.
Variable garbage : nat -> Z.

(** [interpolation_level], which is an [int], in the loop of [init]. *)
Definition raise_level (interpolation_level : Z) (dim : Z) : Z :=
  let c := f64_ceil (log2 (f64_of_Z dim)) in
  if f64_ltb (f64_of_Z interpolation_level) c then i32 (u32 (f64_to_i64 c)) else interpolation_level.

(** [dimension_sequences[direction]]; the function for one dimension does not look. *)
Definition sequence_of (d : Decomposition) : option (list nat) :=
  if N =? 1 then Some [0]
  else _ ← assert (0 <=? direction_sequence_id d)%Z; dimension_sequences N !! Z.to_nat (direction_sequence_id d).

(** [init]: the number of levels, and the sequence of dimensions that is used; [None] when an
    assertion fails, when the level does not fit the shift [1U << (level - 1)], for blocks or
    extents of size 0, and for an interpolator or a sequence that the tables do not have. *)
Definition init (d : Decomposition) : option (nat * list nat) :=
  _ ← assert (blocksize d mod 2 =? 0)%Z;
  let interpolation_level := foldl raise_level (-1)%Z (global_dimensions d) in
  _ ← assert ((0 <=? interpolation_level) && (interpolation_level <=? 32) && (0 <? blocksize d)
              && (0 <=? interpolator_id d) && (interpolator_id d <? 2))%Z;
  _ ← assert (forallb (fun g => 0 <? g)%Z (global_dimensions d));
  sequence ← sequence_of d;
  Some (Z.to_nat interpolation_level, sequence).

(** The visits of a level of this decomposition. *)
Definition visits_of (d : Decomposition) (sequence : list nat) (level : nat) : list visit :=
  level_visits (extents (global_dimensions d)) sequence (Z.to_nat (blocksize d)) (interpolator_id d =? 0)%Z level.

(** The members that [compress] takes from the configuration. *)
Definition configure (d : Decomposition) : option Decomposition :=
  _ ← assert (N <=? length (dims (conf d)));
  Some (mk (conf d) (take N (dims (conf d))) (u32 (interpBlockSize (conf d))) (interpAlgo (conf d))
    (interpDirection (conf d)) (quantizer d)).

Definition compress (d : Decomposition) (data : list Z) : option (list Z * list Z * Decomposition) :=
  d ← configure d;
  '(interpolation_level, sequence) ← init d;
  let eb := LinearQuantizer.error_bound (quantizer d) in
  s ← quantize_visits (quantizer d) data first_visit;
  '(quant_inds, data, q) ← for_levels (compress_level (visits_of d sequence) eb) interpolation_level s;
  Some (quant_inds, data, set_quantizer d q).

Definition decompress (d : Decomposition) (quant_inds : list Z) : option (list Z) :=
  '(interpolation_level, sequence) ← init d;
  let eb := LinearQuantizer.error_bound (quantizer d) in
  let dec_data := garbage <$> seq 0 (Z.to_nat (num (conf d))) in
  s ← recover_visits (quantizer d) dec_data first_visit quant_inds;
  '(dec_data, _, _) ← for_levels (decompress_level (visits_of d sequence) eb) interpolation_level s;
  Some dec_data.

Definition save (d : Decomposition) : list Z :=
  store_array 8 (global_dimensions d) ++ le_bytes 4 (blocksize d) ++ le_bytes 4 (u32 (interpolator_id d))
    ++ le_bytes 4 (u32 (direction_sequence_id d)) ++ LinearQuantizer.save (quantizer d).

Definition load (d : Decomposition) (c : list Z) (remaining_length : Z)
    : option (Decomposition * list Z * Z) :=
  '(dims, c, rem) ← MemoryUtil.read_array_len 8 (Z.of_nat N) c remaining_length;
  '(blocksize, c, rem) ← MemoryUtil.read_var_len 4 c rem;
  '(interpolator_id, c, rem) ← MemoryUtil.read_var_len 4 c rem;
  '(direction_sequence_id, c, rem) ← MemoryUtil.read_var_len 4 c rem;
  '(q, c, rem) ← LinearQuantizer.load (quantizer d) c rem;
  Some (mk (conf d) dims blocksize (i32 interpolator_id) (i32 direction_sequence_id) q, c, rem).

End decomposition.

(** ** The law of the interface *)

Section law.

Variable N : nat.
Variable log2 : Z -> Z.
Variable garbage : nat -> Z.

(** The data the decomposition is made for: as many values as the [N] dimensions have, an even
    block size, enough levels, a fresh quantizer, and values that it is made for. *)
Record domain (d : Decomposition) (data : list Z) : Prop := {
  dm_fresh : LinearQuantizer.unpred (quantizer d) = [];
  dm_fits : LinearQuantizer.fits (quantizer d);
  dm_half : f64_leb (f64_mul (LinearQuantizer.error_bound (quantizer d)) eb_ratio)
              (LinearQuantizer.error_bound (quantizer d)) = true;
  dm_eb : is_u64 (f64_mul (LinearQuantizer.error_bound (quantizer d)) eb_ratio);
  dm_dims : length (dims (conf d)) = N /\ 0 < N /\ Forall is_u64 (dims (conf d));
  dm_size : product (extents (dims (conf d))) = length data /\ num (conf d) = Z.of_nat (length data);
  dm_dir : is_u8 (interpDirection (conf d));
  dm_run : exists d1 level sequence s, configure N d = Some d1 /\ init N log2 d1 = Some (level, sequence) /\
    Forall (fun g => g <= 2 ^ level) (extents (dims (conf d))) /\ visits_ok (quantizer d) data first_visit /\
    quantize_visits (quantizer d) data first_visit = Some s /\
    levels_ok (level_ok (visits_of d1 sequence) (LinearQuantizer.error_bound (quantizer d)))
      (compress_level (visits_of d1 sequence) (LinearQuantizer.error_bound (quantizer d))) level s
}.

(** What is saved is loaded. *)
Lemma load_decomposition e0 d tl rem :
  length (global_dimensions d) = N -> Forall is_u64 (global_dimensions d) ->
  is_u32 (blocksize d) -> is_i32 (interpolator_id d) ->
  is_i32 (direction_sequence_id d) -> LinearQuantizer.fits (quantizer d) ->
  (Z.of_nat (length (save d)) <= rem < 2 ^ 62)%Z ->
  load N e0 (save d ++ tl) rem
  = Some (mk (conf e0) (global_dimensions d) (blocksize d) (interpolator_id d) (direction_sequence_id d)
            (LinearQuantizer.mk (LinearQuantizer.unpred (quantizer d)) 0
               (LinearQuantizer.error_bound (quantizer d))
               (f64_div LinearQuantizer.f64_1 (LinearQuantizer.error_bound (quantizer d)))
               (LinearQuantizer.radius (quantizer d))), tl, rem - Z.of_nat N * 8 - 4 - 4 - 4 - 1)%Z.
Proof.
  intros Hl H1 H2 H3 H4 Hf Hrem. unfold save in Hrem. rewrite !length_app, !length_le_bytes, length_store_array in Hrem.
  unfold load, save. rewrite <- !app_assoc.
  rewrite MemoryUtil.read_array_len_le by (done || by rewrite Hl || lia). cbn [mbind option_bind].
  rewrite MemoryUtil.read_var_len_le by (done || lia). cbn [mbind option_bind].
  rewrite MemoryUtil.read_var_len_le by (apply u32_range || lia). cbn [mbind option_bind].
  rewrite MemoryUtil.read_var_len_le by (apply u32_range || lia). cbn [mbind option_bind].
  rewrite LinearQuantizer.quantizer_load_save by (done || lia). cbn [mbind option_bind].
  by rewrite !i32_u32 by done.
Qed.

Lemma init_level d level sequence : init N log2 d = Some (level, sequence) ->
  (exists h, blocksize d = 2 * Z.of_nat h /\ (0 < h)%nat)%Z /\ (0 <= interpolator_id d < 2)%Z /\
  Forall (fun g => 0 < g)%Z (global_dimensions d) /\ sequence ≡ₚ seq 0 N /\
  forall c q, init N log2 (mk c (global_dimensions d) (blocksize d) (interpolator_id d)
                             (direction_sequence_id d) q) = Some (level, sequence).
Proof.
  intros E. pose proof E as E0. unfold init in E. apply bind_Some in E as (u & Ha%assert_Some & E).
  apply bind_Some in E as (u' & Hb%assert_Some & E). apply bind_Some in E as (u'' & Hp%assert_Some & E).
  apply bind_Some in E as (sq & Hsq & [= _ ->]). to_prop. split_and!; [| lia | lia | | | by intros].
  - exists (Z.to_nat (blocksize d / 2)). pose proof (Z.div_mod (blocksize d) 2). lia.
  - apply list.Forall_forall. intros g Hg%list_elem_of_In. rewrite forallb_forall in Hp. apply Z.ltb_lt. by apply Hp.
  - unfold sequence_of in Hsq. destruct (Nat.eqb_spec N 1) as [-> | _]; [by injection Hsq as <- |].
    apply bind_Some in Hsq as (_ & _ & Hsq). by apply sequences_spec, (list_elem_of_lookup_2 _ _ _ Hsq).
Qed.

Lemma configure_all d d1 : length (dims (conf d)) = N -> configure N d = Some d1 ->
  d1 = mk (conf d) (dims (conf d)) (u32 (interpBlockSize (conf d))) (interpAlgo (conf d)) (interpDirection (conf d)) (quantizer d).
Proof.
  intros Hl E. unfold configure in E. apply bind_Some in E as (_ & _ & [= <-]). by rewrite take_ge by lia.
Qed.

Lemma compress_run d data :
  domain d data -> exists inds rs q d1 level sequence,
    compress N log2 d data = Some (inds, rs, set_quantizer d1 q) /\
    configure N d = Some d1 /\ init N log2 d1 = Some (level, sequence) /\
    run_spec (length data) (visits_of d1 sequence) (quantizer d) data level inds rs q.
Proof.
  intros [Hfresh Hfits Hhalf Heb (Hl & HN & H64) [Hsize Hnum] _ (d1 & level & sq & s & Ec & Ei & Hlev & Hok0 & E0 & Hok)].
  unfold compress. rewrite Ec. cbn [mbind option_bind]. rewrite Ei. cbn [mbind option_bind].
  pose proof (configure_all d d1 Hl Ec) as Ed1.
  destruct (init_level d1 level sq Ei) as ((h & Hb & Hh) & Hid & Hp & Hsq & Hinit).
  destruct (levels_order (extents (dims (conf d))) sq (Z.to_nat (blocksize d1)) (interpolator_id d1 =? 0)%Z)
    with (level := level) as [Hall Hc]; [| | by rewrite length_extents, Hl | exists h; lia | done |].
  { intros E%(f_equal length). rewrite length_extents, Hl in E. simpl in E. lia. }
  { rewrite Ed1 in Hp. apply Forall_fmap. eapply Forall_impl; [| exact Hp]. simpl. lia. }
  assert (visits_of d1 sq = level_visits (extents (dims (conf d))) sq (Z.to_nat (blocksize d1)) (interpolator_id d1 =? 0)%Z)
    as Ev by (unfold visits_of; assert (global_dimensions d1 = dims (conf d)) as -> by (by rewrite Ed1); done).
  destruct (run_all (length data) (visits_of d1 sq) (quantizer d) data level s eq_refl) as (inds & rs & q & Hrun); try done.
  { by rewrite Ev, <- Hsize. }
  { by rewrite Ev. }
  exists inds, rs, q, d1, level, sq. split; [| done]. destruct Hrun as (E & _).
  replace (quantizer d1) with (quantizer d) by (by rewrite Ed1).
  destruct (quantize_visits _ _ _) as [s' |]; [| done]. cbn [mbind option_bind] in *. by rewrite E.
Qed.

#[export] Program Instance interpolation : DecompositionInterface Decomposition := {
  d_compress := compress N log2;
  d_decompress := decompress N log2 garbage;
  d_radius _ := 0%Z;
  d_size_est _ := 0%Z;
  d_save d := Some (save d);
  d_load := load N;
  d_domain := domain;
  d_bound d := LinearQuantizer.radius (quantizer d);
  d_accurate d := LinearQuantizer.bounded (quantizer d);
  d_peer d e := num (conf e) = num (conf d)
}.
Next Obligation.
  intros d data Hd. destruct (compress_run d data Hd) as (inds & rs & q & d1 & level & sq & E & Ec & Ei & Hrun).
  destruct Hrun as (_ & Hq & Hr & He & Hl & Hi & Hacc & Hrec). destruct Hd as [_ _ _ _ (Hlen & HN & H64) [_ Hnum] Hdir _].
  destruct (init_level d1 level sq Ei) as (_ & Hid & _ & _ & Hinit). pose proof (configure_all d d1 Hlen Ec) as Ed1.
  exists inds, rs, (set_quantizer d1 q). split_and!; try done. eexists. split; [done |]. intros e0 tl rem Hpeer Hrem.
  eexists _, _. split.
  { apply load_decomposition; [by rewrite Ed1 | by rewrite Ed1 | rewrite Ed1; apply u32_range | unfold is_i32; simpl; lia
      | rewrite Ed1; unfold is_i32, is_u8 in *; simpl; lia | done | done]. }
  cbn [quantizer set_quantizer global_dimensions blocksize interpolator_id direction_sequence_id] in *. split.
  - assert (length (global_dimensions d1) = N) as Hg by (by rewrite Ed1). unfold save in Hrem |- *.
    cbn [global_dimensions set_quantizer quantizer] in *. rewrite !length_app, !length_le_bytes, length_store_array, LinearQuantizer.length_save in *. lia.
  - unfold decompress. rewrite Hinit. cbn [mbind option_bind quantizer LinearQuantizer.error_bound conf].
    destruct (Hrec (LinearQuantizer.mk (LinearQuantizer.unpred q) 0 (LinearQuantizer.error_bound q)
      (f64_div LinearQuantizer.f64_1 (LinearQuantizer.error_bound q)) (LinearQuantizer.radius q))
      (garbage <$> seq 0 (Z.to_nat (num (conf e0))))) as [e' Er]; try done.
    { rewrite length_fmap, length_seq, Hpeer, Hnum. lia. }
    unfold visits_of in *. cbn [global_dimensions blocksize interpolator_id]. rewrite He in Er |- *.
    destruct (recover_visits _ _ _ _) as [s |]; [| done]. cbn [mbind option_bind] in *. by rewrite Er.
Qed.

End law.

(** ** Properties *)

(** C2: data of any number of dimensions, quantized level by level, are reconstructed from what was
    saved, whatever follows it: every value is replaced by one within the error bound, also where
    a level works with half the bound, and the decompressor gets these values. *)
Theorem interp_roundtrip N log2 garbage d e0 data tl rem :
  domain N log2 d data -> num (conf e0) = num (conf d) ->
  exists inds rs d', compress N log2 d data = Some (inds, rs, d') /\
    length inds = length data /\ Forall2 (LinearQuantizer.bounded (quantizer d)) data rs /\
    (Z.of_nat (length (save d')) <= rem < 2 ^ 62 -> exists e rem',
       load N e0 (save d' ++ tl) rem = Some (e, tl, rem') /\ decompress N log2 garbage e inds = Some rs)%Z.
Proof.
  intros Hd Hp. destruct (@d_correct _ (interpolation N log2 garbage) d data Hd)
    as (inds & rs & d' & E & Hl & _ & Hacc & saved & Es & H). injection Es as <-.
  exists inds, rs, d'. split; [exact E |]. split; [exact Hl |]. split; [exact Hacc |]. intros Hrem.
  destruct (H e0 tl rem Hp Hrem) as (e & rem' & E1 & _ & E2). eauto.
Qed.

(** [log2] is precise enough for an extent, which it is rounded up for. *)
Definition precise (log2 : Z -> Z) (g : Z) : Prop :=
  f64_ceil (log2 (f64_of_Z g)) = f64_of_Z (Z.log2_up g).

Lemma log2_up_range g : (0 < g < 2 ^ 32)%Z -> (0 <= Z.log2_up g <= 32)%Z.
Proof.
  intros Hg. split; [apply Z.log2_up_nonneg |]. rewrite <- (Z.log2_up_pow2 32) by lia. apply Z.log2_up_le_mono. lia.
Qed.

Lemma small_ltb a b : (-1 <= a <= 32)%Z -> (0 <= b <= 32)%Z -> f64_ltb (f64_of_Z a) (f64_of_Z b) = (a <? b)%Z.
Proof.
  intros Ha Hb. assert (forallb (fun a => forallb (fun b => Bool.eqb (f64_ltb (f64_of_Z a) (f64_of_Z b)) (a <? b)%Z)
    (Z.of_nat <$> seq 0 33)) ((-1)%Z :: (Z.of_nat <$> seq 0 33)) = true) as H by (by vm_compute).
  rewrite forallb_forall in H. specialize (H a). rewrite forallb_forall in H. apply eqb_prop. apply H.
  - apply list_elem_of_In. destruct (decide (a = -1)%Z) as [-> |]; [left | right].
    apply list_elem_of_fmap. exists (Z.to_nat a). split; [lia |]. apply elem_of_seq. lia.
  - apply list_elem_of_In, list_elem_of_fmap. exists (Z.to_nat b). split; [lia |]. apply elem_of_seq. lia.
Qed.

(** The level that the loop of [init] ends with: the maximum of those of the extents. *)
Lemma raise_levels log2 gs : forall level, (-1 <= level <= 32)%Z ->
  Forall (fun g => 0 < g < 2 ^ 32 /\ precise log2 g)%Z gs ->
  foldl (raise_level log2) level gs = foldl (fun l g => Z.max l (Z.log2_up g)) level gs /\
  (level <= foldl (fun l g => Z.max l (Z.log2_up g)) level gs <= 32)%Z.
Proof.
  induction gs as [| g gs IH]; intros level Hl H; [split; [done | simpl; lia] |].
  apply Forall_cons_iff in H as [[Hg Hp] H]. cbn [foldl]. pose proof (log2_up_range g Hg) as Hr.
  assert (raise_level log2 level g = Z.max level (Z.log2_up g)) as ->.
  { unfold raise_level. unfold precise in Hp. cbv zeta. rewrite Hp, small_ltb by done. destruct (small_double _ Hr) as [_ ->].
    rewrite u32_id, i32_id by (unfold is_u32, is_i32; lia). destruct (Z.ltb_spec level (Z.log2_up g)); lia. }
  destruct (IH (Z.max level (Z.log2_up g))) as [E Hb]; [lia | done |]. split; [done | lia].
Qed.

Lemma max_levels gs : forall level, let l := foldl (fun l g => Z.max l (Z.log2_up g)) level gs in
  Forall (fun g => Z.log2_up g <= l)%Z gs /\ (level <= l)%Z /\ (l = level \/ Exists (fun g => l = Z.log2_up g) gs)%Z.
Proof.
  induction gs as [| g gs IH]; intros level; cbn [foldl]; [split_and!; [constructor | lia | by left] |].
  destruct (IH (Z.max level (Z.log2_up g))) as (H1 & H2 & H3). set (l := foldl _ _ gs) in *. split_and!.
  - constructor; [lia | done].
  - lia.
  - destruct H3 as [E | E]; [| right; by apply Exists_cons_tl].
    destruct (Z.max_spec level (Z.log2_up g)) as [[_ E'] | [_ E']]; [right; apply Exists_cons_hd; congruence | left; congruence].
Qed.

(** Where [log2] is precise enough to be rounded up to the right integer, [init] takes the
    least number of levels whose first stride reaches past the end in every dimension. *)
Theorem interp_levels N log2 d sequence :
  global_dimensions d <> [] -> Forall (fun g => 0 < g < 2 ^ 32 /\ precise log2 g)%Z (global_dimensions d) ->
  sequence_of N d = Some sequence ->
  (blocksize d mod 2 = 0 -> 0 < blocksize d -> 0 <= interpolator_id d < 2 ->
  exists level, init N log2 d = Some (level, sequence) /\ Forall (fun g => g <= 2 ^ Z.of_nat level) (global_dimensions d) /\
    (level = 0%nat \/ Exists (fun g => 2 ^ (Z.of_nat level - 1) < g) (global_dimensions d)))%Z.
Proof.
  intros Hne Hg Hsq Hb Hb0 Hi. unfold init.
  rewrite (assert_true (blocksize d mod 2 =? 0)%Z) by (by apply Z.eqb_eq). cbn [mbind option_bind].
  destruct (raise_levels log2 (global_dimensions d) (-1)%Z ltac:(lia) Hg) as [-> Hr].
  pose proof (max_levels (global_dimensions d) (-1)%Z) as (H1 & _ & H3). set (l := foldl _ _ _) in *.
  assert (Exists (fun g => l = Z.log2_up g) (global_dimensions d)) as Hex.
  { destruct H3 as [E | ?]; [| done]. destruct (global_dimensions d) as [| g gs]; [done |].
    apply Forall_cons_iff in H1 as [H1 _]. pose proof (Z.log2_up_nonneg g). lia. }
  assert (0 <= l)%Z as Hl0 by (apply list.Exists_exists in Hex as (g & _ & ->); apply Z.log2_up_nonneg).
  exists (Z.to_nat l). rewrite list.Forall_forall in Hg, H1.
  rewrite assert_true by (apply forallb_forall; intros g Hin%list_elem_of_In; apply Z.ltb_lt; by apply Hg).
  rewrite assert_true by (rewrite !andb_true_iff, !Z.leb_le, !Z.ltb_lt; lia).
  cbn [mbind option_bind]. rewrite Hsq. cbn [mbind option_bind]. split; [done |]. rewrite Z2Nat.id by done. split.
  - apply list.Forall_forall. intros g Hin. destruct (Z.eq_dec g 1%Z) as [-> | Hn].
    { apply (Z.pow_le_mono_r 2 0 l); lia. }
    destruct (Hg g Hin) as [Hpos _]. etrans; [apply (Z.log2_up_spec g); lia |]. apply Z.pow_le_mono_r; [lia | by apply H1].
  - apply list.Exists_exists in Hex as (g & Hin & E). destruct (Z.eq_dec g 1%Z) as [-> | Hn]; [left; by rewrite E |].
    right. apply list.Exists_exists. exists g. split; [done |]. rewrite E, Z.sub_1_r. apply Z.log2_up_spec.
    destruct (Hg g Hin). lia.
Qed.

(** ** Witnesses *)

(** [log2], rounded up. *)
Definition sample_log2 (x : Z) : Z := f64_of_Z (Z.log2_up (default 0%Z (f64_trunc x))).

(** A plane of 3 rows of 4: the numbers 1, 2, 3, 5, 8, 13 and 100, twice, with an error bound of
    0.25. *)
Definition sample : list Z :=
  [0x3ff0000000000000; 0x4000000000000000; 0x4008000000000000; 0x4014000000000000;
   0x4020000000000000; 0x402a000000000000; 0x4059000000000000; 0x3ff0000000000000;
   0x4000000000000000; 0x4008000000000000; 0x4014000000000000; 0x4020000000000000]%Z.
Definition sample_decomposition : Decomposition :=
  mk (new [3; 4]%Z) [] 0 0 0 (LinearQuantizer.mk [] 0 0x3fd0000000000000 0x4010000000000000 64).

Lemma domain_sample : domain 2 sample_log2 sample_decomposition sample.
Proof.
  split.
  - done.
  - by repeat split.
  - by vm_compute.
  - by vm_compute.
  - split_and!; [done | lia | by repeat constructor].
  - by split.
  - by vm_compute.
  - eexists _, 2, [0; 1], _. split; [done |]. split; [by vm_compute |]. split; [repeat constructor; simpl; lia |].
    split; [vm_compute; by repeat split |]. split; [vm_compute; reflexivity |]. vm_compute. by repeat split.
Qed.

Lemma interp_roundtrip_witness :
  exists inds rs d', compress 2 sample_log2 sample_decomposition sample = Some (inds, rs, d') /\
    length inds = 12 /\ Forall2 (LinearQuantizer.bounded (quantizer sample_decomposition)) sample rs /\
    (Z.of_nat (length (save d')) <= 200 < 2 ^ 62 -> exists e rem',
       load 2 (mk (new [3; 4]) [] 0 0 0 LinearQuantizer.new_default) (save d' ++ [9]) 200 = Some (e, [9], rem') /\
       decompress 2 sample_log2 (fun _ => 0) e inds = Some rs)%Z.
Proof.
  apply (interp_roundtrip 2 sample_log2 (fun _ => 0%Z) sample_decomposition
    (mk (new [3; 4]%Z) [] 0 0 0 LinearQuantizer.new_default) sample [9%Z] 200%Z); [apply domain_sample | done].
Defined.

Lemma interp_levels_witness :
  exists level, init 2 sample_log2 (mk (new [7; 20]%Z) [7; 20]%Z 32 1 1 LinearQuantizer.new_default) = Some (level, [1; 0]) /\
    Forall (fun g => g <= 2 ^ Z.of_nat level)%Z [7; 20]%Z /\
    (level = 0%nat \/ Exists (fun g => 2 ^ (Z.of_nat level - 1) < g)%Z [7; 20]%Z).
Proof.
  apply (interp_levels 2 sample_log2 (mk (new [7; 20]%Z) [7; 20]%Z 32 1 1 LinearQuantizer.new_default) [1; 0]);
    [done | repeat constructor; by vm_compute | done | done | done | done].
Defined.

End InterpolationDecomposition.
