(* ===== verification/SzBlock.v ===== *)
(** * SzBlock: the compressor that interpolates blocks on their own

    Models [SZ3/compressor/specialized/SZBlockInterpolationCompressor.hpp] for one to four
    dimensions, at [T = double].  The tuning of the default algorithm compresses a sample with it,
    to learn the size.

    A block is a prediction of its first value as 0 and levels of interpolation; no level reads
    outside its block. *)

From Stdlib Require Import ZArith Lia.
From stdpp Require Import sets.
From S2P Require Import Prelude Bytes Float64 SzBytes Quantizer SzEncoder SzConfig SzPipeline SzDecomp.
From S2P Require Import SzIterator SzLevels SzGrid SzBox SzInterp.

Module SZBlockInterpolationCompressor.
Import SzConfig (Config, dims, num, blockSize, interpAlgo, interpDirection).
Import Iterator (range, iterator, new, elements, get_global_index, place, product, weights, dot).
Import Levels (causal_app, causal_weaken).
Import InterpolationDecomposition (extents).
#[local] Open Scope nat_scope.

Section compressor.

Context {Q : Type} `{HQ : !QuantizerInterface Q} `{HE : !EncoderInterface} `{HL : !LosslessInterface}.

(** The number of dimensions; [log2] of the C library, the contents of memory that is not written
    yet, and whether assertions are compiled out. *)
Variable N : nat.
Variable log2 : Z -> Z.
Variables garbage uninit : nat -> Z.
Variable NDEBUG : bool.

(** The loop for [max_interp_level], which is [uint]; [None] when the strides do not fit their
    type: [1U << (level - 1)], and twice that for more than one dimension. *)
Definition raise_level (level : Z) (block_dim : nat) : Z :=
  let c := f64_ceil (log2 (f64_of_Z (Z.of_nat block_dim))) in
  if f64_ltb (f64_of_Z level) c then u32 (f64_to_i64 c) else level.

Definition max_interp_level (bd : list nat) : option nat :=
  let level := foldl raise_level 1%Z bd in
  _ ← assert (level <=? (if (N =? 1)%nat then 32 else 31))%Z;
  Some (Z.to_nat level).

(** The visits of the block that the iterator points to. *)
Definition one_block (gd sequence : list nat) (block_size : nat) (linear : bool) (r : range) (block : iterator)
    : option (list visit) :=
  let begin := get_global_index r block in
  level ← max_interp_level (Box.block_dims gd block_size begin);
  Some (Box.block_visits gd sequence block_size linear (place block) begin level).

(** The members [global_dimensions], [block_size] and the two identifiers. *)
Record members := mk {
  global_dimensions : list Z;
  block_size : Z;
  interpolator_id : Z;
  direction_sequence_id : Z
}.

(** All the blocks; [None] for an empty range of blocks, a block size of 0, and an interpolator
    that the table does not have. *)
Definition visits (s : members) : option (list visit) :=
  _ ← assert ((0 <? block_size s) && (0 <=? interpolator_id s) && (interpolator_id s <? 2))%Z;
  let gd := extents (global_dimensions s) in
  let bs := Z.to_nat (block_size s) in
  sequence ← Box.sequence_of N (direction_sequence_id s);
  range ← new gd bs 0;
  blocks ← elements range;
  mjoin <$> mapM (one_block gd sequence bs (interpolator_id s =? 0)%Z range) blocks.

Definition configure (c : Config) : option members :=
  _ ← assert (N <=? length (dims c));
  Some (mk (take N (dims c)) (u32 (blockSize c)) (interpAlgo c) (interpDirection c)).

(** What is stored before the quantizer. *)
Definition save_members (s : members) : list Z :=
  store_array 8 (global_dimensions s) ++ le_bytes 4 (block_size s) ++ le_bytes 4 (u32 (interpolator_id s))
    ++ le_bytes 4 (u32 (direction_sequence_id s)).

Definition bufferSize (quantizer_est encoder_est : Z) (num : nat) : Z :=
  f64_to_i64 (f64_mul SZGenericCompressor.f64_1_2 (f64_of_Z (u64 (quantizer_est + encoder_est + 8 * Z.of_nat num)))).

(** The buffer for the lossless module and the data as overwritten.  The assertion comes after
    the buffer was written; without it a buffer that is full is not an error. *)
Definition buffer_of (c : Config) (q : Q) (data : list Z) : option (list Z * list Z) :=
  s ← configure c;
  vs ← visits s;
  '(quant_inds, rs, q) ← quantize_visits q data vs;
  let size := bufferSize (q_size_est q) (e_size_est quant_inds) (length quant_inds) in
  encoded ← e_encode quant_inds (i32 (q_radius q * 2));
  let buffer := save_members s ++ q_save q ++ encoded in
  let used := Z.of_nat (length buffer) in
  _ ← assert (if NDEBUG then (used <=? size)%Z else (used <? size)%Z);
  Some (buffer, rs).

Definition compress (c : Config) (q : Q) (data cmpData : list Z) : option (Z * list Z) :=
  '(buffer, _) ← buffer_of c q data;
  Some (l_compress buffer cmpData).

(** The number of elements is that of the stored dimensions; the data that are decompressed have
    the number of the configuration. *)
Definition decompress (c : Config) (q : Q) (cmpData : list Z) (cmpSize : Z) : option (list Z) :=
  _ ← assert (cmpSize <=? Z.of_nat (length cmpData))%Z;
  let bufferCap := (8 * Z.to_nat (num c)) in
  let buffer := (l_decompress (take (Z.to_nat cmpSize) cmpData) (uninit <$> seq 0 bufferCap)).2 in
  '(gd, buffer, rem) ← MemoryUtil.read_array_len 8 (Z.of_nat N) buffer (Z.of_nat bufferCap);
  let num_elements := foldl (fun n d => u64 (n * d)) 1%Z gd in
  '(block_size, buffer, rem) ← MemoryUtil.read_var_len 4 buffer rem;
  '(interpolator_id, buffer, rem) ← MemoryUtil.read_var_len 4 buffer rem;
  '(direction_sequence_id, buffer, rem) ← MemoryUtil.read_var_len 4 buffer rem;
  '(q, buffer, rem) ← q_load q buffer rem;
  '(quant_inds, _) ← e_decode buffer rem (Z.to_nat num_elements);
  vs ← visits (mk gd block_size (i32 interpolator_id) (i32 direction_sequence_id));
  '(decData, _, _) ← recover_visits q (garbage <$> seq 0 (Z.to_nat (num c))) vs quant_inds;
  Some decData.

End compressor.

(** ** The order of the visits *)

Section cover.

Variable N : nat.
Variable log2 : Z -> Z.

(** [log2] is precise enough to be rounded up to the right integer. *)
Definition log2_precise (n : nat) : Prop :=
  forall k, 0 < k <= n -> f64_ceil (log2 (f64_of_Z (Z.of_nat k))) = f64_of_Z (Z.log2_up (Z.of_nat k)).

Lemma log2_up_31 (k : nat) : 0 < k -> (Z.of_nat k <= 2 ^ 31)%Z -> (0 <= Z.log2_up (Z.of_nat k) <= 31)%Z.
Proof.
  intros Hk Hl. split; [apply Z.log2_up_nonneg |]. rewrite <- (Z.log2_up_pow2 31) by lia. apply Z.log2_up_le_mono. lia.
Qed.

Lemma raise_levels_max bd : forall level, (1 <= level <= 31)%Z ->
  Forall (fun d => 0 < d /\ (Z.of_nat d <= 2 ^ 31)%Z /\ log2_precise d) bd ->
  foldl (raise_level log2) level bd = foldl (fun l g => Z.max l (Z.log2_up g)) level (Z.of_nat <$> bd) /\
  (level <= foldl (raise_level log2) level bd <= 31)%Z.
Proof.
  induction bd as [| d bd IH]; intros level Hl H; [split; [done | simpl; lia] |].
  apply Forall_cons_iff in H as [(Hd & H31 & Hp) H]. rewrite fmap_cons. cbn [foldl].
  pose proof (log2_up_31 d Hd H31) as Hr.
  assert (raise_level log2 level d = Z.max level (Z.log2_up (Z.of_nat d))) as ->.
  { unfold raise_level. cbv zeta. rewrite Hp, InterpolationDecomposition.small_ltb by lia.
    destruct (Levels.small_double (Z.log2_up (Z.of_nat d)) ltac:(lia)) as [_ ->].
    rewrite u32_id by (unfold is_u32; lia). destruct (Z.ltb_spec level (Z.log2_up (Z.of_nat d))); lia. }
  destruct (IH (Z.max level (Z.log2_up (Z.of_nat d)))) as [E Hb]; [lia | done |]. split; [done | lia].
Qed.

Lemma level_enough bd : Forall (fun d => 0 < d /\ (Z.of_nat d <= 2 ^ 31)%Z /\ log2_precise d) bd ->
  exists level, max_interp_level N log2 bd = Some level /\ Forall (fun d => d <= 2 ^ level) bd.
Proof.
  intros H. unfold max_interp_level. destruct (raise_levels_max bd 1 ltac:(lia) H) as [E Hb].
  rewrite assert_true by (apply Z.leb_le; destruct (N =? 1); lia). cbn [mbind option_bind]. eexists. split; [done |].
  destruct (InterpolationDecomposition.max_levels (Z.of_nat <$> bd) 1) as (Hmax & _). rewrite <- E in Hmax.
  set (level := foldl _ _ _) in *. clearbody level.
  apply list.Forall_forall. intros d Hd. rewrite list.Forall_forall in Hmax. specialize (Hmax _ (list_elem_of_fmap_2 Z.of_nat bd d Hd)). rewrite list.Forall_forall in H. destruct (H d Hd) as [Hd0 _].
  simpl in Hmax. apply Nat2Z.inj_le. rewrite Nat2Z.inj_pow, Z2Nat.id by lia.
  destruct (Z.eq_dec (Z.of_nat d) 1%Z) as [-> | Hk1]; [pose proof (Z.pow_le_mono_r 2 0 level); lia |].
  etrans; [apply (Z.log2_up_spec (Z.of_nat d)); lia |]. apply Z.pow_le_mono_r; lia.
Qed.

(** The array that is compressed: [n] values, not so many that a stride overflows; in three
    dimensions one of the six directions. *)
Record array (s : members) (n : nat) : Prop := {
  a_dims : length (global_dimensions s) = N /\ 1 <= N <= 4;
  a_size : product (extents (global_dimensions s)) = n /\ 0 < n /\ (Z.of_nat n <= 2 ^ 31)%Z;
  a_log2 : log2_precise n;
  a_block : (0 < block_size s)%Z;
  a_interp : (0 <= interpolator_id s < 2)%Z;
  a_dir : N = 3 -> (0 <= direction_sequence_id s < 6)%Z
}.

(** In four dimensions, that there is no more than one block along the last. *)
Definition one_last_block (s : members) : Prop :=
  N = 4 -> extents (global_dimensions s) !!! 3 <= Z.to_nat (block_size s).

Lemma product_factor l m : 0 < product l -> m < length l -> l !!! m <= product l.
Proof.
  revert m. induction l as [| x l IH]; intros m Hp Hm; [simpl in Hm; lia |].
  change (product (x :: l)) with (x * product l) in *. assert (0 < x /\ 0 < product l) as [Hx Hl] by nia.
  destruct m as [| m]; [change (x <= x * product l); nia |]. specialize (IH m Hl ltac:(simpl in Hm; lia)).
  change (l !!! m <= x * product l). nia.
Qed.

Lemma product_factors l : 0 < product l -> Forall (fun x => 0 < x) l.
Proof.
  induction l as [| x l IH]; intros Hp; [constructor |]. change (product (x :: l)) with (x * product l) in Hp.
  constructor; [nia | apply IH; nia].
Qed.

Section blocks.

Variables (s : members) (n : nat) (sequence : list nat).
Hypothesis Ha : array s n.
Hypothesis Hlast : one_last_block s.
Hypothesis Hseq : Box.sequence_of N (direction_sequence_id s) = Some sequence.

Notation gd := (extents (global_dimensions s)).
Notation bs := (Z.to_nat (block_size s)).

Lemma sequence_all : sequence ≡ₚ seq 0 (length gd).
Proof.
  destruct (Box.sequence_spec _ _ _ Hseq) as [H | [HN ->]].
  - by rewrite InterpolationDecomposition.length_extents, (proj1 (a_dims s n Ha)).
  - exfalso. pose proof (a_dir s n Ha HN) as Hd. rewrite HN in Hseq. cbn [Box.sequence_of] in Hseq.
    rewrite (proj2 (Z.leb_le _ _)) in Hseq by lia. destruct (Z.to_nat (direction_sequence_id s)) as [| [| [| [| [| [| k]]]]]] eqn:E;
      try discriminate Hseq. lia.
Qed.

Lemma starts_at b m step : Box.corner gd bs b -> m < length gd -> Box.loop_start (length gd) m step (b !!! m) = b !!! m.
Proof.
  intros [[Hl Hlt]%Grid.Forall2_at Hd] Hm. unfold Box.loop_start.
  destruct (Nat.eqb_spec (length gd) 4) as [E4 | _]; [| done]. destruct (Nat.eqb_spec m 3) as [-> | _]; [| done]. simpl.
  destruct (Nat.eqb_spec (b !!! 3) 0) as [-> | Hne]; [done |]. exfalso.
  rewrite InterpolationDecomposition.length_extents, (proj1 (a_dims s n Ha)) in E4. pose proof (Hlast E4).
  specialize (Hlt 3 Hm). rewrite Grid.Forall_at in Hd. destruct (Hd 3 ltac:(lia)) as [[| k] Hk]; [done |].
  rewrite Nat.mul_succ_l in Hk. lia.
Qed.

Lemma one_block_spec r block : Box.corner gd bs (get_global_index r block) ->
  place block = dot (get_global_index r block) (weights gd) ->
  exists vs, one_block N log2 gd sequence bs (interpolator_id s =? 0)%Z r block = Some vs /\ NoDup (v_idx <$> vs) /\
    (forall i, i ∈ v_idx <$> vs <-> Grid.inside (Box.block_dims gd bs (get_global_index r block)) (weights gd)
      (dot (get_global_index r block) (weights gd)) i) /\ causal [] vs.
Proof.
  intros Hc Hp. unfold one_block. rewrite Hp. set (b := get_global_index r block) in *. cbv zeta.
  destruct (a_size s n Ha) as (En & Hn & H31). assert (0 < bs) as Hbs by (pose proof (a_block s n Ha); lia).
  pose proof (product_factors gd ltac:(lia)) as Hpos. pose proof Hc as [Hlb%Forall2_length _].
  pose proof (Box.block_dims_length gd bs Hbs b Hc) as Hlbd. pose proof (Box.block_fits gd bs Hbs b) as Hfit.
  destruct (level_enough (Box.block_dims gd bs b)) as (level & -> & Hl).
  { apply Grid.Forall_at. rewrite Hlbd. intros m Hm. destruct (Hfit m Hc Hm) as [H0 H1].
    pose proof (product_factor gd m ltac:(lia) Hm). split_and!; [done | lia |]. intros k Hk. apply (a_log2 s n Ha). lia. }
  cbn [mbind option_bind]. eexists. split; [done |].
  apply (Box.block_once gd sequence b (Box.block_dims gd bs b) _ Hpos sequence_all Hlb Hlbd); [auto | | done].
  intros m step. by apply starts_at.
Qed.

End blocks.

(** The blocks visit every value once, and read what they visited before. *)
Lemma visits_all s n : array s n -> one_last_block s ->
  exists vs, visits N log2 s = Some vs /\ v_idx <$> vs ≡ₚ seq 0 n /\ causal [] vs.
Proof.
  intros Ha Hlast. unfold visits. rewrite assert_true.
  2:{ pose proof (a_block s n Ha). pose proof (a_interp s n Ha). rewrite !andb_true_iff, !Z.ltb_lt, Z.leb_le. lia. }
  cbn [mbind option_bind]. destruct (a_size s n Ha) as (En & Hn & H31).
  assert (0 < Z.to_nat (block_size s)) as Hbs by (pose proof (a_block s n Ha); lia).
  destruct (a_dims s n Ha) as [Hlen HN]. pose proof (product_factors (extents (global_dimensions s)) ltac:(lia)) as Hpos.
  assert (exists sequence, Box.sequence_of N (direction_sequence_id s) = Some sequence) as (sequence & Hseq).
  { destruct N as [| [| [| [| [| ]]]]]; try lia; by eexists. }
  rewrite Hseq. cbn [mbind option_bind].
  destruct (Iterator.corners_spec (extents (global_dimensions s)) (Z.to_nat (block_size s))) as (r & its & Er & Ei & Hnd & Hin & _ & Hpl);
    [| done | done |].
  { intros E. apply (f_equal length) in E. rewrite InterpolationDecomposition.length_extents in E. simpl in E. lia. }
  rewrite Er. cbn [mbind option_bind]. rewrite Ei. cbn [mbind option_bind].
  set (linear := (interpolator_id s =? 0)%Z). set (gd := extents (global_dimensions s)) in *. set (bs := Z.to_nat (block_size s)) in *.
  assert (Forall (fun it => exists vs, one_block N log2 gd sequence bs linear r it = Some vs /\ NoDup (v_idx <$> vs) /\
    (forall i, i ∈ v_idx <$> vs <-> Grid.inside (Box.block_dims gd bs (get_global_index r it)) (weights gd)
      (dot (get_global_index r it) (weights gd)) i) /\ causal [] vs) its) as Hall.
  { apply list.Forall_forall. intros it Hit. apply (one_block_spec s n sequence Ha Hlast Hseq); [| by apply Hpl].
    apply Hin. by apply list_elem_of_fmap_2. }
  assert (exists vss, mapM (one_block N log2 gd sequence bs linear r) its = Some vss /\
    v_idx <$> mjoin vss = its ≫= (fun it => from_option (fmap v_idx) [] (one_block N log2 gd sequence bs linear r it)) /\
    causal [] (mjoin vss)) as (vss & -> & Ev & Hcausal).
  { clear -Hall. induction Hall as [| it its (vs & E & _ & _ & Hc) Hall (vss & Es & Ev & Hcs)]; [by exists [] |].
    exists (vs :: vss). cbn [mapM]. rewrite E. cbn [mbind option_bind]. rewrite Es. split; [done |].
    rewrite bind_cons, E. cbn [from_option mjoin list_join]. rewrite fmap_app. split; [by f_equal |].
    apply causal_app; [done |]. by apply (causal_weaken _ []); [set_solver |]. }
  exists (mjoin vss). split; [done |]. split; [| done]. rewrite Ev, <- En.
  apply (Box.blocks_cover gd bs Hbs (get_global_index r)); [done | done |].
  eapply Forall_impl; [| exact Hall]. intros it (vs & -> & H1 & H2 & _). by split.
Qed.

End cover.

(** ** The law *)

Section law.

Context {Q : Type} `{HQ : !QuantizerInterface Q} `{HE : !EncoderInterface} `{HL : !LosslessInterface}.
Context `{HLL : !LosslessLaws HL}.
Variable N : nat.
Variable log2 : Z -> Z.
Variables garbage uninit : nat -> Z.
Variable NDEBUG : bool.

(** What is compressed: the dimensions of all the data, a quantizer that is new and made for
    what the visits meet, and indices that the encoder takes. *)
Record input (c : Config) (q : Q) (data : list Z) : Prop := {
  i_conf : exists s, configure N c = Some s /\ array N log2 s (length data);
  i_num : num c = Z.of_nat (length data) /\ Forall is_u64 (dims c);
  i_dir : is_i32 (interpDirection c);
  i_q : fresh q /\ storable q;
  i_ok : forall s vs, configure N c = Some s -> visits N log2 s = Some vs -> visits_ok q data vs;
  i_enc : forall s vs inds rs q', configure N c = Some s -> visits N log2 s = Some vs ->
    quantize_visits q data vs = Some (inds, rs, q') -> e_domain inds (i32 (q_radius q' * 2))
}.

(** The number of elements, as the decompressor computes it. *)
Lemma num_elements_of l (n : nat) : Forall is_u64 l -> product (extents l) = n -> 0 < n -> (Z.of_nat n < 2 ^ 64)%Z ->
  Z.to_nat (foldl (fun n d => u64 (n * d)) 1%Z l) = n.
Proof.
  intros Hl. assert (forall acc : nat, 0 < acc -> 0 < product (extents l) -> (Z.of_nat (acc * product (extents l)) < 2 ^ 64)%Z ->
    foldl (fun n d => u64 (n * d)) (Z.of_nat acc) l = Z.of_nat (acc * product (extents l))) as H.
  { induction Hl as [| d l Hd Hl IH]; intros acc Ha Hp Hb; cbn [foldl]; [f_equal; unfold product; simpl; lia |].
    change (product (extents (d :: l))) with (Z.to_nat d * product (extents l)) in *.
    assert (0 < Z.to_nat d /\ 0 < product (extents l)) as [H1 H2] by nia.
    assert (u64 (Z.of_nat acc * d) = Z.of_nat (acc * Z.to_nat d)) as ->.
    { rewrite u64_id; [rewrite Nat2Z.inj_mul, Z2Nat.id by (destruct Hd; lia); done |].
      destruct Hd as [Hd0 _]. unfold is_u64. split; [lia |]. rewrite <- (Z2Nat.id d) by done. nia. }
    rewrite IH; [f_equal; lia | nia | done |]. rewrite <- Nat.mul_assoc. done. }
  intros <- Hn Hb. specialize (H 1 ltac:(lia) Hn). rewrite Nat.mul_1_l in H. change (Z.of_nat 1) with 1%Z in H. rewrite H by done.
  apply Nat2Z.id.
Qed.

(** The data are replaced by values within the accuracy of the quantizer, and these come back
    when the lossless module has room on both sides. *)
Lemma block_correct c q data cmpData buffer rs size out :
  input c q data -> (forall s, configure N c = Some s -> one_last_block N s) ->
  buffer_of N log2 NDEBUG c q data = Some (buffer, rs) ->
  l_compress buffer cmpData = (size, out) -> (size <= Z.of_nat (length cmpData))%Z ->
  length buffer <= 8 * length data ->
  compress N log2 NDEBUG c q data cmpData = Some (size, out) /\ Forall2 (accurate q) data rs /\
  forall d0, decompress N log2 garbage uninit c d0 out size = Some rs.
Proof.
  intros [(s & Ec & Ha) [Hnum Hu] Hdir [Hf Hs] Hok Henc] Hlast Hbuf El Hsize Hcap.
  split; [unfold compress; rewrite Hbuf; cbn [mbind option_bind]; by rewrite El |].
  unfold buffer_of in Hbuf. rewrite Ec in Hbuf. cbn [mbind option_bind] in Hbuf.
  destruct (visits_all N log2 s (length data) Ha (Hlast s Ec)) as (vs & Ev & Hp & Hc). rewrite Ev in Hbuf.
  cbn [mbind option_bind] in Hbuf.
  destruct (quantize_visits_all vs q data Hs (Hok s vs Ec Ev) Hc Hp)
    as (inds & rs' & q' & Eq & H1 & H2 & H3 & _ & H5 & H6).
  rewrite Eq in Hbuf. cbn [mbind option_bind] in Hbuf.
  destruct (e_correct _ _ (Henc _ _ _ _ _ Ec Ev Eq)) as (bytes & Eb & Hdec).
  rewrite Eb in Hbuf. cbn [mbind option_bind] in Hbuf. apply bind_Some in Hbuf as (u & _ & Hbuf).
  apply (inj Some), pair_equal_spec in Hbuf as [<- <-]. split; [done |]. intros d0.
  destruct (l_correct _ _ _ _ El Hsize) as (Hs0 & Hl).
  pose proof (l_length (save_members s ++ q_save q' ++ bytes) cmpData) as Hlo. rewrite El in Hlo. cbn [snd] in Hlo.
  unfold decompress. rewrite assert_true by (apply Z.leb_le; lia). cbn [mbind option_bind].
  rewrite Hnum, Nat2Z.id. destruct (Hl (uninit <$> seq 0 (8 * length data))) as (_ & tl & -> & _);
    [by rewrite length_fmap, length_seq |].
  unfold configure in Ec. apply bind_Some in Ec as (u' & _ & Es). apply (inj Some) in Es. rewrite <- Es in *. clear s Es.
  destruct Ha as [[Hlen HN] (Hsz & Hn & H31) _ Hb Hid _]. cbn [global_dimensions block_size interpolator_id direction_sequence_id] in *.
  assert (Forall is_u64 (take N (dims c))) as Hu' by (by apply Forall_take).
  unfold save_members in *. cbn [global_dimensions block_size interpolator_id direction_sequence_id] in *.
  rewrite !length_app, !length_le_bytes, length_store_array in Hcap. rewrite <- !app_assoc.
  rewrite (MemoryUtil.read_array_len_le 8 (take N (dims c))); [| lia | done | lia]. cbn [mbind option_bind].
  rewrite (num_elements_of _ (length data)) by (done || lia).
  rewrite MemoryUtil.read_var_len_le by (apply u32_range || lia). cbn [mbind option_bind].
  rewrite MemoryUtil.read_var_len_le by (apply u32_range || lia). cbn [mbind option_bind].
  rewrite MemoryUtil.read_var_len_le by (apply u32_range || lia). cbn [mbind option_bind].
  match goal with |- context [q_load d0 _ ?r] => set (rem := r) end.
  destruct (load_follows d0 q q' (bytes ++ tl) rem Hf H1 H2)
    as (e & rem' & El' & Hfol & Hrem); [lia |]. rewrite El'. cbn [mbind option_bind].
  rewrite <- H3, Hdec, H3 by lia. cbn [mbind option_bind].
  rewrite !i32_u32 by (done || (unfold is_i32; lia)). rewrite Ev. cbn [mbind option_bind].
  destruct (H6 e q' (garbage <$> seq 0 (length data))) as (d' & E & _);
    [done | done | by rewrite length_fmap, length_seq |]. by rewrite E.
Qed.

End law.
#[local] Existing Instance LinearQuantizer.linear_quantizer.

(** C33: blocks interpolated on their own, in one to four dimensions, with any encoder and lossless
    module that keep their laws: every value is replaced by one within the error bound, and the
    decompressor gets these values when the buffer is no larger than the data.  In four dimensions
    the last has to be in one block: otherwise values are left out. *)
Theorem block_roundtrip `{HE : !EncoderInterface} `{HL : !LosslessInterface} `{HLL : !LosslessLaws HL}
    N log2 garbage uninit NDEBUG c (q : LinearQuantizer.LinearQuantizer) data cmpData buffer rs size out :
  input N log2 c q data ->
  (forall s, configure N c = Some s -> N = 4 -> extents (global_dimensions s) !!! 3 <= Z.to_nat (block_size s)) ->
  buffer_of N log2 NDEBUG c q data = Some (buffer, rs) ->
  l_compress buffer cmpData = (size, out) -> (size <= Z.of_nat (length cmpData))%Z ->
  length buffer <= 8 * length data ->
  compress N log2 NDEBUG c q data cmpData = Some (size, out) /\
  Forall2 (LinearQuantizer.bounded q) data rs /\
  forall d0, decompress N log2 garbage uninit c d0 out size = Some rs.
Proof.
  intros H1 Hlast H2 H3 H4 H5.
  exact (block_correct N log2 garbage uninit NDEBUG c q data cmpData buffer rs size out H1 Hlast H2 H3 H4 H5).
Qed.

(** C34: in one to three dimensions, in each direction and for any block size, and in four
    dimensions for a block size that is not less than the last extent, the blocks visit every
    value exactly once and predict each from values visited before. *)
Theorem block_visits_once N log2 s n : array N log2 s n ->
  (N = 4 -> extents (global_dimensions s) !!! 3 <= Z.to_nat (block_size s)) ->
  exists vs, visits N log2 s = Some vs /\ v_idx <$> vs ≡ₚ seq 0 n /\ causal [] vs.
Proof. apply visits_all. Qed.

(** In four dimensions, later blocks along the last leave values out: here the value 6. *)
Lemma block_4d_left_out : exists vs,
  visits 4 InterpolationDecomposition.sample_log2 (mk [2; 1; 1; 4]%Z 2 0 0) = Some vs /\ 6 ∉ v_idx <$> vs.
Proof.
  eexists. split; [vm_compute; reflexivity |]. intros H. vm_compute in H.
  repeat (apply elem_of_cons in H as [H | H]; [discriminate H |]). by apply not_elem_of_nil in H.
Qed.

(** ** Witnesses *)

#[local] Existing Instance RunlengthEncoder.runlength.

(** Three planes of two rows of four, in the order of direction 3. *)
Definition sample : list Z := replicate 24 0x4000000000000000%Z.
Definition sample_conf : Config := SzConfig.mkConfig 0 0 3 [3; 2; 4]%Z 24 0 0 0 0 0 0 false false false false false 0 0 0 1 3 0 0
  3 0 0.
Definition sample_members : members := mk [3; 2; 4]%Z 3 1 3.
Definition sample_q : LinearQuantizer.LinearQuantizer :=
  LinearQuantizer.mk [] 0 0x3fd0000000000000 0x4010000000000000 64.
Definition sample_store : LosslessInterface := Lossless.zstd Lossless.store_c Lossless.store_d.
Definition sample_buffer : list Z :=
  Eval vm_compute in default [] (fst <$> buffer_of 3 InterpolationDecomposition.sample_log2 false sample_conf sample_q sample).

Lemma sample_precise : log2_precise InterpolationDecomposition.sample_log2 24.
Proof.
  assert (forallb (fun k => f64_ceil (InterpolationDecomposition.sample_log2 (f64_of_Z (Z.of_nat k)))
    =? f64_of_Z (Z.log2_up (Z.of_nat k)))%Z (seq 1 24) = true) as H by (by vm_compute).
  rewrite forallb_forall in H. intros k Hk. apply Z.eqb_eq, H, in_seq. lia.
Qed.

Lemma sample_array : array 3 InterpolationDecomposition.sample_log2 sample_members 24.
Proof.
  split; [split; [done | lia] | split_and!; [done | lia | done] | exact sample_precise | done | done |].
  intros _. split; [discriminate | done].
Qed.

Lemma sample_block_input : input 3 InterpolationDecomposition.sample_log2 sample_conf sample_q sample.
Proof.
  assert (configure 3 sample_conf = Some sample_members) as Ec by (by vm_compute).
  split.
  - exists sample_members. split; [done | exact sample_array].
  - split; [done | repeat constructor; unfold is_u64; lia].
  - by split.
  - split; [done | by repeat split].
  - intros s vs Es E. rewrite Ec in Es. injection Es as <-.
    assert (from_option (visits_ok sample_q sample) True
      (visits 3 InterpolationDecomposition.sample_log2 sample_members)) as H by (vm_compute; by repeat split).
    by rewrite E in H.
  - intros s vs inds rs q' Es E Eq. rewrite Ec in Es. injection Es as <-.
    assert (from_option (fun r => forallb (fun i => (64 <=? i) && (i <=? 68))%Z r.1.1 && (length r.1.1 =? 24)) false
      (vs ← visits 3 InterpolationDecomposition.sample_log2 sample_members; quantize_visits sample_q sample vs) = true) as H
      by (vm_compute; reflexivity).
    rewrite E in H. cbn [mbind option_bind] in H. rewrite Eq in H. cbn [from_option fst] in H.
    apply andb_true_iff in H as [H Hl%Nat.eqb_eq]. rewrite forallb_forall in H.
    split; [by destruct inds |]. split; [| lia]. apply list.Forall_forall. intros i Hi%list_elem_of_In%H.
    rewrite andb_true_iff, !Z.leb_le in Hi. unfold is_i32. lia.
Qed.

Lemma block_roundtrip_witness :
  exists size out, @compress _ _ _ sample_store 3 InterpolationDecomposition.sample_log2 false sample_conf sample_q sample
      (replicate 200 7%Z) = Some (size, out) /\
    Forall2 (LinearQuantizer.bounded sample_q) sample sample /\
    forall d0, @decompress _ _ _ sample_store 3 InterpolationDecomposition.sample_log2 (fun _ => 0%Z) (fun _ => 0%Z) sample_conf d0
      out size = Some sample.
Proof.
  exists (Z.of_nat (length sample_buffer)), (sample_buffer ++ drop (length sample_buffer) (replicate 200 7%Z)).
  apply (@block_roundtrip _ sample_store Lossless.store_laws 3 InterpolationDecomposition.sample_log2 (fun _ => 0%Z)
    (fun _ => 0%Z) false sample_conf sample_q sample (replicate 200 7%Z) sample_buffer sample).
  - exact sample_block_input.
  - done.
  - vm_compute. reflexivity.
  - vm_compute. reflexivity.
  - vm_compute. discriminate.
  - vm_compute. lia.
Defined.

Lemma block_visits_once_witness :
  exists vs, visits 3 InterpolationDecomposition.sample_log2 sample_members = Some vs /\
    v_idx <$> vs ≡ₚ seq 0 24 /\ causal [] vs.
Proof.
  apply (block_visits_once 3 InterpolationDecomposition.sample_log2 sample_members 24); [exact sample_array | done].
Defined.

End SZBlockInterpolationCompressor.
