(* ===== verification/SzPredictor.v ===== *)
(** * SzPredictor: the predictors of the compressor that iterates

    Models [SZ3/predictor/Predictor.hpp] as a class, and behind it
    [SZ3/predictor/LorenzoPredictor.hpp] and [RegressionPredictor.hpp], at [T = double].

    A predictor sees a block before it is compressed, may refuse it, and is told when it is the
    one that is used; what it then needs of the block (the coefficients of a regression, the
    number of the predictor chosen) it keeps for the decompressor.  The laws are about the two
    objects, as for the quantizer: the one of the decompressor follows that of the compressor. *)

From Stdlib Require Import ZArith Lia.
From stdpp Require Import sets.
From S2P Require Import Prelude Bytes Float64 SzBytes Stl Quantizer SzHuffman SzEncoder SzDecomp SzIterator.
Import Iterator (range, iterator, place, prev, dimensions, local_index, elements, next, move, move2, begin, end_offset,
  global_offset, product).

(** ** The interface *)

(** What a prediction may read: places before the element, at most [reach] away in each of the
    [N] dimensions. *)
Definition behind (N reach : nat) (args : list nat) : Prop :=
  length args = N /\ Forall (fun a => (a <= reach)%nat) args /\ exists a, a ∈ args /\ (0 < a)%nat.

(** [*iter] and [predict(iter)] on the data. *)
Definition at_iter (data : list Z) (it : iterator) : option Z := data !! place it.
Definition predicted (data : list Z) (v : visit) : option Z := l ← sources data v; Some (v_fun v l).

(** A block of an array of data as the predictor is shown it: the loops over it end, its elements
    lie in the data, and what lies behind them is in the data or before their start. *)
Record viewed (N reach : nat) (r : range) (its : list iterator) (data : list Z) : Prop := {
  vw_ok : Iterator.range_ok r;
  vw_dims : length (dimensions r) = N;
  vw_elements : elements r = Some its;
  vw_visited : Iterator.visited r its;
  vw_place : Forall (fun it => 0 <= global_offset it < Z.of_nat (length data)) its;
  vw_prev it args : it ∈ its -> behind N reach args ->
    exists res, prev r args it = Some res /\ forall s, res = Some s -> (s < length data)%nat
}.

Class PredictorInterface (N : nat) (P : Type) := {
  p_precompress_block : P -> range -> list Z -> option (bool * P);
  p_precompress_block_commit : P -> option P;
  p_predecompress_block : P -> range -> option (bool * P);
  (** [predict]: the places it reads and what it does with the values there *)
  p_predict : P -> range -> iterator -> option visit;
  p_estimate_error : P -> range -> list Z -> iterator -> option Z;
  p_save : P -> option (list Z);
  p_load : P -> list Z -> Z -> option (P * list Z * Z);

  p_reach : P -> nat;
  (** the predictor can look at a block; after it did, it can be used for it; it was not, and nothing is lost *)
  p_sees : P -> range -> Prop;
  p_commits : P -> Prop;
  p_rejects : P -> Prop;
  p_leads : P -> P -> Prop;
  (** the decompressor's object does what the compressor's does, on the way to [pf] *)
  p_follows : P -> P -> P -> Prop;
  (** new objects of the compressor and the decompressor *)
  p_new : P -> P -> Prop;
  p_storable : P -> Prop;
  (** how much of the remaining length loading uses at most *)
  p_cost : P -> Z;

  p_leads_preorder :: PreOrder p_leads;
  p_leads_reach p p' : p_leads p p' -> p_reach p' = p_reach p;
  precompress_total p r its data : p_sees p r -> viewed N (p_reach p) r its data ->
    is_Some (p_precompress_block p r data);
  estimate_total p r its data it : p_sees p r -> viewed N (p_reach p) r its data -> it ∈ its ->
    is_Some (p_estimate_error p r data it);
  precompress_follows p r data b p1 : p_precompress_block p r data = Some (b, p1) ->
    p_leads p p1 /\ (p_sees p r -> p_sees p1 r) /\ forall d pf, p_follows d p pf -> p_follows d p1 pf;
  commit_follows p r data p1 : p_precompress_block p r data = Some (true, p1) -> p_commits p1 ->
    exists p2, p_precompress_block_commit p1 = Some p2 /\ p_leads p1 p2 /\ (p_sees p1 r -> p_sees p2 r) /\
      forall d pf, p_leads p2 pf -> p_follows d p pf ->
        exists d2, p_predecompress_block d r = Some (true, d2) /\ p_follows d2 p2 pf /\
          forall it, p_predict d2 r it = p_predict p2 r it;
  reject_follows p r data p1 : p_precompress_block p r data = Some (false, p1) -> p_rejects p1 ->
    forall d pf, p_follows d p pf ->
      exists d2, p_predecompress_block d r = Some (false, d2) /\ p_follows d2 p1 pf;
  predict_reads p r it : p_sees p r -> (forall args, behind N (p_reach p) args -> is_Some (prev r args it)) ->
    exists v, p_predict p r it = Some v /\ v_idx v = place it /\
      Forall (fun s => exists args, behind N (p_reach p) args /\ prev r args it = Some (Some s)) (v_src v);
  p_load_follows p0 d0 pf : p_new p0 d0 -> p_leads p0 pf -> p_storable pf ->
    exists bytes, p_save pf = Some bytes /\ Z.of_nat (length bytes) <= p_cost pf /\
      forall tl rem, p_cost pf <= rem < 2 ^ 62 ->
        exists d rem', p_load d0 (bytes ++ tl) rem = Some (d, tl, rem') /\ p_follows d p0 pf /\
          rem - p_cost pf <= rem' <= rem
}.

Lemma at_iter_viewed N reach r its data it : viewed N reach r its data -> it ∈ its -> is_Some (at_iter data it).
Proof.
  intros [_ _ _ _ Hp _] Hit. rewrite list.Forall_forall in Hp. specialize (Hp it Hit). unfold at_iter, place.
  apply lookup_lt_is_Some. lia.
Qed.

Lemma viewed_pos N reach r its data : viewed N reach r its data -> (0 < N)%nat.
Proof. intros [Hr Hd _ _ _ _]. rewrite <- Hd. apply Nat.neq_0_lt_0. intros E%nil_length_inv. by apply (Iterator.ro_nonempty r Hr). Qed.

(** A prediction from places behind finds its values. *)
Lemma predicted_viewed N reach r its data it (o : option visit) : viewed N reach r its data -> it ∈ its ->
  ((forall args, behind N reach args -> is_Some (prev r args it)) ->
    exists v, o = Some v /\ v_idx v = place it /\
      Forall (fun s => exists args, behind N reach args /\ prev r args it = Some (Some s)) (v_src v)) ->
  exists v, o = Some v /\ is_Some (predicted data v).
Proof.
  intros Hv Hit H. destruct H as (v & E & _ & Hs).
  { intros args Ha. destruct (vw_prev _ _ _ _ _ Hv it args Hit Ha) as (res & -> & _). done. }
  exists v. split; [done |]. unfold predicted, sources.
  destruct (mapM (fun s => data !! s) (v_src v)) as [l |] eqn:El; [done |].
  apply mapM_None_1, list.Exists_exists in El as (s & Hs' & Hn). rewrite list.Forall_forall in Hs.
  destruct (Hs s Hs') as (args & Ha & Ep). destruct (vw_prev _ _ _ _ _ Hv it args Hit Ha) as (res & E' & Hlt).
  rewrite E' in Ep. injection Ep as ->. specialize (Hlt s eq_refl). apply lookup_ge_None_1 in Hn. lia.
Qed.

(** ** Lorenzo *)

Module LorenzoPredictor.

(** The predictor of [L] layers; [noise] is added to its estimates. *)
Record LorenzoPredictor := mk { layers : nat; noise : Z }.

(** The literals 0.5, 0.81, 1.22, 1.79, 1.08, 2.76 and 6.8. *)
Definition noise_factor (N L : nat) : option Z :=
  match L, N with
  | 1%nat, 1%nat => Some 0x3fe0000000000000
  | 1%nat, 2%nat => Some 0x3fe9eb851eb851ec
  | 1%nat, 3%nat => Some 0x3ff3851eb851eb85
  | 1%nat, 4%nat => Some 0x3ffca3d70a3d70a4
  | 2%nat, 1%nat => Some 0x3ff147ae147ae148
  | 2%nat, 2%nat => Some 0x4006147ae147ae14
  | 2%nat, 3%nat => Some 0x401b333333333333
  | _, _ => None
  end.

Definition new (N L : nat) (eb : Z) : LorenzoPredictor :=
  mk L (from_option (fun f => f64_mul f eb) 0 (noise_factor N L)).

(** A term of [do_predict]: whether it is subtracted, its factor and the arguments of [prev]. *)
Definition term : Type := bool * Z * list nat.

Definition do_predict (N L : nat) : list term :=
  match N, L with
  | 1%nat, 1%nat => [(false, 1, [1%nat])]
  | 2%nat, 1%nat => [(false, 1, [0; 1]%nat); (false, 1, [1; 0]%nat); (true, 1, [1; 1]%nat)]
  | 3%nat, 1%nat =>
      [(false, 1, [0; 0; 1]%nat); (false, 1, [0; 1; 0]%nat); (false, 1, [1; 0; 0]%nat);
       (true, 1, [0; 1; 1]%nat); (true, 1, [1; 0; 1]%nat); (true, 1, [1; 1; 0]%nat); (false, 1, [1; 1; 1]%nat)]
  | 4%nat, _ =>
      [(false, 1, [0; 0; 0; 1]%nat); (false, 1, [0; 0; 1; 0]%nat); (true, 1, [0; 0; 1; 1]%nat); (false, 1, [0; 1; 0; 0]%nat);
       (true, 1, [0; 1; 0; 1]%nat); (true, 1, [0; 1; 1; 0]%nat); (false, 1, [0; 1; 1; 1]%nat); (false, 1, [1; 0; 0; 0]%nat);
       (true, 1, [1; 0; 0; 1]%nat); (true, 1, [1; 0; 1; 0]%nat); (false, 1, [1; 0; 1; 1]%nat); (true, 1, [1; 1; 0; 0]%nat);
       (false, 1, [1; 1; 0; 1]%nat); (false, 1, [1; 1; 1; 0]%nat); (true, 1, [1; 1; 1; 1]%nat)]
  | 1%nat, 2%nat => [(false, 2, [1]%nat); (true, 1, [2]%nat)]
  | 2%nat, 2%nat =>
      [(false, 2, [0; 1]%nat); (true, 1, [0; 2]%nat); (false, 2, [1; 0]%nat);
       (true, 4, [1; 1]%nat); (false, 2, [1; 2]%nat); (true, 1, [2; 0]%nat);
       (false, 2, [2; 1]%nat); (true, 1, [2; 2]%nat)]
  | 3%nat, 2%nat =>
      [(false, 2, [0; 0; 1]%nat); (true, 1, [0; 0; 2]%nat); (false, 2, [0; 1; 0]%nat);
       (true, 4, [0; 1; 1]%nat); (false, 2, [0; 1; 2]%nat); (true, 1, [0; 2; 0]%nat);
       (false, 2, [0; 2; 1]%nat); (true, 1, [0; 2; 2]%nat); (false, 2, [1; 0; 0]%nat);
       (true, 4, [1; 0; 1]%nat); (false, 2, [1; 0; 2]%nat); (true, 4, [1; 1; 0]%nat);
       (false, 8, [1; 1; 1]%nat); (true, 4, [1; 1; 2]%nat); (false, 2, [1; 2; 0]%nat);
       (true, 4, [1; 2; 1]%nat); (false, 2, [1; 2; 2]%nat); (true, 1, [2; 0; 0]%nat);
       (false, 2, [2; 0; 1]%nat); (true, 1, [2; 0; 2]%nat); (false, 2, [2; 1; 0]%nat);
       (true, 4, [2; 1; 1]%nat); (false, 2, [2; 1; 2]%nat); (true, 1, [2; 2; 0]%nat);
       (false, 2, [2; 2; 1]%nat); (true, 1, [2; 2; 2]%nat)]
  | _, _ => []
  end.

Definition scale (factor x : Z) : Z := if factor =? 1 then x else f64_mul (f64_of_Z factor) x.

(** The sum, from the left. *)
Definition sum_terms (ts : list term) (xs : list Z) : Z :=
  match ts, xs with
  | t :: ts, x :: xs =>
      foldl (fun acc tx => let '((minus, factor, _), x) := tx in
               (if minus : bool then f64_sub else f64_add) acc (scale factor x))
        (scale t.1.2 x) (zip ts xs)
  | _, _ => 0
  end.

(** The values read, with 0 for what lies before the array. *)
Fixpoint fill (reads : list (option nat)) (vs : list Z) : list Z :=
  match reads with
  | [] => []
  | None :: reads => 0 :: fill reads vs
  | Some _ :: reads => match vs with v :: vs => v :: fill reads vs | [] => 0 :: fill reads [] end
  end.

(** The arguments of [prev] are as many as the dimensions, and at most the number of layers. *)
Lemma do_predict_behind N L : Forall (fun t : term => behind N (Nat.max 1 L) t.2) (do_predict N L).
Proof.
  assert (forall args, length args = N -> forallb (fun a => a <=? Nat.max 1 L)%nat args = true ->
    existsb (fun a => 0 <? a)%nat args = true -> behind N (Nat.max 1 L) args) as H.
  { intros args H1 H2 H3. split; [done |]. split.
    - apply list.Forall_forall. intros a Ha. rewrite forallb_forall in H2. apply Nat.leb_le, H2, list_elem_of_In, Ha.
    - apply existsb_exists in H3 as (a & Ha & Hlt). exists a. split; [by apply list_elem_of_In | by apply Nat.ltb_lt]. }
  destruct L as [| [| [| L]]]; destruct N as [| [| [| [| [| N]]]]]; cbn [do_predict];
    repeat (constructor; [by apply H |]); constructor.
Qed.

Section predictor.

Variable N : nat.

Definition predict (p : LorenzoPredictor) (r : range) (it : iterator) : option visit :=
  let ts := do_predict N (layers p) in
  reads ← mapM (fun t : term => prev r t.2 it) ts;
  Some {| v_idx := place it; v_src := omap id reads; v_fun := fun vs => sum_terms ts (fill reads vs) |}.

Definition estimate_error (p : LorenzoPredictor) (r : range) (data : list Z) (it : iterator) : option Z :=
  x ← at_iter data it;
  v ← predict p r it;
  y ← predicted data v;
  Some (f64_add (f64_abs (f64_sub x y)) (noise p)).

Definition predictor_id : Z := 1.

Definition save (p : LorenzoPredictor) : list Z := [predictor_id].
Definition load (p : LorenzoPredictor) (c : list Z) (remaining_length : Z) : option (LorenzoPredictor * list Z * Z) :=
  match c with
  | [] => None
  | _ :: c => Some (p, c, u64 (remaining_length - 1))
  end.

Lemma predict_reads_behind p r it :
  (forall args, behind N (Nat.max 1 (layers p)) args -> is_Some (prev r args it)) ->
  exists v, predict p r it = Some v /\ v_idx v = place it /\
    Forall (fun s => exists args, behind N (Nat.max 1 (layers p)) args /\ prev r args it = Some (Some s)) (v_src v).
Proof.
  intros Hp. unfold predict. pose proof (do_predict_behind N (layers p)) as Hts.
  set (ts := do_predict N (layers p)) in *. clearbody ts.
  assert (exists reads, mapM (fun t : term => prev r t.2 it) ts = Some reads /\
    Forall (fun s => exists args, behind N (Nat.max 1 (layers p)) args /\ prev r args it = Some (Some s)) (omap id reads))
    as (reads & E & Hr); [| rewrite E; cbn [mbind option_bind]; eexists; by split_and!].
  induction Hts as [| t ts Ht Hts IH]; [exists []; split; [done | constructor] |].
  destruct IH as (reads & E & Hr). destruct (Hp _ Ht) as [o Eo]. exists (o :: reads). cbn [mapM]. rewrite Eo, E. split; [done |].
  destruct o as [s |]; simpl; [| done]. constructor; eauto.
Qed.

#[export] Program Instance lorenzo : PredictorInterface N LorenzoPredictor := {
  p_precompress_block p _ _ := Some (true, p);
  p_precompress_block_commit p := Some p;
  p_predecompress_block p _ := Some (true, p);
  p_predict := predict;
  p_estimate_error := estimate_error;
  p_save p := Some (save p);
  p_load := load;
  p_reach p := Nat.max 1 (layers p);
  p_sees _ _ := True;
  p_commits _ := True;
  p_rejects _ := True;
  p_leads := eq;
  p_follows d p _ := layers d = layers p;
  p_new p d := layers d = layers p;
  p_storable _ := True;
  p_cost _ := 1
}.
Next Obligation. by intros ? ? ->. Qed.
Next Obligation. done. Qed.
Next Obligation.
  intros p r its data it _ Hv Hit. unfold estimate_error. destruct (at_iter_viewed _ _ _ _ _ _ Hv Hit) as [x ->].
  destruct (predicted_viewed _ _ _ _ _ _ (predict p r it) Hv Hit (predict_reads_behind p r it)) as (v & -> & [y E]).
  cbn [mbind option_bind]. rewrite E. done.
Qed.
Next Obligation. by intros p r data b p1 [= <- <-]. Qed.
Next Obligation.
  intros p r data p1 [= <-] _. exists p. split_and!; try done. intros d pf _ E. exists d. split_and!; try done.
  intros it. unfold predict. by rewrite E.
Qed.
Next Obligation. done. Qed.
Next Obligation. intros p r it _. apply predict_reads_behind. Qed.
Next Obligation.
  intros p0 d0 pf E -> _. eexists. split_and!; [done | simpl; lia |]. intros tl rem Hrem. simpl.
  eexists _, _. split; [done |]. rewrite u64_id by (unfold is_u64; lia). split; [done | lia].
Qed.

End predictor.

End LorenzoPredictor.

(** ** The coefficients of regressions *)

(** Both regressions keep the coefficients of a block as quantized differences to those of the
    last block that used them. *)
Module Coefficients.

Section coefficients.

Context {Q : Type} `{HQ : !QuantizerInterface Q}.

(** The loop of [pred_and_quantize_coefficients] with one quantizer: the indices and the
    coefficients as overwritten. *)
Fixpoint quantize (q : Q) (current prev : list Z) : list Z * list Z * Q :=
  match current, prev with
  | x :: current, y :: prev =>
      let '(i, r, q) := q_quantize q x y in
      let '(inds, rs, q) := quantize q current prev in
      (i :: inds, r :: rs, q)
  | _, _ => ([], [], q)
  end.

(** The loop of [pred_and_recover_coefficients]: the coefficients, and the indices left. *)
Fixpoint recover (q : Q) (current inds : list Z) : option (list Z * list Z * Q) :=
  match current with
  | [] => Some ([], inds, q)
  | x :: current =>
      match inds with
      | [] => None
      | i :: inds =>
          '(r, q) ← q_recover q x i;
          '(rs, inds, q) ← recover q current inds;
          Some (r :: rs, inds, q)
      end
  end.

Fixpoint quantizable_all (q : Q) (current prev : list Z) : Prop :=
  match current, prev with
  | [], [] => True
  | x :: current, y :: prev => quantizable q x y /\ quantizable_all q current prev
  | _, _ => False
  end.

Lemma quantize_spec current : forall prev q, quantizable_all q current prev ->
  exists inds rs q', quantize q current prev = (inds, rs, q') /\ leads q q' /\
    length inds = length current /\ length rs = length current /\
    forall d qf tl, leads q' qf -> follows d q qf ->
      exists d', recover d prev (inds ++ tl) = Some (rs, tl, d') /\ follows d' q' qf.
Proof.
  induction current as [| x current IH]; intros [| y prev'] q H; try done; cbn [quantize].
  { exists [], [], q. split_and!; try done. intros d qf tl _ Hd. by exists d. }
  destruct H as [Hq H'].
  destruct (q_quantize q x y) as [[i r] q1] eqn:E. pose proof (quantize_leads _ _ _ _ _ _ E) as Hl.
  destruct (IH prev' q1) as (inds & rs & q' & -> & H1 & H2 & H3 & H4).
  { clear -H' Hl. revert prev' H'. induction current as [| a current IH]; intros [| b prev'] H; try done.
    destruct H as [H1 H2]. split; [by apply (leads_quantizable q q1) | auto]. }
  exists (i :: inds), (r :: rs), q'. split_and!; [done | by etrans | simpl; lia | simpl; lia |].
  intros d qf tl Hqf Hd. cbn [recover app].
  destruct (recover_follows d q qf x y i r q1 Hq E) as (d1 & -> & Hd1); [by etrans | done |]. cbn [mbind option_bind].
  destruct (H4 d1 qf tl Hqf Hd1) as (d' & -> & Hd'). cbn [mbind option_bind]. by exists d'.
Qed.

End coefficients.

(** The identifier and the number of indices, which every regression stores first. *)
Lemma read_head (id : Z) (n : nat) tl (A : Type) (k : Z -> list Z -> option A) :
  0 <= id < 2 ^ 8 -> Z.of_nat n < 2 ^ 62 ->
  ('(_, c) ← MemoryUtil.read_var 1 (([id] ++ le_bytes 8 (Z.of_nat n)) ++ tl);
   '(coeff_size, c) ← MemoryUtil.read_var 8 c;
   k coeff_size c) = k (Z.of_nat n) tl.
Proof.
  intros Hid Hn. assert ([id] = le_bytes 1 id) as -> by (unfold le_bytes; by rewrite Z.mod_small).
  rewrite <- !app_assoc. rewrite MemoryUtil.read_var_le by done. cbn [mbind option_bind].
  rewrite MemoryUtil.read_var_le by (change (2 ^ (8 * Z.of_nat 8)) with (2 ^ 64); lia). done.
Qed.

Lemma remaining_head rem : 9 <= rem < 2 ^ 62 -> u64 (u64 (rem - 1) - 8) = rem - 9.
Proof. intros Hrem. rewrite (u64_id (rem - 1)), u64_id by (unfold is_u64; lia). lia. Qed.

End Coefficients.

(** ** Regression *)

Module RegressionPredictor.
Notation Quantizer := LinearQuantizer.LinearQuantizer.
#[local] Existing Instance LinearQuantizer.linear_quantizer.

Record RegressionPredictor := mk {
  quantizer_liner : Quantizer;
  quantizer_independent : Quantizer;
  regression_coeff_quant_inds : list Z;
  regression_coeff_index : nat;
  current_coeffs : list Z;
  prev_coeffs : list Z
}.

Definition set_current (p : RegressionPredictor) (c : list Z) : RegressionPredictor :=
  mk (quantizer_liner p) (quantizer_independent p) (regression_coeff_quant_inds p) (regression_coeff_index p)
    c (prev_coeffs p).

Section predictor.

Variable N : nat.
(** The hash map of the Huffman encoder, and what its encoder leaves open. *)
Context `{Order : !MapOrder}.
Variables (left_first : bool) (junk : Z).

(** The constructor; [None] for the assertion of the quantizers that the bound is not 0. *)
Definition new (block_size eb : Z) : option RegressionPredictor :=
  let eb1 := f64_div eb (f64_of_Z (Z.of_nat (N + 1))) in
  independent ← LinearQuantizer.new eb1 32768;
  liner ← LinearQuantizer.new (f64_div eb1 (f64_of_Z block_size)) 32768;
  Some (mk liner independent [] 0 (replicate (N + 1) 0) (replicate (N + 1) 0)).

(** The inner loop over a row: the sum of its values, and [sum[N - 1]]. *)
Fixpoint row (t : nat) (r : range) (data : list Z) (it : iterator) (sum_cumulative last : Z)
    : option (Z * Z * iterator) :=
  match t with
  | O => Some (sum_cumulative, last, it)
  | S t =>
      x ← at_iter data it;
      k ← local_index it !! (N - 1)%nat;
      it ← move r it;
      row t r data it (f64_add sum_cumulative x) (f64_add last (f64_mul (f64_of_Z (Z.of_nat k)) x))
  end.

(** What a row adds to the other sums. *)
Definition add_row (sum_cumulative : Z) (l : list nat) (i : nat) (s : Z) : Z :=
  if (i <? N - 1)%nat then f64_add s (f64_mul sum_cumulative (f64_of_Z (Z.of_nat (default 0%nat (l !! i)))))
  else if (i =? N)%nat then f64_add s sum_cumulative
  else s.

(** The loop over the rows. *)
Fixpoint rows (fuel : nat) (r : range) (data : list Z) (it : iterator) (sum : list Z) : option (list Z) :=
  if global_offset it =? end_offset r then Some sum
  else
    match fuel with
    | O => None
    | S fuel =>
        d ← dimensions r !! (N - 1)%nat;
        '(sum_cumulative, last, it) ← row d r data it 0 (default 0 (sum !! (N - 1)%nat));
        let sum := imap (add_row sum_cumulative (local_index it)) (<[(N - 1)%nat := last]> sum) in
        it ← next r it;
        rows fuel r data it sum
    end.

(** The coefficients from the sums. *)
Definition coeff (num_elements_recip total d s : Z) : Z :=
  f64_div (f64_mul (f64_mul (f64_sub (f64_div (f64_mul (f64_of_Z 2) s) (f64_of_Z (d - 1))) total) (f64_of_Z 6))
    num_elements_recip) (f64_of_Z (d + 1)).

Definition coeffs_of (dims : list nat) (sum : list Z) : list Z :=
  let num_elements_recip := f64_div (f64_of_Z 1) (f64_of_Z (Z.of_nat (product dims))) in
  let total := default 0 (sum !! N) in
  let '(cs, last) :=
    foldl (fun acc ds => let c := coeff num_elements_recip total (Z.of_nat ds.1) ds.2 in
             (acc.1 ++ [c], f64_sub acc.2 (f64_div (f64_mul (f64_of_Z (Z.of_nat ds.1 - 1)) c) (f64_of_Z 2))))
      ([], f64_mul total num_elements_recip) (zip dims sum) in
  cs ++ [last].

Definition precompress_block (p : RegressionPredictor) (r : range) (data : list Z) : option (bool * RegressionPredictor) :=
  let dims := dimensions r in
  if existsb (fun d => d <=? 1)%nat dims then Some (false, p)
  else
    sum ← rows (product dims) r data (begin r) (replicate (N + 1) 0);
    Some (true, set_current p (coeffs_of dims sum)).

Definition precompress_block_commit (p : RegressionPredictor) : RegressionPredictor :=
  let '(inds1, c1, liner) := Coefficients.quantize (quantizer_liner p) (take N (current_coeffs p)) (take N (prev_coeffs p)) in
  let '(inds2, c2, independent) :=
    Coefficients.quantize (quantizer_independent p) (drop N (current_coeffs p)) (drop N (prev_coeffs p)) in
  mk liner independent (regression_coeff_quant_inds p ++ inds1 ++ inds2) (regression_coeff_index p) (c1 ++ c2) (c1 ++ c2).

Definition predict (p : RegressionPredictor) (r : range) (it : iterator) : option visit :=
  let pred := foldl (fun acc xc => f64_add acc (f64_mul (f64_of_Z (Z.of_nat xc.1)) xc.2)) 0
    (zip (local_index it) (take N (current_coeffs p))) in
  Some {| v_idx := place it; v_src := []; v_fun := fun _ => f64_add pred (default 0 (current_coeffs p !! N)) |}.

Definition estimate_error (p : RegressionPredictor) (r : range) (data : list Z) (it : iterator) : option Z :=
  x ← at_iter data it;
  v ← predict p r it;
  y ← predicted data v;
  Some (f64_abs (f64_sub x y)).

Definition save (p : RegressionPredictor) : option (list Z) :=
  let inds := regression_coeff_quant_inds p in
  let head := [2] ++ le_bytes 8 (Z.of_nat (length inds)) in
  if decide (inds = []) then Some head
  else
    encoded ← huffman_run left_first junk inds
                (2 * Z.max (LinearQuantizer.radius (quantizer_independent p)) (LinearQuantizer.radius (quantizer_liner p)));
    Some (head ++ LinearQuantizer.save (quantizer_independent p) ++ LinearQuantizer.save (quantizer_liner p) ++ encoded).

(** The encoder reduces the remaining length by the 4 bytes of its offset. *)
Definition load (p : RegressionPredictor) (c : list Z) (remaining_length : Z) : option (RegressionPredictor * list Z * Z) :=
  '(_, c) ← MemoryUtil.read_var 1 c;
  let remaining_length := u64 (remaining_length - 1) in
  '(coeff_size, c) ← MemoryUtil.read_var 8 c;
  let remaining_length := u64 (remaining_length - 8) in
  if coeff_size =? 0 then Some (p, c, remaining_length)
  else
    '(independent, c, remaining_length) ← LinearQuantizer.load (quantizer_independent p) c remaining_length;
    '(liner, c, remaining_length) ← LinearQuantizer.load (quantizer_liner p) c remaining_length;
    '(inds, c) ← huffman_unrun c remaining_length (Z.to_nat coeff_size);
    Some (mk liner independent inds 0 (replicate (N + 1) 0) (prev_coeffs p), c,
          u64 (remaining_length - 4 - coeff_size * 4)).

Definition predecompress_block (p : RegressionPredictor) (r : range) : option (bool * RegressionPredictor) :=
  if existsb (fun d => d <=? 1)%nat (dimensions r) then Some (false, p)
  else
    let rest := drop (regression_coeff_index p) (regression_coeff_quant_inds p) in
    '(c1, rest, liner) ← Coefficients.recover (quantizer_liner p) (take N (current_coeffs p)) rest;
    '(c2, rest, independent) ← Coefficients.recover (quantizer_independent p) (drop N (current_coeffs p)) rest;
    Some (true, mk liner independent (regression_coeff_quant_inds p)
                  (length (regression_coeff_quant_inds p) - length rest) (c1 ++ c2) (prev_coeffs p)).

(** ** The loop over the rows ends *)

Section rows.

Context (r : range) (its : list iterator) (data : list Z) (reach : nat).
Hypothesis Hv : viewed N reach r its data.
Hypothesis HN : (0 < N)%nat.

Lemma row_total t : forall it x d cum last, Iterator.iter_ok r it -> Forall2 lt (local_index it) (dimensions r) ->
  local_index it !! (N - 1)%nat = Some x -> dimensions r !! (N - 1)%nat = Some d ->
  exists cum' last' it', row t r data it cum last = Some (cum', last', it') /\
    Iterator.iter_ok r it' /\ Forall2 lt (local_index it') (dimensions r) /\
    (Iterator.dot (local_index it') (Iterator.weights (dimensions r)) + x
     = Iterator.dot (local_index it) (Iterator.weights (dimensions r)) + Nat.min (d - 1) (x + t))%nat.
Proof.
  induction t as [| t IH]; intros it x d cum last Hi Hl Ex Ed; cbn [row].
  { exists cum, last, it. split_and!; try done. assert (x < d)%nat by (eapply (Forall2_lookup_lr _ _ _ _ _ _ Hl); eassumption). lia. }
  destruct Hv as [Hr Hd _ Hvis _ _].
  destruct (at_iter_viewed _ _ _ _ _ _ Hv (Iterator.visited_in r its it Hvis Hi Hl)) as [y ->]. cbn [mbind option_bind].
  rewrite Ex. cbn [mbind option_bind]. rewrite <- Hd in Ex, Ed.
  destruct (Iterator.move_spec r it x d Hr Hi Hl Ex Ed) as (it' & -> & Hi' & Hl' & Ex' & Ek). cbn [mbind option_bind].
  rewrite Hd in Ex', Ed.
  destruct (IH it' _ d (f64_add cum y) (f64_add last (f64_mul (f64_of_Z (Z.of_nat x)) y)) Hi' Hl' Ex' Ed)
    as (cum' & last' & it2 & E & Hi2 & Hl2 & Ek2).
  exists cum', last', it2. split_and!; try done. lia.
Qed.

Lemma rows_total d : dimensions r !! (N - 1)%nat = Some d ->
  forall fuel n it sum, Iterator.iter_ok r it -> (n <= fuel)%nat ->
  (Iterator.dot (local_index it) (Iterator.weights (dimensions r)) + n * d = product (dimensions r))%nat ->
  is_Some (rows fuel r data it sum).
Proof.
  intros Ed. destruct Hv as [Hr Hd _ Hvis _ _].
  induction fuel as [| fuel IH]; intros n it sum Hi Hn Hk; cbn [rows].
  { rewrite (proj2 (Z.eqb_eq _ _)); [done |]. apply Iterator.iter_end; [done | done |]. assert (n = 0)%nat as -> by lia. lia. }
  destruct (Z.eqb_spec (global_offset it) (end_offset r)) as [| Hne]; [done |]. rewrite Ed. cbn [mbind option_bind].
  assert (n <> 0)%nat as Hn0.
  { intros ->. apply Hne, Iterator.iter_end; [done | done | lia]. }
  assert (0 < d)%nat as Hd0 by (pose proof (Iterator.ro_pos r Hr) as Hp; rewrite Forall_lookup in Hp; eauto).
  assert (Forall2 lt (local_index it) (dimensions r)) as Hl by (apply Iterator.iter_inside; [done | done | nia]).
  destruct (Iterator.last_digit r _ (Iterator.ro_nonempty r Hr) Hl) as (x & d' & q & Ex & Ed' & Hx & Er & k & Ek).
  rewrite Hd in Ex, Ed'. assert (d' = d) as -> by congruence.
  assert (x = 0)%nat as ->.
  { rewrite Er, Ek in Hk. assert ((q + n) * d + x = k * d)%nat as H by lia.
    apply (f_equal (fun y => y mod d)%nat) in H. rewrite Nat.Div0.mod_mul, Nat.add_comm, Nat.Div0.mod_add in H.
    rewrite Nat.mod_small in H by done. done. }
  match goal with |- context [row d r data it 0 ?l] => set (last := l) end.
  destruct (row_total d it 0 d 0 last Hi Hl Ex Ed) as (cum' & last' & it' & -> & Hi' & Hl' & Ek').
  cbn [mbind option_bind]. destruct (Iterator.next_spec r it' Hr Hi') as (it2 & -> & Hi2 & Ek2). cbn [mbind option_bind].
  apply (IH (n - 1)%nat); [done | lia |]. rewrite Ek2. destruct n as [| n]; [done |]. simpl in *. lia.
Qed.

Lemma precompress_total_rows p : is_Some (precompress_block p r data).
Proof.
  unfold precompress_block. destruct (existsb _ _) eqn:E; [done |]. pose proof Hv as [Hr Hd _ _ _ _].
  destruct (lookup_lt_is_Some_2 (dimensions r) (N - 1)) as [d Ed]; [lia |].
  destruct (Iterator.begin_ok r Hr) as [Hi H0].
  assert (0 < d)%nat as Hd0 by (pose proof (Iterator.ro_pos r Hr) as Hp; rewrite Forall_lookup in Hp; eauto).
  assert (exists k, product (dimensions r) = (k * d)%nat) as [k Ek].
  { destruct (exists_last (Iterator.ro_nonempty r Hr)) as (ds & e & Ee). rewrite Ee in Ed |- *.
    apply (f_equal length) in Ee. rewrite length_app in Ee. simpl in Ee.
    rewrite lookup_app_r in Ed by lia. replace (N - 1 - length ds)%nat with 0%nat in Ed by lia. injection Ed as ->.
    exists (product ds). apply Iterator.product_snoc. }
  destruct (rows_total d Ed (product (dimensions r)) k (begin r) (replicate (N + 1) 0) Hi) as [sum ->]; [nia | lia |]. done.
Qed.

End rows.

(** ** The laws *)

Definition leads_to (p p' : RegressionPredictor) : Prop :=
  regression_coeff_quant_inds p `prefix_of` regression_coeff_quant_inds p' /\
  leads (quantizer_liner p) (quantizer_liner p') /\ leads (quantizer_independent p) (quantizer_independent p').

#[export] Instance leads_to_preorder : PreOrder leads_to.
Proof.
  split; [by intros p |]. intros p1 p2 p3 (A1 & A2 & A3) (B1 & B2 & B3). split_and!; by etrans.
Qed.

(** The decompressor has the indices, has read those of the blocks so far, and keeps the last
    coefficients; its quantizers matter when indices are left. *)
Definition in_step (d p pf : RegressionPredictor) : Prop :=
  regression_coeff_quant_inds d = regression_coeff_quant_inds pf /\
  regression_coeff_index d = length (regression_coeff_quant_inds p) /\
  current_coeffs d = prev_coeffs p /\
  (regression_coeff_quant_inds pf = regression_coeff_quant_inds p \/
   follows (quantizer_liner d) (quantizer_liner p) (quantizer_liner pf) /\
   follows (quantizer_independent d) (quantizer_independent p) (quantizer_independent pf)).

Definition can_commit (p : RegressionPredictor) : Prop :=
  Coefficients.quantizable_all (quantizer_liner p) (take N (current_coeffs p)) (take N (prev_coeffs p)) /\
  Coefficients.quantizable_all (quantizer_independent p) (drop N (current_coeffs p)) (drop N (prev_coeffs p)) /\
  length (current_coeffs p) = (N + 1)%nat.

Lemma commit_in_step p : can_commit p ->
  leads_to p (precompress_block_commit p) /\
  forall d pf r, existsb (fun x => x <=? 1)%nat (dimensions r) = false -> leads_to (precompress_block_commit p) pf ->
    in_step d p pf ->
    exists d2, predecompress_block d r = Some (true, d2) /\ in_step d2 (precompress_block_commit p) pf /\
      current_coeffs d2 = current_coeffs (precompress_block_commit p).
Proof.
  intros (H1 & H2 & Hlen). unfold precompress_block_commit.
  destruct (Coefficients.quantize_spec _ _ _ H1) as (inds1 & c1 & q1 & E1 & L1 & N1 & M1 & R1).
  destruct (Coefficients.quantize_spec _ _ _ H2) as (inds2 & c2 & q2 & E2 & L2 & N2 & M2 & R2).
  rewrite E1, E2. rewrite length_drop in N2, M2. rewrite length_take in N1, M1. split.
  { split_and!; simpl; try done. by eexists. }
  intros d pf r Hdims (K1 & K2 & K3) (D1 & D2 & D3 & D4). unfold predecompress_block. rewrite Hdims, D1, D2, D3.
  destruct K1 as [tl K1]. simpl in K1, K2, K3. destruct D4 as [D4 | [D4 D5]].
  { rewrite K1, <- !app_assoc in D4. apply (f_equal length) in D4. rewrite !length_app in D4. lia. }
  rewrite K1, <- !app_assoc, drop_app_length.
  destruct (R1 _ (quantizer_liner pf) (inds2 ++ tl) K2 D4) as (e1 & -> & F1). cbn [mbind option_bind].
  destruct (R2 _ (quantizer_independent pf) tl K3 D5) as (e2 & -> & F2). cbn [mbind option_bind].
  eexists. split; [done |]. split; [| done]. split_and!; simpl; try done.
  - by rewrite K1, <- !app_assoc.
  - rewrite !length_app. lia.
  - by right.
Qed.

Definition is_new (p d : RegressionPredictor) : Prop :=
  fresh (quantizer_liner p) /\ fresh (quantizer_independent p) /\
  regression_coeff_quant_inds p = [] /\ prev_coeffs p = replicate (N + 1) 0 /\
  regression_coeff_quant_inds d = [] /\ regression_coeff_index d = 0%nat /\ current_coeffs d = replicate (N + 1) 0.

Definition can_store (p : RegressionPredictor) : Prop :=
  regression_coeff_quant_inds p <> [] ->
  storable (quantizer_liner p) /\ storable (quantizer_independent p) /\ SzHuffman.encodable (regression_coeff_quant_inds p).

Definition cost (p : RegressionPredictor) : Z :=
  Z.of_nat (length (default [] (save p))) + 4 * Z.of_nat (length (regression_coeff_quant_inds p)) + 4.

Lemma load_in_step p0 d0 pf : is_new p0 d0 -> leads_to p0 pf -> can_store pf ->
  exists bytes, save pf = Some bytes /\ Z.of_nat (length bytes) <= cost pf /\
    forall tl rem, cost pf <= rem < 2 ^ 62 ->
      exists d rem', load d0 (bytes ++ tl) rem = Some (d, tl, rem') /\ in_step d p0 pf /\ rem - cost pf <= rem' <= rem.
Proof.
  intros (N1 & N2 & N3 & N4 & N5 & N6 & N7) (K1 & K2 & K3) Hst. unfold cost. unfold can_store in Hst.
  unfold save. destruct (decide (regression_coeff_quant_inds pf = [])) as [E | Hne].
  - rewrite E. eexists. split; [done |]. cbn [from_option id]. split; [lia |].
    rewrite length_app, length_le_bytes. intros tl rem Hrem. cbn [length] in Hrem. unfold load. cbv zeta.
    rewrite (Coefficients.read_head 2 0), Coefficients.remaining_head by (simpl; lia). exists d0, (rem - 9). split; [done |]. split; [| lia]. split_and!; [by rewrite N5, E | by rewrite N3 | by rewrite N7, N4 |].
    left. by rewrite E, N3.
  - destruct (Hst Hne) as (S1 & S2 & S3).
    destruct (@e_correct (huffman_encoder left_first junk) (regression_coeff_quant_inds pf)
      (2 * Z.max (LinearQuantizer.radius (quantizer_independent pf)) (LinearQuantizer.radius (quantizer_liner pf))) S3)
      as (encoded & Ee & Hdec). simpl in Ee, Hdec. rewrite Ee. cbn [mbind option_bind]. eexists. split; [done |].
    cbn [from_option id]. split; [lia |]. intros tl rem Hrem.
    pose proof S3 as (_ & _ & _ & Hmany). rewrite !length_app, length_le_bytes in Hrem. cbn [length] in Hrem.
    rewrite !length_app, length_le_bytes. cbn [length]. unfold load. cbv zeta. rewrite <- app_assoc.
    rewrite Coefficients.read_head, Coefficients.remaining_head by lia. rewrite (proj2 (Z.eqb_neq _ _)).
    2: { intros E. apply Hne, nil_length_inv. lia. }
    rewrite <- !app_assoc.
    destruct (@load_follows _ LinearQuantizer.linear_quantizer (quantizer_independent d0) (quantizer_independent p0)
      (quantizer_independent pf) (LinearQuantizer.save (quantizer_liner pf) ++ encoded ++ tl) (rem - 9) N2 K3 S2)
      as (e1 & rem1 & E1 & F1 & Hr1); [cbn [q_save q_load LinearQuantizer.linear_quantizer]; lia |].
    cbn [q_save q_load LinearQuantizer.linear_quantizer] in E1, Hr1. rewrite E1. cbn [mbind option_bind].
    destruct (@load_follows _ LinearQuantizer.linear_quantizer (quantizer_liner d0) (quantizer_liner p0)
      (quantizer_liner pf) (encoded ++ tl) rem1 N1 K2 S1) as (e2 & rem2 & E2 & F2 & Hr2); [cbn [q_save q_load LinearQuantizer.linear_quantizer]; lia |].
    cbn [q_save q_load LinearQuantizer.linear_quantizer] in E2, Hr2. rewrite E2. cbn [mbind option_bind].
    rewrite Nat2Z.id, Hdec by lia. cbn [mbind option_bind]. rewrite u64_id by (unfold is_u64; lia).
    eexists _, _. split; [done |]. split; [| lia]. split_and!; simpl; [done | by rewrite N3 | done | by right].
Qed.

Lemma predict_no_reads p r it : exists v, predict p r it = Some v /\ v_idx v = place it /\ v_src v = [].
Proof. eexists. by split_and!. Qed.

#[export] Program Instance regression : PredictorInterface N RegressionPredictor := {
  p_precompress_block := precompress_block;
  p_precompress_block_commit p := Some (precompress_block_commit p);
  p_predecompress_block := predecompress_block;
  p_predict := predict;
  p_estimate_error := estimate_error;
  p_save := save;
  p_load := load;
  p_reach _ := 0%nat;
  p_sees _ _ := True;
  p_commits := can_commit;
  p_rejects _ := True;
  p_leads := leads_to;
  p_follows := in_step;
  p_new := is_new;
  p_storable := can_store;
  p_cost := cost
}.
Next Obligation. done. Qed.
Next Obligation. intros p r its data _ Hv. exact (precompress_total_rows r its data _ Hv (viewed_pos _ _ _ _ _ Hv) p). Qed.
Next Obligation.
  intros p r its data it _ Hv Hit. unfold estimate_error. destruct (at_iter_viewed _ _ _ _ _ _ Hv Hit) as [x ->]. done.
Qed.
Next Obligation.
  intros p r data b p1. unfold precompress_block. destruct (existsb _ _); [by intros [= <- <-] |].
  destruct (rows _ _ _ _ _) as [sum |]; [| done]. cbn [mbind option_bind]. intros [= <- <-]. done.
Qed.
Next Obligation.
  intros p r data p1. unfold precompress_block. destruct (existsb _ _) eqn:Ed; [done |].
  destruct (rows _ _ _ _ _) as [sum |]; [| done]. cbn [mbind option_bind]. intros [= <-] Hc.
  destruct (commit_in_step _ Hc) as [H1 H2]. eexists. split; [done |]. split; [done |]. split; [done |]. intros d pf Hl Hd.
  destruct (H2 d pf r Ed Hl Hd) as (d2 & E & Hd2 & Ec). exists d2. split_and!; try done.
  intros it. unfold predict. by rewrite Ec.
Qed.
Next Obligation.
  intros p r data p1. unfold precompress_block. destruct (existsb _ _) eqn:Ed.
  - intros [= <-] _ d pf Hd. exists d. unfold predecompress_block. by rewrite Ed.
  - destruct (rows _ _ _ _ _) as [sum |]; done.
Qed.
Next Obligation. intros p r it _ _. destruct (predict_no_reads p r it) as (v & E1 & E2 & E3). exists v. rewrite E3. split_and!; try done. Qed.
Next Obligation. apply load_in_step. Qed.

End predictor.

End RegressionPredictor.
