(* ===== verification/SzPoly.v ===== *)
(** * SzPoly: the predictor by regression with squares

    Models [SZ3/predictor/PolyRegressionPredictor.hpp] at [T = double], behind the interface of
    the predictors.  The tables of [PolyRegressionCoeffAux.hpp] are a variable. *)

From Stdlib Require Import ZArith Lia.
From stdpp Require Import sets.
From S2P Require Import Prelude Bytes Float64 SzBytes Stl Quantizer SzHuffman SzEncoder SzDecomp SzIterator SzPredictor.
Import Iterator (range, iterator, place, dimensions, local_index, elements).

Module PolyRegressionPredictor.
Notation Quantizer := LinearQuantizer.LinearQuantizer.
#[local] Existing Instance LinearQuantizer.linear_quantizer.

Record PolyRegressionPredictor := mk {
  quantizer_independent : Quantizer;
  quantizer_liner : Quantizer;
  quantizer_poly : Quantizer;
  regression_coeff_quant_inds : list Z;
  regression_coeff_index : nat;
  current_coeffs : list Z;
  prev_coeffs : list Z;
  coef_aux_list : list (list Z)
}.

Definition set_current (p : PolyRegressionPredictor) (c : list Z) : PolyRegressionPredictor :=
  mk (quantizer_independent p) (quantizer_liner p) (quantizer_poly p) (regression_coeff_quant_inds p)
    (regression_coeff_index p) c (prev_coeffs p) (coef_aux_list p).

Section predictor.

Variable N : nat.
(** The numbers of the table for [N] dimensions, as doubles. *)
Variable COEFF : list Z.
Context `{Order : !MapOrder}.
Variables (left_first : bool) (junk : Z).

Definition M : nat := ((N + 1) * (N + 2) / 2)%nat.

(** The greatest block size, for [N] dimensions. *)
Definition COEF_AUX_MAX_BLOCK : list nat := [5000; 4096; 64; 16]%nat.
Definition max_block : nat := default 0%nat (COEF_AUX_MAX_BLOCK !! N).

Definition get_coef_aux_list_idx (dims : list nat) : nat := foldl (fun acc d => acc * max_block + d)%nat 0%nat dims.

(** The loop of [init_poly] over the table; [None] for an entry past the end of the list, or one
    that is not complete. *)
Fixpoint init_loop (fuel : nat) (data : list Z) (l : list (list Z)) : option (list (list Z)) :=
  match fuel, data with
  | _, [] => Some l
  | O, _ => None
  | S fuel, _ =>
      _ ← assert (N + M * M <=? length data)%nat;
      let idx := get_coef_aux_list_idx ((fun x => Z.to_nat (f64_to_i64 x)) <$> take N data) in
      _ ← assert (idx <? length l)%nat;
      init_loop fuel (drop (N + M * M) data) (<[idx := take (M * M) (drop N data)]> l)
  end.

(** [None] for more than 3 dimensions and for blocks that are too large. *)
Definition init_poly (block_size : Z) : option (list (list Z)) :=
  _ ← assert ((1 <=? N)%nat && (N <=? 3)%nat && (block_size <=? Z.of_nat max_block));
  init_loop (length COEFF) COEFF (replicate (default 0%nat (COEF_AUX_MAX_BLOCK !! 0%nat)) (replicate (M * M) 0)).

Definition new (block_size eb : Z) : option PolyRegressionPredictor :=
  let q n := LinearQuantizer.new (f64_div (f64_div eb (f64_of_Z n)) (f64_of_Z block_size)) 32768 in
  independent ← q 5;
  liner ← q 20;
  poly ← q 100;
  l ← init_poly block_size;
  Some (mk independent liner poly [] 0 (replicate M 0) (replicate M 0) l).

(** The monomials of an index. *)
Definition get_poly_index (l : list nat) : list Z :=
  let x i := f64_of_Z (Z.of_nat (default 0%nat (l !! i))) in
  let one := f64_of_Z 1 in
  let '(i, j, k) := (x 0%nat, x 1%nat, x 2%nat) in
  match N with
  | 1%nat => [one; i; f64_mul i i]
  | 2%nat => [one; i; j; f64_mul i i; f64_mul i j; f64_mul j j]
  | _ => [one; i; j; k; f64_mul i i; f64_mul i j; f64_mul i k; f64_mul j j; f64_mul j k; f64_mul k k]
  end.

(** The sums over a block. *)
Fixpoint sums (data : list Z) (its : list iterator) (sum : list Z) : option (list Z) :=
  match its with
  | [] => Some sum
  | it :: its =>
      x ← at_iter data it;
      sums data its (zip_with (fun s y => f64_add s (f64_mul y x)) sum (get_poly_index (local_index it)))
  end.

Definition coeffs_of (aux sum : list Z) : list Z :=
  (fun i => foldl (fun acc j => f64_add acc (f64_mul (default 0 (aux !! (i * M + j)%nat)) (default 0 (sum !! j))))
              0 (seq 0 M)) <$> seq 0 M.

Definition precompress_block (p : PolyRegressionPredictor) (r : range) (data : list Z)
    : option (bool * PolyRegressionPredictor) :=
  if existsb (fun d => d <=? 2)%nat (dimensions r) then Some (false, p)
  else
    its ← elements r;
    sum ← sums data its (replicate M 0);
    aux ← coef_aux_list p !! get_coef_aux_list_idx (dimensions r);
    Some (true, set_current p (coeffs_of aux sum)).

Definition precompress_block_commit (p : PolyRegressionPredictor) : PolyRegressionPredictor :=
  let c := current_coeffs p in
  let pc := prev_coeffs p in
  let '(inds1, c1, q1) := Coefficients.quantize (quantizer_independent p) (take 1 c) (take 1 pc) in
  let '(inds2, c2, q2) := Coefficients.quantize (quantizer_liner p) (take N (drop 1 c)) (take N (drop 1 pc)) in
  let '(inds3, c3, q3) := Coefficients.quantize (quantizer_poly p) (drop N (drop 1 c)) (drop N (drop 1 pc)) in
  mk q1 q2 q3 (regression_coeff_quant_inds p ++ inds1 ++ inds2 ++ inds3) (regression_coeff_index p)
    (c1 ++ c2 ++ c3) (c1 ++ c2 ++ c3) (coef_aux_list p).

Definition predict (p : PolyRegressionPredictor) (r : range) (it : iterator) : option visit :=
  let pred := foldl (fun acc xc => f64_add acc (f64_mul xc.1 xc.2)) 0
    (zip (get_poly_index (local_index it)) (current_coeffs p)) in
  Some {| v_idx := place it; v_src := []; v_fun := fun _ => pred |}.

Definition estimate_error (p : PolyRegressionPredictor) (r : range) (data : list Z) (it : iterator) : option Z :=
  x ← at_iter data it;
  v ← predict p r it;
  y ← predicted data v;
  Some (f64_abs (f64_sub x y)).

Definition save (p : PolyRegressionPredictor) : option (list Z) :=
  let inds := regression_coeff_quant_inds p in
  let head := [3] ++ le_bytes 8 (Z.of_nat (length inds)) in
  if decide (inds = []) then Some head
  else
    encoded ← huffman_run left_first junk inds
      (2 * Z.max (Z.max (LinearQuantizer.radius (quantizer_independent p)) (LinearQuantizer.radius (quantizer_liner p)))
             (LinearQuantizer.radius (quantizer_poly p)));
    Some (head ++ LinearQuantizer.save (quantizer_independent p) ++ LinearQuantizer.save (quantizer_liner p)
            ++ LinearQuantizer.save (quantizer_poly p) ++ encoded).

Definition load (p : PolyRegressionPredictor) (c : list Z) (remaining_length : Z)
    : option (PolyRegressionPredictor * list Z * Z) :=
  '(_, c) ← MemoryUtil.read_var 1 c;
  let remaining_length := u64 (remaining_length - 1) in
  '(coeff_size, c) ← MemoryUtil.read_var 8 c;
  let remaining_length := u64 (remaining_length - 8) in
  '(q1, q2, q3, inds, c, remaining_length) ←
    (if coeff_size =? 0 then
       Some (quantizer_independent p, quantizer_liner p, quantizer_poly p, regression_coeff_quant_inds p, c, remaining_length)
     else
       '(q1, c, remaining_length) ← LinearQuantizer.load (quantizer_independent p) c remaining_length;
       '(q2, c, remaining_length) ← LinearQuantizer.load (quantizer_liner p) c remaining_length;
       '(q3, c, remaining_length) ← LinearQuantizer.load (quantizer_poly p) c remaining_length;
       '(inds, c) ← huffman_unrun c remaining_length (Z.to_nat coeff_size);
       Some (q1, q2, q3, inds, c, remaining_length - 4));
  Some (mk q1 q2 q3 inds 0 (replicate M 0) (prev_coeffs p) (coef_aux_list p), c, remaining_length).

Definition predecompress_block (p : PolyRegressionPredictor) (r : range) : option (bool * PolyRegressionPredictor) :=
  if existsb (fun d => d <=? 2)%nat (dimensions r) then Some (false, p)
  else
    let c := current_coeffs p in
    let rest := drop (regression_coeff_index p) (regression_coeff_quant_inds p) in
    '(c1, rest, q1) ← Coefficients.recover (quantizer_independent p) (take 1 c) rest;
    '(c2, rest, q2) ← Coefficients.recover (quantizer_liner p) (take N (drop 1 c)) rest;
    '(c3, rest, q3) ← Coefficients.recover (quantizer_poly p) (drop N (drop 1 c)) rest;
    Some (true, mk q1 q2 q3 (regression_coeff_quant_inds p)
                  (length (regression_coeff_quant_inds p) - length rest) (c1 ++ c2 ++ c3) (prev_coeffs p) (coef_aux_list p)).

(** ** The laws *)

Definition leads_to (p p' : PolyRegressionPredictor) : Prop :=
  regression_coeff_quant_inds p `prefix_of` regression_coeff_quant_inds p' /\
  leads (quantizer_independent p) (quantizer_independent p') /\ leads (quantizer_liner p) (quantizer_liner p') /\
  leads (quantizer_poly p) (quantizer_poly p').

#[export] Instance leads_to_preorder : PreOrder leads_to.
Proof.
  split; [by intros p |]. intros p1 p2 p3 (A1 & A2 & A3 & A4) (B1 & B2 & B3 & B4). split_and!; by etrans.
Qed.

Definition in_step (d p pf : PolyRegressionPredictor) : Prop :=
  regression_coeff_quant_inds d = regression_coeff_quant_inds pf /\
  regression_coeff_index d = length (regression_coeff_quant_inds p) /\
  current_coeffs d = prev_coeffs p /\
  (regression_coeff_quant_inds pf = regression_coeff_quant_inds p \/
   follows (quantizer_independent d) (quantizer_independent p) (quantizer_independent pf) /\
   follows (quantizer_liner d) (quantizer_liner p) (quantizer_liner pf) /\
   follows (quantizer_poly d) (quantizer_poly p) (quantizer_poly pf)).

Definition can_commit (p : PolyRegressionPredictor) : Prop :=
  let c := current_coeffs p in
  let pc := prev_coeffs p in
  Coefficients.quantizable_all (quantizer_independent p) (take 1 c) (take 1 pc) /\
  Coefficients.quantizable_all (quantizer_liner p) (take N (drop 1 c)) (take N (drop 1 pc)) /\
  Coefficients.quantizable_all (quantizer_poly p) (drop N (drop 1 c)) (drop N (drop 1 pc)) /\ c <> [].

Lemma poly_commit_step p : can_commit p ->
  leads_to p (precompress_block_commit p) /\
  forall d pf r, existsb (fun x => x <=? 2)%nat (dimensions r) = false -> leads_to (precompress_block_commit p) pf ->
    in_step d p pf ->
    exists d2, predecompress_block d r = Some (true, d2) /\ in_step d2 (precompress_block_commit p) pf /\
      current_coeffs d2 = current_coeffs (precompress_block_commit p).
Proof.
  intros (H1 & H2 & H3 & Hlen). unfold precompress_block_commit.
  destruct (Coefficients.quantize_spec _ _ _ H1) as (inds1 & c1 & q1 & E1 & L1 & N1 & M1 & R1).
  destruct (Coefficients.quantize_spec _ _ _ H2) as (inds2 & c2 & q2 & E2 & L2 & _ & _ & R2).
  destruct (Coefficients.quantize_spec _ _ _ H3) as (inds3 & c3 & q3 & E3 & L3 & _ & _ & R3).
  rewrite E1, E2, E3. rewrite length_take in N1.
  assert (0 < length inds1)%nat as Hi by (destruct (current_coeffs p); [done | simpl in N1; lia]). split.
  { split_and!; simpl; try done. by eexists. }
  intros d pf r Hdims (K1 & K2 & K3 & K4) (D1 & D2 & D3 & D4). unfold predecompress_block. rewrite Hdims, D1, D2, D3.
  destruct K1 as [tl K1]. simpl in K1, K2, K3, K4. destruct D4 as [D4 | (D4 & D5 & D6)].
  { rewrite K1, <- !app_assoc in D4. apply (f_equal length) in D4. rewrite !length_app in D4. lia. }
  rewrite K1, <- !app_assoc, drop_app_length.
  destruct (R1 _ (quantizer_independent pf) (inds2 ++ inds3 ++ tl) K2 D4) as (e1 & -> & F1). cbn [mbind option_bind].
  destruct (R2 _ (quantizer_liner pf) (inds3 ++ tl) K3 D5) as (e2 & -> & F2). cbn [mbind option_bind].
  destruct (R3 _ (quantizer_poly pf) tl K4 D6) as (e3 & -> & F3). cbn [mbind option_bind].
  eexists. split; [done |]. split; [| done]. split_and!; simpl; try done.
  - by rewrite K1, <- !app_assoc.
  - rewrite !length_app. lia.
  - by right.
Qed.

Definition is_new (p d : PolyRegressionPredictor) : Prop :=
  fresh (quantizer_independent p) /\ fresh (quantizer_liner p) /\ fresh (quantizer_poly p) /\
  regression_coeff_quant_inds p = [] /\ prev_coeffs p = replicate M 0 /\ regression_coeff_quant_inds d = [].

Definition can_store (p : PolyRegressionPredictor) : Prop :=
  regression_coeff_quant_inds p <> [] ->
  storable (quantizer_independent p) /\ storable (quantizer_liner p) /\ storable (quantizer_poly p) /\
  SzHuffman.encodable (regression_coeff_quant_inds p).

Definition cost (p : PolyRegressionPredictor) : Z := Z.of_nat (length (default [] (save p))) + 4.

Lemma poly_load_step p0 d0 pf : is_new p0 d0 -> leads_to p0 pf -> can_store pf ->
  exists bytes, save pf = Some bytes /\ Z.of_nat (length bytes) <= cost pf /\
    forall tl rem, cost pf <= rem < 2 ^ 62 ->
      exists d rem', load d0 (bytes ++ tl) rem = Some (d, tl, rem') /\ in_step d p0 pf /\ rem - cost pf <= rem' <= rem.
Proof.
  intros (N1 & N2 & N3 & N4 & N5 & N6) (K1 & K2 & K3 & K4) Hst. unfold cost. unfold can_store in Hst.
  unfold save. destruct (decide (regression_coeff_quant_inds pf = [])) as [E | Hne].
  - rewrite E. eexists. split; [done |]. cbn [from_option id]. split; [lia |].
    rewrite length_app, length_le_bytes. intros tl rem Hrem. cbn [length] in Hrem. unfold load. cbv zeta.
    rewrite (Coefficients.read_head 3 0), Coefficients.remaining_head by (simpl; lia).
    cbn [Z.of_nat Z.eqb mbind option_bind]. eexists _, (rem - 9). split; [done |]. split; [| simpl; lia].
    split_and!; simpl; [by rewrite N6, E | by rewrite N4 | by rewrite N5 | left; by rewrite E, N4].
  - destruct (Hst Hne) as (S1 & S2 & S3 & S4).
    destruct (@e_correct (huffman_encoder left_first junk) (regression_coeff_quant_inds pf)
      (2 * Z.max (Z.max (LinearQuantizer.radius (quantizer_independent pf)) (LinearQuantizer.radius (quantizer_liner pf)))
             (LinearQuantizer.radius (quantizer_poly pf))) S4)
      as (encoded & Ee & Hdec). simpl in Ee, Hdec. rewrite Ee. cbn [mbind option_bind]. eexists. split; [done |].
    cbn [from_option id]. split; [lia |]. intros tl rem Hrem.
    pose proof S4 as (_ & _ & _ & Hmany). rewrite !length_app, length_le_bytes in Hrem. cbn [length] in Hrem.
    rewrite !length_app, length_le_bytes. cbn [length]. unfold load. cbv zeta. rewrite <- app_assoc.
    rewrite Coefficients.read_head, Coefficients.remaining_head by lia. rewrite (proj2 (Z.eqb_neq _ _)).
    2: { intros E. apply Hne, nil_length_inv. lia. }
    rewrite <- !app_assoc.
    destruct (@load_follows _ LinearQuantizer.linear_quantizer (quantizer_independent d0) (quantizer_independent p0)
      (quantizer_independent pf) (LinearQuantizer.save (quantizer_liner pf) ++ LinearQuantizer.save (quantizer_poly pf)
        ++ encoded ++ tl) (rem - 9) N1 K2 S1)
      as (e1 & rem1 & E1 & F1 & Hr1); [cbn [q_save q_load LinearQuantizer.linear_quantizer]; lia |].
    cbn [q_save q_load LinearQuantizer.linear_quantizer] in E1, Hr1. rewrite E1. cbn [mbind option_bind].
    destruct (@load_follows _ LinearQuantizer.linear_quantizer (quantizer_liner d0) (quantizer_liner p0)
      (quantizer_liner pf) (LinearQuantizer.save (quantizer_poly pf) ++ encoded ++ tl) rem1 N2 K3 S2)
      as (e2 & rem2 & E2 & F2 & Hr2); [cbn [q_save q_load LinearQuantizer.linear_quantizer]; lia |].
    cbn [q_save q_load LinearQuantizer.linear_quantizer] in E2, Hr2. rewrite E2. cbn [mbind option_bind].
    destruct (@load_follows _ LinearQuantizer.linear_quantizer (quantizer_poly d0) (quantizer_poly p0)
      (quantizer_poly pf) (encoded ++ tl) rem2 N3 K4 S3)
      as (e3 & rem3 & E3 & F3 & Hr3); [cbn [q_save q_load LinearQuantizer.linear_quantizer]; lia |].
    cbn [q_save q_load LinearQuantizer.linear_quantizer] in E3, Hr3. rewrite E3. cbn [mbind option_bind].
    rewrite Nat2Z.id, Hdec by lia. cbn [mbind option_bind].
    eexists _, _. split; [done |]. split; [| lia]. split_and!; simpl; [done | by rewrite N4 | done | by right].
Qed.

Lemma commit_aux p : coef_aux_list (precompress_block_commit p) = coef_aux_list p.
Proof.
  unfold precompress_block_commit. destruct (Coefficients.quantize (quantizer_independent p) _ _) as [[? ?] ?].
  destruct (Coefficients.quantize (quantizer_liner p) _ _) as [[? ?] ?].
  by destruct (Coefficients.quantize (quantizer_poly p) _ _) as [[? ?] ?].
Qed.

Lemma sums_total its data : Forall (fun it => is_Some (at_iter data it)) its -> forall sum, is_Some (sums data its sum).
Proof. induction 1 as [| it its [x Hx] H IH]; intros sum; cbn [sums]; [done |]. rewrite Hx. apply IH. Qed.

#[export] Program Instance poly : PredictorInterface N PolyRegressionPredictor := {
  p_precompress_block := precompress_block;
  p_precompress_block_commit p := Some (precompress_block_commit p);
  p_predecompress_block := predecompress_block;
  p_predict := predict;
  p_estimate_error := estimate_error;
  p_save := save;
  p_load := load;
  p_reach _ := 0%nat;
  p_sees p r := is_Some (coef_aux_list p !! get_coef_aux_list_idx (dimensions r));
  p_commits := can_commit;
  p_rejects _ := True;
  p_leads := leads_to;
  p_follows := in_step;
  p_new := is_new;
  p_storable := can_store;
  p_cost := cost
}.
Next Obligation. done. Qed.
Next Obligation.
  intros p r its data [aux Ha] Hv. unfold precompress_block. destruct (existsb _ _); [done |].
  rewrite (vw_elements _ _ _ _ _ Hv). cbn [mbind option_bind].
  destruct (sums_total its data) with (sum := replicate M 0) as [sum ->].
  { apply list.Forall_forall. intros it Hit. by eapply at_iter_viewed. }
  cbn [mbind option_bind]. rewrite Ha. done.
Qed.
Next Obligation.
  intros p r its data it _ Hv Hit. unfold estimate_error. destruct (at_iter_viewed _ _ _ _ _ _ Hv Hit) as [x ->]. done.
Qed.
Next Obligation.
  intros p r data b p1. unfold precompress_block. destruct (existsb _ _); [by intros [= <- <-] |].
  intros (its & _ & (sum & _ & (aux & _ & [= <- <-])%bind_Some)%bind_Some)%bind_Some. done.
Qed.
Next Obligation.
  intros p r data p1. unfold precompress_block. destruct (existsb _ _) eqn:Ed; [done |].
  intros (its & _ & (sum & _ & (aux & _ & [= <-])%bind_Some)%bind_Some)%bind_Some Hc.
  destruct (poly_commit_step _ Hc) as [H1 H2]. eexists. split; [done |]. split; [done |]. split; [by rewrite commit_aux |]. intros d pf Hl Hd.
  destruct (H2 d pf r Ed Hl Hd) as (d2 & E & Hd2 & Ec). exists d2. split_and!; try done.
  intros it. unfold predict. by rewrite Ec.
Qed.
Next Obligation.
  intros p r data p1. unfold precompress_block. destruct (existsb _ _) eqn:Ed.
  - intros [= <-] _ d pf Hd. exists d. unfold predecompress_block. by rewrite Ed.
  - by intros (its & _ & (sum & _ & (aux & _ & [=])%bind_Some)%bind_Some)%bind_Some.
Qed.
Next Obligation. intros p r it _ _. eexists. split; [done |]. split; [done |]. constructor. Qed.
Next Obligation. apply poly_load_step. Qed.

End predictor.

End PolyRegressionPredictor.
