(* ===== verification/SzComposed.v ===== *)
(** * SzComposed: the predictor that chooses among others

    Models [SZ3/predictor/ComposedPredictor.hpp] at [T = double].  For every block it estimates
    the error of each of its predictors at the corners and along the diagonals, takes the least
    and keeps the choice for the decompressor.

    A choice is kept when the compressor commits to the block; when the predictor that was
    chosen refused the block, nothing is kept, although the decompressor reads a choice for every
    block. *)

From Stdlib Require Import ZArith Lia.
From stdpp Require Import sets.
From S2P Require Import Prelude Bytes Float64 SzBytes Stl SzHuffman SzEncoder SzDecomp SzIterator SzPredictor.
Import Iterator (range, iterator, place, dimensions, local_index, elements, move2, begin, prev).

Lemma Forall3_insert {A B C} (R : A -> B -> C -> Prop) l k m i x y z :
  Forall3 R l k m -> R x y z -> Forall3 R (<[i := x]> l) (<[i := y]> k) (<[i := z]> m).
Proof. intros H Hr. revert i. induction H; intros [| i]; simpl; constructor; auto. Qed.

(** ** One predictor or another *)

(** The pointers to [PredictorInterface] may be to objects of different classes. *)
Section either.

Context {N : nat} {A B : Type} `{HA : !PredictorInterface N A} `{HB : !PredictorInterface N B}.

Definition lift2 {X} (fa : A -> A -> X) (fb : B -> B -> X) (no : X) (p p' : A + B) : X :=
  match p, p' with
  | inl a, inl a' => fa a a'
  | inr b, inr b' => fb b b'
  | _, _ => no
  end.

Definition lift3 (fa : A -> A -> A -> Prop) (fb : B -> B -> B -> Prop) (p1 p2 p3 : A + B) : Prop :=
  match p1, p2, p3 with
  | inl a1, inl a2, inl a3 => fa a1 a2 a3
  | inr b1, inr b2, inr b3 => fb b1 b2 b3
  | _, _, _ => False
  end.

Definition tag {X} (p : A + B) (fa : A -> X) (fb : B -> X) : X :=
  match p with inl a => fa a | inr b => fb b end.

(** A result with the object that it comes from. *)
Definition with_l (o : option (bool * A)) : option (bool * (A + B)) := '(ok, a) ← o; Some (ok, inl a).
Definition with_r (o : option (bool * B)) : option (bool * (A + B)) := '(ok, b) ← o; Some (ok, inr b).
Definition load_l (o : option (A * list Z * Z)) : option ((A + B) * list Z * Z) := '(a, c, rem) ← o; Some (inl a, c, rem).
Definition load_r (o : option (B * list Z * Z)) : option ((A + B) * list Z * Z) := '(b, c, rem) ← o; Some (inr b, c, rem).

Lemma lift2_preorder : PreOrder (lift2 p_leads p_leads False).
Proof.
  split; [by intros [a | b]; simpl |]. intros [a1 | b1] [a2 | b2] [a3 | b3]; simpl; try done; apply transitivity.
Qed.

#[export] Program Instance either : PredictorInterface N (A + B) := {
  p_precompress_block p r data :=
    tag p (fun a => with_l (p_precompress_block a r data)) (fun b => with_r (p_precompress_block b r data));
  p_precompress_block_commit p := tag p (fun a => (inl : A -> A + B) <$> p_precompress_block_commit a) (fun b => (inr : B -> A + B) <$> p_precompress_block_commit b);
  p_predecompress_block p r :=
    tag p (fun a => with_l (p_predecompress_block a r)) (fun b => with_r (p_predecompress_block b r));
  p_predict p r it := tag p (fun a => p_predict a r it) (fun b => p_predict b r it);
  p_estimate_error p r data it := tag p (fun a => p_estimate_error a r data it) (fun b => p_estimate_error b r data it);
  p_save p := tag p p_save p_save;
  p_load p c rem :=
    tag p (fun a => load_l (p_load a c rem)) (fun b => load_r (p_load b c rem));
  p_reach p := match p with inl a => p_reach a | inr b => p_reach b end;
  p_sees p r := match p with inl a => p_sees a r | inr b => p_sees b r end;
  p_commits p := match p with inl a => p_commits a | inr b => p_commits b end;
  p_rejects p := match p with inl a => p_rejects a | inr b => p_rejects b end;
  p_leads := lift2 p_leads p_leads False;
  p_follows := lift3 p_follows p_follows;
  p_new := lift2 p_new p_new False;
  p_storable p := match p with inl a => p_storable a | inr b => p_storable b end;
  p_cost p := match p with inl a => p_cost a | inr b => p_cost b end
}.
Next Obligation. apply lift2_preorder. Qed.
Next Obligation. intros [a | b] [a' | b'] H; simpl in *; try done; by apply p_leads_reach. Qed.
Next Obligation.
  intros [a | b] r its data Hs Hv; simpl in *; destruct (precompress_total _ r its data Hs Hv) as [[? ?] ->]; done.
Qed.
Next Obligation. intros [a | b] r its data it Hs Hv Hit; simpl in *; by eapply estimate_total. Qed.
Next Obligation.
  intros [a | b] r data ok p1; simpl; intros ([ok' a1] & E & [= <- <-])%bind_Some;
    destruct (precompress_follows _ _ _ _ _ E) as (Hl & Hs & Hf); (split; [done |]); (split; [done |]); intros [d | d] [pf | pf]; simpl; auto.
Qed.
Next Obligation.
  intros [a | b] r data p1; simpl; intros ([ok' a1] & E & [= -> <-])%bind_Some Hc;
    destruct (commit_follows _ _ _ _ E Hc) as (a2 & E2 & Hl & Hs & Hf); simpl; rewrite E2; eexists; (split; [done |]); (split; [done |]); (split; [done |]);
    intros [d | d] [pf | pf] Hlp Hd; simpl in *; try done;
    destruct (Hf d pf Hlp Hd) as (d2 & -> & Hd2 & Hp); eexists; (split; [done |]); done.
Qed.
Next Obligation.
  intros [a | b] r data p1; simpl; intros ([ok' a1] & E & [= -> <-])%bind_Some Hc [d | d] [pf | pf] Hd; simpl in *; try done;
    destruct (reject_follows _ _ _ _ E Hc d pf Hd) as (d2 & -> & Hd2); eexists; by split.
Qed.
Next Obligation. intros [a | b] r it Hs H; simpl in *; by apply predict_reads. Qed.
Next Obligation.
  intros [p0 | p0] [d0 | d0] [pf | pf] Hn Hl Hs; simpl in *; try done;
    destruct (p_load_follows p0 d0 pf Hn Hl Hs) as (bytes & -> & Hc & H); exists bytes; (split; [done |]); (split; [done |]);
    intros tl rem Hrem; destruct (H tl rem Hrem) as (d & rem' & -> & Hf & Hr); eexists _, _; (split; [done |]); done.
Qed.

End either.

(** ** The choice *)

Module ComposedPredictor.

(** [std::min_element] of doubles, as an index: the first of the least. *)
Fixpoint min_loop (l : list Z) (i best : nat) (least : Z) : nat :=
  match l with
  | [] => best
  | x :: l => if f64_ltb x least then min_loop l (S i) i x else min_loop l (S i) best least
  end.
Definition min_element (l : list Z) : option nat :=
  match l with
  | [] => None
  | x :: l => Some (min_loop l 1 0 x)
  end.

Definition min_dimension (dims : list nat) : nat :=
  match dims with
  | [] => 0
  | d :: dims => foldl Nat.min d dims
  end.

(** The corners where the diagonals of a block start: whether at the far end of a dimension, for
    every dimension but the first. *)
Fixpoint corners (k : nat) : list (list bool) :=
  match k with
  | O => [[]]
  | S k => (cons false <$> corners k) ++ (cons true <$> corners k)
  end.

Definition to_corner (m : nat) (c : list bool) : list Z :=
  0 :: ((fun far : bool => if far then Z.of_nat m - 1 else 0) <$> c).
Definition along (c : list bool) : list Z := 1 :: ((fun far : bool => if far then -1 else 1) <$> c).

Section predictor.

Variable N : nat.
Context {P : Type} `{HP : !PredictorInterface N P}.
Context `{Order : !MapOrder}.
Variables (left_first : bool) (junk : Z).

Record ComposedPredictor := mk {
  predictors : list P;
  selection : list Z;
  sid : nat;
  current_index : nat;
  predict_error : list Z
}.

Definition new (ps : list P) : ComposedPredictor := mk ps [] 0 0 (replicate (length ps) 0).

(** What the iterators [its] add to the error of a predictor. *)
Definition add_error (r : range) (data : list Z) (its : list iterator) (p : P) (e : Z) : option Z :=
  foldl (fun acc it => e ← acc; x ← p_estimate_error p r data it; Some (f64_add e x)) (Some e) its.

Definition add_errors (r : range) (data : list Z) (its : list iterator) (ps : list P) (errs : list Z) : option (list Z) :=
  mapM (fun pe => add_error r data its pe.1 pe.2) (zip ps errs).

(** The loop along the diagonals. *)
Fixpoint diagonals (n : nat) (r : range) (data : list Z) (ps : list P) (its : list (list bool * iterator))
    (errs : list Z) : option (list Z) :=
  match n with
  | O => Some errs
  | S n =>
      errs ← add_errors r data its.*2 ps errs;
      its ← mapM (fun ci => it ← move2 r (along ci.1) ci.2; Some (ci.1, it)) its;
      diagonals n r data ps its errs
  end.

(** For one dimension, the first and the last value. *)
Definition do_estimate_error (r : range) (data : list Z) (ps : list P) (it : iterator) (m : nat) : option (list Z) :=
  let errs := replicate (length ps) 0 in
  if (N =? 1)%nat then
    it1 ← move2 r [Z.of_nat m - 1] it;
    add_errors r data [it; it1] ps errs
  else
    its ← mapM (fun c => it ← move2 r (to_corner m c) it; Some (c, it)) (corners (N - 1));
    diagonals (m - 2) r data ps its errs.

Definition precompress_block (p : ComposedPredictor) (r : range) (data : list Z) : option (bool * ComposedPredictor) :=
  results ← mapM (fun x => p_precompress_block x r data) (predictors p);
  let ps := results.*2 in
  errs ← do_estimate_error r data ps (begin r) (min_dimension (dimensions r));
  i ← min_element errs;
  result ← results.*1 !! i;
  Some (result, mk ps (selection p) i (current_index p) errs).

Definition precompress_block_commit (p : ComposedPredictor) : option ComposedPredictor :=
  x ← predictors p !! sid p;
  x ← p_precompress_block_commit x;
  Some (mk (<[sid p := x]> (predictors p)) (selection p ++ [Z.of_nat (sid p)]) (sid p) (current_index p) (predict_error p)).

(** [None] when there is no choice left, or none of a predictor. *)
Definition predecompress_block (p : ComposedPredictor) (r : range) : option (bool * ComposedPredictor) :=
  s ← selection p !! current_index p;
  _ ← assert (0 <=? s);
  x ← predictors p !! Z.to_nat s;
  '(result, x) ← p_predecompress_block x r;
  Some (result, mk (<[Z.to_nat s := x]> (predictors p)) (selection p) (Z.to_nat s) (S (current_index p)) (predict_error p)).

Definition predict (p : ComposedPredictor) (r : range) (it : iterator) : option visit :=
  x ← predictors p !! sid p;
  p_predict x r it.

Definition estimate_error (p : ComposedPredictor) (r : range) (data : list Z) (it : iterator) : option Z :=
  x ← predictors p !! sid p;
  p_estimate_error x r data it.

Definition save_selection (p : ComposedPredictor) : option (list Z) :=
  let head := le_bytes 8 (Z.of_nat (length (selection p))) in
  if decide (selection p = []) then Some head
  else encoded ← huffman_run left_first junk (selection p) (Z.of_nat (length (predict_error p))); Some (head ++ encoded).

Definition save (p : ComposedPredictor) : option (list Z) :=
  l ← mapM p_save (predictors p);
  s ← save_selection p;
  Some (mjoin l ++ s).

Fixpoint load_all (ps : list P) (c : list Z) (remaining_length : Z) : option (list P * list Z * Z) :=
  match ps with
  | [] => Some ([], c, remaining_length)
  | p :: ps =>
      '(p, c, remaining_length) ← p_load p c remaining_length;
      '(ps, c, remaining_length) ← load_all ps c remaining_length;
      Some (p :: ps, c, remaining_length)
  end.

Definition load (p : ComposedPredictor) (c : list Z) (remaining_length : Z) : option (ComposedPredictor * list Z * Z) :=
  '(ps, c, remaining_length) ← load_all (predictors p) c remaining_length;
  '(selection_size, c) ← MemoryUtil.read_var 8 c;
  if 0 <? selection_size then
    let remaining_length := u64 (remaining_length - 8) in
    '(s, c) ← huffman_unrun c remaining_length (Z.to_nat selection_size);
    Some (mk ps s (sid p) (current_index p) (predict_error p), c, remaining_length - 4)
  else Some (mk ps (selection p) (sid p) (current_index p) (predict_error p), c, remaining_length).

(** ** The estimates are defined *)

Lemma viewed_mono reach reach' r its data : (reach' <= reach)%nat -> viewed N reach r its data -> viewed N reach' r its data.
Proof.
  intros Hle [H1 H2 H3 H4 H5 H6]. split; try done. intros it args Hit (A1 & A2 & A3). apply H6; [done |].
  split_and!; try done. eapply Forall_impl; [| exact A2]. simpl. lia.
Qed.

Lemma min_dimension_le dims : Forall (fun d => min_dimension dims <= d)%nat dims /\
  (dims <> [] -> Forall (fun d => 0 < d)%nat dims -> 0 < min_dimension dims)%nat.
Proof.
  destruct dims as [| d dims]; [split; [constructor | done] |]. unfold min_dimension.
  assert (forall l a, Forall (fun d => foldl Nat.min a l <= d)%nat l /\ (foldl Nat.min a l <= a)%nat /\
    ((0 < a)%nat -> Forall (fun d => 0 < d)%nat l -> (0 < foldl Nat.min a l)%nat)) as H.
  { clear. induction l as [| d l IH]; intros a; simpl; [by split_and! |]. destruct (IH (Nat.min a d)) as (H1 & H2 & H3).
    split_and!; [constructor; [lia | done] | lia |]. intros Ha [Hd Hl]%Forall_cons_iff. apply H3; [lia | done]. }
  destruct (H dims d) as (H1 & H2 & H3). split; [by constructor |]. intros _ [Hd Hl]%Forall_cons_iff. auto.
Qed.

Section block.

Context (r : range) (its : list iterator) (data : list Z) (ps : list P).
Hypothesis Hv : Forall (fun p => p_sees p r /\ viewed N (p_reach p) r its data) ps.
Hypothesis Hr : Iterator.range_ok r.
Hypothesis Hvis : Iterator.visited r its.
Hypothesis Hdims : length (dimensions r) = N.

Lemma add_errors_total l errs : Forall (fun it => it ∈ its) l -> length errs = length ps ->
  exists errs', add_errors r data l ps errs = Some errs' /\ length errs' = length ps.
Proof.
  intros Hl Hlen. unfold add_errors. revert errs Hlen. induction Hv as [| p ps' [Hs Hp] Hps IH]; intros [| e errs] Hlen; try done.
  { by exists []. }
  cbn [zip zip_with mapM].
  assert (forall e, is_Some (add_error r data l p e)) as He.
  { clear -Hl Hs Hp. unfold add_error. induction Hl as [| it l Hit Hl IH]; intros e; simpl; [done |].
    destruct (estimate_total p r its data it Hs Hp Hit) as [x ->]. cbn [mbind option_bind]. apply IH. }
  destruct (He e) as [e' E]. cbn [fst snd]. rewrite E. cbn [mbind option_bind].
  destruct (IH Hps errs) as (errs' & -> & Hl'); [by injection Hlen |]. exists (e' :: errs'). split; [done |]. simpl. lia.
Qed.

(** The index on the diagonal from a corner, after [t] steps. *)
Definition diagonal (m t : nat) (c : list bool) : list nat := t :: ((fun far : bool => if far then m - 1 - t else t)%nat <$> c).

Lemma diagonal_inside m t c : Forall (fun d => m <= d)%nat (dimensions r) -> S (length c) = N -> (t < m)%nat ->
  Forall2 lt (diagonal m t c) (dimensions r).
Proof.
  intros Hm Hc Ht. apply Forall2_same_length_lookup. split; [unfold diagonal; simpl; by rewrite length_fmap, Hdims |].
  intros j x d Hx Hd. rewrite Forall_lookup in Hm. specialize (Hm _ _ Hd).
  assert (x < m)%nat; [| lia]. apply list_elem_of_lookup_2, elem_of_cons in Hx as [-> | Hx]; [done |].
  apply list_elem_of_fmap in Hx as (far & -> & _). destruct far; lia.
Qed.

Lemma diagonals_total m : Forall (fun d => m <= d)%nat (dimensions r) ->
  forall n t cs errs, (n = 0 \/ t + n < m)%nat -> Forall (fun c => S (length c) = N) cs -> length errs = length ps ->
  exists errs', diagonals n r data ps ((fun c => (c, Iterator.at_index r (diagonal m t c))) <$> cs) errs = Some errs' /\
    length errs' = length ps.
Proof.
  intros Hm. induction n as [| n IH]; intros t cs errs Hn Hcs Hlen; cbn [diagonals]; [by exists errs |].
  destruct (add_errors_total (((fun c => (c, Iterator.at_index r (diagonal m t c))) <$> cs).*2) errs) as (errs1 & E1 & L1).
  { rewrite <- list_fmap_compose. apply Forall_fmap. eapply Forall_impl; [| exact Hcs]. intros c Hc. simpl.
    apply (Iterator.visited_in r); [done | |]; [apply Iterator.at_index_ok |]; apply diagonal_inside; lia || done. }
  { done. }
  rewrite E1. cbn [mbind option_bind].
  assert (mapM (fun ci => it ← move2 r (along ci.1) ci.2; Some (ci.1, it))
    ((fun c => (c, Iterator.at_index r (diagonal m t c))) <$> cs)
    = Some ((fun c => (c, Iterator.at_index r (diagonal m (S t) c))) <$> cs)) as E2.
  { clear -Hcs Hm Hn Hr Hdims. induction Hcs as [| c cs Hc Hcs IH]; [done |]. rewrite !fmap_cons. cbn [mapM fst snd].
    rewrite (Iterator.move2_at r (along c) (diagonal m t c) (diagonal m (S t) c)); [| done | | |].
    - cbn [mbind option_bind]. by rewrite IH.
    - apply diagonal_inside; [done | done | lia].
    - apply diagonal_inside; [done | done | lia].
    - unfold along, diagonal. cbn [zip_with]. f_equal; [lia |]. clear -Hn. induction c as [| far c IH]; [done |].
      rewrite !fmap_cons. cbn [zip_with]. rewrite IH. f_equal. destruct far; lia. }
  rewrite E2. cbn [mbind option_bind]. apply IH; [lia | done | done].
Qed.

Lemma corners_length k : Forall (fun c => length c = k) (corners k).
Proof.
  induction k as [| k IH]; simpl; [by repeat constructor |]. apply Forall_app.
  split; apply Forall_fmap; (eapply Forall_impl; [| exact IH]); intros c Hc; unfold compose; simpl in *; lia.
Qed.

Lemma estimates_total : exists errs,
  do_estimate_error r data ps (begin r) (min_dimension (dimensions r)) = Some errs /\ length errs = length ps.
Proof.
  destruct (min_dimension_le (dimensions r)) as [Hm Hm0]. specialize (Hm0 (Iterator.ro_nonempty r Hr) (Iterator.ro_pos r Hr)).
  set (m := min_dimension (dimensions r)) in *. clearbody m. unfold do_estimate_error. rewrite Iterator.begin_at, Hdims.
  assert (0 < N)%nat as HN by (rewrite <- Hdims; apply Nat.neq_0_lt_0; intros ?%nil_length_inv; by apply (Iterator.ro_nonempty r Hr)).
  assert (Forall2 lt (replicate N 0%nat) (dimensions r)) as Hz.
  { rewrite <- Hdims. pose proof (Iterator.ro_pos r Hr) as Hp. clear -Hp. induction Hp; simpl; constructor; done. }
  destruct (Nat.eqb_spec N 1) as [E | Hne].
  - assert (Forall2 lt [m - 1]%nat (dimensions r)) as Hm1.
    { destruct (dimensions r) as [| d [| d' ds]]; simpl in Hdims; try lia. inversion Hm; subst. repeat constructor. lia. }
    rewrite (Iterator.move2_at r _ (replicate N 0%nat) [(m - 1)%nat] Hr Hz Hm1).
    2: { rewrite E. simpl. f_equal. lia. }
    cbn [mbind option_bind]. apply add_errors_total; [| by rewrite length_replicate].
    repeat constructor; (apply (Iterator.visited_in r); [done | by apply Iterator.at_index_ok | done]).
  - assert (Forall (fun c => S (length c) = N) (corners (N - 1))) as Hc.
    { eapply Forall_impl; [| apply corners_length]. intros c H. simpl in H. lia. }
    assert (mapM (fun c => it ← move2 r (to_corner m c) (Iterator.at_index r (replicate N 0%nat)); Some (c, it)) (corners (N - 1))
      = Some ((fun c => (c, Iterator.at_index r (diagonal m 0 c))) <$> corners (N - 1))) as ->.
    { clear -Hc Hm Hm0 Hr Hdims Hz. induction Hc as [| c cs Hc Hcs IH]; [done |]. rewrite fmap_cons. cbn [mapM].
      rewrite (Iterator.move2_at r (to_corner m c) (replicate N 0%nat) (diagonal m 0 c)); [| done | done | |].
      - cbn [mbind option_bind]. by rewrite IH.
      - by apply diagonal_inside.
      - rewrite <- Hc. unfold to_corner, diagonal. cbn [replicate zip_with]. f_equal. clear -Hm0. induction c as [| far c IH]; [done |].
        rewrite !fmap_cons. cbn [length replicate zip_with]. rewrite IH. f_equal. destruct far; lia. }
    cbn [mbind option_bind]. apply diagonals_total; [done | lia | done | by rewrite length_replicate].
Qed.

End block.

Lemma min_element_lt l : l <> [] -> exists i, min_element l = Some i /\ (i < length l)%nat.
Proof.
  destruct l as [| x l]; [done |]. intros _. eexists. split; [done |]. simpl length.
  assert (forall l i best least, (best < i)%nat -> (min_loop l i best least < i + length l)%nat) as H.
  { clear. induction l as [| x l IH]; intros i best least Hb; simpl; [lia |].
    destruct (f64_ltb x least); [pose proof (IH (S i) i x) | pose proof (IH (S i) best least)]; lia. }
  specialize (H l 1%nat 0%nat x). lia.
Qed.

(** ** The laws *)

Definition reach (p : ComposedPredictor) : nat := foldr Nat.max 0%nat (p_reach <$> predictors p).

Definition sees (p : ComposedPredictor) (r : range) : Prop :=
  (sid p < length (predictors p))%nat /\ Forall (fun x => p_sees x r) (predictors p).

Definition leads_to (p p' : ComposedPredictor) : Prop :=
  Forall2 p_leads (predictors p) (predictors p') /\ selection p `prefix_of` selection p'.

Definition in_step (d p pf : ComposedPredictor) : Prop :=
  Forall3 p_follows (predictors d) (predictors p) (predictors pf) /\
  selection d = selection pf /\ current_index d = length (selection p).

Definition can_commit (p : ComposedPredictor) : Prop := from_option p_commits False (predictors p !! sid p).

Definition is_new (p d : ComposedPredictor) : Prop :=
  Forall2 p_new (predictors p) (predictors d) /\ selection p = [] /\ selection d = [] /\ current_index d = 0%nat.

Definition can_store (p : ComposedPredictor) : Prop :=
  Forall p_storable (predictors p) /\ (selection p <> [] -> SzHuffman.encodable (selection p)).

Definition cost (p : ComposedPredictor) : Z :=
  foldr Z.add 0 (p_cost <$> predictors p) + Z.of_nat (length (default [] (save_selection p))) + 4.

#[export] Instance leads_to_preorder : PreOrder leads_to.
Proof. split; [by intros p; split |]. intros p1 p2 p3 [A1 A2] [B1 B2]. split; by etrans. Qed.

Lemma reach_leads ps ps' : Forall2 p_leads ps ps' -> p_reach <$> ps' = p_reach <$> ps.
Proof. induction 1 as [| x y ps ps' H Hs IH]; [done |]. rewrite !fmap_cons, IH. f_equal. by apply p_leads_reach. Qed.

Lemma reach_le ps x : x ∈ ps -> (p_reach x <= foldr Nat.max 0%nat (p_reach <$> ps))%nat.
Proof. induction 1 as [x ps | x y ps H IH]; rewrite fmap_cons; simpl; lia. Qed.

(** Looking at a block, by each predictor. *)
Lemma precompress_spec p r data result p1 : precompress_block p r data = Some (result, p1) ->
  exists results, Forall2 (fun x res => p_precompress_block x r data = Some res) (predictors p) results /\
    predictors p1 = results.*2 /\ results.*1 !! sid p1 = Some result /\
    selection p1 = selection p /\ current_index p1 = current_index p.
Proof.
  unfold precompress_block. intros (results & E%mapM_Some_1 & (errs & _ & (i & _ & (b & Hb & [= -> <-])%bind_Some)%bind_Some)%bind_Some)%bind_Some.
  by exists results.
Qed.

Lemma results_leads ps results r data : Forall2 (fun x res => p_precompress_block x r data = Some res) ps results ->
  Forall2 p_leads ps results.*2 /\ (Forall (fun x => p_sees x r) ps -> Forall (fun x => p_sees x r) results.*2) /\
  forall ds pfs, Forall3 p_follows ds ps pfs -> Forall3 p_follows ds results.*2 pfs.
Proof.
  induction 1 as [| x [b y] ps results E H IH]; [by split_and! |]. destruct IH as (I1 & I2 & I3).
  destruct (precompress_follows _ _ _ _ _ E) as (L & S & F). split_and!.
  - by constructor.
  - intros [Hs Hss]%Forall_cons_iff. constructor; simpl; auto.
  - intros ds pfs H3. inversion H3; subst. constructor; [by apply F | by apply I3].
Qed.

Lemma composed_total p r its data : sees p r -> viewed N (reach p) r its data -> is_Some (precompress_block p r data).
Proof.
  intros [Hsid Hs] Hv. unfold precompress_block.
  assert (Forall (fun x => is_Some (p_precompress_block x r data)) (predictors p)) as Hall.
  { apply list.Forall_forall. intros x Hx. rewrite list.Forall_forall in Hs. apply (precompress_total x r its data); [by apply Hs |].
    eapply viewed_mono; [| exact Hv]. by apply reach_le. }
  apply mapM_is_Some_2 in Hall as [results E]. rewrite E. cbn [mbind option_bind]. apply mapM_Some_1 in E.
  destruct (results_leads _ _ _ _ E) as (L & S & _). specialize (S Hs).
  assert (length results.*2 = length (predictors p)) as Hlen by (by rewrite <- (Forall2_length L)).
  destruct (estimates_total r its data results.*2) as (errs & -> & Hle); [| apply Hv | apply Hv | apply Hv |].
  { apply list.Forall_forall. intros x Hx. split; [by rewrite list.Forall_forall in S; apply S |].
    eapply viewed_mono; [| exact Hv]. unfold reach. rewrite <- (reach_leads _ _ L). by apply reach_le. }
  cbn [mbind option_bind]. destruct (min_element_lt errs) as (i & -> & Hi).
  { intros ->. simpl in Hle. lia. }
  cbn [mbind option_bind]. destruct (lookup_lt_is_Some_2 results.*1 i) as [b ->]; [| done].
  rewrite !length_fmap in *. lia.
Qed.

Lemma composed_commit_step p r data p1 : precompress_block p r data = Some (true, p1) -> can_commit p1 ->
  exists p2, precompress_block_commit p1 = Some p2 /\ leads_to p1 p2 /\ (sees p1 r -> sees p2 r) /\
    forall d pf, leads_to p2 pf -> in_step d p pf ->
      exists d2, predecompress_block d r = Some (true, d2) /\ in_step d2 p2 pf /\ forall it, predict d2 r it = predict p2 r it.
Proof.
  intros E Hcc. unfold can_commit in Hcc. destruct (predictors p1 !! sid p1) as [x1 |] eqn:Hx1; [| done]. simpl in Hcc.
  rename Hcc into Hc. destruct (precompress_spec p r data true p1 E) as (results & HF & Ep & Hb & Es & _).
  set (s := sid p1) in *.
  assert (exists x, predictors p !! s = Some x /\ p_precompress_block x r data = Some (true, x1)) as (x & Hx & Ex).
  { rewrite Ep, list_lookup_fmap in Hx1. rewrite list_lookup_fmap in Hb. destruct (results !! s) as [[b y] |] eqn:Er; [| done].
    simpl in Hx1, Hb. simplify_eq. destruct (Forall2_lookup_r _ _ _ _ _ HF Er) as (x & Hx & Ex). by exists x. }
  destruct (commit_follows _ _ _ _ Ex Hc) as (x2 & E2 & L2 & S2 & F2).
  unfold precompress_block_commit. fold s. rewrite Hx1. cbn [mbind option_bind]. rewrite E2. cbn [mbind option_bind].
  eexists. split; [done |]. pose proof (lookup_lt_Some _ _ _ Hx1) as Hlt. split.
  { split; [| by eexists]. simpl. rewrite <- (list_insert_id (predictors p1) s x1 Hx1) at 1. by apply Forall2_insert. }
  split.
  { intros [H1 H2]. split; simpl; [by rewrite length_insert |]. apply Forall_insert; [done |]. apply S2.
    rewrite Forall_lookup in H2. by eapply H2. }
  intros d pf [K1 [tl K2]] (D1 & D2 & D3). simpl in K1, K2. unfold predecompress_block.
  assert (selection d !! current_index d = Some (Z.of_nat s)) as ->.
  { rewrite D2, D3, K2, Es, <- app_assoc, lookup_app_r, Nat.sub_diag by lia. done. }
  cbn [mbind option_bind]. rewrite assert_true by (apply Z.leb_le; lia). cbn [mbind option_bind]. rewrite Nat2Z.id.
  destruct (Forall3_lookup_m _ _ _ _ _ _ D1 Hx) as (y & z & Hy & Hz & Hf). rewrite Hy. cbn [mbind option_bind].
  destruct (F2 y z) as (y2 & Ey & Hf2 & Hp); [| done |].
  { destruct (Forall2_lookup_l _ _ _ s x2 K1) as (z' & Hz' & Hl); [by apply list_lookup_insert_eq |]. congruence. }
  rewrite Ey. cbn [mbind option_bind]. eexists. split; [done |]. split; [split_and!; simpl |].
  - destruct (results_leads _ _ _ _ HF) as (_ & _ & H3). apply H3 in D1. rewrite <- Ep in D1.
    rewrite <- (list_insert_id (predictors pf) s z Hz). by apply Forall3_insert.
  - done.
  - rewrite length_app, D3, Es. simpl. lia.
  - intros it. unfold predict. simpl. pose proof (lookup_lt_Some _ _ _ Hy). rewrite !list_lookup_insert_eq by done.
    cbn [mbind option_bind]. apply Hp.
Qed.

(** Loading one predictor after the other. *)
Lemma load_all_follows ps ds pfs : Forall2 p_new ps ds -> Forall2 p_leads ps pfs -> Forall p_storable pfs ->
  exists l, mapM p_save pfs = Some l /\ Z.of_nat (length (mjoin l)) <= foldr Z.add 0 (p_cost <$> pfs) /\
    forall tl rem, foldr Z.add 0 (p_cost <$> pfs) <= rem < 2 ^ 62 ->
      exists ds' rem', load_all ds (mjoin l ++ tl) rem = Some (ds', tl, rem') /\ Forall3 p_follows ds' ps pfs /\
        rem - foldr Z.add 0 (p_cost <$> pfs) <= rem' <= rem.
Proof.
  intros Hn. revert pfs. induction Hn as [| p d ps ds Hp Hn IH]; intros pfs Hl Hs;
    inversion Hl as [| ? pf ? pfs' Hlp Hl']; subst.
  { exists []. split_and!; try done. intros tl rem Hrem. exists [], rem. split_and!; [done | constructor | simpl in *; lia..]. }
  apply Forall_cons_iff in Hs as [Hs1 Hs]. destruct (IH pfs' Hl' Hs) as (l & E & Hc & H).
  destruct (p_load_follows p d pf Hp Hlp Hs1) as (bytes & E1 & Hc1 & H1). exists (bytes :: l). cbn [mapM]. rewrite E1. cbn [mbind option_bind].
  rewrite E. rewrite fmap_cons. cbn [foldr]. assert (mjoin (bytes :: l) = bytes ++ mjoin l) as -> by done. rewrite length_app.
  split; [done |]. split; [lia |]. intros tl rem Hrem. rewrite <- app_assoc. cbn [load_all].
  destruct (H1 (mjoin l ++ tl) rem) as (d' & rem1 & -> & Hf & Hr1); [lia |]. cbn [mbind option_bind].
  destruct (H tl rem1) as (ds' & rem2 & -> & Hfs & Hr2); [lia |]. cbn [mbind option_bind].
  exists (d' :: ds'), rem2. split_and!; [done | by constructor | lia | lia].
Qed.

Lemma composed_load_step p0 d0 pf : is_new p0 d0 -> leads_to p0 pf -> can_store pf ->
  exists bytes, save pf = Some bytes /\ Z.of_nat (length bytes) <= cost pf /\
    forall tl rem, cost pf <= rem < 2 ^ 62 ->
      exists d rem', load d0 (bytes ++ tl) rem = Some (d, tl, rem') /\ in_step d p0 pf /\ rem - cost pf <= rem' <= rem.
Proof.
  intros (N1 & N2 & N3 & N4) (K1 & _) (S1 & S2). destruct (load_all_follows _ _ _ N1 K1 S1) as (l & E & Hc & H).
  unfold save, cost. rewrite E. cbn [mbind option_bind]. unfold save_selection.
  destruct (decide (selection pf = [])) as [Es | Hne].
  - cbn [mbind option_bind from_option id]. eexists. split; [done |]. rewrite length_app, length_le_bytes. split; [lia |].
    intros tl rem Hrem. rewrite <- app_assoc. unfold load.
    destruct (H (le_bytes 8 (Z.of_nat (length (selection pf))) ++ tl) rem) as (ds & rem' & -> & Hf & Hr); [lia |]. cbn [mbind option_bind].
    rewrite Es. rewrite MemoryUtil.read_var_le by done. cbn [mbind option_bind length Z.of_nat Z.ltb Z.compare].
    eexists _, _. split; [done |]. split; [| lia]. split_and!; simpl; [done | by rewrite N3, Es | by rewrite N4, N2].
  - specialize (S2 Hne). pose proof S2 as (_ & _ & _ & Hmany).
    destruct (@e_correct (huffman_encoder left_first junk) (selection pf) (Z.of_nat (length (predict_error pf))) S2)
      as (encoded & Ee & Hdec). simpl in Ee, Hdec. rewrite Ee. cbn [mbind option_bind from_option id]. eexists. split; [done |].
    rewrite !length_app, length_le_bytes. split; [lia |]. intros tl rem Hrem. rewrite <- !app_assoc. unfold load.
    destruct (H (le_bytes 8 (Z.of_nat (length (selection pf))) ++ encoded ++ tl) rem) as (ds & rem' & -> & Hf & Hr); [lia |].
    cbn [mbind option_bind].
    rewrite MemoryUtil.read_var_le by (change (2 ^ (8 * Z.of_nat 8)) with (2 ^ 64); lia). cbn [mbind option_bind].
    rewrite (proj2 (Z.ltb_lt _ _)).
    2: { destruct (selection pf); [done | simpl; lia]. }
    rewrite u64_id by (unfold is_u64; lia). rewrite Nat2Z.id, Hdec by lia. cbn [mbind option_bind].
    eexists _, _. split; [done |]. split; [| lia]. split_and!; simpl; [done | done | by rewrite N4, N2].
Qed.

#[export] Program Instance composed : PredictorInterface N ComposedPredictor := {
  p_precompress_block := precompress_block;
  p_precompress_block_commit := precompress_block_commit;
  p_predecompress_block := predecompress_block;
  p_predict := predict;
  p_estimate_error := estimate_error;
  p_save := save;
  p_load := load;
  p_reach := reach;
  p_sees := sees;
  p_commits := can_commit;
  p_rejects _ := False;
  p_leads := leads_to;
  p_follows := in_step;
  p_new := is_new;
  p_storable := can_store;
  p_cost := cost
}.
Next Obligation. intros p p' [H _]. unfold reach. by rewrite (reach_leads _ _ H). Qed.
Next Obligation. apply composed_total. Qed.
Next Obligation.
  intros p r its data it [Hsid Hs] Hv Hit. unfold estimate_error. destruct (lookup_lt_is_Some_2 _ _ Hsid) as [x Hx].
  rewrite Hx. cbn [mbind option_bind]. rewrite Forall_lookup in Hs. apply (estimate_total x r its); [by eapply Hs | | done].
  eapply viewed_mono; [| exact Hv]. apply reach_le. by eapply list_elem_of_lookup_2.
Qed.
Next Obligation.
  intros p r data b p1 E. destruct (precompress_spec p r data b p1 E) as (results & HF & Ep & Hb & Es & Ei).
  destruct (results_leads _ _ _ _ HF) as (L & S & F). split_and!.
  - split; [by rewrite Ep | by rewrite Es].
  - intros [_ Hs]. split; rewrite Ep; [| by apply S]. apply lookup_lt_Some in Hb. by rewrite !length_fmap in *.
  - intros d pf (D1 & D2 & D3). split_and!; [rewrite Ep; by apply F | done | by rewrite Es].
Qed.
Next Obligation. apply composed_commit_step. Qed.
Next Obligation. done. Qed.
Next Obligation.
  intros p r it [Hsid Hs] Hprev. unfold predict. destruct (lookup_lt_is_Some_2 _ _ Hsid) as [x Hx]. rewrite Hx. cbn [mbind option_bind].
  assert (forall args, behind N (p_reach x) args -> behind N (reach p) args) as Hb.
  { intros args (A1 & A2 & A3). split_and!; try done. eapply Forall_impl; [| exact A2]. intros a Ha. simpl in Ha.
    apply list_elem_of_lookup_2, reach_le in Hx. unfold reach. lia. }
  rewrite Forall_lookup in Hs. destruct (predict_reads x r it) as (v & Ev & Ei & Hr); [by eapply Hs | by intros args Ha; apply Hprev, Hb |].
  exists v. split_and!; try done. eapply Forall_impl; [| exact Hr]. intros y (args & Ha & Ey). eauto.
Qed.
Next Obligation. apply composed_load_step. Qed.

End predictor.

#[global] Arguments ComposedPredictor P : clear implicits.

End ComposedPredictor.
