(* ===== verification/SzIterate.v ===== *)
(** * SzIterate: the compressor that goes through blocks

    Models [SZ3/compressor/SZIterateCompressor.hpp] at [T = double], for any number of
    dimensions, against the interfaces of its predictor, quantizer, encoder and lossless
    module.  A block that the predictor refuses is predicted by the Lorenzo predictor of one
    layer. *)

From Stdlib Require Import ZArith Lia.
From stdpp Require Import sets.
From S2P Require Import Prelude Bytes Float64 SzBytes Quantizer SzEncoder SzConfig SzPipeline SzDecomp SzIterator SzPredictor.

Module SZIterateCompressor.
Import SzConfig (Config, dims, num, blockSize).
Import Iterator (range, iterator, place, prev, walk, places, product).

Section compressor.

Variable N : nat.
Context {P : Type} `{HP : !PredictorInterface N P}.
Context {Q : Type} `{HQ : !QuantizerInterface Q} `{HE : !EncoderInterface} `{HL : !LosslessInterface}.
Variables garbage uninit : nat -> Z.
Variable NDEBUG : bool.

(** The predictions of a block: those of the predictor, or of the one to fall back to. *)
Definition fallback_predictor : LorenzoPredictor.LorenzoPredictor := LorenzoPredictor.mk 1 0.
Definition predictor_withfallback (accepted : bool) (p : P) (r : range) (it : iterator) : option visit :=
  if accepted then p_predict p r it else LorenzoPredictor.predict N fallback_predictor r it.

(** One block: the indices, the data, the predictor and the quantizer. *)
Definition compress_block (p : P) (q : Q) (data : list Z) (b : range * list iterator)
    : option (list Z * list Z * P * Q) :=
  let '(r, its) := b in
  '(accepted, p) ← p_precompress_block p r data;
  p ← (if accepted : bool then p_precompress_block_commit p else Some p);
  vs ← mapM (predictor_withfallback accepted p r) its;
  '(inds, data, q) ← quantize_visits q data vs;
  Some (inds, data, p, q).

Fixpoint compress_blocks (p : P) (q : Q) (data : list Z) (bl : list (range * list iterator))
    : option (list Z * list Z * P * Q) :=
  match bl with
  | [] => Some ([], data, p, q)
  | b :: bl =>
      '(inds, data, p, q) ← compress_block p q data b;
      '(inds', data, p, q) ← compress_blocks p q data bl;
      Some (inds ++ inds', data, p, q)
  end.

Definition decompress_block (p : P) (q : Q) (data : list Z) (inds : list Z) (b : range * list iterator)
    : option (list Z * list Z * P * Q) :=
  let '(r, its) := b in
  '(accepted, p) ← p_predecompress_block p r;
  vs ← mapM (predictor_withfallback accepted p r) its;
  '(data, inds, q) ← recover_visits q data vs inds;
  Some (data, inds, p, q).

Fixpoint decompress_blocks (p : P) (q : Q) (data : list Z) (inds : list Z) (bl : list (range * list iterator))
    : option (list Z * list Z * P * Q) :=
  match bl with
  | [] => Some (data, inds, p, q)
  | b :: bl =>
      '(data, inds, p, q) ← decompress_block p q data inds b;
      decompress_blocks p q data inds bl
  end.

(** The members that the constructor takes from the configuration. *)
Definition global_dimensions (c : Config) : option (list nat) :=
  _ ← assert (N <=? length (dims c))%nat;
  Some (Z.to_nat <$> take N (dims c)).
Definition block_size (c : Config) : Z := u32 (blockSize c).

(** [quant_inds] has room for [num] indices; what is not written is 0. *)
Definition quant_inds_of (n : nat) (inds : list Z) : option (list Z) :=
  _ ← assert (length inds <=? n)%nat;
  Some (inds ++ replicate (n - length inds) 0).

Definition bufferSize (quantizer_est encoder_est : Z) (num : nat) : Z :=
  f64_to_i64 (f64_mul SZGenericCompressor.f64_1_2 (f64_of_Z (u64 (quantizer_est + encoder_est + 8 * Z.of_nat num)))).

(** The number of values, the dimensions and the block size. *)
Definition save_members (c : Config) (gd : list nat) : list Z :=
  le_bytes 8 (num c) ++ store_array 8 (Z.of_nat <$> gd) ++ le_bytes 4 (block_size c).

(** The buffer for the lossless module, and the data as overwritten. *)
Definition buffer_of (c : Config) (p : P) (q : Q) (data : list Z) : option (list Z * list Z) :=
  gd ← global_dimensions c;
  bl ← walk gd (Z.to_nat (block_size c));
  '(inds, rs, p, q) ← compress_blocks p q data bl;
  quant_inds ← quant_inds_of (Z.to_nat (num c)) inds;
  let size := bufferSize (q_size_est q) (e_size_est quant_inds) (length quant_inds) in
  saved ← p_save p;
  encoded ← e_encode quant_inds (i32 (q_radius q * 2));
  let buffer := save_members c gd ++ saved ++ q_save q ++ encoded in
  let used := Z.of_nat (length buffer) in
  _ ← assert (if NDEBUG then used <=? size else used <? size);
  Some (buffer, rs).

Definition compress (c : Config) (p : P) (q : Q) (data cmpData : list Z) : option (Z * list Z) :=
  '(buffer, _) ← buffer_of c p q data;
  Some (l_compress buffer cmpData).

Definition decompress (c : Config) (p : P) (q : Q) (cmpData : list Z) (cmpSize : Z) : option (list Z) :=
  _ ← assert (cmpSize <=? Z.of_nat (length cmpData));
  let bufferCap := (8 * Z.to_nat (num c))%nat in
  let buffer := (l_decompress (take (Z.to_nat cmpSize) cmpData) (uninit <$> seq 0 bufferCap)).2 in
  '(n, buffer, rem) ← MemoryUtil.read_var_len 8 buffer (Z.of_nat bufferCap);
  '(gd, buffer, rem) ← MemoryUtil.read_array_len 8 (Z.of_nat N) buffer rem;
  '(bs, buffer, rem) ← MemoryUtil.read_var_len 4 buffer rem;
  '(p, buffer, rem) ← p_load p buffer rem;
  '(q, buffer, rem) ← q_load q buffer rem;
  '(quant_inds, _) ← e_decode buffer rem (Z.to_nat n);
  bl ← walk (Z.to_nat <$> gd) (Z.to_nat bs);
  '(decData, _, _, _) ← decompress_blocks p q (garbage <$> seq 0 (Z.to_nat (num c))) quant_inds bl;
  Some decData.

End compressor.

(** ** What the blocks give *)

Lemma causal_index vs : forall known,
  (forall m v, vs !! m = Some v -> Forall (fun s => s ∈ known \/ s ∈ v_idx <$> take m vs) (v_src v)) ->
  causal known vs.
Proof.
  induction vs as [| v vs IH]; intros known H; [done |]. split.
  - eapply Forall_impl; [| exact (H 0%nat v eq_refl)]. intros s [? | ?%elem_of_nil]; [done | done].
  - apply IH. intros m w Hm. eapply Forall_impl; [| exact (H (S m) w Hm)]. intros s.
    cbn [take]. rewrite fmap_cons, !elem_of_cons. tauto.
Qed.

Section runs.

Variable N : nat.
Context {P : Type} `{HP : !PredictorInterface N P}.
Context {Q : Type} `{HQ : !QuantizerInterface Q}.

(** Quantizing the places [new] when [known] are known: what it leaves, and, given [ok], that the
    decompressor gets the same values there. *)
Definition run_spec (ok : Prop) (known new : list nat) (p : P) (q : Q) (data inds data' : list Z) (p' : P) (q' : Q)
    (dec : P -> Q -> list Z -> list Z -> option (list Z * list Z * P * Q)) : Prop :=
  p_leads p p' /\ leads q q' /\ storable q' /\ length inds = length new /\ length data' = length data /\
  Forall (fun i => 0 <= i < 2 * q_radius q) inds /\
  (forall i, i ∉ new -> data' !! i = data !! i) /\
  (NoDup new -> forall i, i ∈ new -> exists x r, data !! i = Some x /\ data' !! i = Some r /\ accurate q x r) /\
  (ok -> forall d e pf qf a tl, p_leads p' pf -> leads q' qf -> p_follows d p pf -> follows e q qf ->
    agree known data a -> length a = length data ->
    exists d' e' a', dec d e a (inds ++ tl) = Some (a', tl, d', e') /\
      p_follows d' p' pf /\ follows e' q' qf /\ length a' = length data /\ agree (reverse new ++ known) data' a').

Lemma run_weaken ok ok' known new p q data inds data' p' q' dec : (ok' -> ok) ->
  run_spec ok known new p q data inds data' p' q' dec -> run_spec ok' known new p q data inds data' p' q' dec.
Proof. intros H (A1 & A2 & A3 & A4 & A5 & A6 & A7 & A8 & A9). split_and!; auto. Qed.

Lemma run_nil known p q data : storable q ->
  run_spec True known [] p q data [] data p q (fun d e a inds => Some (a, inds, d, e)).
Proof.
  intros Hs. split_and!; try done; [by intros; set_solver |].
  intros _ d e pf qf a tl _ _ Hd He Ha Hl. by exists d, e, a.
Qed.

Lemma run_app ok1 ok2 known new1 new2 p q data inds1 data1 p1 q1 inds2 data2 p2 q2 dec1 dec2 :
  run_spec ok1 known new1 p q data inds1 data1 p1 q1 dec1 ->
  run_spec ok2 (reverse new1 ++ known) new2 p1 q1 data1 inds2 data2 p2 q2 dec2 ->
  run_spec (ok1 /\ ok2) known (new1 ++ new2) p q data (inds1 ++ inds2) data2 p2 q2
    (fun d e a inds => '(a, inds, d, e) ← dec1 d e a inds; dec2 d e a inds).
Proof.
  intros (A1 & A2 & A3 & A4 & A5 & A6 & A7 & A8 & A9) (B1 & B2 & B3 & B4 & B5 & B6 & B7 & B8 & B9).
  rewrite (leads_radius q q1 A2) in B6.
  split_and!; [by etrans | by etrans | done | rewrite !length_app; lia | lia | by apply Forall_app | | |].
  - intros i Hi. rewrite elem_of_app in Hi. rewrite B7, A7 by tauto. done.
  - intros Hnd i Hi. apply list.NoDup_app in Hnd as (N1 & N12 & N2). apply elem_of_app in Hi as [Hi | Hi].
    + destruct (A8 N1 i Hi) as (x & r & E1 & E2 & H). exists x, r. rewrite B7 by (by apply N12). done.
    + destruct (B8 N2 i Hi) as (x & r & E1 & E2 & H). exists x, r. rewrite A7 in E1 by (intros Hi1; by apply (N12 i)).
      by rewrite (leads_accurate q q1).
  - intros [Hk1 Hk2] d e pf qf a tl Hpf Hqf Hd He Ha Hl. rewrite <- app_assoc.
    destruct (A9 Hk1 d e pf qf a (inds2 ++ tl)) as (d1 & e1 & a1 & -> & D1 & E1 & L1 & G1); try done; [by etrans | by etrans |].
    cbn [mbind option_bind].
    destruct (B9 Hk2 d1 e1 pf qf a1 tl) as (d2 & e2 & a2 & -> & D2 & E2 & L2 & G2); try done; [lia |].
    exists d2, e2, a2. rewrite reverse_app, <- app_assoc. split_and!; try done. lia.
Qed.

End runs.

Section blocks.

Variable N : nat.
Context {P : Type} `{HP : !PredictorInterface N P}.
Context {Q : Type} `{HQ : !QuantizerInterface Q}.

Variables (gd : list nat) (bs : nat).
Hypothesis Hgd : gd <> [].
Hypothesis Hpos : Forall (fun g => 0 < g)%nat gd.
Hypothesis Hbs : (0 < bs)%nat.
Hypothesis HN : length gd = N.
Context (blocks : list (list nat)) (W : list (range * list iterator)).
Hypothesis HW : Iterator.walk_ok gd bs blocks W.

(** A prediction that reads behind, of the block [k]: its places in order, and nothing that was
    not visited. *)
Lemma iterated_visits k r its known (predict : iterator -> option visit) reach :
  W !! k = Some (r, its) -> (reach <= bs)%nat -> (forall s, s ∈ places (take k W) -> s ∈ known) ->
  (forall it, (forall args, behind N reach args -> is_Some (prev r args it)) ->
    exists v, predict it = Some v /\ v_idx v = place it /\
      Forall (fun s => exists args, behind N reach args /\ prev r args it = Some (Some s)) (v_src v)) ->
  exists vs, mapM predict its = Some vs /\ v_idx <$> vs = place <$> its /\ causal known vs.
Proof.
  intros Hk Hreach Hknown Hpred.
  assert (forall m it, its !! m = Some it -> exists v, predict it = Some v /\ v_idx v = place it /\
    Forall (fun s => s ∈ known \/ s ∈ place <$> take m its) (v_src v)) as Hv.
  { intros m it Hm. assert (forall args, behind N reach args -> exists res, prev r args it = Some res /\
      forall s, res = Some s -> s ∈ places (take k W) \/ s ∈ place <$> take m its) as Hprev.
    { intros args (H1 & H2 & H3). apply (Iterator.prev_visited gd bs Hpos Hbs blocks W HW); try done; [congruence |].
      eapply Forall_impl; [| exact H2]. simpl. lia. }
    destruct (Hpred it) as (v & E & Ei & Hs).
    { intros args Ha. destruct (Hprev args Ha) as (res & -> & _). done. }
    exists v. split_and!; try done. eapply Forall_impl; [| exact Hs]. intros s (args & Ha & Es).
    destruct (Hprev args Ha) as (res & E' & H). rewrite E' in Es. injection Es as ->.
    destruct (H s eq_refl); [left; auto | by right]. }
  assert (exists vs, mapM predict its = Some vs /\ Forall2 (fun it v => predict it = Some v) its vs) as (vs & E & HF).
  { destruct (mapM predict its) as [vs |] eqn:E; [exists vs; split; [done | by apply mapM_Some_1] |].
    apply mapM_None_1, list.Exists_exists in E as (it & [m Hm]%list_elem_of_lookup & En). destruct (Hv m it Hm) as (v & Ev & _). congruence. }
  exists vs. split; [done |].
  assert (v_idx <$> vs = place <$> its) as Eidx.
  { apply list_eq. intros m. rewrite !list_lookup_fmap. destruct (its !! m) as [it |] eqn:Em.
    - destruct (Forall2_lookup_l _ _ _ _ _ HF Em) as (v & -> & Ev). destruct (Hv m it Em) as (v' & Ev' & Ei & _). simpl. congruence.
    - pose proof (Forall2_length HF). apply lookup_ge_None_1 in Em. by rewrite lookup_ge_None_2 by lia. }
  split; [done |]. apply causal_index. intros m v Hm. destruct (Forall2_lookup_r _ _ _ _ _ HF Hm) as (it & Hit & Ev).
  destruct (Hv m it Hit) as (v' & Ev' & _ & Hs). assert (v' = v) as -> by congruence.
  eapply Forall_impl; [| exact Hs]. intros s [Hk' | Hs']; [by left | right].
  by rewrite fmap_take, Eidx, <- fmap_take.
Qed.

Lemma block_viewed k r its data reach : W !! k = Some (r, its) -> (reach <= bs)%nat -> (product gd <= length data)%nat ->
  viewed N reach r its data.
Proof.
  intros Hk Hreach Hlen. destruct (Iterator.walk_at gd bs blocks W HW k r its Hk) as (b & _ & HB).
  pose proof (Iterator.places_all gd bs Hpos Hbs blocks W HW) as Hperm.
  assert (forall s, s ∈ places W -> (s < length data)%nat) as Hin.
  { intros s Hs. rewrite Hperm in Hs. apply elem_of_seq in Hs. lia. }
  assert (forall m s, s ∈ place <$> take m its -> s ∈ places W) as Hits.
  { intros m s (it & -> & [j Hj]%list_elem_of_lookup)%list_elem_of_fmap. unfold places. apply list_elem_of_bind.
    exists (r, its). split; [| by eapply list_elem_of_lookup_2]. apply list_elem_of_fmap_2.
    apply lookup_take_Some in Hj as [Hj _]. by eapply list_elem_of_lookup_2. }
  split; try apply HB.
  - destruct HB as [Hb Hd _ _ _ _ _ _]. rewrite Hd. by destruct (Iterator.bdims_spec gd bs Hpos Hbs b Hb) as (_ & _ & -> & _).
  - apply list.Forall_forall. intros it Hit.
    destruct (Iterator.elem_digits gd bs Hpos Hbs _ _ _ _ HB Hit) as (_ & _ & _ & _ & H5 & _).
    destruct HB as [_ _ _ _ _ _ _ Hp]. rewrite list.Forall_forall in Hp. rewrite (Hp it Hit).
    apply Iterator.rank_lt in H5. lia.
  - intros it args [m Hm]%list_elem_of_lookup (H1 & H2 & H3).
    destruct (Iterator.prev_visited gd bs Hpos Hbs blocks W HW k r its m it args) as (res & E & Hr); try done.
    + congruence.
    + eapply Forall_impl; [| exact H2]. simpl. lia.
    + exists res. split; [done |]. intros s Es. apply Hin. destruct (Hr s Es) as [Hs | Hs]; [| by eapply Hits].
      unfold places in *. rewrite list_elem_of_bind in *. destruct Hs as (x & Hx & Hin').
      exists x. split; [done |]. rewrite <- (take_drop k W). apply elem_of_app. by left.
Qed.

(** The predictor and the quantizer are made for what they meet in a block. *)
Definition block_ok (p : P) (q : Q) (data : list Z) (b : range * list iterator) : Prop :=
  p_sees p b.1 /\
  match p_precompress_block p b.1 data with
  | Some (accepted, p1) =>
      ((accepted : bool) = true -> p_commits p1) /\
      from_option (visits_ok q data) True
        (p2 ← (if accepted then p_precompress_block_commit p1 else Some p1);
         mapM (predictor_withfallback N accepted p2 b.1) b.2)
  | None => True
  end.

Fixpoint blocks_ok (p : P) (q : Q) (data : list Z) (bl : list (range * list iterator)) : Prop :=
  match bl with
  | [] => True
  | b :: bl =>
      block_ok p q data b /\
      match compress_block N p q data b with
      | Some (_, data, p, q) => blocks_ok p q data bl
      | None => True
      end
  end.

(** A block that the predictor refuses is one that the decompressor will refuse. *)
Definition refusal_known (p : P) (data : list Z) (b : range * list iterator) : Prop :=
  forall p1, p_precompress_block p b.1 data = Some (false, p1) -> p_rejects p1.

Fixpoint refusals_known (p : P) (q : Q) (data : list Z) (bl : list (range * list iterator)) : Prop :=
  match bl with
  | [] => True
  | b :: bl =>
      refusal_known p data b /\
      match compress_block N p q data b with
      | Some (_, data, p, q) => refusals_known p q data bl
      | None => True
      end
  end.

Lemma refusals_all bl : (forall p, p_rejects p) -> forall p q data, refusals_known p q data bl.
Proof.
  intros H. induction bl as [| b bl IH]; intros p q data; [done |]. split; [by intros p1 _ |].
  destruct (compress_block _ _ _ _ _) as [[[[? ?] ?] ?] |]; [apply IH | done].
Qed.

Lemma iterated_run k r its known p q data :
  W !! k = Some (r, its) -> (p_reach p <= bs)%nat -> (forall s, s ∈ places (take k W) -> s ∈ known) ->
  (product gd <= length data)%nat -> storable q -> block_ok p q data (r, its) ->
  exists inds data' p' q', compress_block N p q data (r, its) = Some (inds, data', p', q') /\
    run_spec N (refusal_known p data (r, its)) known (place <$> its) p q data inds data' p' q' (fun d e a inds => decompress_block N d e a inds (r, its)).
Proof.
  intros Hk Hreach Hknown Hlen Hs [Hsees Hb]. unfold compress_block. simpl in Hsees, Hb.
  destruct (precompress_total p r its data Hsees (block_viewed k r its data _ Hk Hreach Hlen)) as [[accepted p1] Ep].
  rewrite Ep in Hb. destruct Hb as [Hacc Hok].
  rewrite Ep. cbn [mbind option_bind]. destruct (precompress_follows _ _ _ _ _ Ep) as (Hl1 & Hs1 & Hf1).
  assert (exists p2, (if accepted then p_precompress_block_commit p1 else Some p1) = Some p2 /\ p_leads p1 p2 /\ (accepted = true -> p_sees p2 r) /\
    (refusal_known p data (r, its) -> forall d pf, p_leads p2 pf -> p_follows d p pf ->
      exists d2, p_predecompress_block d r = Some (accepted, d2) /\ p_follows d2 p2 pf /\
        forall it, predictor_withfallback N accepted d2 r it = predictor_withfallback N accepted p2 r it))
    as (p2 & E2 & Hl2 & Hs2 & Hd2).
  { destruct accepted.
    - destruct (commit_follows _ _ _ _ Ep (Hacc eq_refl)) as (p2 & E2 & Hl2 & Hs2 & H). exists p2. split_and!; auto.
    - exists p1. split_and!; try done. intros Href d pf _ Hd. destruct (reject_follows _ _ _ _ Ep (Href _ Ep) d pf Hd) as (d2 & E & Hd2).
      exists d2. by split_and!. }
  rewrite E2 in Hok |- *. cbn [mbind option_bind] in Hok |- *.
  destruct (iterated_visits k r its known (predictor_withfallback N accepted p2 r) (if accepted then p_reach p2 else 1%nat) Hk)
    as (vs & Ev & Eidx & Hc); [| done | |].
  { destruct accepted; [| lia]. by rewrite (p_leads_reach p1 p2), (p_leads_reach p p1). }
  { intros it. destruct accepted; [apply predict_reads; auto |]. apply (LorenzoPredictor.predict_reads_behind N fallback_predictor). }
  rewrite Ev in Hok |- *. cbn [mbind option_bind] in Hok |- *.
  destruct (quantize_visits_spec vs known q data Hs Hok Hc)
    as (inds & data' & q' & -> & H1 & H2 & H3 & H4 & H5 & H6 & H7 & H8).
  cbn [mbind option_bind]. exists inds, data', p2, q'. split; [done |]. rewrite Eidx in *.
  split_and!; try done; [by etrans | rewrite H3, <- (length_fmap v_idx), Eidx; done |].
  intros Href d e pf qf a tl Hpf Hqf Hd He Ha Hl. unfold decompress_block. destruct (Hd2 Href d pf Hpf Hd) as (d2 & -> & Hfd & Hpred).
  cbn [mbind option_bind]. rewrite (mapM_ext _ (predictor_withfallback N accepted p2 r)) by (intros it; apply Hpred).
  rewrite Ev. cbn [mbind option_bind]. destruct (H8 e qf a tl Hqf He Ha Hl) as (e' & a' & -> & F1 & F2 & F3).
  cbn [mbind option_bind]. by exists d2, e', a'.
Qed.

Lemma blocks_run bl : forall k known p q data,
  drop k W = bl -> (p_reach p <= bs)%nat -> (forall s, s ∈ places (take k W) -> s ∈ known) ->
  (product gd <= length data)%nat -> storable q -> blocks_ok p q data bl ->
  exists inds data' p' q', compress_blocks N p q data bl = Some (inds, data', p', q') /\
    run_spec N (refusals_known p q data bl) known (places bl) p q data inds data' p' q' (fun d e a inds => decompress_blocks N d e a inds bl).
Proof.
  induction bl as [| [r its] bl IH]; intros k known p q data Hd Hreach Hknown Hlen Hs Hok.
  { exists [], data, p, q. split; [done |]. by apply run_nil. }
  assert (W !! k = Some (r, its)) as Hk by (by rewrite <- (Nat.add_0_r k), <- lookup_drop, Hd).
  destruct Hok as [Hok Hrest]. cbn [compress_blocks refusals_known].
  destruct (iterated_run k r its known p q data Hk Hreach Hknown Hlen Hs Hok) as (inds1 & data1 & p1 & q1 & E1 & R1).
  rewrite E1 in Hrest |- *. cbn [mbind option_bind].
  destruct (IH (S k) (reverse (place <$> its) ++ known) p1 q1 data1) as (inds2 & data2 & p2 & q2 & E2 & R2).
  - rewrite (drop_S _ _ _ Hk) in Hd. by injection Hd.
  - destruct R1 as (Hl & _). by rewrite (p_leads_reach p p1 Hl).
  - intros s. rewrite (take_S_r _ _ _ Hk). unfold places. rewrite bind_app, elem_of_app, list.elem_of_app, elem_of_reverse.
    cbn. rewrite app_nil_r. intros [H | H]; [right; by apply Hknown | by left].
  - destruct R1 as (_ & _ & _ & _ & -> & _). done.
  - by destruct R1 as (_ & _ & H & _).
  - exact Hrest.
  - rewrite E2. cbn [mbind option_bind]. exists (inds1 ++ inds2), data2, p2, q2. split; [done |].
    exact (run_app N _ _ _ _ _ _ _ _ _ _ _ _ _ _ _ _ _ _ R1 R2).
Qed.

End blocks.

(** ** The law *)

Section law.

Variable N : nat.
Context {P : Type} `{HP : !PredictorInterface N P}.
Context {Q : Type} `{HQ : !QuantizerInterface Q} `{HE : !EncoderInterface} `{HL : !LosslessInterface}.
Context `{HLL : !LosslessLaws HL}.
Variables garbage uninit : nat -> Z.
Variable NDEBUG : bool.

(** What is compressed: an array of the dimensions [gd], of a configuration that agrees, with
    blocks that the predictor does not look past; a quantizer that is new; predictor and quantizer
    made for what they meet. *)
Record input (c : Config) (gd : list nat) (p : P) (q : Q) (data : list Z) : Prop := {
  i_dims : take N (dims c) = Z.of_nat <$> gd /\ length gd = N /\ (0 < N)%nat;
  i_pos : Forall (fun g => 0 < g)%nat gd;
  i_num : product gd = length data /\ num c = Z.of_nat (length data) /\ Z.of_nat (length data) < 2 ^ 58;
  i_block : 0 < block_size c /\ (p_reach p <= Z.to_nat (block_size c))%nat;
  i_q : fresh q /\ storable q;
  i_ok : forall bl, walk gd (Z.to_nat (block_size c)) = Some bl -> blocks_ok N p q data bl;
  i_end : forall bl inds rs p' q', walk gd (Z.to_nat (block_size c)) = Some bl ->
    compress_blocks N p q data bl = Some (inds, rs, p', q') ->
    p_storable p' /\ e_domain inds (i32 (q_radius q' * 2))
}.

(** No block is refused, unless by a predictor that the decompressor sees refuse it. *)
Definition none_refused (c : Config) (gd : list nat) (p : P) (q : Q) (data : list Z) : Prop :=
  forall bl, walk gd (Z.to_nat (block_size c)) = Some bl -> refusals_known N p q data bl.

(** The frame, counted as the decompressor counts it, is no longer than the data. *)
Definition frame_fits (c : Config) (gd : list nat) (p : P) (q : Q) (data : list Z) : Prop :=
  forall bl inds rs p' q' encoded, walk gd (Z.to_nat (block_size c)) = Some bl ->
    compress_blocks N p q data bl = Some (inds, rs, p', q') ->
    e_encode inds (i32 (q_radius q' * 2)) = Some encoded ->
    12 + 8 * Z.of_nat N + p_cost p' + Z.of_nat (length (q_save q')) + Z.of_nat (length encoded)
    <= 8 * Z.of_nat (length data).

Lemma save_members_length c gd : length gd = N -> length (save_members c gd) = (12 + 8 * N)%nat.
Proof. intros H. unfold save_members. rewrite !length_app, !length_le_bytes, length_store_array, length_fmap. lia. Qed.

(** Every value of the array is at most its size. *)
Lemma product_ge gd : Forall (fun g => 0 < g)%nat gd -> Forall (fun g => g <= product gd)%nat gd.
Proof.
  induction 1 as [| g gd Hg H IH]; [constructor |]. pose proof (Iterator.product_pos gd H). constructor; simpl; [nia |].
  eapply Forall_impl; [| exact IH]. simpl. intros x Hx. nia.
Qed.

Lemma read_dims gd tl (rem : Z) :
  length gd = N -> Forall is_u64 (Z.of_nat <$> gd) -> 8 * Z.of_nat N <= rem ->
  MemoryUtil.read_array_len 8 (Z.of_nat N) (store_array 8 (Z.of_nat <$> gd) ++ tl) rem
  = Some (Z.of_nat <$> gd, tl, rem - Z.of_nat N * 8).
Proof. intros Hl Hgd Hrem. apply MemoryUtil.read_array_len_le; [by rewrite length_fmap, Hl | done | lia]. Qed.

(** What the decompressor of a frame that fits goes on with: the blocks of the compressor, and its
    predictor loaded. *)
Lemma iterate_unpack c gd p d q data buffer rs :
  p_new p d -> input c gd p q data -> frame_fits c gd p q data ->
  buffer_of N NDEBUG c p q data = Some (buffer, rs) ->
  exists bl inds p' q' encoded, walk gd (Z.to_nat (block_size c)) = Some bl /\
    compress_blocks N p q data bl = Some (inds, rs, p', q') /\ length inds = length data /\
    places bl ≡ₚ seq 0 (length data) /\
    run_spec N (refusals_known N p q data bl) [] (places bl) p q data inds rs p' q'
      (fun d e a inds => decompress_blocks N d e a inds bl) /\
    (forall tl rem, Z.of_nat (length encoded) <= rem -> e_decode (encoded ++ tl) rem (length inds) = Some (inds, tl)) /\
    forall cmpData size out tl size', l_compress buffer cmpData = (size, out) -> size <= Z.of_nat (length cmpData) ->
      size <= size' <= size + Z.of_nat (length tl) -> size' = size \/ LosslessTrailing HL ->
      exists d1 rem tl', p_follows d1 p p' /\
        Z.of_nat (length (q_save q')) + Z.of_nat (length encoded) <= rem < 2 ^ 62 /\
        forall e, decompress N garbage uninit c d e (take (Z.to_nat size) out ++ tl) size'
          = '(q, buffer, rem) ← q_load e (q_save q' ++ encoded ++ tl') rem;
            '(quant_inds, _) ← e_decode buffer rem (length data);
            '(decData, _, _, _) ← decompress_blocks N d1 q (garbage <$> seq 0 (length data)) quant_inds bl;
            Some decData.
Proof.
  intros Hp [(Hd & HgN & HN) Hpos (Hprod & Hnum & H58) [Hb Hreach] [Hfq Hsq] Hok Hend] Hfits Hbuf.
  assert (gd <> []) as Hne by (intros ->; simpl in HgN; lia).
  set (bs := Z.to_nat (block_size c)) in *. assert (0 < bs)%nat as Hbs by lia.
  destruct (Iterator.walk_run gd bs Hne Hpos Hbs) as (blocks & bl & Ew & HW).
  destruct (blocks_run N gd bs Hpos Hbs HgN blocks bl HW bl 0 [] p q data)
    as (inds & rs' & p' & q' & Ec & R); [done | done | by intros s | lia | done | by apply Hok |].
  destruct (Hend bl inds rs' p' q' Ew Ec) as (Hps & Hed).
  pose proof (Iterator.places_all gd bs Hpos Hbs blocks bl HW) as Hperm. rewrite Hprod in Hperm.
  pose proof R as (R1 & R2 & R3 & R4 & R5 & _).
  assert (length inds = length data) as Hli by (by rewrite R4, Hperm, length_seq).
  destruct (e_correct _ _ Hed) as (encoded & Ee & Hdec). pose proof (Hfits _ _ _ _ _ _ Ew Ec Ee) as Hroom.
  destruct (p_load_follows p d p' Hp R1 Hps) as (saved & Esv & Hcost & Hload).
  unfold buffer_of in Hbuf. unfold global_dimensions in Hbuf.
  assert (N <= length (dims c))%nat as Hdl.
  { apply (f_equal length) in Hd. rewrite length_take, length_fmap in Hd. lia. }
  rewrite assert_true in Hbuf by (by apply Nat.leb_le). cbn [mbind option_bind] in Hbuf. rewrite Hd in Hbuf.
  assert (Z.to_nat <$> (Z.of_nat <$> gd) = gd) as Egd.
  { rewrite <- list_fmap_compose. rewrite <- (list_fmap_id gd) at 2. apply list_fmap_ext. intros. simpl. lia. }
  rewrite Egd in Hbuf. fold bs in Hbuf. rewrite Ew in Hbuf. cbn [mbind option_bind] in Hbuf.
  rewrite Ec in Hbuf. cbn [mbind option_bind] in Hbuf. unfold quant_inds_of in Hbuf. rewrite Hnum, Nat2Z.id, Hli in Hbuf.
  rewrite assert_true, Nat.sub_diag in Hbuf by (by apply Nat.leb_le). cbn [replicate mbind option_bind] in Hbuf.
  rewrite app_nil_r, Esv in Hbuf. cbn [mbind option_bind] in Hbuf. rewrite Ee in Hbuf. cbn [mbind option_bind] in Hbuf.
  apply bind_Some in Hbuf as (u & _ & Hbuf). apply (inj Some), pair_equal_spec in Hbuf as [<- <-].
  exists bl, inds, p', q', encoded. split_and!; try done.
  intros cmpData size out tl0 size' El Hsize Hsz Ht. set (buf := save_members c gd ++ saved ++ q_save q' ++ encoded) in *.
  assert (length buf <= 8 * length data)%nat as Hcap.
  { subst buf. rewrite !length_app, save_members_length by done. lia. }
  destruct (unpack_holds _ _ _ _ tl0 size' (uninit <$> seq 0 (8 * length data)) El Hsize Hsz Ht) as (Hle & tl & Hl & _);
    [by rewrite length_fmap, length_seq |].
  destruct (Hload (q_save q' ++ encoded ++ tl) (Z.of_nat (8 * length data) - Z.of_nat 8 - Z.of_nat N * 8 - Z.of_nat 4))
    as (d1 & rem1 & El1 & Hfd & Hrem1); [lia |].
  exists d1, rem1, tl. split; [done |]. split; [lia |]. intros e.
  unfold decompress. rewrite assert_true by (by apply Z.leb_le). cbn [mbind option_bind].
  rewrite Hnum, Nat2Z.id, Hl. subst buf. rewrite <- !app_assoc.
  unfold save_members. rewrite <- !app_assoc.
  rewrite MemoryUtil.read_var_len_le by (rewrite ?Hnum; lia). cbn [mbind option_bind].
  rewrite read_dims; [| done | | lia].
  2: { apply Forall_fmap. eapply Forall_impl; [| exact (product_ge gd Hpos)]. intros g Hg. cbn in Hg |- *. unfold is_u64. rewrite Hprod in Hg. lia. }
  cbn [mbind option_bind].
  rewrite MemoryUtil.read_var_len_le by (apply u32_range || lia). cbn [mbind option_bind]. rewrite El1. cbn [mbind option_bind].
  rewrite Hnum, Nat2Z.id, Egd. fold bs. rewrite Ew. reflexivity.
Qed.

Lemma iterate_correct c gd p d q data buffer rs :
  p_new p d -> input c gd p q data -> none_refused c gd p q data -> frame_fits c gd p q data ->
  buffer_of N NDEBUG c p q data = Some (buffer, rs) ->
  Forall2 (accurate q) data rs /\
  forall cmpData size out tl size', l_compress buffer cmpData = (size, out) -> size <= Z.of_nat (length cmpData) ->
    size <= size' <= size + Z.of_nat (length tl) -> size' = size \/ LosslessTrailing HL ->
    forall e, decompress N garbage uninit c d e (take (Z.to_nat size) out ++ tl) size' = Some rs.
Proof.
  intros Hp Hin Href Hfits Hbuf.
  destruct (iterate_unpack c gd p d q data buffer rs Hp Hin Hfits Hbuf)
    as (bl & inds & p' & q' & encoded & Ew & Ec & Hli & Hperm & R & Hdec & Hun).
  destruct R as (R1 & R2 & R3 & R4 & R5 & R6 & _ & R8 & R9). specialize (R9 (Href bl Ew)). split.
  { apply (accurate_all _ (places bl)); [done | done |]. apply R8. rewrite Hperm. apply NoDup_seq. }
  intros cmpData size out tl0 size' El Hsize Hsz Ht e.
  destruct (Hun cmpData size out tl0 size' El Hsize Hsz Ht) as (d1 & rem & tl & Hfd & Hrem & ->).
  destruct (load_follows e q q' (encoded ++ tl) rem (proj1 (i_q _ _ _ _ _ Hin)) R2 R3) as (e1 & rem2 & -> & Hfe & Hrem2); [lia |].
  cbn [mbind option_bind]. rewrite <- Hli, Hdec, Hli by lia. cbn [mbind option_bind].
  destruct (R9 d1 e1 p' q' (garbage <$> seq 0 (length data)) []) as (d' & e' & a' & E' & _ & _ & La & Ha);
    [reflexivity | reflexivity | done | done | constructor | by rewrite length_fmap, length_seq |].
  rewrite app_nil_r in E'. rewrite E'. cbn [mbind option_bind]. f_equal. symmetry.
  eapply agree_all; [| | exact Ha]; [lia |]. by rewrite app_nil_r, reverse_Permutation, R5.
Qed.

(** A frame that fits, of blocks that no object with the predictor's state can go through. *)
Lemma iterate_stuck c gd p d q data buffer rs cmpData size out :
  p_new p d -> input c gd p q data -> frame_fits c gd p q data ->
  buffer_of N NDEBUG c p q data = Some (buffer, rs) ->
  l_compress buffer cmpData = (size, out) -> size <= Z.of_nat (length cmpData) ->
  (forall bl inds rs p' q' d1 e a i, walk gd (Z.to_nat (block_size c)) = Some bl ->
     compress_blocks N p q data bl = Some (inds, rs, p', q') -> p_follows d1 p p' ->
     decompress_blocks N d1 e a i bl = None) ->
  forall e, decompress N garbage uninit c d e out size = None.
Proof.
  intros Hp Hin Hfits Hbuf El Hs Hstuck e.
  destruct (iterate_unpack c gd p d q data buffer rs Hp Hin Hfits Hbuf)
    as (bl & inds & p' & q' & encoded & Ew & Ec & _ & _ & _ & _ & Hun).
  destruct (l_correct _ _ _ _ El Hs) as (H0 & _).
  destruct (Hun cmpData size out (drop (Z.to_nat size) out) size El Hs) as (d1 & rem & tl & Hfd & _ & E); [lia | by left |].
  rewrite take_drop in E. rewrite E.
  destruct (q_load _ _ _) as [[[q1 b1] r1] |]; [| done]. cbn [mbind option_bind].
  destruct (e_decode _ _ _) as [[i t] |]; [| done]. cbn [mbind option_bind]. by rewrite (Hstuck bl inds rs p' q').
Qed.

Lemma compress_buffer c p q data cmpData buffer rs : buffer_of N NDEBUG c p q data = Some (buffer, rs) ->
  compress N NDEBUG c p q data cmpData = Some (l_compress buffer cmpData).
Proof. intros E. unfold compress. by rewrite E. Qed.

(** There have to be as many bytes as are said. *)
Lemma iterate_overread c p q cmpData cmpSize : Z.of_nat (length cmpData) < cmpSize ->
  decompress N garbage uninit c p q cmpData cmpSize = None.
Proof. intros H. unfold decompress. by rewrite assert_false by (by apply Z.leb_gt). Qed.

End law.

End SZIterateCompressor.
