(* ===== verification/SzTime.v ===== *)
(** * SzTime: the decomposition of time series

    Models [SZ3/decomposition/TimeSeriesDecomposition.hpp] at [T = double], for data of two
    dimensions: rows of values at successive times.  The first row is predicted from a row that
    is given, or by a predictor block by block; every other value from the one before it in time.

    It is verified against the interfaces of its predictor and its quantizer. *)

From Stdlib Require Import ZArith Lia.
From stdpp Require Import sets.
From S2P Require Import Prelude Bytes Float64 SzBytes Stl Quantizer SzHuffman SzEncoder SzConfig SzPipeline SzDecomp.
From S2P Require Import SzIterator SzLevels SzGrid SzPredictor SzIterate.

Module TimeSeriesDecomposition.
Import SzConfig (Config, dims, num, blockSize).
Import Iterator (range, iterator, place, places, product, new, elements, update_block_range, walk).
Import SZIterateCompressor (compress_blocks, decompress_blocks, run_spec, run_app, blocks_ok, refusals_known, causal_index).

(** The blocks of the first row, where their distance and their size are given on their own. *)
Definition row_blocks (d1 stride block_size : nat) : option (list (range * list iterator)) :=
  inter_block_range ← new [d1] stride 0;
  intra_block_range ← new [d1] 1 0;
  blocks ← elements inter_block_range;
  mapM (fun b => r ← update_block_range intra_block_range inter_block_range b block_size;
                 its ← elements r;
                 Some (r, its)) blocks.

(** The first row, predicted from a given one; [None] when that is shorter. *)
Definition first_row (data_ts0 : list Z) (d1 : nat) : option (list visit) :=
  mapM (fun j => x ← data_ts0 !! j; Some {| v_idx := j; v_src := []; v_fun := fun _ => x |}) (seq 0 d1).

(** The columns from the second row, each value predicted by the one before. *)
Definition columns (d0 d1 : nat) : list visit :=
  seq 0 d1 ≫= fun j =>
    (fun i => {| v_idx := (i * d1 + j)%nat; v_src := [((i - 1) * d1 + j)%nat]; v_fun := Interpolators.on1 id |}) <$> seq 1 (d0 - 1).

Section decomposition.

Context {P : Type} `{HP : !PredictorInterface 1 P} {Q : Type} `{HQ : !QuantizerInterface Q}.
Variable NDEBUG : bool.

Record Decomposition := mk {
  predictor : P;
  quantizer : Q;
  block_size : Z;
  stride : Z;
  num_elements : Z;
  global_dimensions : list Z;
  data_ts0 : option (list Z)
}.

(** The constructor; [None] for the assertion, and for reading past the end of [dims]. *)
Definition make (c : Config) (p : P) (q : Q) (ts0 : option (list Z)) : option Decomposition :=
  _ ← assert (if NDEBUG then 2 <=? length (dims c) else length (dims c) =? 2)%nat;
  Some (mk p q (u32 (blockSize c)) (u32 (SzConfig.stride c)) (num c) (take 2 (dims c)) ts0).

Definition extent (d : Decomposition) (i : nat) : option nat := Z.to_nat <$> (global_dimensions d !! i).

(** [quant_inds] has room for [num_elements] indices; what is not written is 0.  [None] for the
    assertion, and for writing past the end. *)
Definition quant_inds_of (n : nat) (inds : list Z) : option (list Z) :=
  _ ← assert (if NDEBUG then length inds <=? n else length inds =? n)%nat;
  Some (inds ++ replicate (n - length inds) 0).

(** The first row: the indices, the data, the predictor and the quantizer. *)
Definition compress_row (d : Decomposition) (d1 : nat) (data : list Z) : option (list Z * list Z * P * Q) :=
  match data_ts0 d with
  | Some ts0 =>
      vs ← first_row ts0 d1;
      '(inds, data, q) ← quantize_visits (quantizer d) data vs;
      Some (inds, data, predictor d, q)
  | None =>
      bl ← row_blocks d1 (Z.to_nat (stride d)) (Z.to_nat (block_size d));
      compress_blocks 1 (predictor d) (quantizer d) data bl
  end.

Definition compress (d : Decomposition) (data : list Z) : option (list Z * list Z * Decomposition) :=
  d0 ← extent d 0;
  d1 ← extent d 1;
  '(inds, data, p, q) ← compress_row d d1 data;
  '(inds', data, q) ← quantize_visits q data (columns d0 d1);
  quant_inds ← quant_inds_of (Z.to_nat (num_elements d)) (inds ++ inds');
  Some (quant_inds, data, mk p q (block_size d) (stride d) (num_elements d) (global_dimensions d) (data_ts0 d)).

Definition decompress_row (d : Decomposition) (d1 : nat) (dec_data quant_inds : list Z)
    : option (list Z * list Z * P * Q) :=
  match data_ts0 d with
  | Some ts0 =>
      vs ← first_row ts0 d1;
      '(data, inds, q) ← recover_visits (quantizer d) dec_data vs quant_inds;
      Some (data, inds, predictor d, q)
  | None =>
      bl ← row_blocks d1 (Z.to_nat (stride d)) (Z.to_nat (block_size d));
      decompress_blocks 1 (predictor d) (quantizer d) dec_data quant_inds bl
  end.

(** [dec_data] is given with its contents. *)
Definition decompress (d : Decomposition) (quant_inds dec_data : list Z) : option (list Z) :=
  d0 ← extent d 0;
  d1 ← extent d 1;
  '(dec_data, inds, p, q) ← decompress_row d d1 dec_data quant_inds;
  '(dec_data, _, _) ← recover_visits q dec_data (columns d0 d1) inds;
  Some dec_data.

Definition save (d : Decomposition) : option (list Z) :=
  saved ← p_save (predictor d);
  Some (store_array 8 (global_dimensions d) ++ le_bytes 4 (block_size d) ++ saved ++ q_save (quantizer d)).

Definition load (d : Decomposition) (c : list Z) (remaining_length : Z) : option (Decomposition * list Z * Z) :=
  '(gd, c, rem) ← MemoryUtil.read_array_len 8 2 c remaining_length;
  let num_elements := foldl (fun n g => u64 (n * g)) 1 gd in
  '(block_size, c, rem) ← MemoryUtil.read_var_len 4 c rem;
  '(p, c, rem) ← p_load (predictor d) c rem;
  '(q, c, rem) ← q_load (quantizer d) c rem;
  Some (mk p q block_size block_size num_elements gd (data_ts0 d), c, rem).

End decomposition.

Arguments Decomposition : clear implicits.

(** ** The order of the visits *)

Lemma row_blocks_walk d1 bs : row_blocks d1 bs bs = walk [d1] bs.
Proof. done. Qed.

Lemma first_row_spec ts0 d1 : (d1 <= length ts0)%nat ->
  exists vs, first_row ts0 d1 = Some vs /\ v_idx <$> vs = seq 0 d1 /\ forall known, causal known vs.
Proof.
  intros Hl. unfold first_row. assert (Forall (fun j => j < length ts0)%nat (seq 0 d1)) as H.
  { apply list.Forall_forall. intros j Hj%elem_of_seq. lia. }
  induction H as [| j js Hj _ (vs & E & Hv & Hc)]; [by exists [] |]. destruct (lookup_lt_is_Some_2 ts0 j Hj) as [x Ex].
  eexists. cbn [mapM]. rewrite Ex. cbn [mbind option_bind]. rewrite E. cbn [mbind option_bind]. split; [done |].
  rewrite fmap_cons, Hv. split; [done |]. intros known. split; [constructor | apply Hc].
Qed.

Lemma columns_elem d0 d1 i : i ∈ v_idx <$> columns d0 d1 <-> (d1 <= i < d0 * d1)%nat.
Proof.
  unfold columns. rewrite Levels.fmap_bind, list_elem_of_bind. split.
  - intros (j & (v & -> & (k & -> & Hk%elem_of_seq)%list_elem_of_fmap)%list_elem_of_fmap & Hj%elem_of_seq). simpl. nia.
  - intros Hi. assert (0 < d1)%nat as Hd by (destruct d1; lia). exists (i mod d1)%nat.
    pose proof (Nat.mod_upper_bound i d1). pose proof (Nat.div_mod_eq i d1) as E.
    split; [| apply elem_of_seq; lia]. rewrite <- list_fmap_compose. apply list_elem_of_fmap. exists (i / d1)%nat. simpl.
    split; [lia |]. apply elem_of_seq. assert (1 <= i / d1)%nat by (apply Nat.div_le_lower_bound; lia).
    assert (i / d1 < d0)%nat by (apply Nat.Div0.div_lt_upper_bound; lia). lia.
Qed.

Lemma columns_NoDup d0 d1 : NoDup (v_idx <$> columns d0 d1).
Proof.
  unfold columns. rewrite Levels.fmap_bind. apply NoDup_bind; [| | apply NoDup_seq].
  - intros j j' i Hj%elem_of_seq Hj'%elem_of_seq. rewrite <- !list_fmap_compose.
    intros (k & -> & _)%list_elem_of_fmap (k' & E & _)%list_elem_of_fmap. simpl in E.
    pose proof (Nat.Div0.mod_add j k d1) as M. pose proof (Nat.Div0.mod_add j' k' d1) as M'.
    rewrite (Nat.mod_small j d1) in M by lia. rewrite (Nat.mod_small j' d1) in M' by lia. rewrite Nat.add_comm in M, M'. congruence.
  - intros j Hj%elem_of_seq. rewrite <- list_fmap_compose. apply NoDup_fmap_2; [| apply NoDup_seq].
    intros a b E. simpl in E. nia.
Qed.

Lemma columns_causal d0 d1 known : (forall j, (j < d1)%nat -> j ∈ known) -> causal known (columns d0 d1).
Proof.
  intros Hk. unfold columns. apply Grid.causal_bind. intros j j' Hj. apply lookup_seq in Hj as [-> Hj].
  apply causal_index. intros m v (i & -> & Hi)%list_lookup_fmap_Some_1. apply lookup_seq in Hi as [-> Hi].
  cbn [v_src]. constructor; [| constructor]. destruct m as [| m].
  - left. apply elem_of_app. right. apply Hk. lia.
  - right. rewrite <- fmap_take, <- list_fmap_compose. apply list_elem_of_fmap. exists (S m). split; [simpl; lia |].
    apply (list_elem_of_lookup_2 _ m). rewrite lookup_take_lt by lia. by rewrite lookup_seq_lt by lia.
Qed.

(** ** The law *)

Section law.

Context {P : Type} `{HP : !PredictorInterface 1 P} {Q : Type} `{HQ : !QuantizerInterface Q}.
Variable NDEBUG : bool.

(** What is compressed: [d0] rows of [d1] values, with a quantizer that is new; either a row
    before the first that is long enough, or blocks that the predictor does not look past;
    predictor and quantizer made for what they meet. *)
Record input (d : Decomposition P Q) (d0 d1 : nat) (data : list Z) : Prop := {
  i_dims : global_dimensions d = [Z.of_nat d0; Z.of_nat d1] /\ (0 < d0)%nat /\ (0 < d1)%nat;
  i_num : (d0 * d1 = length data)%nat /\ num_elements d = Z.of_nat (length data) /\ Z.of_nat (length data) < 2 ^ 58;
  i_block : stride d = block_size d /\ is_u32 (block_size d);
  i_q : fresh (quantizer d) /\ storable (quantizer d);
  i_row : match data_ts0 d with
    | Some ts0 => (d1 <= length ts0)%nat /\
        forall vs, first_row ts0 d1 = Some vs -> visits_ok (quantizer d) data vs
    | None => (0 < Z.to_nat (block_size d))%nat /\ (p_reach (predictor d) <= Z.to_nat (block_size d))%nat /\
        forall bl, walk [d1] (Z.to_nat (block_size d)) = Some bl ->
          blocks_ok 1 (predictor d) (quantizer d) data bl /\ refusals_known 1 (predictor d) (quantizer d) data bl
    end;
  i_columns : forall inds data1 p1 q1, compress_row d d1 data = Some (inds, data1, p1, q1) ->
    visits_ok q1 data1 (columns d0 d1) /\ p_storable p1
}.

(** Quantizing along visits that need no predictor. *)
Lemma visits_run known (p : P) (q : Q) data vs : storable q -> visits_ok q data vs -> causal known vs ->
  exists inds data' q', quantize_visits q data vs = Some (inds, data', q') /\
    run_spec 1 True known (v_idx <$> vs) p q data inds data' p q'
      (fun d e a inds => '(a, inds, e) ← recover_visits e a vs inds; Some (a, inds, d, e)).
Proof.
  intros Hs Hok Hc. destruct (quantize_visits_spec vs known q data Hs Hok Hc)
    as (inds & data' & q' & E & H1 & H2 & H3 & H4 & H5 & H6 & H7 & H8).
  exists inds, data', q'. split; [done |]. split_and!; try done; [by rewrite H3, length_fmap |].
  intros _ d e pf qf a tl _ Hqf Hd He Ha Hl. destruct (H8 e qf a tl Hqf He Ha Hl) as (e' & a' & -> & F1 & F2 & F3).
  cbn [mbind option_bind]. by exists d, e', a'.
Qed.

(** The first row. *)
Lemma row_run d d0 d1 data : input d d0 d1 data ->
  exists inds data' p' q' new, compress_row d d1 data = Some (inds, data', p', q') /\ new ≡ₚ seq 0 d1 /\
    forall n gd, run_spec 1 True [] new (predictor d) (quantizer d) data inds data' p' q'
      (fun p e a inds => decompress_row (mk p e (block_size d) (block_size d) n gd (data_ts0 d)) d1 a inds).
Proof.
  intros [(_ & Hd0 & Hd1) (Hn & _ & _) [Hst _] [_ Hq] Hrow _]. unfold compress_row, decompress_row. cbn [data_ts0 quantizer predictor stride block_size].
  destruct (data_ts0 d) as [ts0 |].
  - destruct Hrow as [Hl Hok]. destruct (first_row_spec ts0 d1 Hl) as (vs & E & Hv & Hc). rewrite E. cbn [mbind option_bind].
    destruct (visits_run [] (predictor d) (quantizer d) data vs Hq (Hok vs E) (Hc [])) as (inds & data' & q' & Eq & R).
    rewrite Eq. cbn [mbind option_bind]. exists inds, data', (predictor d), q', (v_idx <$> vs). split; [done |].
    split; [by rewrite Hv |]. intros _ _. exact R.
  - destruct Hrow as (Hb & Hreach & Hok). rewrite Hst, !row_blocks_walk. set (bs := Z.to_nat (block_size d)) in *.
    destruct (Iterator.walk_run [d1] bs ltac:(done) ltac:(by repeat constructor) Hb) as (blocks & bl & Ew & HW).
    rewrite Ew. cbn [mbind option_bind].
    destruct (SZIterateCompressor.blocks_run 1 [d1] bs ltac:(by repeat constructor) Hb eq_refl blocks bl HW bl 0 []
      (predictor d) (quantizer d) data) as (inds & data' & p' & q' & Ec & R); [done | done | by intros s | simpl; nia | done | by apply Hok |].
    exists inds, data', p', q', (places bl). split; [done |].
    split; [| intros _ _; eapply SZIterateCompressor.run_weaken; [| exact R]; intros _; by apply Hok].
    rewrite (Iterator.places_all [d1] bs ltac:(by repeat constructor) Hb blocks bl HW). simpl. by rewrite Nat.mul_1_r.
Qed.

(** The rows and the columns are the array. *)
Lemma all_places d0 d1 new : (0 < d0)%nat -> new ≡ₚ seq 0 d1 -> new ++ (v_idx <$> columns d0 d1) ≡ₚ seq 0 (d0 * d1).
Proof.
  intros Hd Hn. rewrite Hn. apply NoDup_Permutation; [| apply NoDup_seq |].
  - apply list.NoDup_app. split_and!; [apply NoDup_seq | | apply columns_NoDup].
    intros i Hi%elem_of_seq Hc%columns_elem. lia.
  - intros i. rewrite elem_of_app, columns_elem, !elem_of_seq. nia.
Qed.

(** All of it. *)
Lemma array_run d d0 d1 data : input d d0 d1 data ->
  exists inds rs p' q', compress NDEBUG d data
      = Some (inds, rs, mk p' q' (block_size d) (stride d) (num_elements d) (global_dimensions d) (data_ts0 d)) /\
    length inds = length data /\ Forall2 (accurate (quantizer d)) data rs /\
    p_leads (predictor d) p' /\ leads (quantizer d) q' /\ storable q' /\ p_storable p' /\
    forall p e n dec, p_follows p (predictor d) p' -> follows e (quantizer d) q' -> length dec = length data ->
      decompress (mk p e (block_size d) (block_size d) n (global_dimensions d) (data_ts0 d)) inds dec = Some rs.
Proof.
  intros Hin. destruct (row_run d d0 d1 data Hin) as (inds1 & data1 & p1 & q1 & new & E1 & Hnew & R1).
  destruct Hin as [(Hgd & Hd0 & Hd1) (Hn & Hnum & H58) Hblock Hq _ Hcol]. destruct (Hcol _ _ _ _ E1) as [Hok Hps].
  pose proof (R1 0 []) as (_ & _ & Hs1 & _). unfold compress, decompress, extent. rewrite Hgd. cbn. rewrite !Nat2Z.id.
  destruct (visits_run (reverse new ++ []) p1 q1 data1 (columns d0 d1) Hs1 Hok) as (inds2 & rs & q2 & E2 & R2).
  { apply columns_causal. intros j Hj. rewrite elem_of_app, elem_of_reverse, Hnew, elem_of_seq. left. lia. }
  rewrite E1. cbn [mbind option_bind]. rewrite E2. cbn [mbind option_bind].
  pose proof (all_places d0 d1 new Hd0 Hnew) as Hall. rewrite Hn in Hall.
  pose proof (run_app 1 _ _ _ _ _ _ _ _ _ _ _ _ _ _ _ _ _ _ (R1 0 []) R2) as (A1 & A2 & A3 & A4 & A5 & A6 & _ & A8 & _).
  assert (length (inds1 ++ inds2) = length data) as Hli by (by rewrite A4, Hall, length_seq).
  unfold quant_inds_of. rewrite Hnum, Nat2Z.id, Hli, Nat.sub_diag.
  rewrite assert_true by (destruct NDEBUG; [by apply Nat.leb_le | by apply Nat.eqb_eq]). cbn [mbind option_bind replicate]. rewrite app_nil_r.
  exists (inds1 ++ inds2), rs, p1, q2. split_and!; try done.
  - apply (accurate_all _ (new ++ (v_idx <$> columns d0 d1))); [done | done |]. apply A8. rewrite Hall. apply NoDup_seq.
  - intros p e n dec Hp He Hl.
    pose proof (run_app 1 _ _ _ _ _ _ _ _ _ _ _ _ _ _ _ _ _ _ (R1 n (global_dimensions d)) R2) as (_ & _ & _ & _ & _ & _ & _ & _ & A9).
    destruct (A9 (conj I I) p e p1 q2 dec []) as (d' & e' & a' & E & _ & _ & La & Ha); [reflexivity | reflexivity | done | done | constructor | done |].
    rewrite app_nil_r in E. rewrite <- Hgd. destruct (decompress_row _ _ _ _) as [[[[a inds] p''] q''] |]; [| done].
    cbn [mbind option_bind] in E |- *. destruct (recover_visits _ _ _ _) as [[[a'' inds'] e''] |]; [| done].
    cbn [mbind option_bind] in E |- *. apply (inj Some) in E. injection E as -> _ _ _. f_equal. symmetry.
    eapply agree_all; [| | exact Ha]; [lia |]. by rewrite app_nil_r, reverse_Permutation, A5.
Qed.

End law.

(** C27: a series of rows is reconstructed, within the accuracy of the quantizer, from the indices and what
    was saved: by any predictor and quantizer that keep their interfaces, and with or without a
    row before the first. *)
Theorem timeseries_roundtrip {P Q} `{HP : !PredictorInterface 1 P} `{HQ : !QuantizerInterface Q} NDEBUG
    (d e0 : Decomposition P Q) d0 d1 data :
  input d d0 d1 data -> p_new (predictor d) (predictor e0) -> data_ts0 e0 = data_ts0 d ->
  exists inds rs d' bytes, compress NDEBUG d data = Some (inds, rs, d') /\ length inds = length data /\
    Forall2 (accurate (quantizer d)) data rs /\ save d' = Some bytes /\
    forall tl rem dec, 20 + p_cost (predictor d') + Z.of_nat (length (q_save (quantizer d'))) <= rem < 2 ^ 62 ->
      length dec = length data ->
      exists e rem', load e0 (bytes ++ tl) rem = Some (e, tl, rem') /\ decompress e inds dec = Some rs.
Proof.
  intros Hin Hp Hts. destruct (array_run NDEBUG d d0 d1 data Hin) as (inds & rs & p' & q' & E & Hl & Hacc & L1 & L2 & S1 & S2 & Hdec).
  destruct (p_load_follows _ _ p' Hp L1 S2) as (saved & Es & Hc & Hload).
  destruct Hin as [(Hgd & Hd0 & Hd1) (Hn & Hnum & H58) [_ Hb] [Hf _] _ _].
  eexists inds, rs, _, _. split; [exact E |]. split; [done |]. split; [done |]. unfold save. cbn [predictor quantizer global_dimensions block_size].
  rewrite Es. cbn [mbind option_bind]. split; [done |]. intros tl rem dec Hrem Hld. unfold load. rewrite <- !app_assoc, Hgd.
  rewrite (MemoryUtil.read_array_len_le 8 _ _ rem 2); [| done | repeat constructor; unfold is_u64; nia | lia]. cbn [mbind option_bind].
  rewrite MemoryUtil.read_var_len_le by (done || lia). cbn [mbind option_bind].
  destruct (Hload (q_save q' ++ tl) (rem - 2 * Z.of_nat 8 - Z.of_nat 4)) as (p & rem1 & -> & Hfp & Hr1); [lia |]. cbn [mbind option_bind].
  destruct (load_follows (quantizer e0) (quantizer d) q' tl rem1 Hf L2 S1) as (e & rem2 & -> & Hfe & _); [lia |]. cbn [mbind option_bind].
  eexists _, _. split; [done |]. rewrite Hts, <- Hgd. by apply Hdec.
Qed.

(** ** Witness *)

#[local] Existing Instance LinearQuantizer.linear_quantizer.
#[local] Instance lorenzo_row : PredictorInterface 1 LorenzoPredictor.LorenzoPredictor := LorenzoPredictor.lorenzo 1.

(** Three rows of four values, with an error bound of 0.25, and the Lorenzo predictor. *)
Definition sample : list Z :=
  [0x3ff0000000000000; 0x4000000000000000; 0x4008000000000000; 0x4014000000000000;
   0x4020000000000000; 0x402a000000000000; 0x4059000000000000; 0x3ff0000000000000;
   0x4000000000000000; 0x4008000000000000; 0x4014000000000000; 0x4020000000000000].
Definition sample_series : Decomposition LorenzoPredictor.LorenzoPredictor LinearQuantizer.LinearQuantizer :=
  mk (LorenzoPredictor.new 1 1 0x3fd0000000000000)
    (LinearQuantizer.mk [] 0 0x3fd0000000000000 0x4010000000000000 64) 2 2 12 [3; 4] None.
Definition empty_series : Decomposition LorenzoPredictor.LorenzoPredictor LinearQuantizer.LinearQuantizer :=
  mk (LorenzoPredictor.new 1 1 0) LinearQuantizer.new_default 0 0 0 [] None.

Lemma input_sample : input sample_series 3 4 sample.
Proof.
  split.
  - split_and!; [done | lia | lia].
  - split_and!; [done | done | done].
  - by split.
  - split; [done |]. by repeat split.
  - cbn [data_ts0 sample_series]. split_and!; [vm_compute; lia | vm_compute; lia |]. intros bl Hbl.
    vm_compute in Hbl. injection Hbl as <-. vm_compute. by repeat split.
  - intros inds data1 p1 q1 E. split; [| done]. vm_compute in E. injection E as <- <- <- <-. vm_compute. by repeat split.
Qed.

Lemma timeseries_roundtrip_witness :
  exists inds rs d' bytes, compress false sample_series sample = Some (inds, rs, d') /\ length inds = 12%nat /\
    Forall2 (accurate (quantizer sample_series)) sample rs /\ save d' = Some bytes /\
    forall tl rem dec, 20 + @p_cost 1 _ lorenzo_row (predictor d') + Z.of_nat (length (q_save (quantizer d'))) <= rem < 2 ^ 62 ->
      length dec = 12%nat ->
      exists e rem', load empty_series (bytes ++ tl) rem = Some (e, tl, rem') /\ decompress e inds dec = Some rs.
Proof.
  apply (timeseries_roundtrip false sample_series empty_series 3 4 sample); [apply input_sample | done | done].
Defined.

End TimeSeriesDecomposition.
