(* ===== verification/SzExaalt.v ===== *)
(** * SzExaalt: the compressor for molecular dynamics data

    Models [SZ3/compressor/specialized/SZExaaltCompressor.hpp] at [T = double] with the modules
    that the tool for molecular dynamics gives it: [LinearQuantizer], [HuffmanEncoder] and a
    lossless module.  The values lie around levels at equal distances, which [SzKmeans]
    estimates; a value is predicted by its nearest level, and the differences of the levels are stored
    next to the indices.  Along the time a value is predicted by its nearest level again, or by the value
    before. *)

From Stdlib Require Import ZArith Lia.
From stdpp Require Import sets.
From S2P Require Import Prelude Bytes Float64 Float32 SzBytes Stl Quantizer SzHuffman SzEncoder SzConfig SzPipeline SzDecomp.
From S2P Require Import SzIterator SzLevels SzGrid SzPredictor SzIterate SzTime.

Module SZExaaltCompressor.
Import LinearQuantizer (LinearQuantizer).
Import SzConfig (Config, dims, num).
Import TimeSeriesDecomposition (columns, quant_inds_of).

#[local] Existing Instance LinearQuantizer.linear_quantizer.

(** The members that describe the levels, and the others. *)
Record Scale := { level_start : Z; level_offset : Z; level_num : Z }.

Record Exaalt := mk { quantizer : LinearQuantizer; scale : Scale; timestep_op : Z }.

Definition make (q : LinearQuantizer) (timestep_op : Z) : Exaalt :=
  mk q {| level_start := 0; level_offset := 0; level_num := 0 |} timestep_op.

Definition set_level (e : Exaalt) (level_start level_offset level_num : Z) : Exaalt :=
  mk (quantizer e)
    {| level_start := level_start; level_offset := level_offset; level_num := i32 (level_num + 200) |} (timestep_op e).

(** The [float]s are converted to [double] for the difference.  A level that is no [int] is
    undefined in C++; it is what x86 gives ([f64_to_i32]), and then no difference that can be
    encoded. *)
Definition quantize_to_level (s : Scale) (data : Z) : Z :=
  f64_to_i32 (f64_round (f64_div (f64_sub data (f64_of_f32 (level_start s))) (f64_of_f32 (level_offset s)))).

(** Computed in [float], and converted. *)
Definition level (s : Scale) (l : Z) : Z :=
  f64_of_f32 (f32_add (level_start s) (f32_mul (f32_of_Z l) (level_offset s))).

(** ** Compression *)

(** A loop over the places [idxs], [l0] the level before: the differences of the levels, the indices, the
    levels, the data and the quantizer. *)
Fixpoint quantize_levels (s : Scale) (q : LinearQuantizer) (data : list Z) (idxs : list nat) (l0 : Z)
    {struct idxs} : option (list Z * list Z * list Z * list Z * LinearQuantizer) :=
  match idxs with
  | [] => Some ([], [], [], data, q)
  | i :: idxs =>
      x ← data !! i;
      let l := quantize_to_level s x in
      let '(ind, r, q) := q_quantize q x (level s l) in
      '(pred_inds, quant_inds, levels, data, q) ← quantize_levels s q (<[i := r]> data) idxs l;
      Some (i32 (l - l0 + level_num s) :: pred_inds, ind :: quant_inds, l :: levels, data, q)
  end.

(** The places of the column [i] from the second row on. *)
Definition column (d0 d1 i : nat) : list nat := (fun t => (t * d1 + i)%nat) <$> seq 1 (d0 - 1).

(** The loop over the columns [cols], each of which begins from its level in the first row. *)
Fixpoint quantize_columns (s : Scale) (q : LinearQuantizer) (data : list Z) (d0 d1 : nat) (levels : list Z)
    (cols : list nat) {struct cols} : option (list Z * list Z * list Z * LinearQuantizer) :=
  match cols with
  | [] => Some ([], [], data, q)
  | i :: cols =>
      l0 ← levels !! i;
      '(pred_inds, quant_inds, _, data, q) ← quantize_levels s q data (column d0 d1 i) l0;
      '(pred_inds', quant_inds', data, q) ← quantize_columns s q data d0 d1 levels cols;
      Some (pred_inds ++ pred_inds', quant_inds ++ quant_inds', data, q)
  end.

Definition extent (c : Config) (i : nat) : option nat := Z.to_nat <$> (dims c !! i).

Section compressor.

Context `{Order : !MapOrder} `{HL : !LosslessInterface}.
Variables (left_first : bool) (junk : Z) (NDEBUG : bool).

(** Prediction and quantization: [pred_inds], [quant_inds], the data and the quantizer.  The difference
    of the first level is the level itself. *)
Definition predict (e : Exaalt) (c : Config) (data : list Z)
    : option (list Z * list Z * list Z * LinearQuantizer) :=
  let n := Z.to_nat (num c) in
  _ ← assert (NDEBUG || negb ((0 <? timestep_op e) && negb (length (dims c) =? 2)%nat));
  _ ← assert (0 <? num c);
  if timestep_op e =? 0 then
    '(pred_inds, quant_inds, _, data, q) ← quantize_levels (scale e) (quantizer e) data (seq 0 n) 0;
    Some (pred_inds, quant_inds, data, q)
  else
    d0 ← extent c 0;
    d1 ← extent c 1;
    _ ← assert (0 <? d1)%nat;
    '(pred_inds, quant_inds, levels, data, q) ← quantize_levels (scale e) (quantizer e) data (seq 0 d1) 0;
    if timestep_op e =? 1 then
      '(quant_inds', data, q) ← quantize_visits q data (columns d0 d1);
      quant_inds ← quant_inds_of NDEBUG n (quant_inds ++ quant_inds');
      Some (pred_inds, quant_inds, data, q)
    else
      '(pred_inds', quant_inds', data, q) ← quantize_columns (scale e) q data d0 d1 levels (seq 0 d1);
      quant_inds ← quant_inds_of NDEBUG n (quant_inds ++ quant_inds');
      pred_inds ← quant_inds_of NDEBUG n (pred_inds ++ pred_inds');
      Some (pred_inds, quant_inds, data, q).

(** The buffer for the lossless module; [None] also for a write past its end. *)
Definition buffer_of (e : Exaalt) (c : Config) (data : list Z) : option (list Z) :=
  '(pred_inds, quant_inds, _, q) ← predict e c data;
  encoded ← huffman_run left_first junk quant_inds (i32 (2 * q_radius q));
  levels ← huffman_run left_first junk pred_inds (i32 (level_num (scale e) * 2 + 1));
  let buffer := q_save q ++ encoded ++ levels in
  _ ← assert (Z.of_nat (length buffer) <=? u64 (4 * num c * 8));
  Some buffer.

Definition compress (e : Exaalt) (c : Config) (data cmpData : list Z) : option (Z * list Z) :=
  buffer ← buffer_of e c data;
  Some (l_compress buffer cmpData).

(** ** Decompression *)

(** The loop over the places [idxs], [l] the level before: the levels, the data, what is left of both lists, and the
    quantizer. *)
Fixpoint recover_levels (s : Scale) (q : LinearQuantizer) (dec_data : list Z) (idxs : list nat)
    (pred_inds quant_inds : list Z) (l : Z) {struct idxs}
    : option (list Z * list Z * list Z * list Z * LinearQuantizer) :=
  match idxs with
  | [] => Some ([], dec_data, pred_inds, quant_inds, q)
  | i :: idxs =>
      match pred_inds, quant_inds with
      | p :: pred_inds, ind :: quant_inds =>
          let l := i32 (l + i32 (p - level_num s)) in
          _ ← dec_data !! i;
          '(r, q) ← q_recover q (level s l) ind;
          '(levels, dec_data, pred_inds, quant_inds, q) ←
            recover_levels s q (<[i := r]> dec_data) idxs pred_inds quant_inds l;
          Some (l :: levels, dec_data, pred_inds, quant_inds, q)
      | _, _ => None
      end
  end.

Fixpoint recover_columns (s : Scale) (q : LinearQuantizer) (dec_data : list Z) (d0 d1 : nat) (levels : list Z)
    (pred_inds quant_inds : list Z) (cols : list nat) {struct cols} : option (list Z * LinearQuantizer) :=
  match cols with
  | [] => Some (dec_data, q)
  | i :: cols =>
      l ← levels !! i;
      '(_, dec_data, pred_inds, quant_inds, q) ←
        recover_levels s q dec_data (column d0 d1 i) pred_inds quant_inds l;
      recover_columns s q dec_data d0 d1 levels pred_inds quant_inds cols
  end.

(** The values from the indices; [assert(pred_idx == conf.num)] compares the dimensions with the number. *)
Definition recover (e : Exaalt) (c : Config) (q : LinearQuantizer) (pred_inds quant_inds dec_data : list Z)
    : option (list Z) :=
  let n := Z.to_nat (num c) in
  if timestep_op e =? 0 then
    '(_, dec_data, _, _, _) ← recover_levels (scale e) q dec_data (seq 0 n) pred_inds quant_inds 0;
    Some dec_data
  else
    d0 ← extent c 0;
    d1 ← extent c 1;
    _ ← assert (0 <? d1)%nat;
    '(levels, dec_data, pred_inds, quant_inds, q) ← recover_levels (scale e) q dec_data (seq 0 d1) pred_inds quant_inds 0;
    '(dec_data, _) ←
      (if timestep_op e =? 1 then
         '(dec_data, _, q) ← recover_visits q dec_data (columns d0 d1) quant_inds;
         Some (dec_data, q)
       else recover_columns (scale e) q dec_data d0 d1 levels pred_inds quant_inds (seq 0 d1));
    _ ← assert (NDEBUG || (d1 + d1 * (d0 - 1) =? n)%nat);
    Some dec_data.

(** The size that the lossless module returns is not looked at, and the length that is left is
    that of the compressed data; [uninit] is what the buffer holds before. *)
Definition decompress (e : Exaalt) (c : Config) (uninit cmpData : list Z) (cmpSize : Z) (dec_data : list Z)
    : option (list Z) :=
  _ ← assert (cmpSize <=? Z.of_nat (length cmpData));
  let bufferCap := u64 (num c * 8) in
  let buffer := (l_decompress (take (Z.to_nat cmpSize) cmpData) (take (Z.to_nat bufferCap) uninit)).2 in
  let remaining_length := cmpSize in
  '(q, buffer, remaining_length) ← q_load (quantizer e) buffer remaining_length;
  '(root, offset, buffer, remaining_length) ← SzHuffman.load buffer remaining_length;
  '(quant_inds, buffer) ← SzHuffman.decode root offset buffer (Z.to_nat (num c));
  '(root, offset, buffer, remaining_length) ← SzHuffman.load buffer remaining_length;
  pred_inds_num ← (if timestep_op e =? 1 then extent c 1 else Some (Z.to_nat (num c)));
  '(pred_inds, _) ← SzHuffman.decode root offset buffer pred_inds_num;
  _ ← assert (0 <? num c);
  recover e c q pred_inds quant_inds dec_data.

End compressor.

(** ** The visits behind the loops *)

Section visits.

Context (s : Scale).

(** The value at [i] predicted by the level [l]. *)
Definition level_visit (i : nat) (l : Z) : visit := {| v_idx := i; v_src := []; v_fun := fun _ => level s l |}.

Definition levels_of (data : list Z) (idxs : list nat) : list Z :=
  (fun i => quantize_to_level s (default 0 (data !! i))) <$> idxs.

Definition level_visits (data : list Z) (idxs : list nat) : list visit :=
  zip_with level_visit idxs (levels_of data idxs).

(** The differences that are stored. *)
Fixpoint differences (l0 : Z) (levels : list Z) : list Z :=
  match levels with
  | [] => []
  | l :: levels => i32 (l - l0 + level_num s) :: differences l levels
  end.

Lemma levels_of_other data idxs i r : i ∉ idxs -> levels_of (<[i := r]> data) idxs = levels_of data idxs.
Proof.
  intros Hi. apply list_fmap_ext. intros k j Hj. rewrite list_lookup_insert_ne; [done |].
  intros ->. apply Hi. by eapply list_elem_of_lookup_2.
Qed.

Lemma level_visits_idx data idxs : v_idx <$> level_visits data idxs = idxs.
Proof.
  unfold level_visits, levels_of. induction idxs as [| i idxs IH]; [done |].
  rewrite fmap_cons. cbn [zip_with]. rewrite fmap_cons. f_equal. exact IH.
Qed.

Lemma level_visits_causal data idxs known : causal known (level_visits data idxs).
Proof.
  revert known. unfold level_visits, levels_of. induction idxs as [| i idxs IH]; intros known; [done |].
  split; [constructor | apply IH].
Qed.

(** Quantizing around levels is quantizing along visits; the levels are those of the data before. *)
Lemma quantize_levels_visits idxs : forall q data l0, NoDup idxs ->
  quantize_levels s q data idxs l0 =
  '(inds, data', q') ← quantize_visits q data (level_visits data idxs);
  Some (differences l0 (levels_of data idxs), inds, levels_of data idxs, data', q').
Proof.
  induction idxs as [| i idxs IH]; intros q data l0 Hnd; [done |]. apply list.NoDup_cons in Hnd as [Hi Hnd].
  cbn [quantize_levels level_visits levels_of fmap list_fmap zip_with quantize_visits level_visit v_idx].
  destruct (data !! i) as [x |]; [| done]. cbn [mbind option_bind default id differences]. fold (levels_of data idxs).
  set (l := quantize_to_level s x). change (sources data (level_visit i l)) with (Some (@nil Z)).
  cbn [mbind option_bind v_fun level_visit]. destruct (q_quantize q x (level s l)) as [[ind r] q1].
  rewrite IH by done. unfold level_visits. rewrite (levels_of_other data idxs i r Hi). destruct (quantize_visits _ _ _) as [[[inds data'] q'] |]; done.
Qed.

Lemma i32_back l l0 n : is_i32 l -> i32 (l0 + i32 (i32 (l - l0 + n) - n)) = l.
Proof.
  intros Hl. unfold i32, swrap. change (2 ^ (32 - 1)) with 2147483648. change (2 ^ 32) with 4294967296.
  unfold is_i32 in Hl. change (2 ^ 31) with 2147483648 in Hl.
  Z.to_euclidean_division_equations. lia.
Qed.

Lemma recover_levels_visits idxs : forall levels q dec l0 ptl inds,
  length levels = length idxs -> Forall is_i32 levels ->
  recover_levels s q dec idxs (differences l0 levels ++ ptl) inds l0 =
  '(dec', itl, q') ← recover_visits q dec (zip_with level_visit idxs levels) inds;
  Some (levels, dec', ptl, itl, q').
Proof.
  induction idxs as [| i idxs IH]; intros [| l levels] q dec l0 ptl inds Hl Hi; try done.
  apply Forall_cons_iff in Hi as [Hi His]. cbn [differences app recover_levels zip_with recover_visits level_visit v_idx].
  destruct inds as [| ind inds]; [done |]. rewrite i32_back by done.
  destruct (dec !! i) as [x |]; [| done]. cbn [mbind option_bind].
  change (sources dec (level_visit i l)) with (Some (@nil Z)). cbn [mbind option_bind v_fun level_visit].
  destruct (q_recover q (level s l) ind) as [[r q1] |]; [| done]. cbn [mbind option_bind].
  rewrite IH by (done || by injection Hl). by destruct (recover_visits _ _ _ _) as [[[dec' itl] q'] |].
Qed.

Lemma levels_of_range data idxs : Forall is_i32 (levels_of data idxs).
Proof. apply Forall_fmap, list.Forall_forall. intros i _. apply f64_to_i32_range. Qed.

Lemma differences_length ls : forall l, length (differences l ls) = length ls.
Proof. induction ls as [| x ls IH]; intros l; [done |]. simpl. by rewrite IH. Qed.

End visits.

Section runs.

Context {Q : Type} `{HQ : !QuantizerInterface Q}.

Lemma quantize_visits_app vs ws : forall (q : Q) data,
  quantize_visits q data (vs ++ ws) =
  '(inds, data, q) ← quantize_visits q data vs;
  '(inds', data, q) ← quantize_visits q data ws;
  Some (inds ++ inds', data, q).
Proof.
  induction vs as [| v vs IH]; intros q data; cbn [app quantize_visits].
  { cbn [mbind option_bind]. by destruct (quantize_visits q data ws) as [[[? ?] ?] |]. }
  destruct (data !! v_idx v); [| done]. cbn [mbind option_bind]. destruct (sources data v); [| done]. cbn [mbind option_bind].
  destruct (q_quantize _ _ _) as [[i r] q1]. rewrite IH.
  destruct (quantize_visits q1 _ vs) as [[[inds data1] q2] |]; [| done]. cbn [mbind option_bind].
  by destruct (quantize_visits q2 data1 ws) as [[[inds' data2] q3] |].
Qed.

Lemma recover_visits_app vs ws : forall (q : Q) data inds,
  recover_visits q data (vs ++ ws) inds =
  '(data, inds, q) ← recover_visits q data vs inds; recover_visits q data ws inds.
Proof.
  induction vs as [| v vs IH]; intros q data inds; cbn [app recover_visits]; [done |].
  destruct inds as [| i inds]; [done |].
  destruct (data !! v_idx v); [| done]. cbn [mbind option_bind]. destruct (sources data v); [| done]. cbn [mbind option_bind].
  destruct (q_recover _ _ _) as [[r q1] |]; [| done]. cbn [mbind option_bind]. apply IH.
Qed.

End runs.

(** What is not visited is left as it is. *)
Lemma quantize_visits_other {Q} `{HQ : !QuantizerInterface Q} vs : forall (q : Q) data inds data' q',
  quantize_visits q data vs = Some (inds, data', q') ->
  length data' = length data /\ length inds = length vs /\ forall i, i ∉ v_idx <$> vs -> data' !! i = data !! i.
Proof.
  induction vs as [| v vs IH]; intros q data inds data' q' E; cbn [quantize_visits] in E.
  { apply (inj Some) in E. injection E as <- <- <-. done. }
  destruct (data !! v_idx v); [| done]. cbn [mbind option_bind] in E. destruct (sources data v); [| done]. cbn [mbind option_bind] in E.
  destruct (q_quantize _ _ _) as [[ind r] q1]. destruct (quantize_visits q1 _ vs) as [[[inds1 data1] q2] |] eqn:E1; [| done].
  apply (inj Some) in E. injection E as <- <- <-. destruct (IH _ _ _ _ _ E1) as (L1 & L2 & H).
  rewrite length_insert in L1. split_and!; [done | simpl; lia |]. intros i Hi. rewrite fmap_cons, not_elem_of_cons in Hi.
  destruct Hi as [Hi Hi']. rewrite H by done. by apply list_lookup_insert_ne.
Qed.

(** ** The columns *)

Section columns.

Context (s : Scale) (d0 d1 : nat) (data0 : list Z).
#[local] Set Default Proof Using "All".

Definition column_visits (cols : list nat) : list visit :=
  cols ≫= fun i => level_visits s data0 (column d0 d1 i).

Lemma column_elem i k : (i < d1)%nat -> k ∈ column d0 d1 i -> (k mod d1 = i)%nat.
Proof.
  intros Hi (t & -> & _)%list_elem_of_fmap. rewrite Nat.add_comm, Nat.Div0.mod_add. by apply Nat.mod_small.
Qed.

Lemma column_NoDup i : (0 < d1)%nat -> NoDup (column d0 d1 i).
Proof. intros Hd. apply NoDup_fmap_2; [| apply NoDup_seq]. intros a b E. nia. Qed.

Lemma levels_of_agree data idxs : (forall k, k ∈ idxs -> data !! k = data0 !! k) ->
  levels_of s data idxs = levels_of s data0 idxs.
Proof.
  intros H. apply list_fmap_ext. intros k j Hj. rewrite H; [done |]. by eapply list_elem_of_lookup_2.
Qed.

(** The same places as [columns]. *)
Lemma column_visits_idx : v_idx <$> column_visits (seq 0 d1) = v_idx <$> columns d0 d1.
Proof.
  unfold column_visits, columns. rewrite !Levels.fmap_bind. apply list_bind_ext; [| done]. intros i.
  rewrite level_visits_idx. unfold column. by rewrite <- list_fmap_compose.
Qed.

Lemma column_visits_causal known : causal known (column_visits (seq 0 d1)).
Proof. unfold column_visits. apply Grid.causal_bind. intros j i _. apply level_visits_causal. Qed.

Context (levels : list Z).

Definition column_differences (cols : list nat) : list Z :=
  cols ≫= fun i => differences s (default 0 (levels !! i)) (levels_of s data0 (column d0 d1 i)).

Lemma quantize_columns_visits cols : forall q data, NoDup cols -> (forall i, i ∈ cols -> i < d1 /\ i < length levels)%nat ->
  (forall i k, i ∈ cols -> k ∈ column d0 d1 i -> data !! k = data0 !! k) ->
  quantize_columns s q data d0 d1 levels cols =
  '(inds, data', q') ← quantize_visits q data (column_visits cols);
  Some (column_differences cols, inds, data', q').
Proof.
  induction cols as [| i cols IH]; intros q data Hnd Hc Hag; [done |]. apply list.NoDup_cons in Hnd as [Hi Hnd].
  destruct (Hc i) as [Hi1 Hi2]; [set_solver |]. destruct (lookup_lt_is_Some_2 levels i Hi2) as [l0 El].
  cbn [quantize_columns]. unfold column_visits, column_differences. rewrite !bind_cons, quantize_visits_app, El.
  cbn [mbind option_bind default id]. rewrite quantize_levels_visits by (apply column_NoDup; lia).
  unfold level_visits. rewrite (levels_of_agree data (column d0 d1 i)) by (intros k Hk; apply (Hag i k); [set_solver | done]).
  fold (level_visits s data0 (column d0 d1 i)).
  destruct (quantize_visits q data _) as [[[inds data1] q1] |] eqn:E; [| done]. cbn [mbind option_bind].
  apply quantize_visits_other in E as (_ & _ & Hother). rewrite level_visits_idx in Hother.
  rewrite IH; [| done | intros j Hj; apply Hc; set_solver |].
  - fold (column_visits cols). fold (column_differences cols).
    by destruct (quantize_visits q1 data1 _) as [[[inds' data2] q2] |].
  - intros j k Hj Hk. rewrite Hother; [apply (Hag j k); [set_solver | done] |].
    intros Hk'. apply Hi. destruct (Hc j) as [Hj1 _]; [set_solver |].
    by rewrite <- (column_elem i k Hi1 Hk'), (column_elem j k Hj1 Hk).
Qed.

Lemma recover_columns_visits cols : forall q dec inds, (forall i, i ∈ cols -> i < length levels)%nat ->
  recover_columns s q dec d0 d1 levels (column_differences cols) inds cols =
  '(dec', _, q') ← recover_visits q dec (column_visits cols) inds; Some (dec', q').
Proof.
  induction cols as [| i cols IH]; intros q dec inds Hc; [done |].
  destruct (lookup_lt_is_Some_2 levels i) as [l0 El]; [apply Hc; set_solver |].
  cbn [recover_columns]. unfold column_visits, column_differences. rewrite !bind_cons, recover_visits_app, El.
  cbn [mbind option_bind default id].
  rewrite recover_levels_visits by (unfold levels_of; rewrite ?length_fmap; done || apply levels_of_range).
  fold (level_visits s data0 (column d0 d1 i)).
  destruct (recover_visits q dec _ inds) as [[[dec1 inds1] q1] |]; [| done]. cbn [mbind option_bind].
  fold (column_visits cols). fold (column_differences cols). apply IH. set_solver.
Qed.

Lemma column_differences_length cols : length (column_differences cols) = length (column_visits cols).
Proof.
  unfold column_differences, column_visits. induction cols as [| i cols IH]; [done |].
  rewrite !bind_cons, !length_app, IH, differences_length. f_equal.
  rewrite <- (length_fmap v_idx (level_visits _ _ _)), level_visits_idx. unfold levels_of. by rewrite length_fmap.
Qed.

End columns.

(** ** The law *)

Section law.

Context `{Order : !MapOrder} `{HL : !LosslessInterface} `{HLL : !LosslessLaws HL}.
Variables (left_first : bool) (junk : Z) (NDEBUG : bool).

(** The order of the visits, for data of [n] values, or of [d0] rows of [d1]. *)
Definition visits_of (e : Exaalt) (d0 d1 : nat) (data : list Z) : list visit :=
  if timestep_op e =? 0 then level_visits (scale e) data (seq 0 (length data))
  else level_visits (scale e) data (seq 0 d1) ++
    (if timestep_op e =? 1 then columns d0 d1 else column_visits (scale e) d0 d1 data (seq 0 d1)).

(** The differences of levels that are stored. *)
Definition preds_of (e : Exaalt) (d0 d1 : nat) (data : list Z) : list Z :=
  if timestep_op e =? 0 then differences (scale e) 0 (levels_of (scale e) data (seq 0 (length data)))
  else
    let levels := levels_of (scale e) data (seq 0 d1) in
    differences (scale e) 0 levels ++
      (if timestep_op e =? 1 then [] else column_differences (scale e) d0 d1 data levels (seq 0 d1)).

(** What is compressed: [d0] rows of [d1] values where the time is used, with a new quantizer that
    is made for what it meets. *)
Record input (e : Exaalt) (c : Config) (d0 d1 : nat) (data : list Z) : Prop := {
  i_num : num c = Z.of_nat (length data) /\ 0 < num c < 2 ^ 58;
  i_dims : timestep_op e = 0 \/ (dims c = [Z.of_nat d0; Z.of_nat d1] /\ (d0 * d1 = length data)%nat);
  i_q : fresh (quantizer e) /\ storable (quantizer e);
  i_visits : visits_ok (quantizer e) data (visits_of e d0 d1 data)
}.

Lemma first_order e d0 d1 data : (0 < d0)%nat -> (d0 * d1 = length data)%nat -> timestep_op e <> 0 ->
  causal [] (visits_of e d0 d1 data) /\ v_idx <$> visits_of e d0 d1 data ≡ₚ seq 0 (length data).
Proof.
  intros Hd Hl Hop. unfold visits_of. rewrite (proj2 (Z.eqb_neq _ _) Hop). split.
  - apply Levels.causal_app; [apply level_visits_causal |].
    destruct (timestep_op e =? 1); [| apply column_visits_causal].
    apply TimeSeriesDecomposition.columns_causal. intros j Hj.
    rewrite app_nil_r, elem_of_reverse, level_visits_idx. apply elem_of_seq. lia.
  - rewrite fmap_app, level_visits_idx, <- Hl.
    replace (v_idx <$> _) with (v_idx <$> columns d0 d1) at 1
      by (destruct (timestep_op e =? 1); [done | by rewrite column_visits_idx]).
    by apply TimeSeriesDecomposition.all_places.
Qed.

Lemma order e c d0 d1 data : input e c d0 d1 data ->
  causal [] (visits_of e d0 d1 data) /\ v_idx <$> visits_of e d0 d1 data ≡ₚ seq 0 (length data).
Proof.
  intros [Hn Hd _ _]. destruct (Z.eq_dec (timestep_op e) 0) as [E | Hop].
  - unfold visits_of. rewrite E, Z.eqb_refl. rewrite level_visits_idx. split; [apply level_visits_causal | done].
  - destruct Hd as [Hd | [_ Hd]]; [done |]. apply first_order; [| done | done].
    destruct d0; simpl in *; lia.
Qed.

(** The sizes that [assert(pred_idx == conf.num)] compares. *)
Lemma quant_inds_of_id n inds : length inds = n -> quant_inds_of NDEBUG n inds = Some inds.
Proof.
  intros <-. unfold quant_inds_of. rewrite Nat.sub_diag.
  rewrite assert_true by (destruct NDEBUG; [by apply Nat.leb_le | by apply Nat.eqb_eq]).
  cbn [mbind option_bind replicate]. by rewrite app_nil_r.
Qed.

Lemma extents c d0 d1 : dims c = [Z.of_nat d0; Z.of_nat d1] -> extent c 0 = Some d0 /\ extent c 1 = Some d1.
Proof. unfold extent. intros ->. simpl. by rewrite !Nat2Z.id. Qed.

(** Prediction goes along the visits. *)
Lemma predict_visits e c d0 d1 data inds rs q' : input e c d0 d1 data ->
  quantize_visits (quantizer e) data (visits_of e d0 d1 data) = Some (inds, rs, q') ->
  predict NDEBUG e c data = Some (preds_of e d0 d1 data, inds, rs, q').
Proof.
  intros Hin E. pose proof (order e c d0 d1 data Hin) as [_ Hall]. destruct Hin as [[Hnum Hn] Hd _ _].
  pose proof (quantize_visits_other _ _ _ _ _ _ E) as (_ & Hli & _).
  assert (length (visits_of e d0 d1 data) = length data) as Hlv
    by (rewrite <- (length_fmap v_idx), Hall; apply length_seq).
  assert (length inds = length data) as Hlen by congruence.
  unfold predict. rewrite Hnum, Nat2Z.id.
  rewrite (assert_true (NDEBUG || negb ((0 <? timestep_op e) && negb (length (dims c) =? 2)%nat))); cycle 1.
  { destruct Hd as [-> | [-> _]]; [by rewrite orb_true_r |]. simpl. by rewrite andb_false_r, orb_true_r. }
  cbn [mbind option_bind]. rewrite assert_true by (apply Z.ltb_lt; lia). cbn [mbind option_bind].
  unfold visits_of, preds_of in *. destruct (timestep_op e =? 0) eqn:E0.
  { rewrite quantize_levels_visits by apply NoDup_seq. rewrite E. done. }
  destruct Hd as [Hd | [Hdims Hd]]; [by rewrite Hd in E0 |]. destruct (extents c d0 d1 Hdims) as [-> ->].
  cbn [mbind option_bind]. rewrite assert_true by (apply Nat.ltb_lt; destruct d1; lia). cbn [mbind option_bind].
  rewrite quantize_levels_visits by apply NoDup_seq. rewrite quantize_visits_app in E.
  destruct (quantize_visits (quantizer e) data _) as [[[inds1 data1] q1] |] eqn:E1; [| done]. cbn [mbind option_bind] in E |- *.
  pose proof (quantize_visits_other _ _ _ _ _ _ E1) as (_ & Hl1 & Hother). rewrite level_visits_idx in Hother.
  destruct (timestep_op e =? 1) eqn:Eop.
  - destruct (quantize_visits q1 data1 (columns d0 d1)) as [[[inds2 data2] q2] |]; [| done].
    cbn [mbind option_bind] in E |- *. apply (inj Some) in E. injection E as <- <- <-.
    rewrite (quant_inds_of_id _ (inds1 ++ inds2)) by done. cbn [mbind option_bind]. by rewrite app_nil_r.
  - rewrite (quantize_columns_visits (scale e) d0 d1 data).
    + destruct (quantize_visits q1 data1 _) as [[[inds2 data2] q2] |]; [| done].
      cbn [mbind option_bind] in E |- *. apply (inj Some) in E. injection E as <- <- <-.
      rewrite (quant_inds_of_id _ (inds1 ++ inds2)) by done. cbn [mbind option_bind]. rewrite quant_inds_of_id; [done |].
      rewrite <- Hlv, !length_app, column_differences_length, differences_length. f_equal.
      rewrite <- (length_fmap v_idx (level_visits _ _ _)), level_visits_idx. unfold levels_of. by rewrite length_fmap.
    + apply NoDup_seq.
    + intros i Hi%elem_of_seq. unfold levels_of. rewrite length_fmap, length_seq. lia.
    + intros i k Hi%elem_of_seq (t & -> & Ht%elem_of_seq)%list_elem_of_fmap. apply Hother. rewrite elem_of_seq. nia.
Qed.

(** And so does the recovery, with a compressor of the same scale. *)
Lemma recover_visits_of e e0 c d0 d1 data q dec inds rs itl q' : input e c d0 d1 data ->
  scale e0 = scale e -> timestep_op e0 = timestep_op e ->
  recover_visits q dec (visits_of e d0 d1 data) inds = Some (rs, itl, q') ->
  recover NDEBUG e0 c q (preds_of e d0 d1 data) inds dec = Some rs.
Proof.
  intros [[Hnum Hn] Hd _ _] Hs Hop E. unfold recover, visits_of, preds_of in *. rewrite Hs, Hop, Hnum, Nat2Z.id.
  assert (forall l : list nat, length (levels_of (scale e) data l) = length l) as Hlen
    by (intros l; unfold levels_of; apply length_fmap).
  destruct (timestep_op e =? 0) eqn:E0.
  { rewrite <- (app_nil_r (differences _ _ _)), recover_levels_visits by (apply Hlen || apply levels_of_range).
    fold (level_visits (scale e) data (seq 0 (length data))). by rewrite E. }
  destruct Hd as [Hd | [Hdims Hd]]; [by rewrite Hd in E0 |]. destruct (extents c d0 d1 Hdims) as [-> ->].
  cbn [mbind option_bind]. rewrite (assert_true (0 <? d1)%nat) by (apply Nat.ltb_lt; destruct d1; lia). cbn [mbind option_bind].
  rewrite recover_levels_visits by (apply Hlen || apply levels_of_range).
  fold (level_visits (scale e) data (seq 0 d1)). rewrite recover_visits_app in E.
  destruct (recover_visits q dec _ inds) as [[[dec1 inds1] q1] |]; [| done]. cbn [mbind option_bind] in E |- *.
  assert (assert (NDEBUG || (d1 + d1 * (d0 - 1) =? length data)%nat) = Some tt) as Ha.
  { apply assert_true. rewrite (proj2 (Nat.eqb_eq _ _)), orb_true_r; [done |]. rewrite <- Hd. destruct d0; simpl in *; nia. }
  destruct (timestep_op e =? 1) eqn:Eop.
  - rewrite E. cbn [mbind option_bind]. by rewrite Ha.
  - rewrite recover_columns_visits by (intros i Hi%elem_of_seq; rewrite Hlen, length_seq; lia).
    rewrite E. cbn [mbind option_bind]. by rewrite Ha.
Qed.

(** The quantizer looks at the length that is left for its first bytes only. *)
Lemma quantizer_load_any d0 q c rem rem2 q' c' rem' : LinearQuantizer.load d0 c rem = Some (q', c', rem') ->
  13 < rem2 -> LinearQuantizer.load q c rem2 = Some (q', c', rem2 - 1).
Proof.
  unfold LinearQuantizer.load. intros E Hr. destruct (assert (1 + 8 + 4 <? rem)); [| done]. cbn [mbind option_bind] in E.
  rewrite assert_true by (apply Z.ltb_lt; lia). cbn [mbind option_bind].
  repeat match goal with
  | H : mbind _ ?o = Some _ |- _ => destruct o as [[? ?] |]; [| done]; cbn [mbind option_bind] in *
  end. apply (inj Some) in E. injection E as <- <- <-. done.
Qed.

Lemma preds_length e c d0 d1 data : input e c d0 d1 data ->
  (if timestep_op e =? 1 then extent c 1 else Some (Z.to_nat (num c))) = Some (length (preds_of e d0 d1 data)).
Proof.
  intros Hin. destruct (order e c d0 d1 data Hin) as [_ Hall]. apply Permutation_length in Hall.
  rewrite length_seq, length_fmap in Hall.
  destruct Hin as [[Hnum _] Hd _ _]. rewrite Hnum, Nat2Z.id. unfold preds_of, visits_of in *.
  assert (forall l, length (levels_of (scale e) data l) = length (level_visits (scale e) data l)) as Hl.
  { intros l. rewrite <- (length_fmap v_idx (level_visits _ _ _)), level_visits_idx. unfold levels_of. apply length_fmap. }
  destruct (timestep_op e =? 0) eqn:E0.
  { apply Z.eqb_eq in E0. rewrite E0. cbn [Z.eqb]. by rewrite differences_length, Hl, Hall. }
  destruct Hd as [Hd | [Hdims _]]; [by rewrite Hd in E0 |]. destruct (extents c d0 d1 Hdims) as [_ ->].
  destruct (timestep_op e =? 1).
  - rewrite app_nil_r, differences_length. unfold levels_of. by rewrite length_fmap, length_seq.
  - rewrite length_app, differences_length, column_differences_length, Hl, <- length_app. by rewrite Hall.
Qed.

(** What one call of the encoder wrote is loaded and decoded, with four bytes at least said to be left. *)
Lemma huffman_both bins state : SzHuffman.encodable bins ->
  exists bytes, huffman_run left_first junk bins state = Some bytes /\
    forall tl rem, 4 <= rem -> exists root offset e,
      SzHuffman.load (bytes ++ tl) rem = Some (root, offset, e ++ tl, rem - 4) /\
      SzHuffman.decode root offset (e ++ tl) (length bins) = Some (bins, tl).
Proof.
  intros Henc. destruct (SzHuffman.huffman_encoder_correct left_first junk bins Henc) as (h & e & E1 & E2 & H).
  unfold huffman_run. rewrite E1. cbn [mbind option_bind]. rewrite E2. cbn [mbind option_bind].
  eexists. split; [done |]. intros tl rem Hrem. destruct (H tl rem Hrem) as [L D]. rewrite <- app_assoc. eauto.
Qed.

End law.

(** C37: the compressor for molecular dynamics data, with or without prediction along the time: the data are
    replaced by values within the bound, which a compressor with the same levels gives back from the
    compressed data, provided that the buffer has no more bytes than the data, which is what the decompressor
    makes room for, and more than 13 bytes are left of it, the length the modules are told. *)
Theorem exaalt_roundtrip `{Order : !MapOrder} `{HL : !LosslessInterface} (HLL : LosslessLaws HL) left_first junk NDEBUG
    e e0 c d0 d1 data :
  input e c d0 d1 data -> scale e0 = scale e -> timestep_op e0 = timestep_op e ->
  exists pred_inds quant_inds rs q, predict NDEBUG e c data = Some (pred_inds, quant_inds, rs, q) /\
    Forall2 (accurate (quantizer e)) data rs /\
    (SzHuffman.encodable quant_inds -> SzHuffman.encodable pred_inds ->
     exists encoded levels,
       huffman_run left_first junk quant_inds (i32 (2 * q_radius q)) = Some encoded /\
       huffman_run left_first junk pred_inds (i32 (level_num (scale e) * 2 + 1)) = Some levels /\
       forall cmpData uninit dec size out,
         (length (q_save q ++ encoded ++ levels) <= 8 * length data)%nat ->
         l_compress (q_save q ++ encoded ++ levels) cmpData = (size, out) ->
         13 < size <= Z.of_nat (length cmpData) ->
         (8 * length data <= length uninit)%nat -> length dec = length data ->
         compress left_first junk NDEBUG e c data cmpData = Some (size, out) /\
         decompress NDEBUG e0 c uninit out size dec = Some rs).
Proof.
  intros Hin Hs Hop. destruct (order e c d0 d1 data Hin) as [Hc Hall].
  destruct (quantize_visits_all _ _ _ (proj2 (i_q _ _ _ _ _ Hin)) (i_visits _ _ _ _ _ Hin) Hc Hall)
    as (inds & rs & q' & E & H1 & H2 & H3 & H4 & H5 & H6).
  pose proof (predict_visits NDEBUG e c d0 d1 data inds rs q' Hin E) as Ep.
  exists (preds_of e d0 d1 data), inds, rs, q'. split; [done |]. split; [done |]. intros He1 He2.
  destruct (huffman_both left_first junk inds (i32 (2 * q_radius q')) He1) as (encoded & Ee & D1).
  destruct (huffman_both left_first junk (preds_of e d0 d1 data) (i32 (level_num (scale e) * 2 + 1)) He2) as (levels & El & D2).
  exists encoded, levels. split; [done |]. split; [done |]. intros cmpData uninit dec size out Hcap Hl Hsize Hun Hdec.
  pose proof (i_num _ _ _ _ _ Hin) as [Hnum Hn]. split.
  { unfold compress, buffer_of. rewrite Ep. cbn [mbind option_bind]. rewrite Ee. cbn [mbind option_bind]. rewrite El.
    cbn [mbind option_bind]. rewrite assert_true by (apply Z.leb_le; rewrite u64_id by (unfold is_u64; lia); lia).
    cbn [mbind option_bind]. by rewrite Hl. }
  destruct (l_correct _ _ _ _ Hl ltac:(lia)) as (_ & Hunpack). pose proof (l_length (q_save q' ++ encoded ++ levels) cmpData) as Hlo.
  rewrite Hl in Hlo. cbn [snd] in Hlo.
  unfold decompress. rewrite (assert_true (size <=? Z.of_nat (length out))) by (apply Z.leb_le; lia). cbn [mbind option_bind].
  rewrite u64_id by (unfold is_u64; lia).
  match goal with |- context [l_decompress _ ?room] => destruct (Hunpack room) as (_ & rest & -> & _) end; [rewrite length_take; lia |].
  rewrite <- !app_assoc.
  set (tl := encoded ++ levels ++ rest).
  destruct (load_follows (quantizer e0) (quantizer e) q' tl (Z.of_nat (length (q_save q'))) (proj1 (i_q _ _ _ _ _ Hin)) H1 H2)
    as (d & rem' & Eload & Hf & _); [rewrite length_app in Hcap; lia |].
  change (q_load (quantizer e0) (q_save q' ++ tl) size) with (LinearQuantizer.load (quantizer e0) (q_save q' ++ tl) size).
  rewrite (quantizer_load_any (quantizer e0) (quantizer e0) _ _ size _ _ _ Eload) by lia. cbn [mbind option_bind]. unfold tl.
  destruct (D1 (levels ++ rest) (size - 1)) as (root & offset & e' & -> & Edec); [lia |].
  cbn [mbind option_bind]. rewrite Hnum, Nat2Z.id, <- H3, Edec. cbn [mbind option_bind].
  destruct (D2 rest (size - 1 - 4)) as (root2 & offset2 & e2 & -> & Edec2); [lia |]. cbn [mbind option_bind].
  pose proof (preds_length e c d0 d1 data Hin) as Hpl. rewrite Hnum, Nat2Z.id, <- H3 in Hpl. rewrite Hop, Hpl.
  cbn [mbind option_bind]. rewrite Edec2. cbn [mbind option_bind]. rewrite assert_true by (apply Z.ltb_lt; lia). cbn [mbind option_bind].
  destruct (H6 d q' dec) as (d' & Er & _); [reflexivity | done | done |].
  by apply (recover_visits_of NDEBUG e e0 c d0 d1 data d dec inds rs [] d').
Qed.

(** ** Witness *)

Section samples.

#[local] Existing Instance list_order.
#[local] Instance sample_store : LosslessInterface := Lossless.zstd Lossless.store_c Lossless.store_d.

(** Four rows of eight values around the levels 1, 101 and 201, with an error bound of 0.25. *)
Definition sample_conf : Config := SzConfig.setDims SzConfig.default_config [4; 8].
Definition sample : list Z :=
  f64_of_Z <$> [1; 101; 201; 101; 1; 1; 101; 201;
                2; 101; 202; 101; 1; 1; 101; 201;
                2; 102; 202; 101; 1; 101; 1; 201;
                1; 101; 201; 101; 1; 101; 1; 201].

(** Predicted by the levels along the time ([2]), or by the value before ([1]). *)
Definition sample_exaalt (timestep_op : Z) : Exaalt :=
  set_level (make (LinearQuantizer.mk [] 0 0x3fd0000000000000 0x4010000000000000 64) timestep_op)
    (f32_of_Z 1) (f32_of_Z 100) 3.

Lemma exaalt_sample_input : input (sample_exaalt 2) sample_conf 4 8 sample.
Proof.
  split.
  - by vm_compute.
  - by right.
  - split; [done |]. by repeat split.
  - vm_compute. by repeat split.
Qed.

Definition sample_run : list Z * list Z * list Z * LinearQuantizer :=
  Eval vm_compute in default ([], [], [], quantizer (sample_exaalt 2)) (predict false (sample_exaalt 2) sample_conf sample).
Definition sample_frame : list Z :=
  Eval vm_compute in default [] (buffer_of true 0 false (sample_exaalt 2) sample_conf sample).

Lemma exaalt_roundtrip_witness :
  exists rs, Forall2 (accurate (quantizer (sample_exaalt 2))) sample rs /\
    compress true 0 false (sample_exaalt 2) sample_conf sample (replicate 300 0)
      = Some (Z.of_nat (length sample_frame), sample_frame ++ drop (length sample_frame) (replicate 300 0)) /\
    decompress false (sample_exaalt 2) sample_conf (replicate 256 7)
      (sample_frame ++ drop (length sample_frame) (replicate 300 0)) (Z.of_nat (length sample_frame)) (replicate 32 0) = Some rs.
Proof.
  destruct (exaalt_roundtrip Lossless.store_laws true 0 false (sample_exaalt 2) (sample_exaalt 2) sample_conf 4 8 sample
    exaalt_sample_input eq_refl eq_refl) as (p & i & rs & q & E & A & H).
  assert (predict false (sample_exaalt 2) sample_conf sample = Some sample_run) as E' by (vm_compute; reflexivity).
  rewrite E' in E. apply (inj Some) in E. apply pair_equal_spec in E as [E Eq]. apply pair_equal_spec in E as [E Er].
  apply pair_equal_spec in E as [Ep Ei]. exists rs. split; [exact A |].
  rewrite <- Ep, <- Ei, <- Eq in H.
  destruct H as (encoded & levels & Ee & El & H).
  - apply SzHuffman.encodable_small; [discriminate | vm_compute; reflexivity | vm_compute; lia].
  - apply SzHuffman.encodable_small; [discriminate | vm_compute; reflexivity | vm_compute; lia].
  - match type of H with context [(?b ++ encoded ++ levels)] => assert (b ++ encoded ++ levels = sample_frame) as Ef end.
    { vm_compute in Ee. vm_compute in El. apply (inj Some) in Ee, El. rewrite <- Ee, <- El. vm_compute. reflexivity. }
    rewrite Ef in H. apply H.
    + vm_compute. lia.
    + vm_compute. reflexivity.
    + vm_compute. split; [reflexivity | discriminate].
    + vm_compute. lia.
    + vm_compute. reflexivity.
Defined.

(** Along the time, from the data to the compressed bytes and back. *)
Example exaalt_time :
  ('(size, out) ← compress true 0 false (sample_exaalt 1) sample_conf sample (replicate 300 0);
   decompress false (sample_exaalt 1) sample_conf (replicate 256 7) out size (replicate 32 0)) = Some sample.
Proof. vm_compute. reflexivity. Qed.

End samples.

End SZExaaltCompressor.
