(* ===== verification/SzTypetwo.v ===== *)
(** * SzTypetwo: the compressor with Lorenzo predictors and regressions

    Models [make_compressor_typetwo_lorenzo_regression] of [SZ3/api/impl/SZAlgoLorenzoReg.hpp] at
    [T = double]: the predictors that the configuration asks for, one alone or several behind a
    choice, in the compressor that goes through blocks.  It is what SZ3 uses for 2 and 4
    dimensions, and for others when a regression is asked for. *)

From Stdlib Require Import ZArith Lia.
From stdpp Require Import sets.
From S2P Require Import Prelude Bytes Float64 SzBytes Stl Quantizer SzHuffman SzEncoder SzConfig SzPipeline SzDecomp.
From S2P Require Import SzIterator SzPredictor SzPoly SzComposed SzIterate.

Module Typetwo.
Import SzConfig (Config, dims, num, blockSize, absErrorBound, lorenzo, lorenzo2, regression, regression2).
#[local] Existing Instance LinearQuantizer.linear_quantizer.

(** A predictor of one of the three classes; one of them, or several. *)
Definition any : Type := LorenzoPredictor.LorenzoPredictor + (RegressionPredictor.RegressionPredictor + PolyRegressionPredictor.PolyRegressionPredictor).
Definition predictor : Type := any + ComposedPredictor.ComposedPredictor any.

Section typetwo.

Variable N : nat.
(** The table of the regression with squares. *)
Variable COEFF : list Z.
Context `{Order : !MapOrder}.
Variables (left_first : bool) (junk : Z).
Variables garbage uninit : nat -> Z.
Variable NDEBUG : bool.

#[local] Instance lorenzo_any : PredictorInterface N LorenzoPredictor.LorenzoPredictor := LorenzoPredictor.lorenzo N.
#[local] Instance regression_any : PredictorInterface N RegressionPredictor.RegressionPredictor :=
  RegressionPredictor.regression N left_first junk.
#[local] Instance poly_any : PredictorInterface N PolyRegressionPredictor.PolyRegressionPredictor :=
  PolyRegressionPredictor.poly N left_first junk.
#[export] Instance any_predictor : PredictorInterface N any := either.
#[export] Instance composed_any : PredictorInterface N (ComposedPredictor.ComposedPredictor any) :=
  ComposedPredictor.composed N left_first junk.
#[export] Instance typetwo_any : PredictorInterface N predictor := either.

(** The predictors that are asked for, in this order; [None] when the construction of one fails. *)
Definition predictors_of (c : Config) : option (list any) :=
  let eb := absErrorBound c in
  let block_size := u32 (blockSize c) in
  l1 ← (if lorenzo c then Some [inl (LorenzoPredictor.new N 1 eb) : any] else Some []);
  l2 ← (if lorenzo2 c then Some [inl (LorenzoPredictor.new N 2 eb) : any] else Some []);
  l3 ← (if regression c then p ← RegressionPredictor.new N block_size eb; Some [inr (inl p) : any] else Some []);
  l4 ← (if regression2 c then p ← PolyRegressionPredictor.new N COEFF block_size eb; Some [inr (inr p) : any] else Some []);
  Some (l1 ++ l2 ++ l3 ++ l4).

(** [None] also for the exit when there is none. *)
Definition make_predictor (c : Config) : option predictor :=
  l ← predictors_of c;
  match l with
  | [] => None
  | [p] => Some (inl p)
  | _ => Some (inr (ComposedPredictor.new l))
  end.

Definition compress `{HE : !EncoderInterface} `{HL : !LosslessInterface} (c : Config) (q : LinearQuantizer.LinearQuantizer)
    (data cmpData : list Z) : option (Z * list Z) :=
  p ← make_predictor c;
  SZIterateCompressor.compress N NDEBUG c p q data cmpData.

Definition decompress `{HE : !EncoderInterface} `{HL : !LosslessInterface} (c : Config) (q : LinearQuantizer.LinearQuantizer)
    (cmpData : list Z) (cmpSize : Z) : option (list Z) :=
  p ← make_predictor c;
  SZIterateCompressor.decompress N garbage uninit c p q cmpData cmpSize.

(** The objects that the compressor and the decompressor make from one configuration belong to
    each other. *)
Lemma new_fresh eb r q : LinearQuantizer.new eb r = Some q -> LinearQuantizer.unpred q = [].
Proof. unfold LinearQuantizer.new. by intros (_ & _ & [= <-])%bind_Some. Qed.

Lemma predictors_of_new c l : predictors_of c = Some l -> Forall2 p_new l l.
Proof.
  unfold predictors_of. intros (l1 & E1 & (l2 & E2 & (l3 & E3 & (l4 & E4 & [= <-])%bind_Some)%bind_Some)%bind_Some)%bind_Some.
  repeat apply Forall2_app.
  - destruct (lorenzo c); injection E1 as <-; repeat constructor.
  - destruct (lorenzo2 c); injection E2 as <-; repeat constructor.
  - destruct (regression c); [| injection E3 as <-; constructor].
    apply bind_Some in E3 as (p & (qi & Ei & (ql & El & [= <-])%bind_Some)%bind_Some & [= <-]).
    apply new_fresh in Ei, El. constructor; [| constructor]. by split_and!.
  - destruct (regression2 c); [| injection E4 as <-; constructor].
    apply bind_Some in E4 as (p & (q1 & F1 & (q2 & F2 & (q3 & F3 & (lp & _ & [= <-])%bind_Some)%bind_Some)%bind_Some)%bind_Some & [= <-]).
    apply new_fresh in F1, F2, F3. constructor; [| constructor]. by split_and!.
Qed.

Lemma make_predictor_new c p : make_predictor c = Some p -> p_new p p.
Proof.
  unfold make_predictor. intros (l & El%predictors_of_new & H)%bind_Some.
  destruct l as [| x [| y l]]; [done | |]; injection H as <-; [by inversion El |]. by split_and!.
Qed.

(** ** The choices *)

Context {Q : Type} `{HQ : !QuantizerInterface Q}.
Notation composed := (ComposedPredictor.ComposedPredictor any).
Notation compress_block := (SZIterateCompressor.compress_block N (HP := typetwo_any)).
Notation compress_blocks := (SZIterateCompressor.compress_blocks N (HP := typetwo_any)).
Notation decompress_blocks := (SZIterateCompressor.decompress_blocks N (HP := typetwo_any)).
Notation refusals_known := (SZIterateCompressor.refusals_known N (HP := typetwo_any)).

(** Compressing a block keeps a choice, or the predictor that was chosen refused the block and it
    does not. *)
Lemma block_selection (p : composed) (q : Q) data b inds data' p' q' :
  compress_block (inr p) q data b = Some (inds, data', p', q') ->
  exists p1, p' = inr p1 /\
    ((exists s, ComposedPredictor.selection p1 = ComposedPredictor.selection p ++ [s]) /\
       SZIterateCompressor.refusal_known N (HP := typetwo_any) (inr p) data b \/
     ComposedPredictor.selection p1 = ComposedPredictor.selection p).
Proof.
  destruct b as [r its]. unfold SZIterateCompressor.compress_block.
  intros ([accepted x] & Ep & (x2 & E2 & (vs & _ & ([[i a] q1] & _ & [= <- <- <- <-])%bind_Some)%bind_Some)%bind_Some)%bind_Some.
  pose proof Ep as Ep'. cbn in Ep. apply bind_Some in Ep as ([ok p1] & Ep & [= <- <-]).
  destruct (ComposedPredictor.precompress_spec N p r data ok p1 Ep) as (_ & _ & _ & _ & Es & _). destruct ok.
  - cbn in E2. apply fmap_Some in E2 as (p2 & E2 & ->). exists p2. split; [done |]. left.
    unfold ComposedPredictor.precompress_block_commit in E2. apply bind_Some in E2 as (y & _ & (y2 & _ & [= <-])%bind_Some).
    cbn. rewrite Es. split; [by eexists |]. intros p3 E3. cbn [fst] in E3. congruence.
  - injection E2 as <-. exists p1. split; [done |]. by right.
Qed.

(** There are no more choices than blocks, and fewer when a block was refused. *)
Lemma compress_selection bl : forall (p : composed) (q : Q) data inds data' p' q',
  compress_blocks (inr p) q data bl = Some (inds, data', p', q') ->
  exists p1, p' = inr p1 /\
    (length (ComposedPredictor.selection p1) <= length (ComposedPredictor.selection p) + length bl)%nat /\
    (~ refusals_known (inr p) q data bl ->
     length (ComposedPredictor.selection p1) < length (ComposedPredictor.selection p) + length bl)%nat.
Proof.
  induction bl as [| b bl IH]; intros p q data inds data' p' q' E.
  { injection E as <- <- <- <-. exists p. split; [done |]. split; [simpl; lia |]. intros H. by destruct H. }
  cbn [SZIterateCompressor.compress_blocks SZIterateCompressor.refusals_known length] in *.
  apply bind_Some in E as ([[[i1 a1] x] q1] & E1 & E). apply bind_Some in E as ([[[i2 a2] y] q2] & E & [= <- <- <- <-]).
  destruct (block_selection p q data b i1 a1 x q1 E1) as (p1 & -> & Hs). rewrite E1.
  destruct (IH p1 q1 a1 i2 a2 y q2 E) as (p2 & -> & H1 & H2). exists p2. split; [done |].
  destruct Hs as [[[s Es] Hk] | Es]; rewrite Es in *; rewrite ?length_app in *; cbn [length] in *.
  - split; [lia |]. intros H. assert (~ refusals_known (inr p1) q1 a1 bl) as H' by (intros Hk'; apply H; by split). specialize (H2 H'). lia.
  - split; [lia |]. intros _. lia.
Qed.

(** Decompressing a block uses up a choice. *)
Lemma decompress_selection bl : forall (d : composed) (q : Q) a inds res,
  decompress_blocks (inr d) q a inds bl = Some res ->
  (bl = [] \/ ComposedPredictor.current_index d + length bl <= length (ComposedPredictor.selection d))%nat.
Proof.
  induction bl as [| [r its] bl IH]; intros d q a inds res E; [by left | right].
  cbn [SZIterateCompressor.decompress_blocks] in E. apply bind_Some in E as ([[[a1 i1] x] q1] & E1 & E).
  unfold SZIterateCompressor.decompress_block in E1. apply bind_Some in E1 as ([ok y] & Ep & E1).
  cbn in Ep. apply bind_Some in Ep as ([ok' d1] & Ep & [= <- <-]).
  apply bind_Some in E1 as (vs & _ & ([[? ?] ?] & _ & [= <- <- <- <-])%bind_Some).
  unfold ComposedPredictor.predecompress_block in Ep.
  apply bind_Some in Ep as (s & Hs%lookup_lt_Some & (_ & _ & (z & _ & ([res1 z1] & _ & [= <- <-])%bind_Some)%bind_Some)%bind_Some).
  apply IH in E as [-> | E]; cbn in *; lia.
Qed.

(** A single predictor tells the decompressor that it refuses a block. *)
Lemma single_refusals (p : any) (q : Q) data bl : refusals_known (inl p) q data bl.
Proof.
  revert p q data. induction bl as [| [r its] bl IH]; intros p q data; [done |]. split.
  - intros p1 E. cbn in E. apply bind_Some in E as ([ok p2] & _ & [= _ <-]). by destruct p2 as [| [|]].
  - destruct (compress_block _ _ _ _) as [[[[i a] x] q1] |] eqn:E; [| done].
    apply bind_Some in E as ([ok y] & Ep & (x2 & E2 & (vs & _ & ([[? ?] ?] & _ & [= <- <- <- <-])%bind_Some)%bind_Some)%bind_Some).
    cbn in Ep. apply bind_Some in Ep as ([ok' p1] & _ & [= <- <-]). destruct ok'; cbn in E2.
    + apply fmap_Some in E2 as (p2 & _ & ->). apply IH.
    + injection E2 as <-. apply IH.
Qed.

(** After a refused block, no loaded predictor gets through the blocks. *)
Lemma refused_stuck (p : predictor) (q : Q) data bl inds rs p' q' d1 (e : Q) a i :
  compress_blocks p q data bl = Some (inds, rs, p', q') -> p_follows (PredictorInterface := typetwo_any) d1 p p' ->
  ~ refusals_known p q data bl -> decompress_blocks d1 e a i bl = None.
Proof.
  intros Ec Hf Hr. destruct p as [p | p]; [by destruct Hr; apply single_refusals |].
  destruct (compress_selection bl p q data inds rs p' q' Ec) as (p1 & -> & _ & Hlt). specialize (Hlt Hr).
  destruct d1 as [d | d]; [done |]. destruct Hf as (_ & D2 & D3).
  destruct (decompress_blocks _ _ _ _ _) as [res |] eqn:E; [| done].
  apply decompress_selection in E as [-> | E]; [by destruct Hr |]. rewrite D2, D3 in E. lia.
Qed.

End typetwo.

Section laws.

Context `{HE : !EncoderInterface} `{HL : !LosslessInterface} `{HLL : !LosslessLaws HL} `{Order : !MapOrder}.
Variables (N : nat) (COEFF : list Z) (left_first : bool) (junk : Z) (garbage uninit : nat -> Z) (NDEBUG : bool).

#[local] Instance here : PredictorInterface N predictor := typetwo_any N left_first junk.

(** C3: for any number of dimensions and any choice of predictors, with an encoder and a lossless module
    that keep their laws: every value is replaced by one within the error bound, and the
    decompressor gets these values, when no block is refused by the predictor that a composed
    predictor chose for it, and when the frame is no longer than the data. *)
Theorem typetwo_roundtrip c gd p (q : LinearQuantizer.LinearQuantizer) data cmpData buffer rs size out :
  make_predictor N COEFF c = Some p -> SZIterateCompressor.input N c gd p q data ->
  SZIterateCompressor.none_refused N c gd p q data -> SZIterateCompressor.frame_fits N c gd p q data ->
  SZIterateCompressor.buffer_of N NDEBUG c p q data = Some (buffer, rs) ->
  l_compress buffer cmpData = (size, out) -> size <= Z.of_nat (length cmpData) ->
  compress N COEFF left_first junk NDEBUG c q data cmpData = Some (size, out) /\
  Forall2 (LinearQuantizer.bounded q) data rs /\
  forall e, decompress N COEFF left_first junk garbage uninit c e out size = Some rs.
Proof.
  intros Hp Hin Href Hfits Hbuf El Hs. pose proof (make_predictor_new N COEFF left_first junk c p Hp) as Hnew.
  destruct (SZIterateCompressor.iterate_correct N garbage uninit NDEBUG c gd p p q data buffer rs Hnew Hin Href Hfits Hbuf) as (H2 & H3).
  unfold compress, decompress. rewrite Hp. cbn [mbind option_bind].
  rewrite (SZIterateCompressor.compress_buffer N NDEBUG c p q data cmpData buffer rs Hbuf), El. split_and!; [done | done |].
  intros e. rewrite <- (take_drop (Z.to_nat size) out). destruct (l_correct _ _ _ _ El Hs) as [H0 _].
  eapply H3; [done | done | lia | by left].
Qed.

(** C32: the other case: when a block is refused by the predictor that was chosen for it, its choice is not
    stored, and the decompressor, which reads one for every block, finds too few, whatever the data
    and the indices: what was compressed, without an error, cannot be decompressed. *)
Theorem typetwo_refused_block c gd p (q : LinearQuantizer.LinearQuantizer) data cmpData buffer rs size out :
  make_predictor N COEFF c = Some p -> SZIterateCompressor.input N c gd p q data ->
  ~ SZIterateCompressor.none_refused N c gd p q data -> SZIterateCompressor.frame_fits N c gd p q data ->
  SZIterateCompressor.buffer_of N NDEBUG c p q data = Some (buffer, rs) ->
  l_compress buffer cmpData = (size, out) -> size <= Z.of_nat (length cmpData) ->
  compress N COEFF left_first junk NDEBUG c q data cmpData = Some (size, out) /\
  forall e, decompress N COEFF left_first junk garbage uninit c e out size = None.
Proof.
  intros Hp Hin Href Hfits Hbuf El Hs. pose proof (make_predictor_new N COEFF left_first junk c p Hp) as Hnew.
  unfold compress, decompress. rewrite Hp. cbn [mbind option_bind].
  rewrite (SZIterateCompressor.compress_buffer N NDEBUG c p q data cmpData buffer rs Hbuf), El. split; [done |].
  apply (SZIterateCompressor.iterate_stuck N garbage uninit NDEBUG c gd p p q data buffer rs cmpData size out); try done.
  intros bl inds rs' p' q' d1 e a i Ew Ec Hf. eapply refused_stuck; [exact Ec | exact Hf |].
  intros Hk. apply Href. intros bl' Ew'. rewrite Ew in Ew'. by injection Ew' as <-.
Qed.

End laws.

(** ** Samples *)

Section samples.

#[local] Instance sample_huffman : EncoderInterface := huffman_encoder true 0.
#[local] Instance sample_store : LosslessInterface := Lossless.zstd Lossless.store_c Lossless.store_d.
#[local] Instance sample_predictor n : PredictorInterface n predictor := typetwo_any n true 0.

Definition sample_conf (gd : list Z) (n : Z) : Config :=
  SzConfig.mkConfig SzConfig.SZ3_MAGIC_NUMBER (SzConfig.versionInt 3 2 0) (Z.of_nat (length gd)) gd n SzConfig.ALGO_LORENZO_REG SzConfig.EB_ABS
    0x3fd0000000000000 0 0 0 true false true false false 0 0 0 1 0 0 128 4 0 0.
Definition sample_q : LinearQuantizer.LinearQuantizer :=
  LinearQuantizer.mk [] 0 0x3fd0000000000000 0x4010000000000000 64.

Ltac small := apply SzHuffman.encodable_small; [done | by vm_compute | cbn; lia].

(** A plane, with a step in one corner. *)
Definition plane_value (k : nat) : nat :=
  let i := (k / 8)%nat in
  let j := (k mod 8)%nat in
  (if (i <? 4) && (j <? 4) then (if i <? 2 then 0 else 100) else 3 * i + j)%nat.
Definition plane : list Z := (fun k => f64_of_Z (Z.of_nat (plane_value k))) <$> seq 0 64.

Definition plane_p : predictor := Eval vm_compute in default (inl (inl (LorenzoPredictor.new 2 1 0))) (make_predictor 2 [] (sample_conf [8; 8] 64)).
Definition plane_blocks : list (Iterator.range * list Iterator.iterator) := Eval vm_compute in default [] (Iterator.walk [8; 8]%nat 4).

Lemma plane_input : SZIterateCompressor.input 2 (sample_conf [8; 8] 64) [8; 8]%nat plane_p sample_q plane.
Proof.
  split.
  - split_and!; done || lia.
  - by repeat constructor.
  - split_and!; done.
  - split; [done |]. vm_compute. lia.
  - split; [done |]. by repeat split.
  - intros bl E. change (Z.to_nat (SZIterateCompressor.block_size (sample_conf [8; 8] 64))) with 4%nat in E.
    assert (bl = plane_blocks) as -> by (apply (inj Some); rewrite <- E; vm_compute; reflexivity).
    clear E. vm_compute. repeat split; first [discriminate | repeat constructor].
  - intros bl inds rs p' q' E Ec. change (Z.to_nat (SZIterateCompressor.block_size (sample_conf [8; 8] 64))) with 4%nat in E.
    assert (bl = plane_blocks) as -> by (apply (inj Some); rewrite <- E; vm_compute; reflexivity).
    clear E. vm_compute in Ec. apply (inj Some), pair_equal_spec in Ec as [Ec <-]. apply pair_equal_spec in Ec as [Ec <-].
    apply pair_equal_spec in Ec as [<- <-]. split.
    + split; [| intros _; small]. constructor; [done |]. constructor; [| constructor]. intros _.
      split; [by repeat split |]. split; [by repeat split |]. small.
    + small.
Qed.

Lemma plane_refusals : SZIterateCompressor.none_refused 2 (sample_conf [8; 8] 64) [8; 8]%nat plane_p sample_q plane.
Proof.
  intros bl E. change (Z.to_nat (SZIterateCompressor.block_size (sample_conf [8; 8] 64))) with 4%nat in E.
  assert (bl = plane_blocks) as -> by (apply (inj Some); rewrite <- E; vm_compute; reflexivity).
  clear E. vm_compute. repeat split; intros ? [=].
Qed.

Lemma plane_fits : SZIterateCompressor.frame_fits 2 (sample_conf [8; 8] 64) [8; 8]%nat plane_p sample_q plane.
Proof.
  intros bl inds rs p' q' encoded E Ec Ee. change (Z.to_nat (SZIterateCompressor.block_size (sample_conf [8; 8] 64))) with 4%nat in E.
  assert (bl = plane_blocks) as -> by (apply (inj Some); rewrite <- E; vm_compute; reflexivity).
  clear E. vm_compute in Ec. apply (inj Some), pair_equal_spec in Ec as [Ec <-]. apply pair_equal_spec in Ec as [Ec <-].
  apply pair_equal_spec in Ec as [<- <-]. vm_compute in Ee. injection Ee as <-. vm_compute. discriminate.
Qed.

Definition plane_frame : list Z * list Z :=
  Eval vm_compute in default ([], []) (SZIterateCompressor.buffer_of 2 false (sample_conf [8; 8] 64) plane_p sample_q plane).

Lemma typetwo_roundtrip_witness :
  exists size out, compress 2 [] true 0 false (sample_conf [8; 8] 64) sample_q plane (replicate 300 0) = Some (size, out) /\
    Forall2 (LinearQuantizer.bounded sample_q) plane plane_frame.2 /\
    forall e, decompress 2 [] true 0 (fun _ => 0) (fun _ => 0) (sample_conf [8; 8] 64) e out size = Some plane_frame.2.
Proof.
  exists (Z.of_nat (length plane_frame.1)), (plane_frame.1 ++ drop (length plane_frame.1) (replicate 300 0)).
  apply (@typetwo_roundtrip sample_huffman sample_store Lossless.store_laws _ 2 [] true 0 (fun _ => 0) (fun _ => 0) false
    (sample_conf [8; 8] 64) [8; 8]%nat plane_p sample_q plane (replicate 300 0) plane_frame.1 plane_frame.2).
  - vm_compute. reflexivity.
  - exact plane_input.
  - exact plane_refusals.
  - exact plane_fits.
  - vm_compute. reflexivity.
  - vm_compute. reflexivity.
  - vm_compute. discriminate.
Defined.

(** The values 0 to 3 again and again, and 0 at the end, in a block of its own: for the regression it
    is too short. *)
Definition refused_data : list Z := (fun k => f64_of_Z (Z.of_nat (k mod 4)%nat)) <$> seq 0 65.
Definition refused_p : predictor := Eval vm_compute in default (inl (inl (LorenzoPredictor.new 1 1 0))) (make_predictor 1 [] (sample_conf [65] 65)).
Definition refused_blocks : list (Iterator.range * list Iterator.iterator) := Eval vm_compute in default [] (Iterator.walk [65]%nat 4).
Definition refused_frame : list Z * list Z :=
  Eval vm_compute in default ([], []) (SZIterateCompressor.buffer_of 1 false (sample_conf [65] 65) refused_p sample_q refused_data).

Lemma refused_walk bl : Iterator.walk [65]%nat (Z.to_nat (SZIterateCompressor.block_size (sample_conf [65] 65))) = Some bl ->
  bl = refused_blocks.
Proof. intros E. apply (inj Some). rewrite <- E. vm_compute. reflexivity. Qed.

Lemma refused_input : SZIterateCompressor.input 1 (sample_conf [65] 65) [65]%nat refused_p sample_q refused_data.
Proof.
  split.
  - split_and!; done || lia.
  - by repeat constructor.
  - split_and!; done.
  - split; [done |]. vm_compute. lia.
  - split; [done |]. by repeat split.
  - intros bl ->%refused_walk. vm_compute. repeat split; first [discriminate | repeat constructor].
  - intros bl inds rs p' q' ->%refused_walk Ec. vm_compute in Ec. apply (inj Some), pair_equal_spec in Ec as [Ec <-].
    apply pair_equal_spec in Ec as [Ec <-]. apply pair_equal_spec in Ec as [<- <-]. split.
    + split; [| intros _; small]. constructor; [done |]. constructor; [| constructor]. intros _.
      split; [by repeat split |]. split; [by repeat split |]. small.
    + small.
Qed.

Lemma refused_once : ~ SZIterateCompressor.none_refused 1 (sample_conf [65] 65) [65]%nat refused_p sample_q refused_data.
Proof.
  intros H. specialize (H refused_blocks ltac:(vm_compute; reflexivity)). vm_compute in H.
  do 16 destruct H as [_ H]. destruct H as [H _]. exact (H _ eq_refl).
Qed.

Lemma refused_fits : SZIterateCompressor.frame_fits 1 (sample_conf [65] 65) [65]%nat refused_p sample_q refused_data.
Proof.
  intros bl inds rs p' q' encoded ->%refused_walk Ec Ee. vm_compute in Ec. apply (inj Some), pair_equal_spec in Ec as [Ec <-].
  apply pair_equal_spec in Ec as [Ec <-]. apply pair_equal_spec in Ec as [<- <-]. vm_compute in Ee. injection Ee as <-.
  vm_compute. discriminate.
Qed.

Lemma typetwo_refused_block_witness :
  exists size out,
    compress 1 [] true 0 false (sample_conf [65] 65) sample_q refused_data (replicate 300 0) = Some (size, out) /\
    forall e, decompress 1 [] true 0 (fun _ => 0) (fun _ => 0) (sample_conf [65] 65) e out size = None.
Proof.
  exists (Z.of_nat (length refused_frame.1)), (refused_frame.1 ++ drop (length refused_frame.1) (replicate 300 0)).
  apply (@typetwo_refused_block sample_huffman sample_store Lossless.store_laws _ 1 [] true 0 (fun _ => 0) (fun _ => 0) false
    (sample_conf [65] 65) [65]%nat refused_p sample_q refused_data (replicate 300 0) refused_frame.1 refused_frame.2).
  - vm_compute. reflexivity.
  - exact refused_input.
  - exact refused_once.
  - exact refused_fits.
  - vm_compute. reflexivity.
  - vm_compute. reflexivity.
  - vm_compute. discriminate.
Defined.

End samples.

End Typetwo.
