(* ===== verification/SzAlgo.v ===== *)
(** * SzAlgo: the algorithms of SZ3 and the choice among them

    Models [SZ3/api/impl/SZAlgo.hpp], [SZAlgoInterp.hpp], [SZAlgoLorenzoReg.hpp] and
    [SZDispatcher.hpp] at [T = double], for any number [dim] of dimensions, the parameter [N] of
    the templates; the code is instantiated for 1 to 4.

    The algorithms are compositions of the modules of the other files; the one by default is
    chosen by tests on a sample of the data. *)

From Stdlib Require Import ZArith Lia.
From S2P Require Import Prelude Bytes Float64 SzBytes Stl Quantizer SzHuffman SzEncoder.
From S2P Require Import SzConfig SzPipeline SzDecomp SzLorenzo3 SzQuantOpt SzIterator SzSample SzInterp SzBlock SzIterate SzTypetwo.

Module SzAlgo.
Import SzConfig.
#[local] Existing Instance LinearQuantizer.linear_quantizer.
#[local] Existing Instance NoPrediction.noprediction.

(** ** What the code is compiled with and runs on *)

(** What is not modelled: [log2], [log10], [pow(10, x)] and [sqrt] of the C library; zstd; the
    order of the hash map of the Huffman encoder, in which order its two removals are evaluated,
    and its uninitialised variable; memory before it is written, the decompressed data, the buffer
    that is unpacked, and the bytes between the members of a structure; whether assertions are
    compiled out, and OpenMP is compiled in; the tables of the regression with squares; the
    number of threads that the OpenMP runtime starts, and the order in which they write; the
    compressor of [float] data. *)
Class Environment := {
  log2 : Z -> Z;
  log10 : Z -> Z;
  pow10 : Z -> Z;
  sqrt : Z -> Z;
  ZSTD_compress : list Z -> Z -> Z -> Z + list Z;
  ZSTD_decompress : list Z -> list Z -> Z * list Z;
  env_order : MapOrder;
  left_first : bool;
  junk : Z;
  garbage : nat -> Z;
  uninit : nat -> Z;
  padding : nat -> Z;
  NDEBUG : bool;
  OPENMP : bool;
  COEFF : nat -> list Z;
  omp_num_threads : Z;
  omp_order : list nat;
  float_compress : Config -> list Z -> option (Z * list Z);
  float_decompress : list Z -> Z -> Z -> option (list Z)
}.
#[export] Existing Instance env_order | 0.

(** ** Configurations with some members changed *)

Definition with_algo (c : Config) (algo : Z) : Config :=
  mkConfig (sz3MagicNumber c) (sz3DataVer c) (N c) (dims c) (num c) algo (errorBoundMode c)
    (absErrorBound c) (relErrorBound c) (psnrErrorBound c) (l2normErrorBound c) (lorenzo c)
    (lorenzo2 c) (regression c) (regression2 c) (openmp c) (dataType c) (lossless c)
    (encoder c) (interpAlgo c) (interpDirection c) (interpBlockSize c) (quantbinCnt c)
    (blockSize c) (stride c) (pred_dim c).

Definition with_openmp (c : Config) (b : bool) : Config :=
  mkConfig (sz3MagicNumber c) (sz3DataVer c) (N c) (dims c) (num c) (cmprAlgo c) (errorBoundMode c)
    (absErrorBound c) (relErrorBound c) (psnrErrorBound c) (l2normErrorBound c) (lorenzo c)
    (lorenzo2 c) (regression c) (regression2 c) b (dataType c) (lossless c)
    (encoder c) (interpAlgo c) (interpDirection c) (interpBlockSize c) (quantbinCnt c)
    (blockSize c) (stride c) (pred_dim c).

Definition with_interp (c : Config) (algo direction : Z) : Config :=
  mkConfig (sz3MagicNumber c) (sz3DataVer c) (N c) (dims c) (num c) (cmprAlgo c) (errorBoundMode c)
    (absErrorBound c) (relErrorBound c) (psnrErrorBound c) (l2normErrorBound c) (lorenzo c)
    (lorenzo2 c) (regression c) (regression2 c) (openmp c) (dataType c) (lossless c)
    (encoder c) algo direction (interpBlockSize c) (quantbinCnt c)
    (blockSize c) (stride c) (pred_dim c).

Definition with_bins (c : Config) (bins : Z) : Config :=
  mkConfig (sz3MagicNumber c) (sz3DataVer c) (N c) (dims c) (num c) (cmprAlgo c) (errorBoundMode c)
    (absErrorBound c) (relErrorBound c) (psnrErrorBound c) (l2normErrorBound c) (lorenzo c)
    (lorenzo2 c) (regression c) (regression2 c) (openmp c) (dataType c) (lossless c)
    (encoder c) (interpAlgo c) (interpDirection c) (interpBlockSize c) bins
    (blockSize c) (stride c) (pred_dim c).

(** The settings of the test of the Lorenzo predictors, after [setDims]. *)
Definition with_lorenzo (c : Config) : Config :=
  mkConfig (sz3MagicNumber c) (sz3DataVer c) (N c) (dims c) (num c) (cmprAlgo c) (errorBoundMode c)
    (absErrorBound c) (relErrorBound c) (psnrErrorBound c) (l2normErrorBound c) true
    true false false false (dataType c) (lossless c)
    (encoder c) (interpAlgo c) (interpDirection c) (interpBlockSize c) (quantbinCnt c)
    5 (stride c) (pred_dim c).


Definition with_pred_dim (c : Config) (pd : Z) : Config :=
  mkConfig (sz3MagicNumber c) (sz3DataVer c) (N c) (dims c) (num c) (cmprAlgo c) (errorBoundMode c)
    (absErrorBound c) (relErrorBound c) (psnrErrorBound c) (l2normErrorBound c) (lorenzo c)
    (lorenzo2 c) (regression c) (regression2 c) (openmp c) (dataType c) (lossless c)
    (encoder c) (interpAlgo c) (interpDirection c) (interpBlockSize c) (quantbinCnt c)
    (blockSize c) (stride c) pd.

Section algorithms.

Context `{Env : Environment}.

#[export] Instance zstd_here : LosslessInterface := Lossless.zstd ZSTD_compress ZSTD_decompress.
#[export] Instance huffman_here : EncoderInterface := huffman_encoder left_first junk.

Definition sz_assert (b : bool) : option unit := if NDEBUG then Some tt else assert b.

Definition make_absolute (c : Config) (data : list Z) : option Config :=
  calAbsErrorBound log10 pow10 sqrt c data 0.

(** Without OpenMP nothing runs in parallel. *)
Definition sequential (c : Config) : Config := if OPENMP then c else with_openmp c false.

(** [LinearQuantizer<T>(conf.absErrorBound, conf.quantbinCnt / 2)] *)
Definition quantizer_of (c : Config) : option LinearQuantizer.LinearQuantizer :=
  LinearQuantizer.new (absErrorBound c) (Z.quot (quantbinCnt c) 2).

(** The generic compressor with Huffman and zstd, on the first [num] values. *)
Definition generic_compress {D} `{HD : !DecompositionInterface D} (d : D) (c : Config) (data cmpData : list Z)
    : option (Z * list Z * Config) :=
  '(size, out) ← SZGenericCompressor.compress d data cmpData;
  Some (size, out, c).

Definition generic_decompress {D} `{HD : !DecompositionInterface D} (d : D) (c : Config) (cmpData : list Z)
    (cmpSize : Z) : option (list Z) :=
  let n := Z.to_nat (num c) in
  SZGenericCompressor.decompress d (uninit <$> seq 0 (8 * n)) cmpData cmpSize n.

(** The parameter [N] of the templates. *)
Variable dim : nat.

#[local] Instance lorenzo_1d_here :
    DecompositionInterface (LorenzoRegression.Decomposition (Q := LinearQuantizer.LinearQuantizer)) :=
  LorenzoRegression.lorenzo_1d garbage.
#[local] Instance lorenzo_3d_here :
    DecompositionInterface (Lorenzo3.Decomposition (Q := LinearQuantizer.LinearQuantizer)) :=
  Lorenzo3.lorenzo_3d left_first junk padding garbage.
#[local] Instance interpolation_here : DecompositionInterface InterpolationDecomposition.Decomposition :=
  InterpolationDecomposition.interpolation dim log2 garbage.

(** ** The algorithms *)

(** [SZAlgo.hpp].  The assertions are for the algorithm INTERP. *)
Definition SZ_compress_nopred (c : Config) (data cmpData : list Z) : option (Z * list Z * Config) :=
  _ ← sz_assert (N c =? Z.of_nat dim);
  _ ← sz_assert (cmprAlgo c =? ALGO_INTERP);
  c ← make_absolute c data;
  q ← quantizer_of c;
  generic_compress q c data cmpData.

Definition SZ_decompress_nopred (c : Config) (cmpData : list Z) (cmpSize : Z) : option (list Z) :=
  _ ← sz_assert (cmprAlgo c =? ALGO_INTERP);
  q ← quantizer_of c;
  generic_decompress q c cmpData cmpSize.

(** [SZAlgoLorenzoReg.hpp]: for one dimension without regression and for three without that with
    squares there is a decomposition, made by [make_decomposition_lorenzo_regression]; otherwise
    the compressor goes through the blocks. *)
Definition use_generic (c : Config) : bool :=
  (dim =? 3)%nat && negb (regression2 c) || (dim =? 1)%nat && negb (regression c) && negb (regression2 c).

Definition lorenzo_1d_of (c : Config) (q : LinearQuantizer.LinearQuantizer) : LorenzoRegression.Decomposition :=
  {| LorenzoRegression.conf_num := Z.to_nat (num c); LorenzoRegression.quantizer := q |}.

Definition SZ_compress_LorenzoReg (c : Config) (data cmpData : list Z) : option (Z * list Z * Config) :=
  _ ← sz_assert (N c =? Z.of_nat dim);
  _ ← sz_assert (cmprAlgo c =? ALGO_LORENZO_REG);
  c ← make_absolute c data;
  q ← quantizer_of c;
  if use_generic c then
    if (dim =? 1)%nat then generic_compress (lorenzo_1d_of c q) c data cmpData
    else generic_compress (Lorenzo3.make c q) c data cmpData
  else '(size, out) ← Typetwo.compress dim (COEFF dim) left_first junk NDEBUG c q data cmpData; Some (size, out, c).

Definition SZ_decompress_LorenzoReg (c : Config) (cmpData : list Z) (cmpSize : Z) : option (list Z) :=
  _ ← sz_assert (cmprAlgo c =? ALGO_LORENZO_REG);
  let q := LinearQuantizer.new_default in
  if use_generic c then
    if (dim =? 1)%nat then generic_decompress (lorenzo_1d_of c q) c cmpData cmpSize
    else generic_decompress (Lorenzo3.make c q) c cmpData cmpSize
  else Typetwo.decompress dim (COEFF dim) left_first junk garbage uninit c q cmpData cmpSize.

(** [SZAlgoInterp.hpp].  The members of the decomposition are set when it compresses or
    loads. *)
Definition interpolation_of (c : Config) (q : LinearQuantizer.LinearQuantizer)
    : InterpolationDecomposition.Decomposition :=
  InterpolationDecomposition.mk c [] 0 0 0 q.

Definition SZ_compress_Interp (c : Config) (data cmpData : list Z) : option (Z * list Z * Config) :=
  _ ← sz_assert (N c =? Z.of_nat dim);
  _ ← sz_assert (cmprAlgo c =? ALGO_INTERP);
  c ← make_absolute c data;
  q ← quantizer_of c;
  generic_compress (interpolation_of c q) c data cmpData.

Definition SZ_decompress_Interp (c : Config) (cmpData : list Z) (cmpSize : Z) : option (list Z) :=
  _ ← sz_assert (cmprAlgo c =? ALGO_INTERP);
  q ← quantizer_of c;
  generic_decompress (interpolation_of c q) c cmpData cmpSize.

(** ** Tuning *)

(** The ratios that are compared, and the literals 1.02, 80, 5 and 1.01e-6. *)
Definition lorenzo_ratio (sampling_num outSize : Z) : Z :=
  f64_div (f64_mul (f64_mul (f64_of_Z sampling_num) (f64_of_Z 1)) (f64_of_Z 8)) (f64_of_Z outSize).
Definition interp_ratio (num outSize : Z) : Z :=
  f64_div (f64_mul (f64_of_Z (u64 (num * 8))) (f64_of_Z 1)) (f64_of_Z outSize).
Definition f64_1_02 : Z := 0x3ff051eb851eb852.
Definition f64_80 : Z := 0x4054000000000000.
Definition f64_5 : Z := 0x4014000000000000.
Definition f64_1_01em6 : Z := 0x3eb0f1eabe7a4ea6.

(** [do_not_use_this_interp_compress_block_test]: the ratio that the interpolation of blocks gets
    for a sample. *)
Definition test_conf (dims_ : list Z) (eb interp_op direction_op block_size : Z) : Config :=
  let c := setDims (new []) dims_ in
  mkConfig (sz3MagicNumber c) (sz3DataVer c) (N c) (dims c) (num c) (cmprAlgo c) (errorBoundMode c)
    eb (relErrorBound c) (psnrErrorBound c) (l2normErrorBound c) (lorenzo c)
    (lorenzo2 c) (regression c) (regression2 c) (openmp c) (dataType c) (lossless c)
    (encoder c) (u8 interp_op) (u8 direction_op) (interpBlockSize c) (quantbinCnt c)
    block_size (stride c) (pred_dim c).

Definition interp_compress_block_test (sample : list Z) (dims_ : list Z) (num : nat) (eb interp_op direction_op block_size : Z)
    (buffer : list Z) : option Z :=
  q ← LinearQuantizer.new eb 32768;
  '(outSize, _) ← SZBlockInterpolationCompressor.compress dim log2 NDEBUG
     (test_conf dims_ eb interp_op direction_op block_size) q (take num sample) buffer;
  Some (interp_ratio (Z.of_nat num) outSize).

(** One round of the loop over the interpolators: the best ratio so far and the configuration. *)
Definition try_op (test : Z -> option Z) (s : Z * Config) (op : Z) : option (Z * Config) :=
  ratio ← test op;
  Some (if f64_ltb s.1 ratio then (ratio, with_interp s.2 op (interpDirection s.2)) else s).

(** [factorial] *)
Fixpoint factorial (n : nat) : Z :=
  match n with
  | O => 1
  | S m => if (n =? 1)%nat then 1 else i32 (Z.of_nat n * factorial m)
  end.

(** The tuning of the interpolation: the best ratio and the configuration. *)
Definition tune_interp (c : Config) (sample : list Z) (sampling_num : nat) (sample_dims : list Z) (block : nat) (buffer : list Z)
    : option (Z * Config) :=
  let test op direction := interp_compress_block_test sample sample_dims sampling_num (absErrorBound c) op
    direction (Z.of_nat block) buffer in
  s ← try_op (fun op => test op (interpDirection c)) (0, c) INTERP_ALGO_LINEAR;
  '(best, c) ← try_op (fun op => test op (interpDirection c)) s INTERP_ALGO_CUBIC;
  let direction_op := factorial dim - 1 in
  ratio ← test (interpAlgo c) direction_op;
  Some (if f64_ltb (f64_mul best f64_1_02) ratio then (ratio, with_interp c (interpAlgo c) (u8 direction_op))
        else (best, c)).

(** The further tuning of the Lorenzo predictors: in three dimensions, the number of bins for the
    data and a prediction along two dimensions, and the best ratio. *)
Definition tune_3d (c lorenzo_config : Config) (data sample : list Z) (sampling_num best : Z) (buffer : list Z)
    : option (Config * Z) :=
  if (dim =? 3)%nat then
    match dims c with
    | r1 :: r2 :: r3 :: _ =>
        '(bins, _, _, _) ← QuantOptimization.optimize_quant_invl_3d sqrt data r1 r2 r3 (absErrorBound c);
        '(size, _, lc) ← SZ_compress_LorenzoReg (with_pred_dim (with_bins lorenzo_config (i32 bins)) 2) sample buffer;
        let ratio := lorenzo_ratio sampling_num size in
        Some (if f64_ltb (f64_mul best f64_1_02) ratio then (lc, ratio) else (with_pred_dim lc 3, best))
    | _ => None
    end
  else Some (lorenzo_config, best).

(** Fewer bins. *)
Definition tune_bins (c lorenzo_config : Config) (sample : list Z) (sampling_num best : Z) (buffer : list Z)
    : option Config :=
  if f64_ltb (relErrorBound c) f64_1_01em6 && f64_ltb f64_5 best && negb (quantbinCnt lorenzo_config =? 16384)
  then
    '(size, _, lc) ← SZ_compress_LorenzoReg (with_bins lorenzo_config 16384) sample buffer;
    if f64_ltb (f64_mul best f64_1_02) (lorenzo_ratio sampling_num size) then Some lc
    else Some (with_bins lc (quantbinCnt lorenzo_config))
  else Some lorenzo_config.

Definition tune_lorenzo (c lorenzo_config : Config) (data sample : list Z) (sampling_num best : Z) (buffer : list Z)
    : option Config :=
  '(lorenzo_config, best) ← tune_3d c lorenzo_config data sample sampling_num best buffer;
  tune_bins c lorenzo_config sample sampling_num best buffer.

(** The configuration of the test of the Lorenzo predictors. *)
Definition sample_config (c : Config) (sample_dims : list Z) : Config :=
  with_lorenzo (setDims (with_algo c ALGO_LORENZO_REG) sample_dims).

(** The tests of [SZ_compress_Interp_lorenzo]: whether the interpolation is used, and the configuration to
    use.  They compress copies of the sample, except those of the further tuning: these overwrite it, in
    other than three dimensions, when it is used for the last time. *)
Definition chosen (c : Config) (data sampling_data : list Z) (sampling_num : nat) (sample_dims : list nat) (sampling_block : nat)
    : option (bool * Config) :=
  if Z.of_nat sampling_num =? num c then Some (true, with_algo c ALGO_INTERP)
  else
    let buffer := uninit <$> seq 0 (8 * Z.to_nat (num c)) in
    let sample_dims := Z.of_nat <$> sample_dims in
    '(size, _, lorenzo_config) ← SZ_compress_LorenzoReg (sample_config c sample_dims) sampling_data buffer;
    let best_lorenzo_ratio := lorenzo_ratio (Z.of_nat sampling_num) size in
    '(best_interp_ratio, c) ← tune_interp c sampling_data sampling_num sample_dims sampling_block buffer;
    let useInterp := negb (f64_ltb best_interp_ratio best_lorenzo_ratio && f64_ltb best_lorenzo_ratio f64_80
                           && f64_ltb best_interp_ratio f64_80) in
    if useInterp then Some (true, with_algo c ALGO_INTERP)
    else
      lorenzo_config ← tune_lorenzo c lorenzo_config data sampling_data (Z.of_nat sampling_num) best_lorenzo_ratio buffer;
      Some (false, setDims lorenzo_config (dims c)).

Definition tuned (c : Config) (data : list Z) : option (bool * Config) :=
  _ ← assert (length (dims c) =? dim)%nat;
  '(sampling_data, sampling_num, sample_dims, sampling_block) ← Extraction.sampling data (Z.to_nat <$> dims c);
  chosen c data sampling_data sampling_num sample_dims sampling_block.

Definition SZ_compress_Interp_lorenzo (c : Config) (data cmpData : list Z) : option (Z * list Z * Config) :=
  _ ← sz_assert (cmprAlgo c =? ALGO_INTERP_LORENZO);
  c ← make_absolute c data;
  '(useInterp, c) ← tuned c data;
  if useInterp : bool then SZ_compress_Interp c data cmpData
  else SZ_compress_LorenzoReg c data cmpData.

(** ** The dispatcher *)

(** With no error allowed, the bytes of the data go to zstd. *)
Definition SZ_compress_dispatcher (c : Config) (data cmpData : list Z) : option (Z * list Z * Config) :=
  _ ← sz_assert (N c =? Z.of_nat dim);
  c ← make_absolute c data;
  if f64_eqb (absErrorBound c) 0 then
    let '(size, out) := l_compress (take (8 * Z.to_nat (num c)) (store_array 8 data)) cmpData in
    Some (size, out, c)
  else if cmprAlgo c =? ALGO_LORENZO_REG then SZ_compress_LorenzoReg c data cmpData
  else if cmprAlgo c =? ALGO_INTERP then SZ_compress_Interp c data cmpData
  else if cmprAlgo c =? ALGO_INTERP_LORENZO then SZ_compress_Interp_lorenzo c data cmpData
  else if cmprAlgo c =? ALGO_NOPRED then SZ_compress_nopred c data cmpData
  else Some (0, cmpData, c).

(** [None] also for the exit when the method is not supported. *)
Definition SZ_decompress_dispatcher (c : Config) (cmpData : list Z) (cmpSize : Z) : option (list Z) :=
  if f64_eqb (absErrorBound c) 0 then
    _ ← assert (cmpSize <=? Z.of_nat (length cmpData));
    let n := Z.to_nat (num c) in
    let dec := (l_decompress (take (Z.to_nat cmpSize) cmpData) (uninit <$> seq 0 (8 * n))).2 in
    Some (load_array 8 n dec)
  else if cmprAlgo c =? ALGO_LORENZO_REG then SZ_decompress_LorenzoReg c cmpData cmpSize
  else if cmprAlgo c =? ALGO_INTERP then SZ_decompress_Interp c cmpData cmpSize
  else if cmprAlgo c =? ALGO_NOPRED then SZ_decompress_nopred c cmpData cmpSize
  else None.

(** ** Laws *)

Context (Hzstd : LosslessLaws zstd_here).

(** The frame of the data and the values it stands for; the encoder can take the indices. *)
Definition framed {D} `{HD : !DecompositionInterface D} (d : D) (data buffer rs : list Z) : Prop :=
  SZGenericCompressor.buffer_of d data = Some (buffer, rs) /\ (0 < length data)%nat /\
  Z.of_nat (length data) <= 2 ^ 44 /\ d_bound d <= 2 ^ 28.

(** A decomposition is ready for the data: they are also in its domain. *)
Definition ready {D} `{HD : !DecompositionInterface D} (d : D) (data buffer rs : list Z) : Prop :=
  d_domain d data /\ framed d data buffer rs.

(** The size that the decompressor is given: that of the frame, or more, if zstd does not mind, and as
    there are bytes. *)
Definition trailing (size size' : Z) (tl : list Z) : Prop :=
  size <= size' <= size + Z.of_nat (length tl) /\ (size' = size \/ LosslessTrailing zstd_here).

Lemma trailing_none size tl : trailing size size tl.
Proof. split; [lia | by left]. Qed.

Lemma indices_encodable {D} `{HD : !DecompositionInterface D} (d : D) data inds rs d' :
  d_domain d data -> (0 < length data)%nat -> Z.of_nat (length data) <= 2 ^ 44 -> d_bound d <= 2 ^ 28 ->
  d_compress d data = Some (inds, rs, d') -> SzHuffman.encodable inds.
Proof.
  intros Hd Hpos Hlen Hb E. destruct (d_correct d data Hd) as (inds' & rs' & d'' & E' & Hl & Hi & _).
  rewrite E in E'. injection E' as <- <- <-. rewrite list.Forall_forall in Hi. split_and!.
  - intros ->. simpl in Hl. lia.
  - apply list.Forall_forall. intros i Hin. specialize (Hi i Hin). unfold is_i32. lia.
  - intros x y Hx Hy. pose proof (Hi x Hx). pose proof (Hi y Hy). lia.
  - lia.
Qed.

(** What is decompressed is the part of the buffer that was filled, whatever follows it, when the frame
    is no longer than the data. *)
Lemma generic_route {D} `{HD : !DecompositionInterface D} (d : D) c data cmpData buffer rs :
  ready d data buffer rs -> (length buffer <= 8 * length data)%nat ->
  exists size out, generic_compress d c data cmpData = Some (size, out, c) /\
    Forall2 (d_accurate d) data rs /\
    length out = length cmpData /\ (size <= Z.of_nat (length cmpData) -> 0 <= size /\
     forall d0 c' tl size', num c' = Z.of_nat (length data) -> d_peer d d0 -> trailing size size' tl ->
       generic_decompress d0 c' (take (Z.to_nat size) out ++ tl) size' = Some rs).
Proof.
  intros (Hd & Hb & Hpos & Hlen & Hbound) Hcap. unfold generic_compress.
  assert (exists size out, l_compress buffer cmpData = (size, out)) as (size & out & El)
    by (destruct (l_compress buffer cmpData); eauto).
  assert (SZGenericCompressor.compress d data cmpData = Some (size, out)) as E
    by (unfold SZGenericCompressor.compress; rewrite Hb; cbn [mbind option_bind]; by rewrite El).
  rewrite E. exists size, out. split; [done |].
  pose proof (fun inds rs d' => indices_encodable d data inds rs d' Hd Hpos Hlen Hbound) as Henc.
  split.
  { destruct (d_correct d data Hd) as (inds & rs' & d' & Ed & _ & _ & Hacc & _).
    unfold SZGenericCompressor.buffer_of in Hb. rewrite Ed in Hb. cbn [mbind option_bind] in Hb.
    repeat apply bind_Some in Hb as (? & _ & Hb). by injection Hb as _ <-. }
  pose proof (l_length buffer cmpData) as Hlo. rewrite El in Hlo. cbn [snd] in Hlo. split; [done |].
  intros Hsize. destruct (l_correct _ _ _ _ El Hsize) as (Hs0 & _). split; [done |].
  intros d0 c' tl size' Hn Hpeer [Hsz Ht]. unfold generic_decompress. rewrite Hn, Nat2Z.id.
  destruct (SZGenericCompressor.generic_correct d d0 data cmpData buffer rs size out
    (uninit <$> seq 0 (8 * length data)) tl size') as [H _]; try done; [lia | by rewrite length_fmap, length_seq].
Qed.

(** ** The buffer keeps its length *)

Lemma generic_length {D} `{HD : !DecompositionInterface D} (d : D) c data cmpData size out c' :
  generic_compress d c data cmpData = Some (size, out, c') -> length out = length cmpData.
Proof.
  unfold generic_compress, SZGenericCompressor.compress.
  intros ([size' out'] & ([buffer rs] & _ & E%(inj Some))%bind_Some & [= <- <- <-])%bind_Some.
  pose proof (l_length buffer cmpData) as H. by rewrite E in H.
Qed.

Lemma lorenzo_length c data cmpData size out c' :
  SZ_compress_LorenzoReg c data cmpData = Some (size, out, c') -> length out = length cmpData.
Proof.
  unfold SZ_compress_LorenzoReg. intros (_ & _ & (_ & _ & (ca & _ & (q & _ & H)%bind_Some)%bind_Some)%bind_Some)%bind_Some.
  destruct (use_generic ca); [destruct (dim =? 1)%nat; exact (generic_length _ _ _ _ _ _ _ H) |].
  apply bind_Some in H as ([size' out'] & H & [= <- <- <-]).
  unfold Typetwo.compress, SZIterateCompressor.compress in H.
  apply bind_Some in H as (p & _ & ([buffer rs] & _ & E%(inj Some))%bind_Some).
  pose proof (l_length buffer cmpData) as Hl. by rewrite E in Hl.
Qed.

Lemma interp_length c data cmpData size out c' :
  SZ_compress_Interp c data cmpData = Some (size, out, c') -> length out = length cmpData.
Proof.
  unfold SZ_compress_Interp. intros (_ & _ & (_ & _ & (ca & _ & (q & _ & H)%bind_Some)%bind_Some)%bind_Some)%bind_Some.
  exact (generic_length _ _ _ _ _ _ _ H).
Qed.

Lemma dispatch_length c data cmpData size out c' :
  SZ_compress_dispatcher c data cmpData = Some (size, out, c') -> length out = length cmpData.
Proof.
  unfold SZ_compress_dispatcher. intros (_ & _ & (ca & _ & H)%bind_Some)%bind_Some.
  destruct (f64_eqb _ _).
  { destruct (l_compress _ _) as [size' out'] eqn:E. injection H as <- <- <-.
    match type of E with l_compress ?src ?dst = _ => pose proof (l_length src dst) as Hl end. by rewrite E in Hl. }
  destruct (cmprAlgo ca =? ALGO_LORENZO_REG); [by eapply lorenzo_length |].
  destruct (cmprAlgo ca =? ALGO_INTERP); [by eapply interp_length |].
  destruct (cmprAlgo ca =? ALGO_INTERP_LORENZO).
  { unfold SZ_compress_Interp_lorenzo in H. apply bind_Some in H as (_ & _ & H). apply bind_Some in H as (cb & _ & H).
    apply bind_Some in H as ([useInterp cc] & _ & H). destruct useInterp; [by eapply interp_length | by eapply lorenzo_length]. }
  destruct (cmprAlgo ca =? ALGO_NOPRED); [| by injection H as <- <- <-].
  unfold SZ_compress_nopred in H. apply bind_Some in H as (_ & _ & (_ & _ & (cb & _ & (q & _ & H)%bind_Some)%bind_Some)%bind_Some).
  exact (generic_length _ _ _ _ _ _ _ H).
Qed.

(** ** The dispatcher *)

Lemma make_absolute_again c data ca : make_absolute c data = Some ca ->
  make_absolute ca data = Some ca.
Proof.
  intros E. destruct (calAbs_mode _ _ _ _ _ _ _ E) as (Hm & _).
  unfold make_absolute, calAbsErrorBound. by rewrite Hm.
Qed.

Lemma quantizer_bound c q : quantizer_of c = Some q -> f64_eqb (absErrorBound c) 0 = false.
Proof.
  intros E. unfold quantizer_of, LinearQuantizer.new in E. apply bind_Some in E as (u & Ha%assert_Some & _).
  by apply negb_true_iff in Ha.
Qed.

Lemma sz_assert_true b : b = true -> sz_assert b = Some tt.
Proof. intros ->. unfold sz_assert. by destruct NDEBUG. Qed.

(** The situation at the dispatcher: all the data, the bound made absolute and not 0, which gives
    the quantizer. *)
Record situation (c ca : Config) (q : LinearQuantizer.LinearQuantizer) (data : list Z) : Prop := {
  st_N : N c = Z.of_nat dim;
  st_num : num c = Z.of_nat (length data);
  st_abs : make_absolute c data = Some ca;
  st_q : quantizer_of ca = Some q
}.

Lemma situation_algo c ca q data : situation c ca q data ->
  cmprAlgo ca = cmprAlgo c /\ num ca = Z.of_nat (length data) /\ N ca = Z.of_nat dim.
Proof. intros [HN Hn Ha _]. destruct (calAbs_mode _ _ _ _ _ _ _ Ha) as (_ & H1 & H2 & H3 & _). split_and!; congruence. Qed.

(** A route of the dispatcher: what is compressed with the configuration [c'], is decompressed
    with one that agrees with it on what is stored. *)
Definition dispatch_spec (c c' : Config) (data cmpData rs : list Z) : Prop :=
  exists size out, SZ_compress_dispatcher c data cmpData = Some (size, out, c') /\
    length out = length cmpData /\ (size <= Z.of_nat (length cmpData) -> 0 <= size /\
     forall c0 tl size', trailing size size' tl ->
       SZ_decompress_dispatcher (sequential (loaded c0 c')) (take (Z.to_nat size) out ++ tl) size' = Some rs).

Lemma sequential_same c : num (sequential c) = num c /\ absErrorBound (sequential c) = absErrorBound c /\
  cmprAlgo (sequential c) = cmprAlgo c /\ regression (sequential c) = regression c /\
  regression2 (sequential c) = regression2 c /\ quantizer_of (sequential c) = quantizer_of c /\ N (sequential c) = N c.
Proof. unfold sequential. by destruct OPENMP. Qed.

(** The interpolation, chosen in the configuration. *)
Lemma compress_interp_route c ca q data cmpData buffer rs :
  situation c ca q data -> cmprAlgo c = ALGO_INTERP -> ready (interpolation_of ca q) data buffer rs ->
  (length buffer <= 8 * length data)%nat ->
  exists size out, SZ_compress_Interp c data cmpData = Some (size, out, ca) /\
    Forall2 (LinearQuantizer.bounded q) data rs /\
    length out = length cmpData /\ (size <= Z.of_nat (length cmpData) -> 0 <= size /\
     forall c0 tl size', trailing size size' tl ->
       SZ_decompress_dispatcher (sequential (loaded c0 ca)) (take (Z.to_nat size) out ++ tl) size' = Some rs).
Proof.
  intros Hst Halgo Hready Hcap. pose proof (situation_algo _ _ _ _ Hst) as (Ha & Hn & _). destruct Hst as [HN _ Habs Hq].
  unfold SZ_compress_Interp. rewrite !sz_assert_true by (apply Z.eqb_eq; congruence).
  cbn [mbind option_bind]. rewrite Habs. cbn [mbind option_bind]. rewrite Hq. cbn [mbind option_bind].
  destruct (generic_route _ ca data cmpData buffer rs Hready Hcap) as (size & out & -> & Hacc & Hl & Hdec).
  exists size, out. split; [done |]. split; [exact Hacc |]. split; [done |].
  intros Hs. destruct (Hdec Hs) as (H0 & H). split; [done |]. intros c0 tl size' Ht. unfold SZ_decompress_dispatcher, SZ_decompress_Interp.
  destruct (sequential_same (loaded c0 ca)) as (E1 & E2 & E3 & _ & _ & E4 & _). rewrite E2, E3, E4. cbn [loaded absErrorBound cmprAlgo].
  rewrite (quantizer_bound ca q Hq), Ha, Halgo.
  change (ALGO_INTERP =? ALGO_LORENZO_REG) with false. rewrite Z.eqb_refl.
  rewrite sz_assert_true by done. cbn [mbind option_bind].
  change (quantizer_of (loaded c0 ca)) with (quantizer_of ca). rewrite Hq. cbn [mbind option_bind].
  apply H; [by rewrite E1 | cbn; by rewrite E1 | done].
Qed.

Lemma dispatch_interp c ca q data cmpData buffer rs :
  situation c ca q data -> cmprAlgo c = ALGO_INTERP -> ready (interpolation_of ca q) data buffer rs ->
  (length buffer <= 8 * length data)%nat ->
  dispatch_spec c ca data cmpData rs /\ Forall2 (LinearQuantizer.bounded q) data rs.
Proof.
  intros Hst Halgo Hready Hcap. pose proof (situation_algo _ _ _ _ Hst) as (Ha & Hn & HN).
  assert (situation ca ca q data) as Hst'.
  { destruct Hst. split; try done. by apply (make_absolute_again c). }
  destruct (compress_interp_route ca ca q data cmpData buffer rs Hst') as (size & out & E & Hacc & H); [congruence | done | done |].
  split; [| done]. exists size, out. split; [| done]. unfold SZ_compress_dispatcher.
  rewrite sz_assert_true by (apply Z.eqb_eq, Hst). cbn [mbind option_bind]. rewrite (st_abs _ _ _ _ Hst).
  cbn [mbind option_bind]. rewrite (quantizer_bound ca q (st_q _ _ _ _ Hst)), Ha, Halgo. exact E.
Qed.

(** The bound stays absolute when the algorithm is changed. *)
Lemma situation_with_algo c ca q data algo : situation c ca q data ->
  situation (with_algo ca algo) (with_algo ca algo) q data.
Proof.
  intros Hst. pose proof (situation_algo _ _ _ _ Hst) as (_ & Hn & HN). destruct Hst as [_ _ Ha Hq].
  destruct (calAbs_mode _ _ _ _ _ _ _ Ha) as (Hm & _). split; try done.
  unfold make_absolute, calAbsErrorBound. cbn [with_algo errorBoundMode]. by rewrite Hm.
Qed.

(** The dispatcher goes to the Lorenzo predictors and regressions. *)
Lemma dispatch_to_lorenzo c ca q data cmpData : situation c ca q data -> cmprAlgo c = ALGO_LORENZO_REG ->
  SZ_compress_dispatcher c data cmpData
  = (if use_generic ca then
       if (dim =? 1)%nat then generic_compress (lorenzo_1d_of ca q) ca data cmpData
       else generic_compress (Lorenzo3.make ca q) ca data cmpData
     else '(size, out) ← Typetwo.compress dim (COEFF dim) left_first junk NDEBUG ca q data cmpData; Some (size, out, ca)).
Proof.
  intros Hst Halgo. pose proof (situation_algo _ _ _ _ Hst) as (Ha & Hn & HN).
  unfold SZ_compress_dispatcher. rewrite sz_assert_true by (apply Z.eqb_eq, Hst).
  cbn [mbind option_bind]. rewrite (st_abs _ _ _ _ Hst). cbn [mbind option_bind].
  rewrite (quantizer_bound ca q (st_q _ _ _ _ Hst)), Ha, Halgo, Z.eqb_refl. unfold SZ_compress_LorenzoReg.
  rewrite Ha, Halgo, (make_absolute_again _ _ _ (st_abs _ _ _ _ Hst)).
  rewrite !sz_assert_true by (by apply Z.eqb_eq). cbn [mbind option_bind].
  by rewrite (st_q _ _ _ _ Hst).
Qed.

Lemma dispatch_from_lorenzo c0 ca q (data bytes : list Z) size : quantizer_of ca = Some q -> cmprAlgo ca = ALGO_LORENZO_REG ->
  num ca = Z.of_nat (length data) ->
  exists c', num c' = Z.of_nat (length data) /\ dims c' = dims ca /\ c' = sequential (loaded c0 ca) /\
  SZ_decompress_dispatcher (sequential (loaded c0 ca)) bytes size
  = (if use_generic ca then
       if (dim =? 1)%nat then generic_decompress (lorenzo_1d_of c' LinearQuantizer.new_default) c' bytes size
       else generic_decompress (Lorenzo3.make c' LinearQuantizer.new_default) c' bytes size
     else Typetwo.decompress dim (COEFF dim) left_first junk garbage uninit c' LinearQuantizer.new_default bytes size).
Proof.
  intros Hq Ha Hn. exists (sequential (loaded c0 ca)). unfold SZ_decompress_dispatcher, SZ_decompress_LorenzoReg.
  destruct (sequential_same (loaded c0 ca)) as (E1 & E2 & E3 & E4 & E5 & _). rewrite E1, E2, E3. cbn [loaded num absErrorBound cmprAlgo].
  split; [done |]. split; [unfold sequential; by destruct OPENMP |]. split; [done |].
  rewrite (quantizer_bound ca q Hq), Ha, Z.eqb_refl, sz_assert_true by done. cbn [mbind option_bind].
  unfold use_generic in *. by rewrite E4, E5.
Qed.

(** The decomposition for one dimension. *)
Lemma dispatch_lorenzo_1d c ca q data cmpData buffer rs :
  situation c ca q data -> cmprAlgo c = ALGO_LORENZO_REG -> use_generic ca = true -> dim = 1%nat ->
  ready (lorenzo_1d_of ca q) data buffer rs -> (length buffer <= 8 * length data)%nat ->
  dispatch_spec c ca data cmpData rs /\ Forall2 (LinearQuantizer.bounded q) data rs.
Proof.
  intros Hst Halgo Huse Hdim Hready Hcap. pose proof (situation_algo _ _ _ _ Hst) as (Ha & Hn & HN).
  destruct (generic_route _ ca data cmpData buffer rs Hready Hcap) as (size & out & Ec & Hacc & Hl & Hdec).
  split; [| exact Hacc]. exists size, out. rewrite (dispatch_to_lorenzo c ca q) by done.
  rewrite Huse, (proj2 (Nat.eqb_eq dim 1) Hdim). split; [done |]. split; [done |].
  intros Hs. destruct (Hdec Hs) as (H0 & H). split; [done |]. intros c0 tl size' Ht.
  destruct (dispatch_from_lorenzo c0 ca q data (take (Z.to_nat size) out ++ tl) size' (st_q _ _ _ _ Hst)) as (c' & N1 & N2 & _ & ->);
    [congruence | done |].
  rewrite Huse, (proj2 (Nat.eqb_eq dim 1) Hdim). apply H; [done | cbn; by rewrite N1, Hn | done].
Qed.

(** That for three. *)
Lemma dispatch_lorenzo_3d c ca q data cmpData buffer rs :
  situation c ca q data -> cmprAlgo c = ALGO_LORENZO_REG -> use_generic ca = true -> dim = 3%nat ->
  ready (Lorenzo3.make ca q) data buffer rs -> (length buffer <= 8 * length data)%nat ->
  dispatch_spec c ca data cmpData rs /\ Forall2 (LinearQuantizer.bounded q) data rs.
Proof.
  intros Hst Halgo Huse Hdim Hready Hcap. pose proof (situation_algo _ _ _ _ Hst) as (Ha & Hn & HN).
  destruct (generic_route _ ca data cmpData buffer rs Hready Hcap) as (size & out & Ec & Hacc & Hl & Hdec).
  assert ((dim =? 1)%nat = false) as H1 by (by rewrite Hdim).
  split; [| exact Hacc]. exists size, out. rewrite (dispatch_to_lorenzo c ca q), Huse, H1 by done.
  split; [done |]. split; [done |].
  intros Hs. destruct (Hdec Hs) as (H0 & H). split; [done |]. intros c0 tl size' Ht.
  destruct (dispatch_from_lorenzo c0 ca q data (take (Z.to_nat size) out ++ tl) size' (st_q _ _ _ _ Hst)) as (c' & N1 & N2 & _ & ->);
    [congruence | done |].
  rewrite Huse, H1. apply H; [done | split; [exact N2 |]; cbn; congruence | done].
Qed.

(** The compressor that goes through blocks, with the predictors of the configuration. *)
Lemma dispatch_typetwo c ca q gd p data cmpData buffer rs :
  situation c ca q data -> cmprAlgo c = ALGO_LORENZO_REG -> use_generic ca = false ->
  Typetwo.make_predictor dim (COEFF dim) ca = Some p ->
  SZIterateCompressor.input dim (HP := Typetwo.typetwo_any dim left_first junk) ca gd p q data ->
  SZIterateCompressor.none_refused dim (HP := Typetwo.typetwo_any dim left_first junk) ca gd p q data ->
  SZIterateCompressor.frame_fits dim (HP := Typetwo.typetwo_any dim left_first junk) ca gd p q data ->
  SZIterateCompressor.buffer_of dim (HP := Typetwo.typetwo_any dim left_first junk) NDEBUG ca p q data = Some (buffer, rs) ->
  dispatch_spec c ca data cmpData rs /\ Forall2 (LinearQuantizer.bounded q) data rs.
Proof.
  intros Hst Halgo Huse Hp Hin Href Hfits Hb. pose proof (situation_algo _ _ _ _ Hst) as (Ha & Hn & HN).
  pose proof (Typetwo.make_predictor_new dim (COEFF dim) left_first junk ca p Hp) as Hnew.
  destruct (SZIterateCompressor.iterate_correct dim garbage uninit NDEBUG ca gd p p q data buffer rs Hnew Hin Href Hfits Hb) as [Hacc Hdec].
  split; [| exact Hacc]. destruct (l_compress buffer cmpData) as [size out] eqn:El. exists size, out.
  rewrite (dispatch_to_lorenzo c ca q), Huse by done. unfold Typetwo.compress. rewrite Hp. cbn [mbind option_bind].
  rewrite (SZIterateCompressor.compress_buffer dim NDEBUG ca p q data cmpData buffer rs Hb), El. cbn [mbind option_bind].
  pose proof (l_length buffer cmpData) as Hl. rewrite El in Hl. cbn [snd] in Hl. split; [done |]. split; [done |].
  intros Hs. destruct (l_correct _ _ _ _ El Hs) as (H0 & _). split; [done |]. intros c0 tl size' [Hsz Ht].
  destruct (dispatch_from_lorenzo c0 ca q data (take (Z.to_nat size) out ++ tl) size' (st_q _ _ _ _ Hst)) as (c' & _ & _ & -> & ->);
    [congruence | done |].
  rewrite Huse. unfold Typetwo.decompress.
  assert (Typetwo.make_predictor dim (COEFF dim) (sequential (loaded c0 ca)) = Some p) as ->
    by (rewrite <- Hp; unfold sequential; by destruct OPENMP).
  cbn [mbind option_bind].
  rewrite <- (Hdec cmpData size out tl size' El Hs Hsz Ht LinearQuantizer.new_default). unfold sequential. by destruct OPENMP.
Qed.

(** No prediction; its assertions are wrong, so they have to be compiled out. *)
Lemma dispatch_nopred c ca q data cmpData buffer rs :
  NDEBUG = true -> situation c ca q data -> cmprAlgo c = ALGO_NOPRED -> ready q data buffer rs ->
  (length buffer <= 8 * length data)%nat ->
  dispatch_spec c ca data cmpData rs /\ Forall2 (LinearQuantizer.bounded q) data rs.
Proof.
  intros Hnd Hst Halgo Hready Hcap. pose proof (situation_algo _ _ _ _ Hst) as (Ha & Hn & HN).
  destruct (generic_route q ca data cmpData buffer rs Hready Hcap) as (size & out & E & Hacc & Hl & Hdec).
  assert (forall b, sz_assert b = Some tt) as Has by (intros b; unfold sz_assert; by rewrite Hnd).
  split; [| exact Hacc]. exists size, out. split.
  - unfold SZ_compress_dispatcher, SZ_compress_nopred. rewrite !Has. cbn [mbind option_bind].
    rewrite (st_abs _ _ _ _ Hst). cbn [mbind option_bind].
    rewrite (quantizer_bound ca q (st_q _ _ _ _ Hst)), Ha, Halgo, (make_absolute_again _ _ _ (st_abs _ _ _ _ Hst)).
    rewrite !Has. cbn [mbind option_bind]. by rewrite (st_q _ _ _ _ Hst).
  - split; [done |]. intros Hs. destruct (Hdec Hs) as (H0 & H). split; [done |]. intros c0 tl size' Ht.
    unfold SZ_decompress_dispatcher, SZ_decompress_nopred.
    destruct (sequential_same (loaded c0 ca)) as (E1 & E2 & E3 & _ & _ & E4 & _). rewrite E2, E3, E4.
    cbn [loaded absErrorBound cmprAlgo]. rewrite (quantizer_bound ca q (st_q _ _ _ _ Hst)), Ha, Halgo, Has.
    cbn [mbind option_bind]. change (quantizer_of (loaded c0 ca)) with (quantizer_of ca).
    rewrite (st_q _ _ _ _ Hst). cbn [mbind option_bind]. apply H; [by rewrite E1 | done | done].
Qed.

(** ** Tuning *)

Lemma is_u8_u8 x : is_u8 (u8 x).
Proof. unfold is_u8, u8. apply Z.mod_pos_bound. lia. Qed.

Lemma is_i32_i32 x : is_i32 (i32 x).
Proof. apply (swrap_range 32). lia. Qed.

Lemma tuned_sampled c data sd sn ds sb :
  Extraction.sampling data (Z.to_nat <$> dims c) = Some (sd, sn, ds, sb) -> length (dims c) = dim ->
  tuned c data = chosen c data sd sn ds sb.
Proof. intros Es Hl. unfold tuned. by rewrite assert_true, Es by (by apply Nat.eqb_eq). Qed.

(** What the tests keep. *)
Definition same_data (c c' : Config) : Prop :=
  sz3MagicNumber c' = sz3MagicNumber c /\ sz3DataVer c' = sz3DataVer c /\ N c' = N c /\ dims c' = dims c /\ num c' = num c /\
  errorBoundMode c' = errorBoundMode c /\ absErrorBound c' = absErrorBound c /\
  (openmp c = false -> openmp c' = false) /\ (wf c -> wf c').

Lemma wf_with_algo c algo : wf c -> is_u8 algo -> wf (with_algo c algo).
Proof. intros [] H. by split. Qed.

Lemma wf_with_interp c a d : wf c -> is_u8 a -> is_u8 d -> wf (with_interp c a d).
Proof. intros [] H1 H2. by split. Qed.

Lemma same_algo c0 c algo : same_data c0 c -> is_u8 algo -> same_data c0 (with_algo c algo).
Proof.
  intros (H1 & H2 & H3 & H4 & H5 & H6 & H7 & H9 & H8) H. unfold same_data.
  cbn [with_algo sz3MagicNumber sz3DataVer N dims num errorBoundMode absErrorBound openmp].
  split_and!; try assumption. intros Hwf. apply wf_with_algo; [by apply H8 | done].
Qed.

Lemma same_interp c0 c a d : same_data c0 c -> (wf c -> is_u8 a /\ is_u8 d) -> same_data c0 (with_interp c a d).
Proof.
  intros (H1 & H2 & H3 & H4 & H5 & H6 & H7 & H9 & H8) H. unfold same_data.
  cbn [with_interp sz3MagicNumber sz3DataVer N dims num errorBoundMode absErrorBound openmp].
  split_and!; try assumption. intros Hwf. specialize (H8 Hwf). destruct (H H8). by apply wf_with_interp.
Qed.

Lemma try_op_same test c0 op s s' : try_op test s op = Some s' -> is_u8 op ->
  same_data c0 s.2 -> cmprAlgo s.2 = cmprAlgo c0 -> same_data c0 s'.2 /\ cmprAlgo s'.2 = cmprAlgo c0.
Proof.
  intros E Hop Hs Ha. unfold try_op in E. apply bind_Some in E as (ratio & _ & [= <-]).
  destruct (f64_ltb _ _); [| done]. split; [| done]. apply same_interp; [done |]. by intros [].
Qed.

Lemma tune_interp_same c sample sn sd block buffer r c' : tune_interp c sample sn sd block buffer = Some (r, c') ->
  same_data c c' /\ cmprAlgo c' = cmprAlgo c.
Proof.
  intros E. unfold tune_interp in E. apply bind_Some in E as (s1 & E1 & E).
  apply bind_Some in E as ([best c1] & E2 & E). apply bind_Some in E as (ratio & _ & E).
  apply (try_op_same _ c) in E1 as [Hs1 Ha1]; [| by split | by split_and! | done].
  apply (try_op_same _ c) in E2 as [Hs Ha]; [| by split | done | done]. cbn [snd] in *.
  destruct (f64_ltb _ _); injection E as <- <-; [| done]. split; [| done]. apply same_interp; [done |].
  intros []. split; [done | apply is_u8_u8].
Qed.

Lemma lorenzo_keeps c data cmpData size out c' : errorBoundMode c = EB_ABS ->
  SZ_compress_LorenzoReg c data cmpData = Some (size, out, c') -> c' = c.
Proof.
  intros Hm E. unfold SZ_compress_LorenzoReg, make_absolute, calAbsErrorBound in E. rewrite Hm in E.
  apply bind_Some in E as (? & _ & E). apply bind_Some in E as (? & _ & E). cbn [mbind option_bind Z.eqb EB_ABS] in E.
  apply bind_Some in E as (q & _ & E). unfold generic_compress in E.
  destruct (use_generic c); [destruct (dim =? 1)%nat |]; apply bind_Some in E as ([s o] & _ & E); by simplify_eq.
Qed.

(** The further tuning changes the number of bins and the dimensions of the prediction. *)
Definition lorenzo_like (base lc : Config) : Prop :=
  exists bins pd, (is_i32 (quantbinCnt base) -> is_i32 bins) /\ lc = with_pred_dim (with_bins base bins) pd.

Lemma like_refl base : lorenzo_like base base.
Proof. exists (quantbinCnt base), (pred_dim base). split; [done |]. by destruct base. Qed.

Lemma like_again base lc bins pd : lorenzo_like base lc -> (is_i32 (quantbinCnt base) -> is_i32 bins) ->
  lorenzo_like base (with_pred_dim (with_bins lc bins) pd).
Proof. intros (b & p & _ & ->) Hb. by exists bins, pd. Qed.

Lemma tune_3d_like c base data sample sn best buffer lc best' : errorBoundMode base = EB_ABS ->
  tune_3d c base data sample sn best buffer = Some (lc, best') -> lorenzo_like base lc.
Proof.
  intros Hm. unfold tune_3d. destruct (dim =? 3)%nat; [| intros [= <- <-]; apply like_refl].
  destruct (dims c) as [| r1 [| r2 [| r3 ds]]]; try done. intros E. apply bind_Some in E as ([[[bins ?] ?] ?] & _ & E).
  apply bind_Some in E as ([[s o] lc'] & E1 & E). apply lorenzo_keeps in E1 as ->; [| done].
  destruct (f64_ltb _ _); injection E as <- <-; exists (i32 bins); eexists; (split; [intros _; apply is_i32_i32 |]); reflexivity.
Qed.

Lemma tune_bins_like c base lc sample sn best buffer lc' : errorBoundMode base = EB_ABS -> lorenzo_like base lc ->
  tune_bins c lc sample sn best buffer = Some lc' -> lorenzo_like base lc'.
Proof.
  intros Hm Hl. unfold tune_bins. destruct (_ && _); [| by intros [= <-]]. intros E.
  apply bind_Some in E as ([[s o] c1] & E1 & E).
  assert (lorenzo_like base (with_bins lc 16384)) as H1.
  { destruct Hl as (b & p & _ & ->). exists 16384, p. split; [intros _; by split |]. reflexivity. }
  apply lorenzo_keeps in E1 as ->; [| by destruct Hl as (b & p & _ & ->)].
  destruct (f64_ltb _ _); injection E as <-; [done |].
  destruct Hl as (b & p & Hb & ->). exists b, p. split; [done |]. reflexivity.
Qed.

Lemma tune_lorenzo_like c base data sample sn best buffer lc : errorBoundMode base = EB_ABS ->
  tune_lorenzo c base data sample sn best buffer = Some lc -> lorenzo_like base lc.
Proof.
  intros Hm. unfold tune_lorenzo. intros ([lc' best'] & E1 & E2)%bind_Some. apply tune_3d_like in E1; [| done].
  by eapply tune_bins_like.
Qed.

(** The extents that are stored: more than one value along each dimension. *)
Record extents_ok (c : Config) : Prop := {
  ex_dims : Forall (fun d => 1 < d) (dims c);
  ex_length : length (dims c) = dim /\ (0 < dim <= 4)%nat;
  ex_num : foldr Z.mul 1 (dims c) = num c
}.

(** [setDims] with the extents of the data: blocks and prediction are those by default. *)
Lemma setDims_same c lc : extents_ok c -> wf c ->
  setDims lc (dims c) = mkConfig (sz3MagicNumber lc) (sz3DataVer lc) (N c) (dims c) (num c) (cmprAlgo lc) (errorBoundMode lc)
    (absErrorBound lc) (relErrorBound lc) (psnrErrorBound lc) (l2normErrorBound lc) (lorenzo lc)
    (lorenzo2 lc) (regression lc) (regression2 lc) (openmp lc) (dataType lc) (lossless lc)
    (encoder lc) (interpAlgo lc) (interpDirection lc) (interpBlockSize lc) (quantbinCnt lc)
    (blockSize (new (dims c))) (blockSize (new (dims c))) (N c).
Proof.
  intros [Hd [Hl Hdim] Hn] Hwf.
  assert (filter (fun dim => 1 < dim) (dims c) = dims c) as Hf.
  { clear -Hd. induction Hd as [| d ds Hd Hds IH]; [done |]. rewrite filter_cons, decide_True by done. by rewrite IH. }
  destruct (setDims_spec lc (dims c)) as (H1 & H2 & _).
  { eapply Forall_impl; [| exact Hd]. simpl. lia. }
  { rewrite Hn. apply Hwf. }
  { lia. }
  assert (dims (setDims lc (dims c)) = dims c) as H3.
  { unfold setDims. cbn [dims]. rewrite Hf. destruct (Nat.eqb_spec (length (dims c)) 0); [lia | done]. }
  rewrite H3, <- (wf_N c Hwf) in H2. rewrite Hn in H1. unfold new, setDims in *. cbn [N num dims blockSize] in *.
  by rewrite H1, H2, H3.
Qed.

(** The tests keep what the data are; they choose the interpolation, or the Lorenzo predictors. *)
Lemma tuned_spec c data useInterp c' :
  tuned c data = Some (useInterp, c') -> wf c -> extents_ok c -> errorBoundMode c = EB_ABS ->
  same_data c c' /\ cmprAlgo c' = (if useInterp then ALGO_INTERP else ALGO_LORENZO_REG) /\
  (useInterp = false -> pred_dim c' = N c /\ blockSize c' = blockSize (new (dims c))).
Proof.
  intros E Hwf Hex Hm. assert (same_data c c) as Hrefl by (by split_and!).
  unfold tuned in E. apply bind_Some in E as (_ & _ & E). apply bind_Some in E as ([[[sd sn] ds] sb] & _ & E). unfold chosen in E.
  assert (is_u8 ALGO_INTERP) as U by (by repeat split).
  destruct (_ =? _); simplify_eq; [split_and!; [by apply same_algo | done | done] |].
  apply bind_Some in E as ([[s o] lc] & E1 & E). apply lorenzo_keeps in E1 as ->; [| done].
  apply bind_Some in E as ([r c1] & E2 & E). apply tune_interp_same in E2 as [Hs Ha].
  destruct (negb _); simplify_eq; [split_and!; [by apply same_algo | done | done] |].
  apply bind_Some in E as (lc & E & [= <- <-]). apply tune_lorenzo_like in E as (bins & pd & Hb & ->); [| done].
  pose proof Hs as (_ & _ & _ & -> & _). rewrite setDims_same by done. cbn [with_pred_dim with_bins sample_config with_lorenzo
    setDims with_algo sz3MagicNumber sz3DataVer cmprAlgo errorBoundMode absErrorBound relErrorBound psnrErrorBound l2normErrorBound
    lorenzo lorenzo2 regression regression2 openmp dataType lossless encoder interpAlgo interpDirection interpBlockSize quantbinCnt] in *.
  split; [| by split]. split_and!; try done. intros _.
  assert (is_i32 (blockSize (new (dims c))) /\ is_i32 (N c)) as [B1 B2].
  { split; [unfold new, setDims; cbn [blockSize]; by repeat case_match |]. destruct Hex as [_ [Hl Hdim] _].
    rewrite (wf_N c Hwf), Hl. unfold is_i32. lia. }
  destruct Hwf. split; cbn; try done. by apply Hb.
Qed.

(** The configuration that the data are compressed with, once the bound is absolute. *)
Definition final (c : Config) (data : list Z) : option Config :=
  if cmprAlgo c =? ALGO_INTERP_LORENZO then snd <$> tuned c data else Some c.

(** The composition it stands for is ready for the data. *)
Definition prepared (c : Config) (q : LinearQuantizer.LinearQuantizer) (data buffer rs : list Z) : Prop :=
  cmprAlgo c = ALGO_INTERP /\ ready (interpolation_of c q) data buffer rs \/
  cmprAlgo c = ALGO_LORENZO_REG /\ use_generic c = true /\ dim = 1%nat /\ ready (lorenzo_1d_of c q) data buffer rs \/
  cmprAlgo c = ALGO_LORENZO_REG /\ use_generic c = true /\ dim = 3%nat /\
    Lorenzo3.domain (Lorenzo3.make c q) data /\ framed (Lorenzo3.make c q) data buffer rs \/
  cmprAlgo c = ALGO_LORENZO_REG /\ use_generic c = false /\
    (exists gd p, Typetwo.make_predictor dim (COEFF dim) c = Some p /\
       SZIterateCompressor.input dim (HP := Typetwo.typetwo_any dim left_first junk) c gd p q data /\
       SZIterateCompressor.buffer_of dim (HP := Typetwo.typetwo_any dim left_first junk) NDEBUG c p q data = Some (buffer, rs)) \/
  cmprAlgo c = ALGO_NOPRED /\ NDEBUG = true /\ ready q data buffer rs.

(** The extents, as they are counted in the compressor of blocks. *)
Definition extents (c : Config) : list nat := Z.to_nat <$> take dim (dims c).

(** The compressor that goes through the blocks is used. *)
Definition in_blocks (c : Config) : Prop := cmprAlgo c = ALGO_LORENZO_REG /\ use_generic c = false.

(** The frame is no longer than the data; for the compressor of blocks, also as its decompressor counts
    it. *)
Definition frame_fits (c : Config) (q : LinearQuantizer.LinearQuantizer) (data buffer : list Z) : Prop :=
  (length buffer <= 8 * length data)%nat /\
  (in_blocks c -> forall p, Typetwo.make_predictor dim (COEFF dim) c = Some p ->
     SZIterateCompressor.frame_fits dim (HP := Typetwo.typetwo_any dim left_first junk) c (extents c) p q data).

(** In the compressor of blocks, no block is refused by the predictor chosen for it. *)
Definition none_refused (c : Config) (q : LinearQuantizer.LinearQuantizer) (data : list Z) : Prop :=
  in_blocks c -> forall p, Typetwo.make_predictor dim (COEFF dim) c = Some p ->
    SZIterateCompressor.none_refused dim (HP := Typetwo.typetwo_any dim left_first junk) c (extents c) p q data.

(** In the decomposition for three dimensions, the coefficients of the regressions can be decoded. *)
Definition coefficients_kept (c : Config) (q : LinearQuantizer.LinearQuantizer) (data : list Z) : Prop :=
  cmprAlgo c = ALGO_LORENZO_REG -> use_generic c = true -> dim = 3%nat ->
  Lorenzo3.enough_regressions (Lorenzo3.make c q) data /\ Lorenzo3.none_repeated (Lorenzo3.make c q) data.

Lemma dispatch_direct c ca q data cmpData buffer rs :
  situation c ca q data -> prepared ca q data buffer rs -> frame_fits ca q data buffer -> none_refused ca q data ->
  coefficients_kept ca q data ->
  dispatch_spec c ca data cmpData rs /\ Forall2 (LinearQuantizer.bounded q) data rs.
Proof.
  intros Hst Hp [Hcap Hfits] Href Hkept. pose proof (situation_algo _ _ _ _ Hst) as (Ha & _).
  destruct Hp as [[H1 H2] | [(H1 & H2 & H3 & H4) | [(H1 & H2 & H3 & H4 & H5) | [(H1 & H2 & gd & p & H3 & H4 & H5) | (H1 & H2 & H3)]]]].
  - eapply dispatch_interp; [done | congruence | done | done].
  - eapply dispatch_lorenzo_1d; [done | congruence | done | done | done | done].
  - eapply dispatch_lorenzo_3d; [done | congruence | done | done | | done]. split; [| done]. by split; [| apply Hkept].
  - assert (gd = extents ca) as ->.
    { unfold extents. destruct H4 as [(-> & _) _]. rewrite <- list_fmap_compose, <- (list_fmap_id gd) at 1.
      apply list_fmap_ext. intros i x _. symmetry. apply Nat2Z.id. }
    eapply dispatch_typetwo; [done | congruence | done | done | done | by apply Href | by apply Hfits | done].
  - eapply dispatch_nopred; [done | done | congruence | done | done].
Qed.

Lemma interp_keeps c data cmpData size out c' : errorBoundMode c = EB_ABS ->
  SZ_compress_Interp c data cmpData = Some (size, out, c') -> c' = c.
Proof.
  intros Hm E. unfold SZ_compress_Interp, make_absolute, calAbsErrorBound in E. rewrite Hm in E.
  apply bind_Some in E as (? & _ & E). apply bind_Some in E as (? & _ & E). cbn [mbind option_bind Z.eqb EB_ABS] in E.
  apply bind_Some in E as (q & _ & E). unfold generic_compress in E. apply bind_Some in E as ([s o] & _ & E). by simplify_eq.
Qed.

(** The dispatcher, for a configuration that the tests chose. *)
Lemma dispatch_chosen c ca data cmpData useInterp c' :
  make_absolute c data = Some ca -> tuned ca data = Some (useInterp, c') -> wf ca -> extents_ok ca ->
  f64_eqb (absErrorBound c') 0 = false ->
  SZ_compress_dispatcher c' data cmpData
  = (if useInterp then SZ_compress_Interp c' data cmpData else SZ_compress_LorenzoReg c' data cmpData).
Proof.
  intros Habs Ht Hwf Hex Hb. destruct (calAbs_mode _ _ _ _ _ _ _ Habs) as (Hm & _).
  destruct (tuned_spec ca data useInterp c' Ht Hwf Hex Hm) as [(_ & _ & S1 & _ & _ & S2 & S3 & _ & _) [Ha _]].
  unfold SZ_compress_dispatcher. rewrite sz_assert_true.
  2:{ apply Z.eqb_eq. rewrite S1, (wf_N ca Hwf). by destruct Hex as [_ [-> _] _]. }
  cbn [mbind option_bind]. assert (make_absolute c' data = Some c') as -> by (unfold make_absolute, calAbsErrorBound; by rewrite S2, Hm).
  cbn [mbind option_bind]. rewrite Hb, Ha. by destruct useInterp.
Qed.

(** Tuning: as if the dispatcher had been called with the configuration chosen. *)
Lemma dispatch_tuned c ca useInterp c' q data cmpData :
  N c = Z.of_nat dim -> make_absolute c data = Some ca -> cmprAlgo c = ALGO_INTERP_LORENZO ->
  tuned ca data = Some (useInterp, c') -> wf ca -> extents_ok ca -> quantizer_of c' = Some q ->
  SZ_compress_dispatcher c data cmpData = SZ_compress_dispatcher c' data cmpData.
Proof.
  intros HN Habs Halgo Ht Hwf Hex Hq. destruct (calAbs_mode _ _ _ _ _ _ _ Habs) as (Hm & _ & HN' & Ha & _).
  destruct (tuned_spec ca data useInterp c' Ht Hwf Hex Hm) as [(_ & _ & S1 & _ & _ & S2 & S3 & _ & _) _].
  pose proof (quantizer_bound _ _ Hq) as Hb. rewrite (dispatch_chosen c ca data cmpData useInterp c') by done.
  unfold SZ_compress_dispatcher. rewrite sz_assert_true by (apply Z.eqb_eq; congruence).
  cbn [mbind option_bind]. rewrite Habs. cbn [mbind option_bind]. rewrite Ha, Halgo, <- S3, Hb.
  change (SZ_compress_Interp_lorenzo ca data cmpData
    = if useInterp then SZ_compress_Interp c' data cmpData else SZ_compress_LorenzoReg c' data cmpData).
  unfold SZ_compress_Interp_lorenzo. rewrite Ha, Halgo, sz_assert_true by done.
  cbn [mbind option_bind]. rewrite (make_absolute_again c data ca Habs). cbn [mbind option_bind]. by rewrite Ht.
Qed.

(** Every route of the dispatcher with a bound that is not 0. *)
Lemma dispatch_correct c ca c' q data cmpData buffer rs :
  N c = Z.of_nat dim -> num c = Z.of_nat (length data) -> make_absolute c data = Some ca -> wf ca -> extents_ok ca ->
  final ca data = Some c' -> quantizer_of c' = Some q -> prepared c' q data buffer rs ->
  frame_fits c' q data buffer -> none_refused c' q data -> coefficients_kept c' q data ->
  dispatch_spec c c' data cmpData rs /\ Forall2 (LinearQuantizer.bounded q) data rs /\ same_data ca c'.
Proof.
  intros HN Hn Habs Hwf Hex Hf Hq Hp Hfits Href Hkept. destruct (calAbs_mode _ _ _ _ _ _ _ Habs) as (Hm & Hn' & HN' & Ha & _).
  unfold final in Hf. destruct (Z.eqb_spec (cmprAlgo ca) ALGO_INTERP_LORENZO) as [E | E]; [| injection Hf as <-].
  - apply fmap_Some in Hf as ([useInterp c1] & Hf & ->). cbn [snd] in *. rename c1 into c'.
    destruct (tuned_spec ca data useInterp c' Hf Hwf Hex Hm) as [Hs _].
    pose proof Hs as (_ & _ & S1 & _ & S4 & S2 & S3 & _).
    assert (situation c' c' q data) as Hst.
    { split; [congruence | congruence | | done]. unfold make_absolute, calAbsErrorBound. by rewrite S2, Hm. }
    destruct (dispatch_direct c' c' q data cmpData buffer rs Hst Hp Hfits Href Hkept) as [(size & out & E1 & E2) Hacc].
    split; [| done]. exists size, out. split; [| done]. rewrite <- E1. by apply (dispatch_tuned c ca useInterp c' q); try congruence.
  - split_and!; try apply (dispatch_direct c ca q data cmpData buffer rs); done.
Qed.

(** Without an error the bytes are kept. *)
Lemma dispatch_lossless c ca data cmpData :
  N c = Z.of_nat dim -> num c = Z.of_nat (length data) -> Forall is_u64 data ->
  make_absolute c data = Some ca -> f64_eqb (absErrorBound ca) 0 = true ->
  dispatch_spec c ca data cmpData data.
Proof.
  intros HN Hn Hdata Habs Hz. destruct (calAbs_mode _ _ _ _ _ _ _ Habs) as (_ & Hn' & _).
  assert (exists size out, l_compress (store_array 8 data) cmpData = (size, out)) as (size & out & El)
    by (destruct (l_compress (store_array 8 data) cmpData); eauto).
  exists size, out. unfold SZ_compress_dispatcher. rewrite sz_assert_true by (by apply Z.eqb_eq).
  cbn [mbind option_bind]. rewrite Habs. cbn [mbind option_bind].
  rewrite Hz, Hn', Hn, Nat2Z.id, take_ge by (by rewrite length_store_array). rewrite El. split; [done |].
  pose proof (l_length (store_array 8 data) cmpData) as Hl. rewrite El in Hl. cbn [snd] in Hl. split; [done |].
  intros Hs. destruct (l_correct _ _ _ _ El Hs) as (H0 & _). split; [done |].
  intros c0 tl size' [Hsz Ht]. unfold SZ_decompress_dispatcher.
  destruct (sequential_same (loaded c0 ca)) as (E1 & E2 & _). rewrite E1, E2. cbn [loaded absErrorBound num].
  destruct (unpack_holds _ _ _ _ tl size' (uninit <$> seq 0 (8 * length data)) El Hs Hsz Ht) as (Hle & rest & Eu & _);
    [rewrite length_store_array, length_fmap, length_seq; lia |].
  rewrite Hz, assert_true by (by apply Z.leb_le). cbn [mbind option_bind].
  rewrite Hn', Hn, Nat2Z.id, Eu. by rewrite load_store_array.
Qed.

Lemma calAbs_openmp c data ca : make_absolute c data = Some ca ->
  openmp ca = openmp c /\ dims ca = dims c /\ sz3MagicNumber ca = sz3MagicNumber c /\ sz3DataVer ca = sz3DataVer c.
Proof. unfold make_absolute, calAbsErrorBound. repeat case_match; intros; inv_opt; done. Qed.

Lemma sequential_more c : dims (sequential c) = dims c /\ sz3MagicNumber (sequential c) = sz3MagicNumber c /\
  sz3DataVer (sequential c) = sz3DataVer c.
Proof. unfold sequential. by destruct OPENMP. Qed.

(** More bytes are asked for than there are. *)
Lemma dispatch_overread c cmpData cmpSize : Z.of_nat (length cmpData) < cmpSize ->
  SZ_decompress_dispatcher c cmpData cmpSize = None.
Proof.
  intros Hlt. unfold SZ_decompress_dispatcher. rewrite assert_false by (by apply Z.leb_gt).
  unfold SZ_decompress_LorenzoReg, SZ_decompress_Interp, SZ_decompress_nopred, generic_decompress, Typetwo.decompress.
  assert (forall o : option unit, forall k : unit -> option (list Z), (forall u, k u = None) -> (o ≫= k) = None) as Hb
    by (intros [u |] k Hk; [apply Hk | done]).
  destruct (f64_eqb _ _); [done |]. repeat case_match; try done; apply Hb; intros _;
    try (destruct (quantizer_of _); [| done]); try (destruct (Typetwo.make_predictor _ _ _); [| done]); cbn [mbind option_bind];
    first [by apply SZGenericCompressor.decompress_overread | by apply SZIterateCompressor.iterate_overread].
Qed.

(** With assertions, the algorithm without prediction stops at one that is for the
    interpolation. *)
Theorem sz_nopred_assert c ca data cmpData :
  NDEBUG = false -> make_absolute c data = Some ca -> cmprAlgo c = ALGO_NOPRED ->
  f64_eqb (absErrorBound ca) 0 = false -> SZ_compress_dispatcher c data cmpData = None.
Proof.
  intros Hnd Ha Hn Hz. destruct (calAbs_mode _ _ _ _ _ _ _ Ha) as (_ & _ & _ & A & _).
  unfold SZ_compress_dispatcher. rewrite Ha. destruct (sz_assert (N c =? Z.of_nat dim)); [| done].
  cbn [mbind option_bind]. rewrite Hz, A, Hn. change (SZ_compress_nopred ca data cmpData = None). unfold SZ_compress_nopred.
  assert (sz_assert (cmprAlgo ca =? ALGO_INTERP) = None) as ->.
  { unfold sz_assert. rewrite Hnd, A, Hn. by apply assert_false. }
  by destruct (sz_assert (N ca =? Z.of_nat dim)).
Qed.

(** The frame of values that are all unpredictable is longer than the data. *)
Lemma unpredictable_length d data inds rs d' buffer rs' :
  InterpolationDecomposition.compress dim log2 d data = Some (inds, rs, d') ->
  length (LinearQuantizer.unpred (InterpolationDecomposition.quantizer d')) = length data ->
  SZGenericCompressor.buffer_of d data = Some (buffer, rs') -> (8 * length data < length buffer)%nat.
Proof.
  intros Ec Hun Hb. unfold SZGenericCompressor.buffer_of in Hb.
  cbn [d_compress interpolation_here InterpolationDecomposition.interpolation] in Hb. rewrite Ec in Hb.
  cbn [mbind option_bind d_save interpolation_here InterpolationDecomposition.interpolation] in Hb.
  apply bind_Some in Hb as (e & _ & Hb). apply bind_Some in Hb as (u & _ & Hb).
  apply (inj Some), (f_equal fst) in Hb. cbn [fst] in Hb. rewrite <- Hb, length_app.
  unfold InterpolationDecomposition.save. rewrite !length_app, !length_le_bytes, length_store_array, LinearQuantizer.length_save. lia.
Qed.

(** C26: when every value was stored as unpredictable, the frame is longer than the data, for which the
    decompressor makes room; zstd reports an error, and the decompressor does not look at it, but
    goes on with what is in the memory it allocated: if zstd left it as it was, and it begins with
    the frame of other data, of a decompression before, these are returned. *)
Theorem sz_unpredictable_lost d data inds rs d' buffer cmpData size out c' d0 other frame rs2 rest :
  InterpolationDecomposition.compress dim log2 d data = Some (inds, rs, d') ->
  length (LinearQuantizer.unpred (InterpolationDecomposition.quantizer d')) = length data ->
  SZGenericCompressor.buffer_of d data = Some (buffer, rs) ->
  l_compress buffer cmpData = (size, out) -> size <= Z.of_nat (length cmpData) ->
  ready d other frame rs2 -> length other = length data -> (length frame <= 8 * length other)%nat ->
  d_peer d d0 -> num c' = Z.of_nat (length data) -> uninit <$> seq 0 (8 * length data) = frame ++ rest ->
  (l_decompress (take (Z.to_nat size) out) (frame ++ rest)).2 = frame ++ rest ->
  Z.of_nat (length (frame ++ rest)) < (l_decompress (take (Z.to_nat size) out) (frame ++ rest)).1 /\
  generic_decompress d0 c' out size = Some rs2.
Proof.
  intros Ec Hun Hb El Hs (Hd & Hf & Hpos & Hlen & Hbound) Hlo Hcap Hpeer Hn Hroom Hkeep.
  assert (length (frame ++ rest) = 8 * length data)%nat as Hr by (rewrite <- Hroom, length_fmap; apply length_seq).
  pose proof (unpredictable_length d data inds rs d' buffer rs Ec Hun Hb) as Hlong.
  split; [apply (l_too_small buffer cmpData size out _ El Hs); lia |].
  pose proof (l_length buffer cmpData) as Hll. rewrite El in Hll. cbn [snd] in Hll.
  unfold generic_decompress. rewrite Hn, Nat2Z.id, Hroom, <- Hlo.
  apply (SZGenericCompressor.frame_correct d d0 other frame rs2 _ out size rest); try done.
  - intros inds' rs' d'' E. exact (indices_encodable d other inds' rs' d'' Hd Hpos Hlen Hbound E).
  - lia.
  - lia.
  - by rewrite (take_ge (frame ++ rest)) by (rewrite Hr; lia).
Qed.

(** C30: the tests on a sample, for the algorithm by default: what is returned keeps the extents, the bound
    and what else the decompressor needs of the configuration with the bound made absolute.  They lead
    to the interpolation or to the Lorenzo predictors; for the latter, the block size and the
    dimensions of the prediction are those by default, not those that were tested.  The bytes are
    those that the dispatcher writes when it is called with the configuration returned. *)
Theorem sz_tuned c ca data cmpData size out c' :
  make_absolute c data = Some ca -> wf ca -> extents_ok ca ->
  SZ_compress_Interp_lorenzo c data cmpData = Some (size, out, c') ->
  same_data ca c' /\
  (cmprAlgo c' = ALGO_INTERP \/
   cmprAlgo c' = ALGO_LORENZO_REG /\ pred_dim c' = N ca /\ blockSize c' = blockSize (new (dims ca))) /\
  SZ_compress_dispatcher c' data cmpData = Some (size, out, c').
Proof.
  intros Habs Hwf Hex E. unfold SZ_compress_Interp_lorenzo in E. apply bind_Some in E as (_ & _ & E). rewrite Habs in E.
  cbn [mbind option_bind] in E. apply bind_Some in E as ([useInterp c1] & Ht & E).
  destruct (calAbs_mode _ _ _ _ _ _ _ Habs) as (Hm & _).
  destruct (tuned_spec ca data useInterp c1 Ht Hwf Hex Hm) as (Hsame & Ha & Hdef).
  pose proof Hsame as (_ & _ & _ & _ & _ & S2 & _). rewrite Hm in S2.
  assert (c' = c1 /\ f64_eqb (absErrorBound c1) 0 = false) as [-> Hb].
  { destruct useInterp; [pose proof (interp_keeps _ _ _ _ _ _ S2 E) as -> | pose proof (lorenzo_keeps _ _ _ _ _ _ S2 E) as ->];
      (split; [done |]); unfold SZ_compress_Interp, SZ_compress_LorenzoReg, make_absolute, calAbsErrorBound in E;
      rewrite S2 in E; cbn [Z.eqb EB_ABS] in E;
      apply bind_Some in E as (_ & _ & (_ & _ & E)%bind_Some); cbn [mbind option_bind] in E;
      apply bind_Some in E as (q & Hq & _); by apply (quantizer_bound c1 q). }
  split; [done |]. split; [destruct useInterp; [by left | right; by split; [| apply Hdef]] |].
  rewrite (dispatch_chosen c ca data cmpData useInterp c1) by done. by destruct useInterp.
Qed.

End algorithms.

(** ** Witnesses *)

Definition zero (_ : nat) : Z := 0.

(** The logarithm rounded up, which is all that is used of it; zstd that stores, and four threads
    that write in another order. *)
Definition sample_env : Environment := {|
  log2 := InterpolationDecomposition.sample_log2; log10 := id; pow10 := id; sqrt := id;
  ZSTD_compress := Lossless.store_c; ZSTD_decompress := Lossless.store_d; env_order := list_order;
  left_first := true; junk := 0; garbage := zero; uninit := zero; padding := zero; NDEBUG := false; OPENMP := false;
  COEFF _ := []; omp_num_threads := 4; omp_order := [2; 0; 3; 1]%nat;
  float_compress _ _ := None; float_decompress _ _ _ := None |}.

Section sample.

#[local] Existing Instance sample_env.

Lemma sample_laws : LosslessLaws zstd_here.
Proof. exact Lossless.store_laws. Qed.

Definition quarter : Z := 0x3fd0000000000000.

Definition with_abs (c : Config) (abs : Z) : Config :=
  mkConfig (sz3MagicNumber c) (sz3DataVer c) (N c) (dims c) (num c) (cmprAlgo c) EB_ABS
    abs (relErrorBound c) (psnrErrorBound c) (l2normErrorBound c) (lorenzo c)
    (lorenzo2 c) (regression c) (regression2 c) (openmp c) (dataType c) (lossless c)
    (encoder c) (interpAlgo c) (interpDirection c) (interpBlockSize c) (quantbinCnt c)
    (blockSize c) (stride c) (pred_dim c).

Lemma sz_nopred_assert_witness :
  SZ_compress_dispatcher 1 (with_algo (with_abs (new [24]) quarter) ALGO_NOPRED) (replicate 24 0) [] = None.
Proof.
  apply (sz_nopred_assert 1 (with_algo (with_abs (new [24]) quarter) ALGO_NOPRED)
    (with_algo (with_abs (new [24]) quarter) ALGO_NOPRED)); vm_compute; reflexivity.
Defined.

(** 520 values that rise and fall; the sample has 18 of them. *)
Definition waves : list Z := (fun k => f64_of_Z (Z.of_nat k * Z.of_nat k mod 7)) <$> seq 0 520.
Definition waves_conf : Config := with_abs (new [520]) quarter.

Definition waves_sample : list Z := Eval vm_compute in
  (fun k => f64_of_Z (Z.of_nat k * Z.of_nat k mod 7)) <$> (seq 9 9 ++ seq 502 9)%nat.

Lemma waves_sampled : Extraction.sampling waves (Z.to_nat <$> dims waves_conf) = Some (waves_sample, 18%nat, [18%nat], 9%nat).
Proof.
  assert (Extraction.min_element [520%nat] = Some 520%nat) as Em by done.
  change (Z.to_nat <$> dims waves_conf) with [520%nat]. unfold Extraction.sampling. rewrite Em. cbn [mbind option_bind].
  rewrite (assert_true (0 <? 520)%nat) by done. cbn [mbind option_bind]. rewrite Extraction.block_520. vm_compute. reflexivity.
Qed.

Definition waves_tuned : bool * Config := Eval vm_compute in default (true, waves_conf) (tuned 1 waves_conf waves).

Lemma waves_choice : tuned 1 waves_conf waves = Some waves_tuned.
Proof. rewrite (tuned_sampled 1 waves_conf waves _ _ _ _ waves_sampled) by done. vm_compute. reflexivity. Qed.

Lemma waves_wf : wf waves_conf.
Proof.
  split; [vm_compute; split; congruence | vm_compute; split; congruence | vm_compute; reflexivity | |
          vm_compute; split; congruence ..].
  change (Forall is_u64 [520]). repeat constructor; unfold is_u64; lia.
Qed.

Definition waves_out : Z * list Z * Config := Eval vm_compute in
  default (0, [], waves_conf) (SZ_compress_LorenzoReg 1 waves_tuned.2 waves (replicate 5000 7)).

Lemma waves_compressed : SZ_compress_Interp_lorenzo 1 waves_conf waves (replicate 5000 7) = Some waves_out.
Proof.
  unfold SZ_compress_Interp_lorenzo. change (make_absolute waves_conf waves) with (Some waves_conf).
  rewrite sz_assert_true by reflexivity. cbn [mbind option_bind]. rewrite waves_choice. vm_compute. reflexivity.
Qed.

Lemma sz_tuned_witness : exists size out c', SZ_compress_Interp_lorenzo 1 waves_conf waves (replicate 5000 7) = Some (size, out, c') /\
  same_data waves_conf c' /\ cmprAlgo c' = ALGO_LORENZO_REG /\ pred_dim c' = 1 /\ blockSize c' = 128 /\
  SZ_compress_dispatcher 1 c' waves (replicate 5000 7) = Some (size, out, c').
Proof.
  exists waves_out.1.1, waves_out.1.2, waves_out.2. split; [exact waves_compressed |].
  destruct (sz_tuned 1 waves_conf waves_conf waves (replicate 5000 7) waves_out.1.1 waves_out.1.2 waves_out.2) as (Hs & Hc & E).
  - reflexivity.
  - exact waves_wf.
  - split; [repeat constructor | split; [done | lia] | done].
  - exact waves_compressed.
  - split; [exact Hs |]. split; [reflexivity |]. destruct Hc as [Hc | (_ & H1 & H2)]; [discriminate Hc |].
    split; [exact H1 |]. split; [exact H2 | exact E].
Defined.

(** 24 numbers all over the place, and 24 times the number 2, with a radius of 1; the memory of the
    decompressor holds the frame of the latter. *)
Definition far : list Z := (fun k => f64_of_Z ((Z.of_nat k * Z.of_nat k * 577 + Z.of_nat k * 13) mod 997 * 100 + 1000)) <$> seq 0 24.
Definition calm : list Z := replicate 24 0x4000000000000000.
Definition far_conf : Config := with_abs (new [24]) quarter.
Definition far_d : InterpolationDecomposition.Decomposition :=
  interpolation_of far_conf (LinearQuantizer.mk [] 0 quarter 0x4010000000000000 1).
Definition frame_of (data : list Z) : list Z :=
  default [] (fst <$> @SZGenericCompressor.buffer_of _ (interpolation_here 1) huffman_here far_d data).
Definition far_buffer : list Z := Eval vm_compute in frame_of far.
Definition calm_buffer : list Z := Eval vm_compute in frame_of calm.
Definition far_run : list Z * list Z * InterpolationDecomposition.Decomposition := Eval vm_compute in
  default ([], [], far_d) (InterpolationDecomposition.compress 1 InterpolationDecomposition.sample_log2 far_d far).

End sample.

(** The memory that is allocated, with what it holds; zstd leaves it as it was when it fails. *)
Definition stale_env : Environment := {|
  log2 := InterpolationDecomposition.sample_log2; log10 := id; pow10 := id; sqrt := id;
  ZSTD_compress := Lossless.store_c; ZSTD_decompress := Lossless.keep_d; env_order := list_order;
  left_first := true; junk := 0; garbage := zero; uninit i := default 0 (calm_buffer !! i); padding := zero;
  NDEBUG := false; OPENMP := false;
  COEFF _ := []; omp_num_threads := 4; omp_order := [2; 0; 3; 1]%nat;
  float_compress _ _ := None; float_decompress _ _ _ := None |}.

Section stale.

#[local] Existing Instance stale_env.

Lemma calm_ready : ready (HD := interpolation_here 1) far_d calm calm_buffer calm.
Proof.
  split; [| split; [vm_compute; reflexivity | split_and!; [simpl; lia | done | done]]]. split.
  - done.
  - by repeat split.
  - by vm_compute.
  - by vm_compute.
  - split_and!; [done | lia | by repeat constructor].
  - by split.
  - by vm_compute.
  - eexists _, 5%nat, [0%nat], _. split; [done |]. split; [by vm_compute |]. split; [repeat constructor; simpl; lia |].
    split; [vm_compute; by repeat split |]. split; [vm_compute; reflexivity |]. vm_compute. by repeat split.
Qed.

Lemma sz_unpredictable_lost_witness :
  exists size out, l_compress far_buffer (replicate 400 7) = (size, out) /\
    generic_decompress (HD := interpolation_here 1) far_d far_conf out size = Some calm.
Proof.
  exists (Z.of_nat (length far_buffer)), (far_buffer ++ replicate (400 - length far_buffer) 7). split; [vm_compute; reflexivity |].
  apply (@sz_unpredictable_lost stale_env 1 Lossless.keep_laws far_d far far_run.1.1 far_run.1.2 far_run.2 far_buffer
    (replicate 400 7) (Z.of_nat (length far_buffer)) (far_buffer ++ replicate (400 - length far_buffer) 7)
    far_conf far_d calm calm_buffer calm (replicate (192 - length calm_buffer) 0)).
  - vm_compute. reflexivity.
  - vm_compute. reflexivity.
  - vm_compute. reflexivity.
  - vm_compute. reflexivity.
  - vm_compute. discriminate.
  - exact calm_ready.
  - reflexivity.
  - vm_compute. lia.
  - vm_compute. reflexivity.
  - vm_compute. reflexivity.
  - vm_compute. reflexivity.
  - vm_compute. reflexivity.
Defined.

End stale.

End SzAlgo.
