(* ===== verification/SzOmp.v ===== *)
(** * SzOmp: the threads of SZ3

    Models [SZ3/api/impl/SZImplOMP.hpp] for any number of dimensions, of threads, and any order in
    which they write.  The data are divided along the first dimension.

    The parts of the threads are the data; their results lie one after the other whatever the
    order in which the threads write them; and since the size of what a thread compressed is not
    kept, the whole is larger than the data.  A thread that gets one row of data of more
    dimensions stops at an assertion. *)

From Stdlib Require Import ZArith Lia.
From stdpp Require Import sets.
From S2P Require Import Prelude Bytes Float64 SzBytes Stl Quantizer SzHuffman SzEncoder.
From S2P Require Import SzConfig SzPipeline SzDecomp SzInterp SzAlgo.

Module SzOmp.
Import SzConfig SzAlgo.

(** ** The parts *)

(** The rows of thread [tid] of [n], of [d] rows: [int] from and to. *)
Definition thread_lo (d n : Z) (tid : nat) : Z := i32 (u64 (Z.of_nat tid * d) / n).
Definition thread_hi (d n : Z) (tid : nat) : Z := i32 (u64 (Z.of_nat (tid + 1) * d) / n).

(** [num_t_base], the values of a row. *)
Definition row_size (ds : list Z) : Z := foldl (fun n d => u64 (n * d)) 1 (drop 1 ds).

(** [dims_t] and [data_t] *)
Definition thread_dims (ds : list Z) (n : Z) (tid : nat) : option (list Z) :=
  match ds with
  | [] => None
  | d :: ds => Some (u64 (thread_hi d n tid - thread_lo d n tid) :: ds)
  end.

Definition thread_data (ds : list Z) (n : Z) (data : list Z) (tid : nat) : option (list Z) :=
  d ← ds !! 0%nat;
  let base := row_size ds in
  slice data (u64 (thread_lo d n tid * base)) (u64 (u64 (thread_hi d n tid - thread_lo d n tid) * base)).

(** ** The threads *)

(** [std::minmax_element] of the part of a thread, and the range of all. *)
Definition minmax (l : list Z) : option (Z * Z) :=
  x ← l !! 0%nat;
  Some (foldl (fun m y => if f64_ltb y m then y else m) x (drop 1 l),
        foldl (fun m y => if f64_ltb y m then m else y) x (drop 1 l)).

Definition omp_range (parts : list (list Z)) : option Z :=
  l ← mapM minmax parts;
  lo ← l.*1 !! 0%nat;
  hi ← l.*2 !! 0%nat;
  Some (f64_sub (foldl (fun m y => if f64_ltb m y then y else m) hi (drop 1 l.*2))
                (foldl (fun m y => if f64_ltb y m then y else m) lo (drop 1 l.*1))).

(** The number of threads, the configurations and the sizes. *)
Fixpoint save_confs (old : list Z) (cs : list Config) : option (list Z) :=
  match cs with
  | [] => Some []
  | c :: cs =>
      b ← save (take (Z.to_nat size_est) old) c;
      bs ← save_confs (drop (Z.to_nat size_est) old) cs;
      Some (b ++ bs)
  end.

Definition omp_header (old : list Z) (outs : list (Config * list Z)) : option (list Z) :=
  confs ← save_confs (drop 4 old) outs.*1;
  Some (le_bytes 4 (Z.of_nat (length outs)) ++ confs ++ store_array 8 ((fun out => Z.of_nat (length out.2)) <$> outs)).

(** [cmp_start_t] *)
Fixpoint starts (start : nat) (parts : list (list Z)) : list nat :=
  match parts with
  | [] => []
  | p :: parts => start :: starts (start + length p) parts
  end.

(** The copies of the threads, each into its place, in the order in which they run. *)
Definition omp_copy (parts : list (list Z)) (order : list nat) (buffer : list Z) : list Z :=
  foldr (fun tid buffer =>
           match starts 0 parts !! tid, parts !! tid with
           | Some start, Some p => list_inserts start p buffer
           | _, _ => buffer
           end) buffer order.

Section threads.

Context `{Env : Environment}.
(** The parameter [N] of the templates. *)
Variable dim : nat.

(** The bound, made absolute with the range of the parts. *)
Definition omp_absolute (c : Config) (data : list Z) (parts : list (list Z)) : option Config :=
  if errorBoundMode c =? EB_ABS then Some c
  else range ← omp_range parts; calAbsErrorBound log10 pow10 sqrt c data range.

(** One thread compresses its part into a buffer of the same size; the size of what it wrote is not
    kept. *)
Definition omp_thread (c : Config) (n : Z) (tp : nat * list Z) : option (Config * list Z) :=
  dims_t ← thread_dims (dims c) n tp.1;
  '(_, out, c) ← SZ_compress_dispatcher dim (setDims c dims_t) tp.2 (uninit <$> seq 0 (8 * length tp.2));
  Some (c, out).

(** The number of threads. *)
Definition nThreads (d : Z) : Z := if d <? omp_num_threads then i32 d else omp_num_threads.

(** [None] also when there is no room for what is written, which the code does not check. *)
Definition SZ_compress_OMP (c : Config) (data cmpData : list Z) : option (Z * list Z * Config) :=
  _ ← sz_assert (N c =? Z.of_nat dim);
  d ← dims c !! 0%nat;
  let n := nThreads d in
  parts ← mapM (thread_data (dims c) n data) (seq 0 (Z.to_nat n));
  c ← omp_absolute c data parts;
  outs ← mapM (omp_thread c n) (zip (seq 0 (Z.to_nat n)) parts);
  _ ← assert (4 + length outs * (Z.to_nat size_est + 8) + length (mjoin outs.*2) <=? length cmpData)%nat;
  header ← omp_header cmpData outs;
  let size := Z.of_nat (length header + length (mjoin outs.*2)) in
  Some (size, header ++ omp_copy outs.*2 omp_order (drop (length header) cmpData), c).

Fixpoint load_confs (n : nat) (bytes : list Z) : option (list Config * list Z) :=
  match n with
  | O => Some ([], bytes)
  | S n =>
      '(c, bytes) ← load (new []) bytes;
      '(cs, bytes) ← load_confs n bytes;
      Some (c :: cs, bytes)
  end.

(** The sum of the sizes before each. *)
Fixpoint start_offsets (start : Z) (sizes : list Z) : list Z :=
  match sizes with
  | [] => []
  | s :: sizes => start :: start_offsets (u64 (start + s)) sizes
  end.

(** Every thread decompresses its part into its place of the result. *)
Definition SZ_decompress_OMP (c : Config) (cmpData : list Z) (cmpSize : Z) : option (list Z) :=
  '(n, rest) ← MemoryUtil.read_var 4 cmpData;
  let n := i32 n in
  '(confs, rest) ← load_confs (Z.to_nat n) rest;
  '(sizes, rest) ← MemoryUtil.read_array 8 n rest;
  d ← dims c !! 0%nat;
  parts ← mapM (fun ctz => let '(ct, start, size) := ctz in SZ_decompress_dispatcher dim ct (drop (Z.to_nat start) rest) size)
            (zip (zip confs (start_offsets 0 sizes)) sizes);
  let place tid := Z.to_nat (u64 (thread_lo d n tid * row_size (dims c))) in
  _ ← assert (forallb (fun tp => place tp.1 + length tp.2 <=? Z.to_nat (num c))%nat (imap pair parts));
  Some (foldr (fun tid buffer => from_option (fun p => list_inserts (place tid) p buffer) buffer (parts !! tid))
          (garbage <$> seq 0 (Z.to_nat (num c))) omp_order).

End threads.

Lemma mapM_snoc {A B} (f : A -> option B) l x l' y : mapM f l = Some l' -> f x = Some y ->
  mapM f (l ++ [x]) = Some (l' ++ [y]).
Proof.
  intros Hl Hx. revert l' Hl. induction l as [| a l IH]; intros l' Hl; cbn [mapM app] in *.
  - injection Hl as <-. by rewrite Hx.
  - apply bind_Some in Hl as (b & Hb & (k & Hk & [= <-])%bind_Some). rewrite Hb. cbn [mbind option_bind]. by rewrite (IH k Hk).
Qed.

(** ** The copies *)

Lemma starts_lookup parts : forall start tid s p, starts start parts !! tid = Some s -> parts !! tid = Some p ->
  (start <= s)%nat /\ (s + length p <= start + length (mjoin parts))%nat /\
  forall i, (s <= i < s + length p)%nat -> mjoin parts !! (i - start)%nat = p !! (i - s)%nat.
Proof.
  induction parts as [| x parts IH]; intros start [| tid] s p Hs Hp; try done; simpl in Hs, Hp.
  - simplify_eq. assert (mjoin (p :: parts) = p ++ mjoin parts) as -> by done. rewrite length_app.
    split_and!; [lia | lia |]. intros i Hi. by rewrite lookup_app_l by lia.
  - destruct (IH _ _ _ _ Hs Hp) as (H1 & H2 & H3). assert (mjoin (x :: parts) = x ++ mjoin parts) as -> by done.
    rewrite length_app. split_and!; [lia | lia |]. intros i Hi. rewrite lookup_app_r by lia. rewrite <- H3 by lia. f_equal. lia.
Qed.

Lemma starts_cover parts : forall start i, (start <= i < start + length (mjoin parts))%nat ->
  exists tid s p, starts start parts !! tid = Some s /\ parts !! tid = Some p /\ (s <= i < s + length p)%nat.
Proof.
  induction parts as [| x parts IH]; intros start i Hi; [simpl in Hi; lia |].
  assert (mjoin (x :: parts) = x ++ mjoin parts) as E by done. rewrite E, length_app in Hi.
  destruct (decide (i < start + length x)%nat); [by exists 0%nat, start, x; split_and!; try lia |].
  destruct (IH (start + length x)%nat i) as (tid & s & p & H1 & H2 & H3); [lia |]. by exists (S tid), s, p.
Qed.

(** After the copies of some threads: what they wrote, and nothing past the end. *)
Lemma copy_spec parts buffer order : (length (mjoin parts) <= length buffer)%nat ->
  length (omp_copy parts order buffer) = length buffer /\
  (forall i, (length (mjoin parts) <= i)%nat -> omp_copy parts order buffer !! i = buffer !! i) /\
  forall tid s p i, tid ∈ order -> starts 0 parts !! tid = Some s -> parts !! tid = Some p ->
    (s <= i < s + length p)%nat -> omp_copy parts order buffer !! i = mjoin parts !! i.
Proof.
  intros Hlen. induction order as [| t order (I1 & I2 & I3)]; cbn [omp_copy foldr].
  { split_and!; [done | done |]. intros tid s p i Hin. by apply elem_of_nil in Hin. }
  fold (omp_copy parts order buffer).
  destruct (starts 0 parts !! t) as [st |] eqn:Es; [destruct (parts !! t) as [pt |] eqn:Ep |].
  - destruct (starts_lookup parts 0 t st pt Es Ep) as (_ & S2 & S3). rewrite length_inserts. split_and!; [done | |].
    + intros i Hi. rewrite list_lookup_inserts_ge by lia. by apply I2.
    + intros tid s p i Hin Hs Hp Hi.
      destruct (decide (st <= i < st + length pt)%nat) as [Hr | Hr].
      * rewrite list_lookup_inserts by lia. rewrite <- S3 by done. by rewrite Nat.sub_0_r.
      * apply elem_of_cons in Hin as [-> | Hin]; [simplify_eq; lia |].
        transitivity (omp_copy parts order buffer !! i); [| by eapply I3].
        destruct (decide (i < st)%nat); [apply list_lookup_inserts_lt; lia | apply list_lookup_inserts_ge; lia].
  - split_and!; [done | done |]. intros tid s p i Hin Hs Hp Hi.
    apply elem_of_cons in Hin as [-> | Hin]; [congruence | by eapply I3].
  - split_and!; [done | done |]. intros tid s p i Hin Hs Hp Hi.
    apply elem_of_cons in Hin as [-> | Hin]; [congruence | by eapply I3].
Qed.

(** When every thread has copied, the results are one after the other. *)
Lemma copy_all parts buffer order : (length (mjoin parts) <= length buffer)%nat ->
  (forall tid, (tid < length parts)%nat -> tid ∈ order) ->
  omp_copy parts order buffer = mjoin parts ++ drop (length (mjoin parts)) buffer.
Proof.
  intros Hlen Hall. destruct (copy_spec parts buffer order Hlen) as (H1 & H2 & H3). apply list_eq. intros i.
  destruct (decide (i < length (mjoin parts))%nat) as [Hi | Hi].
  - rewrite lookup_app_l by done. destruct (starts_cover parts 0 i) as (tid & s & p & Hs & Hp & Hr); [lia |].
    eapply H3; [| done | done | done]. apply Hall. by eapply lookup_lt_Some.
  - rewrite H2, lookup_app_r, lookup_drop by lia. f_equal. lia.
Qed.

(** ** The parts divide the data *)

Section parts.

Variables d n : Z.
Hypothesis Hd : 0 < d < 2 ^ 31.
Hypothesis Hn : 0 < n <= d.

Lemma thread_lo_div tid : Z.of_nat tid <= n -> thread_lo d n tid = Z.of_nat tid * d / n.
Proof.
  intros Ht. unfold thread_lo. assert (0 <= Z.of_nat tid * d < 2 ^ 64) as H1 by nia. rewrite u64_id by done.
  assert (Z.of_nat tid * d / n <= d) as H2 by (apply Z.div_le_upper_bound; nia).
  assert (0 <= Z.of_nat tid * d / n) as H3 by (apply Z.div_pos; lia). apply i32_id. unfold is_i32. lia.
Qed.

Lemma thread_hi_lo tid : thread_hi d n tid = thread_lo d n (S tid).
Proof. unfold thread_hi, thread_lo. by replace (tid + 1)%nat with (S tid) by lia. Qed.

Lemma thread_lo_steps k : Z.of_nat k < n -> 0 <= thread_lo d n k <= thread_lo d n (S k) /\ thread_lo d n (S k) <= d.
Proof.
  intros Hk. rewrite !thread_lo_div by lia. split; [split |].
  - apply Z.div_pos; lia.
  - apply Z.div_le_mono; nia.
  - apply Z.div_le_upper_bound; nia.
Qed.

Variables ds data : list Z.
Notation base := (row_size (d :: ds)).
Hypothesis Hdata : Z.of_nat (length data) = d * base.
Hypothesis H64 : d * base < 2 ^ 64.

Lemma parts_prefix k : Z.of_nat k <= n -> exists parts, mapM (thread_data (d :: ds) n data) (seq 0 k) = Some parts /\
  length parts = k /\ mjoin parts = take (Z.to_nat (thread_lo d n k * base)) data.
Proof.
  assert (0 <= base) as Hb by nia.
  induction k as [| k IH]; intros Hk.
  { exists []. rewrite thread_lo_div by lia. assert (Z.of_nat 0 * d / n = 0) as -> by (by apply Z.div_0_l; lia). done. }
  destruct IH as (parts & E & Hl & Hj); [lia |]. rewrite seq_S. destruct (thread_lo_steps k) as [Hlo Hhi]; [lia |].
  set (x := thread_lo d n k) in *. set (y := thread_lo d n (S k)) in *.
  assert (x * base <= y * base <= d * base) as Hxy by nia.
  eexists. split.
  { apply mapM_snoc; [done |]. unfold thread_data. cbn [lookup list_lookup mbind option_bind]. change (0 + k)%nat with k.
    rewrite thread_hi_lo. fold x y. rewrite (u64_id (y - x)), !u64_id by (unfold is_u64; nia).
    unfold slice. rewrite !(proj2 (Z.leb_le _ _)) by nia. reflexivity. }
  split; [rewrite length_app; simpl; lia |].
  assert (forall z, mjoin (parts ++ [z]) = mjoin parts ++ z) as Hjoin.
  { intros z. rewrite join_app. cbn. by rewrite app_nil_r. }
  rewrite Hjoin, Hj, take_take_drop. f_equal. nia.
Qed.

Lemma parts_all : exists parts, mapM (thread_data (d :: ds) n data) (seq 0 (Z.to_nat n)) = Some parts /\
  length parts = Z.to_nat n /\ mjoin parts = data.
Proof.
  destruct (parts_prefix (Z.to_nat n)) as (parts & E & Hl & Hj); [lia |]. exists parts. split_and!; try done.
  rewrite Hj, thread_lo_div by lia.
  assert (Z.of_nat (Z.to_nat n) * d / n = d) as -> by (rewrite Z2Nat.id, Z.mul_comm by lia; apply Z.div_mul; lia). apply take_ge. lia.
Qed.

End parts.

(** ** The whole *)

Lemma save_confs_length cs : forall old bytes, save_confs old cs = Some bytes ->
  (length cs * Z.to_nat size_est <= length old)%nat -> length bytes = (length cs * Z.to_nat size_est)%nat.
Proof.
  induction cs as [| c cs IH]; intros old bytes E Hl; cbn [save_confs length] in *; [by injection E as <- |].
  apply bind_Some in E as (b & Eb & (bs & Ebs & [= <-])%bind_Some).
  apply IH in Ebs; [| rewrite length_drop; lia]. rewrite length_app, Ebs. unfold save in Eb.
  destruct (_ <? _) eqn:Es; [done |]. apply Z.ltb_ge in Es. apply (inj Some) in Eb as <-.
  rewrite length_app, length_take, length_drop, length_take. lia.
Qed.

Lemma omp_header_length old outs header : omp_header old outs = Some header ->
  (4 + length outs * Z.to_nat size_est <= length old)%nat -> length header = (4 + length outs * (Z.to_nat size_est + 8))%nat.
Proof.
  unfold omp_header. intros (confs & Ec & E)%bind_Some Hl. apply (inj Some) in E as <-.
  apply save_confs_length in Ec; [| rewrite length_drop, length_fmap; lia]. rewrite length_fmap in Ec.
  rewrite !length_app, length_le_bytes, length_store_array, length_fmap, Ec. lia.
Qed.

Section results.

Context `{Env : Environment}.
Context (Hzstd : LosslessLaws zstd_here).
Variable dim : nat.

Lemma threads_length c n : forall tids parts outs, mapM (omp_thread dim c n) (zip tids parts) = Some outs -> length tids = length parts ->
  length outs = length parts /\ length (mjoin outs.*2) = (8 * length (mjoin parts))%nat.
Proof.
  intros tids parts outs E Hl. apply mapM_Some_1 in E. pose proof (Forall2_length E) as Hlen. rewrite length_zip_with in Hlen.
  split; [lia |]. clear Hlen. revert tids outs Hl E. induction parts as [| p parts IH]; intros [| tid tids] outs Hl E; try done.
  - by apply Forall2_nil_inv_l in E as ->.
  - apply Forall2_cons_inv_l in E as ([c' out] & outs' & Ho & E & ->). specialize (IH tids outs' ltac:(simpl in Hl; lia) E).
    assert (mjoin (p :: parts) = p ++ mjoin parts) as -> by done. rewrite fmap_cons. cbn [snd].
    assert (mjoin (out :: outs'.*2) = out ++ mjoin outs'.*2) as -> by done. rewrite !length_app, IH.
    unfold omp_thread in Ho. cbn [fst snd] in Ho. apply bind_Some in Ho as (dt & _ & ([[size o] c1] & Hd & [= _ <-])%bind_Some).
    apply dispatch_length in Hd; [| done]. rewrite Hd, length_fmap, length_seq. lia.
Qed.

Lemma nThreads_min d : 0 < d < 2 ^ 31 -> nThreads d = Z.min d omp_num_threads.
Proof.
  intros Hd. unfold nThreads. destruct (Z.ltb_spec d omp_num_threads); [rewrite i32_id by (unfold is_i32; lia) |]; lia.
Qed.

(** C28: with any number of dimensions and of threads that write in any order: the parts of the threads are
    the data, what they compressed is stored one after the other, and the size that is returned is
    that of the data and of a header, so that nothing is gained. *)
Theorem omp_result c data cmpData d ds size out c' :
  dims c = d :: ds -> 0 < d < 2 ^ 31 -> Z.of_nat (length data) = d * row_size (dims c) -> d * row_size (dims c) < 2 ^ 64 ->
  0 < omp_num_threads -> (forall tid, Z.of_nat tid < omp_num_threads -> tid ∈ omp_order) ->
  SZ_compress_OMP dim c data cmpData = Some (size, out, c') ->
  let n := Z.min d omp_num_threads in
  exists header parts outs, mjoin parts = data /\ Z.of_nat (length parts) = n /\
    mapM (omp_thread dim c' n) (zip (seq 0 (Z.to_nat n)) parts) = Some outs /\
    out = header ++ mjoin outs.*2 ++ drop (length header + length (mjoin outs.*2)) cmpData /\
    size = 4 + n * (size_est + 8) + 8 * Z.of_nat (length data).
Proof.
  intros Hdims Hd Hdata H64 Ht Horder H n. unfold SZ_compress_OMP in H. apply bind_Some in H as (_ & _ & H).
  rewrite Hdims in H, Hdata, H64. cbn [lookup list_lookup mbind option_bind] in H. rewrite nThreads_min in H by done. fold n in H.
  destruct (parts_all d n Hd ltac:(lia) ds data Hdata H64) as (parts & Ep & Hl & Hj).
  rewrite Ep in H. cbn [mbind option_bind] in H. apply bind_Some in H as (ca & _ & H).
  apply bind_Some in H as (outs & Eo & H). apply bind_Some in H as (_ & Hroom%assert_Some & H).
  apply bind_Some in H as (header & Eh & H). apply (inj Some), pair_equal_spec in H as [[<- <-]%pair_equal_spec <-].
  apply Nat.leb_le in Hroom. destruct (threads_length ca n _ parts outs Eo) as [Hn Hs]; [by rewrite length_seq |]. rewrite Hj in Hs.
  assert (length header = 4 + length outs * (Z.to_nat size_est + 8))%nat as Hh.
  { apply omp_header_length in Eh; lia. }
  exists header, parts, outs. split_and!; [done | lia | done | |].
  - rewrite copy_all, drop_drop; [done | rewrite length_drop; lia |].
    intros tid Htid. rewrite length_fmap in Htid. apply Horder. lia.
  - rewrite Hh, Hs. unfold size_est. lia.
Qed.

(** C29: with as many threads as rows, or more, every thread gets one row; its extent of 1 is left out of
    the configuration of the part, which then has a dimension less than the compressor: with
    assertions, nothing of more than one dimension is compressed. *)
Theorem omp_single_rows c data cmpData d ds :
  NDEBUG = false -> dims c = d :: ds -> ds <> [] -> Forall (fun x => 1 < x) ds -> (length ds < 100)%nat ->
  N c = Z.of_nat (length (dims c)) -> 0 < d < 2 ^ 31 -> d <= omp_num_threads ->
  SZ_compress_OMP dim c data cmpData = None.
Proof.
  intros Hnd Hdims Hne Hds Hlen HN Hd Ht. unfold SZ_compress_OMP.
  destruct (sz_assert (N c =? Z.of_nat dim)) as [[] |] eqn:Ea; [| done]. cbn [mbind option_bind].
  unfold sz_assert in Ea. rewrite Hnd in Ea. apply assert_Some, Z.eqb_eq in Ea.
  assert (nThreads d = d) as En by (rewrite nThreads_min by done; lia).
  rewrite Hdims. cbn [lookup list_lookup mbind option_bind]. rewrite En.
  destruct (mapM (thread_data _ _ _) _) as [parts |] eqn:Ep; [| done]. cbn [mbind option_bind].
  destruct (omp_absolute c data parts) as [ca |] eqn:Eabs; [| done]. cbn [mbind option_bind].
  assert (dims ca = d :: ds) as Hca.
  { unfold omp_absolute in Eabs. destruct (_ =? _); [congruence |]. apply bind_Some in Eabs as (r & _ & E).
    rewrite <- Hdims. revert E. unfold calAbsErrorBound. clear. repeat case_match; intros; inv_opt; done. }
  assert (exists p ps tids, parts = p :: ps /\ seq 0 (Z.to_nat d) = 0%nat :: tids) as (p & ps & tids & -> & Es).
  { apply mapM_Some_1, Forall2_length in Ep. rewrite length_seq in Ep. destruct parts as [| p ps]; [simpl in Ep; lia |].
    destruct (Z.to_nat d) as [| m] eqn:Ed; [lia |]. by exists p, ps, (seq 1 m). }
  rewrite Es. cbn [zip zip_with mapM]. enough (omp_thread dim ca d (0%nat, p) = None) as -> by done.
  unfold omp_thread. cbn [fst snd]. rewrite Hca. cbn [thread_dims mbind option_bind].
  assert (thread_hi d d 0 - thread_lo d d 0 = 1) as ->.
  { rewrite thread_hi_lo, (thread_lo_div d d Hd ltac:(lia) 0 ltac:(lia)), (thread_lo_div d d Hd ltac:(lia) 1 ltac:(lia)).
    change (Z.of_nat 0) with 0. change (Z.of_nat 1) with 1. rewrite Z.mul_0_l, Z.mul_1_l, Z.div_0_l, Z.div_same by lia. done. }
  change (u64 1) with 1.
  assert (N (setDims ca (1 :: ds)) <> Z.of_nat dim) as Hneq.
  { assert (N (setDims ca (1 :: ds)) = Z.of_nat (length ds)) as ->; [| rewrite <- Ea, HN, Hdims; simpl; lia].
    unfold setDims. cbn [N]. assert (filter (fun dim => 1 < dim) (1 :: ds) = ds) as ->.
    { rewrite filter_cons, decide_False by lia. clear -Hds. induction Hds as [| x l Hx Hl IH]; [done |].
      rewrite filter_cons, decide_True by done. by rewrite IH. }
    destruct (Nat.eqb_spec (length ds) 0) as [E0 | E0]; [by apply nil_length_inv in E0 |]. apply swrap_id; lia. }
  unfold SZ_compress_dispatcher. assert (sz_assert (N (setDims ca (1 :: ds)) =? Z.of_nat dim) = None) as ->; [| done].
  unfold sz_assert. rewrite Hnd. by apply assert_false, Z.eqb_neq.
Qed.

End results.

(** ** Witnesses *)

Section sample.

#[local] Existing Instance sample_env.

(** Forty values for four threads, which write in another order, without a loss. *)
Definition sample_data : list Z := (fun k => f64_of_Z (Z.of_nat k)) <$> seq 0 40.
Definition sample_conf : Config := with_abs (new [20; 2]) 0.

Lemma omp_result_witness :
  exists size out c' header parts outs,
    SZ_compress_OMP 2 sample_conf sample_data (replicate 2000 7) = Some (size, out, c') /\
    mjoin parts = sample_data /\ Z.of_nat (length parts) = 4 /\
    mapM (omp_thread 2 c' 4) (zip (seq 0 4) parts) = Some outs /\
    out = header ++ mjoin outs.*2 ++ drop (length header + length (mjoin outs.*2)) (replicate 2000 7) /\ size = 1124.
Proof.
  destruct (SZ_compress_OMP 2 sample_conf sample_data (replicate 2000 7)) as [[[size out] c'] |] eqn:E.
  - exists size, out, c'.
    destruct (omp_result sample_laws 2 sample_conf sample_data (replicate 2000 7) 20 [2] size out c')
      as (header & parts & outs & H1 & H2 & H3 & H4 & H5); [done | lia | done | done | done | | exact E |].
    + intros tid Ht. change omp_num_threads with 4 in Ht. assert (tid < 4)%nat as Hlt by lia. clear Ht E.
      do 4 (destruct tid as [| tid]; [vm_compute; repeat constructor |]). lia.
    + exists header, parts, outs. by split_and!.
  - exfalso. vm_compute in E. discriminate.
Defined.

Lemma omp_single_rows_witness :
  SZ_compress_OMP 2 (with_abs (new [3; 2]) 0) (take 6 sample_data) (replicate 2000 7) = None.
Proof.
  apply (omp_single_rows 2 (with_abs (new [3; 2]) 0) (take 6 sample_data) (replicate 2000 7) 3 [2]);
    [reflexivity | reflexivity | done | repeat constructor | simpl; lia | reflexivity | lia | vm_compute; congruence].
Defined.

End sample.

End SzOmp.
