(* ===== verification/SzApi.v ===== *)
(** * SzApi: the entry points of SZ3

    Models [SZ3/api/impl/SZImpl.hpp], [SZ3/api/sz.hpp] and the C interface
    [tools/sz3c/src/sz3c.cpp] that the database calls, for one to four dimensions and
    [T = double].  [float] data are a parameter. *)

From Stdlib Require Import ZArith Lia.
From S2P Require Import Prelude Bytes Float64 SzBytes Stl Quantizer SzHuffman SzEncoder.
From S2P Require Import SzConfig SzPipeline SzDecomp SzLorenzo3 SzInterp SzIterate SzTypetwo SzAlgo SzOmp.

Module SzApi.
Import SzConfig SzAlgo SzOmp.

(** The bounds and the mode that the C interface is given. *)
Definition with_bounds (c : Config) (abs rel mode : Z) : Config :=
  mkConfig (sz3MagicNumber c) (sz3DataVer c) (N c) (dims c) (num c) (cmprAlgo c) mode
    abs rel (psnrErrorBound c) (l2normErrorBound c) (lorenzo c)
    (lorenzo2 c) (regression c) (regression2 c) (openmp c) (dataType c) (lossless c)
    (encoder c) (interpAlgo c) (interpDirection c) (interpBlockSize c) (quantbinCnt c)
    (blockSize c) (stride c) (pred_dim c).

Section api.

Context `{Env : Environment}.

(** ** [SZImpl.hpp] *)

(** The compressor works on a copy of the data. *)
Definition SZ_compress_impl (dim : nat) (c : Config) (data cmpData : list Z) : option (Z * list Z * Config) :=
  let c := sequential c in
  if openmp c then SZ_compress_OMP dim c data cmpData
  else SZ_compress_dispatcher dim c (take (Z.to_nat (num c)) data) cmpData.

Definition SZ_decompress_impl (dim : nat) (c : Config) (cmpData : list Z) (cmpSize : Z) : option (list Z) :=
  let c := sequential c in
  if openmp c then SZ_decompress_OMP dim c cmpData cmpSize
  else SZ_decompress_dispatcher dim c cmpData cmpSize.

(** ** [sz.hpp] *)

(** [SZ_compress] into a buffer; the configuration goes in front.  [None] stands for the
    exception for a buffer that is too small and the exit for more than 4 dimensions, and for
    a buffer that has no room for the configuration, where the code writes past its end. *)
Definition SZ_compress (conf_ : Config) (data cmpData : list Z) : option (Z * list Z) :=
  let c := conf_ in
  let cmpCap := Z.of_nat (length cmpData) in
  _ ← assert (num c * 8 <=? cmpCap);
  _ ← assert (size_est <=? cmpCap);
  let head := take (Z.to_nat size_est) cmpData in
  let dst := drop (Z.to_nat size_est) cmpData in
  '(dstLen, out, c) ←
    (if N c =? 1 then SZ_compress_impl 1 c data dst
     else if N c =? 2 then SZ_compress_impl 2 c data dst
     else if N c =? 3 then SZ_compress_impl 3 c data dst
     else if N c =? 4 then SZ_compress_impl 4 c data dst
     else None);
  confPos ← save head c;
  Some (size_est + dstLen, confPos ++ out).

(** The variant that allocates the buffer, of [num * sizeof(T) * 1.2] bytes. *)
Definition bufferLen (c : Config) : Z :=
  f64_to_i64 (f64_mul (f64_of_Z (u64 (num c * 8))) SZGenericCompressor.f64_1_2).

Definition SZ_compress_alloc (c : Config) (data : list Z) : option (Z * list Z) :=
  SZ_compress c data (uninit <$> seq 0 (Z.to_nat (bufferLen c))).

(** [SZ_decompress]: the size is passed on as it is, the position after the configuration. *)
Definition SZ_decompress (c : Config) (cmpData : list Z) (cmpSize : Z) : option (Config * list Z) :=
  '(c, confPos) ← load c cmpData;
  _ ← assert (sz3MagicNumber c =? SZ3_MAGIC_NUMBER);
  _ ← assert (bool_decide (versionStr (sz3DataVer c) = SZ3_DATA_VER));
  dec ← (if N c =? 1 then SZ_decompress_impl 1 c confPos cmpSize
         else if N c =? 2 then SZ_decompress_impl 2 c confPos cmpSize
         else if N c =? 3 then SZ_decompress_impl 3 c confPos cmpSize
         else if N c =? 4 then SZ_decompress_impl 4 c confPos cmpSize
         else None);
  Some (c, dec).

(** ** [sz3c.cpp] *)

(** The modes of the C interface. *)
Definition mode_of (errBoundMode : Z) : option Z :=
  if errBoundMode =? 0 then Some EB_ABS
  else if errBoundMode =? 1 then Some EB_REL
  else if errBoundMode =? 2 then Some EB_ABS_AND_REL
  else if errBoundMode =? 3 then Some EB_ABS_OR_REL
  else None.

Definition dims_of (r5 r4 r3 r2 r1 : Z) : list Z :=
  if r2 =? 0 then [r1]
  else if r3 =? 0 then [r2; r1]
  else if r4 =? 0 then [r3; r2; r1]
  else if r5 =? 0 then [r4; r3; r2; r1]
  else [u64 (r5 * r4); r3; r2; r1].

Definition conf_of (r5 r4 r3 r2 r1 : Z) : Config := new (dims_of r5 r4 r3 r2 r1).

(** [SZ_compress_args]: the bytes handed out; [None] also when the size returned is not that
    of the buffer it is copied from. *)
Definition SZ_compress_args (type : Z) (data : list Z) (errBoundMode absErrBound relBoundRatio : Z)
    (r5 r4 r3 r2 r1 : Z) : option (list Z) :=
  let c := conf_of r5 r4 r3 r2 r1 in
  mode ← mode_of errBoundMode;
  let c := with_bounds c absErrBound relBoundRatio mode in
  '(outSize, cmpr_data) ←
    (if type =? SZ_FLOAT then float_compress c data
     else if type =? SZ_DOUBLE then SZ_compress_alloc c data
     else None);
  slice cmpr_data 0 outSize.

(** The number of values that the caller of [SZ_decompress] makes room for. *)
Definition count_of (r5 r4 r3 r2 r1 : Z) : Z :=
  if r2 =? 0 then r1
  else if r3 =? 0 then u64 (r1 * r2)
  else if r4 =? 0 then u64 (u64 (r1 * r2) * r3)
  else if r5 =? 0 then u64 (u64 (u64 (r1 * r2) * r3) * r4)
  else u64 (u64 (u64 (u64 (r1 * r2) * r3) * r4) * r5).

Definition SZ_decompress_C (type : Z) (bytes : list Z) (byteLength r5 r4 r3 r2 r1 : Z) : option (list Z) :=
  let n := count_of r5 r4 r3 r2 r1 in
  if type =? SZ_FLOAT then float_decompress bytes byteLength n
  else if type =? SZ_DOUBLE then
    '(c, dec_data) ← SZ_decompress (new []) bytes byteLength;
    _ ← assert (Z.of_nat (length dec_data) <=? n);
    Some dec_data
  else None.

(** ** From the dispatcher to the entry points *)

Context (Hzstd : LosslessLaws zstd_here).

Section dimensions.

Variable dim : nat.

Lemma compress_for c data dst : N c = Z.of_nat dim -> (1 <= dim <= 4)%nat ->
  (if N c =? 1 then SZ_compress_impl 1 c data dst
   else if N c =? 2 then SZ_compress_impl 2 c data dst
   else if N c =? 3 then SZ_compress_impl 3 c data dst
   else if N c =? 4 then SZ_compress_impl 4 c data dst
   else None) = SZ_compress_impl dim c data dst.
Proof. intros -> Hd. by destruct dim as [| [| [| [| [| d]]]]]; try lia. Qed.

Lemma decompress_for c bytes size : N c = Z.of_nat dim -> (1 <= dim <= 4)%nat ->
  (if N c =? 1 then SZ_decompress_impl 1 c bytes size
   else if N c =? 2 then SZ_decompress_impl 2 c bytes size
   else if N c =? 3 then SZ_decompress_impl 3 c bytes size
   else if N c =? 4 then SZ_decompress_impl 4 c bytes size
   else None) = SZ_decompress_impl dim c bytes size.
Proof. intros -> Hd. by destruct dim as [| [| [| [| [| d]]]]]; try lia. Qed.

(** The size of the whole, when as many bytes follow as the configuration takes. *)
Lemma whole_trailing size tl : LosslessTrailing zstd_here -> size_est <= Z.of_nat (length tl) -> trailing size (size_est + size) tl.
Proof. intros Ht Hl. split; [unfold size_est in *; lia | by right]. Qed.

(** From the dispatcher to [SZ_compress] and [SZ_decompress]: the bytes that were written, with
    anything after them, and the size of what follows the configuration, or more, give the data back. *)
Lemma sz_from_dispatch c c' data cmpData rs :
  (1 <= dim <= 4)%nat -> openmp (sequential c) = false -> openmp c' = false -> N c = Z.of_nat dim -> num c = Z.of_nat (length data) ->
  wf c' -> N c' = Z.of_nat dim -> sz3MagicNumber c' = SZ3_MAGIC_NUMBER -> sz3DataVer c' = versionInt 3 2 0 ->
  8 * num c <= Z.of_nat (length cmpData) -> size_est <= Z.of_nat (length cmpData) ->
  dispatch_spec dim (sequential c) c' data (drop (Z.to_nat size_est) cmpData) rs ->
  exists size bytes, SZ_compress c data cmpData = Some (size_est + size, bytes) /\
    length bytes = length cmpData /\ (size_est + size <= Z.of_nat (length cmpData) -> 0 <= size /\
     forall c0 tl size', trailing size size' tl ->
       SZ_decompress c0 (take (Z.to_nat (size_est + size)) bytes ++ tl) size' = Some (loaded c0 c', rs)).
Proof.
  intros Hdim Hseq Ho HN Hn Hwf HN' Hmagic Hver Hcap Hest (size & out & E & Hl & H).
  destruct (sequential_same c) as (E1 & _). unfold SZ_compress.
  rewrite !assert_true by (apply Z.leb_le; lia). cbn [mbind option_bind]. rewrite compress_for by done.
  unfold SZ_compress_impl. rewrite Hseq, E1, Hn, Nat2Z.id, (take_ge data), E by lia. cbn [mbind option_bind].
  assert (length (dims c') <= 15)%nat as Hdims by (pose proof (wf_N _ Hwf); lia).
  destruct (config_correct c c' (take (Z.to_nat size_est) cmpData) [] Hwf Hdims) as (head & Es & Hlen & _).
  { rewrite length_take. unfold size_est in *. lia. }
  rewrite Es. cbn [mbind option_bind]. exists size, (head ++ out). split; [done |].
  rewrite length_drop in H, Hl. split; [rewrite length_app; unfold size_est in *; lia |]. intros Hs.
  destruct H as (H0 & Hdec); [unfold size_est in *; lia |]. split; [done |]. intros c0 tl size' Ht. unfold SZ_decompress.
  replace (Z.to_nat (size_est + size)) with (length head + Z.to_nat size)%nat by (unfold size_est in *; lia).
  rewrite take_app_add, <- app_assoc.
  destruct (config_correct c0 c' (take (Z.to_nat size_est) cmpData) (take (Z.to_nat size) out ++ tl) Hwf Hdims)
    as (head' & Es' & _ & Hload).
  { rewrite length_take. unfold size_est in *. lia. }
  rewrite Es in Es'. injection Es' as <-. rewrite Hload.
  cbn [mbind option_bind loaded sz3MagicNumber sz3DataVer]. rewrite Hmagic, Hver.
  rewrite !assert_true by reflexivity. cbn [mbind option_bind].
  rewrite decompress_for by done. unfold SZ_decompress_impl. rewrite (Hdec c0 tl size' Ht).
  assert (openmp (sequential (loaded c0 c')) = false) as -> by (unfold sequential; by destruct OPENMP). done.
Qed.

(** In particular for the size that [SZ_compress] returned, and for that of the frame. *)
Lemma called c c' data cmpData rs : LosslessTrailing zstd_here ->
  (exists size bytes, SZ_compress c data cmpData = Some (size_est + size, bytes) /\
    length bytes = length cmpData /\ (size_est + size <= Z.of_nat (length cmpData) -> 0 <= size /\
     forall c0 tl size', trailing size size' tl ->
       SZ_decompress c0 (take (Z.to_nat (size_est + size)) bytes ++ tl) size' = Some (loaded c0 c', rs))) ->
  exists size bytes, SZ_compress c data cmpData = Some (size, bytes) /\
    length bytes = length cmpData /\ (size <= Z.of_nat (length cmpData) -> size_est <= size /\
     forall c0 tl,
       (size_est <= Z.of_nat (length tl) ->
        SZ_decompress c0 (take (Z.to_nat size) bytes ++ tl) size = Some (loaded c0 c', rs)) /\
       SZ_decompress c0 (take (Z.to_nat size) bytes ++ tl) (size - size_est) = Some (loaded c0 c', rs)).
Proof.
  intros Ht (size & bytes & E & Hl & H). exists (size_est + size), bytes. split; [done |]. split; [done |].
  intros Hs. destruct (H Hs) as [H0 Hdec]. split; [lia |]. intros c0 tl. split.
  - intros Htl. by apply Hdec, whole_trailing.
  - replace (size_est + size - size_est) with size by lia. apply Hdec, trailing_none.
Qed.

(** *** What is compressed *)

(** A configuration [c] for all the data; with the bound made absolute it is [ca], and [c'] is what
    the data are compressed with, into [buffer] before zstd, which stands for [rs]; the values are in
    the domain of the predictors and of the encoder. *)
Record lossy_input (c ca c' : Config) (q : LinearQuantizer.LinearQuantizer) (data buffer rs : list Z) : Prop := {
  li_shape : N c = Z.of_nat dim /\ num c = Z.of_nat (length data) /\ extents_ok dim c;
  li_seq : openmp (sequential c) = false;
  li_version : sz3MagicNumber c = SZ3_MAGIC_NUMBER /\ sz3DataVer c = versionInt 3 2 0;
  li_abs : make_absolute (sequential c) data = Some ca;
  li_wf : wf ca;
  li_final : final dim ca data = Some c';
  li_q : quantizer_of c' = Some q;
  li_prepared : prepared dim c' q data buffer rs
}.

Lemma lossy_correct c ca c' q data cmpData buffer rs :
  lossy_input c ca c' q data buffer rs -> frame_fits dim c' q data buffer -> none_refused dim c' q data ->
  coefficients_kept dim c' q data ->
  8 * num c <= Z.of_nat (length cmpData) -> size_est <= Z.of_nat (length cmpData) ->
  Forall2 (LinearQuantizer.bounded q) data rs /\ LinearQuantizer.error_bound q = absErrorBound ca /\
  exists size bytes, SZ_compress c data cmpData = Some (size_est + size, bytes) /\
    length bytes = length cmpData /\ (size_est + size <= Z.of_nat (length cmpData) -> 0 <= size /\
     forall c0 tl size', trailing size size' tl ->
       SZ_decompress c0 (take (Z.to_nat (size_est + size)) bytes ++ tl) size' = Some (loaded c0 c', rs)).
Proof.
  intros [(HN & Hn & Hex) Hseq [Hm Hv] Ha Hwf Hf Hq Hp] Hfits Href Hkept Hcap Hest.
  destruct (sequential_same c) as (E1 & _ & _ & _ & _ & _ & E2). destruct (sequential_more c) as (E3 & E4 & E5).
  destruct (calAbs_mode _ _ _ _ _ _ _ Ha) as (_ & A1 & A2 & _). destruct (calAbs_openmp _ _ _ Ha) as (A3 & A4 & A5 & A6).
  assert (extents_ok dim ca) as Hexa by (destruct Hex; split; rewrite ?A4, ?E3; congruence || done).
  destruct (dispatch_correct dim Hzstd (sequential c) ca c' q data (drop (Z.to_nat size_est) cmpData) buffer rs)
    as (Hspec & Hacc & (S1 & S2 & S3 & S4 & S5 & S6 & S7 & S8 & S9)); try (done || congruence).
  split; [done |]. split.
  { unfold quantizer_of, LinearQuantizer.new in Hq. apply bind_Some in Hq as (u & _ & Hq). by simplify_eq/=. }
  destruct Hex as [_ [_ Hdim] _].
  apply sz_from_dispatch; try (done || congruence || lia); [apply S8; congruence | by apply S9].
Qed.

(** C1: what [SZ_compress] wrote for one to four dimensions, with the interpolation, the Lorenzo
    predictors, regressions or no prediction, chosen or tuned, is decompressed to values within the
    absolute error bound of the data, provided that: the frame is no longer than the data, for which
    the decompressor makes room; no block is refused by the predictor chosen for it; in the decomposition for
    three dimensions, the regression is not chosen for one or two blocks only and no coefficient is
    repeated so often that it is stored again; the size returned
    is within the buffer, so that zstd did not fail; and zstd unpacks a frame before it looks at the
    bytes that follow it.  The decompressor is called with the size that [SZ_compress] returned: it
    passes it on with the position after the configuration, so that 192 more bytes, whatever they are,
    have to be readable after those written.  With the size of the frame alone it needs none. *)
Theorem sz_roundtrip c ca c' q data cmpData buffer rs :
  LosslessTrailing zstd_here ->
  lossy_input c ca c' q data buffer rs -> frame_fits dim c' q data buffer -> none_refused dim c' q data ->
  coefficients_kept dim c' q data ->
  8 * num c <= Z.of_nat (length cmpData) -> size_est <= Z.of_nat (length cmpData) ->
  Forall2 (LinearQuantizer.bounded q) data rs /\ LinearQuantizer.error_bound q = absErrorBound ca /\
  exists size bytes, SZ_compress c data cmpData = Some (size, bytes) /\
    length bytes = length cmpData /\ (size <= Z.of_nat (length cmpData) -> size_est <= size /\
     forall c0 tl,
       (size_est <= Z.of_nat (length tl) ->
        SZ_decompress c0 (take (Z.to_nat size) bytes ++ tl) size = Some (loaded c0 c', rs)) /\
       SZ_decompress c0 (take (Z.to_nat size) bytes ++ tl) (size - size_est) = Some (loaded c0 c', rs)).
Proof.
  intros Ht Hin Hfits Href Hkept Hcap Hest.
  destruct (lossy_correct c ca c' q data cmpData buffer rs Hin Hfits Href Hkept Hcap Hest) as (Hacc & Heb & Hc).
  split; [done |]. split; [done |]. by apply called.
Qed.

(** C24: with an error bound of 0 the data themselves come back, for the size that [SZ_compress] returned
    if it is within the buffer, if 192 more bytes are readable after those written, and zstd unpacks a
    frame before it looks at the bytes that follow it; with the size of the frame alone no more bytes
    are needed. *)
Theorem sz_lossless_roundtrip c ca data cmpData :
  LosslessTrailing zstd_here ->
  N c = Z.of_nat dim -> (1 <= dim <= 4)%nat -> num c = Z.of_nat (length data) -> openmp (sequential c) = false ->
  sz3MagicNumber c = SZ3_MAGIC_NUMBER -> sz3DataVer c = versionInt 3 2 0 -> Forall is_u64 data ->
  make_absolute (sequential c) data = Some ca -> wf ca -> f64_eqb (absErrorBound ca) 0 = true ->
  8 * num c <= Z.of_nat (length cmpData) -> size_est <= Z.of_nat (length cmpData) ->
  exists size bytes, SZ_compress c data cmpData = Some (size, bytes) /\
    length bytes = length cmpData /\ (size <= Z.of_nat (length cmpData) -> size_est <= size /\
     forall c0 tl,
       (size_est <= Z.of_nat (length tl) ->
        SZ_decompress c0 (take (Z.to_nat size) bytes ++ tl) size = Some (loaded c0 ca, data)) /\
       SZ_decompress c0 (take (Z.to_nat size) bytes ++ tl) (size - size_est) = Some (loaded c0 ca, data)).
Proof.
  intros Ht HN Hdim Hn Hseq Hm Hv Hdata Ha Hwf Hz Hcap Hest.
  destruct (sequential_same c) as (E1 & _ & _ & _ & _ & _ & E2). destruct (sequential_more c) as (E3 & E4 & E5).
  destruct (calAbs_mode _ _ _ _ _ _ _ Ha) as (_ & A1 & A2 & _). destruct (calAbs_openmp _ _ _ Ha) as (A3 & A4 & A5 & A6).
  apply called; [done |]. apply sz_from_dispatch; try (done || congruence || lia).
  apply dispatch_lossless; congruence || done.
Qed.

(** *** The C interface *)

Lemma bufferLen_room c : 20 <= num c <= 1000 -> size_est <= bufferLen c /\ 8 * num c <= bufferLen c.
Proof.
  intros Hn. assert (forallb (fun n => let l := f64_to_i64 (f64_mul (f64_of_Z (u64 (Z.of_nat n * 8))) SZGenericCompressor.f64_1_2) in
    (size_est <=? l) && (8 * Z.of_nat n <=? l)) (seq 20 981) = true) as H by (by vm_compute).
  rewrite forallb_forall in H. specialize (H (Z.to_nat (num c))). cbv zeta in H. rewrite andb_true_iff, !Z.leb_le, Z2Nat.id in H by lia.
  apply H, in_seq. lia.
Qed.

(** The configuration of a call. *)
Definition args_conf (r5 r4 r3 r2 r1 abs rel mode : Z) : Config := with_bounds (conf_of r5 r4 r3 r2 r1) abs rel mode.

Lemma args_double r5 r4 r3 r2 r1 data errBoundMode mode abs rel : mode_of errBoundMode = Some mode ->
  SZ_compress_args SZ_DOUBLE data errBoundMode abs rel r5 r4 r3 r2 r1
  = ('(outSize, cmpr_data) ← SZ_compress_alloc (args_conf r5 r4 r3 r2 r1 abs rel mode) data; slice cmpr_data 0 outSize).
Proof. intros Hm. unfold SZ_compress_args. rewrite Hm. reflexivity. Qed.

Lemma u64_mul_l x y : u64 (u64 x * y) = u64 (x * y).
Proof. apply Z.mul_mod_idemp_l. lia. Qed.

(** The room that the caller makes is that of the product of the extents. *)
Lemma count_product r5 r4 r3 r2 r1 n : foldr Z.mul 1 (dims_of r5 r4 r3 r2 r1) = n -> is_u64 n -> count_of r5 r4 r3 r2 r1 = n.
Proof.
  intros E Hn. rewrite <- (u64_id n Hn), <- E. unfold count_of, dims_of in *. repeat case_match; cbn [foldr] in *.
  - rewrite Z.mul_1_r in *. subst. symmetry. by apply u64_id.
  - f_equal. lia.
  - rewrite u64_mul_l. f_equal. lia.
  - rewrite (u64_mul_l (r1 * r2)), u64_mul_l. f_equal. lia.
  - rewrite (u64_mul_l (r1 * r2)), (u64_mul_l (r1 * r2 * r3)), u64_mul_l, (u64_mul_l (r5 * r4)). f_equal. lia.
Qed.

(** C18: [SZ_compress_args] for 20 to 1000 values of type double, in any number of dimensions, when the
    frame before zstd is no longer than the data, no block is refused by the predictor chosen for it, the
    regression of three dimensions is not chosen for one or two blocks only and no coefficient of it is
    repeated so often that it is stored again, and zstd unpacks a frame before it looks at the bytes
    that follow it.  If the result of zstd fits the buffer, the bytes handed out are decompressed by
    [SZ_decompress], called with their number, as the database does, to values within the absolute error
    bound, when 192 more bytes can be read after them; if it does not, the error of zstd is taken for the size of the result and more is copied than
    there is. *)
Theorem sz3c_roundtrip r5 r4 r3 r2 r1 data errBoundMode mode abs rel ca c' q buffer rs :
  LosslessTrailing zstd_here ->
  (20 <= length data <= 1000)%nat -> foldr Z.mul 1 (dims_of r5 r4 r3 r2 r1) = Z.of_nat (length data) ->
  mode_of errBoundMode = Some mode -> lossy_input (args_conf r5 r4 r3 r2 r1 abs rel mode) ca c' q data buffer rs ->
  frame_fits dim c' q data buffer -> none_refused dim c' q data ->
  coefficients_kept dim c' q data ->
  Forall2 (LinearQuantizer.bounded q) data rs /\ LinearQuantizer.error_bound q = absErrorBound ca /\
  ((exists bytes, SZ_compress_args SZ_DOUBLE data errBoundMode abs rel r5 r4 r3 r2 r1 = Some bytes /\
      forall tl, size_est <= Z.of_nat (length tl) ->
        SZ_decompress_C SZ_DOUBLE (bytes ++ tl) (Z.of_nat (length bytes)) r5 r4 r3 r2 r1 = Some rs) \/
   (exists size out, SZ_compress_alloc (args_conf r5 r4 r3 r2 r1 abs rel mode) data = Some (size, out) /\
      Z.of_nat (length out) < size /\
      SZ_compress_args SZ_DOUBLE data errBoundMode abs rel r5 r4 r3 r2 r1 = None)).
Proof.
  intros Ht Hn Hprod Hmode Hin Hfits Href Hkept. destruct (li_shape _ _ _ _ _ _ _ Hin) as (_ & Hnum & _).
  set (c := args_conf r5 r4 r3 r2 r1 abs rel mode) in *. destruct (bufferLen_room c) as [B1 B2]; [lia |].
  set (dst := uninit <$> seq 0 (Z.to_nat (bufferLen c))).
  assert (Z.of_nat (length dst) = bufferLen c) as Hdst.
  { unfold dst. rewrite length_fmap, length_seq. unfold size_est in *. lia. }
  destruct (lossy_correct _ _ _ _ _ dst _ _ Hin Hfits Href Hkept) as (Hacc & Heb & Hc); [lia | lia |].
  destruct (called _ _ _ _ _ Ht Hc) as (size & bytes & E & Hl & H).
  split; [done |]. split; [done |]. rewrite !(args_double r5 r4 r3 r2 r1 data errBoundMode mode abs rel Hmode). fold c.
  unfold SZ_compress_alloc. fold dst. rewrite E. cbn [mbind option_bind].
  destruct (Z.le_gt_cases size (Z.of_nat (length dst))) as [Hfit | Hfit].
  - left. destruct (H Hfit) as (H0 & Hdec). exists (take (Z.to_nat size) bytes). split.
    + unfold slice. by rewrite !(proj2 (Z.leb_le _ _)) by (unfold size_est in *; lia).
    + intros tl Htl. unfold SZ_decompress_C. change (SZ_DOUBLE =? SZ_FLOAT) with false. change (SZ_DOUBLE =? SZ_DOUBLE) with true.
      rewrite (count_product r5 r4 r3 r2 r1 (Z.of_nat (length data))) by (done || unfold is_u64; lia).
      replace (Z.of_nat (length (take (Z.to_nat size) bytes))) with size by (rewrite length_take; unfold size_est in *; lia).
      rewrite (proj1 (Hdec (new []) tl) Htl). cbn [mbind option_bind]. rewrite assert_true; [done |]. apply Z.leb_le.
      rewrite <- (Forall2_length Hacc). lia.
  - right. exists size, bytes. split; [done |]. split; [lia |]. unfold slice.
    by rewrite (proj2 (Z.leb_gt (0 + _) _)), andb_false_r by lia.
Qed.

End dimensions.

(** *** What goes wrong *)

Lemma load_rest c0 bytes c rest : load c0 bytes = Some (c, rest) ->
  (0 < length bytes)%nat /\ rest = drop (Z.to_nat size_est) bytes.
Proof.
  intros E. unfold load in E. split.
  - apply bind_Some in E as ([x l] & E & _). destruct bytes; [discriminate E | simpl; lia].
  - repeat (apply bind_Some in E as ([? ?] & _ & E) || apply bind_Some in E as (? & _ & E)). by injection E as _ <-.
Qed.

(** C25: the size of the whole, as [SZ_compress_args] returned it, makes [SZ_decompress] read past
    the end of the bytes, in any number of dimensions and for any algorithm: it is passed on with the
    position after the configuration. *)
Theorem sz_decompress_overread bytes c rest r5 r4 r3 r2 r1 :
  load (new []) bytes = Some (c, rest) -> openmp (sequential c) = false ->
  SZ_decompress_C SZ_DOUBLE bytes (Z.of_nat (length bytes)) r5 r4 r3 r2 r1 = None.
Proof.
  intros El Hseq. destruct (load_rest _ _ _ _ El) as [Hpos Hrest].
  assert (Z.of_nat (length rest) < Z.of_nat (length bytes)) as Hlt by (rewrite Hrest, length_drop; unfold size_est; lia).
  assert (forall dim, SZ_decompress_impl dim c rest (Z.of_nat (length bytes)) = None) as H.
  { intros dim. unfold SZ_decompress_impl. rewrite Hseq. by apply dispatch_overread. }
  unfold SZ_decompress_C, SZ_decompress. change (SZ_DOUBLE =? SZ_FLOAT) with false. change (SZ_DOUBLE =? SZ_DOUBLE) with true.
  rewrite El. cbn [mbind option_bind]. rewrite !H.
  destruct (assert (_ =? _)); [| done]. destruct (assert _); [| done]. cbn [mbind option_bind]. by repeat case_match.
Qed.

(** Up to 19 values the buffer that [SZ_compress] allocates has no room for the
    configuration. *)
Theorem sz_compress_small c data : 0 <= num c <= 19 -> SZ_compress_alloc c data = None.
Proof.
  intros Hn. unfold SZ_compress_alloc, SZ_compress. set (dst := uninit <$> _).
  assert (Z.of_nat (length dst) < size_est) as Hlt.
  { unfold dst. rewrite length_fmap, length_seq.
    assert (forallb (fun n => Z.of_nat (Z.to_nat (f64_to_i64 (f64_mul (f64_of_Z (u64 (Z.of_nat n * 8))) SZGenericCompressor.f64_1_2)))
      <? size_est) (seq 0 20) = true) as H by (by vm_compute).
    rewrite forallb_forall in H. specialize (H (Z.to_nat (num c))). rewrite Z.ltb_lt in H.
    unfold bufferLen. rewrite (Z2Nat.id (num c)) in H by lia. apply H, in_seq. lia. }
  rewrite (assert_false (size_est <=? Z.of_nat (length dst))) by (by apply Z.leb_gt). by destruct (assert _).
Qed.

End api.

(** ** Witnesses *)

Section sample.

#[local] Existing Instance sample_env.

(** 24 times the number 2, with an error bound of 0.25. *)
Definition two : Z := 0x4000000000000000.
Definition sample : list Z := replicate 24 two.
Definition sample_conf : Config := args_conf 0 0 0 0 24 quarter 0 EB_ABS.
Definition sample_q : LinearQuantizer.LinearQuantizer := LinearQuantizer.mk [] 0 quarter 0x4010000000000000 32768.
Definition sample_d : InterpolationDecomposition.Decomposition :=
  interpolation_of (with_algo sample_conf ALGO_INTERP) sample_q.
Definition sample_buffer : list Z :=
  Eval vm_compute in default [] (fst <$> @SZGenericCompressor.buffer_of _ (interpolation_here 1) huffman_here sample_d sample).

Lemma sample_wf : wf sample_conf.
Proof.
  split; [vm_compute; split; congruence | vm_compute; split; congruence | vm_compute; reflexivity | |
          vm_compute; split; congruence ..].
  change (Forall is_u64 [24]). repeat constructor; unfold is_u64; lia.
Qed.

Lemma sample_domain : InterpolationDecomposition.domain 1 log2 sample_d sample.
Proof.
  split.
  - done.
  - by repeat split.
  - by vm_compute.
  - by vm_compute.
  - split_and!; [done | lia | by repeat constructor].
  - by split.
  - by vm_compute.
  - eexists _, 5%nat, [0%nat], _. split; [done |]. split; [by vm_compute |]. split; [repeat constructor; simpl; lia |].
    split; [vm_compute; by repeat split |]. split; [vm_compute; reflexivity |]. vm_compute. by repeat split.
Qed.

Lemma sample_input :
  lossy_input 1 sample_conf sample_conf (with_algo sample_conf ALGO_INTERP) sample_q sample sample_buffer sample.
Proof.
  split.
  - split_and!; [done | done |]. split; [repeat constructor | split; [done | lia] | done].
  - done.
  - done.
  - done.
  - exact sample_wf.
  - vm_compute. reflexivity.
  - by vm_compute.
  - left. split; [done |]. split; [exact sample_domain |]. split; [vm_compute; reflexivity |].
    vm_compute. repeat split; try lia; congruence.
Qed.

Lemma sample_fits : frame_fits 1 (with_algo sample_conf ALGO_INTERP) sample_q sample sample_buffer.
Proof. split; [apply Nat.leb_le; vm_compute; reflexivity | intros [[=] _]]. Qed.

Lemma sample_refusals : none_refused 1 (with_algo sample_conf ALGO_INTERP) sample_q sample.
Proof. intros [[=] _]. Qed.

Lemma sample_kept : coefficients_kept 1 (with_algo sample_conf ALGO_INTERP) sample_q sample.
Proof. intros [=]. Qed.

Lemma sample_trailing : LosslessTrailing zstd_here.
Proof. exact Lossless.store_trailing. Qed.

Lemma sz_roundtrip_witness :
  Forall2 (LinearQuantizer.bounded sample_q) sample sample /\
  LinearQuantizer.error_bound sample_q = absErrorBound sample_conf /\
  exists bytes, SZ_compress sample_conf sample (replicate 400 7) = Some (278, bytes) /\
    forall c0 tl, size_est <= Z.of_nat (length tl) ->
      SZ_decompress c0 (take (Z.to_nat 278) bytes ++ tl) 278 = Some (loaded c0 (with_algo sample_conf ALGO_INTERP), sample).
Proof.
  assert (fst <$> SZ_compress sample_conf sample (replicate 400 7) = Some 278) as Es by (vm_compute; reflexivity).
  destruct (sz_roundtrip sample_laws 1 sample_conf sample_conf (with_algo sample_conf ALGO_INTERP) sample_q sample (replicate 400 7)
    sample_buffer sample sample_trailing sample_input sample_fits sample_refusals sample_kept) as (H1 & H2 & size & bytes & E & Hl & H);
    [vm_compute; congruence | vm_compute; congruence |].
  rewrite E in Es. injection Es as ->. split; [exact H1 |]. split; [exact H2 |]. exists bytes. split; [exact E |].
  destruct H as [_ H]; [vm_compute; congruence |]. intros c0 tl. apply H.
Defined.

(** A call whose result fits. *)
Lemma lossy_fits dim c ca c' q data cmpData buffer rs n :
  lossy_input dim c ca c' q data buffer rs -> frame_fits dim c' q data buffer -> none_refused dim c' q data ->
  coefficients_kept dim c' q data ->
  8 * num c <= Z.of_nat (length cmpData) -> size_est <= Z.of_nat (length cmpData) ->
  fst <$> SZ_compress c data cmpData = Some n -> n <= Z.of_nat (length cmpData) ->
  exists bytes, SZ_compress c data cmpData = Some (n, bytes) /\ Forall2 (LinearQuantizer.bounded q) data rs /\
    forall c0 tl, size_est <= Z.of_nat (length tl) ->
      snd <$> SZ_decompress c0 (take (Z.to_nat n) bytes ++ tl) n = Some rs.
Proof.
  intros Hin Hf Hr Hk H1 H2 En Hn.
  destruct (lossy_correct sample_laws dim _ _ _ _ _ cmpData _ _ Hin Hf Hr Hk H1 H2) as (Hacc & _ & Hc).
  destruct (called _ _ _ _ _ sample_trailing Hc) as (size & bytes & E & Hl & H).
  rewrite E in En. injection En as ->. exists bytes. split; [done |]. split; [done |]. intros c0 tl Htl.
  by rewrite (proj1 (proj2 (H Hn) c0 tl) Htl).
Qed.

(** Two dimensions: a plane with a step in a corner, in blocks with a Lorenzo predictor or a
    regression. *)
Lemma plane_lossy : lossy_input 2 (Typetwo.sample_conf [8; 8] 64) (Typetwo.sample_conf [8; 8] 64) (Typetwo.sample_conf [8; 8] 64)
  Typetwo.sample_q Typetwo.plane Typetwo.plane_frame.1 Typetwo.plane_frame.2.
Proof.
  split.
  - split_and!; [done | done |]. split; [repeat constructor | split; [done | lia] | done].
  - done.
  - done.
  - done.
  - split; [vm_compute; split; congruence | vm_compute; split; congruence | vm_compute; reflexivity | |
            vm_compute; split; congruence ..].
    change (Forall is_u64 [8; 8]). repeat constructor; unfold is_u64; lia.
  - reflexivity.
  - by vm_compute.
  - right. right. right. left. split; [done |]. split; [done |]. exists [8; 8]%nat, Typetwo.plane_p.
    split; [vm_compute; reflexivity |]. split; [exact Typetwo.plane_input |]. vm_compute. reflexivity.
Qed.

Lemma plane_frame_fits : frame_fits 2 (Typetwo.sample_conf [8; 8] 64) Typetwo.sample_q Typetwo.plane Typetwo.plane_frame.1.
Proof.
  split; [apply Nat.leb_le; vm_compute; reflexivity |]. intros _ p Hp. replace p with Typetwo.plane_p; [exact Typetwo.plane_fits |].
  apply (inj Some). rewrite <- Hp. vm_compute. reflexivity.
Qed.

Lemma plane_none_refused : none_refused 2 (Typetwo.sample_conf [8; 8] 64) Typetwo.sample_q Typetwo.plane.
Proof.
  intros _ p Hp. replace p with Typetwo.plane_p; [exact Typetwo.plane_refusals |].
  apply (inj Some). rewrite <- Hp. vm_compute. reflexivity.
Qed.

Lemma sz_roundtrip_2d : exists bytes,
  SZ_compress (Typetwo.sample_conf [8; 8] 64) Typetwo.plane (replicate 600 7) = Some (474, bytes) /\
  Forall2 (LinearQuantizer.bounded Typetwo.sample_q) Typetwo.plane Typetwo.plane_frame.2 /\
  forall c0 tl, size_est <= Z.of_nat (length tl) ->
    snd <$> SZ_decompress c0 (take (Z.to_nat 474) bytes ++ tl) 474 = Some Typetwo.plane_frame.2.
Proof. apply (lossy_fits 2 _ _ _ _ _ _ _ _ _ plane_lossy plane_frame_fits plane_none_refused);
  [intros _ [=] | vm_compute; congruence ..]. Qed.

(** Three dimensions, in blocks for all of which the regression is chosen. *)
Definition grid_frame : list Z * list Z := Eval vm_compute in
  default ([], []) (@SZGenericCompressor.buffer_of _ lorenzo_3d_here huffman_here Lorenzo3.sample_d Lorenzo3.sample).

Lemma grid_lossy : lossy_input 3 Lorenzo3.sample_conf Lorenzo3.sample_conf Lorenzo3.sample_conf
  Lorenzo3.sample_q Lorenzo3.sample grid_frame.1 grid_frame.2.
Proof.
  split.
  - split_and!; [done | done |]. split; [repeat constructor | split; [done | lia] | done].
  - done.
  - done.
  - done.
  - split; [vm_compute; split; congruence | vm_compute; split; congruence | vm_compute; reflexivity | |
            vm_compute; split; congruence ..].
    change (Forall is_u64 [4; 4; 4]). repeat constructor; unfold is_u64; lia.
  - reflexivity.
  - by vm_compute.
  - right. right. left. split; [done |]. split; [done |]. split; [done |]. split; [exact Lorenzo3.grid_domain |].
    split; [vm_compute; reflexivity |]. vm_compute. repeat split; try lia; congruence.
Qed.

Lemma sz_roundtrip_3d : exists bytes,
  SZ_compress Lorenzo3.sample_conf Lorenzo3.sample (replicate 600 7) = Some (407, bytes) /\
  Forall2 (LinearQuantizer.bounded Lorenzo3.sample_q) Lorenzo3.sample grid_frame.2 /\
  forall c0 tl, size_est <= Z.of_nat (length tl) ->
    snd <$> SZ_decompress c0 (take (Z.to_nat 407) bytes ++ tl) 407 = Some grid_frame.2.
Proof.
  apply (lossy_fits 3 _ _ _ _ _ _ _ _ _ grid_lossy).
  - split; [apply Nat.leb_le; vm_compute; reflexivity | intros [_ [=]]].
  - intros [_ [=]].
  - intros _ _ _. exact (conj Lorenzo3.sample_regressions Lorenzo3.sample_repeats).
  - vm_compute. congruence.
  - vm_compute. congruence.
  - vm_compute. congruence.
  - vm_compute. congruence.
Qed.

Lemma sz3c_roundtrip_witness :
  Forall2 (LinearQuantizer.bounded sample_q) sample sample /\
  LinearQuantizer.error_bound sample_q = absErrorBound sample_conf /\
  ((exists bytes, SZ_compress_args SZ_DOUBLE sample 0 quarter 0 0 0 0 0 24 = Some bytes /\
      forall tl, size_est <= Z.of_nat (length tl) ->
        SZ_decompress_C SZ_DOUBLE (bytes ++ tl) (Z.of_nat (length bytes)) 0 0 0 0 24 = Some sample) \/
   (exists size out, SZ_compress_alloc sample_conf sample = Some (size, out) /\
      Z.of_nat (length out) < size /\
      SZ_compress_args SZ_DOUBLE sample 0 quarter 0 0 0 0 0 24 = None)).
Proof.
  apply (sz3c_roundtrip sample_laws 1 0 0 0 0 24 sample 0 EB_ABS quarter 0 sample_conf (with_algo sample_conf ALGO_INTERP) sample_q
    sample_buffer sample);
    [exact sample_trailing | simpl; lia | reflexivity | reflexivity | exact sample_input | exact sample_fits | exact sample_refusals | exact sample_kept].
Defined.

Lemma sz_lossless_roundtrip_witness :
  exists bytes, SZ_compress (args_conf 0 0 2 3 4 0 0 EB_ABS) sample (replicate 400 7) = Some (384, bytes) /\
    forall c0 tl, size_est <= Z.of_nat (length tl) ->
      SZ_decompress c0 (take (Z.to_nat 384) bytes ++ tl) 384 = Some (loaded c0 (args_conf 0 0 2 3 4 0 0 EB_ABS), sample).
Proof.
  assert (fst <$> SZ_compress (args_conf 0 0 2 3 4 0 0 EB_ABS) sample (replicate 400 7) = Some 384) as Es by (vm_compute; reflexivity).
  destruct (sz_lossless_roundtrip sample_laws 3 (args_conf 0 0 2 3 4 0 0 EB_ABS) (args_conf 0 0 2 3 4 0 0 EB_ABS) sample (replicate 400 7))
    as (size & bytes & E & Hl & H);
    [exact sample_trailing | reflexivity | lia | reflexivity .. | | reflexivity | | reflexivity | | |].
  - apply list.Forall_forall. intros x [-> _]%elem_of_replicate. split; [discriminate | reflexivity].
  - split; [vm_compute; split; congruence | vm_compute; split; congruence | vm_compute; reflexivity | |
            vm_compute; split; congruence ..].
    change (Forall is_u64 [2; 3; 4]). repeat constructor; unfold is_u64; lia.
  - vm_compute. discriminate.
  - vm_compute. discriminate.
  - rewrite E in Es. injection Es as ->. exists bytes. split; [exact E |].
    destruct H as [_ H]; [vm_compute; discriminate |]. intros c0 tl. apply H.
Defined.

(** A configuration without regression, stored in 200 bytes. *)
Definition plain_conf : Config := with_lorenzo (with_algo sample_conf ALGO_LORENZO_REG).

Lemma sz_decompress_overread_witness :
  exists bytes, length bytes = 200%nat /\
    SZ_decompress_C SZ_DOUBLE bytes (Z.of_nat (length bytes)) 0 0 0 0 24 = None.
Proof.
  exists (fields plain_conf ++ replicate 127 0). split; [reflexivity |].
  apply (sz_decompress_overread (fields plain_conf ++ replicate 127 0) (loaded (new []) plain_conf) (replicate 8 0) 0 0 0 0 24);
    vm_compute; reflexivity.
Defined.

Lemma sz_compress_small_witness : SZ_compress_alloc (new [19]) sample = None.
Proof. apply (sz_compress_small (new [19]) sample). vm_compute. split; congruence. Defined.

End sample.
End SzApi.
